(* ===== verification/_CoqProject ===== *)
-Q . S2P
Prelude.v
WsFrame.v
WsMask.v
Pico.v
PicoLoops.v
PicoStable.v
PicoGrammar.v
PicoHeaders.v
PicoRequest.v
PicoResume.v
PicoResponse.v
Chunked.v
HttpParser.v
Base64.v
WsHandshake.v
WsServer.v
ModuleList.v
AwaitableTraits.v
Buffer.v
StreamBuffer.v
Errors.v
Address.v
Descriptor.v
AsyncOp.v
Transfer.v
Stream.v
Simple.v
Lifecycle.v
IoService.v
ThreadService.v
Delivery.v
Config.v
Memory.v
Event.v
EventOrders.v
EchoRevised.v
Promise.v
SyncWait.v
WaitOrders.v
Fmap.v
Latch.v
LatchOrders.v
WhenAll.v
Pingpong.v
PingpongRun.v
Task.v
TaskFallback.v
Frames.v
ScopeExit.v
Server.v
Chat.v
ChatServer.v
WsChat.v
Ttcp.v
UnitTests.v
