(* ===== verification/Prelude.v ===== *)
(** * xynet: a verification of the coroutine network library

    xynet is a C++20 header library for networking on Linux: sockets whose operations are
    awaited by coroutines and carried out by io_uring, with buffers, an HTTP parser, the
    WebSocket protocol, and the coroutine types all of it needs. The library is
    [src/include/xynet]; [src/example] has servers built with it. This development models the
    library, and the examples that compose it, as executable definitions written after the
    code, function by function, and proves what they do. Paths below are relative to
    [src/include/xynet] unless they begin with [src].

    ** The program and how its parts interact

    A coroutine awaits an operation of a socket. The operation ([detail/async_operation.h])
    puts an entry into the submission queue of the event loop's ring ([io_service.h]); the
    loop collects completions, stores their values in the operations and calls their
    callbacks, which submit again or resume the coroutine. Other threads hand operations to
    the loop through a queue under a mutex and wake it by an event descriptor. A coroutine is
    a [task], started when it is awaited; [when_all] awaits several, [sync_wait] runs one from
    a thread, [async_scope] counts those that nobody awaits. What is received is parsed by the
    HTTP parser or the WebSocket frame parser, which both go on where they stopped when more
    bytes arrive. The servers put these together: they accept, spawn a client for each
    connection, and join them.

    ** The files, in the order of their dependencies

    - [Prelude]: machine integers ([wrap], [schar], [to_int]), searching in lists, sums of
      errors and undefined behaviour ([outcome]: [Ret], [Err], [Ub]) and the state monad over
      it ([stateful]), with the tactics and hints the files share.
    - [WsFrame], [WsMask]: [http/websocket_frame_header.h], [http/websocket_frame_mask.h].
    - [Pico], [PicoLoops], [PicoStable], [PicoGrammar], [PicoHeaders], [PicoRequest],
      [PicoResume], [PicoResponse]: [http/picohttpparser.h], the message parser. [Pico] is the
      code; [PicoLoops] gives its loops in closed form; [PicoStable] is the interface that the
      proofs about a growing buffer go through; [PicoGrammar] is the specification, a grammar
      of messages; the others prove the parser correct for it.
    - [Chunked]: [phr_decode_chunked] of the same file, and its specification, an automaton.
    - [HttpParser]: [http/http_parser.h]. [Base64], [WsHandshake]:
      [http/websocket_request_handler.h].
    - [WsServer]: [src/example/include/common/websocket.h], [websocket_echo.cpp] and
      [websocket_discard.cpp] of [src/example/websocket].
    - [ModuleList]: [detail/module_list.h], [detail/file_descriptor_traits.h], the
      metafunctions of [file_descriptor.h], [socket/socket.h].
    - [AwaitableTraits]: what a type gives when it is awaited: [coroutine/awaitable_traits.h],
      [coroutine/is_awaitable.h] and the metafunctions beside them.
    - [Buffer]: [buffer.h]. [StreamBuffer]: [stream_buffer.h].
    - [Errors]: [detail/error_code.h], [detail/sync_operation.h], [detail/throw_or_return.h].
      [Address]: [socket/impl/address.h], [detail/endian.h]. [Descriptor]:
      [file_descriptor.h] and the synchronous operations of [socket/impl]
      ([socket_init.h], [bind.h], [listen.h], [shutdown.h], [setsockopt.h]), on the interface
      [Os] of the operating system.
    - [AsyncOp]: [async_operation_base.h], [detail/async_operation.h],
      [detail/timeout_storage.h], with the class [Operation] that the operations implement:
      [Transfer] ([socket/impl/recv_all.h], [send_all.h]) and [Lifecycle] ([connect.h],
      [accept.h], [close.h]).
    - [Stream]: two programs at the ends of a connection, on the interface that the socket
      operations are proved to have, with kernel buffers of any sizes, which a writer can
      fill. [Simple]: [echo.cpp], [discard.cpp], [daytime.cpp],
      [chargen.cpp] and [time.cpp] of [src/example/simple]. [Pingpong]:
      [src/example/pingpong], a session of the client with one of the server; [PingpongRun]: the
      client's sessions with their timer and scope.
    - [IoService]: [io_service.h]. [ThreadService]: its variable for the service of a thread.
      [Delivery]: an [Operation] on this loop.
    - [Config]: [coroutine/config.h]. [Memory]: [std::atomic] with memory orders, as messages
      that carry views. It is what [LatchOrders], [EventOrders] and [WaitOrders] are about,
      which have the steps of [Latch], [Event] and [SyncWait] again, with the memory orders of
      the code, and [TaskFallback], the branches of [task.h] that [Config] does not select.
    - [Event]: [coroutine/single_consumer_async_auto_reset_event.h]. [Promise]: how a
      coroutine leaves its result, an interface that the promises of [task], [when_all_task]
      and [sync_wait_task] implement, each for values, [void] and, for [task], references;
      the three are proved for every implementation. [SyncWait]:
      [coroutine/sync_wait.h] with its event and task. [Fmap]: [coroutine/fmap.h]. [Latch]:
      [coroutine/detail/when_all_counter.h] and [coroutine/async_scope.h] as instances of one
      interface. [WhenAll]: [coroutine/when_all.h] and what it is made of. [Task]:
      [coroutine/task.h]. [Frames]: who owns the frames of coroutines, in [task.h],
      [detail/when_all_task.h] and [detail/sync_wait_task.h]. [ScopeExit]:
      [coroutine/on_scope_exit.h], [detail/scope_guard.h].
    - [EchoRevised]: [src/example/simple/echo_revised.cpp]. [Server]:
      [src/example/include/common/server.h]. [Chat]: [src/example/chat/chat_server.cpp], of
      which [ChatServer] composes the room and any number of sessions. [WsChat]:
      [src/example/websocket/websocket_chat.cpp]. [Ttcp]: [src/example/ttcp].
    - [UnitTests]: the cases of [src/test] that need no kernel, on the models.

    A class is a Record, its member functions are functions on it with the names of the code;
    an enumeration is an Inductive type; a template argument is an argument. A [const char*]
    is a position in a list of bytes; reading outside is [Ub]. Threads, the kernel and
    coroutines are step relations whose steps are the atomic operations of the code.

    ** What the theorems show

    - The message parser accepts exactly the texts of the grammar and describes their parts
      ([phr_parse_request_iff], [phr_parse_response_iff]); on any input its verdict is defined
      and final ([phr_parse_request_verdict]); parsing again with [last_len] changes nothing
      ([phr_parse_request_last_len]). The object around it is right on whole requests
      ([http_parser_fresh]) and wrong on most that come in pieces ([http_parser_resume]).
    - The chunked decoder refines the automaton ([phr_decode_chunked_feed]), decodes what an
      encoder writes, and can be resumed at any byte ([phr_decode_chunked_roundtrip]).
    - WebSocket frames: [frame_header_roundtrip], [builder_layout], [parse_split]; the
      handshake: [handshake], [base64_encode_correct]; the composed servers: [echo_server],
      [ws_chat_client].
    - Buffers: [commit_drop]; the stream buffer is a queue: [run_queue], but for numbers of
      bytes that leave the address space, [consume_wraps]. [time_overrun]: what
      becomes of a span whose number of elements was meant as a number of bytes.
    - Descriptors are closed as often as they are obtained, but for the faults of the code,
      which the theorem counts ([descriptors_balanced]): [init_failure_double_close],
      [accept_ownership] and [close_effect] say which operations keep or lose the balance.
    - [recv_all], [send_all]: what is transferred, for any portions the kernel transfers.
    - The loop: [no_lost_wakeup], [executed_in_order], [loop_round], [thread_service];
      [operation_delivery] connects it with the operations: what is proved of an operation and
      the completions it is given holds of the operation on the loop, among others.
    - Coroutines, in every interleaving: [latch_exactly_once], [when_all_correct],
      [task_correct], [task_fallback], [auto_reset_event], [manual_reset_event],
      [sync_wait_correct]; frames are owned by one object each: [frames_correct]; scope
      guards: [scope_exit]; types: [module_types], [awaitable_types].
    - Memory orders: the latches and the auto-reset event do what they do when they are
      sequentially consistent, and who goes on sees what was written before
      ([latch_visibility], [event_visibility]); [wait_visibility] for the manual-reset event.
      Two reads are not ordered by what the code names: that of the handle in [set], and that
      of the result behind a [wait] that ends with [EAGAIN].
    - The servers: [acceptor_correct], [start_server_never_ends], [chat_reader],
      [chat_room_deliveries], [chat_session_correct], [chat_server_correct], [echo_correct],
      [echo_revised_correct]; a client with its server: [ttcp_correct], [pingpong_correct] -
      which of the two ends a session has, success or deadlock, and for which sizes of its
      buffers - and [pingpong_run_correct].

    Where the code does something other than it means to, the theorem says what it does.

    ** Fuel and bounds

    Loops of the parser recurse on the memory from the pointer on; [headers_loop] recurses on
    the room left in the array of headers, which each turn uses. [decode_loop] and
    [parse_loop], of the frame parser, have one more turn than there are bytes;
    [decode_loop_sim] and [parse_terminates] show that it is enough. Loops
    that wait for data receive at least one byte a turn into a buffer of 1024. [run_writer]
    has two turns: one that finds the event set, and one that does not. [eval] of [Task] and
    the server loops, which do not end, take fuel as an argument, and their theorems hold for
    all that is enough. Sizes are integers of their width, with [wrap] where the code computes
    modulo a power of two; theorems state the bounds under which they are about, such as
    2^31 bytes for a transfer, whose count is an [int]. The number of bytes that the clients
    of [Pingpong] count is in a [double], which is exact to 2^53; [double_round] says what
    becomes of it beyond.

    ** What is assumed

    Code that is not in the repository is a parameter: SHA1 of OpenSSL, of which only that a
    digest has 20 bytes is used; [inet_pton]; the system calls, with the laws of POSIX as the
    class [OsLaws], which [table_laws] shows can hold; the kernel's part in an operation;
    where a vector is allocated ([Allocator], [two_places_law]). The ring is what its manual says; the futex may wake without a cause and fail, as its manual
    says. Steps of [Latch], [Event], [SyncWait] and [IoService] are sequentially consistent:
    for the first two [LatchOrders] and [EventOrders] prove that this is no restriction,
    [WaitOrders] has the third with loads of any age, and [io_service.h] names no weaker
    order. The library is compiled as its build does: without
    SSE4.2, with symmetric transfer, [char] signed.

    ** What is not modelled

    [file] does not compile at this commit: it includes a header that does not exist and uses
    an earlier interface of [async_operation]; [socket/impl/splice.h] is commented out of
    [socket/socket.h] and uses the same interface; [src/example/file_transfer] needs [file].
    The [main] functions, printing and the tests of sockets are left out. Of the event loop,
    failures of its constructor are left out, which the code ignores. Stores to an atomic
    object are put at the end of its modification order; only the manual-reset event has
    stores, and nothing in the repository calls its [reset]. That the kernel cancels an
    operation whose link timeout has expired is no rule of the model: it completes the entries
    of both in any order and with any result. *)

From Stdlib Require Export ZArith Lia.
From stdpp Require Export base tactics option list numbers.

(** ** Machine integers *)

(** Unsigned conversion to [w] bits: what a C cast to an unsigned type or an
    unsigned arithmetic operation of width [w] does. *)
Definition wrap (w z : Z) : Z := (z mod 2 ^ w)%Z.

(** The value of a [char] object holding the byte [b]: [char] is signed on the
    platform of the library (x86-64 Linux). *)
Definition schar (b : Z) : Z := if (b <? 128)%Z then b else (b - 256)%Z.

Definition is_byte (b : Z) : Prop := (0 <= b < 256)%Z.

(** [SIZE_MAX], the value [size_t(-1)]. *)
Definition SIZE_MAX : Z := (2 ^ 64 - 1)%Z.

#[export] Instance is_byte_dec b : Decision (is_byte b).
Proof. unfold is_byte. apply _. Defined.

Lemma wrap_small w z : (0 <= z < 2 ^ w)%Z -> wrap w z = z.
Proof. apply Z.mod_small. Qed.

Lemma wrap_range w z : (0 <= w)%Z -> (0 <= wrap w z < 2 ^ w)%Z.
Proof. intros. apply Z.mod_pos_bound, Z.pow_pos_nonneg; lia. Qed.

Lemma wrap_byte z : is_byte (wrap 8 z).
Proof. apply (wrap_range 8); lia. Qed.

Lemma schar_wrap b : is_byte b -> wrap 8 (schar b) = b.
Proof.
  unfold is_byte, schar, wrap. intros Hb. change (2 ^ 8)%Z with 256%Z.
  destruct (Z.ltb_spec b 128).
  - apply Z.mod_small. lia.
  - replace (b - 256)%Z with (b + (-1) * 256)%Z by lia.
    rewrite Z_mod_plus_full. apply Z.mod_small. lia.
Qed.

Lemma wrap_testbit w z i :
  (0 <= i < w)%Z -> Z.testbit (wrap w z) i = Z.testbit z i.
Proof. intros. apply Z.mod_pow2_bits_low. lia. Qed.

Lemma wrap_testbit_high w z i :
  (0 <= w <= i)%Z -> Z.testbit (wrap w z) i = false.
Proof. intros. apply Z.mod_pow2_bits_high. lia. Qed.

(** A non-negative number below [2^w] has no bit from [w] on. *)
Lemma testbit_small w z i :
  (0 <= z < 2 ^ w)%Z -> (0 <= w <= i)%Z -> Z.testbit z i = false.
Proof. intros Hz Hi. rewrite <- (wrap_small w z Hz). by apply wrap_testbit_high. Qed.

(** [x & (2^n - 1)] as a remainder. *)
Lemma land_ones_mod x n : (0 <= n)%Z -> Z.land x (Z.ones n) = (x mod 2 ^ n)%Z.
Proof. apply Z.land_ones. Qed.

(** A disjoint [|] is an addition: the low [k] bits of [a * 2^k] are free. *)
Lemma lor_shift_add k a b :
  (0 <= k -> 0 <= b < 2 ^ k -> Z.lor (a * 2 ^ k) b = a * 2 ^ k + b)%Z.
Proof.
  intros Hk Hb. rewrite <- Z.lxor_lor, <- Z.add_nocarry_lxor; [done| |];
    (apply Z.bits_inj'; intros i Hi; rewrite Z.land_spec, Z.testbit_0_l;
     destruct (Z.lt_ge_cases i k);
     [by rewrite Z.mul_pow2_bits_low | by rewrite (testbit_small k b), andb_false_r]).
Qed.

(** Pushing a byte at the low end of a number: [(a << 8) | b]. *)
Lemma push_byte a b : is_byte b -> (Z.lor (Z.shiftl a 8) b = a * 256 + b)%Z.
Proof.
  intros Hb. rewrite Z.shiftl_mul_pow2 by lia. apply (lor_shift_add 8); [lia|].
  exact Hb.
Qed.

(** A statement on a finite range of integers, by evaluating it at each of them. *)
Lemma range_check (P : Z -> bool) (n : Z) :
  forallb P (seqZ 0 n) = true -> forall z, (0 <= z < n)%Z -> P z = true.
Proof.
  intros Hall z Hz. rewrite forallb_forall in Hall. apply Hall.
  apply list_elem_of_In, elem_of_seqZ. lia.
Qed.

(** Conversion to [int]: 32 bits, two's complement. *)
Definition to_int (z : Z) : Z := ((z + 2 ^ 31) mod 2 ^ 32 - 2 ^ 31)%Z.

Lemma to_int_small z : (- 2 ^ 31 <= z < 2 ^ 31)%Z -> to_int z = z.
Proof. intros Hz. unfold to_int. rewrite Z.mod_small; lia. Qed.

(** ** Outcomes of code on memory

    [Ret a]: normal result; [Err r]: the code gave up with the error code [r]; [Ub]: it
    accessed memory outside the object the model gives to the pointer. *)
Inductive outcome (A : Type) : Type :=
| Ret (a : A)
| Err (r : Z)
| Ub.
Arguments Ret {A} a.
Arguments Err {A} r.
Arguments Ub {A}.

#[export] Instance outcome_ret : MRet outcome := @Ret.
#[export] Instance outcome_bind : MBind outcome := fun A B f m =>
  match m with Ret a => f a | Err r => Err r | Ub => Ub end.

(** The same with a state that survives errors: what the code wrote through its pointer
    arguments before it gave up is still there. *)
Definition stateful (S A : Type) : Type := S -> outcome A * S.

#[export] Instance stateful_ret S : MRet (stateful S) := fun A a s => (Ret a, s).
#[export] Instance stateful_bind S : MBind (stateful S) := fun A B f m s =>
  match m s with
  | (Ret a, s) => f a s
  | (Err r, s) => (Err r, s)
  | (Ub, s) => (Ub, s)
  end.

Definition lift {S A} (m : outcome A) : stateful S A := fun s => (m, s).
Definition modify {S} (f : S -> S) : stateful S unit := fun s => (Ret tt, f s).

(** ** Searching *)

(** The index of the first element that satisfies [p]. *)
Fixpoint index_of {A} (p : A -> bool) (l : list A) : option nat :=
  match l with
  | [] => None
  | x :: l' => if p x then Some 0 else S <$> index_of p l'
  end.

Lemma index_of_Some {A} (p : A -> bool) l n :
  index_of p l = Some n <->
  exists xs x ys, l = xs ++ x :: ys /\ length xs = n /\ p x = true /\
    Forall (fun y => p y = false) xs.
Proof.
  revert n. induction l as [|y l IH]; intros n; simpl.
  - split; [done|]. intros (xs & x & ys & E & _). by destruct xs.
  - destruct (p y) eqn:Ey.
    + split.
      * intros [= <-]. by exists [], y, l.
      * intros (xs & x & ys & E & <- & Hx & Hxs). destruct xs as [|z xs]; [done|].
        injection E as <- ->. inversion Hxs. congruence.
    + split.
      * destruct (index_of p l) as [k|]; intros [= <-].
        destruct (proj1 (IH k) eq_refl) as (xs & x & ys & -> & <- & Hx & Hxs).
        exists (y :: xs), x, ys. by repeat constructor.
      * intros (xs & x & ys & E & <- & Hx & Hxs). destruct xs as [|z xs].
        { injection E as <- ->. congruence. }
        injection E as <- ->. inversion Hxs; subst. simpl.
        rewrite (proj2 (IH (length xs))); [done|]. by exists xs, x, ys.
Qed.

Lemma index_of_app {A} (p : A -> bool) xs x ys :
  Forall (fun y => p y = false) xs -> p x = true ->
  index_of p (xs ++ x :: ys) = Some (length xs).
Proof. intros. apply index_of_Some. by exists xs, x, ys. Qed.

Lemma index_of_None {A} (p : A -> bool) l :
  index_of p l = None <-> Forall (fun y => p y = false) l.
Proof.
  induction l as [|y l IH]; simpl; [done|].
  destruct (p y) eqn:Ey.
  - split; [done|]. inversion 1; congruence.
  - split.
    + intros E. constructor; [done|]. apply IH. by destruct (index_of p l).
    + intros Hl. inversion Hl as [|? ? _ Hl']. by rewrite (proj2 IH Hl').
Qed.

Create HintDb xynet.
#[export] Hint Resolve wrap_byte wrap_range schar_wrap : xynet.

(** Conversion to [char], and the byte a [char] stores. *)
Definition to_char (z : Z) : Z := schar (wrap 8 z).
Definition store_char (z : Z) : Z := wrap 8 (to_char z).

Lemma store_char_wrap z : store_char z = wrap 8 z.
Proof. apply schar_wrap, wrap_byte. Qed.

(** ** Big-endian encodings *)

(** The [n] bytes of [z], most significant first. *)
Fixpoint be_bytes (n : nat) (z : Z) : list Z :=
  match n with
  | O => []
  | S k => wrap 8 (Z.shiftr z (8 * Z.of_nat k)) :: be_bytes k z
  end.

(** The number written by a list of bytes after the digits [acc]. *)
Definition be_value (acc : Z) (l : list Z) : Z := fold_left (fun a b => a * 256 + b)%Z l acc.

Lemma be_value_acc l acc :
  be_value acc l = (acc * 256 ^ Z.of_nat (length l) + be_value 0 l)%Z.
Proof.
  revert acc. induction l as [|b l IH]; intros acc.
  - simpl. lia.
  - change (be_value acc (b :: l)) with (be_value (acc * 256 + b) l).
    change (be_value 0 (b :: l)) with (be_value b l).
    rewrite (IH (acc * 256 + b)%Z), (IH b). simpl length.
    rewrite Nat2Z.inj_succ, Z.pow_succ_r by lia. lia.
Qed.

Lemma be_value_nonneg l : Forall is_byte l -> (0 <= be_value 0 l)%Z.
Proof.
  induction 1 as [|b l Hb _ IH]; [done|]. change (be_value 0 (b :: l)) with (be_value b l).
  rewrite be_value_acc. unfold is_byte in Hb. nia.
Qed.

(** The number grows as digits are appended. *)
Lemma be_value_mono l acc : Forall is_byte l -> (0 <= acc -> acc <= be_value acc l)%Z.
Proof.
  intros Hl Hacc. rewrite be_value_acc. pose proof (be_value_nonneg l Hl).
  assert (0 < 256 ^ Z.of_nat (length l))%Z by (apply Z.pow_pos_nonneg; lia). nia.
Qed.

Lemma length_be_bytes n z : length (be_bytes n z) = n.
Proof. induction n; simpl; congruence. Qed.

Lemma be_bytes_byte n z : Forall is_byte (be_bytes n z).
Proof. induction n; simpl; constructor; auto with xynet. Qed.

Lemma be_value_bytes n z acc :
  be_value acc (be_bytes n z) = (acc * 2 ^ (8 * Z.of_nat n) + z mod 2 ^ (8 * Z.of_nat n))%Z.
Proof.
  revert acc. induction n as [|n IH]; intros acc.
  - simpl. rewrite Z.mod_1_r. lia.
  - simpl be_bytes. unfold be_value in *. simpl fold_left. rewrite IH.
    rewrite Z.shiftr_div_pow2 by lia. unfold wrap.
    replace (8 * Z.of_nat (S n))%Z with (8 * Z.of_nat n + 8)%Z by lia.
    rewrite Z.pow_add_r by lia. set (M := (2 ^ (8 * Z.of_nat n))%Z).
    assert (0 < M)%Z by (apply Z.pow_pos_nonneg; lia).
    rewrite (Z.rem_mul_r z M) by lia. change (2 ^ 8)%Z with 256%Z. lia.
Qed.

(** What an array holds after some elements have been written into it. *)
Lemma inserts_splice {A} n d (l : list A) : (n + length d <= length l)%nat ->
  list_inserts n d l = take n l ++ d ++ drop (n + length d) l.
Proof.
  intros Hn. rewrite <- (take_drop n l) at 1.
  rewrite <- (take_drop (length d) (drop n l)) at 1. rewrite drop_drop.
  pose proof (list_inserts_app_r d (take n l)
    (take (length d) (drop n l) ++ drop (n + length d) l) 0) as E.
  rewrite length_take, Nat.min_l, Nat.add_0_r in E by lia. rewrite E.
  rewrite list_inserts_0_r; [done|]. rewrite length_take, length_drop. lia.
Qed.

(** An element that is replaced and then removed. *)
Lemma delete_insert_same {A} (l : list A) i x : delete i (<[i := x]> l) = delete i l.
Proof. revert i. induction l as [|y l IH]; intros [|i]; [done..|]. simpl. f_equal. apply IH. Qed.
