(* ===== verification/WsFrame.v ===== *)
(** * WebSocket frame headers

    Models [src/include/xynet/http/websocket_frame_header.h]: the flag type and its
    operators, the header builder, the class [websocket_frame_header] and the
    incremental parser [websocket_frame_header_parser]. *)

From S2P Require Import Prelude.
Local Open Scope Z_scope.

(** ** [enum class websocket_flags : unsigned char] and its operators *)

Definition WS_NONE        : Z := 0x0.
Definition WS_OP_CONTINUE : Z := 0x0.
Definition WS_OP_TEXT     : Z := 0x1.
Definition WS_OP_BINARY   : Z := 0x2.
Definition WS_OP_CLOSE    : Z := 0x8.
Definition WS_OP_PING     : Z := 0x9.
Definition WS_OP_PONG     : Z := 0xA.
Definition WS_OP_MASK     : Z := 0xF.
Definition WS_FIN         : Z := 0x10.
Definition WS_FINAL_FRAME : Z := 0x10.
Definition WS_HAS_MASK    : Z := 0x20.

Definition websocket_flags_not_none (flag : Z) : bool := negb (flag =? 0).

Definition flags_and (lhs rhs : Z) : Z := wrap 8 (Z.land lhs rhs).
Definition flags_or  (lhs rhs : Z) : Z := wrap 8 (Z.lor lhs rhs).
Definition flags_xor (lhs rhs : Z) : Z := wrap 8 (Z.lxor lhs rhs).
Definition flags_not (lhs : Z) : Z := wrap 8 (Z.lnot lhs).

(** The compound operators: what they leave in [lhs], to which they return a reference. *)
Definition flags_and_assign (lhs rhs : Z) : Z := flags_and lhs rhs.
Definition flags_or_assign (lhs rhs : Z) : Z := flags_or lhs rhs.
Definition flags_xor_assign (lhs rhs : Z) : Z := flags_xor lhs rhs.

(** ** Sizes *)

Definition calc_frame_header_size (flags data_len : Z) : Z :=
  let size := 2 in
  let size :=
    if data_len >=? 126
    then (if data_len >? 0xFFFF then size + 8 else size + 2)
    else size in
  if websocket_flags_not_none (flags_and flags WS_HAS_MASK) then size + 4 else size.

Definition calc_frame_size (flags data_len : Z) : Z :=
  wrap 64 (data_len + calc_frame_header_size flags data_len).

Definition UINT32_MAX : Z := 2 ^ 32 - 1.
Definition WS_MAX_FRAME_HEADER_SIZE : Z := calc_frame_header_size WS_HAS_MASK UINT32_MAX.

(** ** The header builder *)

(** [frame[i] |= v], for an array of [unsigned char]. *)
Definition or_at (i : nat) (v : Z) (frame : list Z) : list Z :=
  <[i := wrap 8 (Z.lor (nth i frame 0) v)]> frame.

(** [websocket_frame_header_builder]: writes the header of a frame at the start of
    [frame] and returns the array with the offset of the body. [mask] is the pointer
    argument: [None] is [nullptr]. *)
Definition websocket_frame_header_builder
    (frame : list Z) (flags : Z) (mask : option (list Z)) (data_len : Z) : list Z * nat :=
  let frame := <[0%nat := 0]> frame in
  let frame := <[1%nat := 0]> frame in
  let frame :=
    if websocket_flags_not_none (flags_and flags WS_FIN)
    then <[0%nat := store_char (Z.shiftl 1 7)]> frame else frame in
  let frame := or_at 0 (flags_and flags WS_OP_MASK) frame in
  let frame :=
    if websocket_flags_not_none (flags_and flags WS_HAS_MASK)
    then <[1%nat := store_char (Z.shiftl 1 7)]> frame else frame in
  let '(frame, body_offset) :=
    if data_len <? 126 then
      (or_at 1 data_len frame, 2%nat)
    else if data_len <=? 0xFFFF then
      let frame := or_at 1 126 frame in
      let frame := <[2%nat := store_char (Z.shiftr data_len 8)]> frame in
      let frame := <[3%nat := store_char (Z.land data_len 0xFF)]> frame in
      (frame, 4%nat)
    else
      let frame := or_at 1 127 frame in
      let frame := <[2%nat := store_char (Z.land (Z.shiftr data_len 56) 0xFF)]> frame in
      let frame := <[3%nat := store_char (Z.land (Z.shiftr data_len 48) 0xFF)]> frame in
      let frame := <[4%nat := store_char (Z.land (Z.shiftr data_len 40) 0xFF)]> frame in
      let frame := <[5%nat := store_char (Z.land (Z.shiftr data_len 32) 0xFF)]> frame in
      let frame := <[6%nat := store_char (Z.land (Z.shiftr data_len 24) 0xFF)]> frame in
      let frame := <[7%nat := store_char (Z.land (Z.shiftr data_len 16) 0xFF)]> frame in
      let frame := <[8%nat := store_char (Z.land (Z.shiftr data_len 8) 0xFF)]> frame in
      let frame := <[9%nat := store_char (Z.land data_len 0xFF)]> frame in
      (frame, 10%nat) in
  if websocket_flags_not_none (flags_and flags WS_HAS_MASK) then
    let frame :=
      match mask with
      | Some m => list_inserts body_offset (take 4 m) frame
      | None => frame
      end in
    (frame, (body_offset + 4)%nat)
  else (frame, body_offset).

(** ** [class websocket_frame_header] *)

Record websocket_frame_header := mk_frame_header {
  m_header : list Z;          (** [std::array<char, WS_MAX_FRAME_HEADER_SIZE>] *)
  h_mask : list Z;            (** [m_mask], [std::array<char, 4>] *)
  m_header_length : nat;
}.

(** The four bytes of a [uint32_t] object (little-endian platform). *)
Definition uint32_bytes (v : Z) : list Z :=
  [wrap 8 v; wrap 8 (Z.shiftr v 8); wrap 8 (Z.shiftr v 16); wrap 8 (Z.shiftr v 24)].

(** [websocket_frame_header(flags, data_len)] *)
Definition frame_header_make (flags data_len : Z) : websocket_frame_header :=
  let '(hdr, len) :=
    websocket_frame_header_builder
      (replicate (Z.to_nat WS_MAX_FRAME_HEADER_SIZE) 0) flags None data_len in
  mk_frame_header hdr (replicate 4 0) len.

(** [websocket_frame_header(flags, std::span<char, 4> mask, data_len)] *)
Definition frame_header_make_span (flags : Z) (mask : list Z) (data_len : Z)
  : websocket_frame_header :=
  let h := frame_header_make flags data_len in
  mk_frame_header (m_header h) (list_inserts 0 (take 4 mask) (h_mask h)) (m_header_length h).

(** [websocket_frame_header(flags, uint32_t mask, data_len)] *)
Definition frame_header_make_u32 (flags mask data_len : Z) : websocket_frame_header :=
  frame_header_make_span flags (uint32_bytes mask) data_len.

(** [view()] and [span()]: the first [m_header_length] bytes of the array. *)
Definition frame_header_view (h : websocket_frame_header) : list Z :=
  take (m_header_length h) (m_header h).

(** ** [class websocket_frame_header_parser] *)

Inductive parser_state := s_start | s_head | s_length | s_mask | s_finished.

Record header_parser := mk_parser {
  m_state : parser_state;
  m_flags : Z;
  m_mask : list Z;
  m_length : Z;
  m_require : Z;
}.

Definition npos : Z := SIZE_MAX.

(** A parser as constructed, and what [reset()] brings it back to. *)
Definition parser_init : header_parser :=
  mk_parser s_start WS_NONE (replicate 4 0) 0 0.

Definition parser_reset (_ : header_parser) : header_parser := parser_init.

(** [mask_uint32_t()]: the four mask bytes read as an integer (little-endian). *)
Definition mask_uint32_t (p : header_parser) : Z :=
  match m_mask p with
  | [a; b; c; d] => Z.lor a (Z.lor (Z.shiftl b 8) (Z.lor (Z.shiftl c 16) (Z.shiftl d 24)))
  | _ => 0
  end.

(** [length()], [flags()], [mask()], [result()] *)
Definition parser_length (p : header_parser) : Z := m_length p.
Definition parser_flags (p : header_parser) : Z := m_flags p.
Definition parser_mask (p : header_parser) : list Z := m_mask p.
Definition parser_result (p : header_parser) : Z * Z * Z :=
  (parser_flags p, mask_uint32_t p, parser_length p).

(** The body of the inner loop of [case s_length]: one byte of the extended length. *)
Definition push_length (b : Z) (st : header_parser) : header_parser :=
  mk_parser (m_state st) (m_flags st) (m_mask st)
    (Z.lor (wrap 64 (Z.shiftl (m_length st) 8)) b)
    (wrap 64 (m_require st - 1)).

(** The body of the inner loop of [case s_mask]: [m_mask[4 - m_require--] = *p]. *)
Definition push_mask (b : Z) (st : header_parser) : header_parser :=
  mk_parser (m_state st) (m_flags st)
    (<[Z.to_nat (4 - m_require st) := b]> (m_mask st))
    (m_length st) (wrap 64 (m_require st - 1)).

(** The inner loops, [while((p < end) && m_require)]: [s] is what is left of the data
    from [p] on, [pos] is [p - data]. *)
Fixpoint require_loop (push : Z -> header_parser -> header_parser)
    (pos : nat) (s : list Z) (st : header_parser) : nat * list Z * header_parser :=
  match s with
  | [] => (pos, s, st)
  | b :: s' =>
      if m_require st =? 0 then (pos, s, st)
      else require_loop push (S pos) s' (push b st)
  end.

Definition has_mask (flags : Z) : bool :=
  websocket_flags_not_none (flags_and flags WS_HAS_MASK).

Definition set_state (s : parser_state) (st : header_parser) : header_parser :=
  mk_parser s (m_flags st) (m_mask st) (m_length st) (m_require st).

(** [case s_start]: the first byte of a header. *)
Definition on_start (b : Z) (st : header_parser) : header_parser :=
  let flags := flags_and b WS_OP_MASK in
  let flags := if websocket_flags_not_none (Z.land b (Z.shiftl 1 7))
               then flags_or flags WS_FIN else flags in
  mk_parser s_head flags (m_mask st) 0 (m_require st).

(** [case s_head]: the second byte. The [bool] tells whether the function returns. *)
Definition on_head (b : Z) (st : header_parser) : header_parser * bool :=
  let len := Z.land b 0x7F in
  let flags := if websocket_flags_not_none (Z.land b 0x80)
               then flags_or (m_flags st) WS_HAS_MASK else m_flags st in
  if len >=? 126 then
    (mk_parser s_length flags (m_mask st) 0 (if len =? 127 then 8 else 2), false)
  else if has_mask flags then
    (mk_parser s_mask flags (m_mask st) len 4, false)
  else
    (mk_parser s_finished flags (m_mask st) len (m_require st), true).

(** What [case s_length] and [case s_mask] do once their bytes are read. *)
Definition after_length (st : header_parser) : header_parser * bool :=
  if has_mask (m_flags st)
  then (mk_parser s_mask (m_flags st) (m_mask st) (m_length st) 4, false)
  else (set_state s_finished st, true).

(** [parse(data, len)]: the loop over the data, one unit of fuel per iteration of the
    [for]. The value is the parser afterwards and the returned [size_t]. *)
Fixpoint parse_loop (fuel : nat) (pos : nat) (s : list Z) (st : header_parser)
  : header_parser * Z :=
  match fuel with
  | O => (st, npos)
  | S fuel =>
      match s with
      | [] => (st, npos)
      | b :: s' =>
          match m_state st with
          | s_start => parse_loop fuel (S pos) s' (on_start b st)
          | s_head =>
              let '(st, ret) := on_head b st in
              if ret then (st, Z.of_nat pos + 1) else parse_loop fuel (S pos) s' st
          | s_length =>
              let '(pos, s, st) := require_loop push_length pos s st in
              if m_require st =? 0 then
                let '(st, ret) := after_length st in
                if ret then (st, Z.of_nat pos) else parse_loop fuel pos s st
              else parse_loop fuel pos s st
          | s_mask =>
              let '(pos, s, st) := require_loop push_mask pos s st in
              if m_require st =? 0
              then (set_state s_finished st, Z.of_nat pos)
              else parse_loop fuel pos s st
          | s_finished => parse_loop fuel (S pos) s' st
          end
      end
  end.

Definition parse (data : list Z) (st : header_parser) : header_parser * Z :=
  parse_loop (S (length data)) 0 data st.

(** The overloads for a [string_view] and for a [span], of elements of any size. For a span of
    [char] there is none: it calls [parse] with a [char*], which does not convert to the
    [const unsigned char*] above, and does not compile. *)
Inductive span_element := CharElement | OtherElement.
Definition parse_string_view (str : list Z) (st : header_parser) : header_parser * Z := parse str st.
Definition parse_span (e : span_element) (sp : list (list Z)) (st : header_parser) : option (header_parser * Z) :=
  match e with CharElement => None | OtherElement => Some (parse (concat sp) st) end.

(** ** The automaton the parser implements

    Read one byte at a time, without the inner loops: the transition taken on a byte and
    whether the function returns after it. *)
Definition parse_byte (b : Z) (st : header_parser) : header_parser * bool :=
  match m_state st with
  | s_start => (on_start b st, false)
  | s_head => on_head b st
  | s_length =>
      let st := push_length b st in
      if m_require st =? 0 then after_length st else (st, false)
  | s_mask =>
      let st := push_mask b st in
      if m_require st =? 0 then (set_state s_finished st, true) else (st, false)
  | s_finished => (st, false)
  end.

(** The run over some data: the state reached and, if the header is complete, the
    position behind it. *)
Fixpoint run_bytes (pos : nat) (s : list Z) (st : header_parser)
  : header_parser * option nat :=
  match s with
  | [] => (st, None)
  | b :: s' =>
      let '(st, ret) := parse_byte b st in
      if ret then (st, Some (S pos)) else run_bytes (S pos) s' st
  end.

(** The [size_t] that stands for such a position. *)
Definition ret_size (r : header_parser * option nat) : header_parser * Z :=
  (fst r, match snd r with Some pos => Z.of_nat pos | None => npos end).

(** The parser's representation invariant: while bytes of the length or of the mask are
    awaited their number is within bounds, so that the loops end, nothing wraps and
    [m_mask] is written inside its four bytes. *)
Definition require_ok (st : header_parser) : Prop :=
  match m_state st with
  | s_length => 1 <= m_require st <= 8
  | s_mask => 1 <= m_require st <= 4
  | _ => True
  end.

Definition parser_ok (st : header_parser) : Prop :=
  require_ok st /\ length (m_mask st) = 4%nat.

Lemma parser_init_ok : parser_ok parser_init.
Proof. split; [exact I | reflexivity]. Qed.

Lemma push_length_require b st :
  1 <= m_require st <= 8 -> m_require (push_length b st) = m_require st - 1.
Proof. intros. apply wrap_small. lia. Qed.

Lemma push_mask_require b st :
  1 <= m_require st <= 8 -> m_require (push_mask b st) = m_require st - 1.
Proof. intros. apply wrap_small. lia. Qed.

Lemma on_head_ok b st : length (m_mask st) = 4%nat -> parser_ok (fst (on_head b st)).
Proof.
  intros Hm. unfold on_head, parser_ok, require_ok.
  destruct (Z.land b 0x7F >=? 126); [destruct (Z.land b 0x7F =? 127)|];
    [| |destruct (has_mask _)]; simpl; (split; [lia || exact I | exact Hm]).
Qed.

Lemma after_length_ok st : length (m_mask st) = 4%nat -> parser_ok (fst (after_length st)).
Proof.
  intros Hm. unfold after_length, parser_ok, require_ok.
  destruct (has_mask _); simpl; (split; [lia || exact I | exact Hm]).
Qed.

#[export] Hint Resolve parser_init_ok on_head_ok after_length_ok : xynet.

(** The state a [push] leaves behind only changes in the fields it writes. *)
Lemma push_length_state b st : m_state (push_length b st) = m_state st.
Proof. done. Qed.
Lemma push_mask_state b st : m_state (push_mask b st) = m_state st.
Proof. done. Qed.

Lemma parse_byte_ok b st : parser_ok st -> parser_ok (fst (parse_byte b st)).
Proof.
  intros [Hr Hm]. unfold parse_byte. destruct (m_state st) eqn:Es; auto with xynet.
  - split; [exact I | done].
  - unfold require_ok in Hr. rewrite Es in Hr. cbn in Hr.
    pose proof (push_length_require b st Hr) as E.
    destruct (Z.eqb_spec (m_require (push_length b st)) 0); [auto with xynet|].
    split; [|done]. unfold require_ok. cbn [fst]. rewrite push_length_state, Es. lia.
  - unfold require_ok in Hr. rewrite Es in Hr. cbn in Hr.
    pose proof (push_mask_require b st ltac:(lia)) as E.
    assert (length (m_mask (push_mask b st)) = 4%nat) by (simpl; by rewrite length_insert).
    destruct (Z.eqb_spec (m_require (push_mask b st)) 0); split; auto; [exact I|].
    unfold require_ok. cbn [fst]. rewrite push_mask_state, Es. lia.
  - split; [unfold require_ok; cbn [fst]; by rewrite Es | done].
Qed.

(** *** The loops and the automaton agree *)

Section require_loop.
Context (push : Z -> header_parser -> header_parser) (q : parser_state) (bound : Z).
Context (after : header_parser -> header_parser * bool).
Hypothesis push_state : forall b st, m_state (push b st) = m_state st.
Hypothesis push_require :
  forall b st, 1 <= m_require st <= bound -> m_require (push b st) = m_require st - 1.
Hypothesis push_mask_length :
  forall b st, length (m_mask (push b st)) = length (m_mask st).
Hypothesis parse_byte_push :
  forall b st, m_state st = q ->
    parse_byte b st = if m_require (push b st) =? 0 then after (push b st)
                      else (push b st, false).

(** One turn of the outer loop in a state whose inner loop runs [push] is a run of the
    automaton, and it consumes at least one byte. *)
Lemma require_loop_run s pos st :
  s <> [] -> m_state st = q -> 1 <= m_require st <= bound ->
  let '(pos', s', st') := require_loop push pos s st in
  (length s' < length s)%nat /\ m_state st' = q /\ 0 <= m_require st' <= bound /\
  length (m_mask st') = length (m_mask st) /\
  run_bytes pos s st =
    (if m_require st' =? 0 then
       let '(st2, ret) := after st' in
       if ret then (st2, Some pos') else run_bytes pos' s' st2
     else run_bytes pos' s' st').
Proof.
  revert pos st. induction s as [|b s IH]; intros pos st Hne Hq Hr; [done|].
  simpl require_loop. destruct (Z.eqb_spec (m_require st) 0) as [?|_]; [lia|].
  simpl run_bytes. rewrite parse_byte_push by done.
  pose proof (push_require b st Hr) as Hr'.
  destruct (Z.eqb_spec (m_require (push b st)) 0) as [E|E].
  - replace (require_loop push (S pos) s (push b st)) with (S pos, s, push b st)
      by (destruct s; simpl; [done | by rewrite (proj2 (Z.eqb_eq _ _) E)]).
    rewrite (proj2 (Z.eqb_eq _ _) E), push_state, push_mask_length.
    split_and!; [simpl; lia|done|lia|lia|done|].
    by destruct (after (push b st)) as [st2 []].
  - destruct s as [|b' s].
    + simpl. rewrite push_state, push_mask_length.
      destruct (Z.eqb_spec (m_require (push b st)) 0); [done|].
      split_and!; [lia|done|lia|lia|done|done].
    + specialize (IH (S pos) (push b st) ltac:(done) ltac:(by rewrite push_state)
                    ltac:(lia)).
      destruct (require_loop push (S pos) (b' :: s) (push b st)) as [[pos' s'] st'].
      destruct IH as (Hlen & Hst & Hreq & Hmask & ->).
      rewrite push_mask_length in Hmask.
      split_and!; [simpl in *; lia|done|lia|lia|done|done].
Qed.
End require_loop.

Lemma require_loop_run_length s pos st :
  s <> [] -> m_state st = s_length -> 1 <= m_require st <= 8 ->
  let '(pos', s', st') := require_loop push_length pos s st in
  (length s' < length s)%nat /\ m_state st' = s_length /\ 0 <= m_require st' <= 8 /\
  length (m_mask st') = length (m_mask st) /\
  run_bytes pos s st =
    (if m_require st' =? 0 then
       let '(st2, ret) := after_length st' in
       if ret then (st2, Some pos') else run_bytes pos' s' st2
     else run_bytes pos' s' st').
Proof.
  apply require_loop_run; [done|intros; apply push_length_require; lia|done|].
  intros b st' Hs. unfold parse_byte. by rewrite Hs.
Qed.

Lemma require_loop_run_mask s pos st :
  s <> [] -> m_state st = s_mask -> 1 <= m_require st <= 4 ->
  let '(pos', s', st') := require_loop push_mask pos s st in
  (length s' < length s)%nat /\ m_state st' = s_mask /\ 0 <= m_require st' <= 4 /\
  length (m_mask st') = length (m_mask st) /\
  run_bytes pos s st =
    (if m_require st' =? 0 then (set_state s_finished st', Some pos')
     else run_bytes pos' s' st').
Proof.
  apply (require_loop_run push_mask s_mask 4 (fun st => (set_state s_finished st, true))).
  - done.
  - intros; apply push_mask_require; lia.
  - intros. simpl. apply length_insert.
  - intros b st' Hs. unfold parse_byte. by rewrite Hs.
Qed.

(** The parser is the automaton, whatever fuel above the length of the data is given: the
    loops of [parse] terminate and take one transition per byte. *)
Lemma parse_loop_run fuel pos s st :
  parser_ok st -> (length s < fuel)%nat -> parse_loop fuel pos s st = ret_size (run_bytes pos s st).
Proof.
  revert pos s st. induction fuel as [|fuel IH]; intros pos s st Hok Hf; [lia|].
  destruct s as [|b s]; [done|].
  pose proof (parse_byte_ok b st Hok) as Hok'. simpl in Hf.
  cbn [parse_loop]. destruct (m_state st) eqn:Es.
  - simpl run_bytes. unfold parse_byte in *. rewrite Es in Hok' |- *. apply IH; [exact Hok'|lia].
  - simpl run_bytes. unfold parse_byte in *. rewrite Es in Hok' |- *.
    destruct (on_head b st) as [st' []]; [unfold ret_size; simpl; f_equal; lia|]. apply IH; [exact Hok'|lia].
  - pose proof (require_loop_run_length (b :: s) pos st ltac:(done) Es) as Hrun.
    destruct Hok as [Hr Hm]. unfold require_ok in Hr. rewrite Es in Hr. specialize (Hrun Hr).
    destruct (require_loop push_length pos (b :: s) st) as [[pos' s'] st'].
    destruct Hrun as (Hlen & Hst & Hreq & Hmask & ->).
    pose proof (after_length_ok st' ltac:(congruence)) as Hok2.
    destruct (Z.eqb_spec (m_require st') 0).
    + destruct (after_length st') as [st2 []]; [done|]. apply IH; [exact Hok2|simpl in *; lia].
    + apply IH; [|simpl in *; lia]. split; [|congruence].
      unfold require_ok. rewrite Hst. lia.
  - pose proof (require_loop_run_mask (b :: s) pos st ltac:(done) Es) as Hrun.
    destruct Hok as [Hr Hm]. unfold require_ok in Hr. rewrite Es in Hr. specialize (Hrun Hr).
    destruct (require_loop push_mask pos (b :: s) st) as [[pos' s'] st'].
    destruct Hrun as (Hlen & Hst & Hreq & Hmask & ->).
    destruct (Z.eqb_spec (m_require st') 0); [done|].
    apply IH; [|simpl in *; lia]. split; [|congruence].
    unfold require_ok. rewrite Hst. lia.
  - simpl run_bytes. unfold parse_byte in *. rewrite Es in Hok' |- *. apply IH; [exact Hok'|lia].
Qed.

(** ** The wire format (RFC 6455, section 5.2) *)

Definition is_fin (flags : Z) : bool := websocket_flags_not_none (flags_and flags WS_FIN).

Definition len7 (len : Z) : Z :=
  if len <? 126 then len else if len <=? 0xFFFF then 126 else 127.

Definition ext_bytes (len : Z) : list Z :=
  if len <? 126 then [] else if len <=? 0xFFFF then be_bytes 2 len else be_bytes 8 len.

Definition header_bytes (flags : Z) (mask : list Z) (len : Z) : list Z :=
  [ (if is_fin flags then 128 else 0) + flags mod 16;
    (if has_mask flags then 128 else 0) + len7 len ]
  ++ ext_bytes len ++ (if has_mask flags then mask else []).

(** Flags the interface defines: four opcode bits, [WS_FIN] and [WS_HAS_MASK]. *)
Definition flags_ok (flags : Z) : Prop := 0 <= flags < 64.

Lemma opcode_mod flags : flags_and flags WS_OP_MASK = flags mod 16.
Proof.
  unfold flags_and, WS_OP_MASK. change 0xF with (Z.ones 4). rewrite Z.land_ones by lia.
  change (2 ^ 4) with 16. apply wrap_small. pose proof (Z.mod_pos_bound flags 16). lia.
Qed.

Lemma len7_range len : 0 <= len -> 0 <= len7 len < 128.
Proof. intros. unfold len7. repeat case_match; lia. Qed.

(** The two head bytes, as the builder computes them with [|=]. *)
Lemma head_byte (c : bool) x :
  0 <= x < 128 ->
  wrap 8 (Z.lor (if c then store_char (Z.shiftl 1 7) else 0) x) = (if c then 128 else 0) + x.
Proof.
  intros Hx. destruct c.
  - change (store_char (Z.shiftl 1 7)) with (1 * 2 ^ 7).
    rewrite lor_shift_add by lia. apply wrap_small. lia.
  - rewrite Z.lor_0_l. apply wrap_small. lia.
Qed.

Lemma store_low_byte z : store_char (Z.land z 0xFF) = wrap 8 z.
Proof.
  rewrite store_char_wrap. change 0xFF with (Z.ones 8).
  rewrite Z.land_ones by lia. apply wrap_small, (wrap_range 8 z). lia.
Qed.

(** The mask bytes of a header: those the caller passed, or what the array held. *)
Definition mask_or_stored (mask : option (list Z)) (frame : list Z) (off : nat) : list Z :=
  match mask with Some m => m | None => take 4 (drop off frame) end.

Definition ext_offset (len : Z) : nat :=
  if len <? 126 then 2 else if len <=? 0xFFFF then 4 else 10.

Lemma calc_frame_header_size_eq flags len :
  calc_frame_header_size flags len =
  Z.of_nat (ext_offset len) + (if has_mask flags then 4 else 0).
Proof.
  unfold calc_frame_header_size, ext_offset. fold (has_mask flags).
  rewrite Z.geb_leb, Z.gtb_ltb.
  destruct (Z.ltb_spec len 126), (Z.leb_spec 126 len), (Z.leb_spec len 0xFFFF),
    (Z.ltb_spec 0xFFFF len), (has_mask flags); lia.
Qed.

(** The builder writes exactly the bytes of the format, inside the maximal header, and
    leaves the rest of the array alone. *)
Lemma builder_bytes frame flags mask len :
  (14 <= length frame)%nat -> 0 <= len < 2 ^ 64 ->
  (forall m, mask = Some m -> length m = 4%nat) ->
  let '(frame', off) := websocket_frame_header_builder frame flags mask len in
  take off frame' = header_bytes flags (mask_or_stored mask frame (ext_offset len)) len
  /\ drop off frame' = drop off frame
  /\ Z.of_nat off = calc_frame_header_size flags len.
Proof.
  intros Hf Hlen Hm. rewrite calc_frame_header_size_eq.
  do 14 (destruct frame as [|? frame]; [simpl in Hf; lia|]). clear Hf.
  unfold websocket_frame_header_builder, header_bytes, len7, ext_bytes, ext_offset, or_at.
  fold (is_fin flags) (has_mask flags). rewrite opcode_mod.
  pose proof (head_byte (is_fin flags) (flags mod 16) ltac:(pose proof (Z.mod_pos_bound flags 16); lia)) as H0.
  pose proof (fun x => head_byte (has_mask flags) x) as H1.
  assert (Hmask : forall m, mask = Some m -> exists a b c d, m = [a; b; c; d]).
  { intros m E. specialize (Hm m E). destruct m as [|a [|b [|c [|d [|]]]]]; try done. eauto. }
  destruct (is_fin flags), (has_mask flags), (Z.ltb_spec len 126), (Z.leb_spec len 0xFFFF);
    (destruct mask as [m|]; [destruct (Hmask m eq_refl) as (?&?&?&?&->)|]); try lia;
    cbn [insert list_insert nth take drop list_inserts mask_or_stored app be_bytes Nat.add];
    rewrite H0, H1, ?store_low_byte, ?store_char_wrap by lia;
    (split_and!; [reflexivity..]).
Qed.

(** ** Reading back what was written *)

Lemma push_length_value b st :
  is_byte b -> 0 <= m_length st -> m_length st * 256 + b < 2 ^ 64 ->
  m_length (push_length b st) = m_length st * 256 + b.
Proof.
  intros Hb H0 Hlt. unfold is_byte in Hb. simpl.
  rewrite wrap_small, push_byte; [done|done|].
  rewrite Z.shiftl_mul_pow2 by lia. change (2 ^ 8) with 256. lia.
Qed.

(** The automaton over the bytes of an extended length. *)
Lemma run_length_bytes l rest pos flags mask acc :
  l <> [] -> (length l <= 8)%nat -> Forall is_byte l -> 0 <= acc -> be_value acc l < 2 ^ 64 ->
  run_bytes pos (l ++ rest) (mk_parser s_length flags mask acc (Z.of_nat (length l))) =
  let '(st, ret) := after_length (mk_parser s_length flags mask (be_value acc l) 0) in
  if ret then (st, Some (pos + length l)%nat) else run_bytes (pos + length l) rest st.
Proof.
  revert pos acc. induction l as [|b l IH]; intros pos acc Hne Hlen Hl Hacc Hv; [done|].
  inversion Hl as [|? ? Hb Hl']; subst. unfold is_byte in Hb.
  change (be_value acc (b :: l)) with (be_value (acc * 256 + b) l) in *.
  pose proof (be_value_mono l (acc * 256 + b) Hl' ltac:(lia)) as Hmono.
  cbn [run_bytes app]. unfold parse_byte. cbn [m_state].
  set (st0 := mk_parser s_length flags mask acc (Z.of_nat (length (b :: l)))).
  assert (push_length b st0 = mk_parser s_length flags mask (acc * 256 + b) (Z.of_nat (length l)))
    as ->.
  { pose proof (push_length_value b st0 Hb Hacc ltac:(simpl; lia)) as Hv0.
    pose proof (push_length_require b st0 ltac:(simpl in *; lia)) as Hr0.
    unfold push_length in *. simpl in Hv0, Hr0 |- *. rewrite Hv0, Hr0. f_equal. lia. }
  cbn [m_require]. destruct l as [|b' l].
  - simpl. rewrite Nat.add_1_r. by destruct (after_length _) as [st []].
  - destruct (Z.eqb_spec (Z.of_nat (length (b' :: l))) 0); [simpl in *; lia|].
    rewrite IH by (done || simpl in *; lia).
    destruct (after_length _) as [st []]; simpl; do 2 f_equal; lia.
Qed.

(** The automaton over the four bytes of a mask. *)
Lemma run_mask_bytes a b c d w x y z rest pos flags len :
  run_bytes pos ([a; b; c; d] ++ rest) (mk_parser s_mask flags [w; x; y; z] len 4) =
  (mk_parser s_finished flags [a; b; c; d] len 0, Some (pos + 4)%nat).
Proof.
  cbn. do 2 f_equal. lia.
Qed.

(** The flags on the two head bytes. *)
Lemma on_start_flags flags :
  flags_ok flags ->
  m_flags (on_start ((if is_fin flags then 128 else 0) + flags mod 16) parser_init)
  = Z.land flags 0x1F.
Proof.
  intros Hf.
  apply (range_check (fun flags => m_flags (on_start
    ((if is_fin flags then 128 else 0) + flags mod 16) parser_init) =? Z.land flags 0x1F) 64)
    in Hf; [by apply Z.eqb_eq | by vm_compute].
Qed.

Lemma head_flags flags :
  flags_ok flags ->
  (if has_mask flags then flags_or (Z.land flags 0x1F) WS_HAS_MASK else Z.land flags 0x1F)
  = flags.
Proof.
  intros Hf.
  apply (range_check (fun flags => (if has_mask flags
    then flags_or (Z.land flags 0x1F) WS_HAS_MASK else Z.land flags 0x1F) =? flags) 64)
    in Hf; [by apply Z.eqb_eq | by vm_compute].
Qed.

(** The seven-bit length and the mask bit, read with [&] from the second byte. *)
Lemma second_byte (c : bool) x :
  0 <= x < 128 ->
  Z.land ((if c then 128 else 0) + x) 0x7F = x /\
  websocket_flags_not_none (Z.land ((if c then 128 else 0) + x) 0x80) = c.
Proof.
  intros Hx.
  apply (range_check (fun x => (Z.land ((if c then 128 else 0) + x) 0x7F =? x) &&
    Bool.eqb (websocket_flags_not_none (Z.land ((if c then 128 else 0) + x) 0x80)) c) 128)
    in Hx; [|by destruct c; vm_compute].
  apply andb_prop in Hx as [H1 H2]. by apply Z.eqb_eq in H1; apply eqb_prop in H2.
Qed.

(** [on_head] on the second byte of a header built for [flags] and [len]. *)
Lemma on_head_built flags len mask req :
  flags_ok flags -> 0 <= len ->
  on_head ((if has_mask flags then 128 else 0) + len7 len)
    (mk_parser s_head (Z.land flags 0x1F) mask 0 req) =
  if len <? 126 then
    (if has_mask flags then (mk_parser s_mask flags mask len 4, false)
     else (mk_parser s_finished flags mask len req, true))
  else (mk_parser s_length flags mask 0 (Z.of_nat (length (ext_bytes len))), false).
Proof.
  intros Hf Hlen. unfold on_head. cbn [m_flags m_mask m_require].
  destruct (second_byte (has_mask flags) (len7 len) (len7_range len Hlen)) as [-> ->].
  rewrite head_flags by done. unfold len7, ext_bytes.
  destruct (Z.ltb_spec len 126).
  - rewrite Z.geb_leb. destruct (Z.leb_spec 126 len); [lia|]. by destruct (has_mask flags).
  - destruct (Z.leb_spec len 0xFFFF); by rewrite length_be_bytes.
Qed.

Lemma ext_bytes_value len :
  126 <= len < 2 ^ 64 -> be_value 0 (ext_bytes len) = len.
Proof.
  intros Hlen. unfold ext_bytes. destruct (Z.ltb_spec len 126); [lia|].
  destruct (Z.leb_spec len 0xFFFF); rewrite be_value_bytes; apply Z.mod_small;
    cbn; lia.
Qed.

Lemma ext_bytes_facts len :
  126 <= len ->
  ext_bytes len <> [] /\ (length (ext_bytes len) <= 8)%nat /\ Forall is_byte (ext_bytes len).
Proof.
  intros Hlen. unfold ext_bytes. destruct (Z.ltb_spec len 126); [lia|].
  destruct (len <=? 0xFFFF);
    (split_and!; [done | rewrite length_be_bytes; lia | apply be_bytes_byte]).
Qed.

(** The mask a fresh parser holds after reading a header with [flags] and [mask]. *)
Definition read_mask (flags : Z) (mask : list Z) : list Z :=
  if has_mask flags then mask else replicate 4 0.

(** The automaton reads the header back and stops right behind it. *)
Lemma run_header flags mask len rest :
  flags_ok flags -> 0 <= len < 2 ^ 64 -> length mask = 4%nat ->
  run_bytes 0 (header_bytes flags mask len ++ rest) parser_init =
  (mk_parser s_finished flags (read_mask flags mask) len 0,
   Some (length (header_bytes flags mask len))).
Proof.
  intros Hf Hlen Hm. destruct mask as [|a [|b [|c [|d []]]]]; try done. clear Hm.
  unfold header_bytes, read_mask. rewrite <- !app_assoc.
  cbn [app run_bytes]. unfold parse_byte at 1. cbn [m_state parser_init].
  unfold parse_byte. cbn [m_state on_start].
  pose proof (on_start_flags flags Hf) as Hs.
  unfold on_start in *. cbn [m_flags m_mask m_require parser_init] in *. rewrite Hs.
  rewrite on_head_built by (done || lia).
  destruct (Z.ltb_spec len 126) as [Hl|Hl].
  - unfold ext_bytes. destruct (Z.ltb_spec len 126); [|lia].
    destruct (has_mask flags); [|done]. cbn [app]. apply (run_mask_bytes a b c d 0 0 0 0 rest).
  - destruct (ext_bytes_facts len Hl) as (Hne & H8 & Hb).
    rewrite run_length_bytes by first [done | rewrite ext_bytes_value; lia].
    rewrite ext_bytes_value by lia. unfold after_length. cbn [m_flags m_mask m_length].
    simpl length. rewrite length_app. destruct (has_mask flags).
    + by rewrite (run_mask_bytes a b c d 0 0 0 0 rest).
    + simpl. do 2 f_equal. lia.
Qed.

(** [parse] is the automaton run over all the data. *)
Lemma parse_run data st : parser_ok st -> parse data st = ret_size (run_bytes 0 data st).
Proof. intros. apply parse_loop_run; [done|lia]. Qed.

(** A run over a concatenation goes on where the first run stopped. *)
Lemma run_bytes_app a b pos st :
  run_bytes pos (a ++ b) st =
  match snd (run_bytes pos a st) with
  | None => run_bytes (pos + length a) b (fst (run_bytes pos a st))
  | Some _ => run_bytes pos a st
  end.
Proof.
  revert pos st. induction a as [|x a IH]; intros pos st; [simpl; f_equal; lia|].
  cbn [run_bytes app]. destruct (parse_byte x st) as [st' []]; [done|].
  rewrite IH. destruct (snd (run_bytes (S pos) a st')); [done|]. simpl. f_equal. lia.
Qed.

Lemma run_bytes_shift p pos s st :
  run_bytes (p + pos) s st =
  (fst (run_bytes pos s st), Nat.add p <$> snd (run_bytes pos s st)).
Proof.
  revert pos st. induction s as [|x s IH]; intros pos st; [done|].
  cbn [run_bytes]. destruct (parse_byte x st) as [st' []]; simpl; [by rewrite Nat.add_succ_r|].
  by rewrite <- IH, Nat.add_succ_r.
Qed.

(** The position behind a header lies in the data. *)
Lemma run_bytes_bound pos s st n :
  snd (run_bytes pos s st) = Some n -> (pos < n <= pos + length s)%nat.
Proof.
  revert pos st. induction s as [|x s IH]; intros pos st; [done|].
  cbn [run_bytes length]. destruct (parse_byte x st) as [st' []]; [intros [= <-]; lia|].
  intros H%IH. lia.
Qed.

Lemma run_bytes_ok pos s st : parser_ok st -> parser_ok (fst (run_bytes pos s st)).
Proof.
  revert pos st. induction s as [|x s IH]; intros pos st Hok; [done|].
  cbn [run_bytes]. pose proof (parse_byte_ok x st Hok) as Hok'.
  destruct (parse_byte x st) as [st' []]; [exact Hok'|by apply IH].
Qed.

#[export] Hint Resolve parse_byte_ok run_bytes_ok : xynet.

Lemma length_header_bytes flags mask len :
  length mask = 4%nat ->
  Z.of_nat (length (header_bytes flags mask len)) = calc_frame_header_size flags len.
Proof.
  intros Hm. rewrite calc_frame_header_size_eq. unfold header_bytes, ext_bytes, ext_offset.
  rewrite !length_app.
  destruct (has_mask flags); rewrite ?Hm;
    (destruct (len <? 126); [|destruct (len <=? 0xFFFF)]); rewrite ?length_be_bytes;
    simpl; lia.
Qed.

(** What the class makes of a header: the bytes of the format with a zero mask. *)
Lemma frame_header_make_view flags len :
  0 <= len < 2 ^ 64 ->
  frame_header_view (frame_header_make flags len) = header_bytes flags (replicate 4 0) len
  /\ Z.of_nat (m_header_length (frame_header_make flags len)) = calc_frame_header_size flags len.
Proof.
  intros Hlen. unfold frame_header_make, frame_header_view.
  pose proof (builder_bytes (replicate 14 0) flags None len ltac:(done) Hlen ltac:(done)) as Hb.
  change (Z.to_nat WS_MAX_FRAME_HEADER_SIZE) with 14%nat.
  destruct (websocket_frame_header_builder _ _ _ _) as [hdr off].
  destruct Hb as (Htake & _ & Hoff). split; [|exact Hoff]. simpl. rewrite Htake.
  unfold ext_offset. by destruct (len <? 126), (len <=? 0xFFFF).
Qed.

(** ** Properties *)

(** C9: round trip of the frame header. For every combination of the defined flags,
    every length and every mask, parsing the bytes the builder wrote (whatever the array
    held before, whatever follows them) recovers flags, length and mask and stops exactly
    behind the header. *)
Theorem frame_header_roundtrip frame flags mask len rest :
  (14 <= length frame)%nat -> flags_ok flags -> 0 <= len < 2 ^ 64 -> length mask = 4%nat ->
  let '(frame', off) := websocket_frame_header_builder frame flags (Some mask) len in
  parse (take off frame' ++ rest) parser_init =
  (mk_parser s_finished flags (read_mask flags mask) len 0, Z.of_nat off).
Proof.
  intros Hfr Hf Hlen Hm.
  pose proof (builder_bytes frame flags (Some mask) len Hfr Hlen) as Hb.
  destruct (websocket_frame_header_builder _ _ _ _) as [frame' off].
  destruct Hb as (Htake & _ & Hoff); [by intros m [= <-]|]. simpl mask_or_stored in Htake.
  rewrite parse_run, Htake, run_header by auto with xynet.
  unfold ret_size. cbn [fst snd]. by rewrite length_header_bytes, <- Hoff.
Qed.

Lemma frame_header_roundtrip_witness :
  let '(frame', off) :=
    websocket_frame_header_builder (replicate 14 7) 0x31 (Some [1; 2; 3; 255]) 70000 in
  parse (take off frame' ++ [42]) parser_init =
  (mk_parser s_finished 0x31 [1; 2; 3; 255] 70000 0, Z.of_nat off).
Proof.
  apply (frame_header_roundtrip (replicate 14 7) 0x31 [1; 2; 3; 255] 70000 [42]);
    first [reflexivity | unfold flags_ok; lia | simpl; lia].
Defined.

(** The parser is incremental. Feeding a header in two pieces, however it is cut and
    from whatever state a parser can be in, gives the flags, length, mask and end position
    of feeding it at once; data behind a complete header is not looked at. *)
Theorem parse_split a b st :
  parser_ok st -> Z.of_nat (length (a ++ b)) < npos ->
  let '(st1, r1) := parse a st in
  parse (a ++ b) st =
  if r1 =? npos then
    let '(st2, r2) := parse b st1 in
    (st2, if r2 =? npos then npos else Z.of_nat (length a) + r2)
  else (st1, r1).
Proof.
  intros Hok Hlen. rewrite length_app in Hlen. rewrite !(parse_run _ st Hok).
  rewrite run_bytes_app. pose proof (run_bytes_bound 0 a st) as Hba.
  pose proof (run_bytes_ok 0 a st Hok) as Hok1.
  destruct (run_bytes 0 a st) as [st1 [n|]]; unfold ret_size at 1; cbn [fst snd] in *.
  - specialize (Hba n eq_refl). destruct (Z.eqb_spec (Z.of_nat n) npos); [lia|done].
  - rewrite Z.eqb_refl, parse_run by done. rewrite Nat.add_comm, run_bytes_shift.
    pose proof (run_bytes_bound 0 b st1) as Hbb.
    destruct (run_bytes 0 b st1) as [st2 [n|]]; unfold ret_size; cbn [fst snd fmap option_fmap option_map] in *.
    + specialize (Hbb n eq_refl). destruct (Z.eqb_spec (Z.of_nat n) npos); [lia|].
      by rewrite Nat2Z.inj_add.
    + by rewrite Z.eqb_refl.
Qed.

Lemma parse_split_witness :
  let '(st1, r1) := parse [0x82; 0xFE; 1] parser_init in
  parse ([0x82; 0xFE; 1] ++ [2; 3; 4; 5; 6; 7]) parser_init =
  if r1 =? npos then
    let '(st2, r2) := parse [2; 3; 4; 5; 6; 7] st1 in
    (st2, if r2 =? npos then npos else Z.of_nat (length [0x82; 0xFE; 1]) + r2)
  else (st1, r1).
Proof.
  apply (parse_split [0x82; 0xFE; 1] [2; 3; 4; 5; 6; 7] parser_init);
    [exact parser_init_ok | vm_compute; reflexivity].
Defined.

(** What the builder writes. On any array long enough for the largest header it
    writes the bytes of the RFC 6455 format at the start, nothing behind them, and returns
    [calc_frame_header_size] as the body's offset, which never passes
    [WS_MAX_FRAME_HEADER_SIZE], the size of the class's array. *)
Theorem builder_layout frame flags mask len :
  (14 <= length frame)%nat -> 0 <= len < 2 ^ 64 -> length mask = 4%nat ->
  let '(frame', off) := websocket_frame_header_builder frame flags (Some mask) len in
  frame' = header_bytes flags mask len ++ drop off frame
  /\ Z.of_nat off = calc_frame_header_size flags len
  /\ Z.of_nat off <= WS_MAX_FRAME_HEADER_SIZE.
Proof.
  intros Hfr Hlen Hm.
  pose proof (builder_bytes frame flags (Some mask) len Hfr Hlen) as Hb.
  destruct (websocket_frame_header_builder _ _ _ _) as [frame' off].
  destruct Hb as (Htake & Hdrop & Hoff); [by intros m [= <-]|].
  split_and!; [|done|].
  - by rewrite <- (take_drop off frame'), Htake, Hdrop.
  - rewrite Hoff, calc_frame_header_size_eq. change WS_MAX_FRAME_HEADER_SIZE with 14.
    unfold ext_offset. destruct (len <? 126), (len <=? 0xFFFF), (has_mask flags); simpl; lia.
Qed.

Lemma builder_layout_witness :
  let '(frame', off) :=
    websocket_frame_header_builder (replicate 16 9) 0x22 (Some [1; 2; 3; 4]) 300 in
  frame' = header_bytes 0x22 [1; 2; 3; 4] 300 ++ drop off (replicate 16 9)
  /\ Z.of_nat off = calc_frame_header_size 0x22 300
  /\ Z.of_nat off <= WS_MAX_FRAME_HEADER_SIZE.
Proof.
  apply (builder_layout (replicate 16 9) 0x22 [1; 2; 3; 4] 300);
    first [reflexivity | simpl; lia].
Defined.

(** The parser ends, inside the data. [parse] is the byte automaton with any fuel above
    the length of the data, its answer is [npos] or a position within the data, and it
    keeps the invariant that makes its writes to [m_mask] and its counters safe. *)
Theorem parse_terminates fuel data st :
  parser_ok st -> (length data < fuel)%nat ->
  let '(st', r) := parse_loop fuel 0 data st in
  (st', r) = ret_size (run_bytes 0 data st) /\ parser_ok st' /\
  (r = npos \/ 0 < r <= Z.of_nat (length data)).
Proof.
  intros Hok Hf. rewrite parse_loop_run by done.
  pose proof (run_bytes_bound 0 data st) as Hb. pose proof (run_bytes_ok 0 data st Hok).
  destruct (run_bytes 0 data st) as [st' [n|]]; unfold ret_size; simpl in *;
    (split_and!; [done|done|]); [right; specialize (Hb n eq_refl); lia | by left].
Qed.

Lemma parse_terminates_witness :
  let '(st', r) := parse_loop 7 0 [0x81; 0x85; 1; 2; 3; 4] parser_init in
  (st', r) = ret_size (run_bytes 0 [0x81; 0x85; 1; 2; 3; 4] parser_init) /\ parser_ok st' /\
  (r = npos \/ 0 < r <= Z.of_nat (length [0x81; 0x85; 1; 2; 3; 4])).
Proof.
  apply (parse_terminates 7 [0x81; 0x85; 1; 2; 3; 4] parser_init);
    [exact parser_init_ok | simpl; lia].
Defined.

(** The class drops the mask. A [websocket_frame_header] constructed with a mask
    stores it in [m_mask] only: the header it shows advertises a mask of zero, whatever
    mask it was given, so that a peer that parses it unmasks with zero. *)
Theorem frame_header_drops_mask flags mask len rest :
  flags_ok flags -> has_mask flags = true -> 0 <= len < 2 ^ 64 -> length mask = 4%nat ->
  let h := frame_header_make_span flags mask len in
  h_mask h = mask /\
  m_mask (fst (parse (frame_header_view h ++ rest) parser_init)) = [0; 0; 0; 0].
Proof.
  intros Hf Hmask Hlen Hm. split.
  - assert (h_mask (frame_header_make flags len) = replicate 4 0) as Hz.
    { unfold frame_header_make. by destruct (websocket_frame_header_builder _ _ _ _). }
    cbn [h_mask frame_header_make_span]. rewrite Hz.
    by destruct mask as [|? [|? [|? [|? []]]]].
  - change (frame_header_view (frame_header_make_span flags mask len)) with
      (frame_header_view (frame_header_make flags len)).
    destruct (frame_header_make_view flags len Hlen) as [-> _].
    rewrite parse_run, run_header by auto with xynet. simpl. unfold read_mask.
    by rewrite Hmask.
Qed.

Lemma frame_header_drops_mask_witness :
  let h := frame_header_make_span 0x32 [5; 6; 7; 8] 5 in
  h_mask h = [5; 6; 7; 8] /\
  m_mask (fst (parse (frame_header_view h ++ [104]) parser_init)) = [0; 0; 0; 0].
Proof.
  apply (frame_header_drops_mask 0x32 [5; 6; 7; 8] 5 [104]);
    first [reflexivity | unfold flags_ok; lia | lia].
Defined.
