(* ===== verification/WsMask.v ===== *)
(** * WebSocket payload masking

    Models [src/include/xynet/http/websocket_frame_mask.h], [websocket_mask], and puts it
    together with the frame header of [WsFrame]. *)

From S2P Require Import Prelude WsFrame.
Local Open Scope Z_scope.

(** [mask_ptr[i]]: the bytes of the [uint32_t] the pointer is taken of. *)
Definition mask_byte (mask : Z) (i : Z) : Z := nth (Z.to_nat i) (uint32_bytes mask) 0.

(** [websocket_mask(data, mask, i)]: transforms the range in place and returns the
    running index, so that the next fragment can go on from it. *)
Fixpoint websocket_mask (data : list Z) (mask : Z) (i : Z) : list Z * Z :=
  match data with
  | [] => ([], i)
  | c :: data' =>
      let c := wrap 8 (Z.lxor c (mask_byte mask (i mod 4))) in
      let '(data', i) := websocket_mask data' mask (wrap 64 (i + 1)) in
      (c :: data', i)
  end.

Lemma mask_byte_byte mask i : is_byte (mask_byte mask i).
Proof.
  unfold mask_byte, uint32_bytes.
  destruct (Z.to_nat i) as [|[|[|[|n]]]]; cbn [nth]; auto with xynet.
  destruct n; unfold is_byte; lia.
Qed.

Lemma lxor_byte a b : is_byte a -> is_byte b -> is_byte (Z.lxor a b).
Proof.
  intros Ha Hb. assert (Z.lxor a b = wrap 8 (Z.lxor a b)) as ->; [|apply wrap_byte].
  apply Z.bits_inj'. intros i Hi. destruct (Z.lt_ge_cases i 8).
  - by rewrite wrap_testbit by lia.
  - rewrite wrap_testbit_high, Z.lxor_spec by lia.
    by rewrite (testbit_small 8 a), (testbit_small 8 b) by (done || lia).
Qed.

Lemma mask_step_involutive c m :
  is_byte c -> is_byte m -> wrap 8 (Z.lxor (wrap 8 (Z.lxor c m)) m) = c.
Proof.
  intros Hc Hm. rewrite (wrap_small 8 (Z.lxor c m)) by (by apply lxor_byte).
  rewrite Z.lxor_assoc, Z.lxor_nilpotent, Z.lxor_0_r. by apply wrap_small.
Qed.

Lemma websocket_mask_index data mask i :
  0 <= i < 2 ^ 64 -> snd (websocket_mask data mask i) = wrap 64 (i + Z.of_nat (length data)).
Proof.
  revert i. induction data as [|c data IH]; intros i Hi.
  - simpl. rewrite Z.add_0_r. symmetry. by apply wrap_small.
  - cbn [websocket_mask].
    specialize (IH (wrap 64 (i + 1)) ltac:(by apply wrap_range)).
    destruct (websocket_mask data mask (wrap 64 (i + 1))) as [data' j]. simpl in *. subst j.
    unfold wrap. rewrite Zplus_mod_idemp_l. f_equal. lia.
Qed.

Lemma websocket_mask_length data mask i :
  length (fst (websocket_mask data mask i)) = length data.
Proof.
  revert i. induction data as [|c data IH]; intros i; [done|]. cbn [websocket_mask].
  specialize (IH (wrap 64 (i + 1))).
  destruct (websocket_mask data mask (wrap 64 (i + 1))). simpl in *. lia.
Qed.

Lemma websocket_mask_app a b mask i :
  websocket_mask (a ++ b) mask i =
  let '(a', j) := websocket_mask a mask i in
  let '(b', k) := websocket_mask b mask j in (a' ++ b', k).
Proof.
  revert i. induction a as [|c a IH]; intros i; cbn [websocket_mask app].
  - by destruct (websocket_mask b mask i).
  - rewrite IH. destruct (websocket_mask a mask _) as [a' j].
    by destruct (websocket_mask b mask j).
Qed.

Lemma websocket_mask_twice data mask i :
  Forall is_byte data ->
  fst (websocket_mask (fst (websocket_mask data mask i)) mask i) = data.
Proof.
  intros Hd. revert i. induction Hd as [|c data Hc _ IH]; intros i; [done|].
  cbn [websocket_mask]. specialize (IH (wrap 64 (i + 1))).
  destruct (websocket_mask data mask (wrap 64 (i + 1))) as [data' j]. cbn [fst] in *.
  cbn [websocket_mask]. destruct (websocket_mask data' mask _) as [data'' j'].
  cbn [fst] in *. subst data''.
  rewrite mask_step_involutive; [done|done|apply mask_byte_byte].
Qed.

(** The parser's [mask_uint32_t] is the integer whose bytes stand in the header. *)
Lemma mask_uint32_bytes mask st :
  0 <= mask < 2 ^ 32 -> m_mask st = uint32_bytes mask -> mask_uint32_t st = mask.
Proof.
  intros Hm E. unfold mask_uint32_t. rewrite E. unfold uint32_bytes.
  apply Z.bits_inj'. intros i Hi.
  rewrite !Z.lor_spec, !Z.shiftl_spec by lia.
  assert (forall k, Z.testbit (wrap 8 (Z.shiftr mask k)) (i - k) =
            (k <=? i) && (i <? k + 8) && Z.testbit mask i) as Hbit.
  { intros k. destruct (Z.leb_spec k i), (Z.ltb_spec i (k + 8)); simpl; try lia.
    - rewrite wrap_testbit, Z.shiftr_spec by lia. f_equal. lia.
    - by rewrite wrap_testbit_high by lia.
    - by rewrite Z.testbit_neg_r by lia. }
  pose proof (Hbit 0) as H0. rewrite Z.shiftr_0_r, Z.sub_0_r in H0.
  rewrite H0, !Hbit.
  destruct (Z.lt_ge_cases i 32).
  - destruct (Z.testbit mask i); rewrite ?andb_false_r; [|done].
    destruct (Z.leb_spec 0 i), (Z.ltb_spec i (0 + 8)), (Z.leb_spec 8 i), (Z.ltb_spec i (8 + 8)),
      (Z.leb_spec 16 i), (Z.ltb_spec i (16 + 8)), (Z.leb_spec 24 i), (Z.ltb_spec i (24 + 8));
      try done; lia.
  - rewrite (testbit_small 32 mask i) by lia. by rewrite !andb_false_r.
Qed.

(** ** Properties *)

(** Masking is an involution that can be done piecewise. Masking twice with the same
    key and start index gives the data back, and masking the pieces of a message one after
    the other, each from the index the previous call returned, masks the message. *)
Theorem websocket_mask_involutive a b mask i :
  Forall is_byte a -> Forall is_byte b -> 0 <= i < 2 ^ 64 ->
  let '(a', j) := websocket_mask a mask i in
  let '(b', k) := websocket_mask b mask j in
  websocket_mask (a ++ b) mask i = (a' ++ b', k) /\
  j = wrap 64 (i + Z.of_nat (length a)) /\
  fst (websocket_mask (a' ++ b') mask i) = a ++ b.
Proof.
  intros Ha Hb Hi.
  pose proof (websocket_mask_app a b mask i) as Happ.
  pose proof (websocket_mask_index a mask i Hi) as Hj.
  pose proof (websocket_mask_twice (a ++ b) mask i ltac:(by apply Forall_app)) as Ht.
  destruct (websocket_mask a mask i) as [a' j]. destruct (websocket_mask b mask j) as [b' k].
  rewrite Happ in Ht. split_and!; done.
Qed.

Lemma websocket_mask_involutive_witness :
  let '(a', j) := websocket_mask [72; 101] 0x04030201 3 in
  let '(b', k) := websocket_mask [108; 108; 111] 0x04030201 j in
  websocket_mask ([72; 101] ++ [108; 108; 111]) 0x04030201 3 = (a' ++ b', k) /\
  j = wrap 64 (3 + Z.of_nat (length [72; 101])) /\
  fst (websocket_mask (a' ++ b') 0x04030201 3) = [72; 101] ++ [108; 108; 111].
Proof.
  apply (websocket_mask_involutive [72; 101] [108; 108; 111] 0x04030201 3);
    [repeat constructor; unfold is_byte; lia | repeat constructor; unfold is_byte; lia | lia].
Defined.

(** A whole masked frame round-trips. A sender that builds the header with a mask and
    masks the payload with it, and a receiver that parses the header, takes [length()]
    bytes behind it and unmasks them with [mask_uint32_t()], agree on the payload. *)
Theorem frame_roundtrip flags mask payload rest :
  flags_ok flags -> has_mask flags = true -> 0 <= mask < 2 ^ 32 ->
  Forall is_byte payload -> Z.of_nat (length payload) < 2 ^ 63 ->
  let '(frame, off) :=
    websocket_frame_header_builder (replicate 14 0) flags (Some (uint32_bytes mask))
      (Z.of_nat (length payload)) in
  let wire := take off frame ++ fst (websocket_mask payload mask 0) ++ rest in
  let '(p, n) := parse wire parser_init in
  let '(flags', mask', len) := parser_result p in
  flags' = flags /\
  fst (websocket_mask (take (Z.to_nat len) (drop (Z.to_nat n) wire)) mask' 0) = payload.
Proof.
  intros Hf Hhm Hm Hp Hlen.
  pose proof (builder_bytes (replicate 14 0) flags (Some (uint32_bytes mask))
    (Z.of_nat (length payload)) ltac:(done) ltac:(lia)) as Hb.
  destruct (websocket_frame_header_builder _ _ _ _) as [frame off].
  destruct Hb as (Htake & _ & Hoff); [by intros m [= <-]|]. simpl mask_or_stored in Htake.
  cbn zeta. rewrite parse_run, Htake, run_header by (auto with xynet; lia).
  unfold ret_size, parser_result, parser_flags, parser_length, read_mask. cbn [fst snd m_flags m_length]. rewrite Hhm.
  split; [done|]. rewrite !Nat2Z.id, drop_app_length.
  rewrite take_app_length' by (by rewrite websocket_mask_length).
  rewrite (mask_uint32_bytes mask) by done. by apply websocket_mask_twice.
Qed.

Lemma frame_roundtrip_witness :
  let '(frame, off) :=
    websocket_frame_header_builder (replicate 14 0) 0x31 (Some (uint32_bytes 0xA1B2C3D4))
      (Z.of_nat (length [104; 105; 33; 10; 0])) in
  let wire := take off frame ++ fst (websocket_mask [104; 105; 33; 10; 0] 0xA1B2C3D4 0) ++ [1] in
  let '(p, n) := parse wire parser_init in
  let '(flags', mask', len) := parser_result p in
  flags' = 0x31 /\
  fst (websocket_mask (take (Z.to_nat len) (drop (Z.to_nat n) wire)) mask' 0)
  = [104; 105; 33; 10; 0].
Proof.
  apply (frame_roundtrip 0x31 0xA1B2C3D4 [104; 105; 33; 10; 0] [1]);
    first [reflexivity | unfold flags_ok; lia | lia | simpl; lia
          | repeat constructor; unfold is_byte; lia].
Defined.
