(* ===== verification/Pico.v ===== *)
(** * The HTTP parser

    Models the request, response and header parsing of
    [src/include/xynet/http/picohttpparser.h], compiled without SSE4.2 (the library's
    build sets no [-msse4.2]).

    A [const char*] into the buffer is a position; [mem] is the object the buffer lives
    in, from [buf_start] on, and [buf_end] the position of its end. [mem] may be longer
    than [buf_end]: the caller parses what it has received so far into a larger array. A
    read outside [mem] is [Ub]. Loops that advance a pointer recurse on the memory from
    that pointer on. The objects the out-parameters point to are the state [phr_out],
    which keeps what was written to it when the parser gives up. *)

From S2P Require Import Prelude.
Local Open Scope Z_scope.

(** Characters of the grammar. *)
Abbreviation HT := 9 (only parsing).
Abbreviation LF := 10 (only parsing).
Abbreviation CR := 13 (only parsing).
Abbreviation SP := 32 (only parsing).
Abbreviation COLON := 58 (only parsing).
Abbreviation DEL := 127 (only parsing).

(** ** Data *)

Record phr_header := mk_header {
  name : option nat;
  name_len : nat;
  value : option nat;
  value_len : nat;
}.

Definition header_null : phr_header := mk_header None 0 None 0.

(** The objects behind the pointer arguments of the three entry points. *)
Record phr_out := mk_out {
  method : option nat;
  method_len : nat;
  path : option nat;
  path_len : nat;
  minor_version : Z;
  status : Z;
  msg : option nat;
  msg_len : nat;
  headers : list phr_header;
  num_headers : nat;
}.

Definition set_method (tok : option nat) (len : nat) (o : phr_out) : phr_out :=
  mk_out tok len (path o) (path_len o) (minor_version o) (status o) (msg o) (msg_len o)
    (headers o) (num_headers o).
Definition set_path (tok : option nat) (len : nat) (o : phr_out) : phr_out :=
  mk_out (method o) (method_len o) tok len (minor_version o) (status o) (msg o) (msg_len o)
    (headers o) (num_headers o).
Definition set_minor_version (v : Z) (o : phr_out) : phr_out :=
  mk_out (method o) (method_len o) (path o) (path_len o) v (status o) (msg o) (msg_len o)
    (headers o) (num_headers o).
Definition set_status (v : Z) (o : phr_out) : phr_out :=
  mk_out (method o) (method_len o) (path o) (path_len o) (minor_version o) v (msg o)
    (msg_len o) (headers o) (num_headers o).
Definition set_msg (tok : option nat) (len : nat) (o : phr_out) : phr_out :=
  mk_out (method o) (method_len o) (path o) (path_len o) (minor_version o) (status o) tok len
    (headers o) (num_headers o).
Definition set_headers (hs : list phr_header) (o : phr_out) : phr_out :=
  mk_out (method o) (method_len o) (path o) (path_len o) (minor_version o) (status o)
    (msg o) (msg_len o) hs (num_headers o).
Definition set_num_headers (n : nat) (o : phr_out) : phr_out :=
  mk_out (method o) (method_len o) (path o) (path_len o) (minor_version o) (status o)
    (msg o) (msg_len o) (headers o) n.

Abbreviation parser := (stateful phr_out).

(** [headers[i]] is written; the array has [length (headers o)] elements. *)
Definition write_header (i : nat) (f : phr_header -> phr_header) : parser unit := fun o =>
  if (i <? length (headers o))%nat
  then (Ret tt, set_headers (alter f i (headers o)) o)
  else (Ub, o).

Definition header_set_name (n : option nat) (h : phr_header) : phr_header :=
  mk_header n (name_len h) (value h) (value_len h).
Definition header_set_name_len (n : nat) (h : phr_header) : phr_header :=
  mk_header (name h) n (value h) (value_len h).
Definition header_set_value (v : option nat) (n : nat) (h : phr_header) : phr_header :=
  mk_header (name h) (name_len h) v n.

(** ** Macros and character classes *)

(** [IS_PRINTABLE_ASCII(c)]: an unsigned comparison. *)
Definition is_printable_ascii (c : Z) : bool := wrap 32 (c - 32) <? 95.

(** The characters at which a token ends in error in [ADVANCE_TOKEN]. *)
Definition token_ctl (c : Z) : bool := (c <? SP) || (c =? DEL).

(** The characters [get_token_to_eol] stops at. *)
Definition eol_ctl (c : Z) : bool := ((c <? SP) && negb (c =? HT)) || (c =? DEL).

Definition is_blank (c : Z) : bool := (c =? SP) || (c =? HT).

(** [token_char_map] *)
Definition token_char_map : list Z :=
  [0; 0; 0; 0; 0; 0; 0; 0; 0; 0; 0; 0; 0; 0; 0; 0; 0; 0; 0; 0; 0; 0; 0; 0; 0; 0; 0; 0; 0; 0; 0; 0;
   0; 1; 0; 1; 1; 1; 1; 1; 0; 0; 1; 1; 0; 1; 1; 0; 1; 1; 1; 1; 1; 1; 1; 1; 1; 1; 0; 0; 0; 0; 0; 0;
   0; 1; 1; 1; 1; 1; 1; 1; 1; 1; 1; 1; 1; 1; 1; 1; 1; 1; 1; 1; 1; 1; 1; 1; 1; 1; 1; 0; 0; 0; 1; 1;
   1; 1; 1; 1; 1; 1; 1; 1; 1; 1; 1; 1; 1; 1; 1; 1; 1; 1; 1; 1; 1; 1; 1; 1; 1; 1; 1; 0; 1; 0; 1; 0]
  ++ replicate 128 0.

Definition is_token_char (c : Z) : bool := negb (nth (Z.to_nat c) token_char_map 0 =? 0).

(** [*buf] *)
Definition char_at (mem : list Z) (buf : nat) : outcome Z :=
  match mem !! buf with Some c => Ret c | None => Ub end.

(** [CHECK_EOF()] *)
Definition check_eof (buf_end buf : nat) : outcome unit :=
  if (buf =? buf_end)%nat then Err (-2) else Ret tt.

(** [EXPECT_CHAR_NO_CHECK(ch)]: the pointer behind the character. *)
Definition expect_char_no_check (mem : list Z) (ch : Z) (buf : nat) : outcome nat :=
  c ← char_at mem buf;
  if c =? ch then Ret (S buf) else Err (-1).

(** [EXPECT_CHAR(ch)] *)
Definition expect_char (mem : list Z) (buf_end : nat) (ch : Z) (buf : nat) : outcome nat :=
  _ ← check_eof buf_end buf;
  expect_char_no_check mem ch buf.

(** [findchar_fast] without SSE4.2: nothing is found, the pointer stays. *)
Definition findchar_fast (buf : nat) : nat * bool := (buf, false).

(** The loop of [ADVANCE_TOKEN]; [s] is the memory from [buf] on. *)
Fixpoint advance_loop (buf_end : nat) (buf : nat) (s : list Z) : outcome nat :=
  match s with
  | [] => Ub
  | c :: s' =>
      if c =? SP then Ret buf
      else if negb (is_printable_ascii c) && token_ctl c then Err (-1)
      else if (S buf =? buf_end)%nat then Err (-2)
      else advance_loop buf_end (S buf) s'
  end.

(** [ADVANCE_TOKEN(tok, toklen)]: the pointer behind the token. *)
Definition advance_token (mem : list Z) (buf_end buf : nat) : outcome nat :=
  let '(buf, found2) := findchar_fast buf in
  _ ← (if found2 : bool then Ret tt else check_eof buf_end buf);
  advance_loop buf_end buf (drop buf mem).

(** [do { ++buf; } while ( *buf == ' ');] *)
Fixpoint skip_loop (buf : nat) (s : list Z) : outcome nat :=
  match s with
  | [] => Ub
  | c :: s' => if c =? SP then skip_loop (S buf) s' else Ret buf
  end.

Definition skip_spaces (mem : list Z) (buf : nat) : outcome nat :=
  skip_loop (S buf) (drop (S buf) mem).

(** ** [get_token_to_eol] *)

(** The last loop: one character at a time. *)
Fixpoint eol_slow (buf_end : nat) (buf : nat) (s : list Z) : outcome nat :=
  if (buf =? buf_end)%nat then Err (-2) else
  match s with
  | [] => Ub
  | c :: s' =>
      if negb (is_printable_ascii c) && eol_ctl c then Ret buf
      else eol_slow buf_end (S buf) s'
  end.

(** The unrolled loop: [k] of its eight [DOIT()] are left; with [k = 0] control is at
    [while (buf_end - buf >= 8)]. *)
Fixpoint eol_fast (buf_end : nat) (k : nat) (buf : nat) (s : list Z) : outcome nat :=
  let k := if (k =? 0)%nat then (if (8 <=? buf_end - buf)%nat then 8 else 0)%nat else k in
  match k with
  | O => eol_slow buf_end buf s
  | S k =>
      match s with
      | [] => Ub
      | c :: s' =>
          if is_printable_ascii c then eol_fast buf_end k (S buf) s'
          else if eol_ctl c then Ret buf
          else eol_fast buf_end 0 (S buf) s'
      end
  end.

(** [get_token_to_eol]: the pointer behind the line and the token. *)
Definition get_token_to_eol (mem : list Z) (buf_end buf : nat)
  : outcome (nat * (nat * nat)) :=
  let token_start := buf in
  buf ← eol_fast buf_end 0 buf (drop buf mem);
  c ← char_at mem buf;
  if c =? CR then
    buf ← expect_char mem buf_end LF (S buf);
    Ret (buf, (token_start, (buf - 2 - token_start)%nat))
  else if c =? LF then Ret (S buf, (token_start, (buf - token_start)%nat))
  else Err (-1).

(** ** [is_complete] *)

Fixpoint is_complete_loop (buf_end : nat) (buf : nat) (s : list Z) (ret_cnt : nat)
  : outcome nat :=
  if (buf =? buf_end)%nat then Err (-2) else
  match s with
  | [] => Ub
  | c :: s' =>
      if c =? CR then
        if (S buf =? buf_end)%nat then Err (-2) else
        match s' with
        | [] => Ub
        | c' :: s'' =>
            if c' =? LF then
              if (S ret_cnt =? 2)%nat then Ret (S (S buf))
              else is_complete_loop buf_end (S (S buf)) s'' (S ret_cnt)
            else Err (-1)
        end
      else if c =? LF then
        if (S ret_cnt =? 2)%nat then Ret (S buf)
        else is_complete_loop buf_end (S buf) s' (S ret_cnt)
      else is_complete_loop buf_end (S buf) s' 0
  end.

Definition is_complete (mem : list Z) (buf_end buf last_len : nat) : outcome nat :=
  let buf := if (last_len <? 3)%nat then buf else (buf + last_len - 3)%nat in
  is_complete_loop buf_end buf (drop buf mem) 0.

(** ** Request and status lines *)

(** [PARSE_INT(valp, mul)]: the value and the pointer behind the digit. *)
Definition parse_int (mem : list Z) (mul : Z) (buf : nat) : outcome (Z * nat) :=
  c ← char_at mem buf;
  let c := schar c in
  if (c <? 48) || (57 <? c) then Err (-1) else Ret (mul * (c - 48), S buf).

(** [parse_http_version] *)
Definition parse_http_version (mem : list Z) (buf_end buf : nat) : parser nat :=
  if (buf_end - buf <? 9)%nat then lift (Err (-2)) else
  buf ← lift (expect_char_no_check mem 72 buf);   (* H *)
  buf ← lift (expect_char_no_check mem 84 buf);   (* T *)
  buf ← lift (expect_char_no_check mem 84 buf);   (* T *)
  buf ← lift (expect_char_no_check mem 80 buf);   (* P *)
  buf ← lift (expect_char_no_check mem 47 buf);   (* / *)
  buf ← lift (expect_char_no_check mem 49 buf);   (* 1 *)
  buf ← lift (expect_char_no_check mem 46 buf);   (* . *)
  '(v, buf) ← lift (parse_int mem 1 buf);
  _ ← modify (set_minor_version v);
  mret buf.

(** ** [parse_headers] *)

(** The loop over a header's name, up to the colon. *)
Fixpoint name_loop (buf_end : nat) (buf : nat) (s : list Z) : outcome nat :=
  match s with
  | [] => Ub
  | c :: s' =>
      if c =? COLON then Ret buf
      else if negb (is_token_char c) then Err (-1)
      else if (S buf =? buf_end)%nat then Err (-2)
      else name_loop buf_end (S buf) s'
  end.

(** The loop over the blanks behind the colon. *)
Fixpoint blank_loop (buf_end : nat) (buf : nat) (s : list Z) : outcome nat :=
  if (buf =? buf_end)%nat then Err (-2) else
  match s with
  | [] => Ub
  | c :: s' => if is_blank c then blank_loop buf_end (S buf) s' else Ret buf
  end.

(** The loop that removes trailing blanks: [len] is [value_end - value]. *)
Fixpoint trim_loop (mem : list Z) (value : nat) (len : nat) : outcome nat :=
  match len with
  | O => Ret O
  | S len' =>
      c ← char_at mem (value + len');
      if is_blank c then trim_loop mem value len' else Ret len
  end.

(** The name part of one header line, for [headers[n]]. *)
Definition parse_header_name (mem : list Z) (buf_end buf n : nat) : parser nat :=
  let name_start := buf in
  _ ← write_header n (header_set_name (Some name_start));
  let '(buf, found) := findchar_fast buf in
  _ ← (if found : bool then mret tt else lift (check_eof buf_end buf));
  buf ← lift (name_loop buf_end buf (drop buf mem));
  _ ← write_header n (header_set_name_len (buf - name_start));
  if (buf - name_start =? 0)%nat then lift (Err (-1)) else
  lift (blank_loop buf_end (S buf) (drop (S buf) mem)).

(** A continuation line has no name. *)
Definition no_header_name (buf n : nat) : parser nat :=
  _ ← write_header n (header_set_name None);
  _ ← write_header n (header_set_name_len 0);
  mret buf.

(** The value part of one header line. *)
Definition parse_header_value (mem : list Z) (buf_end buf n : nat) : parser nat :=
  '(buf, (value, value_len)) ← lift (get_token_to_eol mem buf_end buf);
  len ← lift (trim_loop mem value value_len);
  _ ← write_header n (header_set_value (Some value) len);
  mret buf.

(** The loop of [parse_headers]. [room] is [max_headers - *num_headers]: the loop gives up
    when it is used up, so it runs at most [max_headers + 1] times. *)
Fixpoint headers_loop (mem : list Z) (buf_end : nat) (room : nat) (buf : nat) : parser nat :=
  _ ← lift (check_eof buf_end buf);
  c ← lift (char_at mem buf);
  if c =? CR then lift (expect_char mem buf_end LF (S buf))
  else if c =? LF then mret (S buf)
  else
    match room with
    | O => lift (Err (-1))
    | S room =>
        n ← (fun o => (Ret (num_headers o), o));
        buf ← (if negb (negb (n =? 0)%nat && is_blank c)
               then parse_header_name mem buf_end buf n
               else no_header_name buf n);
        buf ← parse_header_value mem buf_end buf n;
        _ ← modify (set_num_headers (S n));
        headers_loop mem buf_end room buf
    end.

Definition parse_headers (mem : list Z) (buf_end max_headers buf : nat) : parser nat :=
  n ← (fun o => (Ret (num_headers o), o));
  headers_loop mem buf_end (max_headers - n) buf.

(** ** [parse_request] *)

(** An optional empty line in front of the request line. *)
Definition skip_empty_line (mem : list Z) (buf_end buf : nat) : outcome nat :=
  _ ← check_eof buf_end buf;
  c ← char_at mem buf;
  if c =? CR then expect_char mem buf_end LF (S buf)
  else if c =? LF then Ret (S buf)
  else Ret buf.

(** The line end behind the version. *)
Definition expect_eol (mem : list Z) (buf_end buf : nat) : outcome nat :=
  c ← char_at mem buf;
  if c =? CR then expect_char mem buf_end LF (S buf)
  else if c =? LF then Ret (S buf)
  else Err (-1).

Definition parse_request (mem : list Z) (buf_end max_headers buf : nat) : parser nat :=
  buf ← lift (skip_empty_line mem buf_end buf);
  let tok_start := buf in
  buf ← lift (advance_token mem buf_end buf);
  _ ← modify (set_method (Some tok_start) (buf - tok_start));
  let method_len := (buf - tok_start)%nat in
  buf ← lift (skip_spaces mem buf);
  let tok_start := buf in
  buf ← lift (advance_token mem buf_end buf);
  _ ← modify (set_path (Some tok_start) (buf - tok_start));
  let path_len := (buf - tok_start)%nat in
  buf ← lift (skip_spaces mem buf);
  if ((method_len =? 0) || (path_len =? 0))%nat then lift (Err (-1)) else
  buf ← parse_http_version mem buf_end buf;
  buf ← lift (expect_eol mem buf_end buf);
  parse_headers mem buf_end max_headers buf.

(** The value an entry point returns: [(int)(buf - buf_start)] or [r]. *)
Definition phr_return (r : outcome nat) : outcome Z :=
  match r with
  | Ret buf => Ret (to_int (Z.of_nat buf))
  | Err r => Ret r
  | Ub => Ub
  end.

(** [phr_parse_request]: the arguments are the memory from [buf_start] on, [len], the
    objects behind the pointers and [last_len]. *)
Definition phr_parse_request (mem : list Z) (len : nat) (last_len : nat) (o : phr_out)
  : outcome Z * phr_out :=
  let max_headers := num_headers o in
  let o := set_num_headers 0 (set_minor_version (-1) (set_path None 0 (set_method None 0 o))) in
  let body : parser nat :=
    _ ← (if (last_len =? 0)%nat then mret 0%nat else lift (is_complete mem len 0 last_len));
    parse_request mem len max_headers 0 in
  let '(r, o) := body o in (phr_return r, o).

(** ** [parse_response] *)

(** [PARSE_INT_3(valp)] *)
Definition parse_int_3 (mem : list Z) (buf : nat) : parser nat :=
  '(r, buf) ← lift (parse_int mem 100 buf);
  _ ← modify (set_status r);
  '(r, buf) ← lift (parse_int mem 10 buf);
  _ ← modify (fun o => set_status (status o + r) o);
  '(r, buf) ← lift (parse_int mem 1 buf);
  _ ← modify (fun o => set_status (status o + r) o);
  mret buf.

(** [do { ++*msg; --*msg_len; } while ( **msg == ' ');]: [s] is the memory behind the
    first space. *)
Fixpoint skip_msg_spaces (start : nat) (len : Z) (s : list Z) : outcome (nat * Z) :=
  match s with
  | [] => Ub
  | c :: s' =>
      if c =? SP then skip_msg_spaces (S start) (wrap 64 (len - 1)) s' else Ret (start, len)
  end.

Definition parse_response (mem : list Z) (buf_end max_headers buf : nat) : parser nat :=
  buf ← parse_http_version mem buf_end buf;
  c ← lift (char_at mem buf);
  if negb (c =? SP) then lift (Err (-1)) else
  buf ← lift (skip_spaces mem buf);
  if (buf_end - buf <? 4)%nat then lift (Err (-2)) else
  buf ← parse_int_3 mem buf;
  '(buf, (m, m_len)) ← lift (get_token_to_eol mem buf_end buf);
  _ ← modify (set_msg (Some m) m_len);
  _ ← (if (m_len =? 0)%nat then mret tt
       else
         c ← lift (char_at mem m);
         if c =? SP then
           '(m', m_len') ←
             lift (skip_msg_spaces (S m) (Z.of_nat m_len - 1) (drop (S m) mem));
           modify (set_msg (Some m') (Z.to_nat m_len'))
         else lift (Err (-1)));
  parse_headers mem buf_end max_headers buf.

Definition phr_parse_response (mem : list Z) (len : nat) (last_len : nat) (o : phr_out)
  : outcome Z * phr_out :=
  let max_headers := num_headers o in
  let o := set_num_headers 0 (set_msg None 0 (set_status 0 (set_minor_version (-1) o))) in
  let body : parser nat :=
    _ ← (if (last_len =? 0)%nat then mret 0%nat else lift (is_complete mem len 0 last_len));
    parse_response mem len max_headers 0 in
  let '(r, o) := body o in (phr_return r, o).

(** [phr_parse_headers] *)
Definition phr_parse_headers (mem : list Z) (len : nat) (last_len : nat) (o : phr_out)
  : outcome Z * phr_out :=
  let max_headers := num_headers o in
  let o := set_num_headers 0 o in
  let body : parser nat :=
    _ ← (if (last_len =? 0)%nat then mret 0%nat else lift (is_complete mem len 0 last_len));
    parse_headers mem len max_headers 0 in
  let '(r, o) := body o in (phr_return r, o).
