(* ===== verification/PicoLoops.v ===== *)
(** * The loops of the HTTP parser, in closed form

    Each loop of [Pico] over memory that holds the received bytes [s] from the pointer on,
    followed by any [tail], is a search in [s] ([scan]): no loop reads the tail, and each
    ends with the error -2 when [s] runs out. The unrolled loop of [get_token_to_eol] is
    the plain one. The character tests of the code are those of RFC 7230. *)

From S2P Require Import Prelude Pico.
Local Open Scope Z_scope.

(** ** Character classes on bytes *)

(** A character of a method or a target: visible, or above ASCII. *)
Definition vchar (c : Z) : bool := (SP <? c) && negb (c =? DEL).

(** A character of a field value or a reason phrase. *)
Definition text (c : Z) : bool := (c =? HT) || ((SP <=? c) && negb (c =? DEL)).

(** [tchar] of RFC 7230: a letter, a digit or one of !#$%&'*+-.^_`|~ *)
Definition tchar (c : Z) : bool :=
  ((48 <=? c) && (c <=? 57)) || ((65 <=? c) && (c <=? 90)) || ((97 <=? c) && (c <=? 122)) ||
  existsb (Z.eqb c) [33; 35; 36; 37; 38; 39; 42; 43; 45; 46; 94; 95; 96; 124; 126].

(** The stop conditions of the three scanning loops. *)
Definition token_stop (c : Z) : bool := (c =? SP) || (negb (is_printable_ascii c) && token_ctl c).
Definition eol_stop (c : Z) : bool := negb (is_printable_ascii c) && eol_ctl c.
Definition name_stop (c : Z) : bool := (c =? COLON) || negb (is_token_char c).

(** Two tests that agree on 256 values agree on bytes. *)
Lemma byte_ext (f g : Z -> bool) :
  forallb (fun c => Bool.eqb (f c) (g c)) (seqZ 0 256) = true -> forall c, is_byte c -> f c = g c.
Proof. intros H c Hc. apply eqb_prop. by apply (range_check _ 256 H). Qed.

Lemma token_stop_vchar c : is_byte c -> token_stop c = negb (vchar c).
Proof. revert c. by apply byte_ext. Qed.

Lemma eol_stop_text c : is_byte c -> eol_stop c = negb (text c).
Proof. revert c. by apply byte_ext. Qed.

Lemma is_token_char_tchar c : is_byte c -> is_token_char c = tchar c.
Proof. revert c. by apply byte_ext. Qed.

Lemma name_stop_tchar c : is_byte c -> name_stop c = negb (tchar c).
Proof. revert c. by apply byte_ext. Qed.

(** ** Positions in the received bytes *)

(** [s] is what [d] has from the position [p] on. *)
Definition at_pos (d : list Z) (p : nat) (s : list Z) : Prop :=
  exists pre, d = pre ++ s /\ length pre = p.

(** The byte behind the received ones can be read and is no space. *)
Definition guarded (tail : list Z) : Prop :=
  match tail with c :: _ => c <> SP | [] => False end.

Lemma at_pos_start d : at_pos d 0 d.
Proof. by exists []. Qed.

Lemma at_pos_app d p x s : at_pos d p (x ++ s) -> at_pos d (p + length x) s.
Proof. intros (pre & -> & <-). exists (pre ++ x). by rewrite length_app, <- app_assoc. Qed.

Lemma at_pos_next d p c s : at_pos d p (c :: s) -> at_pos d (S p) s.
Proof. intros H. apply (at_pos_app d p [c]) in H. by rewrite Nat.add_1_r in H. Qed.

Lemma at_pos_ext d p s e : at_pos d p s -> at_pos (d ++ e) p (s ++ e).
Proof. intros (pre & -> & <-). exists pre. by rewrite app_assoc. Qed.

Lemma at_pos_length d p s : at_pos d p s -> length d = (p + length s)%nat.
Proof. intros (pre & -> & <-). apply length_app. Qed.

Lemma at_pos_drop d p s tail : at_pos d p s -> drop p (d ++ tail) = s ++ tail.
Proof. intros (pre & -> & <-). by rewrite <- app_assoc, drop_app_length. Qed.

Lemma at_pos_char d p c s tail : at_pos d p (c :: s) -> char_at (d ++ tail) p = Ret c.
Proof.
  intros (pre & -> & <-). unfold char_at. rewrite <- app_assoc. cbn [app].
  by rewrite list_lookup_middle.
Qed.

Lemma at_pos_bytes d p s : at_pos d p s -> Forall is_byte d -> Forall is_byte s.
Proof. intros (pre & -> & <-) H. by apply Forall_app in H as [_ H]. Qed.

#[export] Hint Resolve at_pos_start at_pos_app at_pos_next at_pos_ext : xynet.

(** ** Searching for a stop character *)

(** The pointer advances over [s] to the first character that stops it, which must be [ok]. *)
Definition scan (stop ok : Z -> bool) (p : nat) (s : list Z) : outcome nat :=
  match index_of stop s with
  | Some n => if ok (nth n s 0) then Ret (p + n)%nat else Err (-1)
  | None => Err (-2)
  end.

Lemma scan_cons stop ok p c s :
  scan stop ok p (c :: s) =
  if stop c then if ok c then Ret p else Err (-1) else scan stop ok (S p) s.
Proof.
  unfold scan. cbn [index_of]. destruct (stop c).
  - simpl. by rewrite Nat.add_0_r.
  - destruct (index_of stop s) as [n|]; [|done]. simpl. by rewrite Nat.add_succ_r.
Qed.

Lemma scan_ok stop ok p x c s :
  Forall (fun y => stop y = false) x -> stop c = true -> ok c = true ->
  scan stop ok p (x ++ c :: s) = Ret (p + length x)%nat.
Proof.
  intros Hx Hc Hok. unfold scan. rewrite index_of_app by done.
  by rewrite nth_middle, Hok.
Qed.

(** What follows does not matter once the search has ended. *)
Lemma scan_ext stop ok p s e : scan stop ok p s <> Err (-2) ->
  scan stop ok p (s ++ e) = scan stop ok p s.
Proof.
  revert p. induction s as [|c s IH]; intros p H; [done|].
  cbn [app]. rewrite !scan_cons in *. destruct (stop c); [done|]. by apply IH.
Qed.

(** Successful, malformed or incomplete; never undefined. *)
Definition verdict {A} (Q : A -> Prop) (r : outcome A) : Prop :=
  match r with Ret a => Q a | Err e => e = -1 \/ e = -2 | Ub => False end.

Lemma verdict_impl {A} (Q Q' : A -> Prop) r :
  verdict Q r -> (forall a, Q a -> Q' a) -> verdict Q' r.
Proof. destruct r; simpl; auto. Qed.

Definition scanned (stop ok : Z -> bool) (p : nat) (s : list Z) (q : nat) : Prop :=
  exists x c s', s = x ++ c :: s' /\ q = (p + length x)%nat /\
    Forall (fun y => stop y = false) x /\ stop c = true /\ ok c = true.

Lemma scan_verdict stop ok p s : verdict (scanned stop ok p s) (scan stop ok p s).
Proof.
  unfold scan. destruct (index_of stop s) as [n|] eqn:En; [|by right].
  destruct (ok (nth n s 0)) eqn:Hok; [|by left].
  apply index_of_Some in En as (x & c & s' & -> & <- & Hc & Hx).
  rewrite nth_middle in Hok. by exists x, c, s'.
Qed.

(** ** The loops as searches *)

Lemma eqb_end p (c : Z) s : (S p =? p + length (c :: s))%nat = match s with [] => true | _ => false end.
Proof. destruct s; cbn [length]; [apply Nat.eqb_eq | apply Nat.eqb_neq]; lia. Qed.

Lemma eqb_end0 p (s : list Z) : (p =? p + length s)%nat = match s with [] => true | _ => false end.
Proof. destruct s; cbn [length]; [apply Nat.eqb_eq | apply Nat.eqb_neq]; lia. Qed.

Lemma end_next p (c : Z) s : (p + length (c :: s) = S p + length s)%nat.
Proof. simpl. lia. Qed.

Lemma advance_loop_scan s tail p : s <> [] ->
  advance_loop (p + length s) p (s ++ tail) = scan token_stop (Z.eqb SP) p s.
Proof.
  revert p. induction s as [|c s IH]; intros p Hne; [done|]. cbn [advance_loop app].
  rewrite scan_cons, eqb_end. unfold token_stop at 1. rewrite (Z.eqb_sym SP c).
  destruct (c =? SP); [done|]. cbn [orb].
  destruct (negb (is_printable_ascii c) && token_ctl c); [done|].
  destruct s as [|c' s]; [done|]. rewrite end_next. by apply IH.
Qed.

Lemma name_loop_scan s tail p : s <> [] ->
  name_loop (p + length s) p (s ++ tail) = scan name_stop (Z.eqb COLON) p s.
Proof.
  revert p. induction s as [|c s IH]; intros p Hne; [done|]. cbn [name_loop app].
  rewrite scan_cons, eqb_end. unfold name_stop at 1. rewrite (Z.eqb_sym COLON c).
  destruct (c =? COLON); [done|]. cbn [orb].
  destruct (negb (is_token_char c)); [done|].
  destruct s as [|c' s]; [done|]. rewrite end_next. by apply IH.
Qed.

Lemma blank_loop_scan s tail p :
  blank_loop (p + length s) p (s ++ tail) = scan (fun c => negb (is_blank c)) (fun _ => true) p s.
Proof.
  revert p. induction s as [|c s IH]; intros p.
  - cbn [app]. by destruct tail; simpl; rewrite Nat.add_0_r, Nat.eqb_refl.
  - cbn [blank_loop app]. rewrite eqb_end0, scan_cons. destruct (is_blank c); [|done].
    cbn [negb]. rewrite end_next. apply IH.
Qed.

Lemma eol_slow_scan s tail p :
  eol_slow (p + length s) p (s ++ tail) = scan eol_stop (fun _ => true) p s.
Proof.
  revert p. induction s as [|c s IH]; intros p.
  - cbn [app]. by destruct tail; simpl; rewrite Nat.add_0_r, Nat.eqb_refl.
  - cbn [eol_slow app]. rewrite eqb_end0, scan_cons. unfold eol_stop at 1.
    destruct (negb (is_printable_ascii c) && eol_ctl c); [done|].
    rewrite end_next. apply IH.
Qed.

(** The unrolled loop, with [k] of its eight tests left and the bytes for them. *)
Lemma eol_fast_plain buf_end k buf s :
  (k <= 8)%nat -> (buf + k <= buf_end)%nat ->
  eol_fast buf_end k buf s = eol_slow buf_end buf s.
Proof.
  revert k buf. induction s as [|c s IH]; intros k buf Hk Hroom.
  - destruct k as [|k]; cbn [eol_fast Nat.eqb].
    + destruct (Nat.leb_spec 8 (buf_end - buf)); [|done].
      cbn [eol_slow]. destruct (Nat.eqb_spec buf buf_end); [lia|done].
    + cbn [eol_slow]. destruct (Nat.eqb_spec buf buf_end); [lia|done].
  - assert (forall k', (k' < 8 -> buf + S k' <= buf_end ->
      match is_printable_ascii c, eol_ctl c with
      | true, _ => eol_fast buf_end k' (S buf) s
      | false, true => Ret buf
      | false, false => eol_fast buf_end 0 (S buf) s
      end = eol_slow buf_end buf (c :: s))%nat) as Hstep.
    { intros k' Hk' Hr. cbn [eol_slow]. destruct (Nat.eqb_spec buf buf_end); [lia|].
      destruct (is_printable_ascii c), (eol_ctl c); cbn [negb andb]; try done; apply IH; lia. }
    destruct k as [|k]; cbn [eol_fast Nat.eqb].
    + destruct (Nat.leb_spec 8 (buf_end - buf)); [|done]. apply (Hstep 7%nat); lia.
    + apply (Hstep k); lia.
Qed.

Lemma eol_fast_scan s tail p :
  eol_fast (p + length s) 0 p (s ++ tail) = scan eol_stop (fun _ => true) p s.
Proof. rewrite eol_fast_plain by lia. apply eol_slow_scan. Qed.

(** The loop of [get_token_to_eol], unrolled eight times, is the plain loop that follows
    it, wherever the received bytes end, also inside a block of eight, and whatever the
    memory holds. *)
Theorem eol_unrolled buf_end mem buf : (buf <= buf_end)%nat ->
  eol_fast buf_end 0 buf (drop buf mem) = eol_slow buf_end buf (drop buf mem).
Proof. intros. apply eol_fast_plain; lia. Qed.

(** The witness: a field value of twenty characters, the pointer on the third. *)
Lemma eol_unrolled_witness :
  let mem := replicate 20 97 ++ [CR; LF] in
  eol_fast 22 0 2 (drop 2 mem) = eol_slow 22 2 (drop 2 mem) /\ eol_slow 22 2 (drop 2 mem) = Ret 20%nat.
Proof. split; [apply (eol_unrolled 22); lia | reflexivity]. Defined.

(** [do { ++buf; } while ( *buf == ' ');]: the spaces of [s], stopped by the guard at the
    latest. *)
Fixpoint spaces (s : list Z) : nat :=
  match s with
  | c :: s' => if c =? SP then S (spaces s') else O
  | [] => O
  end.

Lemma skip_loop_spaces s tail p : guarded tail ->
  skip_loop p (s ++ tail) = Ret (p + spaces s)%nat.
Proof.
  intros Hg. revert p. induction s as [|c s IH]; intros p; cbn [app spaces].
  - destruct tail as [|c tail]; [done|]. simpl in Hg |- *.
    destruct (Z.eqb_spec c SP); [done|]. by rewrite Nat.add_0_r.
  - cbn [skip_loop]. destruct (c =? SP); [|by rewrite Nat.add_0_r].
    rewrite IH. f_equal. lia.
Qed.

Lemma spaces_split s :
  (s = replicate (spaces s) SP) \/
  (exists c s', s = replicate (spaces s) SP ++ c :: s' /\ c <> SP).
Proof.
  induction s as [|c s IH]; [by left|]. cbn [spaces]. destruct (Z.eqb_spec c SP) as [->|Hc].
  - destruct IH as [IH|(c & s' & IH & Hc)].
    + left. cbn [replicate]. by f_equal.
    + right. exists c, s'. split; [|done]. cbn [replicate app]. by f_equal.
  - right. by exists c, s.
Qed.

Lemma spaces_replicate n c s : c <> SP -> spaces (replicate n SP ++ c :: s) = n.
Proof.
  intros Hc. induction n as [|n IH]; cbn [replicate app spaces].
  - by destruct (Z.eqb_spec c SP).
  - rewrite Z.eqb_refl. by f_equal.
Qed.

Lemma spaces_ext s e c s' : s = replicate (spaces s) SP ++ c :: s' -> c <> SP ->
  spaces (s ++ e) = spaces s.
Proof. intros E Hc. rewrite E at 1. by rewrite <- app_assoc, <- app_comm_cons, spaces_replicate. Qed.

(** The loop that removes trailing blanks. *)
Definition no_blank_end (val : list Z) : Prop :=
  match list.last val with Some c => is_blank c = false | None => True end.

Lemma trim_loop_ok mem v val trail rest :
  drop v mem = val ++ trail ++ rest -> Forall (fun c => is_blank c = true) trail ->
  no_blank_end val -> trim_loop mem v (length (val ++ trail)) = Ret (length val).
Proof.
  intros Hm Ht Hv.
  assert (forall x c y, drop v mem = x ++ c :: y -> char_at mem (v + length x) = Ret c) as Hchar.
  { intros x c y E. unfold char_at. by rewrite <- lookup_drop, E, list_lookup_middle. }
  revert rest Hm. induction trail as [|c trail IH] using rev_ind; intros rest Hm.
  - rewrite app_nil_r in *. destruct val as [|c val _] using rev_ind; [done|].
    rewrite length_app, Nat.add_1_r. cbn [trim_loop].
    rewrite (Hchar val c rest) by (by rewrite Hm, <- app_assoc). simpl.
    unfold no_blank_end in Hv. rewrite list.last_snoc in Hv. by rewrite Hv.
  - apply Forall_app in Ht as [Ht Hc]. inversion Hc as [|? ? Hc' _]; subst.
    rewrite app_assoc, length_app, Nat.add_1_r. cbn [trim_loop].
    rewrite (Hchar (val ++ trail) c rest) by (rewrite Hm; by rewrite <- !app_assoc). simpl.
    rewrite Hc'. apply (IH Ht (c :: rest)). by rewrite Hm, <- !app_assoc.
Qed.

Lemma trim_split tok : exists val trail,
  tok = val ++ trail /\ Forall (fun c => is_blank c = true) trail /\ no_blank_end val.
Proof.
  induction tok as [|c tok IH] using rev_ind; [by exists [], []|].
  destruct (is_blank c) eqn:Hc.
  - destruct IH as (val & trail & -> & Ht & Hv). exists val, (trail ++ [c]).
    split_and!; [by rewrite app_assoc | | done]. apply Forall_app. by repeat constructor.
  - exists (tok ++ [c]), []. split_and!; [by rewrite app_nil_r | done |].
    unfold no_blank_end. by rewrite list.last_snoc.
Qed.
