(* ===== verification/PicoStable.v ===== *)
(** * Parsing a growing buffer

    What every operation of [Pico] has in common when the received bytes [d] are followed
    by a readable byte that is no space: the outcome does not depend on the memory behind
    [d]; it is a result, -1 (malformed) or -2 (incomplete), never undefined; and unless it
    is -2 it stays the same when more bytes arrive. [pstable] and [stable] state this with
    a postcondition for the results, for pure and for stateful operations; they compose
    along the monad. *)

From S2P Require Import Prelude Pico PicoLoops.
Local Open Scope Z_scope.

(** ** The two predicates *)

Definition pstable {A} (f : list Z -> nat -> outcome A) (d : list Z) (Q : A -> Prop) : Prop :=
  exists r, (forall tail, guarded tail -> f (d ++ tail) (length d) = r) /\ verdict Q r /\
    (r <> Err (-2) -> forall e tail, guarded tail -> f (d ++ e ++ tail) (length (d ++ e)) = r).

Definition stable {A} (f : list Z -> nat -> parser A) (d : list Z) (o : phr_out)
    (Q : A -> phr_out -> Prop) : Prop :=
  exists r o', (forall tail, guarded tail -> f (d ++ tail) (length d) o = (r, o')) /\
    verdict (fun a => Q a o') r /\
    (r <> Err (-2) -> forall e tail, guarded tail ->
       f (d ++ e ++ tail) (length (d ++ e)) o = (r, o')).

Section pure.
Context {A B : Type}.

Lemma pstable_ret (a : A) d (Q : A -> Prop) : Q a -> pstable (fun _ _ => Ret a) d Q.
Proof. intros Ha. by exists (Ret a). Qed.

Lemma pstable_err d (Q : A -> Prop) : pstable (fun _ _ => Err (-1)) d Q.
Proof. exists (Err (-1)). split_and!; [done | by left | done]. Qed.

Lemma pstable_more d (Q : A -> Prop) : pstable (fun _ _ => Err (-2)) d Q.
Proof. exists (Err (-2)). split_and!; [done | by right | done]. Qed.

Lemma pstable_impl (f : list Z -> nat -> outcome A) d (Q Q' : A -> Prop) :
  pstable f d Q -> (forall a, Q a -> Q' a) -> pstable f d Q'.
Proof. intros (r & Hr & Hv & He) HQ. exists r. split_and!; eauto using verdict_impl. Qed.

Lemma pstable_bind (f : list Z -> nat -> outcome A) (k : A -> list Z -> nat -> outcome B)
    d (Q : A -> Prop) (Q' : B -> Prop) :
  pstable f d Q -> (forall a, Q a -> pstable (k a) d Q') ->
  pstable (fun mem buf_end => f mem buf_end ≫= fun a => k a mem buf_end) d Q'.
Proof.
  intros (r & Hr & Hv & He) Hk. destruct r as [a|r|]; [| |done].
  - destruct (Hk a Hv) as (r' & Hr' & Hv' & He'). exists r'. split_and!.
    + intros tail Ht. by rewrite Hr; [apply Hr'|].
    + done.
    + intros Hne e tail Ht. rewrite He by done. by apply He'.
  - exists (Err r). split_and!.
    + intros tail Ht. by rewrite Hr.
    + done.
    + intros Hne e tail Ht. rewrite He; [done| |done]. intros E. apply Hne. congruence.
Qed.

(** An operation whose outcome is a function [g] of the bytes left. *)
Lemma pstable_closed (f : list Z -> nat -> outcome A) (g : list Z -> outcome A) d p s Q :
  at_pos d p s ->
  (forall d s tail, at_pos d p s -> guarded tail -> f (d ++ tail) (length d) = g s) ->
  (forall e, g s <> Err (-2) -> g (s ++ e) = g s) -> verdict Q (g s) -> pstable f d Q.
Proof.
  intros Hp Hf Hg Hv. exists (g s). split_and!; [by intros; apply Hf | done |].
  intros Hne e tail Ht. rewrite app_assoc, <- (Hg e) by done. apply Hf; [|done].
  by apply at_pos_ext.
Qed.

End pure.

Section stateful.
Context {A B : Type}.

Lemma stable_lift (f : list Z -> nat -> outcome A) d o (P : A -> Prop) Q :
  pstable f d P -> (forall a, P a -> Q a o) ->
  stable (fun mem buf_end => lift (f mem buf_end)) d o Q.
Proof.
  intros (r & Hr & Hv & He) HQ. exists r, o. unfold lift. split_and!.
  - intros tail Ht. by rewrite Hr.
  - eapply verdict_impl; [exact Hv|done].
  - intros Hne e tail Ht. by rewrite He.
Qed.

Lemma stable_ret (a : A) d o Q : Q a o -> stable (fun _ _ => mret a) d o Q.
Proof. intros Ha. by exists (Ret a), o. Qed.

Lemma stable_impl (f : list Z -> nat -> parser A) d o (Q Q' : A -> phr_out -> Prop) :
  stable f d o Q -> (forall a o', Q a o' -> Q' a o') -> stable f d o Q'.
Proof.
  intros (r & o' & Hr & Hv & He) HQ. exists r, o'. split_and!; [done | | done].
  eapply verdict_impl; [exact Hv | eauto].
Qed.

Lemma stable_bind (f : list Z -> nat -> parser A) (k : A -> list Z -> nat -> parser B)
    d o (Q : A -> phr_out -> Prop) (Q' : B -> phr_out -> Prop) :
  stable f d o Q -> (forall a o', Q a o' -> stable (k a) d o' Q') ->
  stable (fun mem buf_end => f mem buf_end ≫= fun a => k a mem buf_end) d o Q'.
Proof.
  intros (r & o' & Hr & Hv & He) Hk. unfold mbind, stateful_bind.
  destruct r as [a|r|]; [| |done].
  - destruct (Hk a o' Hv) as (r' & o'' & Hr' & Hv' & He'). exists r', o''. split_and!.
    + intros tail Ht. rewrite Hr by done. by apply Hr'.
    + done.
    + intros Hne e tail Ht. rewrite He by done. by apply He'.
  - exists (Err r), o'. split_and!.
    + intros tail Ht. by rewrite Hr.
    + done.
    + intros Hne e tail Ht. rewrite He; [done| |done]. intros E. apply Hne. congruence.
Qed.

Lemma stable_lift_bind (f : list Z -> nat -> outcome A) (k : A -> list Z -> nat -> parser B)
    d o (P : A -> Prop) Q :
  pstable f d P -> (forall a, P a -> stable (k a) d o Q) ->
  stable (fun mem buf_end => lift (f mem buf_end) ≫= fun a => k a mem buf_end) d o Q.
Proof.
  intros (r & Hr & Hv & He) Hk. unfold mbind, stateful_bind, lift. destruct r as [a|r|]; [| |done].
  - destruct (Hk a Hv) as (r' & o' & Hr' & Hv' & He'). exists r', o'. split_and!.
    + intros tail Ht. rewrite Hr by done. by apply Hr'.
    + done.
    + intros Hne e tail Ht. rewrite He by done. by apply He'.
  - exists (Err r), o. split_and!.
    + intros tail Ht. by rewrite Hr.
    + done.
    + intros Hne e tail Ht. rewrite He; [done| |done]. intros E. apply Hne. congruence.
Qed.

(** A step that reads or writes the out-parameters only. *)
Lemma stable_state (m : parser A) (k : A -> list Z -> nat -> parser B) d o a o' Q :
  m o = (Ret a, o') -> stable (k a) d o' Q ->
  stable (fun mem buf_end => m ≫= fun a => k a mem buf_end) d o Q.
Proof.
  intros Hm Hk. apply (stable_bind (fun _ _ => m) k d o (fun a1 o1 => a1 = a /\ o1 = o')).
  - exists (Ret a), o'. by split_and!.
  - by intros ? ? [-> ->].
Qed.

End stateful.

(** ** The primitives *)

Lemma pstable_eof d p s (Q : unit -> Prop) :
  at_pos d p s -> (s <> [] -> Q tt) -> pstable (fun _ buf_end => check_eof buf_end p) d Q.
Proof.
  intros Hp HQ.
  apply (pstable_closed _ (fun s => match s with [] => Err (-2) | _ => Ret tt end) d p s).
  - done.
  - intros d' s' tail Hp' _. rewrite (at_pos_length _ _ _ Hp'). unfold check_eof.
    rewrite eqb_end0. by destruct s'.
  - intros e. by destruct s.
  - destruct s; [by right | by apply HQ].
Qed.

Lemma pstable_char d p c s (Q : Z -> Prop) :
  at_pos d p (c :: s) -> Q c -> pstable (fun mem _ => char_at mem p) d Q.
Proof.
  intros Hp HQ. exists (Ret c). split_and!; [|done|].
  - intros tail _. by apply (at_pos_char _ _ _ s).
  - intros _ e tail _. rewrite app_assoc.
    apply (at_pos_char _ _ _ (s ++ e)). by apply (at_pos_ext _ _ (c :: s)).
Qed.

(** A loop that is a search. *)
Lemma pstable_scan (f : list Z -> nat -> outcome nat) stop ok d p s :
  at_pos d p s -> (forall d s' tail, at_pos d p s' -> s' <> [] \/ s = [] -> guarded tail ->
    f (d ++ tail) (length d) = scan stop ok p s') ->
  pstable f d (scanned stop ok p s).
Proof.
  intros Hp Hf. exists (scan stop ok p s). split_and!.
  - intros tail Ht. apply Hf; [done| |done]. destruct s; [by right|by left].
  - apply scan_verdict.
  - intros Hne e tail Ht. rewrite <- (scan_ext _ _ _ _ e Hne), app_assoc.
    apply Hf; [by apply at_pos_ext | | done]. left. by destruct s.
Qed.

(** A test that enough bytes are left. *)
Lemma pstable_room {A} n (k : list Z -> nat -> outcome A) d p s (Q : A -> Prop) :
  at_pos d p s -> ((n <= length s)%nat -> pstable k d Q) ->
  pstable (fun mem buf_end => if (buf_end - p <? n)%nat then Err (-2) else k mem buf_end) d Q.
Proof.
  intros Hp Hk. pose proof (at_pos_length _ _ _ Hp) as Hl.
  destruct (Nat.ltb_spec (length d - p) n) as [Hlt|Hge].
  - exists (Err (-2)). split_and!; [|by right|done].
    intros tail Ht. by destruct (Nat.ltb_spec (length d - p) n); [|lia].
  - destruct Hk as (r & Hr & Hv & He); [lia|]. exists r. split_and!; [|done|].
    + intros tail Ht. destruct (Nat.ltb_spec (length d - p) n); [lia|auto].
    + intros Hne e tail Ht.
      destruct (Nat.ltb_spec (length (d ++ e) - p) n) as [H|_]; [rewrite length_app in H; lia|auto].
Qed.

Lemma stable_room {A} n (k : list Z -> nat -> parser A) d p s o Q :
  at_pos d p s -> ((n <= length s)%nat -> stable k d o Q) ->
  stable (fun mem buf_end => if (buf_end - p <? n)%nat then lift (Err (-2)) else k mem buf_end)
    d o Q.
Proof.
  intros Hp Hk. pose proof (at_pos_length _ _ _ Hp) as Hl.
  destruct (Nat.ltb_spec (length d - p) n) as [Hlt|Hge].
  - exists (Err (-2)), o. split_and!; [|by right|done].
    intros tail Ht. by destruct (Nat.ltb_spec (length d - p) n); [|lia].
  - destruct Hk as (r & o' & Hr & Hv & He); [lia|]. exists r, o'. split_and!; [|done|].
    + intros tail Ht. destruct (Nat.ltb_spec (length d - p) n); [lia|auto].
    + intros Hne e tail Ht.
      destruct (Nat.ltb_spec (length (d ++ e) - p) n) as [H|_]; [rewrite length_app in H; lia|auto].
Qed.

(** Spaces are skipped up to the next character, or to the end of what was received: then
    the rest of the parser must find it incomplete. *)
Lemma skip_spaces_at d p s tail : at_pos d p (SP :: s) -> guarded tail ->
  skip_spaces (d ++ tail) p = Ret (S p + spaces s)%nat.
Proof.
  intros Hp Ht. unfold skip_spaces. rewrite (at_pos_drop _ _ s) by (by eapply at_pos_next).
  by apply skip_loop_spaces.
Qed.

Lemma stable_skip {A} (k : nat -> list Z -> nat -> parser A) d p s o Q :
  at_pos d p (SP :: s) ->
  (forall n c s', s = replicate n SP ++ c :: s' -> c <> SP -> stable (k (S p + n)%nat) d o Q) ->
  (forall n tail, s = replicate n SP -> guarded tail ->
     k (S p + n)%nat (d ++ tail) (length d) o = (Err (-2), o)) ->
  stable (fun mem buf_end => lift (skip_spaces mem p) ≫= fun q => k q mem buf_end) d o Q.
Proof.
  intros Hp Hk Hend. unfold mbind, stateful_bind, lift.
  destruct (spaces_split s) as [E|(c & s' & E & Hc)].
  - exists (Err (-2)), o. split_and!; [|by right|done].
    intros tail Ht. rewrite (skip_spaces_at _ _ s) by done. by apply Hend.
  - destruct (Hk _ c s' E Hc) as (r & o' & Hr & Hv & He). exists r, o'. split_and!; [|done|].
    + intros tail Ht. rewrite (skip_spaces_at _ _ s) by done. by apply Hr.
    + intros Hne e tail Ht. rewrite app_assoc, (skip_spaces_at _ _ (s ++ e)) by
        (done || by apply (at_pos_ext _ _ (SP :: s))).
      rewrite (spaces_ext s e c s') by done. rewrite <- app_assoc. by apply He.
Qed.

(** Spaces in front of a certain error. *)
Lemma stable_skip_err {A} (k : list Z -> nat -> parser A) d p s o Q :
  at_pos d p (SP :: s) -> (forall mem buf_end o, k mem buf_end o = (Err (-1), o)) ->
  stable (fun mem buf_end => lift (skip_spaces mem p) ≫= fun _ => k mem buf_end) d o Q.
Proof.
  intros Hp Hk. unfold mbind, stateful_bind, lift.
  exists (Err (-1)), o. split_and!; [|by left|].
  - intros tail Ht. by rewrite (skip_spaces_at _ _ s).
  - intros _ e tail Ht. rewrite app_assoc, (skip_spaces_at _ _ (s ++ e));
      [done| by apply (at_pos_ext _ _ (SP :: s)) | done].
Qed.
