(* ===== verification/PicoGrammar.v ===== *)
(** * The grammar of HTTP messages, and what the operations of the parser recognise

    The texts the parser accepts, as data: line ends, header lines, requests, responses,
    each with its bytes, its well-formedness and what it leaves in the out-parameters. The
    lemmas say of each operation of [Pico], in terms of [PicoStable], which text it has
    consumed when it succeeds. *)

From S2P Require Import Prelude Pico PicoLoops PicoStable.
Local Open Scope Z_scope.

(** ** Texts *)

Definition all (f : Z -> bool) (l : list Z) : Prop := Forall (fun c => f c = true) l.

Inductive eol := Crlf | Lf.
Definition eol_bytes (e : eol) : list Z := match e with Crlf => [CR; LF] | Lf => [LF] end.

(** One line of the header section; [l_name] is the field name with the blanks behind its
    colon, or nothing for a continuation of the line before. *)
Record line := mk_line {
  l_name : option (list Z * list Z);
  l_value : list Z;
  l_trail : list Z;
  l_eol : eol;
}.

Definition l_prefix (l : line) : list Z :=
  match l_name l with Some (n, b) => n ++ COLON :: b | None => [] end.

Definition line_bytes (l : line) : list Z :=
  l_prefix l ++ l_value l ++ l_trail l ++ eol_bytes (l_eol l).

Definition lines_bytes (ls : list line) : list Z := concat (map line_bytes ls).

(** [first]: no header has been read yet, so the line is no continuation. *)
Definition line_ok (first : bool) (l : line) : Prop :=
  match l_name l with
  | Some (n, b) => n <> [] /\ all tchar n /\ all is_blank b /\
      match l_value l ++ l_trail l with c :: _ => is_blank c = false | [] => True end
  | None => first = false /\
      match l_value l ++ l_trail l with c :: _ => is_blank c = true | [] => False end
  end /\
  all text (l_value l) /\ all is_blank (l_trail l) /\ no_blank_end (l_value l).

Fixpoint lines_ok (first : bool) (ls : list line) : Prop :=
  match ls with [] => True | l :: ls => line_ok first l /\ lines_ok false ls end.

(** The element of the headers array for a line at the position [p]. *)
Definition line_header (p : nat) (l : line) : phr_header :=
  mk_header (match l_name l with Some _ => Some p | None => None end)
    (match l_name l with Some (n, _) => length n | None => 0 end)
    (Some (p + length (l_prefix l))%nat) (length (l_value l)).

(** The lines at [p], appended to the headers. *)
Definition add_line (p : nat) (l : line) (o : phr_out) : phr_out :=
  set_num_headers (S (num_headers o))
    (set_headers (<[num_headers o := line_header p l]> (headers o)) o).

Fixpoint add_lines (p : nat) (ls : list line) (o : phr_out) : phr_out :=
  match ls with
  | [] => o
  | l :: ls => add_lines (p + length (line_bytes l)) ls (add_line p l o)
  end.

(** ** Searches and character classes *)

Lemma stop_all stop ok x : (forall c, is_byte c -> stop c = negb (ok c)) ->
  Forall is_byte x -> Forall (fun c => stop c = false) x <-> all ok x.
Proof.
  intros H Hx. unfold all. induction Hx as [|c x Hc Hx IH]; [by split; constructor|].
  split; intros Hf; inversion Hf; subst; constructor.
  - specialize (H c Hc). destruct (ok c); [done | simpl in H; congruence].
  - by apply IH.
  - rewrite H by done. by destruct (ok c).
  - by apply IH.
Qed.

Lemma stop_not ok x : Forall (fun c => negb (ok c) = false) x <-> all ok x.
Proof.
  unfold all. induction x as [|c x IH]; [by split; constructor|].
  split; intros Hf; inversion Hf; subst; constructor; by (apply IH || apply negb_false_iff).
Qed.

Section ops.
Context (d : list Z) (Hd : Forall is_byte d).

(** ** Line ends *)

Lemma expect_char_no_check_stable ch p s :
  at_pos d p s -> s <> [] ->
  pstable (fun mem _ => expect_char_no_check mem ch p) d
    (fun q => exists s', s = ch :: s' /\ q = S p).
Proof.
  intros Hp Hs. destruct s as [|c s]; [done|]. unfold expect_char_no_check.
  eapply (pstable_bind _ _ _ (fun c' => c' = c)).
  - by eapply pstable_char.
  - intros _ ->. destruct (Z.eqb_spec c ch) as [->|].
    + apply pstable_ret. eauto.
    + apply pstable_err.
Qed.

Lemma expect_char_stable ch p s :
  at_pos d p s -> pstable (fun mem buf_end => expect_char mem buf_end ch p) d
    (fun q => exists s', s = ch :: s' /\ q = S p).
Proof.
  intros Hp. unfold expect_char. eapply (pstable_bind _ _ _ (fun _ => s <> [])).
  - by eapply pstable_eof.
  - intros _ Hs. by apply expect_char_no_check_stable.
Qed.

(** What follows a line end read at its first character [c]. *)
Lemma eol_tail_stable c p s (k : list Z -> nat -> outcome nat) Q :
  at_pos d p (c :: s) ->
  (forall e s', c :: s = eol_bytes e ++ s' -> Q (p + length (eol_bytes e))%nat) ->
  (c <> CR -> c <> LF -> pstable k d Q) ->
  pstable (fun mem buf_end => if c =? CR then expect_char mem buf_end LF (S p)
    else if c =? LF then Ret (S p) else k mem buf_end) d Q.
Proof.
  intros Hp HQ Hk. destruct (Z.eqb_spec c CR) as [->|]; [|destruct (Z.eqb_spec c LF) as [->|]].
  - eapply pstable_impl; [eapply expect_char_stable, at_pos_next, Hp|].
    intros q (s' & -> & ->). specialize (HQ Crlf s' eq_refl). simpl in HQ.
    by replace (S (S p)) with (p + 2)%nat by lia.
  - apply pstable_ret. specialize (HQ Lf s eq_refl). simpl in HQ.
    by rewrite Nat.add_1_r in HQ.
  - auto.
Qed.

Lemma expect_eol_stable p s : at_pos d p s -> s <> [] ->
  pstable (fun mem buf_end => expect_eol mem buf_end p) d
    (fun q => exists e s', s = eol_bytes e ++ s' /\ q = (p + length (eol_bytes e))%nat).
Proof.
  intros Hp Hs. destruct s as [|c s]; [done|]. unfold expect_eol.
  eapply (pstable_bind _ _ _ (fun c' => c' = c)); [by eapply pstable_char|].
  intros _ ->. eapply eol_tail_stable; [done | eauto | intros; apply pstable_err].
Qed.

Definition empty_bytes (e : option eol) : list Z := match e with Some e => eol_bytes e | None => [] end.

Lemma skip_empty_line_stable p s : at_pos d p s ->
  pstable (fun mem buf_end => skip_empty_line mem buf_end p) d
    (fun q => exists e s', s = empty_bytes e ++ s' /\ q = (p + length (empty_bytes e))%nat /\
       (e = None -> forall c t, s = c :: t -> c <> CR /\ c <> LF)).
Proof.
  intros Hp. unfold skip_empty_line.
  eapply (pstable_bind _ _ _ (fun _ => s <> [])); [by eapply pstable_eof|].
  intros _ Hs. destruct s as [|c s]; [done|].
  eapply (pstable_bind _ _ _ (fun c' => c' = c)); [by eapply pstable_char|].
  intros _ ->. eapply eol_tail_stable; [done | |].
  - intros e s' E. exists (Some e), s'. by split_and!.
  - intros H1 H2. apply pstable_ret. exists None, (c :: s). split_and!; [done|simpl; lia|].
    intros _ c' t [= <- <-]. done.
Qed.

(** ** Tokens *)

Lemma advance_token_stable p s : at_pos d p s ->
  pstable (fun mem buf_end => advance_token mem buf_end p) d
    (fun q => exists tok s', s = tok ++ SP :: s' /\ q = (p + length tok)%nat /\ all vchar tok).
Proof.
  intros Hp. unfold advance_token, findchar_fast. cbv beta iota zeta.
  eapply (pstable_bind _ _ _ (fun _ => s <> [])); [by eapply pstable_eof|]. intros _ Hs.
  eapply pstable_impl; [apply (pstable_scan _ token_stop (Z.eqb SP)); [exact Hp|]|].
  - intros d' s' tail Hp' Hs' _. rewrite (at_pos_length _ _ _ Hp'), (at_pos_drop _ _ _ _ Hp').
    apply advance_loop_scan. by destruct Hs'.
  - intros q (tok & c & s' & -> & -> & Htok & _ & Hc). apply Z.eqb_eq in Hc as <-.
    exists tok, s'. split_and!; [done..|].
    apply (stop_all token_stop); [apply token_stop_vchar | | done].
    apply (at_pos_bytes _ _ _ Hp) in Hd. by apply Forall_app in Hd as [? _].
Qed.

Lemma get_token_to_eol_stable p s : at_pos d p s ->
  pstable (fun mem buf_end => get_token_to_eol mem buf_end p) d
    (fun r => exists tok e s', s = tok ++ eol_bytes e ++ s' /\ all text tok /\
       r = ((p + length (tok ++ eol_bytes e))%nat, (p, length tok))).
Proof.
  intros Hp. unfold get_token_to_eol.
  eapply pstable_bind; [apply (pstable_scan _ eol_stop (fun _ => true)); [exact Hp|]|].
  { intros d' s' tail Hp' _ _. rewrite (at_pos_length _ _ _ Hp'), (at_pos_drop _ _ _ _ Hp').
    apply eol_fast_scan. }
  cbv beta. intros q (tok & c & s' & -> & -> & Htok & _ & _).
  assert (all text tok) as Ht.
  { apply (stop_all eol_stop); [apply eol_stop_text | | done].
    apply (at_pos_bytes _ _ _ Hp) in Hd. by apply Forall_app in Hd as [? _]. }
  apply at_pos_app in Hp.
  eapply (pstable_bind _ _ _ (fun c' => c' = c)); [by eapply pstable_char|].
  intros _ ->. destruct (Z.eqb_spec c CR) as [->|]; [|destruct (Z.eqb_spec c LF) as [->|]].
  - eapply pstable_bind; [eapply expect_char_stable, at_pos_next, Hp|].
    intros q (s'' & -> & ->). apply pstable_ret. exists tok, Crlf, s''. split_and!; [done..|].
    rewrite length_app. simpl. repeat f_equal; lia.
  - apply pstable_ret. exists tok, Lf, s'. split_and!; [done..|].
    rewrite length_app. simpl. repeat f_equal; lia.
  - apply pstable_err.
Qed.

(** ** The version *)

Definition version_bytes (v : Z) : list Z := [72; 84; 84; 80; 47; 49; 46; 48 + v].

Lemma parse_int_stable mul p s : at_pos d p s -> s <> [] ->
  pstable (fun mem _ => parse_int mem mul p) d
    (fun r => exists v s', s = (48 + v) :: s' /\ 0 <= v <= 9 /\ r = (mul * v, S p)).
Proof.
  intros Hp Hs. destruct s as [|c s]; [done|]. unfold parse_int.
  eapply (pstable_bind _ _ _ (fun c' => c' = c)); [by eapply pstable_char|].
  intros _ ->. cbv zeta. destruct ((schar c <? 48) || (57 <? schar c)) eqn:E; [apply pstable_err|].
  apply pstable_ret. apply orb_false_iff in E as [E1 E2].
  apply Z.ltb_ge in E1. apply Z.ltb_ge in E2.
  apply (at_pos_bytes _ _ _ Hp) in Hd. inversion Hd as [|? ? Hc _]; subst.
  exists (c - 48), s. unfold schar, is_byte in *. destruct (Z.ltb_spec c 128); [|lia].
  split_and!; [f_equal; lia | lia | lia | done].
Qed.

Lemma parse_http_version_stable p s o : at_pos d p s ->
  stable (fun mem buf_end => parse_http_version mem buf_end p) d o
    (fun q o' => exists v s', s = version_bytes v ++ s' /\ s' <> [] /\ 0 <= v <= 9 /\
       q = (p + 8)%nat /\ o' = set_minor_version v o).
Proof.
  intros Hp. unfold parse_http_version. eapply stable_room; [exact Hp|]. intros Hl.
  do 7 (eapply stable_lift_bind;
    [eapply expect_char_no_check_stable; [exact Hp | by destruct s; [simpl in Hl; lia|]]
    | intros ? (s' & E & ->); subst s; rename s' into s;
      apply at_pos_next in Hp; cbn [length] in Hl; cbv beta]).
  eapply stable_lift_bind;
    [eapply parse_int_stable; [exact Hp | by destruct s; [simpl in Hl; lia|]]|].
  intros ? (v & s' & -> & Hv & ->). cbv beta iota.
  eapply stable_state; [reflexivity|]. apply stable_ret. exists v, s'.
  split; [done|]. split; [intros ->; simpl in Hl; lia|]. split; [done|]. split; [lia|].
  by replace (1 * v) with v by lia.
Qed.

(** ** Header lines *)

Lemma name_loop_stable p s : at_pos d p s -> s <> [] ->
  pstable (fun mem buf_end => name_loop buf_end p (drop p mem)) d
    (fun q => exists n s', s = n ++ COLON :: s' /\ q = (p + length n)%nat /\ all tchar n).
Proof.
  intros Hp Hs. eapply pstable_impl; [apply (pstable_scan _ name_stop (Z.eqb COLON)); [exact Hp|]|].
  - intros d' s' tail Hp' Hs' _. rewrite (at_pos_length _ _ _ Hp'), (at_pos_drop _ _ _ _ Hp').
    apply name_loop_scan. by destruct Hs'.
  - intros q (n & c & s' & -> & -> & Hn & _ & Hc). apply Z.eqb_eq in Hc as <-.
    exists n, s'. split_and!; [done..|].
    apply (stop_all name_stop); [apply name_stop_tchar | | done].
    apply (at_pos_bytes _ _ _ Hp) in Hd. by apply Forall_app in Hd as [? _].
Qed.

Lemma blank_loop_stable p s : at_pos d p s ->
  pstable (fun mem buf_end => blank_loop buf_end p (drop p mem)) d
    (fun q => exists b c s', s = b ++ c :: s' /\ q = (p + length b)%nat /\ all is_blank b /\
       is_blank c = false).
Proof.
  intros Hp. eapply pstable_impl;
    [apply (pstable_scan _ (fun c => negb (is_blank c)) (fun _ => true)); [exact Hp|]|].
  - intros d' s' tail Hp' _ _. rewrite (at_pos_length _ _ _ Hp'), (at_pos_drop _ _ _ _ Hp').
    apply blank_loop_scan.
  - intros q (b & c & s' & -> & -> & Hb & Hc & _). exists b, c, s'.
    split_and!; [done..| |by apply negb_true_iff]. by apply stop_not.
Qed.

Lemma trim_loop_stable p tok s : at_pos d p (tok ++ s) ->
  pstable (fun mem _ => trim_loop mem p (length tok)) d
    (fun n => exists val trail, tok = val ++ trail /\ n = length val /\
       all is_blank trail /\ no_blank_end val).
Proof.
  intros Hp. destruct (trim_split tok) as (val & trail & -> & Ht & Hv).
  exists (Ret (length val)). split_and!.
  - intros tail _. apply (trim_loop_ok _ _ _ _ (s ++ tail)); [|done..].
    by rewrite (at_pos_drop _ _ _ _ Hp), <- !app_assoc.
  - by exists val, trail.
  - intros _ e tail _. apply (trim_loop_ok _ _ _ _ (s ++ e ++ tail)); [|done..].
    by rewrite (at_pos_drop _ _ _ _ Hp), <- !app_assoc.
Qed.

(** Writing the fields of [headers[n]] one after the other. *)
Definition put_header (n : nat) (h : phr_header) (o : phr_out) : phr_out :=
  set_headers (<[n := h]> (headers o)) o.

Lemma write_header_put n f h o : (n < length (headers o))%nat ->
  write_header n f (put_header n h o) = (Ret tt, put_header n (f h) o).
Proof.
  intros Hn. unfold write_header, put_header. cbn [headers set_headers]. rewrite length_insert.
  destruct (Nat.ltb_spec n (length (headers o))); [|lia]. f_equal.
  by rewrite !list_insert_alter, list_alter_alter_eq.
Qed.

Lemma put_header_self n o : (n < length (headers o))%nat ->
  exists h, o = put_header n h o.
Proof.
  intros Hn. destruct (lookup_lt_is_Some_2 _ _ Hn) as [h Hh]. exists h.
  unfold put_header. rewrite list_insert_id by done. by destruct o.
Qed.

Lemma parse_header_name_stable p s n h o :
  at_pos d p s -> (n < length (headers o))%nat ->
  stable (fun mem buf_end => parse_header_name mem buf_end p n) d (put_header n h o)
    (fun q o' => exists nm b c s', s = (nm ++ COLON :: b) ++ c :: s' /\
       q = (p + length (nm ++ COLON :: b))%nat /\ nm <> [] /\ all tchar nm /\
       all is_blank b /\ is_blank c = false /\
       o' = put_header n (mk_header (Some p) (length nm) (value h) (value_len h)) o).
Proof.
  intros Hp Hn. unfold parse_header_name, findchar_fast. cbv beta iota zeta.
  eapply stable_state; [by apply write_header_put|].
  eapply (stable_lift_bind _ _ _ _ (fun _ => s <> [])); [by eapply pstable_eof|]. intros _ Hs.
  eapply stable_lift_bind; [by eapply name_loop_stable|].
  cbv beta. intros ? (nm & s' & -> & -> & Hnm).
  eapply stable_state; [by apply write_header_put|].
  rewrite Nat.add_comm, Nat.add_sub. destruct nm as [|c0 nm].
  { eapply stable_lift; [apply (pstable_err d (fun _ => False))|done]. }
  cbn [length Nat.eqb]. eapply stable_lift.
  { apply at_pos_app, at_pos_next in Hp. cbn [length] in Hp.
    rewrite Nat.add_comm in Hp. by apply blank_loop_stable. }
  intros ? (b & c & s'' & -> & -> & Hb & Hc). exists (c0 :: nm), b, c, s''.
  split; [by rewrite <- !app_assoc, <- !app_comm_cons|].
  split; [rewrite length_app; simpl; lia|]. done.
Qed.

Lemma no_header_name_stable p n h o :
  (n < length (headers o))%nat ->
  stable (fun _ _ => no_header_name p n) d (put_header n h o)
    (fun q o' => q = p /\ o' = put_header n (mk_header None 0 (value h) (value_len h)) o).
Proof.
  intros Hn. unfold no_header_name. eapply stable_state; [by apply write_header_put|].
  eapply stable_state; [by apply write_header_put|]. by apply stable_ret.
Qed.

Lemma parse_header_value_stable p s n h o :
  at_pos d p s -> (n < length (headers o))%nat ->
  stable (fun mem buf_end => parse_header_value mem buf_end p n) d (put_header n h o)
    (fun q o' => exists val trail e s', s = (val ++ trail ++ eol_bytes e) ++ s' /\
       q = (p + length (val ++ trail ++ eol_bytes e))%nat /\ all text (val ++ trail) /\
       all is_blank trail /\ no_blank_end val /\
       o' = put_header n (mk_header (name h) (name_len h) (Some p) (length val)) o).
Proof.
  intros Hp Hn. unfold parse_header_value.
  eapply stable_lift_bind; [by apply get_token_to_eol_stable|].
  cbv beta. intros ? (tok & e & s' & -> & Ht & ->). cbv beta iota.
  eapply stable_lift_bind; [by eapply trim_loop_stable|].
  cbv beta. intros ? (val & trail & -> & -> & Htr & Hv).
  eapply stable_state; [by apply write_header_put|]. apply stable_ret.
  exists val, trail, e, s'. rewrite <- !app_assoc. by split_and!.
Qed.

(** The end of the header section, or one more line. *)
Lemma headers_step_stable p s o (k : Z -> list Z -> nat -> parser nat) Q :
  at_pos d p s ->
  (forall e s', s = eol_bytes e ++ s' -> Q (p + length (eol_bytes e))%nat o) ->
  (forall c s', s = c :: s' -> stable (k c) d o Q) ->
  stable (fun mem buf_end =>
    _ ← lift (check_eof buf_end p);
    c ← lift (char_at mem p);
    if c =? CR then lift (expect_char mem buf_end LF (S p))
    else if c =? LF then mret (S p) else k c mem buf_end) d o Q.
Proof.
  intros Hp HQ Hk.
  eapply (stable_lift_bind _ _ _ _ (fun _ => s <> [])); [by eapply pstable_eof|]. intros _ Hs.
  destruct s as [|c s]; [done|].
  eapply (stable_lift_bind _ _ _ _ (fun c' => c' = c)); [by eapply pstable_char|]. intros _ ->.
  destruct (Z.eqb_spec c CR) as [->|]; [|destruct (Z.eqb_spec c LF) as [->|]].
  - eapply stable_lift; [eapply expect_char_stable, at_pos_next, Hp|].
    intros q (s' & -> & ->). specialize (HQ Crlf s' eq_refl). simpl in HQ.
    by replace (S (S p)) with (p + 2)%nat by lia.
  - apply stable_ret. specialize (HQ Lf s eq_refl). simpl in HQ. by rewrite Nat.add_1_r in HQ.
  - by eapply Hk.
Qed.

End ops.
