(* ===== verification/PicoHeaders.v ===== *)
(** * The header section

    [headers_loop] recognises exactly the header sections of [PicoGrammar]: what it has
    consumed when it succeeds is a list of well-formed lines and an empty line, and the
    headers array describes them; and it succeeds on every such text. *)

From S2P Require Import Prelude Pico PicoLoops PicoStable PicoGrammar.
Local Open Scope Z_scope.

Lemma all_app f x y : all f (x ++ y) <-> all f x /\ all f y.
Proof. apply Forall_app. Qed.

(** ** What is recognised *)

Section sound.
Context (d : list Z) (Hd : Forall is_byte d).

Lemma line_stable {A} p c s n o (k : nat -> list Z -> nat -> parser A) Q :
  at_pos d p (c :: s) -> (n < length (headers o))%nat ->
  (forall l s', c :: s = line_bytes l ++ s' -> line_ok (n =? 0)%nat l ->
     stable (k (p + length (line_bytes l))%nat) d (put_header n (line_header p l) o) Q) ->
  stable (fun mem buf_end =>
    buf ← (if negb (negb (n =? 0)%nat && is_blank c)
           then parse_header_name mem buf_end p n
           else no_header_name p n);
    buf ← parse_header_value mem buf_end buf n;
    k buf mem buf_end) d o Q.
Proof.
  intros Hp Hn Hk. destruct (put_header_self n o Hn) as [h Ho]. rewrite Ho. clear Ho.
  destruct (negb (negb (n =? 0)%nat && is_blank c)) eqn:Hfirst.
  - eapply stable_bind; [by eapply parse_header_name_stable|].
    cbv beta. intros ? ? (nm & b & c' & s' & E & -> & Hne & Hnm & Hb & Hc' & ->).
    rewrite E in Hp. apply at_pos_app in Hp.
    eapply stable_bind; [by eapply parse_header_value_stable|].
    cbv beta. intros ? ? (val & trail & e & s'' & E' & -> & Ht & Htr & Hv & ->).
    rewrite <- Nat.add_assoc, <- length_app. apply all_app in Ht as [Ht _].
    apply (Hk (mk_line (Some (nm, b)) val trail e) s'').
    + rewrite E, E'. unfold line_bytes, l_prefix. cbn [l_name l_value l_trail l_eol].
      by rewrite <- ?app_assoc; cbn [app]; rewrite <- ?app_assoc.
    + split_and!; cbn [l_name l_value l_trail]; try done.
      rewrite app_assoc in E'. destruct (val ++ trail) as [|c1 t]; [done|].
      by injection E' as <- _.
  - apply negb_false_iff, andb_true_iff in Hfirst as [Hn0 Hblank]. apply negb_true_iff in Hn0.
    eapply stable_bind; [by apply no_header_name_stable|]. cbv beta. intros ? ? [-> ->].
    eapply stable_bind; [by eapply parse_header_value_stable|].
    cbv beta. intros ? ? (val & trail & e & s'' & E' & -> & Ht & Htr & Hv & ->).
    apply all_app in Ht as [Ht _].
    replace (mk_header _ _ _ _) with (line_header p (mk_line None val trail e))
      by (unfold line_header; simpl; by rewrite Nat.add_0_r).
    apply (Hk (mk_line None val trail e) s'').
    + rewrite E'. unfold line_bytes, l_prefix. cbn [l_name l_value l_trail l_eol].
      by rewrite <- ?app_assoc; cbn [app]; rewrite <- ?app_assoc.
    + split_and!; cbn [l_name l_value l_trail]; try done.
      split; [done|]. rewrite app_assoc in E'. destruct (val ++ trail) as [|c1 t].
      * simpl in E'. destruct e; injection E' as -> _; done.
      * by injection E' as <- _.
Qed.

Definition section_bytes (ls : list line) (e : eol) : list Z := lines_bytes ls ++ eol_bytes e.

Lemma headers_loop_stable room p s o :
  at_pos d p s -> (num_headers o + room <= length (headers o))%nat ->
  stable (fun mem buf_end => headers_loop mem buf_end room p) d o
    (fun q o' => exists ls e s', s = section_bytes ls e ++ s' /\
       q = (p + length (section_bytes ls e))%nat /\ lines_ok (num_headers o =? 0)%nat ls /\
       (length ls <= room)%nat /\ o' = add_lines p ls o).
Proof.
  revert p s o. induction room as [|room IH]; intros p s o Hp Hroom; cbn [headers_loop].
  - eapply headers_step_stable; [done | |].
    + intros e s' E. exists [], e, s'. split_and!; [exact E|done|done|simpl; lia|done].
    + intros c s' _. eapply stable_lift; [apply (pstable_err d (fun _ => False))|done].
  - eapply headers_step_stable; [done | |].
    + intros e s' E. exists [], e, s'. split_and!; [exact E|done|done|simpl; lia|done].
    + intros c s' ->. eapply stable_state; [reflexivity|]. eapply line_stable; [done|lia|].
      intros l s'' E Hl. rewrite E in Hp. apply at_pos_app in Hp.
      eapply stable_state; [reflexivity|]. eapply stable_impl.
      { eapply IH; [exact Hp|]. cbn [num_headers set_num_headers headers put_header set_headers].
        rewrite length_insert. lia. }
      cbv beta. intros q o' (ls & e & s3 & -> & -> & Hls & Hlen & ->).
      exists (l :: ls), e, s3. rewrite E. unfold section_bytes. cbn [lines_bytes map concat].
      fold (lines_bytes ls). rewrite <- !app_assoc, !length_app. split_and!; try done.
      * lia.
      * simpl. lia.
Qed.

End sound.

(** ** What is accepted *)

Lemma obind_ret {A B} (m : outcome A) (k : A -> outcome B) a : m = Ret a -> m ≫= k = k a.
Proof. by intros ->. Qed.

Lemma bind_ret {A B} (m : parser A) (k : A -> parser B) o a o' :
  m o = (Ret a, o') -> (m ≫= k) o = k a o'.
Proof. unfold mbind, stateful_bind. by intros ->. Qed.

Lemma lift_bind_ret {A B} (m : outcome A) (k : A -> parser B) o a :
  m = Ret a -> (lift m ≫= k) o = k a o.
Proof. intros ->. done. Qed.

Lemma blank_cases c : is_blank c = true -> c = SP \/ c = HT.
Proof.
  unfold is_blank. destruct (Z.eqb_spec c SP), (Z.eqb_spec c HT); auto. done.
Qed.

Lemma blank_text x : all is_blank x -> all text x.
Proof. induction 1 as [|c x Hc _ IH]; constructor; [by destruct (blank_cases c Hc); subst|done]. Qed.

(** A line starts with a token character or a blank, so it does not end the section. *)
Lemma line_head first l c s s' : c :: s = line_bytes l ++ s' -> line_ok first l ->
  match l_name l with Some _ => tchar c = true /\ is_blank c = false | None => is_blank c = true end
  /\ (c =? CR) = false /\ (c =? LF) = false.
Proof.
  intros E [Hname _].
  assert (match l_name l with Some _ => tchar c = true | None => is_blank c = true end) as Hc.
  { unfold line_bytes, l_prefix in E. destruct (l_name l) as [[[|c0 nm] b]|].
    - by destruct Hname.
    - injection E as -> _. destruct Hname as (_ & Hnm & _). by inversion Hnm.
    - destruct Hname as [_ Hh]. cbn [app] in E. rewrite <- !app_assoc, app_assoc in E.
      destruct (l_value l ++ l_trail l); [done|]. by injection E as -> _. }
  destruct (l_name l).
  - split; [split; [done|]|].
    + destruct (is_blank c) eqn:Hb; [|done]. by destruct (blank_cases c Hb); subst.
    + by split; apply Z.eqb_neq; intros Heq; subst c.
  - split; [done|]. by destruct (blank_cases c Hc); subst.
Qed.

Section complete.
Context (d tail : list Z) (Hd : Forall is_byte d).

Lemma check_eof_ok p c s : at_pos d p (c :: s) -> check_eof (length d) p = Ret tt.
Proof. intros Hp. unfold check_eof. by rewrite (at_pos_length _ _ _ Hp), eqb_end0. Qed.

Lemma expect_char_ok ch p s : at_pos d p (ch :: s) ->
  expect_char (d ++ tail) (length d) ch p = Ret (S p).
Proof.
  intros Hp. unfold expect_char, expect_char_no_check.
  rewrite (obind_ret _ _ tt) by (by eapply check_eof_ok).
  rewrite (obind_ret _ _ ch) by (by eapply at_pos_char). by rewrite Z.eqb_refl.
Qed.

(** A line end, tested at its first character. *)
Lemma eol_tail_ok {A} e c p s s' (f : outcome nat -> A) (k : A) :
  at_pos d p (c :: s) -> c :: s = eol_bytes e ++ s' ->
  (if c =? CR then f (expect_char (d ++ tail) (length d) LF (S p))
   else if c =? LF then f (Ret (S p)) else k) = f (Ret (p + length (eol_bytes e))%nat).
Proof.
  intros Hp E. destruct e; simpl in E; injection E as -> ->; cbn [Z.eqb Pos.eqb eol_bytes length].
  - rewrite (expect_char_ok LF _ s') by (by eapply at_pos_next). do 2 f_equal. lia.
  - do 2 f_equal. lia.
Qed.

Lemma expect_eol_ok e p s : at_pos d p (eol_bytes e ++ s) ->
  expect_eol (d ++ tail) (length d) p = Ret (p + length (eol_bytes e))%nat.
Proof.
  intros Hp. unfold expect_eol. destruct (eol_bytes e ++ s) as [|c s'] eqn:E; [by destruct e|].
  rewrite (obind_ret _ _ c) by (by eapply at_pos_char).
  by apply (eol_tail_ok e c p s' s (fun x => x)).
Qed.

Lemma all_stop_bytes stop ok p x s : (forall c, is_byte c -> stop c = negb (ok c)) ->
  at_pos d p (x ++ s) -> all ok x -> Forall (fun c => stop c = false) x.
Proof.
  intros H Hp Hx. apply (stop_all stop ok); [done| |done].
  apply (at_pos_bytes _ _ _ Hp) in Hd. by apply Forall_app in Hd as [? _].
Qed.

Lemma at_pos_head p c s : at_pos d p (c :: s) -> is_byte c.
Proof. intros Hp. apply (at_pos_bytes _ _ _ Hp) in Hd. by inversion Hd. Qed.

Lemma get_token_to_eol_ok tok e p s : at_pos d p (tok ++ eol_bytes e ++ s) -> all text tok ->
  get_token_to_eol (d ++ tail) (length d) p =
  Ret ((p + length (tok ++ eol_bytes e))%nat, (p, length tok)).
Proof.
  intros Hp Ht. unfold get_token_to_eol.
  destruct (eol_bytes e ++ s) as [|c s'] eqn:E; [by destruct e|].
  rewrite (obind_ret _ _ (p + length tok)%nat).
  2: { rewrite (at_pos_length _ _ _ Hp), (at_pos_drop _ _ _ _ Hp), eol_fast_scan.
    apply scan_ok; [|by destruct e; injection E as <- _|done].
    by apply (all_stop_bytes _ text p _ (c :: s')); [apply eol_stop_text| |]. }
  apply at_pos_app in Hp. rewrite (obind_ret _ _ c) by (by eapply at_pos_char).
  rewrite length_app. destruct e; simpl in E; injection E as <- <-; cbn [Z.eqb Pos.eqb].
  - rewrite (obind_ret _ _ (S (S (p + length tok)))) by
      (eapply expect_char_ok, at_pos_next, Hp). simpl. repeat f_equal; lia.
  - simpl. repeat f_equal; lia.
Qed.

Lemma advance_token_ok tok p s : at_pos d p (tok ++ SP :: s) -> all vchar tok ->
  advance_token (d ++ tail) (length d) p = Ret (p + length tok)%nat.
Proof.
  intros Hp Ht. unfold advance_token, findchar_fast. cbv beta iota zeta.
  assert (tok ++ SP :: s <> []) as Hne by (by destruct tok).
  rewrite (obind_ret _ _ tt) by (destruct tok; by eapply check_eof_ok).
  rewrite (at_pos_length _ _ _ Hp), (at_pos_drop _ _ _ _ Hp), advance_loop_scan by done.
  apply scan_ok; [|done..].
  by apply (all_stop_bytes _ vchar p _ (SP :: s)); [apply token_stop_vchar| |].
Qed.

Lemma parse_header_name_ok nm b c s p n h o :
  at_pos d p ((nm ++ COLON :: b) ++ c :: s) -> (n < length (headers o))%nat ->
  nm <> [] -> all tchar nm -> all is_blank b -> is_blank c = false ->
  parse_header_name (d ++ tail) (length d) p n (put_header n h o) =
  (Ret (p + length (nm ++ COLON :: b))%nat,
   put_header n (mk_header (Some p) (length nm) (value h) (value_len h)) o).
Proof.
  intros Hp Hn Hne Hnm Hb Hc. unfold parse_header_name, findchar_fast. cbv beta iota zeta.
  rewrite <- app_assoc in Hp. cbn [app] in Hp.
  rewrite (bind_ret _ _ _ tt _ (write_header_put _ _ _ _ Hn)).
  rewrite (lift_bind_ret _ _ _ tt) by (destruct nm; [done|]; by eapply check_eof_ok).
  rewrite (lift_bind_ret _ _ _ (p + length nm)%nat).
  2: { rewrite (at_pos_length _ _ _ Hp), (at_pos_drop _ _ _ _ Hp), name_loop_scan by by destruct nm.
    apply scan_ok; [|done..].
    by apply (all_stop_bytes _ tchar p _ (COLON :: b ++ c :: s)); [apply name_stop_tchar| |]. }
  rewrite (bind_ret _ _ _ tt _ (write_header_put _ _ _ _ Hn)).
  replace (p + length nm - p)%nat with (length nm) by lia.
  destruct (Nat.eqb_spec (length nm) 0) as [E|_]; [by destruct nm|].
  apply at_pos_app, at_pos_next in Hp. rewrite length_app. cbn [length].
  unfold lift. rewrite (at_pos_length _ _ _ Hp), (at_pos_drop _ _ _ _ Hp), blank_loop_scan.
  rewrite scan_ok; [|by apply stop_not|by rewrite Hc|done].
  by replace (p + (length nm + S (length b)))%nat with (S (p + length nm) + length b)%nat by lia.
Qed.

Lemma parse_header_value_ok val trail e p s n h o :
  at_pos d p ((val ++ trail ++ eol_bytes e) ++ s) -> (n < length (headers o))%nat ->
  all text val -> all is_blank trail -> no_blank_end val ->
  parse_header_value (d ++ tail) (length d) p n (put_header n h o) =
  (Ret (p + length (val ++ trail ++ eol_bytes e))%nat,
   put_header n (mk_header (name h) (name_len h) (Some p) (length val)) o).
Proof.
  intros Hp Hn Hv Htr Hend. unfold parse_header_value.
  assert (Hp' : at_pos d p ((val ++ trail) ++ eol_bytes e ++ s)) by (by rewrite <- !app_assoc in *).
  assert (all text (val ++ trail)) as Ht by (apply all_app; auto using blank_text).
  rewrite (lift_bind_ret _ _ _ _ (get_token_to_eol_ok _ _ _ _ Hp' Ht)).
  rewrite (lift_bind_ret _ _ _ (length val)).
  2: { apply (trim_loop_ok _ _ _ _ (eol_bytes e ++ s ++ tail)); [|done..].
       by rewrite (at_pos_drop _ _ _ _ Hp'), <- !app_assoc. }
  rewrite (bind_ret _ _ _ tt _ (write_header_put _ _ _ _ Hn)). by rewrite <- app_assoc.
Qed.

(** One well-formed line. *)
Lemma line_complete {A} l c s s' p n o (k : nat -> parser A) :
  at_pos d p (c :: s) -> c :: s = line_bytes l ++ s' -> (n < length (headers o))%nat ->
  line_ok (n =? 0)%nat l ->
  (buf ← (if negb (negb (n =? 0)%nat && is_blank c)
          then parse_header_name (d ++ tail) (length d) p n else no_header_name p n);
   buf ← parse_header_value (d ++ tail) (length d) buf n;
   k buf) o = k (p + length (line_bytes l))%nat (put_header n (line_header p l) o).
Proof.
  intros Hp E Hn Hl. pose proof (line_head _ _ _ _ _ E Hl) as [Hfst _].
  destruct Hl as (Hname & Hv & Htr & Hend). destruct (put_header_self n o Hn) as [h Ho].
  rewrite Ho at 1. unfold line_bytes in *. rewrite length_app, Nat.add_assoc.
  destruct l as [[[nm b]|] val trail e]; unfold l_prefix in *; cbn [l_name l_value l_trail l_eol] in *.
  - destruct Hname as (Hne & Hnm & Hb & Hhead).
    destruct Hfst as [_ ->].
    rewrite andb_false_r. cbn [negb].
    rewrite E, <- app_assoc in Hp.
    destruct ((val ++ trail ++ eol_bytes e) ++ s') as [|c1 s1] eqn:E1.
    { by destruct val, trail, e. }
    erewrite (bind_ret _ _ _ (p + length (nm ++ COLON :: b))%nat).
    2: { eapply parse_header_name_ok; [exact Hp|done..|].
         destruct val, trail, e; simpl in *; by injection E1 as <- _. }
    apply at_pos_app in Hp. rewrite <- E1 in Hp.
    by erewrite bind_ret by (by eapply parse_header_value_ok).
  - destruct Hname as (Hn0 & Hhead).
    rewrite Hfst. rewrite Hn0. cbn [negb andb].
    erewrite bind_ret.
    2: { unfold no_header_name. rewrite (bind_ret _ _ _ tt _ (write_header_put _ _ _ _ Hn)).
         by rewrite (bind_ret _ _ _ tt _ (write_header_put _ _ _ _ Hn)). }
    rewrite E in Hp. cbn [app length] in *. rewrite Nat.add_0_r.
    erewrite bind_ret by (by eapply parse_header_value_ok).
    unfold line_header. cbn [l_name l_prefix length]. by rewrite Nat.add_0_r.
Qed.

Lemma headers_loop_ok ls e room p s o :
  at_pos d p (section_bytes ls e ++ s) -> lines_ok (num_headers o =? 0)%nat ls ->
  (length ls <= room)%nat -> (num_headers o + room <= length (headers o))%nat ->
  headers_loop (d ++ tail) (length d) room p o =
  (Ret (p + length (section_bytes ls e))%nat, add_lines p ls o).
Proof.
  revert room p o. induction ls as [|l ls IH]; intros room p o Hp Hls Hlen Hroom.
  - destruct (eol_bytes e ++ s) as [|c s'] eqn:E; [by destruct e|].
    unfold section_bytes in *. cbn [lines_bytes map concat app] in *. rewrite E in Hp.
    destruct room as [|room]; cbn [headers_loop];
      rewrite (lift_bind_ret _ _ _ tt) by (by eapply check_eof_ok);
      rewrite (lift_bind_ret _ _ _ c) by (by eapply at_pos_char);
      destruct e; simpl in E; injection E as <- <-; cbn [Z.eqb Pos.eqb];
      unfold lift, mret, stateful_ret; rewrite ?(expect_char_ok LF _ s) by (by eapply at_pos_next);
      simpl; do 2 f_equal; lia.
  - destruct room as [|room]; [simpl in Hlen; lia|]. destruct Hls as [Hl Hls].
    unfold section_bytes in *. cbn [lines_bytes map concat] in *. fold (lines_bytes ls) in *.
    rewrite <- !app_assoc in Hp.
    destruct (line_bytes l ++ lines_bytes ls ++ eol_bytes e ++ s) as [|c s'] eqn:E.
    { destruct l as [[[[] ?]|] [] [] []]; simpl in E; done. }
    pose proof (line_head _ _ _ _ _ (eq_sym E) Hl) as (_ & Hcr & Hlf).
    cbn [headers_loop].
    rewrite (lift_bind_ret _ _ _ tt) by (by eapply check_eof_ok).
    rewrite (lift_bind_ret _ _ _ c) by (by eapply at_pos_char).
    rewrite Hcr, Hlf, (bind_ret _ _ _ (num_headers o) o) by done.
    erewrite line_complete by (done || by symmetry || lia). erewrite (bind_ret (modify _)) by reflexivity.
    rewrite <- E in Hp. apply at_pos_app in Hp. rewrite app_assoc in Hp.
    rewrite (IH room _ _ Hp); [|done|simpl in Hlen; lia|].
    + rewrite !length_app, !Nat.add_assoc. done.
    + cbn [num_headers headers put_header set_num_headers set_headers]. rewrite length_insert. lia.
Qed.

End complete.
