(* ===== verification/PicoRequest.v ===== *)
(** * Request parsing

    The requests [phr_parse_request] accepts are exactly the texts of the grammar below,
    and its out-parameters describe the text ([phr_parse_request_iff]). The verdict on a
    buffer is never undefined, and final unless it is -2 ([phr_parse_request_verdict]),
    provided the byte behind the received ones can be read and is no space; without it
    the parser reads past the end ([phr_parse_request_overread]). *)

From S2P Require Import Prelude Pico PicoLoops PicoStable PicoGrammar PicoHeaders.
Local Open Scope Z_scope.

(** ** Requests *)

Record request := mk_request {
  rq_empty : option eol;      (* the empty line some clients send first *)
  rq_method : list Z;
  rq_sp1 : nat;               (* spaces beyond the first *)
  rq_path : list Z;
  rq_sp2 : nat;
  rq_minor : Z;
  rq_eol : eol;
  rq_lines : list line;
  rq_end : eol;
}.

Definition blanks (n : nat) : list Z := replicate (S n) SP.

Definition request_bytes (r : request) : list Z :=
  empty_bytes (rq_empty r) ++ rq_method r ++ blanks (rq_sp1 r) ++ rq_path r ++
  blanks (rq_sp2 r) ++ version_bytes (rq_minor r) ++ eol_bytes (rq_eol r) ++
  section_bytes (rq_lines r) (rq_end r).

Definition request_ok (r : request) : Prop :=
  rq_method r <> [] /\ all vchar (rq_method r) /\ rq_path r <> [] /\ all vchar (rq_path r) /\
  0 <= rq_minor r <= 9 /\ lines_ok true (rq_lines r).

(** The out-parameters, from those the parser was started with. *)
Definition request_out (r : request) (o : phr_out) : phr_out :=
  let p1 := length (empty_bytes (rq_empty r)) in
  let p2 := (p1 + length (rq_method r) + length (blanks (rq_sp1 r)))%nat in
  let p3 := (p2 + length (rq_path r) + length (blanks (rq_sp2 r)))%nat in
  add_lines (p3 + 8 + length (eol_bytes (rq_eol r))) (rq_lines r)
    (set_minor_version (rq_minor r)
      (set_path (Some p2) (length (rq_path r))
        (set_method (Some p1) (length (rq_method r)) o))).

Lemma at_pos_blanks d p n c s : at_pos d p (SP :: replicate n SP ++ c :: s) ->
  at_pos d (S p + n) (c :: s).
Proof.
  intros Hp. apply at_pos_next in Hp. apply at_pos_app in Hp. by rewrite length_replicate in Hp.
Qed.

Section request.
Context (d : list Z) (Hd : Forall is_byte d).

Definition parsed (max : nat) (o : phr_out) (q : nat) (o' : phr_out) : Prop :=
  exists r s', d = request_bytes r ++ s' /\ q = length (request_bytes r) /\ request_ok r /\
    (length (rq_lines r) <= max)%nat /\ o' = request_out r o.

(** From the version on, for a request line read so far. *)
Lemma request_rest_stable max e m n1 pa n2 p s o :
  at_pos d p s -> d = empty_bytes e ++ m ++ blanks n1 ++ pa ++ blanks n2 ++ s ->
  p = length (empty_bytes e ++ m ++ blanks n1 ++ pa ++ blanks n2) ->
  m <> [] -> all vchar m -> pa <> [] -> all vchar pa ->
  num_headers o = 0%nat -> (max <= length (headers o))%nat ->
  let p1 := length (empty_bytes e) in
  let p2 := (p1 + length m + length (blanks n1))%nat in
  stable (fun mem buf_end =>
    buf ← parse_http_version mem buf_end p;
    buf ← lift (expect_eol mem buf_end buf);
    parse_headers mem buf_end max buf) d
    (set_path (Some p2) (length pa) (set_method (Some p1) (length m) o)) (parsed max o).
Proof.
  intros Hp Ed Ep Hm1 Hm2 Hp1 Hp2 Hn Hmax p1 p2.
  eapply stable_bind; [by apply parse_http_version_stable|].
  cbv beta. intros ? ? (v & s1 & -> & Hs1 & Hv & -> & ->).
  apply at_pos_app in Hp. cbn [version_bytes length] in Hp.
  eapply stable_lift_bind; [by apply expect_eol_stable|].
  cbv beta. intros ? (el & s2 & -> & ->). apply at_pos_app in Hp.
  unfold parse_headers. eapply stable_state; [reflexivity|]. cbn [num_headers].
  cbn [num_headers set_minor_version set_path set_method]. rewrite Hn, Nat.sub_0_r.
  eapply stable_impl; [eapply headers_loop_stable; [done|exact Hp|]|].
  { cbn [num_headers headers set_minor_version set_path set_method]. lia. }
  cbv beta. intros q o' (ls & en & s3 & -> & -> & Hls & Hlen & ->).
  cbn [num_headers set_minor_version set_path set_method] in Hls. rewrite Hn in Hls.
  exists (mk_request e m n1 pa n2 v el ls en), s3. unfold request_bytes, request_out.
  cbn [rq_empty rq_method rq_sp1 rq_path rq_sp2 rq_minor rq_eol rq_lines rq_end].
  split; [by rewrite Ed, <- !app_assoc|].
  split; [rewrite Ep, !length_app; unfold version_bytes; cbn [length]; lia|].
  split; [exact (conj Hm1 (conj Hm2 (conj Hp1 (conj Hp2 (conj Hv Hls)))))|]. split; [done|].
  f_equal. rewrite Ep, !length_app. unfold p2, p1. lia.
Qed.

Lemma parse_request_stable max o :
  num_headers o = 0%nat -> (max <= length (headers o))%nat ->
  stable (fun mem buf_end => parse_request mem buf_end max 0) d o (parsed max o).
Proof.
  intros Hn Hmax. unfold parse_request.
  eapply stable_lift_bind; [by apply skip_empty_line_stable, at_pos_start|].
  cbv beta. intros ? (e & s1 & Ed & -> & _). pose proof (at_pos_start d) as Hp.
  rewrite Ed in Hp at 2. apply at_pos_app in Hp. cbn [Nat.add] in *.
  eapply stable_lift_bind; [by apply advance_token_stable|].
  cbv beta zeta. intros ? (m & s2 & -> & -> & Hm).
  eapply stable_state; [reflexivity|]. apply at_pos_app in Hp. rewrite Nat.add_comm, Nat.add_sub.
  rewrite (Nat.add_comm (length m)).
  eapply stable_skip; [exact Hp| |].
  2: { intros n tail -> Ht. unfold advance_token, findchar_fast. cbv beta iota zeta.
       unfold check_eof. apply at_pos_length in Hp. cbn [length] in Hp.
       rewrite length_replicate in Hp. destruct (Nat.eqb_spec (S (length (empty_bytes e) + length m) + n) (length d)); [done|lia]. }
  intros n1 c s3 -> Hc. apply at_pos_blanks in Hp.
  eapply stable_lift_bind; [by apply advance_token_stable|].
  cbv beta zeta. intros ? (pa & s4 & E4 & -> & Hpa).
  eapply stable_state; [reflexivity|]. rewrite E4 in Hp. apply at_pos_app in Hp.
  rewrite (Nat.add_comm (S _ + n1)), Nat.add_sub, (Nat.add_comm (length pa)).
  assert (pa <> []) as Hpa0 by (intros ->; by injection E4).
  destruct (Nat.eqb_spec (length pa) 0) as [H0|_]; [by destruct pa|].
  destruct (Nat.eqb_spec (length m) 0) as [H0|H0]; cbn [orb].
  { eapply stable_skip_err; [exact Hp|done]. }
  eapply stable_skip; [exact Hp| |].
  2: { intros n tail -> Ht. unfold parse_http_version. apply at_pos_length in Hp. cbn [length] in Hp.
       rewrite length_replicate in Hp.
       destruct (Nat.ltb_spec (length d - (S (S (length (empty_bytes e) + length m) + n1 + length pa) + n)) 9); [done|lia]. }
  intros n2 c' s5 -> Hc'. apply at_pos_blanks in Hp.
  assert (S (length (empty_bytes e) + length m) + n1 =
    length (empty_bytes e) + length m + length (blanks n1))%nat as E2.
  { unfold blanks. rewrite length_replicate. lia. }
  rewrite E2 in *. eapply request_rest_stable; try done.
  - rewrite Ed, E4. unfold blanks. cbn [replicate app]. by rewrite <- ?app_assoc.
  - rewrite !length_app. unfold blanks. rewrite !length_replicate. lia.
  - by intros ->.
Qed.

End request.

(** ** Acceptance *)

Section accept.
Context (d tail : list Z) (Hd : Forall is_byte d).

Lemma vchar_not_eol c : vchar c = true -> (c =? CR) = false /\ (c =? LF) = false /\ (c =? SP) = false.
Proof. intros H. split_and!; apply Z.eqb_neq; intros E; rewrite E in H; discriminate H. Qed.

Lemma skip_empty_line_ok e c p s : at_pos d p (empty_bytes e ++ c :: s) -> vchar c = true ->
  skip_empty_line (d ++ tail) (length d) p = Ret (p + length (empty_bytes e))%nat.
Proof.
  intros Hp Hc. unfold skip_empty_line.
  destruct (empty_bytes e ++ c :: s) as [|c' s'] eqn:E; [by destruct e as [[]|]|].
  rewrite (obind_ret _ _ tt) by (by eapply check_eof_ok).
  rewrite (obind_ret _ _ c') by (by eapply at_pos_char).
  destruct e as [e|].
  - apply (eol_tail_ok d tail e c' p s' (c :: s) (fun x => x)); [done | by symmetry].
  - injection E as <- <-. destruct (vchar_not_eol c Hc) as (-> & -> & _). simpl.
    by rewrite Nat.add_0_r.
Qed.

Lemma skip_spaces_ok n c p s : at_pos d p (blanks n ++ c :: s) -> c <> SP ->
  skip_spaces (d ++ tail) p = Ret (p + length (blanks n))%nat.
Proof.
  intros Hp Hc. unfold blanks in *. cbn [replicate app] in Hp.
  unfold skip_spaces. pose proof (at_pos_next _ _ _ _ Hp) as Hp'.
  rewrite (at_pos_drop _ _ _ _ Hp'), <- app_assoc, <- app_comm_cons.
  assert (forall q, skip_loop q (replicate n SP ++ c :: s ++ tail) = Ret (q + n)%nat) as Hskip.
  { induction n as [|k IH] in |- *; intros q; cbn [replicate app skip_loop].
    - destruct (Z.eqb_spec c SP); [done|]. by rewrite Nat.add_0_r.
    - rewrite Z.eqb_refl, IH. f_equal. lia. }
  rewrite Hskip, length_replicate. f_equal. lia.
Qed.

Lemma parse_http_version_ok v p c s o : at_pos d p (version_bytes v ++ c :: s) -> 0 <= v <= 9 ->
  parse_http_version (d ++ tail) (length d) p o = (Ret (p + 8)%nat, set_minor_version v o).
Proof.
  intros Hp Hv. unfold parse_http_version. pose proof (at_pos_length _ _ _ Hp) as Hl.
  rewrite length_app in Hl. cbn [version_bytes length] in Hl.
  destruct (Nat.ltb_spec (length d - p) 9); [lia|].
  unfold version_bytes in Hp. cbn [app] in Hp. unfold expect_char_no_check.
  do 7 (erewrite lift_bind_ret by (rewrite (obind_ret _ _ _ (at_pos_char _ _ _ _ _ Hp)); reflexivity);
    apply at_pos_next in Hp).
  rewrite (lift_bind_ret _ _ _ (v, (p + 8)%nat)); [done|]. unfold parse_int.
  rewrite (obind_ret _ _ _ (at_pos_char _ _ _ _ _ Hp)). unfold schar.
  destruct (Z.ltb_spec (48 + v) 128), (Z.ltb_spec (48 + v) 48), (Z.ltb_spec 57 (48 + v)); try lia.
  simpl orb. cbv iota. do 2 f_equal; lia.
Qed.

Lemma parse_request_ok r s max o : d = request_bytes r ++ s -> request_ok r ->
  num_headers o = 0%nat -> (length (rq_lines r) <= max <= length (headers o))%nat ->
  parse_request (d ++ tail) (length d) max 0 o = (Ret (length (request_bytes r)), request_out r o).
Proof.
  intros Ed (Hm & Hmv & Hp & Hpv & Hv & Hls) Hn Hmax.
  destruct r as [e m n1 pa n2 v el ls en]. unfold request_bytes, request_out in *.
  cbn [rq_empty rq_method rq_sp1 rq_path rq_sp2 rq_minor rq_eol rq_lines rq_end] in *.
  pose proof (at_pos_start d) as Hd0. rewrite Ed in Hd0 at 2. rewrite <- !app_assoc in Hd0.
  unfold parse_request. rewrite !length_app, !Nat.add_assoc. cbn [version_bytes length].
  destruct m as [|c m]; [done|]. destruct pa as [|c' pa]; [done|].
  assert (vchar c = true) as Hc by (by inversion Hmv).
  assert (vchar c' = true) as Hc' by (by inversion Hpv).
  erewrite lift_bind_ret by (by eapply skip_empty_line_ok). apply at_pos_app in Hd0.
  cbn [Nat.add] in *.
  erewrite lift_bind_ret by (eapply advance_token_ok; [done | exact Hd0 | done]).
  apply at_pos_app in Hd0. erewrite (bind_ret (modify _)) by reflexivity.
  erewrite lift_bind_ret.
  2: { eapply skip_spaces_ok; [exact Hd0|]. intros ->. done. }
  apply at_pos_app in Hd0. cbv zeta.
  erewrite lift_bind_ret by (eapply advance_token_ok; [done | exact Hd0 | done]).
  apply at_pos_app in Hd0. erewrite (bind_ret (modify _)) by reflexivity.
  erewrite lift_bind_ret.
  2: { eapply skip_spaces_ok; [exact Hd0|]. done. }
  apply at_pos_app in Hd0.
  replace (_ + length (c :: m) - _)%nat with (length (c :: m)) by lia.
  replace (_ + length (c' :: pa) - _)%nat with (length (c' :: pa)) by lia.
  cbn [Nat.eqb length orb].
  destruct (eol_bytes el ++ section_bytes ls en ++ s) as [|c2 s2] eqn:E2; [by destruct el|].
  erewrite bind_ret by (eapply parse_http_version_ok; [exact Hd0 | done]).
  apply at_pos_app in Hd0. rewrite <- E2 in Hd0. cbn [version_bytes length] in Hd0.
  erewrite lift_bind_ret by (by eapply expect_eol_ok). apply at_pos_app in Hd0.
  unfold parse_headers. erewrite (bind_ret (fun o => (Ret (num_headers o), o))) by reflexivity.
  cbn [num_headers set_minor_version set_path set_method]. rewrite Hn, Nat.sub_0_r.
  erewrite headers_loop_ok; [| done | exact Hd0 | | lia |].
  - done.
  - cbn [num_headers set_minor_version set_path set_method]. by rewrite Hn.
  - cbn [num_headers headers set_minor_version set_path set_method]. lia.
Qed.

End accept.

(** ** The entry point *)

(** The objects behind the out-parameters when [parse_request] starts. *)
Definition request_start (o : phr_out) : phr_out :=
  set_num_headers 0 (set_minor_version (-1) (set_path None 0 (set_method None 0 o))).

Lemma phr_parse_request_0 mem len o :
  phr_parse_request mem len 0 o =
  let '(r, o') := parse_request mem len (num_headers o) 0 (request_start o) in (phr_return r, o').
Proof. reflexivity. Qed.

Lemma parse_request_iff d tail o v o' :
  Forall is_byte d -> guarded tail -> (num_headers o <= length (headers o))%nat ->
  Z.of_nat (length d) < 2 ^ 31 ->
  (phr_parse_request (d ++ tail) (length d) 0 o = (Ret v, o') /\ 0 <= v) <->
  exists r s, d = request_bytes r ++ s /\ request_ok r /\
    (length (rq_lines r) <= num_headers o)%nat /\
    v = Z.of_nat (length (request_bytes r)) /\ o' = request_out r (request_start o).
Proof.
  intros Hd Ht Ho Hlen. rewrite phr_parse_request_0. split.
  - intros [E Hv].
    destruct (parse_request_stable d Hd (num_headers o) (request_start o)) as (r & o1 & Hr & Hq & _);
      [done | exact Ho |].
    rewrite Hr in E by done. injection E as E <-. destruct r as [q|e|]; [| |done].
    + destruct Hq as (rq & s & -> & -> & Hok & Hl & ->). exists rq, s. split_and!; try done.
      injection E as <-. apply to_int_small. rewrite length_app in Hlen. lia.
    + injection E as ->. simpl in Hq. lia.
  - intros (r & s & Ed & Hok & Hl & -> & ->).
    rewrite (parse_request_ok d tail Hd r s) by first [done | split; [done | exact Ho]].
    split; [|lia]. simpl. do 2 f_equal. apply to_int_small.
    rewrite Ed, length_app in Hlen. lia.
Qed.

(** C1: [phr_parse_request] on received bytes [d] (with a readable byte behind them that is
    no space) reports success exactly when [d] starts with a request of the grammar that
    has room in the headers array; it then returns the length of that request, and the
    out-parameters are the positions and lengths of its parts. *)
Theorem phr_parse_request_iff d tail o v o' :
  Forall is_byte d -> guarded tail -> (num_headers o <= length (headers o))%nat ->
  Z.of_nat (length d) < 2 ^ 31 ->
  (phr_parse_request (d ++ tail) (length d) 0 o = (Ret v, o') /\ 0 <= v) <->
  exists r s, d = request_bytes r ++ s /\ request_ok r /\
    (length (rq_lines r) <= num_headers o)%nat /\
    v = Z.of_nat (length (request_bytes r)) /\ o' = request_out r (request_start o).
Proof. apply parse_request_iff. Qed.

(** The witness: a request with two header lines, one of them continued, followed by a
    body, in a buffer with two free bytes behind it. *)
Definition sample_request : request :=
  mk_request None [71; 69; 84] 0 [47] 1 1 Crlf
    [mk_line (Some ([65], [SP])) [98; SP; 99] [HT] Crlf; mk_line None [SP; 100] [] Lf] Crlf.
Definition sample_out : phr_out :=
  mk_out None 0 None 0 0 0 None 0 (replicate 4 header_null) 4.

Lemma phr_parse_request_iff_witness :
  let d := request_bytes sample_request ++ [97; 98] in
  phr_parse_request (d ++ [0; 0]) (length d) 0 sample_out =
    (Ret (Z.of_nat (length (request_bytes sample_request))),
     request_out sample_request (request_start sample_out)) /\
  0 <= Z.of_nat (length (request_bytes sample_request)).
Proof.
  cbv zeta. apply phr_parse_request_iff.
  - repeat (constructor; [split; [discriminate|reflexivity]|]). constructor.
  - discriminate.
  - simpl. lia.
  - reflexivity.
  - exists sample_request, [97; 98]. split; [reflexivity|].
    split; [|split; [simpl; lia | split; reflexivity]].
    repeat split; try discriminate; try (repeat constructor).
Defined.

(** C2: the verdict on received bytes, when they are parsed for the first time ([last_len] is
    0) and the byte behind them in memory is no space ([guarded]): whatever they are,
    [phr_parse_request] reads nothing outside them and that byte, returns -1, -2 or a length
    within them, and a verdict other than -2 does not change when more bytes arrive, again
    with no space behind them: a caller may parse as early as it likes. That the byte behind
    is no space is needed: [phr_parse_request_overread]. *)
Theorem phr_parse_request_verdict d o :
  Forall is_byte d -> (num_headers o <= length (headers o))%nat -> Z.of_nat (length d) < 2 ^ 31 ->
  exists v o', (v = -1 \/ v = -2 \/ 0 < v <= Z.of_nat (length d)) /\
    (forall tail, guarded tail -> phr_parse_request (d ++ tail) (length d) 0 o = (Ret v, o')) /\
    (v <> -2 -> forall e tail, guarded tail ->
       phr_parse_request (d ++ e ++ tail) (length (d ++ e)) 0 o = (Ret v, o')).
Proof.
  intros Hd Ho Hlen.
  destruct (parse_request_stable d Hd (num_headers o) (request_start o)) as (r & o' & Hr & Hq & He);
    [done | exact Ho |].
  destruct r as [q|e|]; [| |done].
  - destruct Hq as (rq & s & Ed & -> & (Hm & _) & _ & _).
    exists (Z.of_nat (length (request_bytes rq))), o'.
    assert (0 < length (request_bytes rq) <= length d)%nat as Hq.
    { rewrite Ed. unfold request_bytes. rewrite !length_app.
      destruct (rq_method rq); [done|simpl; lia]. }
    split; [lia|]. split.
    + intros tail Ht. rewrite phr_parse_request_0, Hr by done. cbn [phr_return].
      rewrite to_int_small; [done|lia].
    + intros _ e tail Ht. rewrite phr_parse_request_0, He by done. cbn [phr_return].
      rewrite to_int_small; [done|lia].
  - exists e, o'. split; [simpl in Hq; lia|]. split.
    + intros tail Ht. by rewrite phr_parse_request_0, Hr.
    + intros Hne e' tail Ht. rewrite phr_parse_request_0, He; [done| |done]. by intros [= ->].
Qed.

(** The witness: a request line cut in the middle of the version, and then completed. *)
Lemma phr_parse_request_verdict_witness :
  (exists v o', (v = -1 \/ v = -2 \/ 0 < v <= 9) /\
    (forall tail, guarded tail ->
       phr_parse_request ([71; 69; 84; 32; 47; 32; 72; 84; 84] ++ tail) 9 0 sample_out = (Ret v, o')) /\
    (v <> -2 -> forall e tail, guarded tail ->
       phr_parse_request ([71; 69; 84; 32; 47; 32; 72; 84; 84] ++ e ++ tail)
         (length ([71; 69; 84; 32; 47; 32; 72; 84; 84] ++ e)) 0 sample_out = (Ret v, o'))) /\
  fst (phr_parse_request [71; 69; 84; 32; 47; 32; 72; 84; 84; 0] 9 0 sample_out) = Ret (-2).
Proof.
  split; [|reflexivity].
  apply (phr_parse_request_verdict [71; 69; 84; 32; 47; 32; 72; 84; 84] sample_out).
  - repeat (constructor; [split; [discriminate|reflexivity]|]). constructor.
  - simpl. lia.
  - reflexivity.
Defined.

(** Without a readable byte behind the received ones the loop over the spaces runs off
    the buffer: any method followed by spaces up to the end of the array is an access
    outside it, where the other loops of the parser report -2. *)
Theorem phr_parse_request_overread m n o :
  m <> [] -> all vchar m -> Forall is_byte m ->
  let d := m ++ replicate (S n) SP in
  fst (phr_parse_request d (length d) 0 o) = Ub.
Proof.
  intros Hm Hv Hb d. rewrite phr_parse_request_0.
  assert (Hd : Forall is_byte d).
  { apply Forall_app. split; [done|]. by apply Forall_replicate. }
  pose proof (at_pos_start d) as Hp. unfold d in Hp at 2.
  destruct m as [|c m]; [done|]. assert (vchar c = true) as Hc by (by inversion Hv).
  replace (parse_request d) with (parse_request (d ++ [])) by by rewrite app_nil_r.
  unfold parse_request.
  rewrite (lift_bind_ret _ _ _ 0%nat).
  2: { exact (skip_empty_line_ok d [] None c 0 _ Hp Hc). }
  erewrite lift_bind_ret by (eapply (advance_token_ok d []); [done | exact Hp | done]).
  erewrite (bind_ret (modify _)) by reflexivity. cbv zeta.
  assert (skip_spaces (d ++ []) (0 + length (c :: m)) = Ub) as Hskip.
  { unfold skip_spaces. apply at_pos_app, at_pos_next in Hp.
    rewrite (at_pos_drop _ _ _ _ Hp), app_nil_r. clear.
    generalize (S (0 + length (c :: m))). induction n as [|n IH]; intros p; [done|].
    cbn [replicate skip_loop]. rewrite Z.eqb_refl. apply IH. }
  rewrite Hskip. done.
Qed.

(** The witness: the four bytes of a method and a space. *)
Lemma phr_parse_request_overread_witness :
  fst (phr_parse_request [71; 69; 84; SP] 4 0 sample_out) = Ub.
Proof.
  apply (phr_parse_request_overread [71; 69; 84] 0 sample_out).
  - discriminate.
  - repeat constructor.
  - repeat (constructor; [split; [discriminate|reflexivity]|]). constructor.
Defined.
