(* ===== verification/PicoResume.v ===== *)
(** * Resuming with [last_len]

    When a buffer is parsed again after more bytes have arrived, [is_complete] looks for
    the empty line in the new bytes before anything is parsed. It starts three bytes early,
    and that is enough: a request completed by the new bytes is never missed. *)

From S2P Require Import Prelude Pico PicoLoops PicoStable PicoGrammar PicoHeaders PicoRequest.
Local Open Scope Z_scope.

(** Every CR is followed by LF. *)
Inductive clean : list Z -> Prop :=
| clean_nil : clean []
| clean_char c l : c <> CR -> c <> LF -> clean l -> clean (c :: l)
| clean_eol e l : clean l -> clean (eol_bytes e ++ l).

Lemma clean_app x y : clean x -> clean y -> clean (x ++ y).
Proof.
  intros Hx Hy. induction Hx; [done| |rewrite <- app_assoc]; by constructor.
Qed.

Lemma clean_drop n x : clean x -> clean (drop n x).
Proof.
  intros Hx. revert n. induction Hx as [|c l H1 H2 Hl IH|e l Hl IH]; intros n.
  - rewrite drop_nil. constructor.
  - destruct n; [by constructor|apply IH].
  - destruct n as [|n]; [by constructor|]. destruct e; [|apply IH].
    destruct n as [|n]; [|apply IH]. by apply (clean_eol Lf).
Qed.

Lemma clean_all (ok : Z -> bool) x : ok CR = false -> ok LF = false -> all ok x -> clean x.
Proof.
  intros H1 H2. induction 1 as [|c x Hc _ IH]; [constructor|].
  apply clean_char; [| |done]; intros ->; congruence.
Qed.

Lemma clean_eol_bytes e : clean (eol_bytes e).
Proof. rewrite <- (app_nil_r (eol_bytes e)). apply clean_eol, clean_nil. Qed.

Lemma clean_line first l : line_ok first l ->
  exists x, clean x /\ line_bytes l = x ++ eol_bytes (l_eol l).
Proof.
  intros (Hname & Hv & Ht & _). unfold line_bytes.
  exists (l_prefix l ++ l_value l ++ l_trail l). split; [|by rewrite <- !app_assoc].
  repeat apply clean_app; [| by apply (clean_all text) | by apply (clean_all is_blank)].
  unfold l_prefix. destruct (l_name l) as [[n b]|]; [|constructor].
  destruct Hname as (_ & Hn & Hb & _). apply clean_app; [by apply (clean_all tchar)|].
  apply clean_char; [done..|]. by apply (clean_all is_blank).
Qed.

(** A header section behind a line end: it ends in two line ends in a row. *)
Lemma clean_section first ls e0 e : lines_ok first ls ->
  exists x e1, clean x /\ eol_bytes e0 ++ section_bytes ls e = x ++ eol_bytes e1 ++ eol_bytes e.
Proof.
  revert first e0. induction ls as [|l ls IH]; intros first e0 Hls.
  - exists [], e0. split; [constructor|done].
  - destruct Hls as [Hl Hls]. destruct (clean_line _ _ Hl) as (x & Hx & E).
    destruct (IH false (l_eol l) Hls) as (y & e1 & Hy & Ey).
    exists (eol_bytes e0 ++ x ++ y), e1. split.
    + repeat apply clean_app; auto using clean_eol_bytes.
    + unfold section_bytes in *. cbn [lines_bytes map concat]. fold (lines_bytes ls).
      rewrite E, <- !app_assoc, Ey. done.
Qed.

Lemma clean_request r : request_ok r -> exists x e1,
  clean x /\ request_bytes r = x ++ eol_bytes e1 ++ eol_bytes (rq_end r).
Proof.
  intros (_ & Hm & _ & Hp & Hv & Hls). unfold request_bytes.
  destruct (clean_section _ _ (rq_eol r) (rq_end r) Hls) as (x & e1 & Hx & ->).
  exists (empty_bytes (rq_empty r) ++ rq_method r ++ blanks (rq_sp1 r) ++ rq_path r ++
    blanks (rq_sp2 r) ++ version_bytes (rq_minor r) ++ x), e1.
  split; [|by rewrite <- !app_assoc].
  assert (forall n, clean (blanks n)) as Hb.
  { intros n. apply (clean_all (Z.eqb SP)); [done..|]. by apply Forall_replicate. }
  repeat apply clean_app; try done.
  - destruct (rq_empty r); [apply clean_eol_bytes | constructor].
  - by apply (clean_all vchar).
  - by apply (clean_all vchar).
  - unfold version_bytes. repeat (apply clean_char; [lia|lia|]). constructor.
Qed.

(** The loop finds the empty line. *)
Lemma is_complete_loop_ok x e1 e2 rest p cnt :
  clean x -> (cnt < 2)%nat ->
  let s := x ++ eol_bytes e1 ++ eol_bytes e2 ++ rest in
  exists q, forall tail, is_complete_loop (p + length s) p (s ++ tail) cnt = Ret q.
Proof.
  intros Hx Hcnt s. subst s. revert p cnt Hcnt.
  assert (forall e s p cnt tail,
    is_complete_loop (p + length (eol_bytes e ++ s)) p ((eol_bytes e ++ s) ++ tail) cnt =
    if (S cnt =? 2)%nat then Ret (p + length (eol_bytes e))%nat
    else is_complete_loop (p + length (eol_bytes e) + length s) (p + length (eol_bytes e))
      (s ++ tail) (S cnt)) as Hstep.
  { intros e s p cnt tail. destruct e; cbn [eol_bytes app is_complete_loop length Z.eqb Pos.eqb].
    - destruct (Nat.eqb_spec p (p + S (S (length s)))); [lia|].
      destruct (Nat.eqb_spec (S p) (p + S (S (length s)))); [lia|].
      replace (p + 2)%nat with (S (S p)) by lia.
      by replace (p + S (S (length s)))%nat with (S (S p) + length s)%nat by lia.
    - destruct (Nat.eqb_spec p (p + S (length s))); [lia|].
      replace (p + 1)%nat with (S p) by lia.
      by replace (p + S (length s))%nat with (S p + length s)%nat by lia. }
  induction Hx as [|c l H1 H2 Hl IH|e l Hl IH]; intros p cnt Hcnt.
  - cbn [app]. setoid_rewrite Hstep. destruct (S cnt =? 2)%nat eqn:E; [eauto|].
    setoid_rewrite Hstep. destruct (Nat.eqb_spec (S (S cnt)) 2); [eauto|].
    apply Nat.eqb_neq in E. lia.
  - destruct (IH (S p) 0%nat) as [q Hq]; [lia|]. exists q. intros tail.
    cbn [app is_complete_loop]. rewrite eqb_end0.
    destruct (Z.eqb_spec c CR); [done|]. destruct (Z.eqb_spec c LF); [done|].
    rewrite end_next. apply Hq.
  - rewrite <- app_assoc. setoid_rewrite Hstep. destruct (Nat.eqb_spec (S cnt) 2); [eauto|].
    apply IH. lia.
Qed.

Lemma parse_request_last_len r s tail last_len o :
  request_ok r -> (last_len < length (request_bytes r))%nat ->
  let d := request_bytes r ++ s in
  phr_parse_request (d ++ tail) (length d) last_len o = phr_parse_request (d ++ tail) (length d) 0 o.
Proof.
  intros Hr Hlast d. destruct (clean_request r Hr) as (x & e1 & Hx & E).
  destruct (Nat.eqb_spec last_len 0) as [->|Hne]; [done|].
  set (start := if (last_len <? 3)%nat then 0%nat else (0 + last_len - 3)%nat).
  assert (start <= length x)%nat as Hstart.
  { rewrite E, !length_app in Hlast. unfold start.
    assert (forall e, length (eol_bytes e) <= 2)%nat as He by (intros []; simpl; lia).
    pose proof (He e1). pose proof (He (rq_end r)). destruct (Nat.ltb_spec last_len 3); lia. }
  assert (exists q, is_complete (d ++ tail) (length d) 0 last_len = Ret q) as [q Hq].
  { unfold is_complete. fold start.
    destruct (is_complete_loop_ok (drop start x) e1 (rq_end r) s start 0) as [q Hq];
      [by apply clean_drop | lia |].
    exists q. rewrite <- (Hq tail). f_equal.
    - unfold d. rewrite E, !length_app, length_drop. lia.
    - unfold d. rewrite E, <- !app_assoc. by rewrite drop_app_le by done. }
  unfold phr_parse_request. destruct (Nat.eqb_spec last_len 0); [done|]. cbn [Nat.eqb].
  by rewrite (lift_bind_ret _ _ _ _ Hq).
Qed.

(** Parsing again with the [last_len] of an earlier, incomplete attempt gives the
    result of parsing afresh: the quick scan for the empty line, which only looks at the
    new bytes and the three before them, never holds back a request that is complete. *)
Theorem phr_parse_request_last_len r s tail last_len o :
  request_ok r -> (last_len < length (request_bytes r))%nat ->
  let d := request_bytes r ++ s in
  phr_parse_request (d ++ tail) (length d) last_len o = phr_parse_request (d ++ tail) (length d) 0 o.
Proof. apply parse_request_last_len. Qed.

(** The witness: all but the last byte of a request had arrived before. *)
Lemma phr_parse_request_last_len_witness :
  let d := request_bytes sample_request ++ [] in
  phr_parse_request (d ++ []) (length d) 23 sample_out =
    phr_parse_request (d ++ []) (length d) 0 sample_out /\
  (23 < length (request_bytes sample_request))%nat.
Proof.
  split; [|vm_compute; lia]. apply (phr_parse_request_last_len sample_request).
  - repeat split; try discriminate; try (repeat constructor).
  - vm_compute. lia.
Defined.
