(* ===== verification/PicoResponse.v ===== *)
(** * Response parsing

    The responses [phr_parse_response] accepts are exactly the texts of the grammar below,
    and its out-parameters describe the text. *)

From S2P Require Import Prelude Pico PicoLoops PicoStable PicoGrammar PicoHeaders PicoRequest.
Local Open Scope Z_scope.

Record response := mk_response {
  rs_minor : Z;
  rs_sp : nat;                            (* spaces beyond the first *)
  rs_digits : Z * Z * Z;
  rs_reason : option (nat * list Z);      (* spaces beyond the first, phrase *)
  rs_eol : eol;
  rs_lines : list line;
  rs_end : eol;
}.

Definition reason_bytes (r : option (nat * list Z)) : list Z :=
  match r with Some (n, m) => blanks n ++ m | None => [] end.

Definition status_bytes (ds : Z * Z * Z) : list Z :=
  let '(a, b, c) := ds in [48 + a; 48 + b; 48 + c].

Definition status_value (ds : Z * Z * Z) : Z := let '(a, b, c) := ds in 100 * a + 10 * b + c.

Definition digit (z : Z) : Prop := 0 <= z <= 9.

Definition response_bytes (r : response) : list Z :=
  version_bytes (rs_minor r) ++ blanks (rs_sp r) ++ status_bytes (rs_digits r) ++
  reason_bytes (rs_reason r) ++ eol_bytes (rs_eol r) ++ section_bytes (rs_lines r) (rs_end r).

Definition response_ok (r : response) : Prop :=
  digit (rs_minor r) /\
  (let '(a, b, c) := rs_digits r in digit a /\ digit b /\ digit c) /\
  match rs_reason r with
  | Some (_, m) => all text m /\ match m with c :: _ => c <> SP | [] => True end
  | None => True
  end /\ lines_ok true (rs_lines r).

Definition response_out (r : response) (o : phr_out) : phr_out :=
  let p1 := (8 + length (blanks (rs_sp r)) + 3)%nat in
  let p2 := (p1 + length (reason_bytes (rs_reason r)) + length (eol_bytes (rs_eol r)))%nat in
  let m := match rs_reason r with Some (n, _) => (p1 + length (blanks n))%nat | None => p1 end in
  let m_len := match rs_reason r with Some (_, m) => length m | None => 0%nat end in
  add_lines p2 (rs_lines r)
    (set_msg (Some m) m_len
      (set_status (status_value (rs_digits r)) (set_minor_version (rs_minor r) o))).

(** ** The reason phrase *)

Lemma skip_msg_spaces_ok n c s p len : c <> SP -> (Z.of_nat n <= len < 2 ^ 64) ->
  skip_msg_spaces p len (replicate n SP ++ c :: s) = Ret ((p + n)%nat, len - Z.of_nat n).
Proof.
  intros Hc. revert p len. induction n as [|n IH]; intros p len Hlen;
    cbn [replicate app skip_msg_spaces].
  - destruct (Z.eqb_spec c SP); [done|]. do 2 f_equal; lia.
  - rewrite Z.eqb_refl, IH; rewrite wrap_small by lia; [do 2 f_equal; lia | lia].
Qed.

(** What the parser makes of the reason phrase [tok] at [p]. *)
Definition parse_reason (mem : list Z) (m m_len : nat) : parser unit :=
  if (m_len =? 0)%nat then mret tt
  else
    c ← lift (char_at mem m);
    if c =? SP then
      '(m', m_len') ← lift (skip_msg_spaces (S m) (Z.of_nat m_len - 1) (drop (S m) mem));
      modify (set_msg (Some m') (Z.to_nat m_len'))
    else lift (Err (-1)).

Definition reason_msg (p : nat) (r : option (nat * list Z)) (o : phr_out) : phr_out :=
  set_msg (Some match r with Some (n, _) => (p + length (blanks n))%nat | None => p end)
    match r with Some (_, m) => length m | None => 0%nat end o.

Lemma parse_reason_eq d tail p r c s o :
  at_pos d p (reason_bytes r ++ c :: s) -> c <> SP ->
  Z.of_nat (length (reason_bytes r)) < 2 ^ 64 ->
  match r with Some (_, m) => match m with c :: _ => c <> SP | [] => True end | None => True end ->
  parse_reason (d ++ tail) p (length (reason_bytes r)) (set_msg (Some p) (length (reason_bytes r)) o) =
  (Ret tt, reason_msg p r o).
Proof.
  intros Hp Hc Hlen Hm. unfold parse_reason. destruct r as [[n m]|]; [|done].
  unfold reason_bytes, blanks in *. cbn [replicate app length Nat.eqb] in *.
  erewrite lift_bind_ret by (by eapply at_pos_char). cbn [Z.eqb Pos.eqb].
  apply at_pos_next in Hp. rewrite (at_pos_drop _ _ _ _ Hp).
  rewrite length_app, length_replicate in *.
  rewrite (lift_bind_ret _ _ _ ((S p + n)%nat, Z.of_nat (length m))).
  - unfold modify, reason_msg, blanks. rewrite Nat2Z.id, length_replicate. by rewrite Nat.add_succ_r.
  - destruct m as [|c1 m].
    + rewrite app_nil_r, <- app_assoc, <- app_comm_cons. rewrite skip_msg_spaces_ok;
        [do 2 f_equal; cbn [length]; lia | done | cbn [length] in *; lia].
    + rewrite <- !app_assoc, <- !app_comm_cons. rewrite skip_msg_spaces_ok;
        [do 2 f_equal; cbn [length]; lia | done | cbn [length] in *; lia].
Qed.

(** Every text in front of a line end is a reason phrase, or starts with another character
    than a space. *)
Lemma reason_split tok : (exists r, tok = reason_bytes r /\
    match r with Some (_, m) => match m with c :: _ => c <> SP | [] => True end | None => True end) \/
  exists c t, tok = c :: t /\ c <> SP.
Proof.
  destruct tok as [|c t]; [left; by exists None|].
  destruct (Z.eq_dec c SP) as [->|Hc]; [left|right; eauto].
  destruct (spaces_split t) as [E|(c & t' & E & Hc)].
  - exists (Some (spaces t, [])). split; [|done]. unfold reason_bytes, blanks.
    rewrite app_nil_r. cbn [replicate]. by rewrite <- E.
  - exists (Some (spaces t, c :: t')). split; [|done]. unfold reason_bytes, blanks.
    cbn [replicate app]. by rewrite <- E.
Qed.

Lemma parse_reason_stable d p tok e s o : at_pos d p (tok ++ eol_bytes e ++ s) ->
  Z.of_nat (length d) < 2 ^ 64 ->
  stable (fun mem _ => parse_reason mem p (length tok)) d (set_msg (Some p) (length tok) o)
    (fun _ o' => exists r, tok = reason_bytes r /\ o' = reason_msg p r o /\
       match r with Some (_, m) => match m with c :: _ => c <> SP | [] => True end | None => True end).
Proof.
  intros Hp Hlen. destruct (reason_split tok) as [(r & -> & Hr)|(c & t & -> & Hc)].
  - assert (exists c s', eol_bytes e ++ s = c :: s' /\ c <> SP) as (c & s' & E & Hc)
      by (destruct e; simpl; eauto).
    assert (Z.of_nat (length (reason_bytes r)) < 2 ^ 64) as Hl.
    { apply at_pos_length in Hp. rewrite length_app in Hp. lia. }
    rewrite E in Hp. exists (Ret tt), (reason_msg p r o). split_and!.
    + intros tail _. by eapply parse_reason_eq.
    + by exists r.
    + intros _ e' tail _. rewrite app_assoc.
      apply (parse_reason_eq _ _ _ _ c (s' ++ e')); [|done..].
      rewrite app_comm_cons, app_assoc. by apply at_pos_ext.
  - exists (Err (-1)), (set_msg (Some p) (length (c :: t)) o).
    assert (forall mem, char_at mem p = Ret c ->
      parse_reason mem p (length (c :: t)) (set_msg (Some p) (length (c :: t)) o) =
      (Err (-1), set_msg (Some p) (length (c :: t)) o)) as Herr.
    { intros mem Hchar. unfold parse_reason. cbn [length Nat.eqb].
      rewrite (lift_bind_ret _ _ _ _ Hchar). by destruct (Z.eqb_spec c SP). }
    split_and!; [|by left|].
    + intros tail _. apply Herr. by eapply at_pos_char.
    + intros _ e' tail _. apply Herr. rewrite app_assoc.
      apply (at_pos_char _ _ _ ((t ++ eol_bytes e ++ s) ++ e')).
      exact (at_pos_ext _ _ (c :: t ++ eol_bytes e ++ s) e' Hp).
Qed.

(** ** The status line *)

Section response.
Context (d : list Z) (Hd : Forall is_byte d) (Hlen : Z.of_nat (length d) < 2 ^ 64).

Lemma parse_int_3_stable p s o : at_pos d p s -> (3 <= length s)%nat ->
  stable (fun mem _ => parse_int_3 mem p) d o
    (fun q o' => exists a b c s', s = status_bytes (a, b, c) ++ s' /\ q = (p + 3)%nat /\
       digit a /\ digit b /\ digit c /\ o' = set_status (status_value (a, b, c)) o).
Proof.
  intros Hp Hl. unfold parse_int_3.
  assert (forall s0 : list Z, (1 <= length s0)%nat -> s0 <> []) as Hne by (intros []; simpl; [lia|done]).
  eapply stable_lift_bind; [eapply parse_int_stable; [done|exact Hp|apply Hne; lia]|].
  cbv beta. intros ? (a & s1 & -> & Ha & ->). cbv beta iota. apply at_pos_next in Hp.
  cbn [length] in Hl. eapply stable_state; [reflexivity|].
  eapply stable_lift_bind; [eapply parse_int_stable; [done|exact Hp|apply Hne; lia]|].
  cbv beta. intros ? (b & s2 & -> & Hb & ->). cbv beta iota. apply at_pos_next in Hp.
  cbn [length] in Hl. eapply stable_state; [reflexivity|].
  eapply stable_lift_bind; [eapply parse_int_stable; [done|exact Hp|apply Hne; lia]|].
  cbv beta. intros ? (c & s3 & -> & Hc & ->). cbv beta iota.
  eapply stable_state; [reflexivity|]. apply stable_ret. exists a, b, c, s3.
  split; [done|]. split; [lia|]. split_and!; try done; try lia.
  unfold set_status, status_value. cbn. f_equal. lia.
Qed.

Definition responded (max : nat) (o : phr_out) (q : nat) (o' : phr_out) : Prop :=
  exists r s', d = response_bytes r ++ s' /\ q = length (response_bytes r) /\ response_ok r /\
    (length (rs_lines r) <= max)%nat /\ o' = response_out r o.

Lemma parse_response_stable max o :
  num_headers o = 0%nat -> (max <= length (headers o))%nat ->
  stable (fun mem buf_end => parse_response mem buf_end max 0) d o (responded max o).
Proof.
  intros Hn Hmax. unfold parse_response. pose proof (at_pos_start d) as Hp.
  eapply stable_bind; [apply parse_http_version_stable; [done|exact Hp]|].
  cbv beta. intros ? ? (v & s1 & Ed & Hs1 & Hv & -> & ->).
  rewrite Ed in Hp at 2. apply at_pos_app in Hp. cbn [version_bytes length Nat.add] in *.
  destruct s1 as [|c1 s1]; [done|].
  eapply (stable_lift_bind _ _ _ _ (fun c' => c' = c1)); [by eapply pstable_char|]. intros _ ->.
  destruct (Z.eqb_spec c1 SP) as [->|]; cbn [negb].
  2: { eapply stable_lift; [apply (pstable_err d (fun _ => False))|done]. }
  eapply stable_skip; [exact Hp| |].
  2: { intros n tail -> Ht. apply at_pos_length in Hp. cbn [length] in Hp.
       rewrite length_replicate in Hp. destruct (Nat.ltb_spec (length d - (9 + n)) 4); [done|lia]. }
  intros n c s2 -> Hc. apply at_pos_blanks in Hp.
  eapply stable_room; [exact Hp|]. intros Hl.
  eapply stable_bind; [eapply parse_int_3_stable; [exact Hp|lia]|].
  cbv beta. intros ? ? (a & b & c' & s3 & E3 & -> & Ha & Hb & Hc' & ->).
  rewrite E3 in Hp. apply at_pos_app in Hp. cbn [status_bytes length] in Hp.
  eapply stable_lift_bind; [by apply get_token_to_eol_stable|].
  cbv beta. intros ? (tok & e & s4 & -> & Htok & ->). cbv beta iota.
  eapply stable_state; [reflexivity|]. fold (parse_reason).
  eapply (stable_bind (fun mem _ => parse_reason mem _ _)); [by eapply parse_reason_stable|].
  cbv beta. intros _ ? (r & -> & -> & Hr). rewrite app_assoc in Hp. apply at_pos_app in Hp.
  unfold parse_headers. eapply stable_state; [reflexivity|].
  cbn [num_headers set_minor_version set_status set_msg reason_msg]. rewrite Hn, Nat.sub_0_r.
  eapply stable_impl; [eapply headers_loop_stable; [done|exact Hp|]|].
  { cbn [num_headers headers set_minor_version set_status set_msg reason_msg]. lia. }
  cbv beta. intros q o' (ls & en & s5 & -> & -> & Hls & Hlen' & ->).
  cbn [num_headers set_minor_version set_status set_msg reason_msg] in Hls. rewrite Hn in Hls.
  exists (mk_response v n (a, b, c') r e ls en), s5.
  unfold response_bytes, response_out, response_ok.
  cbn [rs_minor rs_sp rs_digits rs_reason rs_eol rs_lines rs_end].
  split.
  { rewrite Ed, E3, <- !app_assoc. unfold blanks. cbn [replicate app]. by rewrite <- ?app_assoc. }
  split; [|split; [|split]].
  - rewrite !length_app. unfold version_bytes, blanks. rewrite length_replicate.
    cbn [length status_bytes]. lia.
  - split; [exact Hv|]. split; [exact (conj Ha (conj Hb Hc'))|]. split; [|done].
    destruct r as [[k m]|]; [|done]. split; [|done]. unfold reason_bytes in Htok.
    by apply all_app in Htok as [_ ?].
  - done.
  - unfold reason_msg, blanks. rewrite !length_app, !length_replicate.
    replace (9 + n + 3)%nat with (8 + S n + 3)%nat by lia.
    by rewrite !Nat.add_assoc.
Qed.

End response.

(** ** Acceptance *)

Section accept.
Context (d tail : list Z) (Hd : Forall is_byte d) (Hlen : Z.of_nat (length d) < 2 ^ 64).

Lemma parse_int_ok mul v p s : at_pos d p (48 + v :: s) -> digit v ->
  parse_int (d ++ tail) mul p = Ret (mul * v, S p).
Proof.
  intros Hp Hv. unfold parse_int. rewrite (obind_ret _ _ _ (at_pos_char _ _ _ _ _ Hp)).
  unfold schar, digit in *.
  destruct (Z.ltb_spec (48 + v) 128), (Z.ltb_spec (48 + v) 48), (Z.ltb_spec 57 (48 + v)); try lia.
  simpl orb. cbv iota. do 2 f_equal. f_equal. lia.
Qed.

Lemma parse_int_3_ok a b c p s o : at_pos d p (status_bytes (a, b, c) ++ s) ->
  digit a -> digit b -> digit c ->
  parse_int_3 (d ++ tail) p o = (Ret (p + 3)%nat, set_status (status_value (a, b, c)) o).
Proof.
  intros Hp Ha Hb Hc. unfold parse_int_3. cbn [status_bytes app] in Hp.
  rewrite (lift_bind_ret _ _ _ _ (parse_int_ok _ _ _ _ Hp Ha)). apply at_pos_next in Hp.
  erewrite (bind_ret (modify _)) by reflexivity.
  rewrite (lift_bind_ret _ _ _ _ (parse_int_ok _ _ _ _ Hp Hb)). apply at_pos_next in Hp.
  erewrite (bind_ret (modify _)) by reflexivity.
  rewrite (lift_bind_ret _ _ _ _ (parse_int_ok _ _ _ _ Hp Hc)).
  erewrite (bind_ret (modify _)) by reflexivity.
  unfold mret, stateful_ret, set_status, status_value. cbn [status]. f_equal; [f_equal; lia|].
  cbn. f_equal. lia.
Qed.

Lemma parse_response_ok r s max o : d = response_bytes r ++ s -> response_ok r ->
  num_headers o = 0%nat -> (length (rs_lines r) <= max <= length (headers o))%nat ->
  parse_response (d ++ tail) (length d) max 0 o =
  (Ret (length (response_bytes r)), response_out r o).
Proof.
  intros Ed (Hv & Hds & Hr & Hls) Hn Hmax. destruct r as [v n [[a b] c] r e ls en].
  unfold response_bytes, response_out in *.
  cbn [rs_minor rs_sp rs_digits rs_reason rs_eol rs_lines rs_end] in *.
  pose proof (at_pos_start d) as Hp. rewrite Ed in Hp at 2. rewrite <- !app_assoc in Hp.
  unfold parse_response. rewrite !length_app, !Nat.add_assoc. cbn [version_bytes status_bytes length].
  erewrite bind_ret by (eapply parse_http_version_ok; [exact Hp|done]).
  change (0 + 8)%nat with 8%nat.
  apply at_pos_app in Hp. cbn [version_bytes length Nat.add] in Hp.
  erewrite lift_bind_ret by (eapply at_pos_char; exact Hp).
  cbn [Z.eqb Pos.eqb negb].
  destruct Hds as (Ha & Hb & Hc).
  erewrite lift_bind_ret.
  2: { eapply skip_spaces_ok; [exact Hp|]. unfold digit in Ha. lia. }
  apply at_pos_app in Hp. pose proof (at_pos_length _ _ _ Hp) as Hl.
  rewrite !length_app in Hl. cbn [status_bytes length] in Hl.
  assert (1 <= length (eol_bytes e))%nat as He by (destruct e; simpl; lia).
  destruct (Nat.ltb_spec (length d - (8 + length (blanks n))) 4); [lia|].
  erewrite bind_ret by (by eapply parse_int_3_ok). apply at_pos_app in Hp.
  cbn [status_bytes length] in Hp.
  assert (all text (reason_bytes r)) as Htok.
  { destruct r as [[k m]|]; [|constructor]. apply all_app. split; [|by destruct Hr].
    by apply Forall_replicate. }
  erewrite lift_bind_ret by (eapply get_token_to_eol_ok; [done|exact Hp|done]).
  cbv beta iota. erewrite (bind_ret (modify _)) by reflexivity.
  destruct (eol_bytes e ++ section_bytes ls en ++ s) as [|c1 s1] eqn:E1; [by destruct e|].
  etransitivity.
  { apply (bind_ret (parse_reason (d ++ tail) (8 + length (blanks n) + 3)
      (length (reason_bytes r))) _ _ tt
      (reason_msg (8 + length (blanks n) + 3) r
         (set_status (status_value (a, b, c)) (set_minor_version v o)))).
    eapply parse_reason_eq; [exact Hp| | |by destruct r as [[? ?]|]; [destruct Hr|]].
    - destruct e; injection E1 as <- _; done.
    - apply at_pos_length in Hp. rewrite length_app in Hp. lia. }
  rewrite <- E1 in Hp. apply at_pos_app, at_pos_app in Hp.
  unfold parse_headers. erewrite (bind_ret (fun o => (Ret (num_headers o), o))) by reflexivity.
  cbn [num_headers set_minor_version set_status set_msg reason_msg]. rewrite Hn, Nat.sub_0_r.
  rewrite length_app, !Nat.add_assoc.
  erewrite headers_loop_ok; [| done | exact Hp | | lia |].
  - unfold reason_msg. destruct r as [[? ?]|]; done.
  - cbn [num_headers set_minor_version set_status set_msg reason_msg]. by rewrite Hn.
  - cbn [num_headers headers set_minor_version set_status set_msg reason_msg]. lia.
Qed.

End accept.

(** ** The entry point *)

Definition response_start (o : phr_out) : phr_out :=
  set_num_headers 0 (set_msg None 0 (set_status 0 (set_minor_version (-1) o))).

Lemma parse_response_iff d tail o v o' :
  Forall is_byte d -> guarded tail -> (num_headers o <= length (headers o))%nat ->
  Z.of_nat (length d) < 2 ^ 31 ->
  (phr_parse_response (d ++ tail) (length d) 0 o = (Ret v, o') /\ 0 <= v) <->
  exists r s, d = response_bytes r ++ s /\ response_ok r /\
    (length (rs_lines r) <= num_headers o)%nat /\
    v = Z.of_nat (length (response_bytes r)) /\ o' = response_out r (response_start o).
Proof.
  intros Hd Ht Ho Hlen. assert (Z.of_nat (length d) < 2 ^ 64) as Hlen' by lia.
  assert (phr_parse_response (d ++ tail) (length d) 0 o =
    let '(r, o') := parse_response (d ++ tail) (length d) (num_headers o) 0 (response_start o)
    in (phr_return r, o')) as -> by reflexivity.
  split.
  - intros [E Hv].
    destruct (parse_response_stable d Hd Hlen' (num_headers o) (response_start o)) as (r & o1 & Hr & Hq & _);
      [done | exact Ho |].
    rewrite Hr in E by done. injection E as E <-. destruct r as [q|e|]; [| |done].
    + destruct Hq as (rs & s & -> & -> & Hok & Hl & ->). exists rs, s. split_and!; try done.
      injection E as <-. apply to_int_small. rewrite length_app in Hlen. lia.
    + injection E as ->. simpl in Hq. lia.
  - intros (r & s & Ed & Hok & Hl & -> & ->).
    rewrite (parse_response_ok d tail Hd Hlen' r s) by first [done | split; [done | exact Ho]].
    split; [|lia]. cbn [phr_return]. do 2 f_equal. apply to_int_small.
    rewrite Ed, length_app in Hlen. lia.
Qed.

(** C29: [phr_parse_response] on received bytes [d] (with a readable byte behind them that
    is no space) reports success exactly when [d] starts with a response of the grammar
    that has room in the headers array; it then returns the length of that response, and
    the out-parameters are its version and status and the positions and lengths of its
    parts. *)
Theorem phr_parse_response_iff d tail o v o' :
  Forall is_byte d -> guarded tail -> (num_headers o <= length (headers o))%nat ->
  Z.of_nat (length d) < 2 ^ 31 ->
  (phr_parse_response (d ++ tail) (length d) 0 o = (Ret v, o') /\ 0 <= v) <->
  exists r s, d = response_bytes r ++ s /\ response_ok r /\
    (length (rs_lines r) <= num_headers o)%nat /\
    v = Z.of_nat (length (response_bytes r)) /\ o' = response_out r (response_start o).
Proof. apply parse_response_iff. Qed.

(** The witness: a status line with two spaces in front of the phrase, and a header. *)
Definition sample_response : response :=
  mk_response 1 0 (2, 0, 4) (Some (1%nat, [111; SP; 107])) Crlf
    [mk_line (Some ([65], [SP])) [98] [] Crlf] Lf.

Lemma phr_parse_response_iff_witness :
  let d := response_bytes sample_response ++ [97] in
  phr_parse_response (d ++ [0]) (length d) 0 sample_out =
    (Ret (Z.of_nat (length (response_bytes sample_response))),
     response_out sample_response (response_start sample_out)) /\
  0 <= Z.of_nat (length (response_bytes sample_response)).
Proof.
  cbv zeta. apply phr_parse_response_iff.
  - repeat (constructor; [split; [discriminate|reflexivity]|]). constructor.
  - discriminate.
  - simpl. lia.
  - reflexivity.
  - exists sample_response, [97]. split; [reflexivity|].
    split; [|split; [simpl; lia | split; reflexivity]].
    repeat split; try discriminate; try (repeat constructor).
Defined.
