(* ===== verification/Chunked.v ===== *)
(** * The chunked transfer decoder

    Models [phr_decode_chunked] of [src/include/xynet/http/picohttpparser.h]: the decoder
    works in place, moving the decoded bytes of the buffer to its front, and can be
    resumed at any byte. Its specification is an automaton that reads one byte at a time
    ([feed]); the theorems are that the decoder refines it ([phr_decode_chunked_feed]),
    hence that the way the input is cut does not matter, and that it decodes what an
    encoder produces. *)

From S2P Require Import Prelude.
Local Open Scope Z_scope.

(** ** The decoder *)

Inductive chunked_state :=
| CHUNKED_IN_CHUNK_SIZE
| CHUNKED_IN_CHUNK_EXT
| CHUNKED_IN_CHUNK_DATA
| CHUNKED_IN_CHUNK_CRLF
| CHUNKED_IN_TRAILERS_LINE_HEAD
| CHUNKED_IN_TRAILERS_LINE_MIDDLE.

#[export] Instance chunked_state_eq_dec : EqDecision chunked_state.
Proof. solve_decision. Defined.

(** [struct phr_chunked_decoder]; [consume_trailer] is used as a truth value. *)
Record decoder := mk_decoder {
  bytes_left_in_chunk : Z;
  consume_trailer : bool;
  hex_count : Z;
  state : chunked_state;
}.

Definition set_state (st : chunked_state) (d : decoder) : decoder :=
  mk_decoder (bytes_left_in_chunk d) (consume_trailer d) (hex_count d) st.
Definition set_left (n : Z) (d : decoder) : decoder :=
  mk_decoder n (consume_trailer d) (hex_count d) (state d).
Definition set_hex_count (n : Z) (d : decoder) : decoder :=
  mk_decoder (bytes_left_in_chunk d) (consume_trailer d) n (state d).

(** The argument is a [char] converted to [int]. *)
Definition decode_hex (ch : Z) : Z :=
  if (48 <=? ch) && (ch <=? 57) then ch - 48
  else if (65 <=? ch) && (ch <=? 70) then ch - 65 + 10
  else if (97 <=? ch) && (ch <=? 102) then ch - 97 + 10
  else -1.

(** The local variables of the function; [buf] is the buffer of [bufsz] bytes. *)
Record frame := mk_frame { dec : decoder; buf : list Z; dst : nat; src : nat }.

Definition set_dec (d : decoder) (f : frame) : frame := mk_frame d (buf f) (dst f) (src f).
Definition set_src (n : nat) (f : frame) : frame := mk_frame (dec f) (buf f) (dst f) n.

(** [memmove(buf + dst, buf + src, n)]: the source is read before it is overwritten. *)
Definition memmove (b : list Z) (dst src n : nat) : list Z :=
  take dst b ++ take n (drop src b) ++ drop (dst + n) b.

(** Where control goes: [goto Exit] with a value of [ret], [goto Complete], or on. *)
Inductive control := GotoExit (ret : Z) | GotoComplete | Fallthru | Break.

(** The loop over the digits; [s] is the buffer from [src] on. *)
Fixpoint size_loop (d : decoder) (src : nat) (s : list Z) : control * decoder * nat :=
  match s with
  | [] => (GotoExit (-2), d, src)
  | c :: s' =>
      let v := decode_hex (schar c) in
      if v =? -1 then
        if hex_count d =? 0 then (GotoExit (-1), d, src) else (Fallthru, d, src)
      else if hex_count d =? 16 then (GotoExit (-1), d, src)
      else size_loop (set_hex_count (hex_count d + 1)
             (set_left (wrap 64 (bytes_left_in_chunk d * 16 + v)) d)) (S src) s'
  end.

(** [for (;; ++src)] up to the first byte that satisfies [stop]. *)
Fixpoint find_loop (stop : Z -> bool) (src : nat) (s : list Z) : bool * nat :=
  match s with
  | [] => (false, src)
  | c :: s' => if stop c then (true, src) else find_loop stop (S src) s'
  end.

Definition is_lf (c : Z) : bool := c =? 10.
Definition not_cr (c : Z) : bool := negb (c =? 13).

Definition case_size (f : frame) : control * frame :=
  let '(ctl, d, n) := size_loop (dec f) (src f) (drop (src f) (buf f)) in
  match ctl with
  | Fallthru => (Fallthru, set_src n (set_dec (set_state CHUNKED_IN_CHUNK_EXT (set_hex_count 0 d)) f))
  | _ => (ctl, set_src n (set_dec d f))
  end.

Definition case_ext (f : frame) : control * frame :=
  let '(found, n) := find_loop is_lf (src f) (drop (src f) (buf f)) in
  if negb found then (GotoExit (-2), set_src n f) else
  let f := set_src (S n) f in
  if bytes_left_in_chunk (dec f) =? 0 then
    if consume_trailer (dec f)
    then (Break, set_dec (set_state CHUNKED_IN_TRAILERS_LINE_HEAD (dec f)) f)
    else (GotoComplete, f)
  else (Fallthru, set_dec (set_state CHUNKED_IN_CHUNK_DATA (dec f)) f).

Definition case_data (f : frame) : control * frame :=
  let avail := (length (buf f) - src f)%nat in
  let left := bytes_left_in_chunk (dec f) in
  let move n := if (dst f =? src f)%nat then buf f else memmove (buf f) (dst f) (src f) n in
  if Z.of_nat avail <? left then
    (GotoExit (-2), mk_frame (set_left (left - Z.of_nat avail) (dec f)) (move avail)
       (dst f + avail) (src f + avail))
  else
    let n := Z.to_nat left in
    (Fallthru, mk_frame (set_state CHUNKED_IN_CHUNK_CRLF (set_left 0 (dec f))) (move n)
       (dst f + n) (src f + n)).

Definition case_crlf (f : frame) : control * frame :=
  let '(found, n) := find_loop not_cr (src f) (drop (src f) (buf f)) in
  if negb found then (GotoExit (-2), set_src n f) else
  if negb (nth n (buf f) 0 =? 10) then (GotoExit (-1), set_src n f) else
  (Break, set_src (S n) (set_dec (set_state CHUNKED_IN_CHUNK_SIZE (dec f)) f)).

Definition case_trailers_head (f : frame) : control * frame :=
  let '(found, n) := find_loop not_cr (src f) (drop (src f) (buf f)) in
  if negb found then (GotoExit (-2), set_src n f) else
  let f := set_src (S n) f in
  if nth n (buf f) 0 =? 10 then (GotoComplete, f)
  else (Fallthru, set_dec (set_state CHUNKED_IN_TRAILERS_LINE_MIDDLE (dec f)) f).

Definition case_trailers_middle (f : frame) : control * frame :=
  let '(found, n) := find_loop is_lf (src f) (drop (src f) (buf f)) in
  if negb found then (GotoExit (-2), set_src n f) else
  (Break, set_src (S n) (set_dec (set_state CHUNKED_IN_TRAILERS_LINE_HEAD (dec f)) f)).

(** A case that falls through to the next one. *)
Definition fall (r : control * frame) (next : frame -> control * frame) : control * frame :=
  match r with (Fallthru, f) => next f | _ => r end.

(** The [switch]. *)
Definition switch (f : frame) : control * frame :=
  match state (dec f) with
  | CHUNKED_IN_CHUNK_SIZE =>
      fall (case_size f) (fun f => fall (case_ext f) (fun f => fall (case_data f) case_crlf))
  | CHUNKED_IN_CHUNK_EXT => fall (case_ext f) (fun f => fall (case_data f) case_crlf)
  | CHUNKED_IN_CHUNK_DATA => fall (case_data f) case_crlf
  | CHUNKED_IN_CHUNK_CRLF => case_crlf f
  | CHUNKED_IN_TRAILERS_LINE_HEAD => fall (case_trailers_head f) case_trailers_middle
  | CHUNKED_IN_TRAILERS_LINE_MIDDLE => case_trailers_middle f
  end.

(** [while (1)]: [None] when [fuel] runs out. *)
Fixpoint decode_loop (fuel : nat) (f : frame) : option (Z * frame) :=
  match fuel with
  | O => None
  | S fuel =>
      match switch f with
      | (GotoExit ret, f) => Some (ret, f)
      | (GotoComplete, f) => Some (Z.of_nat (length (buf f) - src f), f)
      | (Break, f) | (Fallthru, f) => decode_loop fuel f
      end
  end.

(** The function: the return value, the decoder, the buffer and [*_bufsz] afterwards. Each
    turn of the loop but the last consumes a byte. *)
Definition phr_decode_chunked (d : decoder) (b : list Z) : option (Z * decoder * list Z * nat) :=
  match decode_loop (S (length b)) (mk_frame d b 0 0) with
  | Some (ret, f) =>
      let b' := if (dst f =? src f)%nat then buf f
                else memmove (buf f) (dst f) (src f) (length (buf f) - src f) in
      Some (ret, dec f, b', dst f)
  | None => None
  end.

Definition phr_decode_chunked_is_in_data (d : decoder) : bool :=
  bool_decide (state d = CHUNKED_IN_CHUNK_DATA).

(** A zero-filled decoder. *)
Definition decoder_zero (trailer : bool) : decoder :=
  mk_decoder 0 trailer 0 CHUNKED_IN_CHUNK_SIZE.

(** ** The specification: one byte at a time *)

Inductive reading :=
| Next (d : decoder) (out : list Z)   (* the byte is consumed *)
| Done (d : decoder)                  (* the byte is the last of the encoding *)
| Bad (d : decoder).                  (* the byte is not consumed *)

Definition read_ext (d : decoder) (c : Z) : reading :=
  if is_lf c then
    if bytes_left_in_chunk d =? 0 then
      if consume_trailer d then Next (set_state CHUNKED_IN_TRAILERS_LINE_HEAD d) [] else Done d
    else Next (set_state CHUNKED_IN_CHUNK_DATA d) []
  else Next d [].

Definition read_byte (d : decoder) (c : Z) : reading :=
  match state d with
  | CHUNKED_IN_CHUNK_SIZE =>
      let v := decode_hex (schar c) in
      if v =? -1 then
        if hex_count d =? 0 then Bad d
        else read_ext (set_state CHUNKED_IN_CHUNK_EXT (set_hex_count 0 d)) c
      else if hex_count d =? 16 then Bad d
      else Next (set_hex_count (hex_count d + 1)
             (set_left (bytes_left_in_chunk d * 16 + v) d)) []
  | CHUNKED_IN_CHUNK_EXT => read_ext d c
  | CHUNKED_IN_CHUNK_DATA =>
      let d' := set_left (bytes_left_in_chunk d - 1) d in
      Next (if bytes_left_in_chunk d =? 1 then set_state CHUNKED_IN_CHUNK_CRLF d' else d') [c]
  | CHUNKED_IN_CHUNK_CRLF =>
      if c =? 13 then Next d []
      else if c =? 10 then Next (set_state CHUNKED_IN_CHUNK_SIZE d) [] else Bad d
  | CHUNKED_IN_TRAILERS_LINE_HEAD =>
      if c =? 13 then Next d []
      else if c =? 10 then Done d else Next (set_state CHUNKED_IN_TRAILERS_LINE_MIDDLE d) []
  | CHUNKED_IN_TRAILERS_LINE_MIDDLE =>
      if c =? 10 then Next (set_state CHUNKED_IN_TRAILERS_LINE_HEAD d) [] else Next d []
  end.

Inductive progress := More | Complete | Malformed.

(** Reading [s]: how it ends, the decoder, the decoded bytes and the unread ones. *)
Fixpoint feed (d : decoder) (s : list Z) : progress * decoder * list Z * list Z :=
  match s with
  | [] => (More, d, [], [])
  | c :: s' =>
      match read_byte d c with
      | Next d' out => let '(p, d'', out', rest) := feed d' s' in (p, d'', out ++ out', rest)
      | Done d' => (Complete, d', [], s')
      | Bad d' => (Malformed, d', [], s)
      end
  end.

(** The decoders that occur: the number read so far fits its digits. *)
Definition decoder_ok (d : decoder) : Prop :=
  match state d with
  | CHUNKED_IN_CHUNK_SIZE =>
      0 <= hex_count d <= 16 /\ 0 <= bytes_left_in_chunk d < 16 ^ hex_count d
  | CHUNKED_IN_CHUNK_EXT => hex_count d = 0 /\ 0 <= bytes_left_in_chunk d < 2 ^ 64
  | CHUNKED_IN_CHUNK_DATA => hex_count d = 0 /\ 0 < bytes_left_in_chunk d < 2 ^ 64
  | _ => hex_count d = 0 /\ bytes_left_in_chunk d = 0
  end.

(** ** Refinement *)

Lemma decode_hex_range ch : -1 <= decode_hex ch <= 15.
Proof.
  unfold decode_hex. destruct (Z.leb_spec 48 ch), (Z.leb_spec ch 57), (Z.leb_spec 65 ch),
    (Z.leb_spec ch 70), (Z.leb_spec 97 ch), (Z.leb_spec ch 102); simpl; lia.
Qed.

(** A digit keeps the number within its digits: sixteen of them fit [size_t]. *)
Lemma push_digit left h v : 0 <= h < 16 -> 0 <= left < 16 ^ h -> 0 <= v <= 15 ->
  0 <= left * 16 + v < 16 ^ (h + 1) /\ wrap 64 (left * 16 + v) = left * 16 + v.
Proof.
  intros Hh Hl Hv. assert (16 ^ (h + 1) = 16 ^ h * 16) as E by (rewrite Z.pow_add_r; lia).
  assert (16 ^ (h + 1) <= 16 ^ 16) by (apply Z.pow_le_mono_r; lia).
  split; [lia|]. apply wrap_small. change (2 ^ 64) with (16 ^ 16). lia.
Qed.

(** The output of a run that goes on. *)
Definition pre (o : list Z) (r : progress * decoder * list Z * list Z) :=
  let '(p, d, o', rest) := r in (p, d, o ++ o', rest).

Lemma pre_pre o1 o2 r : pre o1 (pre o2 r) = pre (o1 ++ o2) r.
Proof. destruct r as [[[p d] o] rest]. simpl. by rewrite app_assoc. Qed.

Lemma pre_nil r : pre [] r = r.
Proof. by destruct r as [[[p d] o] rest]. Qed.

Lemma feed_cons d c s : feed d (c :: s) =
  match read_byte d c with
  | Next d' out => pre out (feed d' s)
  | Done d' => (Complete, d', [], s)
  | Bad d' => (Malformed, d', [], c :: s)
  end.
Proof. cbn [feed]. destruct (read_byte d c); [|done..]. by destruct (feed d0 s) as [[[? ?] ?] ?]. Qed.

(** The frame has decoded [out] and has yet to read [s]. *)
Definition rep (f : frame) (out s : list Z) : Prop :=
  take (dst f) (buf f) = out /\ drop (src f) (buf f) = s /\ length out = dst f /\
  (dst f <= src f <= length (buf f))%nat.

Lemma rep_length f out s : rep f out s -> length s = (length (buf f) - src f)%nat.
Proof. intros (_ & <- & _). apply length_drop. Qed.

Lemma rep_src f out x s : rep f out (x ++ s) -> rep (set_src (src f + length x) f) out s.
Proof.
  intros H. pose proof (rep_length _ _ _ H) as Hl. rewrite length_app in Hl.
  destruct H as (H1 & H2 & H3 & H4). unfold rep, set_src. cbn [dst src buf].
  rewrite <- drop_drop, H2, drop_app_length. repeat split; auto; lia.
Qed.

Lemma rep_dec f out s d : rep f out s -> rep (set_dec d f) out s.
Proof. done. Qed.

(** Moving [n] bytes to the decoded ones. *)
Lemma rep_move f out s n d : rep f out s -> (n <= length s)%nat ->
  rep (mk_frame d (if (dst f =? src f)%nat then buf f else memmove (buf f) (dst f) (src f) n)
    (dst f + n) (src f + n)) (out ++ take n s) (drop n s).
Proof.
  intros H Hn. pose proof (rep_length _ _ _ H) as Hl. destruct H as (H1 & H2 & H3 & H4 & H5).
  unfold rep. cbn [dst src buf dec]. rewrite length_app, length_take, Nat.min_l by lia.
  destruct (Nat.eqb_spec (dst f) (src f)) as [E|E].
  - rewrite E in *. split_and!; try lia; [|by rewrite <- drop_drop, H2].
    rewrite <- (take_drop (src f) (buf f)) at 1. rewrite H1, H2.
    by rewrite take_app_add' by done.
  - unfold memmove. rewrite H1, H2. split_and!; try lia.
    + rewrite app_assoc. apply take_app_length'. rewrite length_app, length_take. lia.
    + rewrite app_assoc, drop_app_ge by (rewrite length_app, length_take; lia).
      rewrite length_app, length_take, Nat.min_l, drop_drop by lia.
      rewrite <- H2, drop_drop. f_equal. lia.
    + rewrite !length_app, length_take, length_drop. lia.
Qed.

(** What a case does, against the automaton: it ends the run, or goes on from a later
    frame in the state [nxt]. *)
Definition sim (nxt : option chunked_state) (f : frame) (out s : list Z) (r : control * frame) : Prop :=
  let goes_on f' strict := exists o s', feed (dec f) s = pre o (feed (dec f') s') /\
    rep f' (out ++ o) s' /\ decoder_ok (dec f') /\ length (buf f') = length (buf f) /\
    (length s' + strict <= length s)%nat in
  match r with
  | (GotoExit ret, f') => exists p o rest, feed (dec f) s = (p, dec f', o, rest) /\
      rep f' (out ++ o) rest /\ length (buf f') = length (buf f) /\
      ((p = More /\ ret = -2) \/ (p = Malformed /\ ret = -1))
  | (GotoComplete, f') => exists o rest, feed (dec f) s = (Complete, dec f', o, rest) /\
      rep f' (out ++ o) rest /\ length (buf f') = length (buf f)
  | (Fallthru, f') => goes_on f' 0%nat /\ nxt = Some (state (dec f'))
  | (Break, f') => goes_on f' 1%nat
  end.

Lemma sim_fall nxt st f out s r next :
  sim (Some st) f out s r ->
  (forall f' out' s', rep f' out' s' -> decoder_ok (dec f') -> state (dec f') = st ->
     sim nxt f' out' s' (next f')) ->
  sim nxt f out s (fall r next).
Proof.
  intros Hr Hn. destruct r as [[ret| | |] f']; try done. unfold fall.
  destruct Hr as [(o & s' & Hf & Hrep & Hok & Hb & Hl) [= Hst]].
  specialize (Hn f' (out ++ o) s' Hrep Hok (eq_sym Hst)).
  destruct (next f') as [[ret| | |] f'']; simpl in Hn |- *.
  - destruct Hn as (p & o' & rest & Hf' & Hrep' & Hb' & Hp). exists p, (o ++ o'), rest.
    rewrite Hf, Hf', app_assoc. split_and!; [done..|congruence|done].
  - destruct Hn as (o' & rest & Hf' & Hrep' & Hb'). exists (o ++ o'), rest.
    rewrite Hf, Hf', app_assoc. split_and!; [done..|congruence].
  - destruct Hn as [(o' & s'' & Hf' & Hrep' & Hok' & Hb' & Hl') ?]. split; [|done].
    exists (o ++ o'), s''. rewrite Hf, Hf', pre_pre, app_assoc. split_and!; [done..|congruence|lia].
  - destruct Hn as (o' & s'' & Hf' & Hrep' & Hok' & Hb' & Hl').
    exists (o ++ o'), s''. rewrite Hf, Hf', pre_pre, app_assoc. split_and!; [done..|congruence|lia].
Qed.

(** ** The loops *)

Lemma size_loop_feed d n s : decoder_ok d -> state d = CHUNKED_IN_CHUNK_SIZE ->
  match size_loop d n s with
  | (GotoExit ret, d', n') => exists p x rest, s = x ++ rest /\ n' = (n + length x)%nat /\
      feed d s = (p, d', [], rest) /\ ((p = More /\ ret = -2) \/ (p = Malformed /\ ret = -1))
  | (Fallthru, d', n') => exists x c s', s = x ++ c :: s' /\ n' = (n + length x)%nat /\
      feed d s = feed (set_state CHUNKED_IN_CHUNK_EXT (set_hex_count 0 d')) (c :: s') /\
      decoder_ok (set_state CHUNKED_IN_CHUNK_EXT (set_hex_count 0 d'))
  | _ => False
  end.
Proof.
  revert d n. induction s as [|c s IH]; intros d n Hok Hst; cbn [size_loop].
  - exists More, [], []. split_and!; [done|simpl; lia|done|by left].
  - pose proof (decode_hex_range (schar c)) as Hv.
    assert (Hread := feed_cons d c s). unfold read_byte in Hread. rewrite Hst in Hread.
    cbv zeta in Hread. set (v := decode_hex (schar c)) in *.
    destruct (Z.eqb_spec v (-1)) as [E|E].
    { destruct (Z.eqb_spec (hex_count d) 0) as [Eh|Eh].
      - exists Malformed, [], (c :: s). split_and!; [done|simpl; lia|done|by right].
      - exists [], c, s. split_and!; [done|simpl; lia| |].
        + rewrite Hread, feed_cons. by cbn [read_byte state set_state].
        + unfold decoder_ok in *. rewrite Hst in Hok.
          cbn [state set_state hex_count set_hex_count bytes_left_in_chunk].
          assert (16 ^ hex_count d <= 16 ^ 16) by (apply Z.pow_le_mono_r; lia).
          split; [done|]. change (2 ^ 64) with (16 ^ 16). lia. }
    destruct (Z.eqb_spec (hex_count d) 16) as [Eh|Eh].
    { exists Malformed, [], (c :: s). split_and!; [done|simpl; lia|done|by right]. }
    unfold decoder_ok in Hok. rewrite Hst in Hok. destruct Hok as [Hh Hl].
    destruct (push_digit (bytes_left_in_chunk d) (hex_count d) v) as [Hd Hw]; [lia..|].
    rewrite Hw. rewrite Hread, pre_nil.
    set (d1 := set_hex_count _ _) in *. specialize (IH d1 (S n)).
    assert (decoder_ok d1) as Hok1.
    { unfold decoder_ok, d1. cbn [state set_hex_count set_left hex_count bytes_left_in_chunk].
      rewrite Hst. lia. }
    specialize (IH Hok1 Hst).
    destruct (size_loop d1 (S n) s) as [[[ret| | |] d'] n'].
    + destruct IH as (p & x & rest & -> & -> & Hf & Hp). exists p, (c :: x), rest.
      split_and!; [done|simpl; lia|done|done].
    + done.
    + destruct IH as (x & c' & s' & -> & -> & Hf & Hok'). exists (c :: x), c', s'.
      split_and!; [done|simpl; lia|done|done].
    + done.
Qed.

Lemma find_loop_spec stop n s :
  match find_loop stop n s with
  | (true, n') => exists x c s', s = x ++ c :: s' /\ n' = (n + length x)%nat /\
      Forall (fun y => stop y = false) x /\ stop c = true
  | (false, n') => n' = (n + length s)%nat /\ Forall (fun y => stop y = false) s
  end.
Proof.
  revert n. induction s as [|c s IH]; intros n; cbn [find_loop].
  - split; [simpl; lia|constructor].
  - destruct (stop c) eqn:E; [exists [], c, s; split_and!; [done|simpl; lia|constructor|done]|].
    specialize (IH (S n)). destruct (find_loop stop (S n) s) as [[|] n'].
    + destruct IH as (x & c' & s' & -> & -> & Hx & Hc). exists (c :: x), c', s'.
      split_and!; [done|simpl; lia|by constructor|done].
    + destruct IH as [-> Hs]. split; [simpl; lia|by constructor].
Qed.

(** Bytes that leave the decoder as it is. *)
Lemma feed_skip d x s : Forall (fun c => read_byte d c = Next d []) x ->
  feed d (x ++ s) = feed d s.
Proof.
  induction 1 as [|c x Hc _ IH]; [done|]. cbn [app]. by rewrite feed_cons, Hc, pre_nil.
Qed.

Lemma feed_data d s : state d = CHUNKED_IN_CHUNK_DATA -> 0 < bytes_left_in_chunk d ->
  feed d s =
  if Z.of_nat (length s) <? bytes_left_in_chunk d
  then (More, set_left (bytes_left_in_chunk d - Z.of_nat (length s)) d, s, [])
  else pre (take (Z.to_nat (bytes_left_in_chunk d)) s)
         (feed (set_state CHUNKED_IN_CHUNK_CRLF (set_left 0 d))
            (drop (Z.to_nat (bytes_left_in_chunk d)) s)).
Proof.
  intros Hst. revert d Hst. induction s as [|c s IH]; intros d Hst Hl.
  - cbn [length]. destruct (Z.ltb_spec (Z.of_nat 0) (bytes_left_in_chunk d)); [|lia].
    simpl. rewrite Z.sub_0_r. by destruct d.
  - rewrite feed_cons. unfold read_byte. rewrite Hst. cbv zeta.
    destruct (Z.eqb_spec (bytes_left_in_chunk d) 1) as [E|E].
    + rewrite E. cbn [length]. destruct (Z.ltb_spec (Z.of_nat (S (length s))) 1); [lia|].
      change (Z.to_nat 1) with 1%nat. cbn [take drop]. by rewrite drop_0, take_0.
    + rewrite IH by (done || cbn [bytes_left_in_chunk set_left]; lia).
      cbn [bytes_left_in_chunk set_left length].
      destruct (Z.ltb_spec (Z.of_nat (length s)) (bytes_left_in_chunk d - 1)),
        (Z.ltb_spec (Z.of_nat (S (length s))) (bytes_left_in_chunk d)); try lia.
      * replace (bytes_left_in_chunk d - 1 - Z.of_nat (length s))
          with (bytes_left_in_chunk d - Z.of_nat (S (length s))) by lia. done.
      * replace (Z.to_nat (bytes_left_in_chunk d)) with (S (Z.to_nat (bytes_left_in_chunk d - 1))) by lia.
        cbn [take drop]. by rewrite pre_pre.
Qed.

(** ** The cases *)

Section cases.
Context (f : frame) (out s : list Z) (Hrep : rep f out s) (Hok : decoder_ok (dec f)).

Lemma rep_here : drop (src f) (buf f) = s.
Proof. apply Hrep. Qed.

Lemma rep_src_exact x s' n : s = x ++ s' -> n = (src f + length x)%nat -> rep (set_src n f) out s'.
Proof. intros -> ->. by apply rep_src. Qed.

Lemma rep_nth x c s' n : s = x ++ c :: s' -> n = (src f + length x)%nat -> nth n (buf f) 0 = c.
Proof.
  intros E ->. rewrite <- (take_drop (src f) (buf f)), rep_here, E.
  pose proof Hrep as (_ & _ & _ & Hl). rewrite app_nth2 by (rewrite length_take; lia).
  rewrite length_take, Nat.min_l by lia. replace (_ - _)%nat with (length x) by lia.
  apply nth_middle.
Qed.

Lemma case_size_sim : state (dec f) = CHUNKED_IN_CHUNK_SIZE ->
  sim (Some CHUNKED_IN_CHUNK_EXT) f out s (case_size f).
Proof.
  intros Hst. unfold case_size. rewrite rep_here.
  pose proof (size_loop_feed (dec f) (src f) s Hok Hst) as H.
  destruct (size_loop (dec f) (src f) s) as [[[ret| | |] d] n]; try done.
  - destruct H as (p & x & rest & E & En & Hf & Hp). exists p, [], rest.
    rewrite app_nil_r. split_and!; [done| |done|done]. by eapply (rep_dec (set_src _ _)), rep_src_exact.
  - destruct H as (x & c & s' & E & En & Hf & Hok'). split; [|done].
    exists [], (c :: s'). rewrite app_nil_r, pre_nil. split_and!; [done| | |done|].
    + by eapply (rep_dec (set_src _ _)), rep_src_exact.
    + done.
    + rewrite E, length_app. simpl. lia.
Qed.

(** A loop over bytes that the automaton skips in the state of the frame. *)
Lemma find_sim stop nxt g :
  (forall c, stop c = false -> read_byte (dec f) c = Next (dec f) []) ->
  (forall n c s', stop c = true -> feed (dec f) s = feed (dec f) (c :: s') ->
     rep (set_src n f) out (c :: s') -> rep (set_src (S n) f) out s' -> nth n (buf f) 0 = c ->
     (length s' < length s)%nat -> sim nxt f out s (g n)) ->
  sim nxt f out s (let '(found, n) := find_loop stop (src f) (drop (src f) (buf f)) in
    if negb found then (GotoExit (-2), set_src n f) else g n).
Proof.
  intros Hskip Hg. rewrite rep_here. pose proof (find_loop_spec stop (src f) s) as H.
  destruct (find_loop stop (src f) s) as [[|] n]; cbn [negb].
  - destruct H as (x & c & s' & E & -> & Hx & Hc). apply (Hg _ c s').
    + done.
    + rewrite E. apply feed_skip. eapply Forall_impl; [apply Hskip|exact Hx].
    + by apply (rep_src_exact x).
    + apply (rep_src_exact (x ++ [c])); [by rewrite <- app_assoc|rewrite length_app; simpl; lia].
    + by eapply rep_nth.
    + rewrite E, length_app. simpl. lia.
  - destruct H as [En Hs]. exists More, [], []. rewrite app_nil_r. split_and!.
    + rewrite <- (app_nil_r s). apply feed_skip. eapply Forall_impl; [apply Hskip|exact Hs].
    + apply (rep_src_exact s []); [by rewrite app_nil_r|done].
    + done.
    + by left.
Qed.

(** A byte that ends a loop and is consumed. *)
Lemma goes_on_sim nxt d' n c s' strict :
  feed (dec f) s = feed (dec f) (c :: s') -> rep (set_src (S n) f) out s' ->
  (length s' < length s)%nat -> read_byte (dec f) c = Next d' [] -> decoder_ok d' ->
  (strict = Fallthru /\ nxt = Some (state d')) \/ strict = Break ->
  sim nxt f out s (strict, set_dec d' (set_src (S n) f)).
Proof.
  intros Hf Hr Hl Hc Hd Hs. rewrite feed_cons, Hc in Hf.
  destruct Hs as [[-> Hn]| ->]; [split; [|done]|];
    (exists [], s'; rewrite app_nil_r; split_and!; [done..|lia]).
Qed.

Lemma case_ext_sim : state (dec f) = CHUNKED_IN_CHUNK_EXT ->
  sim (Some CHUNKED_IN_CHUNK_DATA) f out s (case_ext f).
Proof.
  intros Hst. unfold case_ext. unfold decoder_ok in Hok. rewrite Hst in Hok.
  assert (forall c, read_byte (dec f) c = read_ext (dec f) c) as Hread
    by (intros c; unfold read_byte; by rewrite Hst).
  apply find_sim.
  { intros c Hc. rewrite Hread. unfold read_ext. by rewrite Hc. }
  intros n c s' Hc Hf _ Hr _ Hl. specialize (Hread c). unfold read_ext in Hread. rewrite Hc in Hread.
  cbn [dec set_src]. destruct (Z.eqb_spec (bytes_left_in_chunk (dec f)) 0) as [E|E].
  - destruct (consume_trailer (dec f)).
    + eapply goes_on_sim; try done; [|by right]. split; [apply Hok|exact E].
    + exists [], s'. rewrite app_nil_r. rewrite feed_cons, Hread in Hf. by split_and!.
  - eapply goes_on_sim; try done; [|by left]. unfold decoder_ok.
    cbn [state set_state hex_count bytes_left_in_chunk]. lia.
Qed.

Lemma case_data_sim : state (dec f) = CHUNKED_IN_CHUNK_DATA ->
  sim (Some CHUNKED_IN_CHUNK_CRLF) f out s (case_data f).
Proof.
  intros Hst. unfold case_data. unfold decoder_ok in Hok. rewrite Hst in Hok.
  rewrite <- (rep_length _ _ _ Hrep). pose proof (feed_data (dec f) s Hst) as Hf.
  assert (forall n, length (if (dst f =? src f)%nat then buf f
    else memmove (buf f) (dst f) (src f) n) = length (buf f) \/ (length s < n)%nat) as Hlen.
  { intros n. pose proof (rep_length _ _ _ Hrep). pose proof Hrep as (_ & _ & _ & ?).
    destruct (dst f =? src f)%nat; [by left|]. unfold memmove.
    rewrite !length_app, !length_take, !length_drop. lia. }
  destruct (Z.ltb_spec (Z.of_nat (length s)) (bytes_left_in_chunk (dec f))) as [Hlt|Hge].
  - exists More, s, []. split_and!; [apply Hf; lia | | |by left].
    + pose proof (rep_move f out s (length s) (set_left (bytes_left_in_chunk (dec f) -
        Z.of_nat (length s)) (dec f)) Hrep (le_n _)) as Hm.
      by rewrite take_ge, drop_ge in Hm by lia.
    + cbn [buf]. destruct (Hlen (length s)); [done|lia].
  - cbv zeta. set (n := Z.to_nat (bytes_left_in_chunk (dec f))) in *.
    split; [|done]. exists (take n s), (drop n s). split_and!; [apply Hf; lia | | | |].
    + apply rep_move; [done|lia].
    + split; [apply Hok|done].
    + cbn [buf]. destruct (Hlen n); [done|lia].
    + rewrite length_drop. lia.
Qed.

Lemma case_crlf_sim : state (dec f) = CHUNKED_IN_CHUNK_CRLF -> sim None f out s (case_crlf f).
Proof.
  intros Hst. unfold case_crlf. unfold decoder_ok in Hok. rewrite Hst in Hok.
  apply find_sim.
  { intros c Hc. apply negb_false_iff in Hc. unfold read_byte. by rewrite Hst, Hc. }
  intros n c s' Hc Hf Hr0 Hr Hn Hl. apply negb_true_iff in Hc. rewrite Hn.
  assert (read_byte (dec f) c = if c =? 10 then Next (set_state CHUNKED_IN_CHUNK_SIZE (dec f)) []
    else Bad (dec f)) as Hread by (unfold read_byte; by rewrite Hst, Hc).
  revert Hread. destruct (c =? 10); cbn [negb]; intros Hread.
  - apply (goes_on_sim _ _ n c s'); try done; [|by right].
    unfold decoder_ok. cbn [dec set_dec state set_state hex_count bytes_left_in_chunk]. destruct Hok as [-> ->].
    simpl. lia.
  - exists Malformed, [], (c :: s'). rewrite app_nil_r. rewrite feed_cons, Hread in Hf.
    split_and!; [done..|by right].
Qed.

Lemma case_trailers_head_sim : state (dec f) = CHUNKED_IN_TRAILERS_LINE_HEAD ->
  sim (Some CHUNKED_IN_TRAILERS_LINE_MIDDLE) f out s (case_trailers_head f).
Proof.
  intros Hst. unfold case_trailers_head. unfold decoder_ok in Hok. rewrite Hst in Hok.
  apply find_sim.
  { intros c Hc. apply negb_false_iff in Hc. unfold read_byte. by rewrite Hst, Hc. }
  intros n c s' Hc Hf Hr0 Hr Hn Hl. apply negb_true_iff in Hc. cbv zeta. cbn [buf set_src]. rewrite Hn.
  assert (read_byte (dec f) c = if c =? 10 then Done (dec f)
    else Next (set_state CHUNKED_IN_TRAILERS_LINE_MIDDLE (dec f)) []) as Hread
    by (unfold read_byte; by rewrite Hst, Hc).
  revert Hread. destruct (c =? 10); intros Hread.
  - exists [], s'. rewrite app_nil_r. rewrite feed_cons, Hread in Hf. by split_and!.
  - apply (goes_on_sim _ _ n c s'); try done. by left.
Qed.

Lemma case_trailers_middle_sim : state (dec f) = CHUNKED_IN_TRAILERS_LINE_MIDDLE ->
  sim None f out s (case_trailers_middle f).
Proof.
  intros Hst. unfold case_trailers_middle. unfold decoder_ok in Hok. rewrite Hst in Hok.
  apply find_sim.
  { intros c Hc. unfold read_byte. unfold is_lf in Hc. by rewrite Hst, Hc. }
  intros n c s' Hc Hf _ Hr _ Hl. apply (goes_on_sim _ _ n c s'); try done; [|by right].
  unfold read_byte. unfold is_lf in Hc. by rewrite Hst, Hc.
Qed.

End cases.

Lemma switch_sim f out s : rep f out s -> decoder_ok (dec f) -> sim None f out s (switch f).
Proof.
  intros Hrep Hok. unfold switch. destruct (state (dec f)) eqn:Hst;
    repeat first
      [ eapply sim_fall;
        [first [by apply case_size_sim | by apply case_ext_sim | by apply case_data_sim
               | by apply case_trailers_head_sim] | intros; cbv beta]
      | by apply case_crlf_sim | by apply case_trailers_middle_sim ].
Qed.

Lemma decode_loop_sim fuel f out s :
  rep f out s -> decoder_ok (dec f) -> (length s < fuel)%nat ->
  exists p o rest f', feed (dec f) s = (p, dec f', o, rest) /\ rep f' (out ++ o) rest /\
    length (buf f') = length (buf f) /\
    decode_loop fuel f =
      Some (match p with More => -2 | Malformed => -1 | Complete => Z.of_nat (length rest) end, f').
Proof.
  revert f out s. induction fuel as [|fuel IH]; intros f out s Hrep Hok Hfuel; [lia|].
  pose proof (switch_sim f out s Hrep Hok) as Hsim. cbn [decode_loop].
  destruct (switch f) as [[ret| | |] f'].
  - destruct Hsim as (p & o & rest & Hf & Hrep' & Hb & Hp). exists p, o, rest, f'.
    split_and!; [done..|]. by destruct Hp as [[-> ->]|[-> ->]].
  - destruct Hsim as (o & rest & Hf & Hrep' & Hb). exists Complete, o, rest, f'.
    split_and!; [done..|]. by rewrite (rep_length _ _ _ Hrep').
  - by destruct Hsim.
  - destruct Hsim as (o & s' & Hf & Hrep' & Hok' & Hb & Hl).
    destruct (IH f' (out ++ o) s' Hrep' Hok') as (p & o' & rest & f'' & Hf' & Hrep'' & Hb' & Hd); [lia|].
    exists p, (o ++ o'), rest, f''. rewrite Hf, Hf', app_assoc. split_and!; [done..|congruence|done].
Qed.

Lemma read_ext_ok d c : state d = CHUNKED_IN_CHUNK_EXT ->
  hex_count d = 0 /\ 0 <= bytes_left_in_chunk d < 2 ^ 64 ->
  match read_ext d c with Next d' _ | Done d' | Bad d' => decoder_ok d' end.
Proof.
  intros Hst Hok. unfold read_ext.
  destruct (is_lf c), (Z.eqb_spec (bytes_left_in_chunk d) 0), (consume_trailer d);
    unfold decoder_ok; cbn [state set_state hex_count bytes_left_in_chunk]; rewrite ?Hst; lia.
Qed.

Lemma read_byte_ok d c : decoder_ok d ->
  match read_byte d c with Next d' _ | Done d' | Bad d' => decoder_ok d' end.
Proof.
  intros Hok. unfold decoder_ok in Hok. unfold read_byte.
  destruct (state d) eqn:Hst.
  - cbv zeta. pose proof (decode_hex_range (schar c)) as Hv. set (v := decode_hex (schar c)) in *.
    destruct (Z.eqb_spec v (-1)); [destruct (Z.eqb_spec (hex_count d) 0)|
      destruct (Z.eqb_spec (hex_count d) 16)].
    + unfold decoder_ok. by rewrite Hst.
    + apply read_ext_ok; [done|]. split; [done|].
      assert (16 ^ hex_count d <= 16 ^ 16) by (apply Z.pow_le_mono_r; lia).
      change (2 ^ 64) with (16 ^ 16). cbn [set_state set_hex_count bytes_left_in_chunk]. lia.
    + unfold decoder_ok. by rewrite Hst.
    + unfold decoder_ok. cbn [state set_hex_count set_left hex_count bytes_left_in_chunk]. rewrite Hst.
      destruct (push_digit (bytes_left_in_chunk d) (hex_count d) v); lia.
  - by apply read_ext_ok.
  - unfold decoder_ok. destruct (Z.eqb_spec (bytes_left_in_chunk d) 1) as [E|E];
      cbn [state set_state set_left hex_count bytes_left_in_chunk]; rewrite ?Hst; lia.
  - destruct (c =? 13); [|destruct (c =? 10)]; unfold decoder_ok;
      cbn [state set_state hex_count bytes_left_in_chunk]; rewrite ?Hst; try done.
    destruct Hok as [-> ->]. simpl. lia.
  - destruct (c =? 13); [|destruct (c =? 10)]; unfold decoder_ok;
      cbn [state set_state hex_count bytes_left_in_chunk]; rewrite ?Hst; done.
  - destruct (c =? 10); unfold decoder_ok;
      cbn [state set_state hex_count bytes_left_in_chunk]; rewrite ?Hst; done.
Qed.

Lemma feed_ok d s p d' o rest : decoder_ok d -> feed d s = (p, d', o, rest) -> decoder_ok d'.
Proof.
  revert d o. induction s as [|c s IH]; intros d o Hok.
  - by intros [= _ <- _ _].
  - rewrite feed_cons. pose proof (read_byte_ok d c Hok).
    destruct (read_byte d c) as [d1 o1|d1|d1]; [|by intros [= _ <- _ _]..].
    destruct (feed d1 s) as [[[p1 d2] o2] r2] eqn:E. intros [= -> <- _ ->]. by eapply IH.
Qed.

Lemma decode_chunked_feed d b : decoder_ok d ->
  exists p d' out rest b', feed d b = (p, d', out, rest) /\ decoder_ok d' /\
    phr_decode_chunked d b =
      Some (match p with More => -2 | Malformed => -1 | Complete => Z.of_nat (length rest) end,
            d', b', length out) /\
    length b' = length b /\ take (length out + length rest) b' = out ++ rest.
Proof.
  intros Hok.
  destruct (decode_loop_sim (S (length b)) (mk_frame d b 0 0) [] b) as (p & o & rest & f & Hf & Hrep & Hb & Hd).
  { unfold rep. cbn. split_and!; try done; lia. }
  { done. }
  { lia. }
  cbn [dec buf app] in *.
  pose proof (rep_move f o rest (length rest) (dec f) Hrep (le_n _)) as Hm.
  pose proof Hrep as (_ & _ & Ho & _).
  exists p, (dec f), o, rest, (if (dst f =? src f)%nat then buf f
    else memmove (buf f) (dst f) (src f) (length rest)).
  split_and!; [done|by eapply feed_ok| | |].
  - unfold phr_decode_chunked. rewrite Hd, Ho. by rewrite (rep_length _ _ _ Hrep).
  - rewrite <- Hb. pose proof (rep_length _ _ _ Hrep) as Hl. pose proof Hrep as (_ & _ & _ & ?).
    destruct (dst f =? src f)%nat; [done|]. unfold memmove.
    rewrite !length_app, !length_take, !length_drop. lia.
  - rewrite Ho. destruct Hm as (Hm & _). cbn [dst buf] in Hm. rewrite Hm.
    by rewrite take_ge by lia.
Qed.

(** C3: [phr_decode_chunked] refines the automaton: for any decoder that occurs and any
    bytes, the loop ends, the return value says how reading them one by one ends (-2
    incomplete, -1 malformed, or the number of bytes left), the decoder is the automaton's,
    [*_bufsz] is the number of decoded bytes, and the buffer holds the decoded bytes
    followed by the undecoded ones; the size of a chunk never wraps. *)
Theorem phr_decode_chunked_feed d b : decoder_ok d ->
  exists p d' out rest b', feed d b = (p, d', out, rest) /\ decoder_ok d' /\
    phr_decode_chunked d b =
      Some (match p with More => -2 | Malformed => -1 | Complete => Z.of_nat (length rest) end,
            d', b', length out) /\
    length b' = length b /\ take (length out + length rest) b' = out ++ rest.
Proof. apply decode_chunked_feed. Qed.

(** The witness: a chunk and the start of the next one. *)
Lemma phr_decode_chunked_feed_witness :
  exists p d' out rest b',
    feed (decoder_zero true) [51; 13; 10; 97; 98; 99; 13; 10; 49] = (p, d', out, rest) /\
    decoder_ok d' /\
    phr_decode_chunked (decoder_zero true) [51; 13; 10; 97; 98; 99; 13; 10; 49] =
      Some (match p with More => -2 | Malformed => -1 | Complete => Z.of_nat (length rest) end,
            d', b', length out) /\
    length b' = 9%nat /\ take (length out + length rest) b' = out ++ rest.
Proof.
  apply (phr_decode_chunked_feed (decoder_zero true)).
  split; split; try discriminate; reflexivity.
Defined.

(** ** Cutting the input *)

Lemma feed_app d s1 s2 :
  feed d (s1 ++ s2) =
  let '(p, d', out, rest) := feed d s1 in
  match p with More => pre out (feed d' s2) | _ => (p, d', out, rest ++ s2) end.
Proof.
  revert d. induction s1 as [|c s1 IH]; intros d.
  - simpl. by rewrite pre_nil.
  - cbn [app]. rewrite !feed_cons. destruct (read_byte d c) as [d1 o1|d1|d1]; [|done..].
    rewrite IH. destruct (feed d1 s1) as [[[[| |] d2] o2] r2]; [|done..].
    cbn [pre]. apply pre_pre.
Qed.

(** Decoding is incremental: when a call returns -2, the next call on the bytes that
    follow continues it; together they return what one call on all the bytes returns, with
    the same decoder, and the decoded bytes are those of the two calls, one after the
    other. *)
Theorem phr_decode_chunked_split d b1 b2 d1 b1' n1 :
  decoder_ok d -> phr_decode_chunked d b1 = Some (-2, d1, b1', n1) ->
  exists ret d2 b2' n2 b', phr_decode_chunked d1 b2 = Some (ret, d2, b2', n2) /\
    phr_decode_chunked d (b1 ++ b2) = Some (ret, d2, b', (n1 + n2)%nat) /\
    take (n1 + n2) b' = take n1 b1' ++ take n2 b2'.
Proof.
  intros Hok E1.
  destruct (decode_chunked_feed d b1 Hok) as (p & d1' & o1 & r1 & b1'' & Hf1 & Hok1 & Hd1 & _ & Ht1).
  rewrite Hd1 in E1. injection E1 as Hp -> -> <-.
  destruct p; [|lia|done].
  assert (r1 = []) as ->.
  { clear - Hf1. revert d o1 Hf1. induction b1 as [|c b1 IH]; intros d o1 Hf1.
    - by injection Hf1.
    - rewrite feed_cons in Hf1. destruct (read_byte d c) as [d2 o2|?|?]; [|done..].
      destruct (feed d2 b1) as [[[p3 d3] o3] r3] eqn:E. injection Hf1 as -> -> _ ->. by eapply IH. }
  rewrite app_nil_r, Nat.add_0_r in Ht1.
  destruct (decode_chunked_feed d1 b2 Hok1) as (p2 & d2 & o2 & r2 & b2' & Hf2 & _ & Hd2 & _ & Ht2).
  destruct (decode_chunked_feed d (b1 ++ b2) Hok) as (p & d' & o & r & b' & Hf & _ & Hd & _ & Ht).
  rewrite feed_app, Hf1, Hf2 in Hf. cbn [pre] in Hf. injection Hf as <- <- <- <-.
  rewrite length_app in *.
  do 5 eexists. split; [exact Hd2|]. split; [exact Hd|].
  assert (forall (x y l : list Z), take (length x + length y) l = x ++ y -> take (length x) l = x) as Hpre.
  { intros x y l E. rewrite <- (take_app_length x y) at 2. rewrite <- E, take_take. f_equal. lia. }
  rewrite Ht1, (Hpre o2 r2 b2' Ht2), <- length_app. apply (Hpre (o1 ++ o2) r2).
  by rewrite length_app.
Qed.

(** The witness: a message cut inside the size of its second chunk. *)
Lemma phr_decode_chunked_split_witness :
  exists ret d2 b2' n2 b',
    phr_decode_chunked (mk_decoder 1 false 1 CHUNKED_IN_CHUNK_SIZE) [48; 10; 65; 66] =
      Some (ret, d2, b2', n2) /\
    phr_decode_chunked (decoder_zero false) ([50; 10; 88; 89; 10; 49] ++ [48; 10; 65; 66]) =
      Some (ret, d2, b', (2 + n2)%nat) /\
    take (2 + n2) b' = take 2 [88; 89; 88; 89; 10; 49] ++ take n2 b2'.
Proof.
  apply (phr_decode_chunked_split (decoder_zero false) [50; 10; 88; 89; 10; 49] _ _
    [88; 89; 88; 89; 10; 49] 2).
  - split; split; try discriminate; reflexivity.
  - reflexivity.
Defined.

(** ** Encoding *)

Definition is_hex (c : Z) : bool := negb (decode_hex (schar c) =? -1).
Definition hex_value (acc : Z) (x : list Z) : Z :=
  fold_left (fun a c => a * 16 + decode_hex (schar c)) x acc.

(** The size line of a chunk: digits, an extension with what else is in front of LF. *)
Record size_line := mk_size_line { z_hex : list Z; z_ext : list Z }.
Definition size_bytes (z : size_line) : list Z := z_hex z ++ z_ext z ++ [10].
Definition size_ok (z : size_line) (n : Z) : Prop :=
  (0 < length (z_hex z) <= 16)%nat /\ Forall (fun c => is_hex c = true) (z_hex z) /\
  hex_value 0 (z_hex z) = n /\ Forall (fun c => is_lf c = false) (z_ext z) /\
  match z_ext z with c :: _ => is_hex c = false | [] => True end.

Record chunk := mk_chunk { c_size : size_line; c_data : list Z; c_crs : nat }.
Definition chunk_bytes (c : chunk) : list Z :=
  size_bytes (c_size c) ++ c_data c ++ replicate (c_crs c) 13 ++ [10].
Definition chunk_ok (c : chunk) : Prop :=
  c_data c <> [] /\ size_ok (c_size c) (Z.of_nat (length (c_data c))).

(** A trailer line: it does not start with LF, nor with CR after the leading ones. *)
Record trailer := mk_trailer { t_crs : nat; t_first : Z; t_rest : list Z }.
Definition trailer_bytes (t : trailer) : list Z :=
  replicate (t_crs t) 13 ++ t_first t :: t_rest t ++ [10].
Definition trailer_ok (t : trailer) : Prop :=
  t_first t <> 13 /\ t_first t <> 10 /\ Forall (fun c => is_lf c = false) (t_rest t).

Record message := mk_message {
  m_chunks : list chunk;
  m_last : size_line;
  m_trailers : list trailer;
  m_crs : nat;
}.
Definition message_bytes (trailers : bool) (m : message) : list Z :=
  concat (map chunk_bytes (m_chunks m)) ++ size_bytes (m_last m) ++
  if trailers then concat (map trailer_bytes (m_trailers m)) ++ replicate (m_crs m) 13 ++ [10] else [].
Definition message_ok (m : message) : Prop :=
  Forall chunk_ok (m_chunks m) /\ size_ok (m_last m) 0 /\ Forall trailer_ok (m_trailers m).
Definition message_data (m : message) : list Z := concat (map c_data (m_chunks m)).

Lemma feed_hex x d s : state d = CHUNKED_IN_CHUNK_SIZE -> Forall (fun c => is_hex c = true) x ->
  hex_count d + Z.of_nat (length x) <= 16 ->
  feed d (x ++ s) = feed (set_hex_count (hex_count d + Z.of_nat (length x))
                      (set_left (hex_value (bytes_left_in_chunk d) x) d)) s.
Proof.
  intros Hst Hx. revert d Hst. induction Hx as [|c x Hc _ IH]; intros d Hst Hlen.
  - simpl. rewrite Z.add_0_r. by destruct d.
  - cbn [app]. rewrite feed_cons. unfold read_byte. rewrite Hst. cbv zeta.
    unfold is_hex in Hc. apply negb_true_iff in Hc. rewrite Hc. cbn [length] in Hlen.
    destruct (Z.eqb_spec (hex_count d) 16); [lia|]. rewrite pre_nil.
    rewrite IH; [|done|cbn [hex_count set_hex_count]; lia].
    unfold hex_value, set_hex_count, set_left.
    cbn [fold_left bytes_left_in_chunk hex_count consume_trailer state length].
    by replace (hex_count d + 1 + Z.of_nat (length x)) with (hex_count d + Z.of_nat (S (length x))) by lia.
Qed.

(** After a size line: the data of the chunk, the trailers, or the end. *)
Definition after_size (d : decoder) (n : Z) : decoder :=
  mk_decoder n (consume_trailer d) 0 CHUNKED_IN_CHUNK_EXT.

Lemma feed_size z n t s : size_ok z n ->
  feed (decoder_zero t) (size_bytes z ++ s) =
  match read_ext (after_size (decoder_zero t) n) 10 with
  | Next d' o => pre o (feed d' s)
  | Done d' => (Complete, d', [], s)
  | Bad d' => (Malformed, d', [], 10 :: s)
  end.
Proof.
  intros (Hl & Hx & Hn & He & Hhead). unfold size_bytes. rewrite <- !app_assoc.
  rewrite feed_hex; [|done|done|cbn [decoder_zero hex_count]; lia].
  cbn [bytes_left_in_chunk decoder_zero]. rewrite Hn.
  set (d1 := set_hex_count _ _). set (e := z_ext z ++ [10] ++ s).
  assert (feed d1 e = feed (after_size (decoder_zero t) n) e) as ->.
  { assert (exists c s', e = c :: s' /\ is_hex c = false) as (c & s' & -> & Hc).
    { unfold e. destruct (z_ext z) as [|c s']; [by exists 10, s|by eauto]. }
    rewrite !feed_cons. unfold read_byte. cbn [state after_size].
    change (state d1) with CHUNKED_IN_CHUNK_SIZE. cbv iota zeta.
    unfold is_hex in Hc. apply negb_false_iff in Hc. rewrite Hc.
    destruct (Z.eqb_spec (hex_count d1) 0) as [E0|_]; [|done].
    unfold d1 in E0. cbn [hex_count set_hex_count decoder_zero] in E0. lia. }
  unfold e. rewrite feed_skip; [exact (feed_cons (after_size (decoder_zero t) n) 10 s)|].
  eapply Forall_impl; [|exact He]. intros c Hc. unfold read_byte, read_ext.
  cbn [state after_size]. by rewrite Hc.
Qed.

Lemma feed_chunk c t s : chunk_ok c ->
  feed (decoder_zero t) (chunk_bytes c ++ s) = pre (c_data c) (feed (decoder_zero t) s).
Proof.
  intros (Hne & Hz). unfold chunk_bytes. rewrite <- !app_assoc, (feed_size _ _ _ _ Hz).
  assert (0 < Z.of_nat (length (c_data c))) as Hpos by (destruct (c_data c); [done|simpl; lia]).
  unfold read_ext, after_size. cbn [is_lf Z.eqb Pos.eqb bytes_left_in_chunk].
  destruct (Z.eqb_spec (Z.of_nat (length (c_data c))) 0); [lia|]. rewrite pre_nil.
  rewrite feed_data by done. cbn [bytes_left_in_chunk set_state].
  rewrite length_app, Nat2Z.id.
  destruct (Z.ltb_spec (Z.of_nat (length (c_data c) + length (replicate (c_crs c) 13 ++ [10] ++ s)))
    (Z.of_nat (length (c_data c)))); [lia|].
  rewrite take_app_length, drop_app_length. f_equal. rewrite feed_skip.
  - cbn [app]. rewrite feed_cons. unfold read_byte. cbn [state set_state Z.eqb Pos.eqb].
    by rewrite pre_nil.
  - apply Forall_forall. intros c' Hc'%list_elem_of_In%elem_of_replicate_inv. by subst.
Qed.

Lemma feed_trailers d ts n s : state d = CHUNKED_IN_TRAILERS_LINE_HEAD -> Forall trailer_ok ts ->
  feed d (concat (map trailer_bytes ts) ++ replicate n 13 ++ [10] ++ s) = (Complete, d, [], s).
Proof.
  intros Hst Hts. assert (forall k s', feed d (replicate k 13 ++ s') = feed d s') as Hcr.
  { intros k s'. apply feed_skip, Forall_forall.
    intros c Hc%list_elem_of_In%elem_of_replicate_inv. subst. unfold read_byte. by rewrite Hst. }
  induction Hts as [|[k c r] ts (H13 & H10 & Hr) _ IH]; cbn [map concat app].
  - rewrite Hcr. cbn [app]. rewrite feed_cons. unfold read_byte. by rewrite Hst.
  - unfold trailer_bytes at 1. cbn [t_crs t_first t_rest] in *. rewrite <- !app_assoc, Hcr.
    cbn [app]. rewrite feed_cons. unfold read_byte. rewrite Hst.
    destruct (Z.eqb_spec c 13), (Z.eqb_spec c 10); try done. rewrite pre_nil, <- app_assoc, feed_skip.
    + cbn [app]. rewrite feed_cons. unfold read_byte. cbn [state set_state Z.eqb Pos.eqb].
      rewrite pre_nil. replace (set_state _ _) with d by (by destruct d; cbn in Hst; subst).
      apply IH.
    + eapply Forall_impl; [|exact Hr]. intros c' Hc'. unfold read_byte.
      cbn [state set_state]. unfold is_lf in Hc'. by rewrite Hc'.
Qed.

Lemma feed_message t m s : message_ok m ->
  exists d', feed (decoder_zero t) (message_bytes t m ++ s) = (Complete, d', message_data m, s).
Proof.
  intros (Hc & Hz & Ht). unfold message_bytes, message_data. rewrite <- !app_assoc.
  induction Hc as [|c cs Hc _ IH]; cbn [map concat app].
  - rewrite (feed_size _ _ _ _ Hz). unfold read_ext, after_size.
    cbn [is_lf Z.eqb Pos.eqb bytes_left_in_chunk consume_trailer decoder_zero].
    destruct t; [|eauto]. rewrite pre_nil, <- !app_assoc, feed_trailers by done. eauto.
  - destruct IH as [d' IH]. exists d'. rewrite <- app_assoc, feed_chunk by done. by rewrite IH.
Qed.

(** C4: whatever an encoder sends - chunks in any division with any extensions, a last
    chunk, trailer lines if the decoder is to consume them - is decoded: the data of the
    chunks is at the front of the buffer, the bytes behind the message follow it, and the
    return value is their number. A message that has arrived only in part is incomplete. *)
Theorem phr_decode_chunked_roundtrip t m rest : message_ok m ->
  (exists d' b', phr_decode_chunked (decoder_zero t) (message_bytes t m ++ rest) =
     Some (Z.of_nat (length rest), d', b', length (message_data m)) /\
     take (length (message_data m) + length rest) b' = message_data m ++ rest) /\
  (forall n, (n < length (message_bytes t m))%nat ->
     exists d' b' k, phr_decode_chunked (decoder_zero t) (take n (message_bytes t m)) =
       Some (-2, d', b', k)).
Proof.
  intros Hm. assert (decoder_ok (decoder_zero t)) as Hok by (split; split; (lia || done)).
  split.
  - destruct (decode_chunked_feed _ (message_bytes t m ++ rest) Hok)
      as (p & d' & out & r & b' & Hf & _ & Hd & _ & Ht).
    destruct (feed_message t m rest Hm) as [d'' Hf']. rewrite Hf' in Hf.
    injection Hf as <- <- <- <-. by exists d'', b'.
  - intros n Hn. destruct (decode_chunked_feed _ (take n (message_bytes t m)) Hok)
      as (p & d' & out & r & b' & Hf & _ & Hd & _).
    destruct (feed_message t m [] Hm) as [d'' Hf']. rewrite app_nil_r in Hf'.
    rewrite <- (take_drop n (message_bytes t m)), feed_app, Hf in Hf'.
    rewrite Hd. destruct p; [eauto| |done].
    injection Hf' as _ _ Hr. apply (f_equal length) in Hr.
    rewrite length_app, length_drop in Hr. simpl in Hr. lia.
Qed.

(** The witness: two chunks, the first with an extension, and a trailer line. *)
Definition sample_message : message :=
  mk_message [mk_chunk (mk_size_line [48; 51] [59; 13]) [97; 98; 99] 1;
              mk_chunk (mk_size_line [49] []) [100] 0]
    (mk_size_line [48] [13]) [mk_trailer 0 65 [58; 13]] 1.

Lemma phr_decode_chunked_roundtrip_witness :
  (exists d' b', phr_decode_chunked (decoder_zero true) (message_bytes true sample_message ++ [71]) =
     Some (1, d', b', 4%nat) /\ take 5 b' = [97; 98; 99; 100; 71]) /\
  (forall n, (n < length (message_bytes true sample_message))%nat ->
     exists d' b' k, phr_decode_chunked (decoder_zero true)
       (take n (message_bytes true sample_message)) = Some (-2, d', b', k)).
Proof.
  apply (phr_decode_chunked_roundtrip true sample_message [71]).
  repeat split; try discriminate; repeat constructor; try discriminate.
Defined.
