(* ===== verification/HttpParser.v ===== *)
(** * The parser object

    Models [src/include/xynet/http/http_parser.h]: the object keeps the out-parameters of
    [phr_parse_request] and the length of the last buffer between calls. Parsing a request
    that has arrived as a whole gives its method, path, version and headers
    ([http_parser_fresh]); a request that arrives in pieces is accepted only when its
    last header was there in the piece before ([http_parser_resume]), because
    [m_headers_num] is passed back as the capacity of the array. *)

From S2P Require Import Prelude Pico PicoLoops PicoStable PicoGrammar PicoHeaders PicoRequest PicoResume.
Local Open Scope Z_scope.

(** ** The object *)

(** [out] holds [mp_method] to [m_headers_num]. *)
Record http_parser := mk_parser { out : phr_out; last_len : nat }.

Definition http_parser_init : http_parser :=
  mk_parser (mk_out None 0 None 0 0 0 None 0 (replicate 100 header_null) 100) 0.

(** [parse]: [mem] is the memory behind the pointer. *)
Definition http_parse (p : http_parser) (mem : list Z) (len : nat) : outcome Z * http_parser :=
  let '(ret, o) := phr_parse_request mem len (last_len p) (out p) in (ret, mk_parser o len).

(** The overloads for a [string_view] and for a [span] of elements of any size. *)
Definition http_parse_string_view (p : http_parser) (str : list Z) : outcome Z * http_parser :=
  http_parse p str (length str).
Definition http_parse_span (p : http_parser) (sp : list (list Z)) : outcome Z * http_parser :=
  http_parse_string_view p (concat sp).

(** The characters of a [std::string_view]. *)
Definition view (mem : list Z) (ptr : option nat) (len : nat) : list Z :=
  match ptr with Some p => take len (drop p mem) | None => [] end.

Definition parser_method (mem : list Z) (p : http_parser) : list Z :=
  view mem (method (out p)) (method_len (out p)).
Definition parser_path (mem : list Z) (p : http_parser) : list Z :=
  view mem (path (out p)) (path_len (out p)).
Definition parser_version (p : http_parser) : Z := minor_version (out p).

(** [std::views::take_while] *)
Fixpoint take_while {A} (f : A -> bool) (l : list A) : list A :=
  match l with x :: l' => if f x then x :: take_while f l' else [] | [] => [] end.

Definition has_name (h : phr_header) : bool := match name h with Some _ => true | None => false end.

Definition parser_headers (mem : list Z) (p : http_parser) : list (list Z * list Z) :=
  map (fun h => (view mem (name h) (name_len h), view mem (value h) (value_len h)))
    (take_while has_name (headers (out p))).

(** ** What is left in the out-parameters *)

Fixpoint line_headers (p : nat) (ls : list line) : list phr_header :=
  match ls with
  | [] => []
  | l :: ls => line_header p l :: line_headers (p + length (line_bytes l)) ls
  end.

Lemma length_line_headers p ls : length (line_headers p ls) = length ls.
Proof. revert p. induction ls as [|l ls IH]; intros p; simpl; [done|]. by rewrite IH. Qed.

Lemma add_lines_headers p ls o h1 h2 :
  headers o = h1 ++ h2 -> length h1 = num_headers o -> (length ls <= length h2)%nat ->
  add_lines p ls o =
  set_num_headers (num_headers o + length ls)
    (set_headers (h1 ++ line_headers p ls ++ drop (length ls) h2) o).
Proof.
  revert p o h1 h2. induction ls as [|l ls IH]; intros p o h1 h2 Ho Hl Hlen.
  - cbn [add_lines line_headers length app]. rewrite Nat.add_0_r, drop_0, <- Ho. by destruct o.
  - destruct h2 as [|h h2]; [simpl in Hlen; lia|]. cbn [add_lines line_headers length drop].
    rewrite (IH _ _ (h1 ++ [line_header p l]) h2).
    + rewrite <- app_assoc. unfold add_line, set_num_headers, set_headers. cbn.
      by replace (num_headers o + S (length ls))%nat with (S (num_headers o + length ls)) by lia.
    + unfold add_line. cbn [headers set_num_headers set_headers]. rewrite Ho, <- Hl.
      rewrite <- (Nat.add_0_r (length h1)), insert_app_r. by rewrite <- app_assoc.
    + rewrite length_app. unfold add_line. cbn. lia.
    + simpl in Hlen. lia.
Qed.

(** A part of the memory, seen through its position. *)
Lemma view_at mem p x s : at_pos mem p (x ++ s) -> view mem (Some p) (length x) = x.
Proof.
  intros Hp. unfold view. pose proof (at_pos_drop _ _ _ [] Hp) as E. rewrite !app_nil_r in E.
  by rewrite E, take_app_length.
Qed.

(** The lines up to the first continuation line, as the caller should see them. *)
Fixpoint fields (ls : list line) : list (list Z * list Z) :=
  match ls with
  | l :: ls => match l_name l with Some (n, _) => (n, l_value l) :: fields ls | None => [] end
  | [] => []
  end.

Lemma fields_view mem p ls k s : at_pos mem p (lines_bytes ls ++ s) ->
  map (fun h => (view mem (name h) (name_len h), view mem (value h) (value_len h)))
    (take_while has_name (line_headers p ls ++ replicate k header_null)) = fields ls.
Proof.
  revert p. induction ls as [|l ls IH]; intros p Hp.
  - by destruct k.
  - cbn [line_headers app take_while fields]. destruct l as [[[n b]|] v t e]; [|done].
    unfold lines_bytes in *. cbn [map concat] in Hp. rewrite <- app_assoc in Hp.
    unfold has_name, line_header. cbn [name l_name map name_len value value_len l_value].
    f_equal; [|apply IH; by apply at_pos_app in Hp].
    unfold line_bytes in Hp. cbn [l_prefix l_name l_value l_trail l_eol] in Hp.
    rewrite <- !app_assoc in Hp. f_equal.
    + by apply (view_at _ _ _ _ Hp).
    + rewrite app_assoc in Hp. apply at_pos_app in Hp. by apply (view_at _ _ _ _ Hp).
Qed.

Lemma request_parts mem len r s : mem = request_bytes r ++ s -> (length (rq_lines r) <= 100)%nat ->
  let p := mk_parser (request_out r (request_start (out http_parser_init))) len in
  parser_method mem p = rq_method r /\ parser_path mem p = rq_path r /\
  parser_version p = rq_minor r /\ parser_headers mem p = fields (rq_lines r).
Proof.
  intros E Hl p. unfold p, parser_method, parser_path, parser_version, parser_headers, request_out.
  cbn [out]. rewrite (add_lines_headers _ _ _ [] (replicate 100 header_null)) by
    (done || by rewrite length_replicate).
  cbn [method method_len path path_len minor_version headers set_num_headers set_headers
    set_minor_version set_path set_method request_start app].
  rewrite drop_replicate. pose proof (at_pos_start mem) as Hp. rewrite E in Hp at 2.
  unfold request_bytes in Hp. rewrite <- !app_assoc in Hp. apply at_pos_app in Hp.
  cbn [Nat.add] in Hp. split_and!.
  - by apply (view_at _ _ _ _ Hp).
  - do 2 apply at_pos_app in Hp. by apply (view_at _ _ _ _ Hp).
  - done.
  - do 4 apply at_pos_app in Hp. apply at_pos_app in Hp. apply at_pos_app in Hp.
    unfold section_bytes in Hp. rewrite <- app_assoc in Hp. cbn [version_bytes length] in Hp.
    by eapply fields_view.
Qed.

Lemma http_parse_whole r s tail :
  request_ok r -> (length (rq_lines r) <= 100)%nat ->
  Forall is_byte (request_bytes r ++ s) -> guarded tail ->
  Z.of_nat (length (request_bytes r ++ s)) < 2 ^ 31 ->
  let mem := request_bytes r ++ s ++ tail in
  let '(ret, p) := http_parse http_parser_init mem (length (request_bytes r ++ s)) in
  ret = Ret (Z.of_nat (length (request_bytes r))) /\
  parser_method mem p = rq_method r /\ parser_path mem p = rq_path r /\
  parser_version p = rq_minor r /\ parser_headers mem p = fields (rq_lines r).
Proof.
  intros Hr Hl Hb Ht Hlen. cbv zeta. unfold http_parse. cbn [last_len http_parser_init out].
  rewrite phr_parse_request_0, app_assoc.
  erewrite (parse_request_ok _ tail Hb r s); [|done|done|done|].
  2: { cbn [num_headers headers request_start set_num_headers set_minor_version set_path set_method].
       rewrite length_replicate. lia. }
  split.
  - cbn [phr_return]. rewrite to_int_small; [done|]. rewrite length_app in Hlen. lia.
  - rewrite <- app_assoc. by apply (request_parts _ _ r (s ++ tail)).
Qed.

(** C28: a fresh parser given a whole request with at most 100 header lines returns its
    length, and [method], [path], [version] and [headers] are those of the request: the
    headers in order, up to the first continuation line. *)
Theorem http_parser_fresh r s tail :
  request_ok r -> (length (rq_lines r) <= 100)%nat ->
  Forall is_byte (request_bytes r ++ s) -> guarded tail ->
  Z.of_nat (length (request_bytes r ++ s)) < 2 ^ 31 ->
  let mem := request_bytes r ++ s ++ tail in
  let '(ret, p) := http_parse http_parser_init mem (length (request_bytes r ++ s)) in
  ret = Ret (Z.of_nat (length (request_bytes r))) /\
  parser_method mem p = rq_method r /\ parser_path mem p = rq_path r /\
  parser_version p = rq_minor r /\ parser_headers mem p = fields (rq_lines r).
Proof. apply http_parse_whole. Qed.

Lemma http_parser_fresh_witness :
  let mem := request_bytes sample_request ++ [] ++ [0] in
  let '(ret, p) := http_parse http_parser_init mem (length (request_bytes sample_request ++ [])) in
  ret = Ret (Z.of_nat (length (request_bytes sample_request))) /\
  parser_method mem p = [71; 69; 84] /\ parser_path mem p = [47] /\
  parser_version p = 1 /\ parser_headers mem p = [([65], [98; SP; 99])].
Proof.
  apply (http_parser_fresh sample_request [] [0]).
  - repeat split; try discriminate; try (repeat constructor).
  - vm_compute. lia.
  - repeat (constructor; [split; [discriminate|reflexivity]|]). constructor.
  - discriminate.
  - reflexivity.
Defined.

(** ** A request in pieces *)

(** Whatever happens, the array keeps its length and [num_headers] stays within the
    capacity given. *)
Definition bounded (len cap : nat) (o : phr_out) : Prop :=
  length (headers o) = len /\ (num_headers o <= cap)%nat.

Definition keeps {A} (P : phr_out -> Prop) (m : parser A) : Prop := forall o, P o -> P (snd (m o)).

Lemma keeps_bind {A B} P (m : parser A) (k : A -> parser B) :
  keeps P m -> (forall a, keeps P (k a)) -> keeps P (m ≫= k).
Proof.
  intros Hm Hk o Ho. specialize (Hm o Ho). unfold mbind, stateful_bind.
  destruct (m o) as [[a|r|] o']; cbn [snd] in *; [by apply Hk|done..].
Qed.

Lemma keeps_lift {A} P (m : outcome A) : keeps P (lift m).
Proof. by intros o Ho. Qed.

Lemma keeps_ret {A} P (a : A) : keeps P (mret a).
Proof. by intros o Ho. Qed.

Lemma keeps_modify (P : phr_out -> Prop) f : (forall o, P o -> P (f o)) -> keeps P (modify f).
Proof. intros H o Ho. by apply H. Qed.

Lemma keeps_write (P : phr_out -> Prop) i f :
  (forall o hs, P o -> length hs = length (headers o) -> P (set_headers hs o)) ->
  keeps P (write_header i f).
Proof.
  intros H o Ho. unfold write_header. destruct (_ <? _)%nat; [|done]. cbn [snd].
  apply H; [done|]. apply length_alter.
Qed.

(** The operations of one header line write nothing but the array. *)
Lemma keeps_line len n p c mem buf_end :
  keeps (fun o => length (headers o) = len /\ num_headers o = n)
    (buf ← (if negb (negb (n =? 0)%nat && is_blank c)
            then parse_header_name mem buf_end p n else no_header_name p n);
     parse_header_value mem buf_end buf n).
Proof.
  assert (forall i f, keeps (fun o => length (headers o) = len /\ num_headers o = n)
    (write_header i f)) as Hw.
  { intros i f. apply keeps_write. intros o hs [H1 H2] H. split; [|done].
    cbn [headers set_headers]. congruence. }
  apply keeps_bind.
  - destruct (negb _); [unfold parse_header_name, findchar_fast; cbv beta iota zeta|unfold no_header_name].
    + apply keeps_bind; [done|intros _]. apply keeps_bind; [apply keeps_lift|intros _].
      apply keeps_bind; [apply keeps_lift|intros q]. apply keeps_bind; [done|intros _].
      destruct (_ =? _)%nat; apply keeps_lift.
    + apply keeps_bind; [done|intros _]. apply keeps_bind; [done|intros _]. apply keeps_ret.
  - intros q. unfold parse_header_value. apply keeps_bind; [apply keeps_lift|].
    intros [q' [v l]]. apply keeps_bind; [apply keeps_lift|intros m].
    apply keeps_bind; [done|intros _]. apply keeps_ret.
Qed.

Lemma headers_loop_bounded mem buf_end room p o len cap :
  length (headers o) = len -> (num_headers o + room <= cap)%nat ->
  bounded len cap (snd (headers_loop mem buf_end room p o)).
Proof.
  revert p o. induction room as [|room IH]; intros p o Hl Hc; cbn [headers_loop];
    unfold mbind at 1, stateful_bind at 1, lift at 1;
    (destruct (check_eof buf_end p); [|split; cbn [snd]; [done|lia]..]);
    unfold mbind at 1, stateful_bind at 1, lift at 1;
    (destruct (char_at mem p) as [c|?|]; [|split; cbn [snd]; [done|lia]..]);
    (destruct (c =? 13); [split; cbn [snd lift]; [done|lia]|]);
    (destruct (c =? 10); [split; cbn [snd mret stateful_ret]; [done|lia]|]).
  - split; cbn [snd lift]; [done|lia].
  - rewrite (bind_ret _ _ _ (num_headers o) o) by done.
    pose proof (keeps_line len (num_headers o) p c mem buf_end o (conj Hl eq_refl)) as Hk.
    unfold mbind, stateful_bind in *.
    match goal with |- context [(if ?b then ?x else ?y) o] =>
      destruct ((if b then x else y) o) as [[q|r|] o1] end; [|split; cbn [snd] in *; [by apply Hk|lia]..].
    destruct (parse_header_value mem buf_end q (num_headers o) o1) as [[q'|r|] o2];
      cbn [snd] in Hk; destruct Hk as [H1 H2]; [|split; cbn [snd]; [done|lia]..].
    cbn [modify]. apply IH; [done|]. cbn [num_headers set_num_headers]. lia.
Qed.

Lemma parse_request_bounded mem buf_end max o len cap : length (headers o) = len ->
  num_headers o = 0%nat -> (max <= cap)%nat ->
  bounded len cap (snd (parse_request mem buf_end max 0 o)).
Proof.
  intros Hl Hn Hm. unfold parse_request.
  assert (forall A (m : outcome A) (k : A -> parser nat) o,
    bounded len cap o -> (forall a, bounded len cap (snd (k a o))) ->
    bounded len cap (snd ((lift m ≫= k) o))) as Hstep.
  { intros A m k o' Ho Hk. unfold mbind, stateful_bind, lift. by destruct m. }
  assert (forall o', length (headers o') = len -> num_headers o' = 0%nat -> bounded len cap o') as Hb
    by (intros o' H1 H2; split; [done|lia]).
  apply Hstep; [by apply Hb|intros p1]. cbv zeta. apply Hstep; [by apply Hb|intros p2].
  erewrite (bind_ret (modify _)) by reflexivity.
  apply Hstep; [by apply Hb|intros p3]. apply Hstep; [by apply Hb|intros p4].
  erewrite (bind_ret (modify _)) by reflexivity.
  apply Hstep; [by apply Hb|intros p5].
  destruct (_ || _); [by apply Hb|]. set (o1 := set_path _ _ _).
  assert (H1 : length (headers o1) = len /\ num_headers o1 = 0%nat) by done.
  clearbody o1. clear Hn Hl o. destruct H1 as [Hl Hn].
  assert (Hv : keeps (fun o => length (headers o) = len /\ num_headers o = 0%nat)
    (parse_http_version mem buf_end p5)).
  { unfold parse_http_version. destruct (_ <? _)%nat; [apply keeps_lift|].
    repeat (apply keeps_bind; [apply keeps_lift|intros ?]). destruct a6 as [v q].
    apply keeps_bind; [by apply keeps_modify|intros _]. apply keeps_ret. }
  specialize (Hv o1 (conj Hl Hn)). unfold mbind at 1, stateful_bind at 1.
  destruct (parse_http_version mem buf_end p5 o1) as [[q|r|] o2]; cbn [snd] in Hv;
    destruct Hv as [Hl2 Hn2]; [|by apply Hb..].
  apply Hstep; [by apply Hb|intros q2]. unfold parse_headers.
  rewrite (bind_ret _ _ _ (num_headers o2) o2) by done. rewrite Hn2, Nat.sub_0_r.
  apply headers_loop_bounded; [done|lia].
Qed.

Lemma request_lines_unique r r' s s' : request_bytes r ++ s = request_bytes r' ++ s' ->
  Forall is_byte (request_bytes r ++ s) -> request_ok r -> request_ok r' ->
  length (rq_lines r) = length (rq_lines r') /\ length (request_bytes r) = length (request_bytes r').
Proof.
  intros E Hb Hr Hr'. set (k := Nat.max (length (rq_lines r)) (length (rq_lines r'))).
  set (o := mk_out None 0 None 0 0 0 None 0 (replicate k header_null) 0).
  assert (num : forall q, (length (rq_lines q) <= k)%nat ->
    num_headers (request_out q o) = length (rq_lines q)).
  { intros q Hq. unfold request_out. rewrite (add_lines_headers _ _ _ [] (replicate k header_null));
      [done..|by rewrite length_replicate]. }
  pose proof (parse_request_ok (request_bytes r ++ s) [] Hb r s k o eq_refl Hr eq_refl) as H1.
  pose proof (parse_request_ok (request_bytes r ++ s) [] Hb r' s' k o E Hr' eq_refl) as H2.
  cbn [headers o] in H1, H2. rewrite length_replicate in H1, H2.
  rewrite H1 in H2 by lia. specialize (H2 ltac:(lia)).
  injection H2 as Hlen Ho. split; [|done].
  rewrite <- num, <- (num r') by lia. by rewrite Ho.
Qed.

(** After an incomplete first call on the beginning of a request, the call on the whole
    request succeeds, with its length, exactly when [m_headers_num] of the first call -
    the number of headers complete by then - is at least the number of its header lines:
    a request with a header line behind the cut is rejected. *)
Theorem http_parser_resume r n tail1 tail2 p1 :
  request_ok r -> Forall is_byte (request_bytes r) -> guarded tail2 ->
  Z.of_nat (length (request_bytes r)) < 2 ^ 31 -> (n < length (request_bytes r))%nat ->
  http_parse http_parser_init (take n (request_bytes r) ++ tail1) n = (Ret (-2), p1) ->
  exists v, fst (http_parse p1 (request_bytes r ++ tail2) (length (request_bytes r))) = Ret v /\
    (0 <= v <-> (length (rq_lines r) <= num_headers (out p1))%nat) /\
    (0 <= v -> v = Z.of_nat (length (request_bytes r))).
Proof.
  intros Hr Hb Ht Hlen Hn E1. unfold http_parse in E1.
  assert (bounded 100 100 (out p1)) as [Hl Hc].
  { rewrite phr_parse_request_0 in E1.
    pose proof (parse_request_bounded (take n (request_bytes r) ++ tail1) n 100
      (request_start (out http_parser_init)) 100 100 eq_refl eq_refl (le_n _)) as Hbd.
    change (num_headers (out http_parser_init)) with 100%nat in E1.
    destruct (parse_request _ _ _ _ _) as [x o]. by injection E1 as _ <-. }
  assert (last_len p1 = n) as Hll.
  { destruct (phr_parse_request _ _ _ _). by injection E1 as _ <-. }
  set (d := request_bytes r) in *. unfold http_parse. rewrite Hll.
  pose proof (parse_request_last_len r [] tail2 n (out p1) Hr Hn) as Hlast.
  cbv zeta in Hlast. rewrite app_nil_r in Hlast. fold d in Hlast. rewrite Hlast.
  pose proof (parse_request_iff d tail2 (out p1)) as Hiff.
  destruct (parse_request_stable d Hb (num_headers (out p1)) (request_start (out p1)))
    as (x & o' & Hx & Hq & _); [done | cbn; lia |].
  rewrite phr_parse_request_0, Hx in * by done. cbn [fst].
  assert (exists v, phr_return x = Ret v) as [v Hv] by (destruct x; [simpl; eauto..|done]).
  exists v. rewrite Hv in *. cbn [fst] in *. specialize (Hiff v o' Hb Ht ltac:(lia) Hlen).
  assert (0 <= v -> exists r' s, d = request_bytes r' ++ s /\ request_ok r' /\
    (length (rq_lines r') <= num_headers (out p1))%nat /\ v = Z.of_nat (length (request_bytes r'))) as Hs.
  { intros H0. destruct (proj1 Hiff (conj eq_refl H0)) as (r' & s & ? & ? & ? & ? & _). eauto 10. }
  assert (0 <= v -> (length (rq_lines r) <= num_headers (out p1))%nat /\
    v = Z.of_nat (length d)) as Hfwd.
  { intros H0. destruct (Hs H0) as (r' & s & Ed & Hr' & Hl' & ->).
    destruct (request_lines_unique r r' [] s) as [H1 H2]; rewrite ?app_nil_r; try done.
    split; [lia|]. by rewrite <- H2. }
  split; [done|]. split; [|by intros; apply Hfwd].
  split; [by intros; apply Hfwd|]. intros Hle.
  destruct (proj2 (parse_request_iff d tail2 (out p1) (Z.of_nat (length d))
    (request_out r (request_start (out p1))) Hb Ht ltac:(lia) Hlen)) as [Hok _].
  { exists r, []. by rewrite app_nil_r. }
  rewrite phr_parse_request_0, Hx in Hok by done. rewrite Hv in Hok. injection Hok as -> _. lia.
Qed.

(** The witness: a request with two header lines, cut behind the first. *)
Definition two_headers : request :=
  mk_request None [71] 0 [47] 0 1 Crlf
    [mk_line (Some ([65], [])) [98] [] Lf; mk_line (Some ([67], [])) [100] [] Lf] Lf.

Lemma http_parser_resume_witness :
  exists v, fst (http_parse (snd (http_parse http_parser_init (take 18 (request_bytes two_headers) ++ [0]) 18))
      (request_bytes two_headers ++ [0]) (length (request_bytes two_headers))) = Ret v /\
    (0 <= v <-> (2 <= 1)%nat) /\ (0 <= v -> v = Z.of_nat (length (request_bytes two_headers))).
Proof.
  apply (http_parser_resume two_headers 18 [0] [0]).
  - repeat split; try discriminate; try (repeat constructor).
  - repeat (constructor; [split; [discriminate|reflexivity]|]). constructor.
  - discriminate.
  - reflexivity.
  - vm_compute. lia.
  - vm_compute. reflexivity.
Defined.
