(* ===== verification/Base64.v ===== *)
(** * Base64

    Models [base64_encode] of [src/include/xynet/http/websocket_request_handler.h]: the
    encoder, which works on single bits of signed characters, is that of RFC 4648, which
    writes groups of three bytes as numbers to the base 64, and can be decoded. *)

From Stdlib Require Import String Ascii.
From S2P Require Import Prelude.
Local Open Scope Z_scope.

(** The bytes of a string literal. *)
Definition str (s : string) : list Z := map (fun c => Z.of_N (N_of_ascii c)) (list_ascii_of_string s).

Definition basis_64 : list Z :=
  str "ABCDEFGHIJKLMNOPQRSTUVWXYZabcdefghijklmnopqrstuvwxyz0123456789+/".

(** ** The encoder *)

(** [basis_64[i]] *)
Definition basis (i : Z) : Z := nth (Z.to_nat i) basis_64 0.

(** [string[i]], a signed character. *)
Definition char_of (l : list Z) (i : nat) : Z := schar (nth i l 0).

Definition EQ : Z := 61.

(** The digits the code forms from one, or two, characters. *)
Definition digit_1 (a : Z) : Z := Z.land (Z.shiftr a 2) 0x3F.
Definition digit_2 (a b : Z) : Z :=
  Z.lor (Z.shiftl (Z.land a 0x3) 4) (Z.shiftr (Z.land b 0xF0) 4).
Definition digit_2_last (a : Z) : Z := Z.shiftl (Z.land a 0x3) 4.
Definition digit_3 (b c : Z) : Z :=
  Z.lor (Z.shiftl (Z.land b 0xF) 2) (Z.shiftr (Z.land c 0xC0) 6).
Definition digit_3_last (b : Z) : Z := Z.shiftl (Z.land b 0xF) 2.
Definition digit_4 (c : Z) : Z := Z.land c 0x3F.

(** The loop, from [i]: where it ends, and the output [p]. *)
Fixpoint base64_loop (fuel i : nat) (s p : list Z) : nat * list Z :=
  match fuel with
  | O => (i, p)
  | S fuel =>
      if Z.of_nat i <? Z.of_nat (length s) - 2 then
        base64_loop fuel (i + 3) s
          (p ++ [basis (digit_1 (char_of s i)); basis (digit_2 (char_of s i) (char_of s (i + 1)));
                 basis (digit_3 (char_of s (i + 1)) (char_of s (i + 2)));
                 basis (digit_4 (char_of s (i + 2)))])
      else (i, p)
  end.

(** What follows the loop. *)
Definition base64_end (s : list Z) (ip : nat * list Z) : list Z :=
  let '(i, p) := ip in
  if (i <? length s)%nat then
    p ++ [basis (digit_1 (char_of s i))] ++
    (if Z.of_nat i =? Z.of_nat (length s) - 1 then [basis (digit_2_last (char_of s i)); EQ]
     else [basis (digit_2 (char_of s i) (char_of s (i + 1))); basis (digit_3_last (char_of s (i + 1)))]) ++
    [EQ]
  else p.

(** The characters written; their number is the result. *)
Definition base64_encode (s : list Z) : list Z := base64_end s (base64_loop (length s) 0 s []).

(** ** RFC 4648 *)

Fixpoint rfc4648 (l : list Z) : list Z :=
  match l with
  | a :: b :: c :: l =>
      let n := (a * 256 + b) * 256 + c in
      [basis (n / 64 ^ 3); basis (n / 64 ^ 2 mod 64); basis (n / 64 mod 64); basis (n mod 64)] ++ rfc4648 l
  | [a; b] =>
      let n := (a * 256 + b) * 4 in
      [basis (n / 64 ^ 2); basis (n / 64 mod 64); basis (n mod 64); EQ]
  | [a] => let n := a * 16 in [basis (n / 64); basis (n mod 64); EQ; EQ]
  | [] => []
  end.

(** Its decoder. *)
Definition sextet (c : Z) : option Z := Z.of_nat <$> index_of (Z.eqb c) basis_64.

Fixpoint base64_decode (l : list Z) : option (list Z) :=
  match l with
  | [] => Some []
  | c1 :: c2 :: c3 :: c4 :: l =>
      x1 ← sextet c1; x2 ← sextet c2;
      if c3 =? EQ then Some [(x1 * 64 + x2) / 16]
      else
        x3 ← sextet c3;
        if c4 =? EQ then let n := ((x1 * 64 + x2) * 64 + x3) / 4 in Some [n / 256; n mod 256]
        else
          x4 ← sextet c4;
          let n := ((x1 * 64 + x2) * 64 + x3) * 64 + x4 in
          rest ← base64_decode l;
          Some ([n / 65536; n / 256 mod 256; n mod 256] ++ rest)
  | _ => None
  end.

(** ** The digits *)

(** A statement on one byte, or on each of two bytes. *)
Lemma byte_check (P : Z -> bool) : forallb P (seqZ 0 256) = true -> forall b, is_byte b -> P b = true.
Proof. intros H b Hb. by apply (range_check P 256). Qed.

Lemma digit_1_eq b : is_byte b -> digit_1 (schar b) = b / 4.
Proof. intros Hb. apply Z.eqb_eq. by apply (byte_check (fun b => digit_1 (schar b) =? b / 4)). Qed.

Lemma digit_4_eq b : is_byte b -> digit_4 (schar b) = b mod 64.
Proof. intros Hb. apply Z.eqb_eq. by apply (byte_check (fun b => digit_4 (schar b) =? b mod 64)). Qed.

Lemma digit_2_last_eq b : is_byte b -> digit_2_last (schar b) = b mod 4 * 16.
Proof. intros Hb. apply Z.eqb_eq. by apply (byte_check (fun b => digit_2_last (schar b) =? b mod 4 * 16)). Qed.

Lemma digit_3_last_eq b : is_byte b -> digit_3_last (schar b) = b mod 16 * 4.
Proof. intros Hb. apply Z.eqb_eq. by apply (byte_check (fun b => digit_3_last (schar b) =? b mod 16 * 4)). Qed.

Lemma high_eq b : is_byte b ->
  Z.shiftr (Z.land (schar b) 0xF0) 4 = b / 16 /\ Z.shiftr (Z.land (schar b) 0xC0) 6 = b / 64.
Proof.
  intros Hb. split; apply Z.eqb_eq.
  - by apply (byte_check (fun b => Z.shiftr (Z.land (schar b) 0xF0) 4 =? b / 16)).
  - by apply (byte_check (fun b => Z.shiftr (Z.land (schar b) 0xC0) 6 =? b / 64)).
Qed.

Lemma digit_2_eq a b : is_byte a -> is_byte b -> digit_2 (schar a) (schar b) = a mod 4 * 16 + b / 16.
Proof.
  intros Ha Hb. unfold digit_2. rewrite (proj1 (high_eq b Hb)).
  change (Z.shiftl (Z.land (schar a) 3) 4) with (digit_2_last (schar a)). rewrite digit_2_last_eq by done.
  apply (lor_shift_add 4); [lia|]. unfold is_byte in Hb. split; [apply Z.div_pos|apply Z.div_lt_upper_bound]; lia.
Qed.

Lemma digit_3_eq b c : is_byte b -> is_byte c -> digit_3 (schar b) (schar c) = b mod 16 * 4 + c / 64.
Proof.
  intros Hb Hc. unfold digit_3. rewrite (proj2 (high_eq c Hc)).
  change (Z.shiftl (Z.land (schar b) 15) 2) with (digit_3_last (schar b)). rewrite digit_3_last_eq by done.
  apply (lor_shift_add 2); [lia|]. unfold is_byte in Hc. split; [apply Z.div_pos|apply Z.div_lt_upper_bound]; lia.
Qed.

(** The digits of a group as a number. *)
Ltac digits := unfold is_byte in *; Z.to_euclidean_division_equations; lia.

Lemma group_digits a b c : is_byte a -> is_byte b -> is_byte c ->
  let n := (a * 256 + b) * 256 + c in
  n / 64 ^ 3 = a / 4 /\ n / 64 ^ 2 mod 64 = a mod 4 * 16 + b / 16 /\
  n / 64 mod 64 = b mod 16 * 4 + c / 64 /\ n mod 64 = c mod 64.
Proof.
  intros Ha Hb Hc n. change (64 ^ 3) with 262144. change (64 ^ 2) with 4096.
  unfold n. split_and!; digits.
Qed.

Lemma pair_digits a b : is_byte a -> is_byte b ->
  let n := (a * 256 + b) * 4 in
  n / 64 ^ 2 = a / 4 /\ n / 64 mod 64 = a mod 4 * 16 + b / 16 /\ n mod 64 = b mod 16 * 4.
Proof. intros Ha Hb n. change (64 ^ 2) with 4096. unfold n. split_and!; digits. Qed.

Lemma single_digits a : is_byte a -> a * 16 / 64 = a / 4 /\ a * 16 mod 64 = a mod 4 * 16.
Proof. intros Ha. split; digits. Qed.

(** ** The encoder is that of the RFC *)

Lemma char_at_app pre l k : char_of (pre ++ l) (length pre + k) = schar (nth k l 0).
Proof. unfold char_of. rewrite app_nth2 by lia. do 2 f_equal. lia. Qed.

Lemma base64_loop_stop fuel i s p : (length s <= i + 2)%nat -> base64_loop fuel i s p = (i, p).
Proof.
  intros Hl. destruct fuel; [done|]. cbn [base64_loop].
  by destruct (Z.ltb_spec (Z.of_nat i) (Z.of_nat (length s) - 2)); [lia|].
Qed.

Lemma base64_from l : Forall is_byte l -> forall pre p fuel, (length l <= fuel)%nat ->
  base64_end (pre ++ l) (base64_loop fuel (length pre) (pre ++ l) p) = p ++ rfc4648 l.
Proof.
  induction l as [l IH] using (induction_ltof1 _ (@length Z)). unfold ltof in IH.
  intros Hl pre p fuel Hf.
  assert (forall k, char_of (pre ++ l) (length pre + k) = schar (nth k l 0)) as Hc by apply char_at_app.
  pose proof (Hc 0%nat) as Hc0. rewrite Nat.add_0_r in Hc0.
  assert (length (pre ++ l) = length pre + length l)%nat as Hlen by apply length_app.
  destruct l as [|a [|b [|c l]]].
  - rewrite base64_loop_stop by (rewrite Hlen; simpl; lia).
    unfold base64_end. rewrite Hlen. cbn [length]. rewrite Nat.add_0_r, Nat.ltb_irrefl.
    by rewrite app_nil_r.
  - rewrite base64_loop_stop by (rewrite Hlen; simpl; lia).
    inversion Hl as [|? ? Ha _]; subst.
    unfold base64_end. rewrite Hlen, Hc0. cbn [length nth].
    destruct (Nat.ltb_spec (length pre) (length pre + 1)); [|lia].
    destruct (Z.eqb_spec (Z.of_nat (length pre)) (Z.of_nat (length pre + 1) - 1)); [|lia].
    rewrite digit_1_eq, digit_2_last_eq by done. destruct (single_digits a Ha) as [E1 E2].
    cbn [rfc4648]. by rewrite E1, E2.
  - rewrite base64_loop_stop by (rewrite Hlen; simpl; lia).
    inversion Hl as [|? ? Ha Hl1]; subst. inversion Hl1 as [|? ? Hb _]; subst.
    unfold base64_end. rewrite Hlen, Hc0, (Hc 1%nat). cbn [length nth].
    destruct (Nat.ltb_spec (length pre) (length pre + 2)); [|lia].
    destruct (Z.eqb_spec (Z.of_nat (length pre)) (Z.of_nat (length pre + 2) - 1)); [lia|].
    rewrite digit_1_eq, digit_2_eq, digit_3_last_eq by done.
    destruct (pair_digits a b Ha Hb) as (E1 & E2 & E3). cbn [rfc4648]. by rewrite E1, E2, E3.
  - destruct fuel as [|fuel]; [simpl in Hf; lia|]. cbn [base64_loop]. rewrite Hlen.
    destruct (Z.ltb_spec (Z.of_nat (length pre)) (Z.of_nat (length pre + length (a :: b :: c :: l)) - 2));
      [|simpl in *; lia].
    inversion Hl as [|? ? Ha Hl1]; subst. inversion Hl1 as [|? ? Hb Hl2]; subst.
    inversion Hl2 as [|? ? Hc' Hl3]; subst.
    rewrite Hc0, (Hc 1%nat), (Hc 2%nat). cbn [nth].
    rewrite digit_1_eq, digit_2_eq, digit_3_eq, digit_4_eq by done.
    destruct (group_digits a b c Ha Hb Hc') as (E1 & E2 & E3 & E4).
    specialize (IH l ltac:(simpl; lia) Hl3 (pre ++ [a; b; c])).
    rewrite length_app, <- (assoc_L (++)) in IH. cbn [length app] in IH.
    rewrite IH by (simpl in Hf; lia). rewrite <- (assoc_L (++)). f_equal.
    cbn [rfc4648]. by rewrite E1, E2, E3, E4.
Qed.

Lemma base64_encode_rfc s : Forall is_byte s -> base64_encode s = rfc4648 s.
Proof. intros Hs. by apply (base64_from s Hs [] [] (length s)). Qed.

(** ** Decoding *)

Lemma sextet_basis i : 0 <= i < 64 -> sextet (basis i) = Some i /\ basis i <> EQ.
Proof.
  intros Hi.
  pose proof (range_check (fun i => bool_decide (sextet (basis i) = Some i) && negb (basis i =? EQ)) 64
    eq_refl i Hi) as H.
  apply andb_true_iff in H as [H1 H2]. apply bool_decide_eq_true in H1.
  split; [done|]. by apply negb_true_iff, Z.eqb_neq in H2.
Qed.

(** A digit in front of a decoder. *)
Lemma sextet_bind {A} i (k : Z -> option A) : 0 <= i < 64 -> (sextet (basis i) ≫= k) = k i.
Proof. intros Hi. by rewrite (proj1 (sextet_basis i Hi)). Qed.

Lemma basis_EQ i : 0 <= i < 64 -> (basis i =? EQ) = false.
Proof. intros Hi. by apply Z.eqb_neq, sextet_basis. Qed.

Lemma rfc4648_decode s : Forall is_byte s -> base64_decode (rfc4648 s) = Some s.
Proof.
  induction s as [s IH] using (induction_ltof1 _ (@length Z)). unfold ltof in IH.
  intros Hs. destruct s as [|a [|b [|c s]]]; [done|..].
  - inversion Hs as [|? ? Ha _]; subst. destruct (single_digits a Ha) as [E1 E2].
    cbn [rfc4648]. rewrite E1, E2. cbn [base64_decode]. rewrite Z.eqb_refl, !sextet_bind by digits.
    do 2 f_equal. digits.
  - inversion Hs as [|? ? Ha Hs1]; subst. inversion Hs1 as [|? ? Hb _]; subst.
    destruct (pair_digits a b Ha Hb) as (E1 & E2 & E3). cbn [rfc4648]. rewrite E1, E2, E3.
    cbn [base64_decode]. rewrite Z.eqb_refl, basis_EQ, !sextet_bind by digits.
    do 2 f_equal; [|f_equal]; digits.
  - inversion Hs as [|? ? Ha Hs1]; subst. inversion Hs1 as [|? ? Hb Hs2]; subst.
    inversion Hs2 as [|? ? Hc Hs3]; subst.
    destruct (group_digits a b c Ha Hb Hc) as (E1 & E2 & E3 & E4). cbn [rfc4648]. rewrite E1, E2, E3, E4.
    cbn [base64_decode app]. rewrite !basis_EQ, !sextet_bind by digits.
    rewrite (IH s ltac:(simpl; lia) Hs3). cbn [mbind option_bind].
    do 2 f_equal; [digits|]. f_equal; [digits|]. f_equal. digits.
Qed.

Lemma length_rfc4648 s : Z.of_nat (length (rfc4648 s)) = 4 * ((Z.of_nat (length s) + 2) / 3).
Proof.
  induction s as [s IH] using (induction_ltof1 _ (@length Z)). unfold ltof in IH.
  destruct s as [|a [|b [|c s]]]; [done..|].
  cbn [rfc4648 app length]. specialize (IH s ltac:(simpl; lia)).
  replace (Z.of_nat (S (S (S (length s)))) + 2) with (Z.of_nat (length s) + 2 + 1 * 3) by lia.
  rewrite Z.div_add by lia. lia.
Qed.

(** Every property of the digits and of [=] holds of the output. *)
Lemma rfc4648_chars (P : Z -> Prop) s : Forall is_byte s -> (forall i, 0 <= i < 64 -> P (basis i)) -> P EQ ->
  Forall P (rfc4648 s).
Proof.
  intros Hs HP HE. revert Hs. induction s as [s IH] using (induction_ltof1 _ (@length Z)). unfold ltof in IH.
  intros Hs. destruct s as [|a [|b [|c s]]]; [constructor|..].
  - inversion Hs as [|? ? Ha _]; subst. destruct (single_digits a Ha) as [E1 E2].
    cbn [rfc4648]. rewrite E1, E2. repeat constructor; try done; apply HP; digits.
  - inversion Hs as [|? ? Ha Hs1]; subst. inversion Hs1 as [|? ? Hb _]; subst.
    destruct (pair_digits a b Ha Hb) as (E1 & E2 & E3). cbn [rfc4648]. rewrite E1, E2, E3.
    repeat constructor; try done; apply HP; digits.
  - inversion Hs as [|? ? Ha Hs1]; subst. inversion Hs1 as [|? ? Hb Hs2]; subst.
    inversion Hs2 as [|? ? Hc Hs3]; subst.
    destruct (group_digits a b c Ha Hb Hc) as (E1 & E2 & E3 & E4). cbn [rfc4648]. rewrite E1, E2, E3, E4.
    apply Forall_app. split; [|apply IH; [simpl; lia|done]]. repeat constructor; apply HP; digits.
Qed.

(** The encoder, which takes signed characters apart bit by bit, writes what RFC 4648
    says: groups of three bytes as four digits to the base 64, the last group padded with
    [=]; that is four characters for three bytes, and the bytes can be read back. *)
Theorem base64_encode_correct s : Forall is_byte s ->
  base64_encode s = rfc4648 s /\
  Z.of_nat (length (base64_encode s)) = 4 * ((Z.of_nat (length s) + 2) / 3) /\
  base64_decode (base64_encode s) = Some s.
Proof.
  intros Hs. rewrite base64_encode_rfc by done. split; [done|].
  split; [apply length_rfc4648|by apply rfc4648_decode].
Qed.

(** The test vector "fooba" of the RFC. *)
Lemma base64_encode_correct_witness :
  base64_encode (str "fooba") = str "Zm9vYmE=" /\ base64_decode (str "Zm9vYmE=") = Some (str "fooba").
Proof.
  destruct (base64_encode_correct (str "fooba")) as (E & _ & D).
  - repeat (constructor; [split; [discriminate|reflexivity]|]). constructor.
  - split; [rewrite E; reflexivity|rewrite E in D; exact D].
Defined.
