(* ===== verification/WsHandshake.v ===== *)
(** * The WebSocket handshake

    Models [src/include/xynet/http/websocket_request_handler.h]: the handler parses the
    client's request, checks its headers, and answers with the digest of the key or with
    [400 Bad Request]. [SHA1] is a parameter. *)

From Stdlib Require Import String.
From S2P Require Import Prelude Pico PicoLoops PicoStable PicoGrammar PicoHeaders PicoRequest.
From S2P Require Import PicoResume PicoResponse HttpParser Base64.
Local Open Scope Z_scope.

(** ** Data *)

Definition crlf : list Z := [CR; LF].

(** [websocket_handshake_response_model] *)
Definition response_model : list Z :=
  str "HTTP/1.1 101 Switching Protocols" ++ crlf ++ str "Upgrade: websocket" ++ crlf ++
  str "Connection: Upgrade" ++ crlf ++
  str "Sec-WebSocket-Accept: +XXXXXXXXXXXXXXXXXXXXXXXXXXX" ++ crlf ++ crlf.

(** [websocket_handshake_response_bad_request] *)
Definition response_bad_request : list Z := str "HTTP/1.1 400 Bad Request" ++ crlf.

(** [websocket_handshake_accept_concat], with the terminating null character. *)
Definition accept_concat_model : list Z :=
  str "XXXXXXXXXXXXXXXXXXXXXX==258EAFA5-E914-47DA-95CA-C5AB0DC85B11" ++ [0].

Definition GUID : list Z := str "258EAFA5-E914-47DA-95CA-C5AB0DC85B11".

(** [websocket_handshake_response_model_accept_key_pos]: [find('+')]. *)
Definition accept_key_pos : nat := default 0%nat (index_of (Z.eqb 43) response_model).

Inductive state := empty | incomplete | parsed | bad_request.

#[export] Instance state_eq_dec : EqDecision state.
Proof. solve_decision. Defined.

Record websocket_request_handler := mk_handler {
  m_websocket_handshake_response : list Z;
  m_websocket_handshake_accept_concat : list Z;
  m_parser : http_parser;
  m_state : state;
}.

Definition websocket_request_handler_init : websocket_request_handler :=
  mk_handler response_model accept_concat_model http_parser_init empty.

(** ** Operations *)

Definition set_state (st : state) (h : websocket_request_handler) : websocket_request_handler :=
  mk_handler (m_websocket_handshake_response h) (m_websocket_handshake_accept_concat h) (m_parser h) st.

(** [parse] *)
Definition handler_parse (h : websocket_request_handler) (mem : list Z) (len : nat)
  : outcome Z * websocket_request_handler :=
  let '(ret, p) := http_parse (m_parser h) mem len in
  let st :=
    match ret with
    | Ret v => if v =? -1 then bad_request else if v =? -2 then incomplete else parsed
    | _ => m_state h
    end in
  (ret, mk_handler (m_websocket_handshake_response h) (m_websocket_handshake_accept_concat h) p st).

(** [std::copy] of [x] to the start of an array. *)
Definition copy_to (x l : list Z) : list Z := x ++ drop (length x) l.

(** The checks of one header: the result, and the handler - the array the key is copied to
    is mutable. *)
Definition check_Connection (header : list Z) : bool := bool_decide (header = str "Upgrade").
Definition check_Upgrade (header : list Z) : bool := bool_decide (header = str "websocket").
Definition check_Sec_WebSocket_Version (header : list Z) : bool := bool_decide (header = str "13").
Definition check_Sec_WebSocket_Key (header : list Z) (h : websocket_request_handler)
  : bool * websocket_request_handler :=
  if (length header =? 24)%nat then
    (true, mk_handler (m_websocket_handshake_response h)
             (copy_to header (m_websocket_handshake_accept_concat h)) (m_parser h) (m_state h))
  else (false, h).

(** [m_header_checker]: the check for a header name, if there is one. *)
Inductive header_checker := CheckConnection | CheckUpgrade | CheckVersion | CheckKey.

Definition m_header_checker (name : list Z) : option header_checker :=
  if bool_decide (name = str "Connection") then Some CheckConnection
  else if bool_decide (name = str "Upgrade") then Some CheckUpgrade
  else if bool_decide (name = str "Sec-WebSocket-Version") then Some CheckVersion
  else if bool_decide (name = str "Sec-WebSocket-Key") then Some CheckKey
  else None.

Definition check_header (field : list Z * list Z) (h : websocket_request_handler)
  : bool * websocket_request_handler :=
  match m_header_checker (fst field) with
  | Some CheckConnection => (check_Connection (snd field), h)
  | Some CheckUpgrade => (check_Upgrade (snd field), h)
  | Some CheckVersion => (check_Sec_WebSocket_Version (snd field), h)
  | Some CheckKey => check_Sec_WebSocket_Key (snd field) h
  | None => (true, h)
  end.

Fixpoint check_headers_loop (fields : list (list Z * list Z)) (h : websocket_request_handler)
  : bool * websocket_request_handler :=
  match fields with
  | [] => (true, h)
  | f :: fields => let '(ok, h) := check_header f h in if ok then check_headers_loop fields h else (false, h)
  end.

(** [mem] is the memory the views of the parser point to. *)
Definition check_headers (mem : list Z) (h : websocket_request_handler) : bool * websocket_request_handler :=
  check_headers_loop (parser_headers mem (m_parser h)) h.

Definition check_method (mem : list Z) (h : websocket_request_handler) : bool :=
  bool_decide (parser_method mem (m_parser h) = str "GET").
Definition check_version (h : websocket_request_handler) : bool := parser_version (m_parser h) =? 1.

Definition check_all (mem : list Z) (h : websocket_request_handler) : bool * websocket_request_handler :=
  if negb (check_method mem h) || negb (check_version h) then (false, h) else check_headers mem h.

Definition get_path (mem : list Z) (h : websocket_request_handler) : list Z := parser_path mem (m_parser h).

(** Characters written into an array from a position on. *)
Definition write_at (pos : nat) (x l : list Z) : list Z := take pos l ++ x ++ drop (pos + length x) l.

(** A header line. *)
Definition field (n v : string) : line := mk_line (Some (str n, [SP])) (str v) [] Crlf.

Section handshake.
Context (SHA1 : list Z -> list Z).

(** [generate_response] *)
Definition generate_response (mem : list Z) (h : websocket_request_handler)
  : list Z * websocket_request_handler :=
  let '(ok, h) := if bool_decide (m_state h = parsed) then check_all mem h else (false, h) in
  if negb ok then (response_bad_request, set_state bad_request h)
  else
    let sha1_digest :=
      SHA1 (take (length (m_websocket_handshake_accept_concat h) - 1) (m_websocket_handshake_accept_concat h)) in
    let response :=
      write_at accept_key_pos (base64_encode sha1_digest) (m_websocket_handshake_response h) in
    (response, mk_handler response (m_websocket_handshake_accept_concat h) (m_parser h) (m_state h)).

(** ** The contract *)

(** The checks of the code as a predicate on the header fields, and the key: the last one
    sent, or the one the handler had. *)
Definition field_ok (f : list Z * list Z) : bool :=
  match m_header_checker (fst f) with
  | Some CheckConnection => check_Connection (snd f)
  | Some CheckUpgrade => check_Upgrade (snd f)
  | Some CheckVersion => check_Sec_WebSocket_Version (snd f)
  | Some CheckKey => (length (snd f) =? 24)%nat
  | None => true
  end.

Definition is_key (f : list Z * list Z) : bool := bool_decide (fst f = str "Sec-WebSocket-Key").

Fixpoint last_key (fields : list (list Z * list Z)) (key : list Z) : list Z :=
  match fields with
  | [] => key
  | f :: fields => last_key fields (if is_key f then snd f else key)
  end.

(** The answer for a key. *)
Definition switching_protocols (key : list Z) : list Z :=
  str "HTTP/1.1 101 Switching Protocols" ++ crlf ++ str "Upgrade: websocket" ++ crlf ++
  str "Connection: Upgrade" ++ crlf ++
  str "Sec-WebSocket-Accept: " ++ rfc4648 (SHA1 (key ++ GUID)) ++ crlf ++ crlf.

(** The digest has 20 bytes. *)
Context (SHA1_length : forall l, length (SHA1 l) = 20%nat) (SHA1_bytes : forall l, Forall is_byte (SHA1 l)).

(** A handler whose arrays hold a key of 24 characters and an answer. *)
Definition handler_ok (key : list Z) (h : websocket_request_handler) : Prop :=
  m_websocket_handshake_accept_concat h = key ++ GUID ++ [0] /\ length key = 24%nat /\
  exists accept, length accept = 28%nat /\
    m_websocket_handshake_response h =
      take accept_key_pos response_model ++ accept ++ drop (accept_key_pos + 28) response_model.

Lemma check_header_key f : is_key f = true <-> m_header_checker (fst f) = Some CheckKey.
Proof.
  unfold is_key. destruct (decide (fst f = str "Sec-WebSocket-Key")) as [E|E].
  - rewrite E. by vm_compute.
  - rewrite bool_decide_eq_false_2 by done. split; [done|]. unfold m_header_checker.
    repeat case_bool_decide; done.
Qed.

Lemma check_header_spec f h key : handler_ok key h ->
  let '(ok, h') := check_header f h in
  ok = field_ok f /\ m_parser h' = m_parser h /\ m_state h' = m_state h /\
  m_websocket_handshake_response h' = m_websocket_handshake_response h /\
  (ok = true -> handler_ok (if is_key f then snd f else key) h').
Proof.
  intros Hh. unfold check_header, field_ok. pose proof (check_header_key f) as Hk.
  destruct (m_header_checker (fst f)) as [[]|];
    try (destruct (is_key f); [by pose proof (proj1 Hk eq_refl)|done]).
  rewrite (proj2 Hk eq_refl). unfold check_Sec_WebSocket_Key.
  destruct (Nat.eqb_spec (length (snd f)) 24) as [E|E]; [|done]. split_and!; try done.
  intros _. destruct Hh as (Ha & Hl & Hr). split; [|by split].
  cbn [m_websocket_handshake_accept_concat]. rewrite Ha. unfold copy_to.
  by rewrite E, <- Hl, drop_app_length.
Qed.

Lemma check_headers_spec fs h key : handler_ok key h ->
  let '(ok, h') := check_headers_loop fs h in
  ok = forallb field_ok fs /\ m_parser h' = m_parser h /\ m_state h' = m_state h /\
  (ok = true -> handler_ok (last_key fs key) h').
Proof.
  revert h key. induction fs as [|f fs IH]; intros h key Hh; [done|]. cbn [check_headers_loop forallb last_key].
  pose proof (check_header_spec f h key Hh) as Hf. destruct (check_header f h) as [ok h1].
  destruct Hf as (-> & Hp & Hs & _ & Hok). destruct (field_ok f); [|done].
  specialize (IH h1 _ (Hok eq_refl)). destruct (check_headers_loop fs h1) as [ok2 h2].
  by rewrite <- Hp, <- Hs.
Qed.

(** What the array holds after the digest has been written into it. *)
Lemma write_accept h key : handler_ok key h ->
  write_at accept_key_pos (base64_encode (SHA1 (take (length (m_websocket_handshake_accept_concat h) - 1)
    (m_websocket_handshake_accept_concat h)))) (m_websocket_handshake_response h) =
  switching_protocols key.
Proof.
  intros (Ha & Hl & accept & Hacc & Hr). rewrite Ha, Hr.
  replace (take (length (key ++ GUID ++ [0]) - 1) (key ++ GUID ++ [0])) with (key ++ GUID).
  2: { rewrite (assoc_L (++)), (length_app (key ++ GUID)). cbn [length].
       rewrite Nat.add_sub, take_app_length. done. }
  rewrite base64_encode_rfc by apply SHA1_bytes.
  set (code := rfc4648 _). assert (length code = 28%nat) as Hc.
  { apply Nat2Z.inj. unfold code. rewrite length_rfc4648, SHA1_length. done. }
  unfold write_at. rewrite Hc.
  assert (length (take accept_key_pos response_model) = accept_key_pos) as Hp by reflexivity.
  rewrite <- Hp at 1. rewrite take_app_length.
  rewrite (assoc_L (++) (take _ _) accept), drop_app_ge by (rewrite length_app, Hp, Hacc; lia).
  rewrite length_app, Hp, Hacc, Nat.sub_diag, drop_0. reflexivity.
Qed.

(** The key when none is sent: 22 characters [X] and [==]. *)
Definition default_key : list Z := take 24 accept_concat_model.

Lemma handler_init_ok : handler_ok default_key websocket_request_handler_init.
Proof.
  split; [reflexivity|]. split; [reflexivity|].
  exists (take 28 (drop accept_key_pos response_model)). split; reflexivity.
Qed.

(** What the checks and the answer are for a handler that has parsed a request. *)
Lemma generate_response_spec mem h key : handler_ok key h -> m_state h = parsed ->
  let fs := parser_headers mem (m_parser h) in
  let '(answer, h2) := generate_response mem h in
  if check_method mem h && check_version h && forallb field_ok fs
  then
    answer = switching_protocols (last_key fs key) /\ m_state h2 = parsed /\
    m_websocket_handshake_response h2 = answer
  else answer = response_bad_request /\ m_state h2 = bad_request.
Proof.
  intros Hh Hs fs. unfold generate_response, check_all. rewrite bool_decide_eq_true_2 by done.
  destruct (check_method mem h), (check_version h); cbn [negb orb andb]; [|done..].
  unfold check_headers. fold fs. pose proof (check_headers_spec fs h key Hh) as Hc.
  destruct (check_headers_loop fs h) as [ok h1]. destruct Hc as (-> & Hp & Hst & Hok).
  destruct (forallb field_ok fs); cbn [negb]; [|done].
  rewrite (write_accept h1 _ (Hok eq_refl)). split; [done|]. split; [|done]. cbn. by rewrite Hst.
Qed.

(** A request that has not been parsed - none, an incomplete or a bad one - is answered
    with [400 Bad Request]. *)
Lemma generate_response_not_parsed mem h : m_state h <> parsed ->
  generate_response mem h = (response_bad_request, set_state bad_request h).
Proof. intros Hs. unfold generate_response. by rewrite bool_decide_eq_false_2. Qed.

(** The answer to a whole request. *)
Lemma handshake_whole r s tail :
  request_ok r -> (length (rq_lines r) <= 100)%nat ->
  Forall is_byte (request_bytes r ++ s) -> guarded tail ->
  Z.of_nat (length (request_bytes r ++ s)) < 2 ^ 31 ->
  let mem := request_bytes r ++ s ++ tail in
  let '(ret, h1) := handler_parse websocket_request_handler_init mem (length (request_bytes r ++ s)) in
  let '(answer, h2) := generate_response mem h1 in
  ret = Ret (Z.of_nat (length (request_bytes r))) /\ get_path mem h1 = rq_path r /\
  if bool_decide (rq_method r = str "GET") && (rq_minor r =? 1) && forallb field_ok (fields (rq_lines r))
  then answer = switching_protocols (last_key (fields (rq_lines r)) default_key) /\ m_state h2 = parsed
  else answer = response_bad_request /\ m_state h2 = bad_request.
Proof.
  intros Hr Hl Hb Ht Hlen. cbv zeta. unfold handler_parse.
  pose proof (http_parse_whole r s tail Hr Hl Hb Ht Hlen) as Hp. cbv zeta in Hp.
  change (m_parser websocket_request_handler_init) with http_parser_init.
  destruct (http_parse http_parser_init _ _) as [ret p]. destruct Hp as (-> & Hm & Hpath & Hv & Hf).
  set (v := Z.of_nat _). assert (0 <= v) by (unfold v; lia).
  destruct (Z.eqb_spec v (-1)); [lia|]. destruct (Z.eqb_spec v (-2)); [lia|].
  set (h1 := mk_handler _ _ p parsed).
  pose proof (generate_response_spec (request_bytes r ++ s ++ tail) h1 default_key) as Hg.
  cbv zeta in Hg. specialize (Hg handler_init_ok eq_refl).
  unfold check_method, check_version in Hg. cbn [m_parser h1] in Hg. rewrite Hm, Hv, Hf in Hg.
  destruct (generate_response _ h1) as [answer h2]. split; [done|]. split; [exact Hpath|].
  destruct (_ && _); [|done]. by destruct Hg as (? & ? & _).
Qed.

(** C27: the handshake. A new handler is given a whole request with at most 100 header
    lines. It answers [101 Switching Protocols], with the base64 code of the digest of the
    key and the GUID, if the method is [GET], the version 1.1, and each header it knows has
    the value the code wants; [400 Bad Request] in every other case. The key is that of the
    last [Sec-WebSocket-Key]; a request that sends none is not refused, but answered for 22
    characters [X] and [==]. *)
Theorem handshake r s tail :
  request_ok r -> (length (rq_lines r) <= 100)%nat ->
  Forall is_byte (request_bytes r ++ s) -> guarded tail ->
  Z.of_nat (length (request_bytes r ++ s)) < 2 ^ 31 ->
  let mem := request_bytes r ++ s ++ tail in
  let '(ret, h1) := handler_parse websocket_request_handler_init mem (length (request_bytes r ++ s)) in
  let '(answer, h2) := generate_response mem h1 in
  ret = Ret (Z.of_nat (length (request_bytes r))) /\ get_path mem h1 = rq_path r /\
  if bool_decide (rq_method r = str "GET") && (rq_minor r =? 1) && forallb field_ok (fields (rq_lines r))
  then answer = switching_protocols (last_key (fields (rq_lines r)) default_key) /\ m_state h2 = parsed
  else answer = response_bad_request /\ m_state h2 = bad_request.
Proof. exact (handshake_whole r s tail). Qed.

(** ** What the answers are for a client *)

(** The answer as a response of the grammar. *)
Definition switching_response (key : list Z) : response :=
  mk_response 1 0 (1, 0, 1) (Some (0%nat, str "Switching Protocols")) Crlf
    [field "Upgrade" "websocket"; field "Connection" "Upgrade";
     mk_line (Some (str "Sec-WebSocket-Accept", [SP])) (rfc4648 (SHA1 (key ++ GUID))) [] Crlf] Crlf.

Lemma switching_bytes key : response_bytes (switching_response key) = switching_protocols key.
Proof.
  unfold response_bytes, switching_response, switching_protocols, section_bytes, lines_bytes.
  cbn [rs_lines rs_minor rs_sp rs_digits rs_reason rs_eol rs_end map concat].
  unfold line_bytes at 3. cbn [l_prefix l_name l_value l_trail l_eol]. rewrite !app_nil_r.
  set (code := rfc4648 _). rewrite <- !(assoc_L (++)). reflexivity.
Qed.

Lemma accept_chars key :
  let code := rfc4648 (SHA1 (key ++ GUID)) in
  Forall is_byte code /\ all text code /\ Forall (fun c => is_blank c = false) code /\ length code = 28%nat.
Proof.
  cbv zeta. pose proof (SHA1_bytes (key ++ GUID)) as Hb. split_and!.
  - apply rfc4648_chars; [done| |by split].
    intros i Hi.
    pose proof (range_check (fun i => (0 <=? basis i) && (basis i <? 256)) 64 eq_refl i Hi) as H.
    unfold is_byte. cbv beta in H. lia.
  - apply rfc4648_chars; [done| |done].
    intros i Hi. by apply (range_check (fun i => text (basis i)) 64).
  - apply rfc4648_chars; [done| |done].
    intros i Hi. apply negb_true_iff. by apply (range_check (fun i => negb (is_blank (basis i))) 64).
  - apply Nat2Z.inj. by rewrite length_rfc4648, SHA1_length.
Qed.

Lemma switching_ok key : response_ok (switching_response key).
Proof.
  destruct (accept_chars key) as (_ & Ht & Hb & Hl). unfold switching_response. set (code := rfc4648 _) in *.
  split; [by vm_compute|]. split; [by vm_compute|]. split.
  { split; [|by vm_compute]. repeat (constructor; [reflexivity|]). constructor. }
  assert (forall first n v, line_ok first (field n v) <-> line_ok true (field n v)) as Hf by done.
  split; [|split; [|split; [|done]]].
  - repeat (split || constructor || (vm_compute; discriminate)).
  - repeat (split || constructor || (vm_compute; discriminate)).
  - unfold line_ok. cbn [l_name l_value l_trail]. rewrite app_nil_r. split; [|split; [done|split; [constructor|]]].
    + split; [done|]. split; [repeat constructor|]. split; [repeat constructor|].
      destruct code as [|c code]; [done|]. by inversion Hb.
    + unfold no_blank_end. destruct (list.last code) as [c|] eqn:E; [|done].
      apply last_Some_elem_of in E. rewrite Forall_forall in Hb. apply Hb. by apply list_elem_of_In.
Qed.

(** Seen by the client's parser of the library, [101 Switching Protocols] is one whole
    response, with that status and the three headers; [400 Bad Request] is no whole
    response - the empty line is missing - so that the client goes on waiting. *)
Theorem handshake_answers key o tail tail' :
  guarded tail -> (3 <= num_headers o <= length (headers o))%nat -> guarded tail' ->
  phr_parse_response (switching_protocols key ++ tail) (length (switching_protocols key)) 0 o =
    (Ret (Z.of_nat (length (switching_protocols key))),
     response_out (switching_response key) (response_start o)) /\
  status_value (rs_digits (switching_response key)) = 101 /\
  length (switching_protocols key) = 129%nat /\
  fst (phr_parse_response (response_bad_request ++ tail') (length response_bad_request) 0 o) = Ret (-2).
Proof.
  intros Ht Ho Ht'. destruct (accept_chars key) as (Hb & _ & _ & Hl).
  assert (length (switching_protocols key) = 129%nat) as Hlen.
  { unfold switching_protocols. rewrite !length_app, Hl. reflexivity. }
  split; [|split; [reflexivity|split; [done|]]].
  - assert (Forall is_byte (switching_protocols key)) as Hbytes.
    { unfold switching_protocols. set (code := rfc4648 _) in *.
      repeat (apply Forall_app; split); try exact Hb;
        (vm_compute; repeat (constructor; [split; [discriminate|reflexivity]|]); constructor). }
    apply parse_response_iff; [done|done|lia|rewrite Hlen; lia|].
    exists (switching_response key), []. rewrite switching_bytes, app_nil_r.
    split; [done|]. split; [apply switching_ok|]. split; [|done]. cbn [rs_lines switching_response length]. lia.
  - destruct tail' as [|c tail']; [done|]. destruct o as [a1 a2 a3 a4 a5 a6 a7 a8 hs n].
    cbn [num_headers headers] in Ho. destruct n as [|n]; [lia|]. destruct hs as [|hd hs]; [simpl in Ho; lia|].
    reflexivity.
Qed.

End handshake.

(** ** Witness *)

(** A digest of 20 bytes. *)
Definition toy_digest (l : list Z) : list Z := map (fun i => (Z.of_nat (length l) + i) mod 256) (seqZ 0 20).

(** A request with all four headers. *)
Definition client_request : request :=
  mk_request None (str "GET") 0 (str "/chat") 0 1 Crlf
    [field "Host" "example.com"; field "Upgrade" "websocket"; field "Connection" "Upgrade";
     field "Sec-WebSocket-Key" "dGhlIHNhbXBsZSBub25jZQ=="; field "Sec-WebSocket-Version" "13"] Crlf.

Lemma client_request_ok : request_ok client_request.
Proof. repeat (split || constructor || (vm_compute; discriminate)). Qed.

Lemma handshake_witness :
  let mem := request_bytes client_request ++ [] ++ [0] in
  let h1 := snd (handler_parse websocket_request_handler_init mem (length (request_bytes client_request ++ []))) in
  fst (generate_response toy_digest mem h1) =
    switching_protocols toy_digest (str "dGhlIHNhbXBsZSBub25jZQ==").
Proof.
  cbv zeta.
  assert (forall l, length (toy_digest l) = 20%nat) as Hl by reflexivity.
  assert (forall l, Forall is_byte (toy_digest l)) as Hb.
  { intros l. apply Forall_map, Forall_forall. intros i _. apply Z.mod_pos_bound. reflexivity. }
  pose proof (handshake toy_digest Hl Hb client_request [] [0] client_request_ok) as H.
  cbv zeta in H.
  destruct (handler_parse websocket_request_handler_init _ _) as [ret h1]. cbn [snd].
  destruct (generate_response toy_digest _ h1) as [answer h2]. cbn [fst].
  destruct H as (_ & _ & H).
  - simpl. lia.
  - vm_compute. repeat (constructor; [split; [discriminate|reflexivity]|]). constructor.
  - discriminate.
  - vm_compute. reflexivity.
  - destruct H as [H _]. exact H.
Defined.

Lemma handshake_answers_witness :
  phr_parse_response (switching_protocols toy_digest (str "dGhlIHNhbXBsZSBub25jZQ==") ++ [0]) 129 0 sample_out =
    (Ret 129, response_out (switching_response toy_digest (str "dGhlIHNhbXBsZSBub25jZQ==")) (response_start sample_out)) /\
  fst (phr_parse_response (response_bad_request ++ [0]) (length response_bad_request) 0 sample_out) = Ret (-2).
Proof.
  assert (forall l, length (toy_digest l) = 20%nat) as Hl by reflexivity.
  assert (forall l, Forall is_byte (toy_digest l)) as Hb.
  { intros l. apply Forall_map, Forall_forall. intros i _. apply Z.mod_pos_bound. reflexivity. }
  destruct (handshake_answers toy_digest Hl Hb (str "dGhlIHNhbXBsZSBub25jZQ==") sample_out [0] [0])
    as (H1 & _ & H2 & H3); [discriminate|vm_compute; lia|discriminate|].
  rewrite H2 in H1. split; [exact H1|exact H3].
Defined.
