(* ===== verification/WsServer.v ===== *)
(** * A WebSocket server

    Models [src/example/include/common/websocket.h], the echo server
    [src/example/websocket/websocket_echo.cpp] and [websocket_discard.cpp] beside it, the
    programs in which the parts of the library meet: the handshake, the frame parser, the mask and the frame header over a
    socket. The socket is what the client sends, cut into the pieces [recv_some] gives, and
    what has been sent. *)

From Stdlib Require Import String.
From S2P Require Import Prelude WsFrame WsMask Pico PicoLoops PicoStable PicoGrammar PicoHeaders PicoRequest HttpParser Base64 WsHandshake.
Local Open Scope Z_scope.

(** ** The socket *)

Record net := mk_net { chunks : list (list Z); sent : list (list Z) }.

(** What may happen in a coroutine: a result, an exception - [Err] - or undefined
    behaviour. *)
Abbreviation io := (stateful net).

(** The exceptions: that of the socket at the end of the stream,
    [websocket_close_exception] and [http_bad_request_exception]. *)
Definition end_of_stream : Z := 1.
Definition websocket_close_exception : Z := 2.
Definition http_bad_request_exception : Z := 3.

(** [recv_some] with room for some bytes: the next piece, or what fits of it. *)
Definition recv_some (room : nat) : io (list Z) := fun n =>
  match chunks n with
  | [] => (Err end_of_stream, n)
  | c :: cs =>
      (Ret (take room c), mk_net (match drop room c with [] => cs | rest => rest :: cs end) (sent n))
  end.

(** [send] of some buffers. *)
Definition send (data : list Z) : io unit := fun n => (Ret tt, mk_net (chunks n) (sent n ++ [data])).

Definition throw {A} (e : Z) : io A := lift (Err e).

Definition MAX_HTTP_REQUEST_SIZE : Z := 1024.
Definition MAX_WEBSOCKET_FRAME_SIZE : Z := 1024.
Definition MAX_WEBSOCKET_APP_DATA_LEN : Z := 1000.

(** ** The handshake *)

Section server.
Context (SHA1 : list Z -> list Z).

(** [websocket_handshake]: the loop; undefined when the fuel runs out, which 1024 is enough
    to prevent. The [ret] of the loop hides the one tested behind it, which stays 0. *)
Fixpoint handshake_loop (fuel : nat) (buf : list Z) (recv_bytes : nat) (parser : websocket_request_handler)
  : io unit :=
  if negb (Z.of_nat recv_bytes <? MAX_HTTP_REQUEST_SIZE) then mret tt
  else
    match fuel with
    | O => lift Ub
    | S fuel =>
        d ← recv_some (length buf - recv_bytes);
        let buf := list_inserts recv_bytes d buf in
        let recv_bytes := (recv_bytes + length d)%nat in
        let '(ret, parser) := handler_parse parser buf recv_bytes in
        ret ← lift ret;
        if ret =? -1 then handshake_loop fuel buf recv_bytes parser
        else send (fst (generate_response SHA1 buf parser))
    end.

Definition websocket_handshake : io unit :=
  _ ← handshake_loop (Z.to_nat MAX_HTTP_REQUEST_SIZE) (replicate (Z.to_nat MAX_HTTP_REQUEST_SIZE) 0) 0
        websocket_request_handler_init;
  let ret := 0 in
  if ret =? -2 then throw http_bad_request_exception else mret tt.

(** ** Frames *)

(** [htons], in memory. *)
Definition status_bytes (status_code : Z) : list Z := [Z.shiftr status_code 8; Z.land status_code 0xFF].

Definition websocket_send_close {A} (status_code : Z) : io A :=
  let header := frame_header_make (flags_or WS_OP_CLOSE WS_FINAL_FRAME) 2 in
  _ ← send (frame_header_view header ++ status_bytes status_code);
  throw websocket_close_exception.

Definition websocket_check_parser_result (parser : header_parser) : io Z :=
  let '(flags, mask, length) := parser_result parser in
  if websocket_flags_not_none (flags_and flags WS_OP_CLOSE) then websocket_send_close 1000
  else if negb (websocket_flags_not_none (flags_and flags WS_FINAL_FRAME)) then websocket_send_close 1003
  else if negb (websocket_flags_not_none (flags_and flags WS_HAS_MASK)) then websocket_send_close 1008
  else if MAX_WEBSOCKET_APP_DATA_LEN <? length then websocket_send_close 1009
  else mret length.

(** [websocket_recv_data]: the buffer afterwards, and the data unmasked in it. Without a
    header to the end of the buffer, or with a span that is not in it, it is undefined. *)
Fixpoint recv_data_loop (fuel : nat) (buf : list Z) (recv_bytes : nat) (parser : header_parser)
  : io (list Z * list Z) :=
  match fuel with
  | O => lift Ub
  | S fuel =>
      if negb (Z.of_nat recv_bytes <? MAX_HTTP_REQUEST_SIZE) then lift Ub
      else
        d ← recv_some (length buf - recv_bytes);
        let buf := list_inserts recv_bytes d buf in
        let recv_bytes := (recv_bytes + length d)%nat in
        let '(parser, ret) := parse (take recv_bytes buf) parser in
        if ret =? UINT32_MAX then recv_data_loop fuel buf recv_bytes parser
        else
          let '(flags, mask, len) := parser_result parser in
          _ ← websocket_check_parser_result parser;
          if (len =? 0) then mret (buf, [])
          else if Z.of_nat (length buf) <? ret + len then lift Ub
          else
            let data := fst (websocket_mask (take (Z.to_nat len) (drop (Z.to_nat ret) buf)) mask 0) in
            mret (list_inserts (Z.to_nat ret) data buf, data)
  end.

Definition websocket_recv_data (buf : list Z) : io (list Z * list Z) :=
  recv_data_loop (S (Z.to_nat MAX_HTTP_REQUEST_SIZE)) buf 0 parser_init.

(** ** The echo server *)

Definition echo_once (buf : list Z) : io (list Z) :=
  '(buf, data) ← websocket_recv_data buf;
  let header := frame_header_make (flags_or WS_FINAL_FRAME WS_OP_TEXT) (Z.of_nat (length data)) in
  _ ← send (frame_header_view header ++ data);
  mret buf.

(** [while(true)]: the loop only ends by an exception. *)
Fixpoint echo_loop (fuel : nat) (buf : list Z) : io unit :=
  match fuel with
  | O => lift Ub
  | S fuel => buf ← echo_once buf; echo_loop fuel buf
  end.

(** [websocket_echo]: how it has ended - an exception is caught - and what it has sent. *)
Definition websocket_echo (fuel : nat) (received : list (list Z)) : outcome unit * list (list Z) :=
  let '(r, n) :=
    (_ ← websocket_handshake; echo_loop fuel (replicate (Z.to_nat MAX_WEBSOCKET_FRAME_SIZE) 0))
    (mk_net received []) in
  (r, sent n).

(** [websocket_discard] of [src/example/websocket/websocket_discard.cpp]: the same without an
    answer to the frames. *)
Definition discard_once (buf : list Z) : io (list Z) :=
  '(buf, _) ← websocket_recv_data buf; mret buf.

Fixpoint discard_loop (fuel : nat) (buf : list Z) : io unit :=
  match fuel with
  | O => lift Ub
  | S fuel => buf ← discard_once buf; discard_loop fuel buf
  end.

Definition websocket_discard (fuel : nat) (received : list (list Z)) : outcome unit * list (list Z) :=
  let '(r, n) :=
    (_ ← websocket_handshake; discard_loop fuel (replicate (Z.to_nat MAX_WEBSOCKET_FRAME_SIZE) 0))
    (mk_net received []) in
  (r, sent n).

(** ** What a client sends and gets *)

(** A frame with its flags, masking key and data. *)
Record frame := mk_frame { f_flags : Z; f_mask : Z; f_data : list Z }.

(** The frames the server takes: final, masked, not a control frame, of at most 1000 bytes. *)
Record frame_ok (f : frame) : Prop := {
  frame_flags : flags_ok (f_flags f);
  frame_masked : has_mask (f_flags f) = true;
  frame_final : is_fin (f_flags f) = true;
  frame_data_frame : flags_and (f_flags f) WS_OP_CLOSE = 0;
  frame_mask : 0 <= f_mask f < 2 ^ 32;
  frame_bytes : Forall is_byte (f_data f);
  frame_length : Z.of_nat (length (f_data f)) <= MAX_WEBSOCKET_APP_DATA_LEN;
}.

Definition header_of (f : frame) : list Z :=
  header_bytes (f_flags f) (uint32_bytes (f_mask f)) (Z.of_nat (length (f_data f))).

Definition client_frame (f : frame) : list Z := header_of f ++ fst (websocket_mask (f_data f) (f_mask f) 0).

(** What comes back. *)
Definition TEXT_FRAME : Z := 0x11.
Definition server_frame (data : list Z) : list Z :=
  header_bytes TEXT_FRAME (replicate 4 0) (Z.of_nat (length data)) ++ data.

Lemma header_length f : frame_ok f -> (2 <= length (header_of f) <= 8)%nat.
Proof.
  intros Hf. pose proof (length_header_bytes (f_flags f) (uint32_bytes (f_mask f)) (Z.of_nat (length (f_data f))) eq_refl) as H.
  rewrite calc_frame_header_size_eq, (frame_masked f Hf) in H.
  pose proof (frame_length f Hf) as Hl. unfold MAX_WEBSOCKET_APP_DATA_LEN in Hl. unfold ext_offset, header_of in *.
  destruct (Z.ltb_spec (Z.of_nat (length (f_data f))) 126); [lia|].
  destruct (Z.leb_spec (Z.of_nat (length (f_data f))) 0xFFFF); lia.
Qed.

Lemma client_frame_length f : frame_ok f ->
  length (client_frame f) = (length (header_of f) + length (f_data f))%nat /\ (2 <= length (client_frame f) <= 1008)%nat.
Proof.
  intros Hf. unfold client_frame. rewrite length_app, websocket_mask_length. pose proof (header_length f Hf).
  pose proof (frame_length f Hf) as Hl. unfold MAX_WEBSOCKET_APP_DATA_LEN in Hl. lia.
Qed.

(** The parser on a frame. *)
Lemma parse_client f : frame_ok f ->
  exists p, parse (client_frame f) parser_init = (p, Z.of_nat (length (header_of f))) /\
    parser_result p = (f_flags f, f_mask f, Z.of_nat (length (f_data f))).
Proof.
  intros Hf. pose proof (frame_length f Hf) as Hl. unfold MAX_WEBSOCKET_APP_DATA_LEN in Hl.
  eexists. split.
  - rewrite parse_run by apply parser_init_ok. unfold client_frame, header_of.
    rewrite run_header by (apply Hf || done || lia). reflexivity.
  - unfold parser_result, parser_flags, parser_length, read_mask. cbn [m_flags m_length]. rewrite (frame_masked f Hf).
    rewrite (mask_uint32_bytes (f_mask f)); [done|apply Hf|done].
Qed.

Lemma bind_Ret {A B} (m : io A) (f : A -> io B) n n' a : m n = (Ret a, n') -> (m ≫= f) n = f a n'.
Proof. intros E. unfold mbind, stateful_bind. by rewrite E. Qed.

Lemma bind_Err {A B} (m : io A) (f : A -> io B) n n' e : m n = (Err e, n') -> (m ≫= f) n = (Err e, n').
Proof. intros E. unfold mbind, stateful_bind. by rewrite E. Qed.

(** A piece that fits is received as a whole. *)
Lemma recv_some_whole room c cs out : (length c <= room)%nat ->
  recv_some room (mk_net (c :: cs) out) = (Ret c, mk_net cs out).
Proof. intros H. unfold recv_some. cbn [chunks sent]. by rewrite take_ge, drop_ge by done. Qed.

Lemma check_ok f p n : frame_ok f -> parser_result p = (f_flags f, f_mask f, Z.of_nat (length (f_data f))) ->
  websocket_check_parser_result p n = (Ret (Z.of_nat (length (f_data f))), n).
Proof.
  intros Hf E. unfold websocket_check_parser_result. rewrite E.
  rewrite (frame_data_frame f Hf). cbn [websocket_flags_not_none Z.eqb negb].
  change WS_FINAL_FRAME with WS_FIN. fold (is_fin (f_flags f)) (has_mask (f_flags f)).
  rewrite (frame_final f Hf), (frame_masked f Hf). cbn [negb].
  pose proof (frame_length f Hf). by destruct (Z.ltb_spec MAX_WEBSOCKET_APP_DATA_LEN (Z.of_nat (length (f_data f)))); [lia|].
Qed.

(** A frame that arrives as one piece is received. *)
Lemma recv_data_whole fuel f cs out buf : frame_ok f -> Z.of_nat (length buf) = MAX_WEBSOCKET_FRAME_SIZE ->
  exists buf', Z.of_nat (length buf') = MAX_WEBSOCKET_FRAME_SIZE /\
    recv_data_loop (S fuel) buf 0 parser_init (mk_net (client_frame f :: cs) out) = (Ret (buf', f_data f), mk_net cs out).
Proof.
  intros Hf Hb. destruct (client_frame_length f Hf) as [Hl Hr]. destruct (parse_client f Hf) as (p & Hp & Hres).
  pose proof (header_length f Hf) as Hh. unfold MAX_WEBSOCKET_FRAME_SIZE in *.
  cbn [recv_data_loop].
  change (negb (Z.of_nat 0 <? MAX_HTTP_REQUEST_SIZE)) with false. cbv iota.
  rewrite (bind_Ret _ _ _ _ _ (recv_some_whole (length buf - 0) (client_frame f) cs out ltac:(lia))).
  rewrite inserts_splice by lia. rewrite take_0, app_nil_l, !Nat.add_0_l, take_app_length, Hp.
  destruct (Z.eqb_spec (Z.of_nat (length (header_of f))) UINT32_MAX) as [E|_]; [unfold UINT32_MAX in E; lia|].
  rewrite Hres, (bind_Ret _ _ _ _ _ (check_ok f p _ Hf Hres)).
  set (buf1 := client_frame f ++ drop (length (client_frame f)) buf).
  assert (Z.of_nat (length buf1) = 1024) as Hb1 by (unfold buf1; rewrite length_app, length_drop; lia).
  destruct (Z.eqb_spec (Z.of_nat (length (f_data f))) 0) as [E|E].
  - exists buf1. split; [done|]. destruct (f_data f); [done|simpl in E; lia].
  - rewrite Hb1. destruct (Z.ltb_spec 1024 (Z.of_nat (length (header_of f)) + Z.of_nat (length (f_data f)))); [lia|].
    rewrite !Nat2Z.id. unfold buf1, client_frame. rewrite <- !app_assoc, drop_app_length.
    rewrite take_app_length' by by rewrite websocket_mask_length.
    rewrite websocket_mask_twice by apply Hf.
    eexists. split; [|reflexivity]. rewrite length_inserts, app_assoc. exact Hb1.
Qed.

Lemma recv_data_end fuel buf out :
  recv_data_loop (S fuel) buf 0 parser_init (mk_net [] out) = (Err end_of_stream, mk_net [] out).
Proof.
  cbn [recv_data_loop]. change (negb (Z.of_nat 0 <? MAX_HTTP_REQUEST_SIZE)) with false. cbv iota. by apply bind_Err.
Qed.

(** ** The echo server *)

Lemma echo_once_frame f cs out buf : frame_ok f -> Z.of_nat (length buf) = MAX_WEBSOCKET_FRAME_SIZE ->
  exists buf', Z.of_nat (length buf') = MAX_WEBSOCKET_FRAME_SIZE /\
    echo_once buf (mk_net (client_frame f :: cs) out) = (Ret buf', mk_net cs (out ++ [server_frame (f_data f)])).
Proof.
  intros Hf Hb. destruct (recv_data_whole (Z.to_nat MAX_HTTP_REQUEST_SIZE) f cs out buf Hf Hb) as (buf' & Hb' & E). exists buf'. split; [done|].
  unfold echo_once, websocket_recv_data. rewrite (bind_Ret _ _ _ _ _ E). pose proof (frame_length f Hf) as Hl.
  unfold MAX_WEBSOCKET_APP_DATA_LEN in Hl.
  rewrite (proj1 (frame_header_make_view _ (Z.of_nat (length (f_data f))) ltac:(lia))). reflexivity.
Qed.

(** Frames that are taken, and what comes behind them. *)
Lemma echo_loop_frames fs : Forall frame_ok fs -> forall fuel buf cs out, (length fs <= fuel)%nat ->
  Z.of_nat (length buf) = MAX_WEBSOCKET_FRAME_SIZE ->
  exists buf', Z.of_nat (length buf') = MAX_WEBSOCKET_FRAME_SIZE /\
    echo_loop fuel buf (mk_net ((client_frame <$> fs) ++ cs) out) =
    echo_loop (fuel - length fs) buf' (mk_net cs (out ++ (server_frame ∘ f_data <$> fs))).
Proof.
  induction 1 as [|f fs Hf _ IH]; intros fuel buf cs out Hfuel Hb.
  - exists buf. split; [done|]. by rewrite app_nil_r, Nat.sub_0_r.
  - destruct fuel as [|fuel]; [simpl in Hfuel; lia|]. cbn [echo_loop].
    destruct (echo_once_frame f ((client_frame <$> fs) ++ cs) out buf Hf Hb) as (buf1 & Hb1 & E).
    rewrite fmap_cons. cbn [app]. rewrite (bind_Ret _ _ _ _ _ E).
    destruct (IH fuel buf1 cs (out ++ [server_frame (f_data f)])) as (buf' & Hb' & ->); [simpl in Hfuel; lia|done|].
    exists buf'. split; [done|]. by rewrite <- app_assoc.
Qed.

Lemma echo_loop_end fuel buf out : (0 < fuel)%nat -> echo_loop fuel buf (mk_net [] out) = (Err end_of_stream, mk_net [] out).
Proof. destruct fuel; [lia|]. intros _. cbn [echo_loop]. apply bind_Err. unfold echo_once. apply bind_Err. apply recv_data_end. Qed.

(** The status with which a frame is refused: it has the bit of a control frame, is not
    final, has no mask, or has more than 1000 bytes. *)
Definition refusal (flags len : Z) : option Z :=
  if negb (flags_and flags WS_OP_CLOSE =? 0) then Some 1000
  else if negb (is_fin flags) then Some 1003
  else if negb (has_mask flags) then Some 1008
  else if MAX_WEBSOCKET_APP_DATA_LEN <? len then Some 1009
  else None.

Definition close_frame (status : Z) : list Z :=
  frame_header_view (frame_header_make (flags_or WS_OP_CLOSE WS_FINAL_FRAME) 2) ++ status_bytes status.

Lemma recv_data_refused fuel flags mask len more status cs out buf :
  flags_ok flags -> length mask = 4%nat -> 0 <= len < 2 ^ 64 -> refusal flags len = Some status ->
  Z.of_nat (length buf) = MAX_WEBSOCKET_FRAME_SIZE ->
  Z.of_nat (length (header_bytes flags mask len ++ more)) <= MAX_WEBSOCKET_FRAME_SIZE ->
  recv_data_loop (S fuel) buf 0 parser_init (mk_net ((header_bytes flags mask len ++ more) :: cs) out) =
    (Err websocket_close_exception, mk_net cs (out ++ [close_frame status])).
Proof.
  intros Hf Hm Hl Hst Hb Hp. unfold MAX_WEBSOCKET_FRAME_SIZE in *. set (piece := header_bytes flags mask len ++ more) in *.
  cbn [recv_data_loop]. change (negb (Z.of_nat 0 <? MAX_HTTP_REQUEST_SIZE)) with false. cbv iota.
  rewrite (bind_Ret _ _ _ _ _ (recv_some_whole (length buf - 0) piece cs out ltac:(lia))).
  rewrite inserts_splice by lia. rewrite take_0, app_nil_l, !Nat.add_0_l, take_app_length.
  rewrite parse_run by apply parser_init_ok. unfold piece. rewrite run_header by done.
  assert (length (header_bytes flags mask len) <= length piece)%nat by (unfold piece; rewrite length_app; lia).
  unfold ret_size. cbn [fst snd].
  destruct (Z.eqb_spec (Z.of_nat (length (header_bytes flags mask len))) UINT32_MAX) as [E|_]; [unfold UINT32_MAX in E; lia|].
  set (p := WsFrame.mk_parser _ _ _ _ _). unfold parser_result. cbv iota beta. apply bind_Err.
  assert (m_flags p = flags /\ m_length p = len) as [Ef El] by done. clearbody p.
  unfold websocket_check_parser_result, parser_result, parser_flags, parser_length. rewrite Ef, El.
  change WS_FINAL_FRAME with WS_FIN. fold (is_fin flags) (has_mask flags).
  revert Hst. unfold refusal, websocket_flags_not_none at 1. destruct (flags_and flags WS_OP_CLOSE =? 0); cbn [negb]; [|by intros [= <-]].
  destruct (is_fin flags); cbn [negb]; [|by intros [= <-]]. destruct (has_mask flags); cbn [negb]; [|by intros [= <-]].
  destruct (MAX_WEBSOCKET_APP_DATA_LEN <? len); [by intros [= <-]|done].
Qed.

Lemma echo_loop_refused fuel flags mask len more status cs out buf : (0 < fuel)%nat ->
  flags_ok flags -> length mask = 4%nat -> 0 <= len < 2 ^ 64 -> refusal flags len = Some status ->
  Z.of_nat (length buf) = MAX_WEBSOCKET_FRAME_SIZE ->
  Z.of_nat (length (header_bytes flags mask len ++ more)) <= MAX_WEBSOCKET_FRAME_SIZE ->
  echo_loop fuel buf (mk_net ((header_bytes flags mask len ++ more) :: cs) out) =
    (Err websocket_close_exception, mk_net cs (out ++ [close_frame status])).
Proof.
  destruct fuel as [|fuel]; [lia|]. intros _ Hf Hm Hl Hst Hb Hp. cbn [echo_loop].
  apply bind_Err. unfold echo_once. apply bind_Err. unfold websocket_recv_data. by apply recv_data_refused.
Qed.

Context (SHA1_length : forall l, length (SHA1 l) = 20%nat) (SHA1_bytes : forall l, Forall is_byte (SHA1 l)).

(** A request the handler accepts, that fits into the buffer. *)
Record accepted (r : request) : Prop := {
  accepted_ok : request_ok r;
  accepted_lines : (length (rq_lines r) <= 100)%nat;
  accepted_bytes : Forall is_byte (request_bytes r);
  accepted_length : Z.of_nat (length (request_bytes r)) < MAX_HTTP_REQUEST_SIZE;
  accepted_fields : bool_decide (rq_method r = str "GET") && (rq_minor r =? 1) &&
    forallb field_ok (fields (rq_lines r)) = true;
}.

Lemma handshake_step fuel buf r cs out : accepted r -> Z.of_nat (length buf) = MAX_HTTP_REQUEST_SIZE ->
  guarded (drop (length (request_bytes r)) buf) ->
  handshake_loop (S fuel) buf 0 websocket_request_handler_init (mk_net (request_bytes r :: cs) out) =
    (Ret tt, mk_net cs (out ++ [switching_protocols SHA1 (last_key (fields (rq_lines r)) default_key)])).
Proof.
  intros [Hr Hl Hb Hlen Hf] Hbuf Hg. unfold MAX_HTTP_REQUEST_SIZE in Hlen, Hbuf. set (req := request_bytes r) in *.
  cbn [handshake_loop]. change (negb (Z.of_nat 0 <? MAX_HTTP_REQUEST_SIZE)) with false. cbv iota.
  rewrite (bind_Ret _ _ _ _ _ (recv_some_whole (length buf - 0) req cs out ltac:(lia))).
  rewrite inserts_splice by lia. rewrite take_0, app_nil_l, !Nat.add_0_l.
  pose proof (handshake_whole SHA1 SHA1_length SHA1_bytes r [] (drop (length req) buf) Hr Hl) as H.
  cbv zeta in H. rewrite !app_nil_r in H. fold req in H. specialize (H Hb Hg ltac:(lia)).
  rewrite app_nil_l in H.
  destruct (handler_parse _ _ _) as [ret h1]. destruct (generate_response SHA1 _ h1) as [answer h2].
  destruct H as (-> & _ & H). rewrite Hf in H. destruct H as [-> _].
  unfold mbind, stateful_bind, lift. destruct (Z.eqb_spec (Z.of_nat (length req)) (-1)); [lia|]. reflexivity.
Qed.

Lemma guarded_buffer n : (n < Z.to_nat MAX_HTTP_REQUEST_SIZE)%nat ->
  guarded (drop n (replicate (Z.to_nat MAX_HTTP_REQUEST_SIZE) 0)).
Proof.
  intros Hn. rewrite drop_replicate. destruct (Z.to_nat MAX_HTTP_REQUEST_SIZE - n)%nat as [|k] eqn:E; [lia|]. done.
Qed.

Lemma length_buffer n : 0 <= n -> Z.of_nat (length (replicate (Z.to_nat n) 0)) = n.
Proof. intros Hn. rewrite length_replicate. lia. Qed.

Lemma handshake_net r cs out : accepted r ->
  websocket_handshake (mk_net (request_bytes r :: cs) out) =
    (Ret tt, mk_net cs (out ++ [switching_protocols SHA1 (last_key (fields (rq_lines r)) default_key)])).
Proof.
  intros Hr. unfold websocket_handshake. pose proof (accepted_length r Hr) as Hlen.
  assert (exists k, Z.to_nat MAX_HTTP_REQUEST_SIZE = S k) as [k Hk] by (unfold MAX_HTTP_REQUEST_SIZE; exists (Z.to_nat 1023); lia).
  rewrite Hk at 1. rewrite (bind_Ret _ _ _ _ _ (handshake_step k _ r cs out Hr
    (length_buffer MAX_HTTP_REQUEST_SIZE ltac:(done)) (guarded_buffer (length (request_bytes r)) ltac:(lia)))). done.
Qed.

(** The server that discards answers the handshake and nothing else. *)
Lemma discard_loop_frames fs : Forall frame_ok fs -> forall fuel buf out, (length fs < fuel)%nat ->
  Z.of_nat (length buf) = MAX_WEBSOCKET_FRAME_SIZE ->
  discard_loop fuel buf (mk_net (client_frame <$> fs) out) = (Err end_of_stream, mk_net [] out).
Proof.
  induction 1 as [|f fs Hf _ IH]; intros [|fuel] buf out Hfuel Hb; try (simpl in Hfuel; lia).
  - cbn [discard_loop]. apply bind_Err. unfold discard_once. apply bind_Err. apply recv_data_end.
  - cbn [discard_loop].
    destruct (recv_data_whole (Z.to_nat MAX_HTTP_REQUEST_SIZE) f (client_frame <$> fs) out buf Hf Hb) as (buf' & Hb' & E).
    assert (discard_once buf (mk_net (client_frame f :: (client_frame <$> fs)) out) =
      (Ret buf', mk_net (client_frame <$> fs) out)) as E2.
    { unfold discard_once, websocket_recv_data. by rewrite (bind_Ret _ _ _ _ _ E). }
    rewrite fmap_cons, (bind_Ret _ _ _ _ _ E2). apply IH; [simpl in Hfuel; lia|done].
Qed.

Lemma discard_server r fs fuel : accepted r -> Forall frame_ok fs -> (length fs < fuel)%nat ->
  websocket_discard fuel (request_bytes r :: (client_frame <$> fs)) =
    (Err end_of_stream, [switching_protocols SHA1 (last_key (fields (rq_lines r)) default_key)]).
Proof.
  intros Hr Hfs Hfuel. unfold websocket_discard. rewrite (bind_Ret _ _ _ _ _ (handshake_net r _ [] Hr)).
  by rewrite (discard_loop_frames fs Hfs fuel _ _ Hfuel (length_buffer MAX_WEBSOCKET_FRAME_SIZE ltac:(done))).
Qed.

(** A frame of the server, read by the parser. *)
Lemma server_frame_parsed data : Z.of_nat (length data) < 2 ^ 64 ->
  let '(p, n) := parse (server_frame data) parser_init in
  parser_result p = (TEXT_FRAME, 0, Z.of_nat (length data)) /\ drop (Z.to_nat n) (server_frame data) = data.
Proof.
  intros Hl. rewrite parse_run by apply parser_init_ok. unfold server_frame.
  rewrite run_header by (done || lia || reflexivity). unfold ret_size. cbn [fst snd].
  split; [reflexivity|]. rewrite Nat2Z.id. by rewrite drop_app_length.
Qed.

(** C25: the echo server. A client sends a request the handler accepts, and then frames that
    the server takes - final, masked, without the bit of a control frame, of at most 1000
    bytes - the request and each frame received as a piece of its own (a request in two
    pieces is answered 400, [split_request], and of a frame the first byte alone is refused,
    [split_frame_closed]). The server answers the handshake for the key, and then, in order,
    each frame with one that has no mask and, read by the parser, the same data; it stops at
    the end of the stream. When a frame it does not take comes behind them, of which the
    first piece has at least the header, it answers all before it, and then with a closing
    frame: status 1000 for the bit of a control frame, 1003 when it is not final, 1008
    without a mask, 1009 when it is longer; and stops. *)
Theorem echo_server r fs fuel : accepted r -> Forall frame_ok fs -> (length fs < fuel)%nat ->
  let answer := switching_protocols SHA1 (last_key (fields (rq_lines r)) default_key) in
  websocket_echo fuel (request_bytes r :: (client_frame <$> fs)) =
    (Err end_of_stream, answer :: (server_frame ∘ f_data <$> fs)) /\
  Forall (fun f =>
    let '(p, n) := parse (server_frame (f_data f)) parser_init in
    parser_result p = (TEXT_FRAME, 0, Z.of_nat (length (f_data f))) /\
    drop (Z.to_nat n) (server_frame (f_data f)) = f_data f) fs /\
  forall flags mask len more status rest,
    flags_ok flags -> length mask = 4%nat -> 0 <= len < 2 ^ 64 -> refusal flags len = Some status ->
    Z.of_nat (length (header_bytes flags mask len ++ more)) <= MAX_WEBSOCKET_FRAME_SIZE ->
    websocket_echo fuel (request_bytes r :: (client_frame <$> fs) ++ (header_bytes flags mask len ++ more) :: rest) =
      (Err websocket_close_exception, answer :: (server_frame ∘ f_data <$> fs) ++ [close_frame status]).
Proof.
  intros Hr Hfs Hfuel answer.
  assert (Hloop : forall cs, exists buf fuel', Z.of_nat (length buf) = MAX_WEBSOCKET_FRAME_SIZE /\ (0 < fuel')%nat /\
    websocket_echo fuel (request_bytes r :: (client_frame <$> fs) ++ cs) =
      (let '(x, n) := echo_loop fuel' buf (mk_net cs (answer :: (server_frame ∘ f_data <$> fs))) in (x, sent n))).
  { intros cs. unfold websocket_echo. rewrite (bind_Ret _ _ _ _ _ (handshake_net r _ [] Hr)).
    destruct (echo_loop_frames fs Hfs fuel (replicate (Z.to_nat MAX_WEBSOCKET_FRAME_SIZE) 0) cs [answer]) as (buf & Hb & E);
      [lia|by apply length_buffer|].
    exists buf, (fuel - length fs)%nat. split; [done|]. split; [lia|]. rewrite app_nil_l.
    fold answer. cbn [app] in E. by rewrite E. }
  split; [|split].
  - destruct (Hloop []) as (buf & fuel' & _ & Hf & E). rewrite app_nil_r in E. rewrite E, echo_loop_end by done. done.
  - eapply list.Forall_impl; [exact Hfs|]. intros f Hf. pose proof (frame_length f Hf) as Hl.
    unfold MAX_WEBSOCKET_APP_DATA_LEN in Hl. apply server_frame_parsed. lia.
  - intros flags mask len more status rest H1 H2 H3 H4 H5.
    destruct (Hloop ((header_bytes flags mask len ++ more) :: rest)) as (buf & fuel' & Hb & Hf & ->).
    by rewrite (echo_loop_refused fuel' flags mask len more status) by done.
Qed.

End server.

(** ** What it needs the pieces for *)

(** A frame of which the first byte arrives alone: the value for an incomplete header is
    [SIZE_MAX] and not [UINT32_MAX], so that the flags read so far are taken for those of
    the frame, which has no mask then: the connection is closed with the status 1008. *)
Lemma split_frame_closed b fuel cs out buf : is_byte b ->
  Z.land b 0x8 = 0 -> 128 <= b -> Z.of_nat (length buf) = MAX_WEBSOCKET_FRAME_SIZE ->
  recv_data_loop (S fuel) buf 0 parser_init (mk_net ([b] :: cs) out) =
    (Err websocket_close_exception, mk_net cs (out ++ [close_frame 1008])).
Proof.
  intros Hb H8 Hfin Hbuf. unfold MAX_WEBSOCKET_FRAME_SIZE in Hbuf.
  cbn [recv_data_loop]. change (negb (Z.of_nat 0 <? MAX_HTTP_REQUEST_SIZE)) with false. cbv iota.
  rewrite (bind_Ret _ _ _ _ _ (recv_some_whole (length buf - 0) [b] cs out ltac:(cbn [length]; lia))).
  rewrite inserts_splice by (cbn [length]; lia). rewrite take_0, app_nil_l, !Nat.add_0_l, take_app_length.
  unfold parse. cbn [length parse_loop m_state parser_init].
  change (npos =? UINT32_MAX) with false. cbv iota.
  pose proof (range_check (fun b =>
    implb ((Z.land b 0x8 =? 0) && (128 <=? b))
      (let f := m_flags (on_start b parser_init) in
       (flags_and f WS_OP_CLOSE =? 0) && is_fin f && negb (has_mask f))) 256 eq_refl b Hb) as H.
  cbv beta in H. rewrite (proj2 (Z.eqb_eq _ _) H8), (proj2 (Z.leb_le _ _) Hfin) in H.
  cbn [andb implb] in H. cbv zeta in H. apply andb_true_iff in H as [[H1%Z.eqb_eq H2]%andb_true_iff H3%negb_true_iff].
  unfold parser_result, parser_flags, parser_length. set (p := on_start b parser_init) in *. cbv iota beta.
  apply bind_Err. unfold websocket_check_parser_result, parser_result, parser_flags, parser_length.
  rewrite H1. change (websocket_flags_not_none 0) with false. cbv iota.
  change WS_FINAL_FRAME with WS_FIN. fold (is_fin (m_flags p)) (has_mask (m_flags p)). rewrite H2, H3. reflexivity.
Qed.

(** ** Witness *)

Definition text_frame (mask : Z) (data : list Z) : frame := mk_frame 0x31 mask data.

Lemma client_request_accepted : accepted client_request.
Proof.
  split.
  - exact client_request_ok.
  - simpl. lia.
  - vm_compute. repeat (constructor; [split; [discriminate|reflexivity]|]). constructor.
  - reflexivity.
  - vm_compute. reflexivity.
Qed.

Lemma echo_server_witness :
  let good := request_bytes client_request :: (client_frame <$> [text_frame 0xA1B2C3D4 [104; 105]; text_frame 7 []]) in
  let answers := switching_protocols toy_digest (str "dGhlIHNhbXBsZSBub25jZQ==") :: [[0x81; 2; 104; 105]; [0x81; 0]] in
  websocket_echo toy_digest 3 good = (Err end_of_stream, answers) /\
  websocket_echo toy_digest 3 (good ++ [header_bytes 0x31 [1; 2; 3; 4] 1001 ++ [5; 6]]) =
    (Err websocket_close_exception, answers ++ [[0x88; 2; 3; 0xF1]]).
Proof.
  assert (forall l, length (toy_digest l) = 20%nat) as Hl by reflexivity.
  assert (forall l, Forall is_byte (toy_digest l)) as Hb.
  { intros l. apply List.Forall_map, Forall_forall. intros i _. apply Z.mod_pos_bound. reflexivity. }
  destruct (echo_server toy_digest Hl Hb client_request [text_frame 0xA1B2C3D4 [104; 105]; text_frame 7 []] 3
    client_request_accepted) as (H & _ & H').
  - repeat (constructor; [split; first [reflexivity | done | unfold flags_ok; simpl; lia
      | repeat constructor; unfold is_byte; lia]|]). constructor.
  - simpl. lia.
  - split; [exact H|]. refine (H' 0x31 [1; 2; 3; 4] 1001 [5; 6] 1009 [] _ eq_refl _ eq_refl _); [unfold flags_ok; lia|lia|discriminate].
Defined.

(** A request that arrives in two pieces is answered [400 Bad Request] after the first: the
    value for an incomplete request is -2 and not -1. *)
Example split_request :
  fst (websocket_handshake toy_digest (mk_net [take 40 (request_bytes client_request); drop 40 (request_bytes client_request)] []))
    = Ret tt /\
  sent (snd (websocket_handshake toy_digest
    (mk_net [take 40 (request_bytes client_request); drop 40 (request_bytes client_request)] []))) = [response_bad_request].
Proof. split; vm_compute; reflexivity. Qed.
