(* ===== verification/ModuleList.v ===== *)
(** * The types of descriptors

    Models the metafunctions of [detail/module_list.h] and [file_descriptor.h] of
    [src/include/xynet], with [detail/file_descriptor_traits.h]: a descriptor type is a list
    of module templates, which code asks for the modules of a descriptor and for their
    policies. Templates are functions from their arguments, and a type that the compiler
    rejects is [None]. *)

From Stdlib Require Import String.
From stdpp Require Import strings.
From S2P Require Import Prelude.

(** ** Types *)

(** A class type is a template with its arguments; [Plain] is a class without. *)
Inductive type := Void | Plain (name : string) | Inst (template : string) (args : list type).

Fixpoint type_ind' (P : type -> Prop) (Hv : P Void) (Hp : forall n, P (Plain n))
  (Hi : forall t args, Forall P args -> P (Inst t args)) (t : type) : P t :=
  match t with
  | Void => Hv
  | Plain n => Hp n
  | Inst n args =>
      Hi n args ((fix go (l : list type) : Forall P l :=
        match l with [] => List.Forall_nil _ | x :: l => List.Forall_cons _ _ _ (type_ind' P Hv Hp Hi x) (go l) end) args)
  end.

(** [std::is_same_v] *)
Fixpoint is_same (t u : type) : bool :=
  match t, u with
  | Void, Void => true
  | Plain n, Plain m => String.eqb n m
  | Inst n ts, Inst m us =>
      String.eqb n m &&
      (fix go (ts us : list type) : bool :=
        match ts, us with [], [] => true | t :: ts, u :: us => is_same t u && go ts us | _, _ => false end) ts us
  | _, _ => false
  end.

(** [template <typename...> typename]: a class template, or an alias template. *)
Definition template : Type := list type -> type.
Definition class_template (name : string) : template := Inst name.

(** ** Module lists *)

(** [module_list<ops...>] *)
Definition module_list : Type := list template.

Definition is_empty (l : module_list) : bool := match l with [] => true | _ => false end.
Definition front (l : module_list) : option template :=
  match l with head :: _ => Some (fun Ts => head Ts) | [] => None end.
Definition front_type (l : module_list) (Ts : list type) : option type := (fun f => f Ts) <$> front l.
Definition push_front (l : module_list) (new_element : template) : module_list := new_element :: l.
Definition pop_front (l : module_list) : option module_list :=
  match l with _ :: tail => Some tail | [] => None end.

(** [map<list, MetaFunc>]: its two specialisations; the recursion is on [pop_front]. *)
Fixpoint map_ (n : nat) (l : module_list) (MetaFunc : template -> template) : option module_list :=
  if is_empty l then Some l
  else match n with
       | O => None
       | S n => t ← pop_front l; f ← front l; r ← map_ n t MetaFunc; Some (push_front r (MetaFunc f))
       end.
Definition map (l : module_list) (MetaFunc : template -> template) : option module_list :=
  map_ (List.length l) l MetaFunc.

(** [with<T>::map_front]: gives a template its first argument. *)
Definition with_ (T : type) (module : template) : template := fun Ts => module (T :: Ts).

(** ** Type lists *)

Definition typelist_front (l : type) : option type :=
  match l with Inst _ (head :: _) => Some head | _ => None end.
Definition typelist_pop_front (l : type) : option type :=
  match l with Inst list_ (_ :: tails) => Some (Inst list_ tails) | _ => None end.

(** [typelist_find<List, Target>]; both branches of [std::conditional_t] are instantiated. *)
Fixpoint typelist_find_ (args : list type) (Target : type) : type :=
  match args with
  | [] => Void
  | head :: tails => let rest := typelist_find_ tails Target in if is_same Target head then head else rest
  end.
Definition typelist_find (l Target : type) : option type :=
  match l with Inst _ args => Some (typelist_find_ args Target) | _ => None end.

(** ** Descriptors *)

(** [file_descriptor<module_list<Modules...>>] *)
Definition file_descriptor : Type := module_list.

Definition inst_module_list : string := "inst_module_list".
Definition file_descriptor_inst_module_list (F : file_descriptor) : type :=
  Inst inst_module_list (List.map (fun m : template => m [Void]) F).

(** [module_match<L, R>]: the class template of [L] is [R]. *)
Definition module_match (L : type) (R : string) : bool :=
  match L with Inst n _ => String.eqb n R | _ => false end.

Fixpoint inst_module_list_match_ (args : list type) (Target : string) : type :=
  match args with
  | [] => Void
  | head :: tails =>
      let rest := inst_module_list_match_ tails Target in if module_match head Target then head else rest
  end.
Definition inst_module_list_match (l : type) (Target : string) : type :=
  match l with
  | Inst n args => if String.eqb n inst_module_list then inst_module_list_match_ args Target else Void
  | _ => Void
  end.

Definition get_policy_from_module (Module : type) : option type :=
  match Module with
  | Inst _ [T; Void] => Some T
  | Void => Some Void
  | _ => None
  end.

Definition file_descriptor_has_module_v (F : file_descriptor) (Module : string) : bool :=
  negb (is_same (inst_module_list_match (file_descriptor_inst_module_list F) Module) Void).
Definition policy_from_file_descriptor_t (F : file_descriptor) (Module : string) : option type :=
  get_policy_from_module (inst_module_list_match (file_descriptor_inst_module_list F) Module).

(** ** What operations return *)

Definition tuple (Ts : list type) : type := Inst "std::tuple" Ts.
Definition error_code : type := Plain "std::error_code".

(** [file_descriptor_operation_return_type<P, Rs...>], for a [P] that uses error codes or
    not. *)
Definition file_descriptor_operation_return_type (use_error_code : bool) (Rs : list type) : type :=
  match Rs with
  | [] => if use_error_code then error_code else Void
  | [R] => if use_error_code then tuple [error_code; R] else R
  | _ => if use_error_code then tuple (error_code :: Rs) else tuple Rs
  end.

(** ** The sockets *)

Definition socket_modules : list string :=
  ["socket_init"; "address"; "operation_shutdown"; "operation_set_options"; "operation_bind";
   "operation_listen"; "operation_accept"; "operation_connect"; "operation_send";
   "operation_recv"; "operation_close"]%string.
Definition socket_t : file_descriptor := class_template <$> socket_modules.

(** ** Properties *)

Lemma is_same_spec t : forall u, is_same t u = true <-> t = u.
Proof.
  induction t as [|n|n ts IH] using type_ind'; intros [|m|m us]; cbn; try done.
  - rewrite String.eqb_eq. split; [by intros ->|by intros [= ->]].
  - rewrite andb_true_iff, String.eqb_eq.
    assert ((fix go (ts us : list type) : bool :=
        match ts, us with [], [] => true | t :: ts, u :: us => is_same t u && go ts us | _, _ => false end) ts us = true
        <-> ts = us) as ->.
    { revert us. induction IH as [|t ts Ht _ IHts]; intros [|u us]; try done.
      rewrite andb_true_iff, Ht, IHts. split; [by intros [-> ->]|by intros [= -> ->]]. }
    split; [by intros [-> ->]|by intros [= -> ->]].
Qed.

Lemma map_list l f : map l f = Some (List.map (fun m Ts => f (fun Ts => m Ts) Ts) l).
Proof.
  unfold map. induction l as [|m l IH]; [done|]. cbn. rewrite IH. done.
Qed.

Lemma match_list Ts names M :
  inst_module_list_match_ (List.map (fun n => Inst n Ts) names) M = if decide (M ∈ names) then Inst M Ts else Void.
Proof.
  induction names as [|n names IH]; [done|]. cbn. rewrite IH. destruct (String.eqb_spec n M) as [->|Hne].
  - by rewrite decide_True by by left.
  - destruct (decide (M ∈ names)) as [H|H].
    + by rewrite decide_True by by right.
    + rewrite decide_False; [done|]. intros [->|]%elem_of_cons; done.
Qed.

Lemma fst_inst Ts (F : list string) :
  List.map (fun m : template => m Ts) (class_template <$> F) = List.map (fun n => Inst n Ts) F.
Proof. unfold fmap. induction F as [|n F IH]; [done|]. cbn. by rewrite IH. Qed.

Lemma with_inst P Ts (F : list string) :
  List.map (fun m : template => m Ts) (List.map (fun m Ts => with_ P (fun Ts => m Ts) Ts) (class_template <$> F)) =
  List.map (fun n => Inst n (P :: Ts)) F.
Proof. unfold fmap. induction F as [|n F IH]; [done|]. cbn. by rewrite IH. Qed.

Lemma is_same_void t : is_same t Void = false <-> t <> Void.
Proof.
  rewrite <- (is_same_spec t Void). destruct (is_same t Void); split; congruence.
Qed.

(** The types. A descriptor made of class templates has exactly the modules of its list,
    also after [map] has given each of them a policy as its first argument; the list keeps
    its order, and the policy found is the one given for the modules in it and [void] for
    others, while without a policy it is not defined; and [typelist_find] finds what is in
    the list. *)
Theorem module_types names P M :
  let F := class_template <$> names in
  exists G, map F (with_ P) = Some G /\
    file_descriptor_has_module_v F M = bool_decide (M ∈ names) /\
    file_descriptor_has_module_v G M = bool_decide (M ∈ names) /\
    policy_from_file_descriptor_t G M = Some (if bool_decide (M ∈ names) then P else Void) /\
    policy_from_file_descriptor_t F M = (if bool_decide (M ∈ names) then None else Some Void) /\
    file_descriptor_inst_module_list G = Inst inst_module_list (List.map (fun n => Inst n [P; Void]) names) /\
    typelist_find (file_descriptor_inst_module_list G) (Inst M [P; Void]) =
      Some (if bool_decide (M ∈ names) then Inst M [P; Void] else Void).
Proof.
  cbv zeta. eexists. split; [apply map_list|].
  unfold file_descriptor_has_module_v, policy_from_file_descriptor_t, file_descriptor_inst_module_list.
  rewrite with_inst, fst_inst. cbn [inst_module_list_match]. rewrite String.eqb_refl, !match_list.
  split_and!; try done; try (case_bool_decide as H; destruct (decide (M ∈ names)); done).
  cbn [typelist_find]. f_equal. induction names as [|n names IH]; [done|]. cbn [List.map typelist_find_].
  rewrite IH. destruct (is_same (Inst M [P; Void]) (Inst n [P; Void])) eqn:E.
  - apply is_same_spec in E. injection E as <-. by rewrite bool_decide_true by by left.
  - assert (M <> n) as Hne by (intros ->; by rewrite (proj2 (is_same_spec _ _) eq_refl) in E).
    destruct (decide (M ∈ names)) as [H|H].
    + by rewrite !bool_decide_true by auto using list_elem_of_further.
    + rewrite !bool_decide_false; [done|by intros [?|?]%elem_of_cons|done].
Qed.

(** Sockets have an address. *)
Lemma socket_has_address : file_descriptor_has_module_v socket_t "address" = true.
Proof. reflexivity. Qed.
