(* ===== verification/AwaitableTraits.v ===== *)
(** * The types of awaiting

    Models the metafunctions of [coroutine] of [src/include/xynet] that say what a type gives
    when it is awaited: [detail/is_awaiter.h], [detail/get_awaiter.h], [detail/any.h],
    [is_awaitable.h], [awaitable_traits.h], [detail/unwrap_reference.h] and
    [detail/remove_rvalue_reference.h], and the types that [task], [make_task] and
    [when_all_ready] make with them. What a class declares is a parameter; an expression has
    the type of a reference, to an lvalue or to an rvalue. *)

From S2P Require Import Prelude.

(** ** Types *)

(** [Scalar] are the arithmetic types and pointers, [Awaitable b t] the awaitables of
    [task<t>]: [b] is whether it is that of an rvalue. *)
Inductive type :=
| TVoid
| TBool
| Scalar (n : nat)
| CoroutineHandle
| Class_ (n : nat)
| Task (t : type)
| Awaitable (rvalue : bool) (t : type)
| ReferenceWrapper (t : type)
| Lref (t : type)
| Rref (t : type).

#[export] Instance type_eq_dec : EqDecision type.
Proof. solve_decision. Defined.

Definition remove_reference (t : type) : type := match t with Lref t | Rref t => t | t => t end.

(** [T&&] and [T&], with the collapsing of references. *)
Definition rref (t : type) : type := match t with TVoid | Lref _ | Rref _ => t | t => Rref t end.
Definition lref (t : type) : type := match t with TVoid => t | Lref t | Rref t | t => Lref t end.

(** [unwrap_reference_t] and [remove_rvalue_reference_t]. *)
Definition unwrap_reference (t : type) : type := match t with ReferenceWrapper t => t | t => t end.
Definition remove_rvalue_reference (t : type) : type := match t with Rref t => t | t => t end.

(** What classes declare: the type of a call on an expression, if it is well-formed. *)
Record declarations := mk_declarations {
  member_co_await : type -> option type;
  operator_co_await : type -> option type;
  await_ready : type -> option type;
  await_suspend : type -> option type;
  await_resume : type -> option type;
  bool_constructible : type -> bool;
}.

Section traits.
Context (d : declarations).

(** ** [is_awaiter] *)

Definition is_coroutine_handle (t : type) : bool := match t with CoroutineHandle => true | _ => false end.

Definition is_valid_await_suspend_return_value (t : type) : bool :=
  bool_decide (t = TVoid) || bool_decide (t = TBool) || is_coroutine_handle t.

Definition is_awaiter (t : type) : bool :=
  match await_ready d (rref t), await_suspend d (rref t), await_resume d (rref t) with
  | Some ready, Some suspend, Some _ => bool_constructible d ready && is_valid_await_suspend_return_value suspend
  | _, _, _ => false
  end.

(** ** [get_awaiter] *)

(** The conversion of the argument 123 to [int], [long] and [any], the best first. *)
Inductive conversion := Identity | IntegralConversion | UserConversion.
Definition rank (c : conversion) : nat :=
  match c with Identity => 0 | IntegralConversion => 1 | UserConversion => 2 end.

(** The overloads of [get_awaiter_impl]: the conversion, and the type if the overload is
    viable. *)
Definition get_awaiter_impl (t : type) : list (conversion * option type) :=
  [(UserConversion, if is_awaiter (rref t) then Some (rref t) else None);
   (Identity, member_co_await d (rref t));
   (IntegralConversion, operator_co_await d (rref t))].

(** Overload resolution: a viable candidate that is better than all others. *)
Fixpoint resolve (cs : list (conversion * option type)) : option (conversion * type) :=
  match cs with
  | [] => None
  | (c, None) :: cs => resolve cs
  | (c, Some t) :: cs =>
      match resolve cs with
      | Some (c', t') => if (rank c' <? rank c)%nat then Some (c', t') else Some (c, t)
      | None => Some (c, t)
      end
  end.

Definition get_awaiter (t : type) : option type := snd <$> resolve (get_awaiter_impl t).

Definition is_awaitable (t : type) : bool := bool_decide (is_Some (get_awaiter t)).

(** [awaitable_traits]: [awaiter_t] and [await_result_t]. *)
Definition awaiter_t (t : type) : option type := get_awaiter t.
Definition await_result_t (t : type) : option type := a ← awaiter_t t; await_resume d (rref a).

(** The awaiter of a [co_await] expression in the language: both operators are candidates
    alike, and without one the operand is the awaiter. *)
Definition language_awaiter (t : type) : option type :=
  match member_co_await d (rref t), operator_co_await d (rref t) with
  | Some _, Some _ => None
  | Some a, None | None, Some a => Some a
  | None, None => Some (rref t)
  end.

(** ** [make_task] and [when_all_ready] *)
Definition make_task (awaitable : type) : option type :=
  Task ∘ remove_rvalue_reference <$> await_result_t awaitable.

(** The [RESULT] of the [when_all_task] that [when_all_ready] wants for an argument, and that
    of the overload of [make_when_all_task] that is chosen for it; that for
    [reference_wrapper] is the more specialised. *)
Definition when_all_ready_result (t : type) : option type := await_result_t (unwrap_reference (remove_reference t)).
Definition make_when_all_task_result (t : type) : option type :=
  let awaitable := remove_reference t in
  match awaitable with
  | ReferenceWrapper u =>
      match await_result_t (lref u) with Some r => Some r | None => await_result_t (rref awaitable) end
  | _ => await_result_t (rref awaitable)
  end.

(** The constraint of [when_all_ready], and that the tuple of the tasks has the type that the
    awaitable is made from: a [when_all_task] is only made from one of the same [RESULT].
    That the argument can be copied or moved is not asked here. *)
Definition when_all_ready_well_typed (t : type) : Prop :=
  is_awaitable (unwrap_reference (remove_reference t)) = true /\ is_Some (when_all_ready_result t) /\ make_when_all_task_result t = when_all_ready_result t.

(** ** Properties *)

Lemma rref_rref t : rref (rref t) = rref t.
Proof. by destruct t. Qed.

Lemma get_awaiter_order t :
  get_awaiter t =
  match member_co_await d (rref t) with
  | Some a => Some a
  | None =>
      match operator_co_await d (rref t) with
      | Some a => Some a
      | None => if is_awaiter (rref t) then Some (rref t) else None
      end
  end.
Proof.
  unfold get_awaiter, get_awaiter_impl. cbn [resolve]. destruct (is_awaiter (rref t));
    destruct (member_co_await d (rref t)), (operator_co_await d (rref t)); done.
Qed.

Lemma await_result_rref t : await_result_t (rref t) = await_result_t t.
Proof. unfold await_result_t, awaiter_t. by rewrite !get_awaiter_order, rref_rref. Qed.

Lemma await_result_awaitable t : is_Some (await_result_t t) -> is_awaitable t = true.
Proof.
  intros [r Hr]. apply bool_decide_eq_true. unfold await_result_t, awaiter_t in Hr.
  destruct (get_awaiter t); [by eexists|done].
Qed.

Lemma well_typed_iff t : when_all_ready_well_typed t <->
  is_Some (when_all_ready_result t) /\ make_when_all_task_result t = when_all_ready_result t.
Proof. unfold when_all_ready_well_typed. split; [tauto|]. intros [H1 H2]. split; [by apply await_result_awaitable|done]. Qed.

(** Where only one operator is declared, the awaiter is that of the language. *)
Lemma get_awaiter_language t a : get_awaiter t = Some a ->
  member_co_await d (rref t) = None \/ operator_co_await d (rref t) = None -> language_awaiter t = Some a.
Proof.
  rewrite get_awaiter_order. unfold language_awaiter.
  destruct (member_co_await d (rref t)), (operator_co_await d (rref t)); try done; try by intros _ [|].
  by destruct (is_awaiter (rref t)).
Qed.

End traits.

(** ** [task] *)

(** What the promise's [result()] gives for an lvalue and for an rvalue. *)
Definition rvalue_type (t : type) : type := match t with TBool | Scalar _ => t | t => Rref t end.
Definition task_result (rvalue : bool) (t : type) : type :=
  match t with
  | TVoid => TVoid
  | Lref t => Lref t
  | t => if rvalue then rvalue_type t else Lref t
  end.

(** The declarations of [task] and its awaitables, besides those of other classes. *)
Definition task_declarations (d : declarations) : declarations := {|
  member_co_await e :=
    match e with
    | Lref (Task t) => Some (Awaitable false t)
    | Rref (Task t) => Some (Awaitable true t)
    | e => member_co_await d e
    end;
  operator_co_await e := match e with Lref (Task _) | Rref (Task _) => None | e => operator_co_await d e end;
  await_ready e := match e with Lref (Awaitable _ _) | Rref (Awaitable _ _) => Some TBool | e => await_ready d e end;
  await_suspend e :=
    match e with Lref (Awaitable _ _) | Rref (Awaitable _ _) => Some CoroutineHandle | e => await_suspend d e end;
  await_resume e :=
    match e with
    | Lref (Awaitable b t) | Rref (Awaitable b t) => Some (task_result b t)
    | e => await_resume d e
    end;
  bool_constructible t := match t with TBool => true | t => bool_constructible d t end;
|}.

Lemma task_await_result d t :
  await_result_t (task_declarations d) (Task t) = Some (task_result true t) /\
  await_result_t (task_declarations d) (Lref (Task t)) = Some (task_result false t).
Proof. unfold await_result_t, awaiter_t. by rewrite !get_awaiter_order. Qed.

(** An object type, [void] or an lvalue reference: what [task] can be made with. *)
Definition task_argument (t : type) : Prop := match t with Rref _ => False | _ => True end.

Lemma task_results t : task_argument t ->
  (task_result false t = task_result true t <-> t = TVoid \/ exists u, t = Lref u).
Proof.
  intros Ht. destruct t; cbn; split; try done; try (by intros [|[? ?]]); try (by right; eexists); by left.
Qed.

(** C40: the types of awaiting. [get_awaiter] takes the member [operator co_await] before the
    other, and the object itself, if it is an awaiter, last; where only one operator is
    declared that is the awaiter of the language. [make_task] of a [task<T>] is a [task<T>].
    A call of [when_all_ready] is well-typed for every awaitable that is not in a [reference_wrapper]; for
    one that is, exactly if awaiting it gives the same type as an lvalue and as an rvalue,
    so for a [task<T>] exactly if [T] is [void] or a reference. *)
Theorem awaitable_types d :
  (forall t a, get_awaiter d t = Some a ->
     member_co_await d (rref t) = None \/ operator_co_await d (rref t) = None -> language_awaiter d t = Some a) /\
  (forall t, task_argument t -> make_task (task_declarations d) (Task t) = Some (Task t)) /\
  (forall t, when_all_ready_well_typed d t <->
     is_Some (await_result_t d (unwrap_reference (remove_reference t))) /\
     forall u, remove_reference t = ReferenceWrapper u -> make_when_all_task_result d t = await_result_t d u) /\
  (forall u, is_Some (await_result_t d u) -> is_Some (await_result_t d (lref u)) ->
     (when_all_ready_well_typed d (ReferenceWrapper u) <-> await_result_t d (lref u) = await_result_t d u)) /\
  (forall t, task_argument t ->
     (when_all_ready_well_typed (task_declarations d) (ReferenceWrapper (Task t)) <-> t = TVoid \/ exists u, t = Lref u)).
Proof.
  split; [by apply get_awaiter_language|]. split; [|split; [|split]].
  - intros t Ht. unfold make_task. rewrite (proj1 (task_await_result d t)). cbn. by destruct t.
  - intros t. rewrite well_typed_iff; unfold when_all_ready_result. split.
    + intros [H1 H2]. split; [done|]. intros u Hu. by rewrite H2, Hu.
    + intros [H1 H2]. split; [done|]. destruct (remove_reference t) as [| | | | | | |u| |] eqn:E;
        first [by apply H2|unfold make_when_all_task_result; rewrite E; apply await_result_rref].
  - intros u Hu [r Hr]. rewrite well_typed_iff; unfold when_all_ready_result, make_when_all_task_result.
    cbn [remove_reference unwrap_reference]. rewrite Hr. by split; [intros [_ H]|].
  - intros t Ht. rewrite well_typed_iff; unfold when_all_ready_result, make_when_all_task_result.
    destruct (task_await_result d t) as [H1 H2]. cbn [remove_reference unwrap_reference lref]. rewrite H1, H2.
    rewrite <- task_results by done. split; [by intros [_ [= H]]|]. intros ->. split; [by eexists|done].
Qed.

(** Two tasks that are passed by [std::ref]. *)
Lemma awaitable_types_witness :
  let d := mk_declarations (fun _ => None) (fun _ => None) (fun _ => None) (fun _ => None) (fun _ => None) (fun _ => false) in
  when_all_ready_well_typed (task_declarations d) (ReferenceWrapper (Task TVoid)) /\
  ~ when_all_ready_well_typed (task_declarations d) (ReferenceWrapper (Task (Scalar 0))).
Proof.
  cbv zeta. set (d := mk_declarations _ _ _ _ _ _).
  destruct (awaitable_types d) as (_ & _ & _ & _ & H). split.
  - apply (H TVoid I). by left.
  - intros Hw. apply (H (Scalar 0) I) in Hw as [E|[u E]]; discriminate E.
Defined.
