(* ===== verification/Buffer.v ===== *)
(** * Buffer sequences

    Models [src/include/xynet/buffer.h]: the array of [iovec] a scatter or gather operation
    works on and the iterator that says where the next system call continues. The abstract
    view is the list of the addresses still to be transferred ([remaining]); [commit]
    drops from its front ([commit_drop]). Both storages, [std::array] and [std::vector],
    are a list; the deduction guides only choose between them. *)

From S2P Require Import Prelude.
Local Open Scope Z_scope.

(** ** Data *)

(** [struct iovec] *)
Record iovec := mk_iovec { iov_base : Z; iov_len : Z }.

(** [buffer_sequence_base]: [m_iterator] as an index into [m_val]. *)
Record buffer_sequence := mk_sequence { m_val : list iovec; m_iterator : nat }.

(** The constructors: one element for each buffer, as its address and its size in bytes. *)
Definition buffer_sequence_base (spans : list (Z * Z)) : buffer_sequence :=
  mk_sequence (map (fun s => mk_iovec (fst s) (snd s)) spans) 0.

(** A [std::span]: where it begins, the number of its elements and their size;
    [std::as_bytes] and [std::as_writable_bytes] give the same memory as bytes. *)
Record span := mk_span { span_data : Z; span_count : Z; span_elem : Z }.
Definition as_bytes (s : span) : Z * Z := (span_data s, span_count s * span_elem s).

(** The constructors of [buffer_sequence] and [const_buffer_sequence] from containers, each
    of which is made a span, from spans and from spans of bytes. *)
Definition buffer_sequence_spans (spans : list span) : buffer_sequence := buffer_sequence_base (map as_bytes spans).
Definition const_buffer_sequence_spans (spans : list span) : buffer_sequence :=
  buffer_sequence_base (map as_bytes spans).

(** Those from a range of ranges of elements of [elem_size] bytes. *)
Definition buffer_sequence_range (elem_size : Z) (range : list (Z * Z)) : buffer_sequence :=
  mk_sequence (map (fun b => mk_iovec (fst b) (wrap 64 (snd b * elem_size))) range) 0.

Definition const_buffer_sequence_range (elem_size : Z) (range : list (Z * Z)) : buffer_sequence :=
  mk_sequence (map (fun b => mk_iovec (fst b) (wrap 64 (snd b * elem_size))) range) 0.

Definition at_end (b : buffer_sequence) : bool := (m_iterator b =? length (m_val b))%nat.

(** A pointer into the array is an index; [None] is [nullptr]. *)
Definition get_iov_span (b : buffer_sequence) : option nat * nat :=
  if at_end b then (None, 0%nat) else (Some (m_iterator b), (length (m_val b) - m_iterator b)%nat).

Definition get_iov_ptr (b : buffer_sequence) : option nat :=
  if at_end b then None else Some (m_iterator b).

Definition get_iov_cnt (b : buffer_sequence) : nat :=
  if at_end b then 0%nat else (length (m_val b) - m_iterator b)%nat.

(** The [iovec]s a system call sees: [msg_iov] and [msg_iovlen]. *)
Definition iov (b : buffer_sequence) : list iovec :=
  match get_iov_ptr b with
  | Some i => take (get_iov_cnt b) (drop i (m_val b))
  | None => []
  end.

(** One turn of the loop of [commit], for an iterator that is not at the end. *)
Definition commit_step (len : Z) (b : buffer_sequence) (v : iovec) : Z * buffer_sequence :=
  if iov_len v <=? len
  then (len - iov_len v, mk_sequence (m_val b) (S (m_iterator b)))
  else (0, mk_sequence (<[m_iterator b := mk_iovec (iov_base v + len) (wrap 64 (iov_len v - len))]> (m_val b))
             (m_iterator b)).

(** The loop of [commit]; [fuel] bounds the number of turns. *)
Fixpoint commit_loop (fuel : nat) (len : Z) (b : buffer_sequence) : option buffer_sequence :=
  if (0 <? len) && negb (at_end b) then
    match fuel with
    | O => None
    | S fuel =>
        match m_val b !! m_iterator b with
        | Some v => let '(len, b) := commit_step len b v in commit_loop fuel len b
        | None => None
        end
    end
  else Some b.

(** Each turn but the last advances the iterator. *)
Definition commit (len : Z) (b : buffer_sequence) : option buffer_sequence :=
  commit_loop (S (length (m_val b) - m_iterator b)) len b.

(** ** The abstract view *)

Definition iov_bytes (v : iovec) : list Z := seqZ (iov_base v) (iov_len v).

(** The addresses still to be transferred, in order. *)
Definition remaining (b : buffer_sequence) : list Z :=
  concat (map iov_bytes (drop (m_iterator b) (m_val b))).

Definition iovec_ok (v : iovec) : Prop := 0 <= iov_len v < 2 ^ 64.

Definition nonempty (v : iovec) : Prop := 0 < iov_len v.

Definition sequence_ok (b : buffer_sequence) : Prop :=
  Forall iovec_ok (m_val b) /\ (m_iterator b <= length (m_val b))%nat.

Lemma iov_drop b : sequence_ok b -> iov b = drop (m_iterator b) (m_val b).
Proof.
  intros [_ Hi]. unfold iov, get_iov_ptr, get_iov_cnt, at_end.
  destruct (Nat.eqb_spec (m_iterator b) (length (m_val b))) as [E|E].
  - by rewrite E, drop_all.
  - rewrite <- length_drop. by apply take_ge.
Qed.

Lemma remaining_end b : at_end b = true -> remaining b = [].
Proof. intros E%Nat.eqb_eq. unfold remaining. by rewrite E, drop_all. Qed.

Lemma remaining_cons b v : m_val b !! m_iterator b = Some v ->
  remaining b = iov_bytes v ++ remaining (mk_sequence (m_val b) (S (m_iterator b))).
Proof. intros Hv. unfold remaining. by rewrite (drop_S _ _ _ Hv). Qed.

Lemma iov_bytes_split base len n : 0 <= n <= len ->
  iov_bytes (mk_iovec base len) = seqZ base n ++ iov_bytes (mk_iovec (base + n) (len - n)).
Proof.
  intros Hn. unfold iov_bytes. cbn [iov_base iov_len]. rewrite <- seqZ_app by lia.
  by replace (n + (len - n)) with len by lia.
Qed.

Lemma commit_loop_drop fuel len b : sequence_ok b -> 0 <= len ->
  (length (m_val b) - m_iterator b < fuel)%nat \/ (len = 0) ->
  exists b', commit_loop fuel len b = Some b' /\ sequence_ok b' /\
    remaining b' = drop (Z.to_nat len) (remaining b) /\
    length (m_val b') = length (m_val b) /\
    (Forall nonempty (m_val b) -> Forall nonempty (m_val b')).
Proof.
  revert len b. induction fuel as [|fuel IH]; intros len b Hok Hlen Hfuel; cbn [commit_loop].
  - destruct Hfuel as [?| ->]; [lia|]. exists b. by rewrite drop_0.
  - destruct (Z.ltb_spec 0 len) as [Hpos|]; [cbn [andb]|].
    2: { replace len with 0 by lia. exists b. by rewrite drop_0. }
    destruct (at_end b) eqn:Eend; cbn [negb].
    { exists b. rewrite (remaining_end b Eend), drop_nil. done. }
    pose proof Hok as [Hf Hi]. apply Nat.eqb_neq in Eend.
    destruct (lookup_lt_is_Some_2 (m_val b) (m_iterator b)) as [v Hv]; [lia|]. rewrite Hv.
    assert (iovec_ok v) as Hvok by (eapply Forall_lookup_1; eauto).
    rewrite (remaining_cons b v Hv). destruct v as [base l]. unfold iovec_ok in Hvok.
    unfold commit_step. cbn [iov_base iov_len] in *. destruct (Z.leb_spec l len).
    + destruct (IH (len - l) (mk_sequence (m_val b) (S (m_iterator b)))) as (b' & E & Hok' & Hr & Hl & Hne);
        [split; cbn; [done|lia] | lia | cbn; lia |].
      exists b'. split_and!; [done..| |done|done]. rewrite Hr, drop_app_ge.
      * f_equal. unfold iov_bytes. rewrite length_seqZ. cbn. lia.
      * unfold iov_bytes. rewrite length_seqZ. cbn. lia.
    + rewrite wrap_small by lia. set (b1 := mk_sequence _ _).
      destruct (IH 0 b1) as (b' & E & Hok' & Hr & Hl & Hne); [|lia|by right|].
      { split; cbn [b1 m_val m_iterator]; [|rewrite length_insert; lia].
        apply Forall_insert; [done|]. unfold iovec_ok. cbn. lia. }
      exists b'. split_and!; [done..| |by rewrite Hl; cbn; rewrite length_insert|].
      2: { intros H1. apply Hne, Forall_insert; [done|]. unfold nonempty. cbn. lia. }
      rewrite Hr, drop_0, (iov_bytes_split base l len), <- app_assoc by lia.
      replace (Z.to_nat len) with (length (seqZ base len)) by (rewrite length_seqZ; lia).
      rewrite drop_app_length. rewrite (remaining_cons b1 (mk_iovec (base + len) (l - len))).
      * f_equal. unfold remaining, b1. cbn [m_val m_iterator].
        by rewrite drop_insert_lt by lia.
      * cbn. apply list_lookup_insert_eq. lia.
Qed.

Lemma commit_spec len b : sequence_ok b -> 0 <= len ->
  exists b', commit len b = Some b' /\ sequence_ok b' /\
    remaining b' = drop (Z.to_nat len) (remaining b) /\
    length (m_val b') = length (m_val b) /\
    (Forall nonempty (m_val b) -> Forall nonempty (m_val b')).
Proof. intros Hok Hlen. apply commit_loop_drop; [done..|]. left. lia. Qed.

(** With no empty buffers the iterator is at the end exactly when nothing is left. *)
Lemma get_iov_ptr_None b : sequence_ok b -> Forall nonempty (m_val b) ->
  get_iov_ptr b = None <-> remaining b = [].
Proof.
  intros [_ Hi] Hne. unfold get_iov_ptr. destruct (at_end b) eqn:E.
  - split; [|done]. intros _. by apply remaining_end.
  - split; [done|]. apply Nat.eqb_neq in E. intros Hr.
    destruct (lookup_lt_is_Some_2 (m_val b) (m_iterator b)) as [v Hv]; [lia|].
    rewrite (remaining_cons b v Hv) in Hr. apply app_eq_nil in Hr as [Hr _].
    assert (nonempty v) as Hv' by (eapply Forall_lookup_1; eauto).
    apply (f_equal length) in Hr. unfold iov_bytes in Hr. rewrite length_seqZ in Hr.
    unfold nonempty in Hv'. simpl in Hr. lia.
Qed.

(** [commit(len)] ends, and what is left to transfer is what was left without its first
    [len] addresses, or nothing when [len] is larger; the [iovec]s the next system call
    gets are a list of the buffers left; and [get_iov_ptr] is null exactly when nothing is
    left, provided no buffer is empty. *)
Theorem commit_drop len b : sequence_ok b -> 0 <= len ->
  exists b', commit len b = Some b' /\ sequence_ok b' /\
    remaining b' = drop (Z.to_nat len) (remaining b) /\
    concat (map iov_bytes (iov b')) = remaining b' /\ length (iov b') = get_iov_cnt b' /\
    (Forall nonempty (m_val b) ->
      get_iov_ptr b' = None <-> Z.of_nat (length (remaining b)) <= len).
Proof.
  intros Hok Hlen. destruct (commit_spec len b Hok Hlen) as (b' & E & Hok' & Hr & _ & Hne).
  exists b'. split_and!; try done.
  - by rewrite iov_drop.
  - rewrite iov_drop by done. rewrite length_drop. unfold get_iov_cnt, at_end.
    destruct (Nat.eqb_spec (m_iterator b') (length (m_val b'))); lia.
  - intros Hn. rewrite get_iov_ptr_None by auto. rewrite Hr, <- length_zero_iff_nil, length_drop. lia.
Qed.

(** The witness: 5 bytes of buffers of 4 and 6 bytes have been transferred. *)
Lemma commit_drop_witness :
  let b := buffer_sequence_base [(1000, 4); (2000, 6)] in
  exists b', commit 5 b = Some b' /\ sequence_ok b' /\
    remaining b' = drop 5 (remaining b) /\
    concat (map iov_bytes (iov b')) = remaining b' /\ length (iov b') = get_iov_cnt b' /\
    (Forall nonempty (m_val b) -> get_iov_ptr b' = None <-> Z.of_nat (length (remaining b)) <= 5).
Proof.
  apply (commit_drop 5).
  - split; [|simpl; lia]. repeat (constructor; [split; [discriminate|reflexivity]|]). constructor.
  - discriminate.
Defined.

(** Committing in parts is committing the sum. *)
Lemma commit_add m n b b1 b2 : sequence_ok b -> 0 <= m -> 0 <= n ->
  commit m b = Some b1 -> commit n b1 = Some b2 ->
  exists b3, commit (m + n) b = Some b3 /\ remaining b3 = remaining b2.
Proof.
  intros Hok Hm Hn E1 E2. destruct (commit_spec m b Hok Hm) as (b1' & E1' & Hok1 & Hr1 & _).
  rewrite E1 in E1'. injection E1' as <-.
  destruct (commit_spec n b1 Hok1 Hn) as (b2' & E2' & _ & Hr2 & _).
  rewrite E2 in E2'. injection E2' as <-.
  destruct (commit_spec (m + n) b Hok) as (b3 & E3 & _ & Hr3 & _); [lia|].
  exists b3. split; [done|]. rewrite Hr3, Hr2, Hr1, drop_drop. f_equal. lia.
Qed.

(** A sequence of spans is the memory of the spans, in order; a range of buffers with
    elements of one size is the sequence of its spans. *)
Lemma buffer_sequence_spans_remaining ss :
  remaining (buffer_sequence_spans ss) = concat (map (fun s => seqZ (span_data s) (span_count s * span_elem s)) ss).
Proof.
  unfold remaining, buffer_sequence_spans, buffer_sequence_base. cbn [m_val m_iterator].
  by rewrite drop_0, !map_map.
Qed.

Lemma buffer_sequence_range_spans elem range : Forall (fun b => 0 <= snd b * elem < 2 ^ 64) range ->
  buffer_sequence_range elem range = buffer_sequence_spans (map (fun b => mk_span (fst b) (snd b) elem) range).
Proof.
  intros Hr. unfold buffer_sequence_range, buffer_sequence_spans, buffer_sequence_base. f_equal.
  rewrite !map_map. apply map_ext_in. intros b Hb. cbn. rewrite wrap_small; [done|].
  rewrite Forall_forall in Hr. by apply Hr.
Qed.
