(* ===== verification/StreamBuffer.v ===== *)
(** * The stream buffer

    Models [src/include/xynet/stream_buffer.h]: a [std::streambuf] over a growing vector,
    filled with [prepare]/[commit] or character by character and emptied with [consume] or
    by reading. The abstract view is a queue of bytes ([contents]); [run_queue] says that
    every sequence of operations behaves as on the queue, and that what a caller writes to
    a prepared area is what it commits. *)

From S2P Require Import Prelude.
Local Open Scope Z_scope.

(** ** Data *)

(** Where [std::vector] has the [n] characters it allocates, when the last ones were at the
    given address: in the half of the address space that a process has. *)
Class Allocator := allocate : Z -> Z -> Z.
Class AllocatorLaw {allocator : Allocator} :=
  allocate_law : forall a n, 0 <= n <= 2 ^ 62 -> 0 <= allocate a n /\ allocate a n + n < 2 ^ 63.

(** [m_buffer], with [m_buffer.data()], and the pointers of [std::streambuf], relative to
    [m_buffer.data()], which [eback()] always equals. *)
Record stream_buffer := mk_stream {
  m_data : Z;
  m_buffer : list Z;
  gptr : Z;
  egptr : Z;
  pptr : Z;
  epptr : Z;
}.

Definition DELTA : Z := 128.

Section stream_buffer.
Context {allocator : Allocator} {allocator_law : AllocatorLaw}.

Definition stream_buffer_init : stream_buffer :=
  mk_stream (allocate 0 DELTA) (replicate (Z.to_nat DELTA) 0) 0 0 0 DELTA.

Definition setg (g eg : Z) (b : stream_buffer) : stream_buffer :=
  mk_stream (m_data b) (m_buffer b) g eg (pptr b) (epptr b).

(** [pbump] and [gbump] take an [int]. *)
Definition pbump (n : Z) (b : stream_buffer) : stream_buffer :=
  mk_stream (m_data b) (m_buffer b) (gptr b) (egptr b) (pptr b + to_int n) (epptr b).
Definition gbump (n : Z) (b : stream_buffer) : stream_buffer :=
  mk_stream (m_data b) (m_buffer b) (gptr b + to_int n) (egptr b) (pptr b) (epptr b).

Definition size (b : stream_buffer) : Z := pptr b - gptr b.

(** [data()], [data_string_view()] *)
Definition data (b : stream_buffer) : list Z :=
  take (Z.to_nat (pptr b - gptr b)) (drop (Z.to_nat (gptr b)) (m_buffer b)).

(** [std::memmove] to the front of the vector. *)
Definition move_front (from n : Z) (l : list Z) : list Z :=
  take (Z.to_nat n) (drop (Z.to_nat from) l) ++ drop (Z.to_nat n) l.

(** [m_buffer.resize(n)], which may move the vector. *)
Definition vector_resize (n : Z) (v : Z * list Z) : Z * list Z :=
  (allocate (fst v) n, resize (Z.to_nat n) 0 (snd v)).

Definition reserve (n : Z) (b : stream_buffer) : stream_buffer :=
  if (n =? 0) || (n <=? epptr b - pptr b) then b else
  let gptr_pos := gptr b in
  let pptr_pos := pptr b in
  let epptr_pos := epptr b in
  let '(pptr_pos, buf) :=
    if 0 <? gptr_pos
    then (pptr_pos - gptr_pos, move_front gptr_pos (pptr_pos - gptr_pos) (m_buffer b))
    else (pptr_pos, m_buffer b) in
  let '(epptr_pos, (addr, buf)) :=
    if epptr_pos - pptr_pos <? n
    then (pptr_pos + n, vector_resize (pptr_pos + n) (m_data b, buf))
    else (epptr_pos, (m_data b, buf)) in
  mk_stream addr buf 0 pptr_pos pptr_pos epptr_pos.

(** [prepare]: the buffer and the writable area, as its position and length. *)
Definition prepare (n : Z) (b : stream_buffer) : stream_buffer * (Z * Z) :=
  let b := reserve n b in (b, (pptr b, n)).

Definition commit (n : Z) (b : stream_buffer) : stream_buffer :=
  let n := Z.min n (epptr b - pptr b) in
  let b := pbump n b in
  setg (gptr b) (pptr b) b.

(** The address a pointer holds; the sum with a [std::size_t] is one of 64 bits. *)
Definition address (ptr : Z) (b : stream_buffer) : Z := wrap 64 (m_data b + ptr).

Definition consume (n : Z) (b : stream_buffer) : stream_buffer :=
  let b := if egptr b <? pptr b then setg (gptr b) (pptr b) b else b in
  let n := if address (pptr b) b <? address (gptr b + n) b then pptr b - gptr b else n in
  gbump n b.

(** [traits_type::eof()] *)
Definition eof : Z := -1.

(** [overflow]; the character [c] is in the range of [unsigned char], or [eof]. *)
Definition overflow (c : Z) (b : stream_buffer) : Z * stream_buffer :=
  if c =? eof then (0, b) else
  let b := if pptr b =? epptr b then reserve DELTA b else b in
  let b := mk_stream (m_data b) (<[Z.to_nat (pptr b) := wrap 8 c]> (m_buffer b)) (gptr b) (egptr b)
             (pptr b) (epptr b) in
  (c, pbump 1 b).

Definition underflow (b : stream_buffer) : Z * stream_buffer :=
  if gptr b <? pptr b
  then (nth (Z.to_nat (gptr b)) (m_buffer b) 0, setg (gptr b) (pptr b) b)
  else (eof, b).

(** ** The library's use of them *)

(** [std::streambuf::sputc]: [overflow] is called only when the put area is full. *)
Definition sputc (c : Z) (b : stream_buffer) : Z * stream_buffer :=
  if pptr b <? epptr b
  then (c, mk_stream (m_data b) (<[Z.to_nat (pptr b) := wrap 8 c]> (m_buffer b)) (gptr b) (egptr b)
             (pptr b + 1) (epptr b))
  else overflow c b.

(** [std::streambuf::sgetc] *)
Definition sgetc (b : stream_buffer) : Z * stream_buffer :=
  if gptr b <? egptr b then (nth (Z.to_nat (gptr b)) (m_buffer b) 0, b) else underflow b.

(** What a caller does with a prepared area: it writes [d] to its beginning. *)
Definition write_area (pos : Z) (d : list Z) (b : stream_buffer) : stream_buffer :=
  mk_stream (m_data b) (list_inserts (Z.to_nat pos) d (m_buffer b)) (gptr b) (egptr b) (pptr b) (epptr b).

(** ** The invariant *)

Definition stream_ok (b : stream_buffer) : Prop :=
  0 <= gptr b <= egptr b /\ egptr b <= pptr b <= epptr b /\
  epptr b = Z.of_nat (length (m_buffer b)) /\ 0 <= m_data b /\ m_data b + epptr b < 2 ^ 63.

Lemma stream_buffer_init_ok : stream_ok stream_buffer_init.
Proof. unfold stream_ok, stream_buffer_init. cbn [gptr egptr pptr epptr m_buffer m_data]. pose proof (allocate_law 0 DELTA). unfold DELTA in *. simpl. lia. Qed.

(** The bytes of the queue are between [gptr] and [pptr]. *)
Lemma data_length b : stream_ok b -> Z.of_nat (length (data b)) = size b.
Proof.
  intros (H1 & H2 & H3 & H4 & H5). unfold data, size. rewrite length_take, length_drop. lia.
Qed.

Lemma to_int_id z : 0 <= z < 2 ^ 31 -> to_int z = z.
Proof. intros. apply to_int_small. lia. Qed.

Lemma reserve_spec n b : stream_ok b -> 0 <= n -> size b + n <= 2 ^ 62 ->
  let b' := reserve n b in
  stream_ok b' /\ data b' = data b /\ n <= epptr b' - pptr b' /\
  epptr b' <= Z.max (epptr b) (size b + n).
Proof.
  intros (H1 & H2 & H3 & H4 & H5) Hn Hmax. unfold reserve, size in *.
  destruct (Z.eqb_spec n 0) as [->|Hn0]; [cbn; split_and!; try done; lia|].
  destruct (Z.leb_spec n (epptr b - pptr b)); cbn [orb]; [split_and!; try done; lia|].
  set (buf := if 0 <? gptr b then move_front (gptr b) (pptr b - gptr b) (m_buffer b) else m_buffer b).
  assert (take (Z.to_nat (pptr b - gptr b)) buf = data b /\ length buf = length (m_buffer b)) as [Hbuf Hl].
  { unfold buf, data. destruct (Z.ltb_spec 0 (gptr b)).
    - unfold move_front. split.
      + apply take_app_length'. rewrite length_take, length_drop. lia.
      + rewrite length_app, length_take, !length_drop. lia.
    - by replace (gptr b) with 0 by lia. }
  assert ((if 0 <? gptr b
    then (pptr b - gptr b, move_front (gptr b) (pptr b - gptr b) (m_buffer b))
    else (pptr b, m_buffer b)) = (pptr b - gptr b, buf)) as ->.
  { unfold buf. destruct (Z.ltb_spec 0 (gptr b)); [done|]. f_equal. lia. }
  destruct (Z.ltb_spec (epptr b - (pptr b - gptr b)) n); unfold stream_ok, data;
    cbn [vector_resize fst snd gptr egptr pptr epptr m_buffer m_data];
    [rewrite length_resize; pose proof (allocate_law (m_data b) (pptr b - gptr b + n) ltac:(lia))|]; split_and!; try lia;
    rewrite drop_0, Z.sub_0_r; [|done].
  rewrite resize_ge by lia. rewrite take_app_le by (rewrite Hl; lia). done.
Qed.

Lemma prepare_spec n b : stream_ok b -> 0 <= n -> size b + n <= 2 ^ 62 ->
  let '(b', (pos, len)) := prepare n b in
  stream_ok b' /\ data b' = data b /\ pos = pptr b' /\ len = n /\ n <= epptr b' - pptr b'.
Proof.
  intros Hb Hn Hm. unfold prepare. destruct (reserve_spec n b Hb Hn Hm) as (Hok & Hd & Hr & _). done.
Qed.

(** A slice and what is put behind it. *)
Lemma slice_splice g p d (l : list Z) : (g <= p)%nat -> (p + length d <= length l)%nat ->
  take (p + length d - g) (drop g (list_inserts p d l)) = take (p - g) (drop g l) ++ d.
Proof.
  intros Hg Hp. rewrite inserts_splice by done.
  rewrite drop_app_le by (rewrite length_take; lia). replace (take p l) with (take (g + (p - g)) l) by (f_equal; lia).
  rewrite <- take_drop_commute.
  rewrite app_assoc. apply take_app_length'.
  rewrite length_app, length_take, length_drop. lia.
Qed.

(** Writing to the prepared area and committing it appends to the queue. *)
Lemma write_commit_spec d b : stream_ok b -> Z.of_nat (length d) <= epptr b - pptr b ->
  Z.of_nat (length d) < 2 ^ 31 ->
  let b' := commit (Z.of_nat (length d)) (write_area (pptr b) d b) in
  stream_ok b' /\ data b' = data b ++ d.
Proof.
  intros (H1 & H2 & H3 & H4 & H5) Hd Hint. unfold commit, write_area, setg, pbump.
  cbn [gptr egptr pptr epptr m_buffer m_data]. rewrite Z.min_l by lia. rewrite to_int_id by lia.
  split.
  - unfold stream_ok. cbn [gptr egptr pptr epptr m_buffer m_data]. rewrite length_inserts. lia.
  - unfold data. cbn [gptr egptr pptr epptr m_buffer m_data].
    replace (Z.to_nat (pptr b + Z.of_nat (length d) - gptr b))
      with (Z.to_nat (pptr b) + length d - Z.to_nat (gptr b))%nat by lia.
    rewrite slice_splice by lia. do 2 f_equal. lia.
Qed.

(** Within the address space the pointers are in the order of the positions. *)
Lemma consume_spec n b : stream_ok b -> 0 <= n < 2 ^ 63 -> size b < 2 ^ 31 ->
  stream_ok (consume n b) /\ data (consume n b) = drop (Z.to_nat n) (data b).
Proof.
  intros (H1 & H2 & H3 & H4 & H5) Hn Hsize. unfold consume, size in *.
  set (b1 := if egptr b <? pptr b then setg (gptr b) (pptr b) b else b).
  assert (stream_ok b1 /\ gptr b1 = gptr b /\ pptr b1 = pptr b /\ egptr b1 = pptr b /\
    epptr b1 = epptr b /\ m_buffer b1 = m_buffer b /\ m_data b1 = m_data b) as (Hok & E1 & E2 & E3 & E4 & E5 & E6).
  { unfold b1. destruct (Z.ltb_spec (egptr b) (pptr b)); unfold stream_ok; cbn; split_and!; try done; lia. }
  clearbody b1. unfold address. rewrite E1, E2, E6, !wrap_small by lia. unfold gbump, stream_ok, data.
  cbn [gptr egptr pptr epptr m_buffer m_data]. rewrite E1, E2, E3, E4, E5, E6.
  set (k := if m_data b + pptr b <? m_data b + (gptr b + n) then pptr b - gptr b else n).
  assert (0 <= k <= pptr b - gptr b /\ (k = n \/ (k = pptr b - gptr b /\ k < n))) as [Hk Hk'].
  { unfold k. destruct (Z.ltb_spec (m_data b + pptr b) (m_data b + (gptr b + n))); lia. }
  clearbody k. rewrite to_int_id by lia. split; [lia|].
  replace (Z.to_nat (gptr b + k)) with (Z.to_nat (gptr b) + Z.to_nat k)%nat by lia.
  rewrite <- drop_drop. set (D := drop (Z.to_nat (gptr b)) (m_buffer b)).
  rewrite take_drop_commute.
  replace (Z.to_nat k + Z.to_nat (pptr b - (gptr b + k)))%nat with (Z.to_nat (pptr b - gptr b)) by lia.
  destruct Hk' as [->|[-> Hlt]]; [done|].
  rewrite !drop_ge; [done|rewrite length_take; lia..].
Qed.

(** Beyond it, from [2 ^ 64 - m_data - gptr] on, the sum has wrapped, and is taken for less
    than [pptr]: nothing is clamped, and [consume(-1)] gives a byte back. *)
Lemma consume_wraps b : stream_ok b -> 0 < gptr b + m_data b ->
  gptr (consume (2 ^ 64 - 1) b) = gptr b - 1 /\ pptr (consume (2 ^ 64 - 1) b) = pptr b.
Proof.
  intros (H1 & H2 & H3 & H4 & H5) Hg. unfold consume.
  set (b1 := if egptr b <? pptr b then setg (gptr b) (pptr b) b else b).
  assert (gptr b1 = gptr b /\ pptr b1 = pptr b /\ m_data b1 = m_data b) as (E1 & E2 & E3) by (unfold b1; by case_match).
  clearbody b1. unfold address, gbump. cbn [gptr pptr]. rewrite E1, E2, E3.
  replace (m_data b + (gptr b + (2 ^ 64 - 1))) with (m_data b + gptr b - 1 + 1 * 2 ^ 64) by lia.
  unfold wrap. rewrite Z_mod_plus_full, !Z.mod_small by lia.
  destruct (Z.ltb_spec (m_data b + pptr b) (m_data b + gptr b - 1)); [lia|].
  change (to_int (2 ^ 64 - 1)) with (-1). lia.
Qed.

(** One character appended, by the fast path of [sputc] or by [overflow]. *)
Lemma put_spec c b : stream_ok b -> 0 <= c < 256 -> pptr b < epptr b ->
  let b' := mk_stream (m_data b) (<[Z.to_nat (pptr b) := wrap 8 c]> (m_buffer b)) (gptr b) (egptr b)
              (pptr b + 1) (epptr b) in
  stream_ok b' /\ data b' = data b ++ [c].
Proof.
  intros (H1 & H2 & H3 & H4 & H5) Hc Hp. split.
  - unfold stream_ok. cbn [gptr egptr pptr epptr m_buffer m_data]. rewrite length_insert. lia.
  - unfold data. cbn [gptr egptr pptr epptr m_buffer m_data]. rewrite wrap_small by lia.
    change (<[Z.to_nat (pptr b):=c]> (m_buffer b)) with (list_inserts (Z.to_nat (pptr b)) [c] (m_buffer b)).
    replace (Z.to_nat (pptr b + 1 - gptr b))
      with (Z.to_nat (pptr b) + length [c] - Z.to_nat (gptr b))%nat by (cbn [length]; lia).
    rewrite slice_splice by (cbn [length]; lia). do 2 f_equal. lia.
Qed.

Lemma sputc_spec c b : stream_ok b -> 0 <= c < 256 -> size b < 2 ^ 61 ->
  let '(r, b') := sputc c b in r = c /\ stream_ok b' /\ data b' = data b ++ [c].
Proof.
  intros Hb Hc Hm. unfold sputc. destruct (Z.ltb_spec (pptr b) (epptr b)) as [H|H].
  - split; [done|]. by apply put_spec.
  - unfold overflow. destruct (Z.eqb_spec c eof); [unfold eof in *; lia|].
    pose proof Hb as (_ & H2 & _). destruct (Z.eqb_spec (pptr b) (epptr b)); [|lia].
    destruct (reserve_spec DELTA b Hb) as (Hok & Hd & Hr & _); [done|unfold DELTA; lia|].
    split; [done|]. unfold pbump. cbn [gptr egptr pptr epptr m_buffer m_data].
    change (to_int 1) with 1. rewrite <- Hd. apply put_spec; [done..|].
    assert (0 < DELTA) by done. lia.
Qed.

(** Reading the first byte. *)
Lemma sgetc_spec b : stream_ok b ->
  let '(r, b') := sgetc b in
  r = match data b with c :: _ => c | [] => eof end /\ stream_ok b' /\ data b' = data b.
Proof.
  intros (H1 & H2 & H3 & H4 & H5). assert (stream_ok b) as Hb by done.
  assert (gptr b < pptr b ->
    nth (Z.to_nat (gptr b)) (m_buffer b) 0 = match data b with c :: _ => c | [] => eof end) as Hhd.
  { intros Hlt. unfold data. destruct (lookup_lt_is_Some_2 (m_buffer b) (Z.to_nat (gptr b))) as [x Hx]; [lia|].
    rewrite (drop_S _ _ _ Hx). replace (Z.to_nat (pptr b - gptr b)) with (S (Z.to_nat (pptr b - gptr b - 1))) by lia.
    cbn [take]. by apply nth_lookup_Some. }
  unfold sgetc, underflow. destruct (Z.ltb_spec (gptr b) (egptr b)).
  - split; [|done]. apply Hhd. lia.
  - destruct (Z.ltb_spec (gptr b) (pptr b)).
    + split; [by apply Hhd|]. split; [|done]. unfold stream_ok. cbn. lia.
    + split; [|done]. unfold data. by replace (Z.to_nat (pptr b - gptr b)) with 0%nat by lia.
Qed.

(** ** Sequences of operations *)

(** What a user does: fill a prepared area of [n] bytes with [d] and commit it, consume,
    append a character, or look at the first byte. *)
Inductive op := Fill (n : Z) (d : list Z) | Consume (n : Z) | Putc (c : Z) | Getc.

Definition step (o : op) (b : stream_buffer) : stream_buffer * option Z :=
  match o with
  | Fill n d => let '(b, (pos, _)) := prepare n b in
      (commit (Z.of_nat (length d)) (write_area pos d b), None)
  | Consume n => (consume n b, None)
  | Putc c => let '(r, b) := sputc c b in (b, Some r)
  | Getc => let '(r, b) := sgetc b in (b, Some r)
  end.

Fixpoint run (os : list op) (b : stream_buffer) : stream_buffer * list (option Z) :=
  match os with
  | [] => (b, [])
  | o :: os => let '(b, r) := step o b in let '(b, rs) := run os b in (b, r :: rs)
  end.

(** The same on a queue. *)
Definition qstep (o : op) (q : list Z) : list Z * option Z :=
  match o with
  | Fill _ d => (q ++ d, None)
  | Consume n => (drop (Z.to_nat n) q, None)
  | Putc c => (q ++ [c], Some c)
  | Getc => (q, Some match q with c :: _ => c | [] => eof end)
  end.

Fixpoint qrun (os : list op) (q : list Z) : list Z * list (option Z) :=
  match os with
  | [] => (q, [])
  | o :: os => let '(q, r) := qstep o q in let '(q, rs) := qrun os q in (q, r :: rs)
  end.

(** The caller writes no more than it has prepared, and appends characters; the areas are
    such that their memory can be allocated, and what is consumed does not leave the address
    space ([consume_wraps]). *)
Definition op_ok (o : op) : Prop :=
  match o with
  | Fill n d => Z.of_nat (length d) <= n < 2 ^ 61
  | Consume n => 0 <= n < 2 ^ 63
  | Putc c => 0 <= c < 256
  | Getc => True
  end.

(** How much an operation adds. *)
Definition op_size (o : op) : nat :=
  match o with Fill _ d => length d | Putc _ => 1 | _ => 0 end.

Lemma step_queue o b : stream_ok b -> op_ok o -> size b + Z.of_nat (op_size o) < 2 ^ 31 ->
  let '(b', r) := step o b in
  stream_ok b' /\ (data b', r) = qstep o (data b).
Proof.
  intros Hb Ho Hs. pose proof (data_length b Hb) as Hl. destruct o as [n d|n|c|]; simpl in Ho.
  - unfold step. pose proof (prepare_spec n b Hb ltac:(lia) ltac:(lia)) as Hp.
    destruct (prepare n b) as [b1 [pos len]]. destruct Hp as (Hok & Hd & -> & -> & Hr).
    cbn [op_size] in Hs. destruct (write_commit_spec d b1) as [H1 H2]; [done|lia|lia|].
    split; [done|]. cbn [qstep]. by rewrite H2, Hd.
  - cbn [step]. destruct (consume_spec n b) as [H1 H2]; [done|done|cbn in Hs; lia|].
    split; [done|]. cbn [qstep]. by rewrite H2.
  - unfold step. pose proof (sputc_spec c b Hb Ho ltac:(lia)) as Hp. destruct (sputc c b) as [r b'].
    destruct Hp as (-> & H1 & H2). split; [done|]. cbn [qstep]. by rewrite H2.
  - unfold step. pose proof (sgetc_spec b Hb) as Hp. destruct (sgetc b) as [r b'].
    destruct Hp as (-> & H1 & H2). split; [done|]. cbn [qstep]. by rewrite H2.
Qed.

Lemma run_queue_from os b : stream_ok b -> Forall op_ok os ->
  size b + Z.of_nat (sum_list (map op_size os)) < 2 ^ 31 ->
  let '(b', rs) := run os b in stream_ok b' /\ qrun os (data b) = (data b', rs).
Proof.
  revert b. induction os as [|o os IH]; intros b Hb Hos Hs; [done|].
  inversion Hos as [|? ? Ho Hos']; subst. 
  change (sum_list (map op_size (o :: os))) with (op_size o + sum_list (map op_size os))%nat in Hs.
  cbn [run qrun].
  pose proof (step_queue o b Hb Ho ltac:(lia)) as Hstep. destruct (step o b) as [b1 r].
  destruct Hstep as [Hb1 E]. rewrite <- E.
  assert (size b1 <= size b + Z.of_nat (op_size o)) as Hsize.
  { rewrite <- !data_length by done. apply (f_equal fst) in E. cbn [fst] in E. rewrite E.
    destruct o; cbn [qstep fst op_size]; rewrite ?length_app, ?length_drop; simpl; lia. }
  specialize (IH b1 Hb1 Hos' ltac:(lia)). destruct (run os b1) as [b' rs].
  destruct IH as [Hb' ->]. done.
Qed.

(** C33: the stream buffer refines a byte queue: after any sequence of operations - areas
    prepared, written and committed, bytes consumed (less than [2 ^ 63] at once, more than
    there are included), characters appended and read - on a fresh buffer that holds less
    than [2 ^ 31] bytes, the readable bytes ([data]) and all results are those of the queue,
    and the pointers are in order within the vector, wherever it is allocated. *)
Theorem run_queue os : Forall op_ok os -> Z.of_nat (sum_list (map op_size os)) < 2 ^ 31 ->
  let '(b, rs) := run os stream_buffer_init in
  stream_ok b /\ qrun os [] = (data b, rs) /\ size b = Z.of_nat (length (data b)).
Proof.
  intros Hos Hs. pose proof (run_queue_from os stream_buffer_init) as Hr.
  destruct (run os stream_buffer_init) as [b rs]. destruct Hr as [Hb Hq].
  - apply stream_buffer_init_ok.
  - done.
  - exact Hs.
  - split_and!; [done|done|]. symmetry. by apply data_length.
Qed.

End stream_buffer.

(** The witness: the vector is moved, the contents are moved to the front of it, and more is
    consumed than there is. *)
Definition two_places : Allocator := fun a _ => if a =? 4096 then 2 ^ 40 else 4096.

Lemma two_places_law : AllocatorLaw (allocator := two_places).
Proof. intros a n Hn. unfold allocate, two_places. destruct (a =? 4096); lia. Qed.

Lemma run_queue_witness :
  let os := [Fill 100 (replicate 100 7); Consume 60; Putc 8; Fill 120 [1; 2; 3]; Getc; Consume (2 ^ 62)] in
  let '(b, rs) := run (allocator := two_places) os (stream_buffer_init (allocator := two_places)) in
  stream_ok b /\ qrun os [] = (data b, rs) /\ m_data b = 2 ^ 40 /\ gptr b = 44.
Proof.
  pose proof (run_queue (allocator_law := two_places_law)
    [Fill 100 (replicate 100 7); Consume 60; Putc 8; Fill 120 [1; 2; 3]; Getc; Consume (2 ^ 62)]) as Hr.
  cbv zeta. destruct (run _ _) as [b rs] eqn:E. destruct Hr as (H1 & H2 & _).
  - repeat constructor; discriminate.
  - reflexivity.
  - split; [exact H1|]. split; [exact H2|]. vm_compute in E. injection E as <- _. split; reflexivity.
Defined.
