(* ===== verification/Errors.v ===== *)
(** * Error codes and the two ways to report them

    Models [detail/error_code.h], [detail/sync_operation.h] and
    [detail/throw_or_return.h] under [src/include/xynet]: a system call sets an
    [std::error_code] or makes the caller throw. A system call is a state transformer that
    returns its value and [errno]. *)

From S2P Require Import Prelude.
Local Open Scope Z_scope.

(** ** [std::error_code] *)

Inductive category := system_category | xynet_category.

#[export] Instance category_eq_dec : EqDecision category.
Proof. solve_decision. Defined.

Record error_code := mk_error { e_value : Z; e_category : category }.

#[export] Instance error_code_eq_dec : EqDecision error_code.
Proof. solve_decision. Defined.

(** [std::error_code{}], also the effect of [clear]. *)
Definition no_error : error_code := mk_error 0 system_category.

(** [assign(v, std::system_category())] *)
Definition assign (v : Z) : error_code := mk_error v system_category.

(** [explicit operator bool] *)
Definition is_error (e : error_code) : bool := negb (e_value e =? 0).

(** ** [xynet_error] *)

Inductive xynet_error := eof | no_service.

Definition xynet_error_value (e : xynet_error) : Z := match e with eof => 1 | no_service => 2 end.

Definition make_error_code (e : xynet_error) : error_code :=
  mk_error (xynet_error_value e) xynet_category.

(** [xynet_error_category_impl::message], by the enumerator named. *)
Inductive message_text := connection_read_eof | no_io_service | unknown_error.

Definition message (condition : Z) : message_text :=
  if condition =? xynet_error_value eof then connection_read_eof
  else if condition =? xynet_error_value no_service then no_io_service
  else unknown_error.

(** ** Results of functions that may throw *)

Inductive thrown (A : Type) := Returned (a : A) | Thrown (e : error_code).
Arguments Returned {A} a.
Arguments Thrown {A} e.

Section sync.
Context {W : Type}.

(** A system call: its value, [errno] and the state afterwards. *)
Definition syscall : Type := W -> Z * Z * W.

(** [detail::sync_operation]: the value left in [error]. *)
Definition sync_operation (call : syscall) (on_success : Z -> W -> W) (w : W) : error_code * W :=
  let '(ret, errno, w) := call w in
  if 0 <=? ret then (no_error, on_success ret w) else (assign errno, w).

(** The overloads without an [std::error_code]: they throw what the other one reports. *)
Definition throwing (f : W -> error_code * W) (w : W) : thrown unit * W :=
  let '(error, w) := f w in
  if is_error error then (Thrown error, w) else (Returned tt, w).

(** A failing call sets [errno] to an error number. *)
Definition call_ok (call : syscall) : Prop := forall w,
  let '(ret, errno, _) := call w in ret < 0 -> 0 < errno.

Lemma sync_operation_success call on_success w ret errno w' :
  call w = (ret, errno, w') -> 0 <= ret ->
  sync_operation call on_success w = (no_error, on_success ret w').
Proof. intros E H. unfold sync_operation. rewrite E. by destruct (Z.leb_spec 0 ret); [|lia]. Qed.

Lemma sync_operation_failure call on_success w ret errno w' :
  call w = (ret, errno, w') -> ret < 0 ->
  sync_operation call on_success w = (assign errno, w').
Proof. intros E H. unfold sync_operation. rewrite E. by destruct (Z.leb_spec 0 ret); [lia|]. Qed.

(** The overload that throws does what the other one does: it throws exactly when that one
    reports an error, and that one. *)
Lemma throwing_spec f w :
  throwing f w =
  (if is_error (fst (f w)) then Thrown (fst (f w)) else Returned tt, snd (f w)).
Proof. unfold throwing. destruct (f w) as [e w0]. cbn [fst snd]. by destruct (is_error e). Qed.

End sync.

(** ** [throw_or_return] *)

(** [async_throw_or_return<P>(errc, args...)]: with [P] using error codes the pair of the
    code and the values, otherwise the values, or the exception. *)
Definition async_throw_or_return {R} (use_error_code : bool) (errc : error_code) (args : R)
  : thrown (option error_code * R) :=
  if use_error_code then Returned (Some errc, args)
  else if is_error errc then Thrown errc else Returned (None, args).

(** [sync_throw_or_return<P>(ret)] *)
Definition sync_throw_or_return (use_error_code : bool) (ret errno : Z) : thrown (option error_code) :=
  if ret <? 0 then
    let errc := assign errno in
    if use_error_code then Returned (Some errc) else Thrown errc
  else if use_error_code then Returned (Some no_error) else Returned None.
