(* ===== verification/Address.v ===== *)
(** * Socket addresses

    Models [detail/endian.h] and [socket/impl/address.h] under [src/include/xynet]: IPv4
    addresses in network byte order as the fields of [sockaddr_in], their text, and their
    order. *)

From S2P Require Import Prelude.
From Stdlib Require Import String Ascii.
Local Open Scope Z_scope.

(** ** Byte order *)

(** [htons], [ntohs], [htonl] on a little-endian machine. *)
Definition swap16 (z : Z) : Z := Z.lor (Z.shiftl (Z.land z 255) 8) (Z.shiftr z 8).
Definition host_to_network_16 (host : Z) : Z := swap16 host.
Definition network_to_host_16 (net : Z) : Z := swap16 net.
Definition host_to_network_32 (host : Z) : Z :=
  Z.lor (Z.shiftl (swap16 (Z.land host 65535)) 16) (swap16 (Z.shiftr host 16)).

(** ** Addresses *)

Definition AF_INET : Z := 2.
Definition INADDR_ANY : Z := 0.

(** [::sockaddr_in]; the fields that are integers in network byte order are the integers a
    little-endian machine reads in them. *)
Record sockaddr_in := mk_sockaddr { sin_family : Z; sin_port : Z; s_addr : Z }.

#[export] Instance sockaddr_in_eq_dec : EqDecision sockaddr_in.
Proof. solve_decision. Defined.

Definition sockaddr_zero : sockaddr_in := mk_sockaddr 0 0 0.

(** The constructors of [socket_address]. [inet_pton] is the C library's: [None] when the
    text is no address. *)
Definition socket_address_default : sockaddr_in := mk_sockaddr AF_INET 0 0.
Definition socket_address_port (port : Z) : sockaddr_in :=
  mk_sockaddr AF_INET (host_to_network_16 port) (host_to_network_32 INADDR_ANY).

Definition ip_str_to_in_addr (inet_pton : string -> option Z) (str : string) : Z :=
  match inet_pton str with Some a => a | None => 0 end.

Definition socket_address_ip (inet_pton : string -> option Z) (ip : string) (port : Z) : sockaddr_in :=
  mk_sockaddr AF_INET (host_to_network_16 port) (ip_str_to_in_addr inet_pton ip).

(** Moving from an address leaves a zero one behind: the new and the old object. *)
Definition socket_address_move (other : sockaddr_in) : sockaddr_in * sockaddr_in :=
  (other, sockaddr_zero).

Definition port (a : sockaddr_in) : Z := network_to_host_16 (sin_port a).

(** [operator<=>] on two objects; [same] says whether they are one object. *)
Definition compare_address (same : bool) (a b : sockaddr_in) : comparison :=
  if same then Eq
  else match s_addr a ?= s_addr b with
       | Eq => Eq
       | _ => sin_port a ?= sin_port b
       end.

(** ** Text *)

(** The decimal digits of a number, as [%u] writes them. *)
Definition digit_char (d : Z) : ascii := ascii_of_nat (Z.to_nat (48 + d)).
Fixpoint decimal_loop (fuel : nat) (z : Z) (acc : string) : string :=
  match fuel with
  | O => acc
  | S fuel =>
      let acc := String (digit_char (z mod 10)) acc in
      if z <? 10 then acc else decimal_loop fuel (z / 10) acc
  end.
Definition decimal (z : Z) : string := decimal_loop 10 z EmptyString.

(** The bytes of an address in memory. *)
Definition octet (i : Z) (addr : Z) : Z := Z.land (Z.shiftr addr (8 * i)) 255.

(** [inet_ntop(AF_INET, ...)] writes four decimal numbers with dots. *)
Definition inet_ntop (addr : Z) : string :=
  (decimal (octet 0 addr) ++ "." ++ decimal (octet 1 addr) ++ "." ++
   decimal (octet 2 addr) ++ "." ++ decimal (octet 3 addr))%string.

(** [sockaddr_in_to_c_str]: [snprintf(buf, size, ...)] keeps [size - 1] characters. *)
Definition sockaddr_in_to_c_str (size : nat) (a : sockaddr_in) : string :=
  substring 0 (size - 1) (inet_ntop (s_addr a) ++ ":" ++ decimal (network_to_host_16 (sin_port a)))%string.

Definition to_str (a : sockaddr_in) : string := sockaddr_in_to_c_str 32 a.

(** ** The address module of a socket *)

Record address := mk_address { m_local_address : sockaddr_in; m_peer_address : sockaddr_in }.

Definition address_init : address := mk_address socket_address_default socket_address_default.
Definition set_local_address (x : sockaddr_in) (a : address) : address := mk_address x (m_peer_address a).
Definition set_peer_address (x : sockaddr_in) (a : address) : address := mk_address (m_local_address a) x.

(** ** Properties *)

Definition is_u16 (z : Z) : Prop := 0 <= z < 65536.
Definition is_u32 (z : Z) : Prop := 0 <= z < 2 ^ 32.

Lemma swap16_bytes hi lo : is_byte hi -> is_byte lo -> swap16 (hi * 256 + lo) = lo * 256 + hi.
Proof.
  unfold is_byte. intros Hh Hl. unfold swap16.
  change 255 with (Z.ones 8). rewrite Z.land_ones, Z.shiftr_div_pow2 by lia.
  change (2 ^ 8) with 256.
  replace ((hi * 256 + lo) mod 256) with lo by (rewrite Z.add_comm, Z.mod_add, Z.mod_small; lia).
  replace ((hi * 256 + lo) / 256) with hi by (rewrite Z.div_add_l, Z.div_small; lia).
  by apply push_byte.
Qed.

Lemma swap16_involutive z : is_u16 z -> swap16 (swap16 z) = z /\ is_u16 (swap16 z).
Proof.
  unfold is_u16. intros Hz.
  assert (is_byte (z / 256)) by (unfold is_byte; split; [apply Z.div_pos; lia|apply Z.div_lt_upper_bound; lia]).
  assert (is_byte (z mod 256)) by (unfold is_byte; apply Z.mod_pos_bound; lia).
  pose proof (Z.div_mod z 256 ltac:(lia)) as E. unfold is_byte in *.
  assert (swap16 z = z mod 256 * 256 + z / 256) as ->.
  { replace z with (z / 256 * 256 + z mod 256) at 1 by lia. by apply swap16_bytes. }
  split; [|lia]. rewrite swap16_bytes by (unfold is_byte; lia). lia.
Qed.

Lemma decimal_loop_length fuel k z acc : 0 <= z < 10 ^ Z.of_nat k -> (0 < k)%nat ->
  (String.length (decimal_loop fuel z acc) <= k + String.length acc)%nat.
Proof.
  revert k z acc. induction fuel as [|fuel IH]; intros k z acc Hz Hk; cbn [decimal_loop]; [lia|].
  destruct (Z.ltb_spec z 10); [simpl; lia|].
  destruct k as [|[|k]]; [lia|change (10 ^ Z.of_nat 1) with 10 in Hz; lia|].
  assert (0 <= z / 10 < 10 ^ Z.of_nat (S k)) as Hq.
  { split; [apply Z.div_pos; lia|]. apply Z.div_lt_upper_bound; [lia|].
    rewrite (Nat2Z.inj_succ (S k)), Z.pow_succ_r in Hz by lia. lia. }
  specialize (IH (S k) (z / 10) (String (digit_char (z mod 10)) acc) Hq ltac:(lia)).
  cbn [String.length] in IH. lia.
Qed.

Lemma decimal_length k z : 0 <= z < 10 ^ Z.of_nat k -> (0 < k)%nat ->
  (String.length (decimal z) <= k)%nat.
Proof.
  intros Hz Hk. pose proof (decimal_loop_length 10 k z EmptyString Hz Hk) as H. unfold decimal.
  cbn [String.length] in H. lia.
Qed.

Lemma octet_range i a : 0 <= octet i a < 256.
Proof. unfold octet. change 255 with (Z.ones 8). rewrite Z.land_ones by lia. apply Z.mod_pos_bound. lia. Qed.

Lemma string_length_app s1 s2 : String.length (s1 ++ s2) = (String.length s1 + String.length s2)%nat.
Proof. induction s1; simpl; congruence. Qed.

Lemma substring_all s n : (String.length s <= n)%nat -> substring 0 n s = s.
Proof.
  revert n. induction s as [|c s IH]; intros [|n] H; simpl in *; try done; [lia|].
  by rewrite IH by lia.
Qed.

Lemma inet_ntop_length a : (String.length (inet_ntop a) <= 15)%nat.
Proof.
  unfold inet_ntop. rewrite !string_length_app. cbn [String.length].
  assert (forall i, (String.length (decimal (octet i a)) <= 3)%nat) as H.
  { intros i. apply decimal_length; [|lia]. pose proof (octet_range i a). lia. }
  pose proof (H 0). pose proof (H 1). pose proof (H 2). pose proof (H 3). lia.
Qed.

(** The text of an address fits the buffer. *)
Lemma to_str_text a : is_u16 (sin_port a) ->
  to_str a = (inet_ntop (s_addr a) ++ ":" ++ decimal (port a))%string /\ (String.length (to_str a) <= 21)%nat.
Proof.
  intros Hp. unfold to_str, sockaddr_in_to_c_str, port, network_to_host_16.
  destruct (swap16_involutive _ Hp) as [_ Hrange].
  assert (String.length (inet_ntop (s_addr a) ++ ":" ++ decimal (swap16 (sin_port a)))%string <= 21)%nat as Hl.
  { rewrite !string_length_app. cbn [String.length]. pose proof (inet_ntop_length (s_addr a)).
    pose proof (decimal_length 5 (swap16 (sin_port a))) as Hd.
    unfold is_u16 in Hrange. specialize (Hd ltac:(lia) ltac:(lia)). lia. }
  by rewrite substring_all by (simpl in *; lia).
Qed.

(** [to_str] writes the four decimal octets, a colon and the decimal port in host
    order, for every address: its buffer of 32 bytes is never too small; and an address
    made from that text's IP part and [port()] is the address again. *)
Theorem to_str_roundtrip inet_pton a :
  sin_family a = AF_INET -> is_u16 (sin_port a) -> is_u32 (s_addr a) ->
  (forall x, is_u32 x -> inet_pton (inet_ntop x) = Some x) ->
  to_str a = (inet_ntop (s_addr a) ++ ":" ++ decimal (port a))%string /\
  (String.length (to_str a) < 32)%nat /\ is_u16 (port a) /\
  socket_address_ip inet_pton (inet_ntop (s_addr a)) (port a) = a.
Proof.
  intros Hf Hp Ha Hpton. destruct (to_str_text a Hp) as [E Hl].
  destruct (swap16_involutive _ Hp) as [Hinv Hrange]. split; [done|]. split; [lia|]. split; [done|].
  unfold port, network_to_host_16.
  unfold socket_address_ip, ip_str_to_in_addr, host_to_network_16. rewrite Hpton, Hinv by done.
  destruct a. simpl in *. by subst.
Qed.

(** An [inet_pton] that reads back what [inet_ntop] writes. *)
Definition digit_value (c : ascii) : option Z :=
  let n := Z.of_nat (nat_of_ascii c) in if (48 <=? n) && (n <=? 57) then Some (n - 48) else None.

Fixpoint read_number (n : Z) (s : string) : Z * string :=
  match s with
  | String c s' => match digit_value c with Some d => read_number (n * 10 + d) s' | None => (n, s) end
  | EmptyString => (n, s)
  end.

Definition read_dot (s : string) : option string :=
  match s with String "." s' => Some s' | _ => None end.

Definition read_address (s : string) : option Z :=
  let '(a, s) := read_number 0 s in
  s ← read_dot s; let '(b, s) := read_number 0 s in
  s ← read_dot s; let '(c, s) := read_number 0 s in
  s ← read_dot s; let '(d, s) := read_number 0 s in
  match s with EmptyString => Some (a + 256 * (b + 256 * (c + 256 * d))) | _ => None end.

Lemma digit_value_char d : 0 <= d < 10 -> digit_value (digit_char d) = Some d.
Proof.
  intros Hd. apply (range_check (fun d => bool_decide (digit_value (digit_char d) = Some d)) 10) in Hd;
    [by apply bool_decide_eq_true in Hd | by vm_compute].
Qed.

Lemma read_decimal_loop fuel z acc : 0 <= z < 10 ^ Z.of_nat fuel -> (0 < fuel)%nat ->
  read_number 0 (decimal_loop fuel z acc) = read_number z acc.
Proof.
  revert z acc. induction fuel as [|fuel IH]; intros z acc Hz Hf; [lia|]. cbn [decimal_loop].
  assert (forall n, read_number n (String (digit_char (z mod 10)) acc) =
    read_number (n * 10 + z mod 10) acc) as Hstep.
  { intros n. cbn [read_number]. rewrite digit_value_char; [done|]. apply Z.mod_pos_bound. lia. }
  pose proof (Z.div_mod z 10 ltac:(lia)) as E. destruct (Z.ltb_spec z 10).
  - rewrite Hstep, Z.mod_small by lia. done.
  - rewrite Nat2Z.inj_succ, Z.pow_succ_r in Hz by lia.
    destruct fuel as [|fuel]; [simpl in Hz; lia|]. rewrite IH.
    + rewrite Hstep. f_equal. lia.
    + split; [apply Z.div_pos; lia|apply Z.div_lt_upper_bound; lia].
    + lia.
Qed.

Lemma string_app_assoc s1 s2 s3 : ((s1 ++ s2) ++ s3 = s1 ++ (s2 ++ s3))%string.
Proof. induction s1; simpl; congruence. Qed.

Lemma string_app_nil_r s : (s ++ EmptyString = s)%string.
Proof. induction s; simpl; congruence. Qed.

Lemma decimal_loop_app fuel z acc s : (decimal_loop fuel z acc ++ s = decimal_loop fuel z (acc ++ s))%string.
Proof.
  revert z acc. induction fuel as [|fuel IH]; intros z acc; cbn [decimal_loop]; [done|].
  destruct (z <? 10); [done|]. by rewrite IH.
Qed.

Lemma read_decimal z s : 0 <= z < 256 ->
  match s with String c _ => digit_value c = None | EmptyString => True end ->
  read_number 0 (decimal z ++ s) = (z, s).
Proof.
  intros Hz Hs. unfold decimal. rewrite decimal_loop_app.
  rewrite read_decimal_loop by (simpl; lia). simpl.
  destruct s as [|c s]; [done|]. cbn [read_number]. by rewrite Hs.
Qed.

Lemma octets_sum x : is_u32 x ->
  octet 0 x + 256 * (octet 1 x + 256 * (octet 2 x + 256 * octet 3 x)) = x.
Proof.
  unfold is_u32. intros Hx. unfold octet. change 255 with (Z.ones 8).
  rewrite !Z.land_ones, !Z.shiftr_div_pow2 by lia.
  change (2 ^ (8 * 0)) with 1. change (2 ^ (8 * 1)) with 256.
  change (2 ^ (8 * 2)) with (256 * 256). change (2 ^ (8 * 3)) with (256 * 256 * 256).
  change (2 ^ 8) with 256. rewrite Z.div_1_r, <- !Z.div_div by lia.
  pose proof (Z.div_mod x 256 ltac:(lia)). set (y := x / 256) in *.
  pose proof (Z.div_mod y 256 ltac:(lia)). set (z := y / 256) in *.
  pose proof (Z.div_mod z 256 ltac:(lia)). set (w := z / 256) in *.
  assert (0 <= w < 256).
  { unfold w, z, y. rewrite !Z.div_div by lia. split; [apply Z.div_pos; lia|].
    apply Z.div_lt_upper_bound; lia. }
  rewrite (Z.mod_small w) by lia. lia.
Qed.

Lemma read_address_spec x : is_u32 x -> read_address (inet_ntop x) = Some x.
Proof.
  intros Hx. unfold inet_ntop, read_address.
  assert (forall i, 0 <= octet i x < 256) as Ho by (intros; apply octet_range).
  do 3 (rewrite read_decimal by done; cbn [read_dot String.append mbind option_bind]).
  rewrite <- (string_app_nil_r (decimal (octet 3 x))), read_decimal by done.
  by rewrite octets_sum.
Qed.

(** The witness: 127.0.0.1 with the port 8080. *)
Lemma to_str_roundtrip_witness :
  let a := mk_sockaddr AF_INET (host_to_network_16 8080) 16777343 in
  to_str a = (inet_ntop 16777343 ++ ":" ++ decimal 8080)%string /\
  (String.length (to_str a) < 32)%nat /\ is_u16 8080 /\
  socket_address_ip read_address (inet_ntop 16777343) 8080 = a.
Proof.
  apply (to_str_roundtrip read_address (mk_sockaddr AF_INET (host_to_network_16 8080) 16777343)).
  - reflexivity.
  - split; [discriminate|reflexivity].
  - split; [discriminate|reflexivity].
  - exact read_address_spec.
Defined.

(** [operator<=>] finds two different address objects equivalent exactly when they have
    the same IP address, whatever their ports, or the same port, whatever their IP
    addresses; this is not transitive, so it is no order of addresses. *)
Theorem compare_address_eq a b c :
  (compare_address false a b = Eq <-> s_addr a = s_addr b \/ sin_port a = sin_port b) /\
  (s_addr a = s_addr b -> sin_port b = sin_port c -> s_addr b <> s_addr c -> sin_port a <> sin_port b ->
   compare_address false a b = Eq /\ compare_address false b c = Eq /\
   compare_address false a c <> Eq).
Proof.
  assert (forall a b, compare_address false a b = Eq <->
    s_addr a = s_addr b \/ sin_port a = sin_port b) as H.
  { clear. intros a b. unfold compare_address. destruct (Z.compare_spec (s_addr a) (s_addr b)).
    - naive_solver.
    - rewrite Z.compare_eq_iff. split; [by right|intros [?|?]; [lia|done]].
    - rewrite Z.compare_eq_iff. split; [by right|intros [?|?]; [lia|done]]. }
  split; [apply H|]. intros H1 H2 H3 H4. rewrite !H. split_and!; [by left|by right|].
  intros [E|E]; congruence.
Qed.

(** The witness: 1.0.0.127:80, 1.0.0.127:81 and 2.0.0.127:81. *)
Lemma compare_address_eq_witness :
  compare_address false (mk_sockaddr 2 80 1) (mk_sockaddr 2 81 1) = Eq /\
  compare_address false (mk_sockaddr 2 81 1) (mk_sockaddr 2 81 2) = Eq /\
  compare_address false (mk_sockaddr 2 80 1) (mk_sockaddr 2 81 2) <> Eq.
Proof.
  apply (compare_address_eq (mk_sockaddr 2 80 1) (mk_sockaddr 2 81 1) (mk_sockaddr 2 81 2));
    try reflexivity; discriminate.
Defined.
