(* ===== verification/Descriptor.v ===== *)
(** * File descriptors and the synchronous socket operations

    Models [file_descriptor.h] and, under [socket/impl], [socket_init.h], [bind.h],
    [listen.h], [shutdown.h] and [setsockopt.h] of [src/include/xynet]. The operating
    system is the interface [Os]: an abstract state, the system calls on it and the laws of
    POSIX the code relies on. [fd_table] is an implementation of the interface. *)

From stdpp Require Import gmap.
From S2P Require Import Prelude Errors Address.
Local Open Scope Z_scope.

(** ** The operating system *)

(** The system calls the library makes on descriptors. *)
Class Os (W : Type) := {
  sys_socket : W -> Z * Z * W;
  sys_close : Z -> W -> Z * Z * W;
  sys_bind : Z -> sockaddr_in -> W -> Z * Z * W;
  sys_getsockname : Z -> W -> sockaddr_in;
  sys_listen : Z -> Z -> W -> Z * Z * W;
  sys_shutdown : Z -> Z -> W -> Z * Z * W;
  sys_setsockopt : Z -> Z -> Z -> list Z -> W -> Z * Z * W;
  is_open : Z -> W -> Prop;       (* the descriptor is open *)
  closes : W -> list Z;           (* the arguments of [close] so far *)
}.

(** A call that opens and closes nothing. *)
Definition frames {W : Type} `{Os W} (call : W -> Z * Z * W) : Prop :=
  forall w ret errno w', call w = (ret, errno, w') ->
    closes w' = closes w /\ forall fd, is_open fd w' <-> is_open fd w.

(** What POSIX says about them: a call fails with a positive [errno]; [socket] returns a
    descriptor that was not open; [close] closes its argument; the other calls change no
    descriptor. *)
Class OsLaws (W : Type) `{Os W} := {
  socket_law : forall w ret errno w', sys_socket w = (ret, errno, w') ->
    closes w' = closes w /\
    ((0 <= ret /\ ~ is_open ret w /\ forall fd, is_open fd w' <-> fd = ret \/ is_open fd w) \/
     (ret = -1 /\ 0 < errno /\ forall fd, is_open fd w' <-> is_open fd w));
  close_law : forall fd w ret errno w', sys_close fd w = (ret, errno, w') ->
    closes w' = closes w ++ [fd] /\ (ret < 0 -> 0 < errno) /\
    forall fd', is_open fd' w' <-> fd' <> fd /\ is_open fd' w;
  bind_law : forall fd a, call_ok (sys_bind fd a);
  listen_law : forall fd n, call_ok (sys_listen fd n);
  shutdown_law : forall fd how, call_ok (sys_shutdown fd how);
  setsockopt_law : forall fd l n v, call_ok (sys_setsockopt fd l n v);
  bind_frame : forall fd a, frames (sys_bind fd a);
  listen_frame : forall fd n, frames (sys_listen fd n);
  shutdown_frame : forall fd how, frames (sys_shutdown fd how);
  setsockopt_frame : forall fd l n v, frames (sys_setsockopt fd l n v);
}.

(** ** Sockets *)

(** A [socket_t]: the descriptor and the address module. *)
Record socket := mk_socket { m_fd : Z; addresses : address }.

Definition set_fd (fd : Z) (s : socket) : socket := mk_socket fd (addresses s).

(** [valid()] *)
Definition valid (s : socket) : bool := 0 <=? m_fd s.

(** The constructors of [file_descriptor_base]. *)
Definition socket_default : socket := mk_socket (-1) address_init.
Definition socket_of_fd (fd : Z) : socket := mk_socket fd address_init.

(** The move constructor: the new object and what is left of the old one; an address that
    is moved from becomes zero. *)
Definition socket_move (other : socket) : socket * socket :=
  (mk_socket (m_fd other) (addresses other),
   mk_socket (-1) (mk_address sockaddr_zero sockaddr_zero)).

Section operations.
Context {W : Type} `{Os W}.

(** [close__()]: [::close(std::exchange(m_fd, -1))]. *)
Definition close__ (sw : socket * W) : socket * W :=
  let '(s, w) := sw in
  let '(_, _, w) := sys_close (m_fd s) w in (set_fd (-1) s, w).

(** The destructor. *)
Definition socket_destroy (s : socket) (w : W) : W :=
  if valid s then snd (close__ (s, w)) else w.

(** System calls of an operation on a socket. *)
Definition on_os (call : W -> Z * Z * W) (sw : socket * W) : Z * Z * (socket * W) :=
  let '(s, w) := sw in let '(ret, errno, w) := call w in (ret, errno, (s, w)).

(** [init(error)] *)
Definition init (sw : socket * W) : error_code * (socket * W) :=
  let '(s, w) := sw in
  let fd := m_fd s in
  let w := if negb (fd =? -1) then snd (sys_close fd w) else w in
  sync_operation (on_os sys_socket) (fun fd '(s, w) => (set_fd fd s, w)) (s, w).

(** [init()] *)
Definition init_throw (sw : socket * W) : thrown unit * (socket * W) := throwing init sw.

(** [bind(address, error)]: the local address is the one asked for, or the one the system
    has chosen when the port is 0. *)
Definition bind (a : sockaddr_in) (sw : socket * W) : error_code * (socket * W) :=
  sync_operation (on_os (sys_bind (m_fd (fst sw)) a))
    (fun _ '(s, w) =>
       let local := if port a =? 0 then sys_getsockname (m_fd s) w else a in
       (mk_socket (m_fd s) (set_local_address local (addresses s)), w)) sw.

Definition bind_throw (a : sockaddr_in) (sw : socket * W) : thrown unit * (socket * W) :=
  throwing (bind a) sw.

(** [SOMAXCONN] *)
Definition SOMAXCONN : Z := 4096.

Definition listen (backlog : Z) (sw : socket * W) : error_code * (socket * W) :=
  sync_operation (on_os (sys_listen (m_fd (fst sw)) backlog)) (fun _ sw => sw) sw.
Definition listen_default (sw : socket * W) : error_code * (socket * W) := listen SOMAXCONN sw.
Definition listen_throw (backlog : Z) (sw : socket * W) : thrown unit * (socket * W) :=
  throwing (listen backlog) sw.

Definition SHUT_WR : Z := 1.

(** [shutdown(flags, error)] and [shutdown(flags)] *)
Definition shutdown (flags : Z) (sw : socket * W) : error_code * (socket * W) :=
  sync_operation (on_os (sys_shutdown (m_fd (fst sw)) flags)) (fun _ sw => sw) sw.
Definition shutdown_throw (flags : Z) (sw : socket * W) : thrown unit * (socket * W) :=
  throwing (shutdown flags) sw.

(** [shutdown(error)] calls [shutdown(SHUT_WR)], the overload that throws; [error] is the
    value the argument had before, and has afterwards. *)
Definition shutdown_error (error : error_code) (sw : socket * W)
  : thrown error_code * (socket * W) :=
  match shutdown_throw SHUT_WR sw with
  | (Returned _, sw) => (Returned error, sw)
  | (Thrown e, sw) => (Thrown e, sw)
  end.

Definition setsockopt (level optname : Z) (optval : list Z) (sw : socket * W)
  : error_code * (socket * W) :=
  sync_operation (on_os (sys_setsockopt (m_fd (fst sw)) level optname optval)) (fun _ sw => sw) sw.
Definition setsockopt_throw (level optname : Z) (optval : list Z) (sw : socket * W)
  : thrown unit * (socket * W) := throwing (setsockopt level optname optval) sw.

Definition SOL_SOCKET : Z := 1.
Definition SO_REUSEADDR : Z := 2.

(** [reuse_address(error)]: the option value is the [int] 1. *)
Definition reuse_address (sw : socket * W) : error_code * (socket * W) :=
  setsockopt SOL_SOCKET SO_REUSEADDR [1; 0; 0; 0] sw.
Definition reuse_address_throw (sw : socket * W) : thrown unit * (socket * W) :=
  setsockopt_throw SOL_SOCKET SO_REUSEADDR [1; 0; 0; 0] sw.

End operations.

(** ** An implementation of the interface *)

(** The open descriptors, the arguments of [close] and whether calls fail. *)
Record fd_table := mk_table { open_fds : gset Z; closed_fds : list Z; failing : bool }.

(** The lowest descriptor that is not open, as [socket] returns it, among the first ones. *)
Fixpoint lowest (n : nat) (fd : Z) (s : gset Z) : Z :=
  match n with
  | O => fd
  | S n => if decide (fd ∈ s) then lowest n (fd + 1) s else fd
  end.

Definition table_call (t : fd_table) : Z * Z * fd_table :=
  if failing t then (-1, 24, t) else (0, 0, t).

#[export] Instance table_os : Os fd_table := {|
  sys_socket t :=
    let fd := lowest (size (open_fds t)) 0 (open_fds t) in
    if failing t || bool_decide (fd ∈ open_fds t) then (-1, 24, t)
    else (fd, 0, mk_table ({[fd]} ∪ open_fds t) (closed_fds t) (failing t));
  sys_close fd t :=
    let t' := mk_table (open_fds t ∖ {[fd]}) (closed_fds t ++ [fd]) (failing t) in
    if decide (fd ∈ open_fds t) then (0, 0, t') else (-1, 9, t');
  sys_bind _ _ := table_call;
  sys_getsockname _ _ := mk_sockaddr AF_INET (host_to_network_16 40000) 0;
  sys_listen _ _ := table_call;
  sys_shutdown _ _ := table_call;
  sys_setsockopt _ _ _ _ := table_call;
  is_open fd t := fd ∈ open_fds t;
  closes := closed_fds;
|}.

Lemma lowest_nonneg n fd s : 0 <= fd -> 0 <= lowest n fd s.
Proof. revert fd. induction n as [|n IH]; intros fd Hfd; simpl; [done|]. case_decide; [|done]. apply IH. lia. Qed.

Lemma table_call_ok : call_ok table_call.
Proof. intros t. unfold table_call. destruct (failing t); lia. Qed.

Lemma table_call_frames : frames table_call.
Proof. intros t ret errno t'. unfold table_call. destruct (failing t); by intros [= <- <- <-]. Qed.

#[export] Instance table_laws : OsLaws fd_table.
Proof.
  constructor.
  - intros w ret errno w'. cbn. destruct (failing w || _) eqn:E.
    + intros [= <- <- <-]. split; [done|]. right. by split_and!.
    + intros [= <- <- <-]. split; [done|]. left. apply orb_false_iff in E as [_ E].
      apply bool_decide_eq_false in E. split; [by apply lowest_nonneg|]. split; [done|].
      intros fd. cbn. by rewrite elem_of_union, elem_of_singleton.
  - intros fd w ret errno w'. cbn. destruct (decide _); intros [= <- <- <-];
      (split; [done|]; split; [lia|]; intros fd'; cbn;
       rewrite elem_of_difference, elem_of_singleton; tauto).
  - intros fd a. apply table_call_ok.
  - intros fd n. apply table_call_ok.
  - intros fd n. apply table_call_ok.
  - intros fd l n v. apply table_call_ok.
  - intros fd a. apply table_call_frames.
  - intros fd n. apply table_call_frames.
  - intros fd n. apply table_call_frames.
  - intros fd l n v. apply table_call_frames.
Qed.

(** ** Ownership *)

(** The sockets of a program, the operating system and the descriptors it has handed out. *)
Record program (W : Type) := mk_program { objs : list socket; env : W; obtained : list Z }.
Arguments mk_program {W}.
Arguments objs {W}.
Arguments env {W}.
Arguments obtained {W}.

Definition fd_of (s : socket) : list Z := if valid s then [m_fd s] else [].
Definition owned (l : list socket) : list Z := flat_map fd_of l.

(** The calls of [close] that had a descriptor as argument. *)
Definition closed {W} `{Os W} (w : W) : list Z := filter (fun fd => 0 <= fd) (closes w).

Section ownership.
Context {W : Type} `{OsLaws W}.

(** What goes wrong with a descriptor: it is closed while its socket keeps it, so that it is
    closed again; or its socket is given another one, so that nothing closes it. *)
Inductive fault := Again (fd : Z) | Lost (fd : Z).

Definition again (fs : list fault) : list Z := omap (fun f => match f with Again fd => Some fd | Lost _ => None end) fs.
Definition lost (fs : list fault) : list Z := omap (fun f => match f with Lost fd => Some fd | Again _ => None end) fs.

(** What a program does with its sockets, with the faults of each step. An [init] that fails
    has closed the descriptor of a socket that has one, and so has the last step of the
    asynchronous [close] ([close_effect] of Lifecycle.v); [set] loses it. *)
Inductive step : program W -> list fault -> program W -> Prop :=
| step_default os w o : step (mk_program os w o) [] (mk_program (os ++ [socket_default]) w o)
| step_adopt os w o fd : 0 <= fd ->
    step (mk_program os w o) [] (mk_program (os ++ [socket_of_fd fd]) w (fd :: o))
| step_move os w o i s : os !! i = Some s ->
    step (mk_program os w o) []
      (mk_program (<[i := snd (socket_move s)]> os ++ [fst (socket_move s)]) w o)
| step_set os w o i s fd : os !! i = Some s -> 0 <= fd ->
    step (mk_program os w o) (Lost <$> fd_of s) (mk_program (<[i := set_fd fd s]> os) w (fd :: o))
| step_init os w o i s s' w' : os !! i = Some s -> init (s, w) = (no_error, (s', w')) ->
    step (mk_program os w o) [] (mk_program (<[i := s']> os) w' (m_fd s' :: o))
| step_init_fail os w o i s e s' w' : os !! i = Some s -> init (s, w) = (e, (s', w')) -> is_error e = true ->
    step (mk_program os w o) (Again <$> fd_of s) (mk_program (<[i := s']> os) w' o)
| step_bind os w o i s a e s' w' : os !! i = Some s -> bind a (s, w) = (e, (s', w')) ->
    step (mk_program os w o) [] (mk_program (<[i := s']> os) w' o)
| step_listen os w o i s n e s' w' : os !! i = Some s -> listen n (s, w) = (e, (s', w')) ->
    step (mk_program os w o) [] (mk_program (<[i := s']> os) w' o)
| step_shutdown os w o i s how e s' w' : os !! i = Some s -> shutdown how (s, w) = (e, (s', w')) ->
    step (mk_program os w o) [] (mk_program (<[i := s']> os) w' o)
| step_setsockopt os w o i s l n v e s' w' : os !! i = Some s -> setsockopt l n v (s, w) = (e, (s', w')) ->
    step (mk_program os w o) [] (mk_program (<[i := s']> os) w' o)
| step_close os w o i s s' w' : os !! i = Some s -> close__ (s, w) = (s', w') ->
    step (mk_program os w o) [] (mk_program (<[i := s']> os) w' o)
| step_async_close os w o i s ret errno w' : os !! i = Some s -> valid s = true ->
    sys_close (m_fd s) w = (ret, errno, w') ->
    step (mk_program os w o) (Again <$> fd_of s) (mk_program os w' o)
| step_destroy os w o i s : os !! i = Some s ->
    step (mk_program os w o) [] (mk_program (delete i os) (socket_destroy s w) o).

(** Any number of steps, with their faults. *)
Inductive run (p : program W) : list fault -> program W -> Prop :=
| run_start : run p [] p
| run_step fs p1 fs' p2 : run p fs p1 -> step p1 fs' p2 -> run p (fs ++ fs') p2.

(** Every descriptor handed out is owned by one socket or has been closed once, but for the
    faults. *)
Definition accounts (fs : list fault) (p : program W) : Prop :=
  obtained p ++ again fs ≡ₚ closed (env p) ++ owned (objs p) ++ lost fs.

Definition balanced (p : program W) : Prop := obtained p ≡ₚ closed (env p) ++ owned (objs p).

Lemma balanced_accounts p : balanced p <-> accounts [] p.
Proof. unfold balanced, accounts. cbn. by rewrite !app_nil_r. Qed.

Lemma again_app fs fs' : again (fs ++ fs') = again fs ++ again fs'.
Proof. apply omap_app. Qed.

Lemma lost_app fs fs' : lost (fs ++ fs') = lost fs ++ lost fs'.
Proof. apply omap_app. Qed.

Lemma again_Again l : again (Again <$> l) = l /\ lost (Again <$> l) = [].
Proof. induction l as [|x l [IH1 IH2]]; [done|]. by split; [cbn; f_equal|]. Qed.

Lemma lost_Lost l : lost (Lost <$> l) = l /\ again (Lost <$> l) = [].
Proof. induction l as [|x l [IH1 IH2]]; [done|]. by split; [cbn; f_equal|]. Qed.

Lemma owned_app l k : owned (l ++ k) = owned l ++ owned k.
Proof. apply flat_map_app. Qed.

Lemma owned_lookup l i s : l !! i = Some s -> owned l ≡ₚ fd_of s ++ owned (delete i l).
Proof.
  intros Hi. change (fd_of s ++ owned (delete i l)) with (owned (s :: delete i l)).
  apply Permutation_flat_map. by apply delete_Permutation.
Qed.

Lemma owned_insert l i s s' : l !! i = Some s ->
  owned (<[i := s']> l) ≡ₚ fd_of s' ++ owned (delete i l).
Proof.
  intros Hi. assert (i < length l)%nat by (by eapply lookup_lt_Some).
  rewrite (owned_lookup (<[i:=s']> l) i s') by by apply list_lookup_insert_eq.
  by rewrite delete_insert_same.
Qed.

(** A step that changes one socket. *)
Lemma accounts_insert fs fs' (os0 : list socket) w w' o i s s' got :
  os0 !! i = Some s -> accounts fs (mk_program os0 w o) ->
  got ++ again fs' ++ closed w ++ fd_of s ≡ₚ closed w' ++ fd_of s' ++ lost fs' ->
  accounts (fs ++ fs') (mk_program (<[i := s']> os0) w' (got ++ o)).
Proof.
  unfold accounts. cbn [obtained env objs]. intros Hi Hb E.
  rewrite (owned_lookup _ _ _ Hi) in Hb. rewrite (owned_insert _ _ _ _ Hi), again_app, lost_app.
  transitivity ((o ++ again fs) ++ (got ++ again fs')); [solve_Permutation|]. rewrite Hb.
  transitivity ((got ++ again fs' ++ closed w ++ fd_of s) ++ owned (delete i os0) ++ lost fs); [solve_Permutation|].
  rewrite E. solve_Permutation.
Qed.

(** The same for a step without faults. *)
Lemma accounts_keep fs (os0 : list socket) w w' o i s s' got :
  os0 !! i = Some s -> accounts fs (mk_program os0 w o) ->
  got ++ closed w ++ fd_of s ≡ₚ closed w' ++ fd_of s' ->
  accounts fs (mk_program (<[i := s']> os0) w' (got ++ o)).
Proof.
  intros Hi Hb E. rewrite <- (app_nil_r fs). apply (accounts_insert fs [] os0 w w' o i s s' got Hi Hb).
  cbn. by rewrite app_nil_r.
Qed.

Lemma closed_eq (w w' : W) : closes w' = closes w -> closed w' = closed w.
Proof. unfold closed. by intros ->. Qed.

Lemma closed_close fd w ret errno w' : sys_close fd w = (ret, errno, w') ->
  closed w' = closed w ++ (if 0 <=? fd then [fd] else []).
Proof.
  intros E. destruct (close_law _ _ _ _ _ E) as [Hc _]. unfold closed. rewrite Hc, list.filter_app. f_equal.
  rewrite list.filter_cons, list.filter_nil. by destruct (decide (0 <= fd)), (Z.leb_spec 0 fd); try lia.
Qed.

Lemma close_spec s w s' w' : close__ (s, w) = (s', w') ->
  closed w' = closed w ++ fd_of s /\ fd_of s' = [].
Proof.
  unfold close__. destruct (sys_close (m_fd s) w) as [[ret errno] w1] eqn:E. intros [= <- <-].
  rewrite (closed_close _ _ _ _ _ E). unfold fd_of, valid. by destruct (0 <=? m_fd s).
Qed.

(** The destructor closes what the socket owns. *)
Lemma socket_destroy_closed s w : closed (socket_destroy s w) = closed w ++ fd_of s.
Proof.
  unfold socket_destroy. destruct (valid s) eqn:Hv.
  - destruct (close__ (s, w)) as [s' w'] eqn:E. by apply close_spec in E as [Hc _].
  - unfold fd_of. by rewrite Hv, app_nil_r.
Qed.

(** A synchronous operation that frames keeps the balance. *)
Lemma sync_frames call (on_success : Z -> socket * W -> socket * W) s w e s' w' :
  frames call -> (forall ret s w, exists s', on_success ret (s, w) = (s', w) /\ m_fd s' = m_fd s) ->
  sync_operation (on_os call) on_success (s, w) = (e, (s', w')) ->
  closed w' = closed w /\ m_fd s' = m_fd s.
Proof.
  intros Hf Hs. unfold sync_operation, on_os. destruct (call w) as [[ret errno] w1] eqn:E.
  apply Hf in E as [Hc _]. apply closed_eq in Hc. destruct (0 <=? ret).
  - destruct (Hs ret s w1) as (s2 & -> & Hs2). by intros [= _ <- <-].
  - by intros [= _ <- <-].
Qed.

Lemma fd_of_eq s s' : m_fd s' = m_fd s -> fd_of s' = fd_of s.
Proof. unfold fd_of, valid. by intros ->. Qed.

Lemma fd_of_valid s : 0 <= m_fd s -> fd_of s = [m_fd s].
Proof. intros. unfold fd_of, valid. by destruct (Z.leb_spec 0 (m_fd s)); [|lia]. Qed.

Lemma fd_of_invalid s : valid s = false -> fd_of s = [].
Proof. unfold fd_of. by intros ->. Qed.

Lemma owned_of_fd fd : 0 <= fd -> owned [socket_of_fd fd] = [fd].
Proof. intros. unfold owned. cbn [flat_map]. by rewrite fd_of_valid. Qed.

Lemma owned_single s : owned [s] = fd_of s.
Proof. apply app_nil_r. Qed.

(** A successful [init] closes the old descriptor and owns the new one. *)
Lemma init_success s w s' w' : init (s, w) = (no_error, (s', w')) ->
  0 <= m_fd s' /\ closed w' = closed w ++ fd_of s.
Proof.
  unfold init. set (w1 := if negb (m_fd s =? -1) then snd (sys_close (m_fd s) w) else w).
  assert (closed w1 = closed w ++ fd_of s) as Hc.
  { unfold w1, fd_of, valid. destruct (Z.eqb_spec (m_fd s) (-1)) as [E|E]; cbn [negb].
    - rewrite E. by rewrite app_nil_r.
    - destruct (sys_close (m_fd s) w) as [[ret errno] w2] eqn:Ec. cbn [snd].
      by apply closed_close in Ec. }
  clearbody w1. unfold sync_operation, on_os.
  destruct (sys_socket w1) as [[ret errno] w2] eqn:E. apply socket_law in E as [Hc2 Hs].
  apply closed_eq in Hc2. destruct (Z.leb_spec 0 ret).
  - intros [= <- <-]. cbn [m_fd set_fd]. split; [done|]. congruence.
  - destruct Hs as [[? _]|(-> & Hpos & _)]; [lia|]. intros [= E _ _]. lia.
Qed.

(** A failed [init] leaves the object as it was; the old descriptor has been closed. *)
Lemma init_failure s w e s' w' : init (s, w) = (e, (s', w')) -> is_error e = true ->
  s' = s /\ closed w' = closed w ++ fd_of s.
Proof.
  unfold init. set (w1 := if negb (m_fd s =? -1) then snd (sys_close (m_fd s) w) else w).
  assert (closed w1 = closed w ++ fd_of s) as Hc.
  { unfold w1, fd_of, valid. destruct (Z.eqb_spec (m_fd s) (-1)) as [E|E]; cbn [negb].
    - rewrite E. by rewrite app_nil_r.
    - destruct (sys_close (m_fd s) w) as [[ret errno] w2] eqn:Ec. cbn [snd].
      by apply closed_close in Ec. }
  clearbody w1. unfold sync_operation, on_os.
  destruct (sys_socket w1) as [[ret errno] w2] eqn:E. apply socket_law in E as [Hc2 _].
  apply closed_eq in Hc2. destruct (Z.leb_spec 0 ret).
  - by intros [= <- _ _].
  - intros [= <- <- <-] _. split; [done|]. congruence.
Qed.

(** An operation that keeps the descriptor of its socket. *)
Lemma accounts_frame fs (os0 : list socket) w w' o i s s' :
  os0 !! i = Some s -> accounts fs (mk_program os0 w o) -> closed w' = closed w /\ m_fd s' = m_fd s ->
  accounts (fs ++ []) (mk_program (<[i := s']> os0) w' o).
Proof.
  intros Hi Hb [Hc Hs]. rewrite app_nil_r. apply (accounts_keep fs os0 w w' o i s s' [] Hi Hb).
  by rewrite Hc, (fd_of_eq s s').
Qed.

Lemma step_accounts p fs' p' fs : step p fs' p' -> accounts fs p -> accounts (fs ++ fs') p'.
Proof.
  destruct 1 as [os w o|os w o fd Hfd|os w o i s Hi|os w o i s fd Hi Hfd|os w o i s s' w' Hi E
    |os w o i s e s' w' Hi E He|os w o i s a e s' w' Hi E|os w o i s n e s' w' Hi E
    |os w o i s how e s' w' Hi E|os w o i s l n v e s' w' Hi E|os w o i s s' w' Hi E
    |os w o i s ret errno w' Hi Hv E|os w o i s Hi]; intros Hb.
  - unfold accounts in *. cbn [obtained env objs] in *. by rewrite app_nil_r, owned_app, app_nil_r.
  - unfold accounts in *. cbn [obtained env objs] in *. rewrite app_nil_r, owned_app, owned_of_fd by done.
    cbn [app]. rewrite Hb. solve_Permutation.
  - unfold accounts in *. cbn [obtained env objs] in *. rewrite app_nil_r, Hb, owned_app, (owned_lookup _ _ _ Hi).
    rewrite (owned_insert _ _ _ _ Hi), owned_single.
    change (fd_of (snd (socket_move s))) with (@nil Z).
    change (fd_of (fst (socket_move s))) with (fd_of s). cbn [app]. solve_Permutation.
  - apply (accounts_insert fs _ os w w o i s _ [fd]); [done..|]. destruct (lost_Lost (fd_of s)) as [-> ->].
    rewrite (fd_of_valid (set_fd fd s)) by done. cbn [app m_fd set_fd]. solve_Permutation.
  - destruct (init_success _ _ _ _ E) as [Hfd Hc].
    rewrite app_nil_r. apply (accounts_keep fs os w w' o i s _ [m_fd s']); [done..|].
    rewrite Hc, (fd_of_valid s') by done. solve_Permutation.
  - destruct (init_failure _ _ _ _ _ E He) as [-> Hc].
    apply (accounts_insert fs _ os w w' o i s s []); [done..|]. destruct (again_Again (fd_of s)) as [-> ->].
    rewrite Hc, app_nil_r. cbn [app]. solve_Permutation.
  - apply (accounts_frame fs os w w' o i s s' Hi Hb). revert E. apply sync_frames; [apply bind_frame|].
    intros. eexists. split; [reflexivity|done].
  - apply (accounts_frame fs os w w' o i s s' Hi Hb). revert E. apply sync_frames; [apply listen_frame|eauto].
  - apply (accounts_frame fs os w w' o i s s' Hi Hb). revert E. apply sync_frames; [apply shutdown_frame|eauto].
  - apply (accounts_frame fs os w w' o i s s' Hi Hb). revert E. apply sync_frames; [apply setsockopt_frame|eauto].
  - apply close_spec in E as [Hc Hs].
    rewrite app_nil_r. apply (accounts_keep fs os w w' o i s s' []); [done..|]. by rewrite Hc, Hs, app_nil_r.
  - unfold accounts in *. cbn [obtained env objs] in *. rewrite again_app, lost_app.
    destruct (again_Again (fd_of s)) as [-> ->]. rewrite (closed_close _ _ _ _ _ E).
    unfold fd_of. pose proof Hv as Hv'. unfold valid in Hv'. rewrite Hv, Hv', (assoc_L (++)), Hb. solve_Permutation.
  - unfold accounts in *. cbn [obtained env objs] in *. rewrite app_nil_r, socket_destroy_closed, Hb, (owned_lookup _ _ _ Hi).
    solve_Permutation.
Qed.

Lemma run_accounts p fs p' : run p fs p' -> accounts [] p -> accounts fs p'.
Proof. induction 1; eauto using step_accounts. Qed.

(** Destroying all sockets. *)
Definition destroy_all (os : list socket) (w : W) : W := foldr socket_destroy w os.

Lemma destroy_all_closed os w : closed (destroy_all os w) ≡ₚ closed w ++ owned os.
Proof.
  induction os as [|s os IH]; cbn [destroy_all foldr]; [by rewrite app_nil_r|].
  fold (destroy_all os w). unfold socket_destroy. unfold owned. cbn [flat_map]. fold (owned os).
  destruct (valid s) eqn:Hv.
  - destruct (close__ (s, destroy_all os w)) as [s' w'] eqn:E. apply close_spec in E as [Hc _].
    cbn [snd]. rewrite Hc, IH, <- (assoc_L (++)). f_equiv. by rewrite (comm (++)).
  - by rewrite fd_of_invalid.
Qed.

(** C12: descriptors are closed exactly as often as they are obtained, and where the code
    fails to do so. In every state a program reaches by creating, adopting, moving, setting,
    initialising, binding, closing and destroying sockets, whatever fails, the descriptors
    obtained are those closed and those owned by the sockets, each once - but that a
    descriptor is closed once more for each [init] that has failed on the socket that has it
    and for each asynchronous [close] of it, and is not closed when [set] has replaced it.
    When all sockets have been destroyed all that have been obtained are closed, once when
    nothing of the kind has happened. *)
Theorem descriptors_balanced w fs p :
  closed w = [] -> run (mk_program [] w []) fs p ->
  obtained p ++ again fs ≡ₚ closed (env p) ++ owned (objs p) ++ lost fs /\
  obtained p ++ again fs ≡ₚ closed (destroy_all (objs p) (env p)) ++ lost fs /\
  (fs = [] -> obtained p ≡ₚ closed (destroy_all (objs p) (env p))).
Proof.
  intros Hw Hsteps. assert (accounts fs p) as Hb.
  { apply (run_accounts _ _ _ Hsteps). unfold accounts. cbn. by rewrite Hw. }
  split; [exact Hb|]. rewrite destroy_all_closed, <- (assoc_L (++)). split; [exact Hb|].
  intros ->. apply balanced_accounts in Hb. exact Hb.
Qed.

(** [init] on a socket that has a descriptor closes it first; when [socket] then fails
    the object still holds it, so it is valid, and its destructor closes it again. *)
Theorem init_failure_double_close s w e s' w' :
  valid s = true -> init (s, w) = (e, (s', w')) -> is_error e = true ->
  valid s' = true /\ m_fd s' = m_fd s /\
  closed (socket_destroy s' w') = closed w ++ [m_fd s; m_fd s].
Proof.
  intros Hv E He. destruct (init_failure _ _ _ _ _ E He) as [-> Hc].
  split_and!; [done..|]. unfold socket_destroy. rewrite Hv.
  destruct (close__ (s, w')) as [s2 w2] eqn:E2. apply close_spec in E2 as [Hc2 _]. cbn [snd].
  rewrite Hc2, Hc, <- (assoc_L (++)). unfold fd_of. by rewrite Hv.
Qed.

End ownership.

(** The witnesses, on the table of descriptors. *)
Lemma descriptors_balanced_witness :
  let w := mk_table ∅ [] false in
  let p := mk_program [socket_of_fd 7; socket_default] (mk_table ∅ [0] false) [0; 7] in
  let w' := mk_table {[3]} [] true in
  let p' := mk_program [socket_of_fd 3] (mk_table ∅ [3] true) [3] in
  (run (mk_program [] w []) [] p /\ obtained p ≡ₚ closed (destroy_all (objs p) (env p))) /\
  (run (mk_program [] w' []) [Again 3] p' /\ [3; 3] ≡ₚ closed (destroy_all (objs p') (env p'))).
Proof.
  cbv zeta. set (w := mk_table ∅ [] false). set (w' := mk_table {[3]} [] true).
  set (p := mk_program _ _ [0; 7]). set (p' := mk_program _ (mk_table ∅ _ true) _).
  assert (H : run (mk_program [] w []) [] p).
  { apply (run_step _ [] (mk_program [socket_of_fd 7; socket_of_fd 0] (mk_table {[0]} [] false) [0; 7]) []).
    - apply (run_step _ [] (mk_program [socket_of_fd 7; socket_default] w [7]) []).
      + apply (run_step _ [] (mk_program [socket_of_fd 7] w [7]) []).
        * apply (run_step _ [] (mk_program [] w []) []); [apply run_start|]. apply (step_adopt [] w [] 7). discriminate.
        * apply (step_default [socket_of_fd 7] w [7]).
      + apply (step_init [socket_of_fd 7; socket_default] w [7] 1 socket_default (socket_of_fd 0)); reflexivity.
    - apply (step_close [socket_of_fd 7; socket_of_fd 0] (mk_table {[0]} [] false) [0; 7] 1 (socket_of_fd 0)); reflexivity. }
  assert (H' : run (mk_program [] w' []) [Again 3] p').
  { apply (run_step _ [] (mk_program [socket_of_fd 3] w' [3]) [Again 3]).
    - apply (run_step _ [] (mk_program [] w' []) []); [apply run_start|]. apply (step_adopt [] w' [] 3). discriminate.
    - apply (step_init_fail [socket_of_fd 3] w' [3] 0 (socket_of_fd 3) (assign 24) (socket_of_fd 3)); reflexivity. }
  split; (split; [assumption|]).
  - apply (descriptors_balanced w [] p); [reflexivity|exact H|reflexivity].
  - destruct (descriptors_balanced w' [Again 3] p') as (_ & E & _); [reflexivity|exact H'|exact E].
Defined.

Lemma init_failure_double_close_witness :
  let w := mk_table {[3]} [] true in
  let '(e, (s', w')) := init (socket_of_fd 3, w) in
  valid s' = true /\ m_fd s' = 3 /\ closed (socket_destroy s' w') = closed w ++ [3; 3].
Proof.
  apply (init_failure_double_close (socket_of_fd 3) (mk_table {[3]} [] true) (assign 24)); reflexivity.
Defined.

(** ** Reporting *)

(** Every synchronous operation reports through its [std::error_code] argument what the
    system call left in [errno], and clears it on success; its other overload throws the
    same - but [shutdown(error)] never touches its argument: it throws on failure, and on
    success an error that was in it stays. *)
Theorem sync_reporting {W} `{OsLaws W} s w a n how v e0 :
  (forall op call, In (op, call)
     [(bind a (s, w), sys_bind (m_fd s) a w); (listen n (s, w), sys_listen (m_fd s) n w);
      (shutdown how (s, w), sys_shutdown (m_fd s) how w);
      (reuse_address (s, w), sys_setsockopt (m_fd s) SOL_SOCKET SO_REUSEADDR [1; 0; 0; 0] w)] ->
     fst op = (if 0 <=? fst (fst call) then no_error else assign (snd (fst call))) /\
     (is_error (fst op) = true <-> fst (fst call) < 0)) /\
  bind_throw a (s, w) = (if is_error (fst (bind a (s, w))) then Thrown (fst (bind a (s, w)))
                         else Returned tt, snd (bind a (s, w))) /\
  (sys_shutdown (m_fd s) SHUT_WR w = v -> fst (fst v) < 0 ->
     fst (shutdown_error e0 (s, w)) = Thrown (assign (snd (fst v)))) /\
  (sys_shutdown (m_fd s) SHUT_WR w = v -> 0 <= fst (fst v) ->
     fst (shutdown_error e0 (s, w)) = Returned e0).
Proof.
  assert (forall call on_success, call_ok call ->
    fst (sync_operation (W := socket * W) (on_os call) on_success (s, w)) =
      (if 0 <=? fst (fst (call w)) then no_error else assign (snd (fst (call w)))) /\
    (is_error (fst (sync_operation (on_os call) on_success (s, w))) = true <->
      fst (fst (call w)) < 0)) as Hsync.
  { intros call on_success Hok. specialize (Hok w). unfold sync_operation, on_os.
    destruct (call w) as [[ret errno] w']. cbn [fst snd]. destruct (Z.leb_spec 0 ret); cbn [fst].
    - split; [done|]. split; [done|lia].
    - split; [done|]. unfold is_error, assign. cbn [e_value].
      destruct (Z.eqb_spec errno 0); cbn [negb]; split; (done || lia). }
  split; [|split; [apply throwing_spec|]].
  - intros op call [E|[E|[E|[E|[]]]]]; injection E as <- <-; cbn [fst]; apply Hsync;
      [apply bind_law | apply listen_law | apply shutdown_law | apply setsockopt_law].
  - pose proof (Hsync (sys_shutdown (m_fd s) SHUT_WR) (fun _ sw => sw) (shutdown_law _ _)) as [H1 H2].
    change (sync_operation (on_os (sys_shutdown (m_fd s) SHUT_WR)) (fun _ sw => sw) (s, w))
      with (shutdown SHUT_WR (s, w)) in H1, H2.
    unfold shutdown_error, shutdown_throw. rewrite throwing_spec.
    split; intros <- Hlt.
    + rewrite (proj2 H2 Hlt). cbn [fst]. rewrite H1. by destruct (Z.leb_spec 0 (fst (fst (sys_shutdown (m_fd s) SHUT_WR w)))); [lia|].
    + destruct (is_error _); [pose proof (proj1 H2 eq_refl); lia|done].
Qed.

Lemma sync_reporting_witness :
  fst (shutdown_error (assign 5) (socket_of_fd 3, mk_table {[3]} [] true)) = Thrown (assign 24) /\
  fst (shutdown_error (assign 5) (socket_of_fd 3, mk_table {[3]} [] false)) = Returned (assign 5).
Proof.
  split.
  - apply (sync_reporting (socket_of_fd 3) (mk_table {[3]} [] true) sockaddr_zero 0 0
      (-1, 24, mk_table {[3]} [] true) (assign 5)); reflexivity.
  - apply (sync_reporting (socket_of_fd 3) (mk_table {[3]} [] false) sockaddr_zero 0 0
      (0, 0, mk_table {[3]} [] false) (assign 5)); [reflexivity|discriminate].
Defined.
