(* ===== verification/AsyncOp.v ===== *)
(** * Asynchronous operations

    Models [async_operation_base.h], [detail/async_operation.h] and
    [detail/timeout_storage.h] of [src/include/xynet]: what every awaitable operation has in
    common. The classes that derive from [async_operation] are the instances of
    [Operation]; the kernel answers a submission with a completion, which [drive] delivers
    to the operation until it resumes its coroutine. *)

From S2P Require Import Prelude Errors.
Local Open Scope Z_scope.

(** ** [timeout_storage] *)

(** [__kernel_timespec] *)
Record timespec := mk_timespec { tv_sec : Z; tv_nsec : Z }.

(** From a duration in nanoseconds; [/] and [%] truncate towards 0. *)
Definition timeout_storage (duration_ns : Z) : timespec :=
  mk_timespec (Z.quot duration_ns 1000000000) (Z.rem duration_ns 1000000000).

Definition is_zero_timeout (t : timespec) : bool := (tv_sec t =? 0) && (tv_nsec t =? 0).

(** ** [async_operation_base] *)

(** [op_error] is the [std::error_code] that [mp_error] points to: the user's or the one in
    the operation; [op_service] says whether [mp_service] is not null. *)
Record op_base := mk_base {
  op_res : Z;
  op_flags : Z;
  op_error : error_code;
  op_service : bool;
}.

Definition set_value (res flags : Z) (b : op_base) : op_base :=
  mk_base res flags (if res <? 0 then assign (- res) else op_error b) (op_service b).

Definition set_error (e : error_code) (b : op_base) : op_base :=
  mk_base (op_res b) (op_flags b) e (op_service b).

Definition no_error_in_result (b : op_base) : bool := op_service b && (0 <=? op_res b).

(** ** [async_operation] *)

(** [async_operation_policy] *)
Record policy := mk_policy { timeout_type : bool; error_code_type : bool }.

(** [async_operation_traits]: the policy for the kinds of the extra arguments. *)
Inductive argument := ArgDuration | ArgErrorCode.
Definition async_operation_traits (args : list argument) : option policy :=
  match args with
  | [] => Some (mk_policy false false)
  | [ArgDuration] => Some (mk_policy true false)
  | [ArgErrorCode] => Some (mk_policy false true)
  | [_; _] => Some (mk_policy true true)
  | _ => None
  end.

(** The constructors: the user's error code if there is one, else a fresh one, is what
    [mp_error] points to; the service is that of the thread. *)
Definition make_base (service : bool) (error : option error_code) : op_base :=
  mk_base 0 0 (match error with Some e => e | None => no_error end) service.

(** What a callback decides: resume the awaiting coroutine, or submit again. *)
Inductive decision := ResumeAwaiting | SubmitAgain.

(** The classes that derive from [async_operation]: [Sqe] is what they put into a
    submission queue entry, [W] the state outside the operation: what it refers to and what
    its callbacks act on. *)
Class Operation (T Sqe W : Type) := {
  get_base : T -> op_base;
  put_base : op_base -> T -> T;
  initial_check : T -> W -> bool;
  try_start : T -> W -> Sqe;
  on_completed : T -> W -> T * W * decision;
}.

(** A completion queue entry: [res], [flags] and the bytes the kernel has stored. *)
Record cqe := mk_cqe { res : Z; flags : Z; payload : list Z }.

Section operation.
Context {T Sqe W : Type} `{Operation T Sqe W}.

(** The effect of the kernel carrying out a submission with the given completion. *)
Context (kernel : Sqe -> cqe -> W -> W).

(** [await_ready()]: true is to go on without suspending. *)
Definition await_ready (op : T) (w : W) : bool :=
  negb (op_service (get_base op)) && negb (initial_check op w).

(** [submit()]: dereferences the service. *)
Definition submit (op : T) (w : W) : outcome Sqe :=
  if op_service (get_base op) then Ret (try_start op w) else Ub.

(** [co_await]: [None] when the coroutine goes on at once, otherwise the submission. *)
Definition co_await (op : T) (w : W) : outcome (option Sqe) :=
  if await_ready op w then Ret None else sqe ← submit op w; Ret (Some sqe).

(** The service delivers a completion: the value, then the callback. *)
Definition complete (c : cqe) (op : T) (w : W) : T * W * decision :=
  let w := kernel (try_start op w) c w in
  on_completed (put_base (set_value (res c) (flags c) (get_base op)) op) w.

(** Where an operation is after some completions: still waiting, or resumed with the
    completions it has not consumed. *)
Inductive progress := Waiting (op : T) (w : W) | Resumed (op : T) (w : W) (rest : list cqe).

Fixpoint drive (cs : list cqe) (op : T) (w : W) : progress :=
  match cs with
  | [] => Waiting op w
  | c :: cs =>
      match complete c op w with
      | (op, w, ResumeAwaiting) => Resumed op w cs
      | (op, w, SubmitAgain) => drive cs op w
      end
  end.

Lemma drive_app cs1 cs2 op w :
  drive (cs1 ++ cs2) op w =
  match drive cs1 op w with
  | Waiting op w => drive cs2 op w
  | Resumed op w rest => Resumed op w (rest ++ cs2)
  end.
Proof.
  revert op w. induction cs1 as [|c cs1 IH]; intros op w; [done|]. cbn [app drive].
  destruct (complete c op w) as [[op' w'] []]; [done|apply IH].
Qed.

(** An operation without a service is never ready, unless its initial check fails. *)
Lemma co_await_no_service op w : op_service (get_base op) = false -> initial_check op w = true ->
  co_await op w = Ub.
Proof. intros Hs Hi. unfold co_await, await_ready, submit. by rewrite Hs, Hi. Qed.

End operation.

Arguments Waiting {T W}.
Arguments Resumed {T W}.

(** ** Properties of the common part *)

(** The timeout handed to the kernel is the duration: seconds and nanoseconds add up to
    it, and the nanoseconds are below a second, with the sign of the duration; for a
    duration that is not negative it is the pair the kernel accepts. *)
Theorem timeout_storage_exact ns :
  let t := timeout_storage ns in
  tv_sec t * 1000000000 + tv_nsec t = ns /\ Z.abs (tv_nsec t) < 1000000000 /\
  (0 <= ns <-> 0 <= tv_sec t /\ 0 <= tv_nsec t) /\
  (is_zero_timeout t = true <-> ns = 0).
Proof.
  unfold timeout_storage, is_zero_timeout. cbn [tv_sec tv_nsec].
  pose proof (Z.quot_rem ns 1000000000 ltac:(lia)) as E.
  pose proof (Z.rem_bound_abs ns 1000000000 ltac:(lia)) as Hb.
  pose proof (Z.rem_sign_mul ns 1000000000 ltac:(lia)) as Hs.
  split; [lia|]. split; [lia|]. split.
  - split.
    + intros Hn. split; [apply Z.quot_pos; lia|apply Z.rem_nonneg; lia].
    + lia.
  - rewrite andb_true_iff, !Z.eqb_eq. split; [lia|]. by intros ->.
Qed.
