(* ===== verification/Transfer.v ===== *)
(** * Receiving and sending

    Models [socket/impl/recv_all.h] and [socket/impl/send_all.h] of [src/include/xynet]:
    the operations that call [recvmsg] or [sendmsg] through the service until all buffers
    have been transferred. The kernel fills or reads the addresses of the [iovec]s it is
    given, in order. *)

From stdpp Require Import gmap.
From S2P Require Import Prelude Buffer Errors AsyncOp.
Local Open Scope Z_scope.

(** ** The kernel's side *)

(** A submission queue entry: the descriptor, the [iovec]s of the message header, and the
    flags of the call. *)
Inductive sqe :=
| PREP_RECVMSG (fd : Z) (iovs : list iovec) (call_flags : Z)
| PREP_SENDMSG (fd : Z) (iovs : list iovec) (call_flags : Z).

(** The memory of the process, and what the peer has been sent. *)
Record net := mk_net { mem : gmap Z Z; sent : list Z }.

(** The bytes [data] are stored to the first of the addresses. *)
Fixpoint scatter (addrs data : list Z) (m : gmap Z Z) : gmap Z Z :=
  match addrs, data with
  | a :: addrs, b :: data => scatter addrs data (<[a := b]> m)
  | _, _ => m
  end.

Definition gather (addrs : list Z) (m : gmap Z Z) : list Z :=
  map (fun a => default 0 (m !! a)) addrs.

Definition sqe_addrs (iovs : list iovec) : list Z := concat (map iov_bytes iovs).

(** Carrying out a submission: [recvmsg] stores the payload of the completion, [sendmsg]
    sends [res] bytes. *)
Definition kernel (e : sqe) (c : cqe) (n : net) : net :=
  match e with
  | PREP_RECVMSG _ iovs _ => mk_net (scatter (sqe_addrs iovs) (payload c) (mem n)) (sent n)
  | PREP_SENDMSG _ iovs _ =>
      mk_net (mem n) (sent n ++ gather (take (Z.to_nat (res c)) (sqe_addrs iovs)) (mem n))
  end.

(** ** The operations *)

(** The data members of [async_recvmsg] and [async_sendmsg]: [m_msghdr] by its members
    [msg_iov], a position in the array of [m_buffers], and [msg_iovlen]. *)
Record transfer := mk_transfer {
  t_base : op_base;
  m_socket : Z;
  m_buffers : buffer_sequence;
  m_bytes_transferred : Z;
  msg_iov : option nat;
  msg_iovlen : nat;
}.

Definition set_base (b : op_base) (t : transfer) : transfer :=
  mk_transfer b (m_socket t) (m_buffers t) (m_bytes_transferred t) (msg_iov t) (msg_iovlen t).

(** The constructors. *)
Definition make_transfer (base : op_base) (fd : Z) (buffers : buffer_sequence) : transfer :=
  mk_transfer base fd buffers 0 (get_iov_ptr buffers) (get_iov_cnt buffers).

(** The [iovec]s [m_msghdr] describes. *)
Definition msg_iovecs (t : transfer) : list iovec :=
  match msg_iov t with
  | Some i => take (msg_iovlen t) (drop i (m_val (m_buffers t)))
  | None => []
  end.

(** [update_result], the same text in both classes. [commit] always returns
    ([commit_drop]). *)
Definition update_result (t : transfer) : transfer * decision :=
  let b := t_base t in
  if is_error (op_error b) || (op_res b =? 0) then (t, ResumeAwaiting)
  else
    let bytes := to_int (m_bytes_transferred t + op_res b) in
    let buffers := default (m_buffers t) (commit (wrap 64 (op_res b)) (m_buffers t)) in
    let '(iov, cnt) := get_iov_span buffers in
    let t := mk_transfer b (m_socket t) buffers bytes iov cnt in
    match iov with
    | None => (t, ResumeAwaiting)
    | Some _ => (t, SubmitAgain)
    end.

(** [async_recvmsg]; [some] is [recv_some_type]. *)
Record recv_op (some : bool) := mk_recv { recv_transfer : transfer }.
Arguments mk_recv {some}.
Arguments recv_transfer {some}.

(** [on_recv_completed] *)
Definition on_recv_completed {some} (op : recv_op some) (n : net) : recv_op some * net * decision :=
  let t := recv_transfer op in
  if some then
    let ret := op_res (t_base t) in
    (mk_recv (mk_transfer (t_base t) (m_socket t) (m_buffers t) (if 0 <=? ret then ret else 0)
                (msg_iov t) (msg_iovlen t)), n, ResumeAwaiting)
  else let '(t, d) := update_result t in (mk_recv t, n, d).

#[export] Instance recv_operation some : Operation (recv_op some) sqe net := {|
  get_base op := t_base (recv_transfer op);
  put_base b op := mk_recv (set_base b (recv_transfer op));
  initial_check _ _ := true;
  try_start op _ := PREP_RECVMSG (m_socket (recv_transfer op)) (msg_iovecs (recv_transfer op)) 0;
  on_completed := on_recv_completed;
|}.

(** [get_result]: a [size_t], or the exception when errors are not reported by code; and
    the error code afterwards. *)
Definition recv_get_result {some} (p : policy) (op : recv_op some) : thrown Z * error_code :=
  let b := t_base (recv_transfer op) in
  let error := if op_res b =? 0 then make_error_code eof else op_error b in
  if negb (error_code_type p) && is_error error then (Thrown error, error)
  else (Returned (wrap 64 (m_bytes_transferred (recv_transfer op))), error).

(** The overloads of [recv] and [recv_some]: with or without a duration, with or without an
    error code; the policy and the awaiter. *)
Definition async_recvmsg (some : bool) (service : bool) (error : option error_code) (fd : Z)
  (buffers : buffer_sequence) : recv_op some := mk_recv (make_transfer (make_base service error) fd buffers).

Definition overload_args (duration : bool) (error : option error_code) : list argument :=
  (if duration then [ArgDuration] else []) ++ (match error with Some _ => [ArgErrorCode] | None => [] end).

Definition recv (service duration : bool) (error : option error_code) (fd : Z) (buffers : buffer_sequence)
  : option (policy * recv_op false) :=
  p ← async_operation_traits (overload_args duration error);
  Some (p, async_recvmsg false service error fd buffers).

Definition recv_some (service duration : bool) (error : option error_code) (fd : Z)
  (buffers : buffer_sequence) : option (policy * recv_op true) :=
  p ← async_operation_traits (overload_args duration error);
  Some (p, async_recvmsg true service error fd buffers).

(** [async_sendmsg] *)
Record send_op := mk_send { send_transfer : transfer }.

Definition on_send_completed (op : send_op) (n : net) : send_op * net * decision :=
  let '(t, d) := update_result (send_transfer op) in (mk_send t, n, d).

#[export] Instance send_operation : Operation send_op sqe net := {|
  get_base op := t_base (send_transfer op);
  put_base b op := mk_send (set_base b (send_transfer op));
  initial_check _ _ := true;
  try_start op _ := PREP_SENDMSG (m_socket (send_transfer op)) (msg_iovecs (send_transfer op)) 0;
  on_completed := on_send_completed;
|}.

Definition send_get_result (p : policy) (op : send_op) : thrown Z * error_code :=
  let error := op_error (t_base (send_transfer op)) in
  if error_code_type p then (Returned (wrap 64 (m_bytes_transferred (send_transfer op))), error)
  else if negb (is_error error) then
    (Returned (wrap 64 (m_bytes_transferred (send_transfer op))), error)
  else (Thrown error, error).

(** The overloads of [send]. The one with a duration and an error code is ill-formed: it
    passes the duration first, and the constructor for both wants the error code first. *)
Definition async_sendmsg (service : bool) (error : option error_code) (fd : Z)
  (buffers : buffer_sequence) : send_op := mk_send (make_transfer (make_base service error) fd buffers).

Definition send (service duration : bool) (error : option error_code) (fd : Z) (buffers : buffer_sequence)
  : option (policy * send_op) :=
  match duration, error with
  | true, Some _ => None
  | _, _ =>
      p ← async_operation_traits (overload_args duration error);
      Some (p, async_sendmsg service error fd buffers)
  end.

(** ** The loop *)

(** [m_msghdr] describes what is left. *)
Definition transfer_ok (t : transfer) : Prop :=
  sequence_ok (m_buffers t) /\ msg_iov t = get_iov_ptr (m_buffers t) /\
  msg_iovlen t = get_iov_cnt (m_buffers t).

Lemma get_iov_span_eq b : get_iov_span b = (get_iov_ptr b, get_iov_cnt b).
Proof. unfold get_iov_span, get_iov_ptr, get_iov_cnt. by destruct (at_end b). Qed.

Lemma make_transfer_ok base fd b : sequence_ok b -> transfer_ok (make_transfer base fd b).
Proof. done. Qed.

Lemma sqe_addrs_remaining t : transfer_ok t -> sqe_addrs (msg_iovecs t) = remaining (m_buffers t).
Proof.
  intros (Hok & Hi & Hc). unfold msg_iovecs. rewrite Hi, Hc.
  change (sqe_addrs (iov (m_buffers t)) = remaining (m_buffers t)).
  unfold sqe_addrs. by rewrite iov_drop.
Qed.

(** One completion with [r] bytes, with no error in the error code. *)
Lemma update_result_data t r fl : transfer_ok t -> is_error (op_error (t_base t)) = false ->
  0 < r < 2 ^ 31 ->
  exists b', commit r (m_buffers t) = Some b' /\
    let t' := mk_transfer (set_value r fl (t_base t)) (m_socket t) b'
                (to_int (m_bytes_transferred t + r)) (get_iov_ptr b') (get_iov_cnt b') in
    transfer_ok t' /\
    update_result (set_base (set_value r fl (t_base t)) t) =
      (t', match get_iov_ptr b' with Some _ => SubmitAgain | None => ResumeAwaiting end).
Proof.
  intros (Hok & _ & _) He Hr. destruct (commit_spec r (m_buffers t) Hok) as (b' & E & Hok' & _); [lia|].
  exists b'. split; [done|]. cbv zeta. split; [done|].
  unfold update_result. cbn [t_base set_base op_error op_res set_value m_buffers m_bytes_transferred m_socket].
  destruct (Z.ltb_spec r 0); [lia|]. rewrite He. destruct (Z.eqb_spec r 0); [lia|]. cbn [orb].
  rewrite wrap_small, E by lia. cbn [default from_option]. rewrite get_iov_span_eq.
  unfold id. by destruct (get_iov_ptr b').
Qed.

Lemma set_value_no_error r fl b : 0 <= r -> op_error (set_value r fl b) = op_error b.
Proof. intros Hr. cbn. by destruct (Z.ltb_spec r 0); [lia|]. Qed.

Lemma update_result_stop t r fl :
  is_error (op_error (t_base t)) = true \/ r <= 0 ->
  update_result (set_base (set_value r fl (t_base t)) t) =
    (set_base (set_value r fl (t_base t)) t, ResumeAwaiting).
Proof.
  intros H. unfold update_result. cbn [t_base set_base].
  change (op_res (set_value r fl (t_base t))) with r.
  assert (is_error (op_error (set_value r fl (t_base t))) || (r =? 0) = true) as ->; [|done].
  cbn [op_error set_value]. destruct (Z.ltb_spec r 0).
  - unfold is_error, assign. cbn [e_value]. destruct (Z.eqb_spec (- r) 0); [lia|done].
  - destruct H as [->|H]; [done|]. destruct (Z.eqb_spec r 0); [by rewrite orb_true_r|lia].
Qed.

(** ** Memory *)

Lemma scatter_app a1 a2 d1 d2 m : length a1 = length d1 ->
  scatter (a1 ++ a2) (d1 ++ d2) m = scatter a2 d2 (scatter a1 d1 m).
Proof.
  revert d1 m. induction a1 as [|a a1 IH]; intros [|x d1] m Hl; simpl in *; try done; try lia.
  apply IH. lia.
Qed.

Lemma scatter_take addrs data m : scatter addrs data m = scatter (take (length data) addrs) data m.
Proof.
  revert data m. induction addrs as [|a addrs IH]; intros [|x data] m; simpl; auto.
Qed.

(** Two chunks after one another are one chunk. *)
Lemma scatter_chunks addrs d1 d2 m : (length d1 <= length addrs)%nat ->
  scatter (drop (length d1) addrs) d2 (scatter addrs d1 m) = scatter addrs (d1 ++ d2) m.
Proof.
  intros Hl. rewrite (scatter_take addrs d1).
  rewrite <- scatter_app by (rewrite length_take; lia). by rewrite take_drop.
Qed.

(** What is stored is read back, when the addresses are different. *)
Lemma gather_scatter addrs data m : NoDup addrs -> length data = length addrs ->
  gather addrs (scatter addrs data m) = data.
Proof.
  assert (forall addrs data m a, a ∉ addrs -> scatter addrs data m !! a = m !! a) as Hne.
  { clear. induction addrs as [|b addrs IH]; intros [|x data] m a Ha; simpl; try done.
    rewrite not_elem_of_cons in Ha. destruct Ha as [Hab Ha].
    rewrite IH by done. by rewrite lookup_insert_ne. }
  intros Hnd. revert data m. induction Hnd as [|a addrs Ha _ IH]; intros [|x data] m Hl;
    simpl in *; try done.
  f_equal; [|apply IH; lia]. rewrite Hne by done. by rewrite lookup_insert_eq.
Qed.

(** ** Completions with data *)

(** The kernel has transferred between one byte and all it was asked for. *)
Definition data_cqe (c : cqe) : Prop := 0 < res c /\ res c = Z.of_nat (length (payload c)).

Definition received (cs : list cqe) : list Z := concat (map payload cs).

Definition nonempty_buffers (b : buffer_sequence) : Prop := Forall nonempty (m_val b).

(** The state of a transfer of [b] after [k] bytes. *)
Definition progressed (b : buffer_sequence) (fd : Z) (k : nat) (e : error_code) (t : transfer) : Prop :=
  transfer_ok t /\ m_socket t = fd /\ nonempty_buffers (m_buffers t) /\ op_error (t_base t) = e /\
  remaining (m_buffers t) = drop k (remaining b) /\ m_bytes_transferred t = Z.of_nat k.

Lemma make_transfer_progressed b service e fd : sequence_ok b -> nonempty_buffers b ->
  progressed b fd 0 (default no_error e) (make_transfer (make_base service e) fd b).
Proof.
  intros Hok Hne. split; [done|]. split; [done|]. split; [done|]. split; [by destruct e|]. by rewrite drop_0.
Qed.

(** A completion of [r] bytes: the transfer goes on, or ends when nothing is left. *)
Lemma update_progress b fd k e t c : progressed b fd k e t -> is_error e = false ->
  0 < res c -> (k + Z.to_nat (res c) <= length (remaining b))%nat ->
  Z.of_nat (length (remaining b)) < 2 ^ 31 ->
  exists t', progressed b fd (k + Z.to_nat (res c)) e t' /\
    op_res (t_base t') = res c /\ op_service (t_base t') = op_service (t_base t) /\
    update_result (set_base (set_value (res c) (flags c) (t_base t)) t) =
      (t', if decide (k + Z.to_nat (res c) = length (remaining b))%nat
           then ResumeAwaiting else SubmitAgain).
Proof.
  intros (Hok & Hfd & Hne & He & Hr & Hb) Herr Hc Hk Hlen. rewrite <- He in Herr.
  destruct (update_result_data t (res c) (flags c) Hok Herr) as (b' & E & Hok' & Hu); [lia|].
  destruct (commit_spec (res c) (m_buffers t)) as (b2 & E2 & Hs2 & Hr2 & _ & Hne2); [apply Hok|lia|].
  rewrite E in E2. injection E2 as <-.
  assert (remaining b' = drop (k + Z.to_nat (res c)) (remaining b)) as Hr'.
  { by rewrite Hr2, Hr, drop_drop. }
  eexists. split; [|split; [|split; [|rewrite Hu; f_equal]]]; try done.
  - split; [exact Hok'|]. split; [exact Hfd|]. split; [by apply Hne2|]. split; [|split; [exact Hr'|]].
    + cbn [t_base]. rewrite set_value_no_error by lia. done.
    + cbn [m_bytes_transferred]. rewrite Hb, to_int_small; lia.
  - pose proof (get_iov_ptr_None b' Hs2 (Hne2 Hne)) as Hend. rewrite Hr' in Hend.
    destruct (decide _) as [Eq|Neq].
    + rewrite (proj2 Hend); [done|]. by rewrite Eq, drop_all.
    + destruct (get_iov_ptr b'); [done|]. destruct Neq.
      pose proof (proj1 Hend eq_refl) as Hl. apply (f_equal length) in Hl.
      rewrite length_drop in Hl. simpl in Hl. lia.
Qed.

(** ** Receiving *)

Section recv.
Context (b : buffer_sequence) (fd : Z) (Hlen : Z.of_nat (length (remaining b)) < 2 ^ 31).

Lemma recv_complete_data k e t c n : progressed b fd k e t -> is_error e = false -> data_cqe c ->
  (k + length (payload c) <= length (remaining b))%nat ->
  exists t', progressed b fd (k + length (payload c)) e t' /\ op_res (t_base t') = res c /\
    complete kernel c (mk_recv (some := false) t) n =
      (mk_recv t', mk_net (scatter (drop k (remaining b)) (payload c) (mem n)) (sent n),
       if decide (k + length (payload c) = length (remaining b))%nat
       then ResumeAwaiting else SubmitAgain).
Proof.
  intros Ht He [Hc1 Hc2] Hk. assert (Z.to_nat (res c) = length (payload c)) as Er by lia.
  destruct (update_progress b fd k e t c Ht He Hc1) as (t' & Ht' & Hres & _ & Hu); [lia|done|].
  rewrite Er in *. exists t'. split; [done|]. split; [done|].
  unfold complete. cbn [try_start recv_operation kernel on_completed put_base get_base on_recv_completed].
  unfold on_recv_completed. cbn [recv_transfer]. rewrite Hu.
  destruct Ht as (Hok & _ & _ & _ & Hr & _). by rewrite sqe_addrs_remaining, Hr.
Qed.

Lemma recv_drive k e t cs n : progressed b fd k e t -> is_error e = false -> Forall data_cqe cs ->
  (k + length (received cs) < length (remaining b))%nat ->
  exists t', progressed b fd (k + length (received cs)) e t' /\
    drive kernel cs (mk_recv (some := false) t) n =
      Waiting (mk_recv t') (mk_net (scatter (drop k (remaining b)) (received cs) (mem n)) (sent n)).
Proof.
  intros Ht He Hcs. revert k t n Ht. induction Hcs as [|c cs Hc _ IH]; intros k t n Ht Hk.
  - exists t. rewrite Nat.add_0_r. split; [done|]. cbn. destruct n as [m s].
    by destruct (drop k (remaining b)).
  - unfold received in *. cbn [map concat] in *. rewrite length_app in Hk.
    destruct (recv_complete_data k e t c n Ht He Hc) as (t1 & Ht1 & _ & E1); [lia|].
    cbn [drive]. rewrite E1. destruct (decide _); [lia|].
    destruct (IH (k + length (payload c))%nat t1
      (mk_net (scatter (drop k (remaining b)) (payload c) (mem n)) (sent n)) Ht1) as (t' & Ht' & E'); [lia|].
    exists t'. rewrite length_app, Nat.add_assoc. split; [done|]. rewrite E'. cbn [mem sent].
    do 2 f_equal. rewrite <- drop_drop. apply scatter_chunks. rewrite length_drop. lia.
Qed.

(** The last completion: no data. *)
Lemma recv_complete_stop t c n : res c <= 0 -> payload c = [] ->
  complete kernel c (mk_recv (some := false) t) n =
    (mk_recv (set_base (set_value (res c) (flags c) (t_base t)) t), n, ResumeAwaiting).
Proof.
  intros Hc Hp. unfold complete.
  cbn [try_start recv_operation kernel on_completed put_base get_base].
  unfold on_recv_completed. cbn [recv_transfer].
  rewrite update_result_stop by (by right). rewrite Hp. destruct n as [m s].
  by destruct (sqe_addrs _).
Qed.

End recv.

(** What [get_result] gives after [k] bytes with the error [e]. *)
Definition reported (p : policy) (k : nat) (e : error_code) : thrown Z * error_code :=
  (if negb (error_code_type p) && is_error e then Thrown e else Returned (Z.of_nat k), e).

Lemma recv_result p b fd k e t : progressed b fd k e t -> op_res (t_base t) <> 0 ->
  Z.of_nat k < 2 ^ 31 -> recv_get_result (some := false) p (mk_recv t) = reported p k e.
Proof.
  intros (_ & _ & _ & He & _ & Hb) Hr Hk. unfold recv_get_result, reported. cbn [recv_transfer].
  destruct (Z.eqb_spec (op_res (t_base t)) 0); [done|]. rewrite He, Hb, wrap_small by lia.
  by destruct (_ && _).
Qed.

(** The portion that fills the buffers resumes the coroutine. *)
Lemma recv_filled p service fd b e n cs c rest : sequence_ok b -> nonempty_buffers b ->
  Z.of_nat (length (remaining b)) < 2 ^ 31 -> is_error e = false -> Forall data_cqe cs -> data_cqe c ->
  length (received cs ++ payload c) = length (remaining b) ->
  exists op', drive kernel (cs ++ c :: rest)
      (mk_recv (some := false) (make_transfer (make_base service (Some e)) fd b)) n =
      Resumed op' (mk_net (scatter (remaining b) (received cs ++ payload c) (mem n)) (sent n)) rest /\
    recv_get_result p op' = reported p (length (remaining b)) e.
Proof.
  intros Hok Hne Hlen He Hcs Hc Hk. rewrite length_app in Hk. pose proof Hc as [Hc1 Hc2].
  pose proof (make_transfer_progressed b service (Some e) fd Hok Hne) as Ht. cbn [default] in Ht.
  destruct (recv_drive b fd Hlen 0 e _ cs n Ht He Hcs) as (t' & Ht' & E); [lia|].
  rewrite drop_0 in E. cbn [Nat.add] in Ht'.
  destruct (recv_complete_data b fd Hlen _ e t' c
    (mk_net (scatter (remaining b) (received cs) (mem n)) (sent n)) Ht' He Hc) as (t2 & Ht2 & Hr2 & E2); [lia|].
  exists (mk_recv t2). rewrite drive_app, E. cbn [drive]. rewrite E2.
  destruct (decide _); [|lia]. split.
  - cbn [mem sent]. do 2 f_equal. apply scatter_chunks. lia.
  - rewrite <- Hk. apply (recv_result p b fd _ e t2 Ht2); [rewrite Hr2; lia|lia].
Qed.

(** C10: [recv]. For a buffer sequence with no empty buffer and an error code that holds no
    error, and for whatever portions the kernel delivers:
    - as long as buffers are left, the operation submits again, for exactly the addresses
      that have not been filled;
    - when the portions fill the buffers, the coroutine is resumed by the last of them, the
      received bytes are in the buffers in order, and the result is their number;
    - on end of file, or an error, the coroutine is resumed with the bytes so far in the
      buffers; the result is their number with the error code [eof], or that error, or the
      exception. *)
Theorem recv_all p service e fd b n cs c rest :
  sequence_ok b -> nonempty_buffers b -> Z.of_nat (length (remaining b)) < 2 ^ 31 ->
  is_error e = false -> Forall data_cqe cs ->
  let op := mk_recv (some := false) (make_transfer (make_base service (Some e)) fd b) in
  let after data := mk_net (scatter (remaining b) data (mem n)) (sent n) in
  ((length (received cs) < length (remaining b))%nat ->
     exists op' iovs, drive kernel cs op n = Waiting op' (after (received cs)) /\
       try_start op' (after (received cs)) = PREP_RECVMSG fd iovs 0 /\
       sqe_addrs iovs = drop (length (received cs)) (remaining b)) /\
  (data_cqe c -> length (received cs ++ payload c) = length (remaining b) ->
     exists op', drive kernel (cs ++ c :: rest) op n =
         Resumed op' (after (received cs ++ payload c)) rest /\
       recv_get_result p op' = reported p (length (remaining b)) e) /\
  (res c <= 0 -> payload c = [] -> (length (received cs) < length (remaining b))%nat ->
     exists op', drive kernel (cs ++ c :: rest) op n = Resumed op' (after (received cs)) rest /\
       recv_get_result p op' = reported p (length (received cs))
         (if res c =? 0 then make_error_code eof else assign (- res c))).
Proof.
  intros Hok Hne Hlen He Hcs op after.
  pose proof (make_transfer_progressed b service (Some e) fd Hok Hne) as Ht. cbn [default] in Ht.
  pose proof (recv_drive b fd Hlen 0 e _ cs n Ht He Hcs) as Hdrive.
  rewrite drop_0 in Hdrive. cbn [Nat.add] in Hdrive.
  split; [|split].
  - intros Hk. destruct (Hdrive Hk) as (t' & Ht' & E).
    exists (mk_recv t'), (msg_iovecs t'). split; [exact E|].
    destruct Ht' as (Htok & Hfd & _ & _ & Hr & _). split; [cbn; by rewrite Hfd|].
    by rewrite sqe_addrs_remaining.
  - intros Hc Hk. by apply recv_filled.
  - intros Hc Hp Hk. destruct (Hdrive Hk) as (t' & Ht' & E).
    eexists. rewrite drive_app. unfold op. rewrite E. cbn [drive].
    rewrite (recv_complete_stop t') by done. split; [done|].
    destruct Ht' as (_ & _ & _ & He' & _ & Hb). unfold recv_get_result, reported.
    cbn [recv_transfer t_base set_base m_bytes_transferred].
    change (op_res (set_value (res c) (flags c) (t_base t'))) with (res c). rewrite Hb, wrap_small by lia.
    cbn [op_error set_value].
    destruct (Z.eqb_spec (res c) 0) as [E0|E0]; [by destruct (_ && _)|].
    destruct (Z.ltb_spec (res c) 0); [|lia]. by destruct (_ && _).
Qed.

(** The witness: two buffers of 2 and 3 bytes, filled by portions of 1 and 4 bytes. *)
Lemma recv_all_witness :
  let b := buffer_sequence_base [(100, 2); (200, 3)] in
  let op := mk_recv (some := false) (make_transfer (make_base true (Some no_error)) 5 b) in
  exists op', drive kernel ([mk_cqe 1 0 [7]] ++ mk_cqe 4 0 [8; 9; 10; 11] :: []) op (mk_net ∅ []) =
    Resumed op' (mk_net (scatter (remaining b) ([7] ++ [8; 9; 10; 11]) ∅) []) [] /\
  recv_get_result (mk_policy false true) op' = reported (mk_policy false true) 5 no_error.
Proof.
  cbv zeta.
  apply (recv_all (mk_policy false true) true no_error 5 (buffer_sequence_base [(100, 2); (200, 3)])
    (mk_net ∅ []) [mk_cqe 1 0 [7]] (mk_cqe 4 0 [8; 9; 10; 11]) []).
  - split; [|simpl; lia]. repeat (constructor; [split; [discriminate|reflexivity]|]). constructor.
  - repeat (constructor; [reflexivity|]). constructor.
  - reflexivity.
  - reflexivity.
  - repeat (constructor; [split; reflexivity|]). constructor.
  - split; reflexivity.
  - reflexivity.
Defined.

(** An error left in the [std::error_code] by an earlier operation is never cleared:
    whatever the kernel then delivers, the first completion resumes the coroutine with
    that error and the result 0, although its bytes have been stored. *)
Theorem recv_stale_error p service e fd b n c rest :
  sequence_ok b -> is_error e = true -> error_code_type p = true -> 0 < res c ->
  exists op',
    drive kernel (c :: rest)
      (mk_recv (some := false) (make_transfer (make_base service (Some e)) fd b)) n =
      Resumed op' (mk_net (scatter (remaining b) (payload c) (mem n)) (sent n)) rest /\
    recv_get_result p op' = (Returned 0, e).
Proof.
  intros Hok He Hp Hc. eexists. cbn [drive]. unfold complete.
  cbn [try_start recv_operation kernel on_completed put_base get_base].
  unfold on_recv_completed. cbn [recv_transfer].
  rewrite update_result_stop by (by left). rewrite sqe_addrs_remaining by by apply make_transfer_ok.
  split; [done|]. unfold recv_get_result. cbn [recv_transfer t_base set_base m_bytes_transferred].
  change (op_res (set_value (res c) (flags c) _)) with (res c).
  destruct (Z.eqb_spec (res c) 0); [lia|]. rewrite Hp. cbn [negb andb make_transfer m_bytes_transferred].
  rewrite set_value_no_error by lia. done.
Qed.

Lemma recv_stale_error_witness :
  let b := buffer_sequence_base [(100, 2)] in
  exists op',
    drive kernel [mk_cqe 2 0 [7; 8]]
      (mk_recv (some := false) (make_transfer (make_base true (Some (make_error_code eof))) 5 b)) (mk_net ∅ []) =
      Resumed op' (mk_net (scatter (remaining b) [7; 8] ∅) []) [] /\
    recv_get_result (mk_policy false true) op' = (Returned 0, make_error_code eof).
Proof.
  apply (recv_stale_error (mk_policy false true) true (make_error_code eof) 5
    (buffer_sequence_base [(100, 2)]) (mk_net ∅ []) (mk_cqe 2 0 [7; 8]) []); try reflexivity.
  split; [|simpl; lia]. repeat (constructor; [split; [discriminate|reflexivity]|]). constructor.
Defined.

(** [recv_some] ends with the first completion, and gives the bytes it has stored, none of
    them after an error; the error code is as for [recv]. *)
Lemma recv_some_once service duration e fd b n c rest p op :
  sequence_ok b -> recv_some service duration e fd b = Some (p, op) -> res c < 2 ^ 31 ->
  try_start op n = PREP_RECVMSG fd (msg_iovecs (recv_transfer op)) 0 /\
  sqe_addrs (msg_iovecs (recv_transfer op)) = remaining b /\
  exists op', drive kernel (c :: rest) op n =
      Resumed op' (mk_net (scatter (remaining b) (payload c) (mem n)) (sent n)) rest /\
    recv_get_result p op' = reported p (Z.to_nat (res c))
      (if res c =? 0 then make_error_code eof
       else if res c <? 0 then assign (- res c) else default no_error e).
Proof.
  intros Hok E Hr. unfold recv_some in E. apply bind_Some in E as (p' & _ & [= -> <-]).
  assert (sqe_addrs (msg_iovecs (make_transfer (make_base service e) fd b)) = remaining b) as Ha
    by by rewrite sqe_addrs_remaining by by apply make_transfer_ok.
  split; [done|]. split; [done|]. eexists. split.
  - cbn [drive]. unfold complete. cbn [try_start recv_operation kernel on_completed put_base get_base].
    unfold async_recvmsg. cbn [recv_transfer]. by rewrite Ha.
  - unfold recv_get_result, reported, async_recvmsg. cbn [recv_transfer t_base set_base m_bytes_transferred].
    change (op_res (set_value (res c) (flags c) _)) with (res c). cbn [op_error set_value make_base].
    assert (wrap 64 (if 0 <=? res c then res c else 0) = Z.of_nat (Z.to_nat (res c))) as ->.
    { destruct (Z.leb_spec 0 (res c)); rewrite wrap_small by lia; lia. }
    destruct (Z.eqb_spec (res c) 0); [by destruct (_ && _)|].
    destruct (Z.ltb_spec (res c) 0); [by destruct (_ && _)|]. destruct e; by destruct (_ && _).
Qed.

(** ** Empty buffers *)

(** The last buffer is empty. *)
Definition ends_empty (b : buffer_sequence) : Prop :=
  exists vs a, m_val b = vs ++ [mk_iovec a 0].

(** No [commit] of at most what is left moves the iterator behind a last empty buffer. *)
Lemma commit_loop_ends_empty fuel r b b' : sequence_ok b -> ends_empty b -> at_end b = false ->
  0 <= r <= Z.of_nat (length (remaining b)) -> commit_loop fuel r b = Some b' ->
  ends_empty b' /\ at_end b' = false.
Proof.
  revert r b. induction fuel as [|fuel IH]; intros r b Hok Hemp Hend Hr; cbn [commit_loop].
  - destruct (_ && _); [done|]. by intros [= <-].
  - rewrite Hend. destruct (Z.ltb_spec 0 r); cbn [andb negb]; [|by intros [= <-]].
    destruct (m_val b !! m_iterator b) as [v|] eqn:Hv; [|done].
    pose proof Hok as [Hf Hi]. destruct Hemp as (vs & a & E).
    rewrite (remaining_cons b v Hv), length_app in Hr. unfold iov_bytes in Hr at 1.
    rewrite length_seqZ in Hr. assert (iovec_ok v) as Hvok by (eapply Forall_lookup_1; eauto).
    unfold commit_step, iovec_ok in *. destruct (Z.leb_spec (iov_len v) r).
    + assert (m_iterator b <> length vs) as Hlast.
      { intros El. rewrite E, El, list_lookup_middle in Hv by done. injection Hv as <-.
        cbn [iov_len] in *. rewrite (remaining_end (mk_sequence (m_val b) (S (m_iterator b)))) in Hr;
          [simpl in Hr; lia|].
        apply Nat.eqb_eq. cbn [m_iterator m_val]. rewrite E, length_app. cbn [length]. lia. }
      unfold at_end in Hend. apply Nat.eqb_neq in Hend. rewrite E, length_app in Hi, Hend. simpl in Hi, Hend.
      apply IH.
      * split; cbn; [done|]. rewrite E, length_app. simpl. lia.
      * by exists vs, a.
      * apply Nat.eqb_neq. cbn [m_iterator m_val]. rewrite E, length_app. cbn [length]. lia.
      * lia.
    + assert (m_iterator b < length vs)%nat as Hlt.
      { assert (m_iterator b < length (m_val b))%nat as H1 by by eapply lookup_lt_Some.
        destruct (decide (m_iterator b = length vs)) as [El|];
          [|rewrite E, length_app in H1; simpl in H1; lia].
        rewrite E, El, list_lookup_middle in Hv by done. injection Hv as <-. cbn in *. lia. }
      set (b1 := mk_sequence _ _). intros E1.
      assert (commit_loop fuel 0 b1 = Some b1) as E2 by by destruct fuel.
      rewrite E2 in E1. injection E1 as <-. split.
      * eexists (<[m_iterator b:=_]> vs), a. cbn [b1 m_val]. by rewrite E, insert_app_l.
      * apply Nat.eqb_neq. unfold b1. cbn [m_iterator m_val].
        rewrite length_insert, E, length_app. cbn [length]. lia.
Qed.

(** When the last buffer is empty, the portion that fills the buffers does not resume
    the coroutine: the operation submits once more, with no address to fill, so that the
    only completion it can get is 0, and then reports [eof] although nothing was closed. *)
Theorem recv_trailing_empty p service fd b n c :
  sequence_ok b -> ends_empty b -> at_end b = false ->
  Z.of_nat (length (remaining b)) < 2 ^ 31 ->
  data_cqe c -> length (payload c) = length (remaining b) ->
  exists op' iovs n', drive kernel [c] (mk_recv (some := false) (make_transfer (make_base service None) fd b)) n =
      Waiting op' n' /\
    try_start op' n' = PREP_RECVMSG fd iovs 0 /\ sqe_addrs iovs = [] /\
    forall fl rest, exists op'', drive kernel (mk_cqe 0 fl [] :: rest) op' n' = Resumed op'' n' rest /\
      recv_get_result p op'' = reported p (length (remaining b)) (make_error_code eof).
Proof.
  intros Hok Hemp Hend Hlen [Hc1 Hc2] Hl. set (t := make_transfer _ _ _).
  destruct (update_result_data t (res c) (flags c)) as (b' & E & Hok' & Hu); [done|done|lia|].
  destruct (commit_spec (res c) b Hok) as (b2 & E2 & Hs2 & Hr2 & _); [lia|].
  change (m_buffers t) with b in E. rewrite E in E2. injection E2 as <-.
  destruct (commit_loop_ends_empty _ (res c) b b' Hok Hemp Hend ltac:(lia) E) as [_ Hend'].
  assert (exists i, get_iov_ptr b' = Some i) as [i Hi].
  { unfold get_iov_ptr. rewrite Hend'. eauto. }
  rewrite Hi in Hu.
  set (t' := mk_transfer (set_value (res c) (flags c) (t_base t)) (m_socket t) b'
    (to_int (m_bytes_transferred t + res c)) (Some i) (get_iov_cnt b')) in *.
  assert (transfer_ok t') as Ht' by by rewrite Hi in Hok'.
  exists (mk_recv t'), (msg_iovecs t'), (mk_net (scatter (sqe_addrs (msg_iovecs t)) (payload c) (mem n)) (sent n)).
  split; [|split; [reflexivity|split]].
  - cbn [drive]. unfold complete. cbn [try_start kernel on_completed recv_operation put_base get_base].
    unfold on_recv_completed. cbn [recv_transfer]. by rewrite Hu.
  - rewrite sqe_addrs_remaining by exact Ht'. cbn [m_buffers t'].
    rewrite Hr2, drop_ge by lia. done.
  - intros fl rest. eexists. cbn [drive]. rewrite recv_complete_stop by done. split; [done|].
    unfold recv_get_result, reported.
    cbn [recv_transfer t_base set_base m_bytes_transferred op_res set_value Z.eqb t'].
    change (m_bytes_transferred t) with 0. rewrite Z.add_0_l, to_int_small, wrap_small by lia.
    rewrite Hc2, Hl. by destruct (_ && _).
Qed.

Lemma recv_trailing_empty_witness :
  let b := buffer_sequence_base [(100, 2); (200, 0)] in
  let p := mk_policy false true in
  exists op' iovs n', drive kernel [mk_cqe 2 0 [7; 8]]
      (mk_recv (some := false) (make_transfer (make_base true None) 5 b)) (mk_net ∅ []) = Waiting op' n' /\
    try_start op' n' = PREP_RECVMSG 5 iovs 0 /\ sqe_addrs iovs = [] /\
    forall fl rest, exists op'', drive kernel (mk_cqe 0 fl [] :: rest) op' n' = Resumed op'' n' rest /\
      recv_get_result p op'' = reported p 2 (make_error_code eof).
Proof.
  apply (recv_trailing_empty (mk_policy false true) true 5
    (buffer_sequence_base [(100, 2); (200, 0)]) (mk_net ∅ []) (mk_cqe 2 0 [7; 8])); try reflexivity.
  - split; [|simpl; lia]. repeat (constructor; [split; [discriminate|reflexivity]|]). constructor.
  - by exists [mk_iovec 100 2], 200.
  - split; reflexivity.
Defined.

(** ** Sending *)

Section send.
Context (b : buffer_sequence) (fd : Z) (Hlen : Z.of_nat (length (remaining b)) < 2 ^ 31).

Lemma send_complete_data k e t c n : progressed b fd k e t -> is_error e = false -> 0 < res c ->
  (k + Z.to_nat (res c) <= length (remaining b))%nat ->
  exists t', progressed b fd (k + Z.to_nat (res c)) e t' /\ op_res (t_base t') = res c /\
    complete kernel c (mk_send t) n =
      (mk_send t', mk_net (mem n) (sent n ++ gather (take (Z.to_nat (res c)) (drop k (remaining b))) (mem n)),
       if decide (k + Z.to_nat (res c) = length (remaining b))%nat
       then ResumeAwaiting else SubmitAgain).
Proof.
  intros Ht He Hc Hk.
  destruct (update_progress b fd k e t c Ht He Hc) as (t' & Ht' & Hres & _ & Hu); [lia|done|].
  exists t'. split; [done|]. split; [done|].
  unfold complete. cbn [try_start send_operation kernel on_completed put_base get_base].
  unfold on_send_completed. cbn [send_transfer]. rewrite Hu.
  destruct Ht as (Hok & _ & _ & _ & Hr & _). by rewrite sqe_addrs_remaining, Hr.
Qed.

(** The bytes a list of completions has sent. *)
Definition sent_by (cs : list cqe) : nat := sum_list (map (fun c => Z.to_nat (res c)) cs).

Lemma gather_app a1 a2 m : gather (a1 ++ a2) m = gather a1 m ++ gather a2 m.
Proof. apply map_app. Qed.

Lemma gather_chunks (l : list Z) i j m :
  gather (take i l) m ++ gather (take j (drop i l)) m = gather (take (i + j) l) m.
Proof. by rewrite <- gather_app, take_take_drop. Qed.

Lemma send_drive k e t cs n : progressed b fd k e t -> is_error e = false ->
  Forall (fun c => 0 < res c) cs -> (k + sent_by cs < length (remaining b))%nat ->
  exists t', progressed b fd (k + sent_by cs) e t' /\
    drive kernel cs (mk_send t) n =
      Waiting (mk_send t') (mk_net (mem n) (sent n ++ gather (take (sent_by cs) (drop k (remaining b))) (mem n))).
Proof.
  intros Ht He Hcs. revert k t n Ht. induction Hcs as [|c cs Hc _ IH]; intros k t n Ht Hk.
  - exists t. cbn. rewrite Nat.add_0_r, take_0, app_nil_r. by destruct n.
  - change (sent_by (c :: cs)) with (Z.to_nat (res c) + sent_by cs)%nat in *.
    destruct (send_complete_data k e t c n Ht He Hc) as (t1 & Ht1 & _ & E1); [lia|].
    cbn [drive]. rewrite E1. destruct (decide _); [lia|].
    destruct (IH (k + Z.to_nat (res c))%nat t1 (mk_net (mem n)
      (sent n ++ gather (take (Z.to_nat (res c)) (drop k (remaining b))) (mem n))) Ht1) as (t' & Ht' & E'); [lia|].
    exists t'. rewrite Nat.add_assoc. split; [done|]. rewrite E'. cbn [mem sent].
    by rewrite <- (assoc_L (++)), <- drop_drop, gather_chunks.
Qed.

Lemma send_complete_stop t c n : res c <= 0 ->
  complete kernel c (mk_send t) n =
    (mk_send (set_base (set_value (res c) (flags c) (t_base t)) t), n, ResumeAwaiting).
Proof.
  clear Hlen b. intros Hc. unfold complete.
  cbn [try_start send_operation kernel on_completed put_base get_base].
  unfold on_send_completed. cbn [send_transfer]. rewrite update_result_stop by (by right).
  replace (Z.to_nat (res c)) with 0%nat by lia. rewrite take_0, app_nil_r. by destruct n.
Qed.

End send.

Lemma send_result p b fd k e t : progressed b fd k e t -> is_error e = false -> Z.of_nat k < 2 ^ 31 ->
  send_get_result p (mk_send t) = reported p k e.
Proof.
  intros (_ & _ & _ & He' & _ & Hb) He Hk. unfold send_get_result, reported. cbn [send_transfer].
  rewrite He', Hb, wrap_small, He by lia. cbn [negb]. rewrite andb_false_r. by destruct (error_code_type p).
Qed.

(** The portion that takes the last bytes resumes the coroutine. *)
Lemma send_done p service fd b e n cs c rest : sequence_ok b -> nonempty_buffers b ->
  Z.of_nat (length (remaining b)) < 2 ^ 31 -> is_error e = false -> Forall (fun c => 0 < res c) cs -> 0 < res c ->
  (sent_by cs + Z.to_nat (res c))%nat = length (remaining b) ->
  exists op', drive kernel (cs ++ c :: rest) (mk_send (make_transfer (make_base service (Some e)) fd b)) n =
      Resumed op' (mk_net (mem n) (sent n ++ gather (remaining b) (mem n))) rest /\
    send_get_result p op' = reported p (length (remaining b)) e.
Proof.
  intros Hok Hne Hlen He Hcs Hc Hk.
  pose proof (make_transfer_progressed b service (Some e) fd Hok Hne) as Ht. cbn [default] in Ht.
  destruct (send_drive b fd Hlen 0 e _ cs n Ht He Hcs) as (t' & Ht' & E); [lia|].
  rewrite drop_0 in E. cbn [Nat.add] in Ht'.
  destruct (send_complete_data b fd Hlen _ e t' c
    (mk_net (mem n) (sent n ++ gather (take (sent_by cs) (remaining b)) (mem n))) Ht' He Hc) as (t2 & Ht2 & Hr2 & E2); [lia|].
  exists (mk_send t2). rewrite drive_app, E. cbn [drive]. rewrite E2.
  destruct (decide _); [|lia]. split.
  - cbn [mem sent]. do 2 f_equal. rewrite <- (assoc_L (++)), gather_chunks, take_ge by lia. done.
  - rewrite <- Hk. apply (send_result p b fd); [done|done|lia].
Qed.

(** C11: [send]. For a buffer sequence with no empty buffer and an error code that holds no
    error, and for whatever portions the kernel takes: the peer is sent the bytes of the
    buffers in order, nothing twice and nothing left out; the operation submits again until
    all have been sent, then reports their number; after an error it reports the error (or
    throws it) and, by code, the number of bytes sent before. No call carries
    [MSG_NOSIGNAL]. *)
Theorem send_all p service e fd b n cs c rest :
  sequence_ok b -> nonempty_buffers b -> Z.of_nat (length (remaining b)) < 2 ^ 31 ->
  is_error e = false -> Forall (fun c => 0 < res c) cs ->
  let op := mk_send (make_transfer (make_base service (Some e)) fd b) in
  let after k := mk_net (mem n) (sent n ++ take k (gather (remaining b) (mem n))) in
  ((sent_by cs < length (remaining b))%nat ->
     exists op' iovs, drive kernel cs op n = Waiting op' (after (sent_by cs)) /\
       try_start op' (after (sent_by cs)) = PREP_SENDMSG fd iovs 0 /\ sqe_addrs iovs = drop (sent_by cs) (remaining b)) /\
  (0 < res c -> (sent_by cs + Z.to_nat (res c))%nat = length (remaining b) ->
     exists op', drive kernel (cs ++ c :: rest) op n =
         Resumed op' (mk_net (mem n) (sent n ++ gather (remaining b) (mem n))) rest /\
       send_get_result p op' = reported p (length (remaining b)) e) /\
  (res c < 0 -> (sent_by cs < length (remaining b))%nat ->
     exists op', drive kernel (cs ++ c :: rest) op n = Resumed op' (after (sent_by cs)) rest /\
       send_get_result p op' = reported p (sent_by cs) (assign (- res c))).
Proof.
  intros Hok Hne Hlen He Hcs op after.
  assert (forall k, gather (take k (remaining b)) (mem n) = take k (gather (remaining b) (mem n))) as Hg.
  { intros k. unfold gather. by rewrite firstn_map. }
  pose proof (make_transfer_progressed b service (Some e) fd Hok Hne) as Ht. cbn [default] in Ht.
  pose proof (send_drive b fd Hlen 0 e _ cs n Ht He Hcs) as Hdrive.
  rewrite drop_0, Hg in Hdrive. cbn [Nat.add] in Hdrive.
  split; [|split].
  - intros Hk. destruct (Hdrive Hk) as (t' & Ht' & E).
    exists (mk_send t'), (msg_iovecs t'). split; [exact E|].
    destruct Ht' as (Htok & Hfd & _ & _ & Hr & _). split; [cbn; by rewrite Hfd|].
    by rewrite sqe_addrs_remaining.
  - intros Hc Hk. by apply send_done.
  - intros Hc Hk. destruct (Hdrive Hk) as (t' & Ht' & E).
    eexists. rewrite drive_app. unfold op. rewrite E. cbn [drive].
    rewrite send_complete_stop by lia. split; [done|].
    destruct Ht' as (_ & _ & _ & _ & _ & Hb). unfold send_get_result, reported.
    cbn [send_transfer t_base set_base m_bytes_transferred op_error set_value].
    rewrite Hb, wrap_small by lia. destruct (Z.ltb_spec (res c) 0); [|lia].
    unfold is_error, assign. cbn [e_value]. destruct (Z.eqb_spec (- res c) 0); [lia|].
    by destruct (error_code_type p).
Qed.

Lemma send_all_witness :
  let b := buffer_sequence_base [(100, 2); (200, 1)] in
  let m := <[100 := 7]> (<[101 := 8]> (<[200 := 9]> ∅)) in
  exists op', drive kernel ([mk_cqe 1 0 []] ++ mk_cqe 2 0 [] :: [])
      (mk_send (make_transfer (make_base true (Some no_error)) 5 b)) (mk_net m []) =
    Resumed op' (mk_net m ([] ++ gather (remaining b) m)) [] /\
  send_get_result (mk_policy false false) op' = reported (mk_policy false false) 3 no_error.
Proof.
  cbv zeta.
  destruct (send_all (mk_policy false false) true no_error 5 (buffer_sequence_base [(100, 2); (200, 1)])
    (mk_net (<[100 := 7]> (<[101 := 8]> (<[200 := 9]> ∅))) []) [mk_cqe 1 0 []] (mk_cqe 2 0 []) [])
    as (_ & H & _).
  - split; [|simpl; lia]. repeat (constructor; [split; [discriminate|reflexivity]|]). constructor.
  - repeat (constructor; [reflexivity|]). constructor.
  - reflexivity.
  - reflexivity.
  - repeat (constructor; [reflexivity|]). constructor.
  - destruct H as (op' & E & Hr); [reflexivity|reflexivity|]. exists op'. split; [exact E|exact Hr].
Defined.
