(* ===== verification/Stream.v ===== *)
(** * Programs over a connection

    What the example servers and clients of [src/example] are made of: [recv], [recv_some],
    [send], [shutdown] and [close] on one socket, each of which may throw. Two programs meet
    over a connection of two byte streams, each of which holds as many bytes as the kernel's
    buffers do. [recv] gives as many bytes as it is asked for, [recv_some] at least one and at
    most as many, both throw at the end of the stream and when nothing is asked for, as
    [recv_all] and [recv_some_once] show; [send] is complete, as [send_all] shows. [recv] and
    [send] are done in any portions, and a [send] for which there is no room waits until the
    other side has read. [close] waits for the end of the stream, as [close_effect] shows. *)

From stdpp Require Import relations.
From S2P Require Import Prelude.

(** ** Programs *)

(** The rest of a coroutine: the operation it awaits, with how it goes on, and how when the
    operation throws. *)
Inductive proc (A : Type) :=
| Recv (n : nat) (k : list Z -> proc A) (h : proc A)
| RecvSome (n : nat) (k : list Z -> proc A) (h : proc A)
| Send (data : list Z) (k h : proc A)
| Shutdown (k h : proc A)
| Close (k h : proc A)
| Done (a : A).
Arguments Recv {A} n k h.
Arguments RecvSome {A} n k h.
Arguments Send {A} data k h.
Arguments Shutdown {A} k h.
Arguments Close {A} k h.
Arguments Done {A} a.

(** Ends with the result [a] behind [try { shutdown(); co_await close(); } catch(...) {}]. *)
Definition closing {A} (a : A) : proc A := Shutdown (Close (Done a) (Done a)) (Done a).

(** ** Streams *)

(** How many bytes can be on their way in a stream; all that has been written to it, how much
    of it has been read, and whether its writer has ended it. *)
Record stream := mk_stream { capacity : nat; written : list Z; consumed : nat; ended : bool }.

Definition stream_init (c : nat) : stream := mk_stream c [] 0 false.
Definition in_flight (s : stream) : list Z := drop (consumed s) (written s).

Definition write (d : list Z) (s : stream) : stream := mk_stream (capacity s) (written s ++ d) (consumed s) (ended s).
Definition consume (n : nat) (s : stream) : stream := mk_stream (capacity s) (written s) (consumed s + n) (ended s).
Definition finish (s : stream) : stream := mk_stream (capacity s) (written s) (consumed s) true.

(** There is room for [n] bytes; there is room for none. *)
Definition room (n : nat) (s : stream) : Prop := (length (in_flight s) + n <= capacity s)%nat.
Definition full (s : stream) : Prop := (capacity s <= length (in_flight s))%nat.

Definition stream_ok (s : stream) : Prop := (consumed s <= length (written s))%nat /\ room 0 s.

(** [recv] or [recv_some] of [n] bytes throws without a failure. *)
Definition eof (n : nat) (s : stream) : Prop := n = 0%nat \/ ended s = true.

(** ** Steps *)

(** A program with the stream it reads and the one it writes. *)
Definition side (A : Type) : Type := proc A * stream * stream.

(** An operation that succeeds, or throws at the end of a stream. *)
Inductive proc_step {A} : side A -> side A -> Prop :=
| do_recv n k h i o : (0 < n <= length (in_flight i))%nat ->
    proc_step (Recv n k h, i, o) (k (take n (in_flight i)), consume n i, o)
| do_recv_portion n m k h i o : (0 < m < n)%nat -> (m <= length (in_flight i))%nat ->
    proc_step (Recv n k h, i, o) (Recv (n - m) (fun d => k (take m (in_flight i) ++ d)) h, consume m i, o)
| do_recv_eof n k h i o : (n = 0 \/ ended i = true /\ length (in_flight i) < n)%nat ->
    proc_step (Recv n k h, i, o) (h, consume (min n (length (in_flight i))) i, o)
| do_recv_some n m k h i o : (0 < m <= n)%nat -> (m <= length (in_flight i))%nat ->
    proc_step (RecvSome n k h, i, o) (k (take m (in_flight i)), consume m i, o)
| do_recv_some_eof n k h i o : (n = 0%nat \/ ended i = true /\ in_flight i = []) ->
    proc_step (RecvSome n k h, i, o) (h, i, o)
| do_send d k h i o : ended o = false -> room (length d) o -> proc_step (Send d k h, i, o) (k, i, write d o)
| do_send_portion d m k h i o : ended o = false -> (0 < m < length d)%nat -> room m o ->
    proc_step (Send d k h, i, o) (Send (drop m d) k h, i, write (take m d) o)
| do_send_ended d k h i o : ended o = true -> proc_step (Send d k h, i, o) (h, i, o)
| do_shutdown k h i o : proc_step (Shutdown k h, i, o) (k, i, finish o)
| do_close k h i o : ended i = true -> proc_step (Close k h, i, o) (k, consume (length (in_flight i)) i, o).

(** An operation that fails: it throws, after any portions. *)
Inductive proc_fail {A} : side A -> side A -> Prop :=
| fail_recv n k h i o : proc_fail (Recv n k h, i, o) (h, i, o)
| fail_recv_some n k h i o : proc_fail (RecvSome n k h, i, o) (h, i, o)
| fail_send d k h i o : proc_fail (Send d k h, i, o) (h, i, o)
| fail_shutdown k h i o : proc_fail (Shutdown k h, i, o) (h, i, o)
| fail_close k h i o : proc_fail (Close k h, i, o) (h, i, o).

Definition operates {A} (x y : side A) : Prop := proc_step x y \/ proc_fail x y.

(** A client and a server with the streams between them. *)
Record system (A B : Type) := mk_system { client : proc A; server : proc B; to_server : stream; to_client : stream }.
Arguments mk_system {A B}.
Arguments client {A B}.
Arguments server {A B}.
Arguments to_server {A B}.
Arguments to_client {A B}.

(** [cs] and [cc]: the capacities of the streams to the server and to the client. *)
Definition connect {A B} (cs cc : nat) (p : proc A) (q : proc B) : system A B :=
  mk_system p q (stream_init cs) (stream_init cc).

(** A step is an operation of one of them; [RA] and [RB] say which operations they do. *)
Inductive system_step {A B} (RA : side A -> side A -> Prop) (RB : side B -> side B -> Prop)
  : system A B -> system A B -> Prop :=
| step_client p p' q i o i' o' : RA (p, i, o) (p', i', o') ->
    system_step RA RB (mk_system p q o i) (mk_system p' q o' i')
| step_server p q q' i o i' o' : RB (q, i, o) (q', i', o') ->
    system_step RA RB (mk_system p q i o) (mk_system p q' i' o').

(** Nothing fails; anything may fail. *)
Definition step {A B} : system A B -> system A B -> Prop := system_step proc_step proc_step.
Definition faulty_step {A B} : system A B -> system A B -> Prop := system_step operates operates.

(** ** Streams only grow *)

(** What an operation does to the stream it reads and to the one it writes. *)
Definition reads (i i' : stream) : Prop :=
  written i' = written i /\ ended i' = ended i /\ (consumed i <= consumed i')%nat /\ capacity i' = capacity i.
Definition writes (o o' : stream) : Prop :=
  written o `prefix_of` written o' /\ consumed o' = consumed o /\
  (ended o = true -> ended o' = true /\ written o' = written o) /\ capacity o' = capacity o.

Lemma length_in_flight s : length (in_flight s) = (length (written s) - consumed s)%nat.
Proof. unfold in_flight. by rewrite length_drop. Qed.

Lemma in_flight_consume n s : in_flight (consume n s) = drop n (in_flight s).
Proof. unfold in_flight, consume. cbn. by rewrite drop_drop. Qed.

Lemma in_flight_write d s : stream_ok s -> in_flight (write d s) = in_flight s ++ d.
Proof. intros [Hs _]. unfold in_flight, write. cbn. by rewrite drop_app_le. Qed.

(** What has been read of a stream. *)
Definition read (s : stream) : list Z := take (consumed s) (written s).

Lemma read_consume n s : read (consume n s) = read s ++ take n (in_flight s).
Proof. unfold read, in_flight. cbn. by rewrite take_take_drop. Qed.

Lemma read_in_flight s : read s ++ in_flight s = written s.
Proof. apply take_drop. Qed.

Lemma read_prefix s : read s `prefix_of` written s.
Proof. exists (in_flight s). by rewrite read_in_flight. Qed.

(** The reader does not see what is written, and the writer not what is read. *)
Lemma writes_read o o' : writes o o' -> stream_ok o -> read o' = read o.
Proof. intros ([x E] & Hc & _) [Ho _]. unfold read. rewrite E, Hc. by apply take_app_le. Qed.

Lemma reads_consume n i : (n <= length (in_flight i))%nat -> stream_ok i ->
  reads i (consume n i) /\ stream_ok (consume n i).
Proof.
  unfold stream_ok, reads, room. rewrite !length_in_flight. cbn. intros Hn [H1 H2]. split; [|lia].
  repeat split; lia.
Qed.

Lemma reads_refl i : reads i i.
Proof. by split_and!. Qed.

Lemma writes_refl o : writes o o.
Proof. by split_and!. Qed.

Lemma writes_write d o : ended o = false -> room (length d) o -> stream_ok o ->
  writes o (write d o) /\ stream_ok (write d o).
Proof.
  unfold stream_ok, room. rewrite !length_in_flight. intros He Hd [H1 H2]. split.
  - split; [by eexists|]. split; [done|]. split; [congruence|done].
  - cbn. rewrite length_app. lia.
Qed.

Lemma writes_finish o : stream_ok o -> writes o (finish o) /\ stream_ok (finish o).
Proof. intros Ho. by split. Qed.

Lemma operates_streams {A} (p p' : proc A) i o i' o' : operates (p, i, o) (p', i', o') ->
  stream_ok i -> stream_ok o -> reads i i' /\ writes o o' /\ stream_ok i' /\ stream_ok o'.
Proof.
  intros [Hs|Hs] Hi Ho; inversion Hs; subst;
    repeat match goal with
    | |- context [consume ?n ?i] =>
        lazymatch goal with H : reads i (consume n i) |- _ => fail | _ => idtac end;
        destruct (reads_consume n i) as [? ?]; [lia|done|]
    | |- context [write ?d ?o] =>
        lazymatch goal with H : writes o (write d o) |- _ => fail | _ => idtac end;
        destruct (writes_write d o) as [? ?]; [done|rewrite ?length_take_le by lia; done|done|]
    end; (split; [|split; [|split]]);
    first [done | by apply reads_refl | by apply writes_refl | by apply writes_finish].
Qed.

Definition streams_ok {A B} (s : system A B) : Prop := stream_ok (to_server s) /\ stream_ok (to_client s).

Lemma connect_ok {A B} cs cc (p : proc A) (q : proc B) : streams_ok (connect cs cc p q).
Proof. split; unfold stream_ok, room; simpl; lia. Qed.

Lemma system_step_mono {A B} (RA RA' : side A -> side A -> Prop) (RB RB' : side B -> side B -> Prop) s s' :
  (forall x y, RA x y -> RA' x y) -> (forall x y, RB x y -> RB' x y) ->
  system_step RA RB s s' -> system_step RA' RB' s s'.
Proof. intros HA HB. destruct 1; constructor; auto. Qed.

Lemma step_faulty {A B} (s s' : system A B) : step s s' -> faulty_step s s'.
Proof. apply system_step_mono; by left. Qed.

Lemma faulty_streams {A B} (s s' : system A B) : faulty_step s s' -> streams_ok s -> streams_ok s'.
Proof.
  destruct 1 as [p p' q i o i' o' Hp|p q q' i o i' o' Hq]; intros [H1 H2]; cbn in *.
  - apply operates_streams in Hp as (_ & _ & ? & ?); [by split|done..].
  - apply operates_streams in Hq as (_ & _ & ? & ?); [by split|done..].
Qed.

(** ** Invariants of a server, whatever its client *)

(** [I q i o]: an invariant of a server [q] that reads [i] and writes [o] by operations in
    [R]. It holds whatever the client does when the operations of the server preserve it,
    and so do more input, the end of it, and the reading of its output. *)
Class ServerInvariant {B} (R : side B -> side B -> Prop) (I : proc B -> stream -> stream -> Prop) := {
  inv_operates q i o q' i' o' : I q i o -> stream_ok i -> stream_ok o ->
    R (q, i, o) (q', i', o') -> I q' i' o';
  inv_client q i o i' o' : I q i o -> stream_ok i -> stream_ok o -> writes i i' -> reads o o' -> I q i' o';
}.

Lemma server_invariant {A B} R I `{ServerInvariant B R I} (s s' : system A B) :
  (forall x y, R x y -> operates x y) -> rtc (system_step operates R) s s' ->
  streams_ok s -> I (server s) (to_server s) (to_client s) ->
  streams_ok s' /\ I (server s') (to_server s') (to_client s').
Proof.
  intros HR. induction 1 as [|s s1 s' Hs _ IH]; intros Hok HI; [done|].
  assert (streams_ok s1) as Hok1 by (apply (faulty_streams s); [revert Hs; by apply system_step_mono|done]).
  apply IH; [done|]. destruct Hok as [H1 H2].
  destruct Hs as [p p' q i o i' o' Hp|p q q' i o i' o' Hq]; cbn in *.
  - apply operates_streams in Hp as (? & ? & _ & _); [|done..]. by eapply inv_client.
  - by eapply inv_operates.
Qed.
