(* ===== verification/Simple.v ===== *)
(** * The simple servers

    Models, of [src/example/simple], [echo.cpp], [discard.cpp], [daytime.cpp], [chargen.cpp]
    and the two programs of [time.cpp]. The servers are programs over a connection (Stream.v);
    what the time programs do to memory is that of their buffers (Buffer.v, Transfer.v). *)

From stdpp Require Import gmap relations.
From S2P Require Import Prelude Buffer Errors AsyncOp StreamBuffer Transfer Stream.

(** ** Echo and discard *)

(** How a server has ended; [OutOfFuel] stands for the rest of its loop. *)
Inductive ending := Ended | OutOfFuel.

Section echo.
(** The size of the buffer. *)
Context (size : nat).

(** [for(;;)] of [echo]. *)
Fixpoint echo_loop (fuel : nat) : proc ending :=
  match fuel with
  | O => Done OutOfFuel
  | S fuel => RecvSome size (fun d => Send d (echo_loop fuel) (closing Ended)) (closing Ended)
  end.

(** *** Its invariant *)

(** The rest of [closing]. *)
Definition at_closing (q : proc ending) : Prop :=
  q = closing Ended \/ q = Close (Done Ended) (Done Ended) \/ q = Done Ended.

(** Where the server is: it waits, having echoed what it has read; it sends the last of it;
    it ends. [clean]: it has only ended because its input had. *)
Inductive echo_state (total : nat) (clean : bool) : proc ending -> stream -> stream -> Prop :=
| echo_waits fuel i o : written o = read i -> ended o = false -> (total <= fuel + consumed i)%nat ->
    echo_state total clean (echo_loop fuel) i o
| echo_sends fuel d i o : written o ++ d = read i -> ended o = false -> (total <= fuel + consumed i)%nat ->
    (0 < length d <= size)%nat ->
    echo_state total clean (Send d (echo_loop fuel) (closing Ended)) i o
| echo_ends q i o : at_closing q ->
    written o `prefix_of` read i ->
    (clean = true -> ended i = true /\ written o = written i) -> echo_state total clean q i o.

Lemma echo_state_client total clean q i o i' o' : echo_state total clean q i o -> stream_ok i ->
  writes i i' -> reads o o' -> echo_state total clean q i' o'.
Proof.
  intros Hq Hi Hw (Ew & Ee & _). pose proof (writes_read _ _ Hw Hi) as Er. destruct Hw as (_ & Ec & Hend & _).
  destruct Hq as [fuel i o E He Hf|fuel d i o E He Hf Hd|q i o Hq Hp Hc];
    [apply echo_waits|apply echo_sends|apply echo_ends]; rewrite ?Er, ?Ew, ?Ec, ?Ee in *; try done.
  intros Hcl. destruct (Hc Hcl) as [H1 H2]. destruct (Hend H1) as [H3 H4]. by rewrite H4.
Qed.

(** The end of the input, when all of it has been echoed. *)
Lemma echoed_all i o : written o = read i -> in_flight i = [] -> written o = written i.
Proof. intros -> E. rewrite <- (read_in_flight i), E. by rewrite app_nil_r. Qed.

Lemma read_prefix_consume n (l : list Z) i : l `prefix_of` read i -> l `prefix_of` read (consume n i).
Proof. intros Hl. rewrite read_consume. by apply prefix_app_r. Qed.

(** A portion of what is sent. *)
Lemma echo_state_portion total clean fuel d m i o : written o ++ d = read i -> ended o = false ->
  (total <= fuel + consumed i)%nat -> (0 < length d <= size)%nat -> (0 < m < length d)%nat ->
  echo_state total clean (Send (drop m d) (echo_loop fuel) (closing Ended)) i (write (take m d) o).
Proof.
  intros E He Hf Hd Hm. apply echo_sends; [|done|done|rewrite length_drop; lia].
  rewrite <- E. cbn. by rewrite <- app_assoc, take_drop.
Qed.

Lemma echo_state_step total q i o q' i' o' : (0 < size)%nat -> echo_state total true q i o ->
  proc_step (q, i, o) (q', i', o') -> echo_state total true q' i' o'.
Proof.
  intros Hsize Hq Hs. destruct Hq as [fuel i o E He Hf|fuel d i o E He Hf Hd|q i o Hq Hp Hc].
  - destruct fuel as [|fuel]; inversion Hs as [| | |n m k h ? ? Hn Hm|n k h ? ? Hn| | | | |]; subst.
    + apply echo_sends; [by rewrite read_consume, E|done|cbn; lia|rewrite length_take; lia].
    + destruct Hn as [Hn|[Hn Hn']]; [lia|]. apply echo_ends; [by left|by rewrite E|].
      intros _. split; [done|by apply echoed_all].
  - inversion Hs; subst; [apply echo_waits; done|by apply echo_state_portion|congruence].
  - destruct Hq as [->|[->| ->]]; inversion Hs; subst.
    + apply echo_ends; [by right; left|done|done].
    + apply echo_ends; [by right; right|by apply read_prefix_consume|done].
Qed.

Lemma echo_state_operates total q i o q' i' o' : echo_state total false q i o ->
  operates (q, i, o) (q', i', o') -> echo_state total false q' i' o'.
Proof.
  intros Hq Hs. assert (forall q i o, at_closing q ->
    written o `prefix_of` read i -> echo_state total false q i o) as Hend by (intros; by apply echo_ends).
  destruct Hq as [fuel i o E He Hf|fuel d i o E He Hf Hd|q i o Hq Hp Hc].
  - destruct fuel as [|fuel]; destruct Hs as [Hs|Hs]; inversion Hs; subst;
      try (apply Hend; [by left|by rewrite E]).
    apply echo_sends; [by rewrite read_consume, E|done|cbn; lia|rewrite length_take; lia].
  - destruct Hs as [Hs|Hs]; inversion Hs; subst.
    + by apply echo_waits.
    + by apply echo_state_portion.
    + congruence.
    + apply Hend; [by left|]. rewrite <- E. by eexists.
  - destruct Hq as [->|[->| ->]]; destruct Hs as [Hs|Hs]; inversion Hs; subst;
      (apply Hend; [unfold at_closing; tauto|by first [done|apply read_prefix_consume]]).
Qed.

#[export] Instance echo_invariant_faulty total : ServerInvariant operates (echo_state total false).
Proof.
  constructor.
  - intros. by eapply echo_state_operates.
  - intros. by eapply echo_state_client.
Qed.

Lemma echo_invariant_reliable total : (0 < size)%nat -> ServerInvariant proc_step (echo_state total true).
Proof.
  intros Hsize. constructor.
  - intros. by eapply echo_state_step.
  - intros. by eapply echo_state_client.
Qed.

Lemma echo_init total clean cs cc : echo_state total clean (echo_loop total) (stream_init cs) (stream_init cc).
Proof. apply echo_waits; [done|done|cbn; lia]. Qed.

(** A send for which there is room for a byte can go on. *)
Lemma send_progress {A} d (k h : proc A) i o : ~ full o -> (0 < length d)%nat -> exists y, proc_step (Send d k h, i, o) y.
Proof.
  intros Hfull Hd. destruct (ended o) eqn:He; [eexists; by apply do_send_ended|].
  unfold full in Hfull. destruct (decide (length d = 1)%nat) as [E|E]; eexists.
  - apply do_send; [done|]. unfold room. lia.
  - apply (do_send_portion d 1); [done|lia|]. unfold room. lia.
Qed.

(** The server can go on, unless it has ended or waits for what has not been written, or for
    what it has written to be read. *)
Lemma echo_progress total q i o : (0 < size)%nat -> echo_state total true q i o ->
  (exists y, proc_step (q, i, o) y) \/ q = Done Ended \/ (q = Done OutOfFuel /\ (total <= consumed i)%nat) \/
  (in_flight i = [] /\ ended i = false) \/
  (full o /\ exists fuel d, (0 < length d <= size)%nat /\ q = Send d (echo_loop fuel) (closing Ended)).
Proof.
  intros Hsize [fuel i' o' E He Hf|fuel d i' o' E He Hf Hd|q' i' o' Hq Hp Hc].
  - destruct fuel as [|fuel]; [right; right; left; split; [done|lia]|].
    destruct (in_flight i') as [|x l] eqn:Ei.
    + destruct (ended i') eqn:Een; [|by right; right; right; left]. left. eexists. apply do_recv_some_eof. auto.
    + left. eexists. cbn [echo_loop]. apply (do_recv_some size 1); [lia|rewrite Ei; simpl; lia].
  - destruct (decide (capacity o' <= length (in_flight o'))%nat) as [Hfull|Hfull].
    + do 4 right. split; [done|]. by exists fuel, d.
    + left. by apply send_progress; [|lia].
  - destruct (Hc eq_refl) as [Hend _]. destruct Hq as [->|[->| ->]]; [| |by right; left].
    + left. eexists. apply do_shutdown.
    + left. eexists. by apply do_close.
Qed.

(** What is known of every state of a connection with it. *)
Definition echoes (total : nat) {A} (s : system A ending) : Prop :=
  written (to_client s) `prefix_of` read (to_server s) /\
  (forall n k h, server s = RecvSome n k h -> n = size /\ written (to_client s) = read (to_server s)) /\
  (server s = Done OutOfFuel -> (total <= consumed (to_server s))%nat).

Lemma echo_state_echoes {A} total clean (s : system A ending) :
  echo_state total clean (server s) (to_server s) (to_client s) -> echoes total s.
Proof.
  destruct s as [p q i o]. unfold echoes. cbn.
  intros [fuel i' o' E He Hf|fuel d i' o' E He Hf _|q' i' o' Hq Hp Hc].
  - rewrite E. split; [done|]. destruct fuel as [|fuel]; cbn [echo_loop].
    + split; [done|]. intros _. lia.
    + split; [|done]. by intros n k h [= <- _ _].
  - split; [by exists d|done].
  - split; [done|]. destruct Hq as [->|[->| ->]]; done.
Qed.

Lemma echo_session_correct {A} total cs cc (p : proc A) s : (0 < size)%nat ->
  (rtc faulty_step (connect cs cc p (echo_loop total)) s -> echoes total s) /\
  (rtc (system_step operates proc_step) (connect cs cc p (echo_loop total)) s ->
     (server s = Done Ended -> ended (to_server s) = true /\ written (to_client s) = written (to_server s)) /\
     ((exists s', system_step operates proc_step s s' /\ client s' = client s) \/
      server s = Done Ended \/ (server s = Done OutOfFuel /\ (total <= consumed (to_server s))%nat) \/
      (in_flight (to_server s) = [] /\ ended (to_server s) = false) \/
      (full (to_client s) /\ exists d k h, d <> [] /\ server s = Send d k h))).
Proof.
  intros Hsize. split.
  - intros Hs. destruct (server_invariant operates (echo_state total false) _ s (fun _ _ H => H) Hs (connect_ok _ _ _ _)) as [_ Hi];
      [apply echo_init|]. by eapply echo_state_echoes.
  - intros Hs. pose proof (echo_invariant_reliable total Hsize).
    destruct (server_invariant proc_step (echo_state total true) _ s (fun _ _ H => or_introl H) Hs (connect_ok _ _ _ _)) as [_ Hi];
      [apply echo_init|]. split.
    + intros E. destruct s as [p' q i o]. cbn in *. subst q. inversion Hi as [fuel| |]; subst.
      * by destruct fuel.
      * by match goal with H : true = true -> _ |- _ => apply H end.
    + destruct s as [p' q i o]. cbn in *.
      destruct (echo_progress total q i o Hsize Hi) as [[[[q' i'] o'] Hy]|[H1|[H1|[H1|(H1 & f & d & Hd & ->)]]]]; auto.
      * left. eexists. split; [by apply step_server|done].
      * do 4 right. split; [done|]. eexists d, _, _. split; [|done]. intros ->. simpl in Hd. lia.
Qed.

End echo.

Definition ECHO_BUFFER_SIZE : nat := 4096.

(** [echo]; [fuel] bounds the turns of its loop. *)
Definition echo (fuel : nat) : proc ending := echo_loop ECHO_BUFFER_SIZE fuel.

(** C26: the echo server. Whatever its client does, whatever the buffers of the kernel hold,
    and whatever fails: what it has sent is a beginning of what it has received, and all of
    it whenever it waits for more; and its loop takes at most as many turns as it has
    received bytes. When its own operations do not fail, it ends only at the end of the
    client's stream, when everything the client has sent has been echoed; until then it can
    always go on, unless it has handled all that the client has sent, or its [send] has
    filled the buffers because the client does not receive. *)
Theorem echo_correct {A} fuel cs cc (p : proc A) s :
  (rtc faulty_step (connect cs cc p (echo fuel)) s -> echoes ECHO_BUFFER_SIZE fuel s) /\
  (rtc (system_step operates proc_step) (connect cs cc p (echo fuel)) s ->
     (server s = Done Ended -> ended (to_server s) = true /\ written (to_client s) = written (to_server s)) /\
     ((exists s', system_step operates proc_step s s' /\ client s' = client s) \/
      server s = Done Ended \/ (server s = Done OutOfFuel /\ (fuel <= consumed (to_server s))%nat) \/
      (in_flight (to_server s) = [] /\ ended (to_server s) = false) \/
      (full (to_client s) /\ exists d k h, d <> [] /\ server s = Send d k h))).
Proof. apply echo_session_correct. unfold ECHO_BUFFER_SIZE. lia. Qed.

Local Open Scope Z_scope.

(** A client that sends "hi" and ends its stream. *)
Lemma echo_correct_witness :
  let client := Send [104; 105] (Shutdown (Done tt) (Done tt)) (Done tt) in
  let s := mk_system (Done tt) (Done Ended) (mk_stream 2 [104; 105] 2 true) (mk_stream 2 [104; 105] 0 true) in
  rtc (system_step operates proc_step) (connect 2 2 client (echo 2)) s /\
  ended (to_server s) = true /\ written (to_client s) = written (to_server s).
Proof.
  cbv zeta. set (c := Send _ _ _). set (s := mk_system _ _ _ _).
  assert (H : rtc (system_step operates proc_step) (connect 2 2 c (echo 2)) s).
  { eapply rtc_l; [apply step_client; left; apply (do_send_portion _ 1); [reflexivity|simpl; lia|unfold room; simpl; lia]|].
    eapply rtc_l; [apply step_client; left; apply do_send; [reflexivity|unfold room; simpl; lia]|].
    eapply rtc_l; [apply step_client; left; apply do_shutdown|].
    eapply rtc_l; [apply step_server; apply (do_recv_some 4096 2); cbn; lia|].
    eapply rtc_l; [apply step_server; apply do_send; [reflexivity|unfold room; simpl; lia]|].
    eapply rtc_l; [apply step_server; apply do_recv_some_eof; right; split; reflexivity|].
    eapply rtc_l; [apply step_server; apply do_shutdown|].
    apply rtc_once. apply (step_server operates proc_step (Done tt) _ (Done Ended)).
    apply (do_close (Done Ended) (Done Ended) (mk_stream 2 [104; 105] 2 true)). reflexivity. }
  split; [exact H|]. destruct (echo_correct 2 2 2 c s) as [_ H1]. apply (H1 H). reflexivity.
Defined.

(** ** Discard *)

Definition NULL_BUFFER_SIZE : nat := 4096.

(** [discard]; when it ends the destructor of the socket closes it. *)
Fixpoint discard (fuel : nat) : proc ending :=
  match fuel with
  | O => Done OutOfFuel
  | S fuel => RecvSome NULL_BUFFER_SIZE (fun _ => discard fuel) (Shutdown (Done Ended) (Done Ended))
  end.

(** It never sends. *)
Definition silent (q : proc ending) (i o : stream) : Prop :=
  ((exists fuel, q = discard fuel) \/ q = Shutdown (Done Ended) (Done Ended) \/ q = Done Ended) /\ written o = [].

#[export] Instance silent_invariant : ServerInvariant operates silent.
Proof.
  constructor.
  - intros q i o q' i' o' [Hq Ho] _ _ Hs. destruct Hq as [[[|fuel] ->]|[->| ->]];
      destruct Hs as [Hs|Hs]; inversion Hs; subst; split; eauto.
  - intros q i o i' o' [Hq Ho] _ _ _ (Ew & _). split; [done|]. by rewrite Ew.
Qed.

Lemma discard_silent {A} fuel cs cc (p : proc A) s : rtc faulty_step (connect cs cc p (discard fuel)) s -> written (to_client s) = [].
Proof.
  intros Hs. destruct (server_invariant operates silent _ s (fun _ _ H => H) Hs (connect_ok _ _ _ _)) as [_ [_ H]]; [|exact H].
  split; [left; by exists fuel|done].
Qed.

(** ** Daytime *)

Section daytime.
Context {allocator : Allocator} {allocator_law : AllocatorLaw}.

(** What an [ostream] does to its stream buffer. *)
Definition put_text (text : list Z) (b : stream_buffer) : stream_buffer :=
  foldl (fun b c => snd (sputc c b)) b text.

(** [daytime]; [text] is what [put_time] makes of the time. *)
Definition daytime (text : list Z) : proc ending :=
  let buf := put_text text stream_buffer_init in
  Send (data buf) (closing Ended) (Done Ended).

Lemma put_text_data text : forall b, StreamBuffer.stream_ok b -> Forall is_byte text ->
  StreamBuffer.size b + Z.of_nat (length text) < 2 ^ 61 ->
  StreamBuffer.stream_ok (put_text text b) /\ data (put_text text b) = data b ++ text.
Proof.
  induction text as [|c text IH]; intros b Hb Ht Hm; [by rewrite app_nil_r|]. cbn [length] in Hm.
  apply Forall_cons_1 in Ht as [Hc Ht]. pose proof (sputc_spec c b Hb Hc ltac:(lia)) as Hs. cbn [put_text foldl].
  destruct (sputc c b) as [r b']. destruct Hs as (_ & Hok & Hd). destruct (IH b' Hok Ht) as [H1 H2].
  { rewrite <- data_length in * by done. rewrite Hd, length_app. simpl. lia. }
  split; [exact H1|]. change (data (put_text text b') = data b ++ c :: text). by rewrite H2, Hd, <- app_assoc.
Qed.

(** It sends the text, whatever its length, and no more. *)
Lemma daytime_sends text : Forall is_byte text -> Z.of_nat (length text) < 2 ^ 61 ->
  daytime text = Send text (closing Ended) (Done Ended).
Proof.
  intros Ht Hl. unfold daytime. destruct (put_text_data text stream_buffer_init) as [_ ->]; [apply stream_buffer_init_ok|done..].
Qed.

End daytime.

(** ** Chargen *)

(** [CHARGEN_BUFFER_SIZE] and the array that the constructor of [chargen_buffer_t] fills. *)
Definition CHARGEN_BUFFER_SIZE : Z := 127 - 33 + 1.
Definition chargen_buffer : list Z :=
  let buffer := seqZ 33 CHARGEN_BUFFER_SIZE in
  <[(Z.to_nat CHARGEN_BUFFER_SIZE - 1)%nat := 10]> buffer.

(** [discard], here with the buffer of [NULL_BUFFER_SIZE] 1024, and [writer]. *)
Fixpoint chargen_discard (fuel : nat) : proc ending :=
  match fuel with
  | O => Done OutOfFuel
  | S fuel => RecvSome 1024 (fun _ => chargen_discard fuel) (Done Ended)
  end.
Fixpoint chargen_writer (fuel : nat) : proc ending :=
  match fuel with
  | O => Done OutOfFuel
  | S fuel => Send chargen_buffer (chargen_writer fuel) (Done Ended)
  end.

(** [chargen]: [when_all] of the two on one socket, which is closed when both have ended. *)
Inductive chargen_state := Both (d w : proc ending) | Last (p : proc ending).

Definition chargen (fuel : nat) : chargen_state := Both (chargen_discard fuel) (chargen_writer fuel).

Inductive chargen_step : chargen_state * stream * stream -> chargen_state * stream * stream -> Prop :=
| discard_step d w i o d' i' o' : operates (d, i, o) (d', i', o') -> chargen_step (Both d w, i, o) (Both d' w, i', o')
| writer_step d w i o w' i' o' : operates (w, i, o) (w', i', o') -> chargen_step (Both d w, i, o) (Both d w', i', o')
| when_all_step i o : chargen_step (Both (Done Ended) (Done Ended), i, o) (Last (closing Ended), i, o)
| last_step p i o p' i' o' : operates (p, i, o) (p', i', o') -> chargen_step (Last p, i, o) (Last p', i', o')
| peer_step c i o i' o' : writes i i' -> reads o o' -> chargen_step (c, i, o) (c, i', o').

(** The rows sent so far, the last of which may be incomplete. *)
Definition rows (n : nat) : list Z := concat (replicate n chargen_buffer).
Arguments rows : simpl never.

Definition chargen_inv (x : chargen_state * stream * stream) : Prop :=
  let '(c, _, o) := x in
  match c with
  | Both d w =>
      ((exists fuel, d = chargen_discard fuel) \/ d = Done Ended) /\
      ((exists fuel n, w = chargen_writer fuel /\ written o = rows n) \/
       (exists d fuel n, w = Send d (chargen_writer fuel) (Done Ended) /\ written o ++ d = rows n) \/
       (w = Done Ended /\ exists n, written o `prefix_of` rows n))
  | Last p => at_closing p /\ exists n, written o `prefix_of` rows n
  end.

Lemma rows_S n : rows (S n) = rows n ++ chargen_buffer.
Proof. unfold rows. rewrite replicate_S_end, concat_app. cbn. done. Qed.

(** A step of a [send] of the writer. *)
Lemma chargen_send d fuel n w' i o i' o' : written o ++ d = rows n ->
  operates (Send d (chargen_writer fuel) (Done Ended), i, o) (w', i', o') -> chargen_inv (Both (Done Ended) w', i', o').
Proof.
  intros E Hs. split; [by right|]. destruct Hs as [Hs|Hs]; inversion Hs; subst.
  - left. by exists fuel, n.
  - right. left. eexists _, fuel, n. split; [done|]. cbn. by rewrite <- app_assoc, take_drop.
  - right. right. split; [done|]. exists n. rewrite <- E. by eexists.
  - right. right. split; [done|]. exists n. rewrite <- E. by eexists.
Qed.

Lemma chargen_step_inv x y : chargen_step x y -> chargen_inv x -> chargen_inv y.
Proof.
  destruct 1 as [d w i o d' i' o' Hs|d w i o w' i' o' Hs|i o|p i o p' i' o' Hs|c i o i' o' Hi (Ew & _)]; cbn; intros Hinv.
  - destruct Hinv as [Hd Hw]. assert (o' = o /\ ((exists fuel, d' = chargen_discard fuel) \/ d' = Done Ended)) as [-> ?]; [|done].
    destruct Hd as [[[|fuel] ->]| ->]; destruct Hs as [Hs|Hs]; inversion Hs; subst; eauto.
  - destruct Hinv as [Hd Hw]. split; [done|]. destruct Hw as [([|fuel] & n & -> & E)|[(d0 & fuel & n & -> & E)|[-> _]]].
    + by destruct Hs as [Hs|Hs]; inversion Hs.
    + eapply (chargen_send chargen_buffer fuel (S n)); [|exact Hs]. by rewrite rows_S, E.
    + by eapply (chargen_send d0 fuel n).
    + by destruct Hs as [Hs|Hs]; inversion Hs.
  - destruct Hinv as [_ [(fuel & n & Hw & E)|[(d0 & fuel & n & [=] & _)|[_ H]]]]; (split; [by left|]); [exists n; by rewrite E|done].
  - destruct Hinv as [Hp [n Hn]]. destruct Hp as [->|[->| ->]]; destruct Hs as [Hs|Hs]; inversion Hs; subst;
      (split; [unfold at_closing; tauto|by exists n]).
  - by rewrite Ew.
Qed.

(** Its client receives rows of the 94 printable characters from '!' to '~' and a newline. *)
Lemma chargen_rows fuel ci co c i o : rtc chargen_step (chargen fuel, stream_init ci, stream_init co) (c, i, o) ->
  chargen_buffer = seqZ 33 94 ++ [10] /\ exists n, written o `prefix_of` rows n.
Proof.
  intros Hs. split; [reflexivity|]. assert (chargen_inv (c, i, o)) as Hi.
  { assert (chargen_inv (chargen fuel, stream_init ci, stream_init co)) as H0.
    { split; [left; by exists fuel|]. left. by exists fuel, 0%nat. }
    revert H0. induction Hs; eauto using chargen_step_inv. }
  destruct c as [d w|p]; cbn in Hi; [|apply Hi].
  destruct Hi as [_ [(k & n & _ & E)|[(x & k & n & _ & E)|[_ H]]]]; [exists n; by rewrite E|exists n; rewrite <- E; by eexists|done].
Qed.

(** ** Time *)

(** [sizeof(time_t)] *)
Definition sizeof_time_t : Z := 8.

(** [span{&now, sizeof(now)}]: the second argument is the number of elements. *)
Definition time_span (now : Z) : span := mk_span now sizeof_time_t sizeof_time_t.

(** [time_server]: what it sends, with [now] at the given address, and the whole of it. *)
Definition time_buffers (now : Z) : buffer_sequence := const_buffer_sequence_spans [time_span now].
Definition time_server (m : gmap Z Z) (now : Z) : proc ending :=
  Send (gather (remaining (time_buffers now)) m) (closing Ended) (Done Ended).

(** [time_client], connected: what it receives goes to [t]; it prints the time or the error. *)
Definition time_client_buffers (t : Z) : buffer_sequence := buffer_sequence_spans [time_span t].
Definition time_client (t : Z) : proc (option (list Z)) :=
  Recv (length (remaining (time_client_buffers t)))
    (fun d => closing (Some (take (Z.to_nat sizeof_time_t) d))) (closing None).

Lemma time_remaining a : remaining (time_buffers a) = seqZ a 64.
Proof. unfold time_buffers, const_buffer_sequence_spans. change (remaining (buffer_sequence_spans [time_span a]) = seqZ a 64).
  rewrite buffer_sequence_spans_remaining. cbn [map concat]. by rewrite app_nil_r.
Qed.

Lemma time_span_ok a : sequence_ok (time_buffers a) /\ nonempty_buffers (time_buffers a).
Proof.
  unfold sequence_ok, nonempty_buffers, time_buffers, const_buffer_sequence_spans, buffer_sequence_base.
  cbn [m_val m_iterator map]. split; [split; [|lia]|]; (apply Forall_cons_2; [|done]); by split.
Qed.

(** The time and what is behind it. *)
Lemma time_split a : seqZ a 64 = seqZ a 8 ++ seqZ (a + 8) 56.
Proof. by rewrite <- seqZ_app by lia. Qed.

(** C39: the time server and its client. [span{&now, sizeof(now)}] is a span of eight times,
    64 bytes, of which [now] is the first 8. Whatever the portions of the transfer, the
    server sends the time and the 56 bytes of memory behind it; the client receives the time
    into [t], and then has the memory behind [t] overwritten by the 56 bytes of the server.
    The coroutines end with success and the number 64. *)
Theorem time_overrun p q fd fd' ms mc now t cs c cs' c' :
  Forall (fun c => 0 < res c) cs -> 0 < res c -> (sent_by cs + Z.to_nat (res c))%nat = 64%nat ->
  Forall data_cqe cs' -> data_cqe c' ->
  received cs' ++ payload c' = gather (remaining (time_buffers now)) ms ->
  exists sop rop mc',
    drive kernel (cs ++ [c]) (async_sendmsg true None fd (time_buffers now)) (mk_net ms []) =
      Resumed sop (mk_net ms (gather (remaining (time_buffers now)) ms)) [] /\
    send_get_result p sop = (Returned 64, no_error) /\
    gather (remaining (time_buffers now)) ms = gather (seqZ now 8) ms ++ gather (seqZ (now + 8) 56) ms /\
    drive kernel (cs' ++ [c']) (async_recvmsg false true None fd' (time_client_buffers t)) (mk_net mc []) =
      Resumed rop (mk_net mc' []) [] /\
    recv_get_result q rop = (Returned 64, no_error) /\
    gather (seqZ t 8) mc' = gather (seqZ now 8) ms /\
    gather (seqZ (t + 8) 56) mc' = gather (seqZ (now + 8) 56) ms.
Proof.
  intros Hcs Hc Hsum Hcs' Hc' Hrecv. destruct (time_span_ok now) as [Hok Hne]. destruct (time_span_ok t) as [Hok' Hne'].
  change (time_client_buffers t) with (time_buffers t).
  assert (length (remaining (time_buffers now)) = 64%nat /\ length (remaining (time_buffers t)) = 64%nat) as [Hl Hl'].
  { split; rewrite time_remaining; apply length_seqZ. }
  destruct (send_done p true fd (time_buffers now) no_error (mk_net ms []) cs c [] Hok Hne) as (sop & Es & Rs);
    [by rewrite Hl|done|done|done|by rewrite Hl|].
  assert (Hdata : length (received cs' ++ payload c') = length (remaining (time_buffers t))).
  { rewrite Hrecv, Hl'. unfold gather. by rewrite length_map. }
  destruct (recv_filled q true fd' (time_buffers t) no_error (mk_net mc []) cs' c' [] Hok' Hne') as (rop & Er & Rr);
    [by rewrite Hl'|done|done|done|done|].
  eexists sop, rop, _. split; [exact Es|]. split; [rewrite Rs, Hl; unfold reported; by destruct (error_code_type p)|].
  split; [by rewrite time_remaining, time_split, gather_app|]. split; [exact Er|].
  split; [rewrite Rr, Hl'; unfold reported; by destruct (error_code_type q)|]. cbn [mem sent].
  assert (gather (seqZ t 64) (scatter (seqZ t 64) (received cs' ++ payload c') mc) = gather (seqZ now 64) ms) as E.
  { rewrite time_remaining in *. rewrite gather_scatter; [done|apply NoDup_seqZ|].
    by rewrite Hdata. }
  rewrite !time_remaining in *. set (mc' := scatter _ _ _) in *.
  rewrite (time_split t), (time_split now), !gather_app in E.
  apply app_inj_1 in E; [done|]. unfold gather. by rewrite !length_map, !length_seqZ.
Qed.

(** One portion each: the time is 7 0 0 0 0 0 0 0, behind it are fifty-six bytes 9. *)
Lemma time_overrun_witness :
  let ms := scatter (seqZ 1000 64) ([7; 0; 0; 0; 0; 0; 0; 0] ++ replicate 56 9) ∅ in
  let data := gather (remaining (time_buffers 1000)) ms in
  exists rop mc', drive kernel [mk_cqe 64 0 data] (async_recvmsg false true None 5 (time_client_buffers 2000)) (mk_net ∅ []) =
      Resumed rop (mk_net mc' []) [] /\
    gather (seqZ 2000 8) mc' = [7; 0; 0; 0; 0; 0; 0; 0] /\ gather (seqZ 2008 56) mc' = replicate 56 9.
Proof.
  cbv zeta. set (ms := scatter _ _ _). set (data := gather _ _).
  destruct (time_overrun (mk_policy false false) (mk_policy false false) 4 5 ms ∅ 1000 2000 [] (mk_cqe 64 0 []) []
    (mk_cqe 64 0 data)) as (sop & rop & mc' & _ & _ & _ & H1 & _ & H2 & H3).
  - constructor.
  - reflexivity.
  - reflexivity.
  - constructor.
  - split; [reflexivity|]. vm_compute. reflexivity.
  - reflexivity.
  - exists rop, mc'. split; [exact H1|]. split; [transitivity (gather (seqZ 1000 8) ms); [exact H2|vm_compute; reflexivity]|].
    transitivity (gather (seqZ (1000 + 8) 56) ms); [exact H3|vm_compute; reflexivity].
Defined.
