(* ===== verification/Lifecycle.v ===== *)
(** * Connecting, accepting, closing

    Models [socket/impl/connect.h], [socket/impl/accept.h] and [socket/impl/close.h] of
    [src/include/xynet]: the operations on the life of a connection, on the sockets of a
    [program] (Descriptor.v). An operation refers to its sockets, so that it sees what they
    are when it submits and changes them when it ends. *)

From S2P Require Import Prelude Errors Address Descriptor AsyncOp.
Local Open Scope Z_scope.

(** A submission queue entry of these operations. *)
Inductive sqe :=
| PREP_CONNECT (fd : Z) (addr : sockaddr_in) (addrlen : Z)
| PREP_ACCEPT (fd : Z) (addrlen accept_flags : Z)
| PREP_RECV (fd : Z) (len call_flags : Z).

(** [sizeof(sockaddr_in)], [SOCK_CLOEXEC] and [null_buffer::size()] *)
Definition sizeof_sockaddr_in : Z := 16.
Definition SOCK_CLOEXEC : Z := 524288.
Definition null_buffer_size : Z := 1024.

(** What is thrown when errors are not reported by code. *)
Definition report (p : policy) (e : error_code) : thrown unit :=
  if is_error e && negb (error_code_type p) then Thrown e else Returned tt.

Section lifecycle.
Context {W : Type} `{OsLaws W}.

(** The socket with the given index, and changing it. *)
Definition sock (i : nat) (p : program W) : socket := default socket_default (objs p !! i).
Definition put_sock (i : nat) (s : socket) (p : program W) : program W :=
  mk_program (<[i := s]> (objs p)) (env p) (obtained p).

Lemma sock_lookup i p s : objs p !! i = Some s -> sock i p = s.
Proof. unfold sock. by intros ->. Qed.

(** ** [async_connect] *)

Record connect_op := mk_connect { connect_base : op_base; connect_socket : nat; m_addr : sockaddr_in }.

(** The callback is [on_operation_completed]. *)
#[export] Instance connect_operation : Operation connect_op sqe (program W) := {|
  get_base := connect_base;
  put_base b op := mk_connect b (connect_socket op) (m_addr op);
  initial_check _ _ := true;
  try_start op p := PREP_CONNECT (m_fd (sock (connect_socket op) p)) (m_addr op) sizeof_sockaddr_in;
  on_completed op p := (op, p, ResumeAwaiting);
|}.

(** [get_result] *)
Definition connect_get_result (pol : policy) (op : connect_op) (p : program W)
  : thrown unit * program W :=
  let error := op_error (connect_base op) in
  let s := sock (connect_socket op) p in
  if negb (is_error error) then
    (Returned tt, put_sock (connect_socket op)
                    (mk_socket (m_fd s) (set_peer_address (m_addr op) (addresses s))) p)
  else if negb (error_code_type pol) then (Thrown error, p)
  else (Returned tt, p).

(** ** [async_accept] *)

(** The outside of an [async_accept] is the program and [m_peer_addr], which the kernel
    writes to. *)
Record accept_op := mk_accept { accept_base : op_base; m_listen_socket : nat; m_peer_socket : nat }.

#[export] Instance accept_operation : Operation accept_op sqe (program W * sockaddr_in) := {|
  get_base := accept_base;
  put_base b op := mk_accept b (m_listen_socket op) (m_peer_socket op);
  initial_check _ _ := true;
  try_start op w :=
    PREP_ACCEPT (m_fd (sock (m_listen_socket op) (fst w))) sizeof_sockaddr_in SOCK_CLOEXEC;
  on_completed op w := (op, w, ResumeAwaiting);
|}.

Definition accept_get_result (pol : policy) (op : accept_op) (w : program W * sockaddr_in)
  : thrown unit * program W :=
  let '(p, m_peer_addr) := w in
  let error := op_error (accept_base op) in
  let s := sock (m_peer_socket op) p in
  if negb (is_error error) then
    let s := set_fd (op_res (accept_base op)) s in
    (Returned tt, put_sock (m_peer_socket op)
                    (mk_socket (m_fd s) (set_peer_address m_peer_addr (addresses s))) p)
  else if negb (error_code_type pol) then (Thrown error, p)
  else (Returned tt, p).

(** ** [async_close] *)

Record close_op := mk_close { close_base : op_base; close_socket : nat }.

Definition put_close_base (b : op_base) (op : close_op) : close_op := mk_close b (close_socket op).

(** [update_result] *)
Definition close_update_result (op : close_op) (p : program W) : close_op * program W * decision :=
  let b := close_base op in
  if is_error (op_error b) then (op, p, ResumeAwaiting)
  else if op_res b =? 0 then
    let '(ret, _, w) := sys_close (m_fd (sock (close_socket op) p)) (env p) in
    (put_close_base (set_value ret (op_flags b) b) op, mk_program (objs p) w (obtained p), ResumeAwaiting)
  else (op, p, SubmitAgain).

#[export] Instance close_operation : Operation close_op sqe (program W) := {|
  get_base := close_base;
  put_base := put_close_base;
  initial_check op p := valid (sock (close_socket op) p);
  try_start op p := PREP_RECV (m_fd (sock (close_socket op) p)) null_buffer_size 0;
  on_completed := close_update_result;
|}.

Definition close_get_result (pol : policy) (op : close_op) : thrown unit :=
  if error_code_type pol then Returned tt
  else if is_error (op_error (close_base op)) then Thrown (op_error (close_base op))
  else Returned tt.

(** The overloads of [connect], [accept] and [close]: the policy follows from the extra
    arguments. *)
Definition connect (service duration : bool) (error : option error_code) (i : nat) (a : sockaddr_in)
  : policy * connect_op :=
  (mk_policy duration (bool_decide (is_Some error)), mk_connect (make_base service error) i a).
Definition accept (service duration : bool) (error : option error_code) (li pi : nat)
  : policy * accept_op :=
  (mk_policy duration (bool_decide (is_Some error)), mk_accept (make_base service error) li pi).
Definition close (service duration : bool) (error : option error_code) (i : nat) : policy * close_op :=
  (mk_policy duration (bool_decide (is_Some error)), mk_close (make_base service error) i).

(** ** The kernel *)

(** The effect of an accepted descriptor on the operating system, and the address the
    kernel stores: behaviour of the kernel, of which only that it closes nothing matters. *)
Context (accepted : Z -> W -> W) (peer_of : cqe -> sockaddr_in).
Context (accepted_law : forall fd w, closes (accepted fd w) = closes w).

(** [connect] and [recv] change neither the sockets nor the descriptors. *)
Definition kernel (e : sqe) (c : cqe) (p : program W) : program W := p.

Definition accept_kernel (e : sqe) (c : cqe) (w : program W * sockaddr_in) : program W * sockaddr_in :=
  if 0 <=? res c then
    (mk_program (objs (fst w)) (accepted (res c) (env (fst w))) (res c :: obtained (fst w)), peer_of c)
  else w.

(** ** Their effect *)

Lemma set_value_error r fl service e : op_error (set_value r fl (make_base service (Some e))) =
  if r <? 0 then assign (- r) else e.
Proof. done. Qed.

Lemma assign_neg_error r : r < 0 -> is_error (assign (- r)) = true.
Proof. intros Hr. unfold is_error, assign. cbn [e_value]. by destruct (Z.eqb_spec (- r) 0); [lia|]. Qed.

(** [connect]: on every branch. The socket is connected, but when the error code held an
    error before, this is reported and the address is not recorded. *)
Lemma connect_effect pol service e i a p s c rest : objs p !! i = Some s ->
  let op := mk_connect (make_base service (Some e)) i a in
  try_start op p = PREP_CONNECT (m_fd s) a 16 /\
  exists op', drive kernel (c :: rest) op p = Resumed op' p rest /\
    connect_get_result pol op' p =
      if res c <? 0 then (report pol (assign (- res c)), p)
      else if is_error e then (report pol e, p)
      else (Returned tt, put_sock i (mk_socket (m_fd s) (set_peer_address a (addresses s))) p).
Proof.
  intros Hs op. split; [cbn; by rewrite (sock_lookup _ _ _ Hs)|].
  eexists. split; [reflexivity|]. unfold connect_get_result, report.
  cbn [connect_base connect_socket m_addr put_base get_base connect_operation op].
  rewrite set_value_error, (sock_lookup _ _ _ Hs).
  destruct (Z.ltb_spec (res c) 0) as [Hr|Hr].
  - rewrite assign_neg_error by done. cbn [negb andb]. by destruct (error_code_type pol).
  - destruct (is_error e); cbn [negb andb]; [|done]. by destruct (error_code_type pol).
Qed.

(** [accept]: on every branch. *)
Lemma accept_effect pol service e li pi p s a0 sub c : objs p !! pi = Some s ->
  let op := mk_accept (set_value (res c) (flags c) (make_base service (Some e))) li pi in
  accept_get_result pol op (accept_kernel sub c (p, a0)) =
    if res c <? 0 then (report pol (assign (- res c)), p)
    else
      let p1 := mk_program (objs p) (accepted (res c) (env p)) (res c :: obtained p) in
      if is_error e then (report pol e, p1)
      else (Returned tt, put_sock pi (mk_socket (res c) (set_peer_address (peer_of c) (addresses s))) p1).
Proof.
  intros Hs op. unfold accept_get_result, accept_kernel, report. cbn [fst snd].
  cbn [accept_base m_peer_socket op]. destruct (Z.leb_spec 0 (res c)); rewrite set_value_error.
  - destruct (Z.ltb_spec (res c) 0); [lia|]. cbv zeta. rewrite (sock_lookup _ _ s) by done.
    destruct (is_error e); cbn [negb andb]; [|done]. by destruct (error_code_type pol).
  - destruct (Z.ltb_spec (res c) 0); [|lia]. rewrite assign_neg_error by done.
    cbn [negb andb]. by destruct (error_code_type pol).
Qed.

(** Putting a socket in place of another: the descriptors owned. *)
Lemma owned_put i p s s' : objs p !! i = Some s ->
  owned (objs (put_sock i s' p)) ++ fd_of s ≡ₚ owned (objs p) ++ fd_of s'.
Proof.
  intros Hs. cbn [objs put_sock]. rewrite (owned_insert _ _ _ _ Hs), (owned_lookup _ _ _ Hs).
  solve_Permutation.
Qed.

Lemma accepted_law_closed fd w : closed (accepted fd w) = closed w.
Proof. unfold closed. by rewrite accepted_law. Qed.

Lemma balanced_length p : balanced p ->
  length (obtained p) = (length (closed (env p)) + length (owned (objs p)))%nat.
Proof. intros ->. by rewrite length_app. Qed.

(** C34: [accept]. The listening socket is the one submitted, with [SOCK_CLOEXEC]. A failed
    call changes nothing and is reported by code or thrown. When a descriptor [r] is
    accepted, the peer socket gets it and the peer's address, if the error code held no
    error; and every descriptor obtained is still owned once or has been closed once - the
    invariant of [descriptors_balanced] - exactly when the peer socket had no descriptor
    and the error code held no error: otherwise the old, or the new, descriptor is lost. *)
Theorem accept_ownership pol service e li pi p ls s a0 c rest :
  balanced p -> objs p !! li = Some ls -> objs p !! pi = Some s ->
  let op := mk_accept (make_base service (Some e)) li pi in
  try_start op (p, a0) = PREP_ACCEPT (m_fd ls) 16 SOCK_CLOEXEC /\
  exists op' w' r p', drive accept_kernel (c :: rest) op (p, a0) = Resumed op' w' rest /\
    accept_get_result pol op' w' = (r, p') /\
    (res c < 0 -> r = report pol (assign (- res c)) /\ p' = p) /\
    (0 <= res c -> is_error e = false -> r = Returned tt /\ 
       objs p' = <[pi := mk_socket (res c) (set_peer_address (peer_of c) (addresses s))]> (objs p)) /\
    (0 <= res c -> obtained p' = res c :: obtained p /\
       (balanced p' <-> valid s = false /\ is_error e = false)).
Proof.
  intros Hb Hls Hs op. split; [cbn; by rewrite (sock_lookup _ _ _ Hls)|].
  eexists _, _, _, _. split; [reflexivity|]. split; [apply surjective_pairing|].
  pose proof (accept_effect pol service e li pi p s a0 (try_start op (p, a0)) c Hs) as E.
  cbn [put_base get_base accept_operation accept_base m_listen_socket m_peer_socket op] in *.
  rewrite E. clear E. destruct (Z.ltb_spec (res c) 0) as [Hr|Hr]; [by split; [|split; lia]|].
  set (p1 := mk_program _ _ _). split; [lia|]. pose proof (balanced_length _ Hb) as Hlen.
  assert (closed (env p1) = closed (env p)) as Hc1 by apply accepted_law_closed.
  destruct (is_error e) eqn:He.
  - split; [done|]. intros _. cbn [snd]. split; [done|]. split; [|by intros [_ ?]].
    intros Hb1. apply balanced_length in Hb1. rewrite Hc1 in Hb1. cbn [p1 obtained objs length] in Hb1. lia.
  - split; [done|]. intros _. cbn [snd]. split; [done|]. set (s' := mk_socket (res c) _).
    assert (fd_of s' = [res c]) as Hs' by by apply fd_of_valid.
    pose proof (owned_put pi p1 s s' Hs) as Ho. split.
    + intros Hb1. split; [|done]. apply balanced_length in Hb1. apply Permutation_length in Ho.
      change (env (put_sock pi s' p1)) with (env p1) in Hb1. rewrite Hc1 in Hb1.
      rewrite !length_app, Hs' in Ho. cbn [p1 put_sock obtained objs length] in Hb1, Ho.
      unfold fd_of in Ho. destruct (valid s); [cbn [length] in Ho; lia|done].
    + intros [Hv _]. rewrite (fd_of_invalid s), app_nil_r, Hs' in Ho by done.
      unfold balanced in *. change (env (put_sock pi s' p1)) with (env p1).
      rewrite Hc1, Ho. cbn [put_sock p1 obtained objs]. rewrite Hb. solve_Permutation.
Qed.

(** ** Closing *)

Lemma close_drive e i p s cs rest : is_error e = false -> objs p !! i = Some s ->
  Forall (fun c => 0 < res c) cs -> forall b, op_error b = e -> exists b', op_error b' = e /\
  drive kernel (cs ++ rest) (mk_close b i) p = drive kernel rest (mk_close b' i) p /\
  op_service b' = op_service b.
Proof.
  clear accepted_law. intros He Hs Hcs. induction Hcs as [|c cs Hc _ IH]; intros b Hb; [by exists b|].
  destruct (IH (set_value (res c) (flags c) b)) as (b' & Hb' & E & Hsv).
  { cbn [op_error set_value]. by destruct (Z.ltb_spec (res c) 0); [lia|]. }
  exists b'. split; [done|]. split; [|done]. rewrite <- E. cbn [app drive]. unfold complete.
  cbn [on_completed close_operation put_base put_close_base close_socket get_base close_base kernel].
  unfold close_update_result. cbn [put_close_base close_base close_socket op_error op_res set_value].
  destruct (Z.ltb_spec (res c) 0); [lia|]. rewrite Hb, He. by destruct (Z.eqb_spec (res c) 0); [lia|].
Qed.

(** C35: [close]. Data that still arrives is read and dropped, each time with a new [recv].
    On an error the coroutine is resumed with it and the descriptor stays open and owned.
    On end of file the descriptor is closed, once, and the coroutine resumed; when [close]
    fails the error is always the code 1 ([EPERM]), whatever [errno] is. The socket is not
    told: it still holds the closed descriptor and its destructor closes it again, so the
    invariant of [descriptors_balanced] is lost. *)
Theorem close_effect pol service e i p s cs c rest ret errno w' :
  balanced p -> objs p !! i = Some s -> valid s = true -> is_error e = false ->
  Forall (fun c => 0 < res c) cs -> sys_close (m_fd s) (env p) = (ret, errno, w') -> -1 <= ret ->
  let op := mk_close (make_base service (Some e)) i in
  try_start op p = PREP_RECV (m_fd s) 1024 0 /\
  (res c < 0 -> exists op', drive kernel (cs ++ c :: rest) op p = Resumed op' p rest /\
     close_get_result pol op' = report pol (assign (- res c))) /\
  (res c = 0 -> exists op' p', drive kernel (cs ++ c :: rest) op p = Resumed op' p' rest /\
     op_error (close_base op') = (if ret <? 0 then assign 1 else e) /\
     close_get_result pol op' = report pol (if ret <? 0 then assign 1 else e) /\
     closed (env p') = closed (env p) ++ [m_fd s] /\
     objs p' !! i = Some s /\ ~ balanced p' /\
     closed (socket_destroy s (env p')) = closed (env p) ++ [m_fd s; m_fd s]).
Proof.
  clear accepted_law. intros Hb Hs Hv He Hcs Hclose Hret op. split; [cbn; by rewrite (sock_lookup _ _ _ Hs)|].
  destruct (close_drive e i p s cs (c :: rest) He Hs Hcs (make_base service (Some e)) eq_refl)
    as (b & Hbe & E & _). unfold op. rewrite E. clear E op. cbn [drive]. unfold complete.
  cbn [on_completed close_operation put_base put_close_base close_socket get_base close_base kernel].
  unfold close_update_result, report. cbn [put_close_base close_base close_socket op_error op_res set_value].
  split; intros Hr.
  - destruct (Z.ltb_spec (res c) 0); [|lia]. rewrite assign_neg_error by done.
    eexists. split; [done|]. unfold close_get_result. cbn [close_base put_close_base op_error set_value].
    destruct (Z.ltb_spec (res c) 0); [|lia]. rewrite assign_neg_error by done. by destruct (error_code_type pol).
  - rewrite Hr. cbn [Z.ltb Z.compare Z.eqb]. rewrite Hbe, He. change (kernel _ c p) with p. rewrite (sock_lookup _ _ _ Hs), Hclose.
    eexists _, _. split; [done|]. cbn [put_close_base close_base op_error set_value env objs].
    set (e' := if ret <? 0 then _ else _).
    assert (e' = if ret <? 0 then assign 1 else e) as ->.
    { unfold e'. destruct (Z.ltb_spec ret 0); [|cbn; congruence]. by replace (- ret) with 1 by lia. }
    split; [done|]. split.
    { unfold close_get_result. cbn [close_base put_close_base op_error set_value Z.ltb Z.compare].
      rewrite Hbe. destruct (Z.ltb_spec ret 0).
      - replace (- ret) with 1 by lia. cbn. by destruct (error_code_type pol).
      - rewrite He. by destruct (error_code_type pol). }
    apply closed_close in Hclose as Hc. pose proof Hv as Hv'. unfold valid in Hv'. rewrite Hv' in Hc.
    split; [done|]. split; [done|]. split.
    + intros Hb'. apply balanced_length in Hb, Hb'. cbn [obtained env objs] in Hb'.
      rewrite Hc, length_app in Hb'. cbn [length] in Hb'. lia.
    + unfold socket_destroy. rewrite Hv. destruct (close__ (s, w')) as [s2 w2] eqn:E2.
      apply close_spec in E2 as [Hc2 _]. cbn [snd]. rewrite Hc2, Hc, <- (assoc_L (++)).
      unfold fd_of. by rewrite Hv.
Qed.

End lifecycle.

(** ** The witnesses, on the table of descriptors *)

Definition table_accepted (fd : Z) (t : fd_table) : fd_table :=
  mk_table ({[fd]} ∪ open_fds t) (closed_fds t) (failing t).

Lemma table_accepted_law fd t : closes (table_accepted fd t) = closes t.
Proof. reflexivity. Qed.

Definition no_address (c : cqe) : sockaddr_in := sockaddr_zero.

(** Accepting the descriptor 5 into a socket without a descriptor, and into one that has
    the descriptor 4. *)
Lemma accept_ownership_witness :
  let p := mk_program [socket_of_fd 3; socket_default; socket_of_fd 4] (mk_table {[3; 4]} [] false) [3; 4] in
  exists op' w' p', drive (accept_kernel table_accepted no_address) [mk_cqe 5 0 []]
      (mk_accept (make_base true (Some no_error)) 0 2) (p, sockaddr_zero) = Resumed op' w' [] /\
    accept_get_result (mk_policy false false) op' w' = (Returned tt, p') /\
    obtained p' = [5; 3; 4] /\ ~ balanced p'.
Proof.
  cbv zeta.
  destruct (accept_ownership table_accepted no_address table_accepted_law (mk_policy false false) true
    no_error 0 2
    (mk_program [socket_of_fd 3; socket_default; socket_of_fd 4] (mk_table {[3; 4]} [] false) [3; 4])
    (socket_of_fd 3) (socket_of_fd 4) sockaddr_zero (mk_cqe 5 0 []) [])
    as (_ & op' & w' & r & p' & E & Er & _ & H1 & H2); [apply Permutation_refl|reflexivity..|].
  exists op', w', p'. split; [exact E|].
  destruct H1 as [-> _]; [discriminate|reflexivity|]. split; [exact Er|].
  destruct H2 as [Ho Hb]; [discriminate|]. split; [exact Ho|].
  intros Hb'. apply Hb in Hb' as [Hv _]. discriminate Hv.
Defined.

(** Closing after two portions of data; the program owns the descriptor 3. *)
Lemma close_effect_witness :
  let p := mk_program [socket_of_fd 3] (mk_table {[3]} [] false) [3] in
  exists op' p', drive kernel ([mk_cqe 10 0 []; mk_cqe 1024 0 []] ++ [mk_cqe 0 0 []])
      (mk_close (make_base true (Some no_error)) 0) p = Resumed op' p' [] /\
    closed (env p') = [3] /\ ~ balanced p' /\
    closed (socket_destroy (socket_of_fd 3) (env p')) = [3; 3].
Proof.
  cbv zeta.
  destruct (close_effect (mk_policy false false) true no_error 0
    (mk_program [socket_of_fd 3] (mk_table {[3]} [] false) [3]) (socket_of_fd 3)
    [mk_cqe 10 0 []; mk_cqe 1024 0 []] (mk_cqe 0 0 []) [] 0 0 (mk_table ({[3]} ∖ {[3]}) [3] false))
    as (_ & _ & H); [apply Permutation_refl|reflexivity..|repeat (constructor; [reflexivity|]); constructor|reflexivity|discriminate|].
  destruct H as (op' & p' & E & _ & _ & Hc & _ & Hb & Hd); [reflexivity|].
  exists op', p'. split; [exact E|]. split; [exact Hc|]. split; [exact Hb|exact Hd].
Defined.
