(* ===== verification/IoService.v ===== *)
(** * The event loop

    Models [io_service.h] of [src/include/xynet]: the loop that submits to the ring, waits
    for completions and executes operations, its local queue, and the queue other threads
    schedule operations into, with the event descriptor that wakes the loop. The loop, the
    other threads and the kernel are interleaved by a step relation; what one thread does
    under the mutex, or on its own data, is one step. *)

From stdpp Require Import gmap.
From S2P Require Import Prelude Errors AsyncOp.
Local Open Scope Z_scope.

(** ** Data *)

(** [user_data] of a queue entry: the address of [m_remote_queue_eventfd], null for a link
    timeout, or that of an operation. *)
Inductive user_data := EventfdData | NullData | OpData (op : nat).

#[export] Instance user_data_eq_dec : EqDecision user_data.
Proof. solve_decision. Defined.

Record completion := mk_completion { cqe_data : user_data; cqe_res : Z; cqe_flags : Z }.

(** [io_uring]: what has been prepared, what the kernel is working on, and its completions. *)
Record io_uring := mk_ring { sq : list user_data; inflight : list user_data; cq : list completion }.

(** [io_uring_queue_init(32 * 1024, ..)] *)
Definition SQ_ENTRIES : Z := 32 * 1024.

(** The callbacks: [schedule_operation::on_schedule_remote_complete] of an operation with or
    without a timeout; every other one resumes a coroutine, or submits again, as the user's
    code wants. *)
Inductive callback_t := OnScheduleRemoteComplete (enable_timeout : bool) | OnCompleted.

Record operation := mk_operation { op_base_of : op_base; m_callback : callback_t }.

(** Where the thread of the loop is: before [while]; in [io_uring_submit_and_wait]; in
    [get_completion_queue_operation_bases], with the operations collected; before
    [get_remote_queue_operation_bases]; before [execute_pending_local]; in it, with what is
    left of [pendingList]; returned; or stopped by a null dereference. *)
Inductive location :=
| AtLoop | AtWait | AtCompletions (batch : list nat) | AtRemote | AtPending
| AtExecute (pending : list nat) | Stopped | Crashed (pending : list nat).

(** What has happened, for the theorems: the operations that entered the local queue, those
    executed, those scheduled from other threads, and those of them taken over. *)
Record history := mk_history {
  entered : list nat; executed : list nat; scheduled : list nat; drained : list nat }.

(** [token] is [None] for [run()], whose stop token has no stop state. [writers] counts the
    threads that have pushed to the remote queue, or requested a stop, and are still to
    write to the event descriptor, whose counter is [eventfd]. *)
Record state := mk_state {
  m_ring : io_uring;
  m_local_queue : list nat;
  ma_is_stop_requested : bool;
  eventfd : Z;
  m_poll_sqe_submitted : bool;
  m_remote_queue : list nat;
  ops : gmap nat operation;
  token : option bool;
  writers : nat;
  pc : location;
  hist : history;
}.

Definition set_ring r s := mk_state r (m_local_queue s) (ma_is_stop_requested s) (eventfd s)
  (m_poll_sqe_submitted s) (m_remote_queue s) (ops s) (token s) (writers s) (pc s) (hist s).
Definition set_local l s := mk_state (m_ring s) l (ma_is_stop_requested s) (eventfd s)
  (m_poll_sqe_submitted s) (m_remote_queue s) (ops s) (token s) (writers s) (pc s) (hist s).
Definition set_stop b s := mk_state (m_ring s) (m_local_queue s) b (eventfd s)
  (m_poll_sqe_submitted s) (m_remote_queue s) (ops s) (token s) (writers s) (pc s) (hist s).
Definition set_eventfd n s := mk_state (m_ring s) (m_local_queue s) (ma_is_stop_requested s) n
  (m_poll_sqe_submitted s) (m_remote_queue s) (ops s) (token s) (writers s) (pc s) (hist s).
Definition set_poll b s := mk_state (m_ring s) (m_local_queue s) (ma_is_stop_requested s) (eventfd s)
  b (m_remote_queue s) (ops s) (token s) (writers s) (pc s) (hist s).
Definition set_remote l s := mk_state (m_ring s) (m_local_queue s) (ma_is_stop_requested s) (eventfd s)
  (m_poll_sqe_submitted s) l (ops s) (token s) (writers s) (pc s) (hist s).
Definition set_ops o s := mk_state (m_ring s) (m_local_queue s) (ma_is_stop_requested s) (eventfd s)
  (m_poll_sqe_submitted s) (m_remote_queue s) o (token s) (writers s) (pc s) (hist s).
Definition set_token t s := mk_state (m_ring s) (m_local_queue s) (ma_is_stop_requested s) (eventfd s)
  (m_poll_sqe_submitted s) (m_remote_queue s) (ops s) t (writers s) (pc s) (hist s).
Definition set_writers n s := mk_state (m_ring s) (m_local_queue s) (ma_is_stop_requested s) (eventfd s)
  (m_poll_sqe_submitted s) (m_remote_queue s) (ops s) (token s) n (pc s) (hist s).
Definition set_pc p s := mk_state (m_ring s) (m_local_queue s) (ma_is_stop_requested s) (eventfd s)
  (m_poll_sqe_submitted s) (m_remote_queue s) (ops s) (token s) (writers s) p (hist s).
Definition set_hist h s := mk_state (m_ring s) (m_local_queue s) (ma_is_stop_requested s) (eventfd s)
  (m_poll_sqe_submitted s) (m_remote_queue s) (ops s) (token s) (writers s) (pc s) h.

(** The constructor, with the operations the program will use; calls of [run] are about to
    begin. *)
Definition io_service_init (operations : gmap nat operation) (tok : option bool) : state :=
  mk_state (mk_ring [] [] []) [] false 0 false [] operations tok 0 AtLoop (mk_history [] [] [] []).

(** ** The event descriptor *)

(** [write] of 1: fails when the counter is at its maximum. *)
Definition enable_remote_queue_eventfd (s : state) : state :=
  set_eventfd (if eventfd s + 1 <=? 2 ^ 64 - 2 then eventfd s + 1 else eventfd s) s.

(** [read]: resets the counter. *)
Definition disable_remote_queue_eventfd (s : state) : state := set_eventfd 0 s.

(** ** Submitting *)

(** [io_uring_get_sqe] gives null when the submission queue is full: [None]. *)
Definition get_sqe (d : user_data) (s : state) : option state :=
  let r := m_ring s in
  if Z.of_nat (length (sq r)) <? SQ_ENTRIES
  then Some (set_ring (mk_ring (sq r ++ [d]) (inflight r) (cq r)) s) else None.

(** [try_submit_io(func)] and [try_submit_io(func, ts)]. *)
Definition try_submit_io (d : user_data) (s : state) : option state := get_sqe d s.
Definition try_submit_io_timeout (d : user_data) (s : state) : option state :=
  s ← get_sqe d s; get_sqe NullData s.

Definition submit_eventfd_poll_sqe (s : state) : option state := try_submit_io EventfdData s.

(** ** Scheduling *)

Definition schedule_local (l : list nat) (s : state) : state :=
  let h := hist s in
  set_hist (mk_history (entered h ++ l) (executed h) (scheduled h) (drained h))
    (set_local (m_local_queue s ++ l) s).

(** [schedule_remote]: the part under the mutex, and whether the event descriptor is to be
    written to. *)
Definition schedule_remote_push (op : nat) (s : state) : bool * state :=
  let h := hist s in
  (bool_decide (m_remote_queue s = []),
   set_hist (mk_history (entered h) (executed h) (scheduled h ++ [op]) (drained h))
     (set_remote (m_remote_queue s ++ [op]) s)).

(** The whole of it, as the loop's thread does it. *)
Definition schedule_remote (op : nat) (s : state) : state :=
  let '(need_enable_eventfd, s) := schedule_remote_push op s in
  if need_enable_eventfd then enable_remote_queue_eventfd s else s.

(** [schedule_impl] on the thread of the loop or on another one. *)
Definition schedule_impl (same_thread : bool) (op : option nat) (s : state) : state :=
  match op with
  | None => s
  | Some op => if same_thread then schedule_local [op] s else schedule_remote op s
  end.

(** [request_stop]; [compare_exchange_weak] may fail without a reason. The thread is then
    to write to the event descriptor, or not. *)
Definition request_stop (spurious : bool) (s : state) : bool * state :=
  if negb (ma_is_stop_requested s) && negb spurious then (true, set_stop true s) else (false, s).

(** [schedule_operation]: [await_ready], and [await_suspend] on the thread of the loop or on
    another one, which is then still to write to the event descriptor, or not. *)
Definition schedule_await_ready (enable_timeout same_thread : bool) : bool :=
  if enable_timeout then false else same_thread.
Definition schedule_await_suspend (op : nat) (s : state) : state := schedule_remote op s.

(** ** Executing *)

(** What a callback does to the service. *)
Inductive effect :=
| SubmitIo (op : nat) | SubmitIoTimeout (op : nat)
| ScheduleLocal (op : nat) | ScheduleRemote (op : nat).

Definition apply_effect (e : effect) (s : state) : option state :=
  match e with
  | SubmitIo op => try_submit_io (OpData op) s
  | SubmitIoTimeout op => try_submit_io_timeout (OpData op) s
  | ScheduleLocal op => Some (schedule_local [op] s)
  | ScheduleRemote op => Some (schedule_remote op s)
  end.

(** The state reached, and whether the thread survives. *)
Fixpoint apply_effects (es : list effect) (s : state) : state * bool :=
  match es with
  | [] => (s, true)
  | e :: es => match apply_effect e s with Some s => apply_effects es s | None => (s, false) end
  end.

Definition set_callback (cb : callback_t) (o : operation) : operation := mk_operation (op_base_of o) cb.

(** [state->execute(state)]; [es] is what the user's code does if it gets control. *)
Definition execute (op : nat) (es : list effect) (s : state) : state * bool :=
  let h := hist s in
  let s := set_hist (mk_history (entered h) (executed h ++ [op]) (scheduled h) (drained h)) s in
  match m_callback <$> ops s !! op with
  | Some (OnScheduleRemoteComplete true) =>
      match try_submit_io (OpData op) s with
      | Some s => (set_ops (alter (set_callback OnCompleted) op (ops s)) s, true)
      | None => (s, false)
      end
  | _ => apply_effects es s
  end.

(** ** The loop *)

(** The loop's head and the submission: false when the thread does not survive. *)
Definition enter_wait (s : state) : state * bool :=
  match (if m_poll_sqe_submitted s then Some s
         else set_poll true <$> submit_eventfd_poll_sqe s) with
  | Some s => let r := m_ring s in
              (set_ring (mk_ring [] (inflight r ++ sq r) (cq r)) s, true)
  | None => (s, false)
  end.

(** One entry of the completion queue. *)
Definition on_cqe (c : completion) (s : state) (batch : list nat) : state * list nat :=
  match cqe_data c with
  | EventfdData => (set_poll false (disable_remote_queue_eventfd s), batch)
  | NullData => (s, batch)
  | OpData op =>
      (set_ops (alter (fun o => mk_operation (set_value (cqe_res c) (cqe_flags c) (op_base_of o))
                                  (m_callback o)) op (ops s)) s, batch ++ [op])
  end.

Definition pop_cqe (rest : list completion) (s : state) : state :=
  set_ring (mk_ring (sq (m_ring s)) (inflight (m_ring s)) rest) s.

Definition get_remote_queue_operation_bases (s : state) : state :=
  let h := hist s in
  schedule_local (m_remote_queue s)
    (set_remote [] (set_hist (mk_history (entered h) (executed h) (scheduled h)
                               (drained h ++ m_remote_queue s)) s)).

Definition alive (p : location) (dead : location) (sb : state * bool) : state :=
  set_pc (if snd sb then p else dead) (fst sb).

(** The functions as a whole; [behave] is what the user's code does when an operation gives
    it control. *)
Fixpoint process_cqes (cs : list completion) (s : state) (batch : list nat) : state * list nat :=
  match cs with
  | [] => (s, batch)
  | c :: cs => let '(s, batch) := on_cqe c (pop_cqe cs s) batch in process_cqes cs s batch
  end.

Definition get_completion_queue_operation_bases (s : state) : state :=
  let '(s, batch) := process_cqes (cq (m_ring s)) s [] in schedule_local batch s.

Fixpoint execute_list (behave : nat -> list effect) (l : list nat) (s : state) : state :=
  match l with
  | [] => set_pc AtLoop s
  | op :: l =>
      let '(s, ok) := execute op (behave op) s in
      if ok then execute_list behave l s else set_pc (Crashed l) s
  end.

Definition execute_pending_local (behave : nat -> list effect) (s : state) : state :=
  execute_list behave (m_local_queue s) (set_local [] s).

(** The part of the loop's body behind [io_uring_submit_and_wait]. *)
Definition loop_body (behave : nat -> list effect) (s : state) : state :=
  execute_pending_local behave
    (get_remote_queue_operation_bases (get_completion_queue_operation_bases s)).

(** The same in steps that other threads and the kernel interleave with. *)
Inductive loop_step : state -> state -> Prop :=
| step_stop s : pc s = AtLoop -> token s = Some true -> loop_step s (set_pc Stopped s)
| step_enter s : pc s = AtLoop -> token s <> Some true ->
    loop_step s (alive AtWait (Crashed []) (enter_wait s))
| step_wake s : pc s = AtWait -> cq (m_ring s) <> [] -> loop_step s (set_pc (AtCompletions []) s)
| step_cqe s batch c rest : pc s = AtCompletions batch -> cq (m_ring s) = c :: rest ->
    loop_step s (let '(s, batch) := on_cqe c (pop_cqe rest s) batch in set_pc (AtCompletions batch) s)
| step_cqes_done s batch : pc s = AtCompletions batch -> cq (m_ring s) = [] ->
    loop_step s (set_pc AtRemote (schedule_local batch s))
| step_remote s : pc s = AtRemote -> loop_step s (set_pc AtPending (get_remote_queue_operation_bases s))
| step_pending s : pc s = AtPending ->
    loop_step s (set_pc (AtExecute (m_local_queue s)) (set_local [] s))
| step_execute s op pending es : pc s = AtExecute (op :: pending) ->
    loop_step s (alive (AtExecute pending) (Crashed pending) (execute op es s))
| step_executed s : pc s = AtExecute [] -> loop_step s (set_pc AtLoop s).

(** The other threads: scheduling an operation, requesting a stop, stopping the token, and
    writing to the event descriptor. *)
Inductive other_step : state -> state -> Prop :=
| step_push s op : other_step s
    (let '(need, s) := schedule_remote_push op s in set_writers (writers s + Nat.b2n need)%nat s)
| step_request_stop s spurious : other_step s
    (let '(need, s) := request_stop spurious s in set_writers (writers s + Nat.b2n need)%nat s)
| step_token s : token s = Some false -> other_step s (set_token (Some true) s).

Inductive writer_step : state -> state -> Prop :=
| step_write s n : writers s = S n -> writer_step s (set_writers n (enable_remote_queue_eventfd s)).

(** The kernel: the poll completes when the counter of the event descriptor is positive;
    other work when it likes. *)
Inductive kernel_step : state -> state -> Prop :=
| step_complete s i d r fl : inflight (m_ring s) !! i = Some d -> (d = EventfdData -> 0 < eventfd s) ->
    kernel_step s (set_ring (mk_ring (sq (m_ring s)) (delete i (inflight (m_ring s)))
                               (cq (m_ring s) ++ [mk_completion d r fl])) s).

(** What happens without anyone asking for anything new. *)
Definition inner_step (s s' : state) : Prop := loop_step s s' \/ writer_step s s' \/ kernel_step s s'.

Definition step (s s' : state) : Prop := inner_step s s' \/ other_step s s'.

Definition reachable (s : state) : Prop := exists o t, rtc step (io_service_init o t) s.

(** ** The invariant *)

(** The operations taken out of the local queue that are still to be executed. *)
Definition pending_of (p : location) : list nat :=
  match p with AtExecute l | Crashed l => l | _ => [] end.

(** The loop is going to take over the remote queue before it waits again. *)
Definition takes_remote (p : location) : bool :=
  match p with AtCompletions _ | AtRemote => true | _ => false end.

Definition is_poll (d : user_data) : bool := bool_decide (d = EventfdData).

Definition count_polls (l : list user_data) : nat := length (filter (fun d => is_poll d = true) l).

(** The polls of the event descriptor that are on their way. *)
Definition polls (r : io_uring) : nat :=
  count_polls (sq r) + count_polls (inflight r) + count_polls (map cqe_data (cq r)).

Record inv (p : location) (s : state) : Prop := mk_inv {
  inv_fifo : entered (hist s) = executed (hist s) ++ pending_of p ++ m_local_queue s;
  inv_scheduled : scheduled (hist s) = drained (hist s) ++ m_remote_queue s;
  inv_drained : drained (hist s) `sublist_of` entered (hist s);
  inv_polls : polls (m_ring s) = Nat.b2n (m_poll_sqe_submitted s);
  inv_eventfd : 0 <= eventfd s;
  inv_wake : m_remote_queue s = [] \/ (0 < writers s)%nat \/ 0 < eventfd s \/ takes_remote p = true;
  inv_wait : p = AtWait -> sq (m_ring s) = [] /\ m_poll_sqe_submitted s = true;
}.

Lemma count_polls_app l k : count_polls (l ++ k) = (count_polls l + count_polls k)%nat.
Proof. unfold count_polls. by rewrite list.filter_app, length_app. Qed.

Lemma count_polls_cons d l : count_polls (d :: l) = (Nat.b2n (is_poll d) + count_polls l)%nat.
Proof. unfold count_polls. rewrite list.filter_cons. by destruct (is_poll d); case_decide. Qed.

Lemma count_polls_delete l i d : l !! i = Some d ->
  count_polls l = (Nat.b2n (is_poll d) + count_polls (delete i l))%nat.
Proof.
  revert i. induction l as [|x l IH]; intros [|i]; simpl; [done..| |].
  - intros [= ->]. apply count_polls_cons.
  - intros Hi. rewrite !count_polls_cons, (IH i Hi). lia.
Qed.

Lemma count_polls_in l : (0 < count_polls l)%nat -> EventfdData ∈ l.
Proof.
  induction l as [|d l IH]; [cbn; lia|]. rewrite count_polls_cons. unfold is_poll.
  case_bool_decide; [subst; by left|]. intros. right. apply IH. simpl in *. lia.
Qed.

(** An invariant holds of a state whose location is written after it. *)
Lemma inv_set_pc p q s : inv p s -> inv p (set_pc q s).
Proof. by intros []. Qed.

Lemma inv_change p q s : inv p s -> pending_of q = pending_of p ->
  (m_remote_queue s = [] \/ (takes_remote p = true -> takes_remote q = true)) ->
  (q = AtWait -> p = AtWait) -> inv q s.
Proof.
  intros [] E Ht Hw. constructor; try done; [by rewrite E| |auto].
  destruct Ht as [Ht|Ht]; [by left|]. destruct inv_wake0 as [?|[?|[?|?]]]; auto.
Qed.

Lemma inv_get_sqe p d s s' : p <> AtWait -> d <> EventfdData -> get_sqe d s = Some s' ->
  inv p s -> inv p s'.
Proof.
  unfold get_sqe. intros Hp Hd E []. destruct (_ <? _); [|done]. injection E as <-. constructor; try done.
  unfold polls in *. cbn [m_ring set_ring sq inflight cq m_poll_sqe_submitted].
  rewrite count_polls_app, count_polls_cons. unfold is_poll at 1. rewrite bool_decide_eq_false_2 by done.
  cbn. lia.
Qed.

Lemma inv_schedule_local p l s : inv p s -> inv p (schedule_local l s).
Proof.
  intros []. constructor; try done; cbn.
  - by rewrite inv_fifo0, <- !(assoc_L (++)).
  - by apply sublist_inserts_r.
Qed.

Lemma eventfd_write_pos s : 0 <= eventfd s -> 0 < eventfd (enable_remote_queue_eventfd s).
Proof. intros. cbn. destruct (Z.leb_spec (eventfd s + 1) (2 ^ 64 - 2)); lia. Qed.

Lemma inv_enable p s : inv p s -> inv p (enable_remote_queue_eventfd s).
Proof.
  intros []. pose proof (eventfd_write_pos s inv_eventfd0). constructor; try done; [lia|].
  right. right. by left.
Qed.

(** Pushing to the remote queue, with the event descriptor written to at once or a writer
    that will. *)
Lemma inv_push p op s need s' : schedule_remote_push op s = (need, s') -> inv p s ->
  (forall s'', s'' = enable_remote_queue_eventfd s' \/ s'' = set_writers (S (writers s')) s' -> inv p s'') /\
  (need = false -> inv p s').
Proof.
  unfold schedule_remote_push. intros [= <- <-] [].
  assert (scheduled (hist s) ++ [op] = drained (hist s) ++ m_remote_queue s ++ [op]) as Hs
    by by rewrite inv_scheduled0, <- (assoc_L (++)).
  split; [intros s'' [->| ->]|intros Hn].
  - pose proof (eventfd_write_pos s inv_eventfd0) as Hp. constructor; try done; cbn in *; [lia|].
    right. right. by left.
  - constructor; try done; cbn. right. left. lia.
  - apply bool_decide_eq_false in Hn. constructor; try done; cbn. right. by destruct inv_wake0 as [?|?].
Qed.

Lemma inv_schedule_remote p op s : inv p s -> inv p (schedule_remote op s).
Proof.
  intros Hi. unfold schedule_remote. destruct (schedule_remote_push op s) as [need s'] eqn:E.
  destruct (inv_push p op s need s' E Hi) as [H1 H2]. destruct need; auto.
Qed.

Lemma inv_effect p e s s' : p <> AtWait -> apply_effect e s = Some s' -> inv p s -> inv p s'.
Proof.
  intros Hp. destruct e as [op|op|op|op]; cbn [apply_effect].
  - by apply inv_get_sqe.
  - unfold try_submit_io_timeout. intros E Hi. apply bind_Some in E as (s1 & E1 & E2).
    apply (inv_get_sqe p NullData s1); [done..|]. by apply (inv_get_sqe p (OpData op) s).
  - intros [= <-]. apply inv_schedule_local.
  - intros [= <-]. apply inv_schedule_remote.
Qed.

Lemma inv_effects p es s : p <> AtWait -> inv p s -> inv p (fst (apply_effects es s)).
Proof.
  intros Hp. revert s. induction es as [|e es IH]; intros s Hi; [done|]. cbn [apply_effects].
  destruct (apply_effect e s) as [s'|] eqn:E; [|done]. apply IH. by eapply inv_effect.
Qed.

Lemma inv_set_ops p o s : inv p s -> inv p (set_ops o s).
Proof. by intros []. Qed.

(** An operation at the head of [pendingList] is executed. *)
Lemma inv_execute op pending es s : inv (AtExecute (op :: pending)) s ->
  inv (AtExecute pending) (fst (execute op es s)).
Proof.
  intros Hi. unfold execute. set (s1 := set_hist _ s).
  assert (inv (AtExecute pending) s1) as Hi1.
  { destruct Hi. constructor; try done; cbn in *. by rewrite inv_fifo0, <- (assoc_L (++)). }
  clearbody s1.
  assert (inv (AtExecute pending) (fst (apply_effects es s1))) by by apply inv_effects.
  destruct (m_callback <$> ops s1 !! op) as [[[]|]|]; try done.
  unfold try_submit_io. destruct (get_sqe (OpData op) s1) as [s2|] eqn:E; [|done].
  apply inv_set_ops. by apply (inv_get_sqe _ (OpData op) s1).
Qed.

Lemma inv_enter_wait s : inv AtLoop s ->
  inv (if snd (enter_wait s) then AtWait else AtLoop) (fst (enter_wait s)).
Proof.
  intros Hi. unfold enter_wait.
  assert (forall s1, inv AtLoop s1 -> m_poll_sqe_submitted s1 = true ->
    inv AtWait (set_ring (mk_ring [] (inflight (m_ring s1) ++ sq (m_ring s1)) (cq (m_ring s1))) s1)) as Hsub.
  { intros s1 [] Hp. constructor; try done. cbn [m_poll_sqe_submitted set_ring m_ring]. rewrite <- inv_polls0. unfold polls. cbn [sq inflight cq].
    rewrite count_polls_app. unfold count_polls at 1. cbn. lia. }
  destruct (m_poll_sqe_submitted s) eqn:Hp; [by apply Hsub|].
  unfold submit_eventfd_poll_sqe, try_submit_io, get_sqe. destruct (_ <? _); [|done].
  cbn [fmap option_fmap option_map fst snd]. apply Hsub; [|done]. destruct Hi. constructor; try done.
  unfold polls in *. cbn [m_ring set_ring set_poll sq inflight cq m_poll_sqe_submitted].
  rewrite count_polls_app, count_polls_cons. rewrite Hp in inv_polls0.
  change (count_polls []) with 0%nat. change (is_poll EventfdData) with true. cbn [Nat.b2n] in *. lia.
Qed.

Lemma inv_on_cqe batch c rest s : cq (m_ring s) = c :: rest -> inv (AtCompletions batch) s ->
  inv (AtCompletions (snd (on_cqe c (pop_cqe rest s) batch))) (fst (on_cqe c (pop_cqe rest s) batch)).
Proof.
  intros E []. unfold polls in inv_polls0. rewrite E in inv_polls0. cbn [map] in inv_polls0.
  rewrite count_polls_cons in inv_polls0. unfold on_cqe.
  destruct (cqe_data c) eqn:Ed; cbn [fst snd]; constructor; try done;
    try (right; right; by right); try (cbn; lia);
    unfold polls; cbn [m_ring set_ring set_poll set_ops disable_remote_queue_eventfd set_eventfd
      pop_cqe sq inflight cq m_poll_sqe_submitted]; unfold is_poll in inv_polls0;
    rewrite ?bool_decide_eq_true_2, ?bool_decide_eq_false_2 in inv_polls0 by done;
    cbn [Nat.b2n] in inv_polls0; destruct (m_poll_sqe_submitted s); cbn [Nat.b2n] in *; lia.
Qed.

Lemma inv_get_remote s : inv AtRemote s -> inv AtPending (get_remote_queue_operation_bases s).
Proof.
  intros []. constructor; try done; cbn in *.
  - by rewrite inv_fifo0, <- (assoc_L (++)).
  - by rewrite inv_scheduled0, app_nil_r.
  - by apply sublist_app.
  - by left.
Qed.

Lemma inv_loop_step s s' : loop_step s s' -> inv (pc s) s -> inv (pc s') s'.
Proof.
  destruct 1 as [s Hp _|s Hp _|s Hp _|s batch c rest Hp Hc|s batch Hp Hc|s Hp|s Hp|s op pending es Hp|s Hp];
    rewrite Hp; intros Hi.
  - apply inv_set_pc. cbn. apply (inv_change AtLoop); [done|done|by right|done].
  - apply inv_enter_wait in Hi. unfold alive. cbn [pc set_pc]. apply inv_set_pc.
    destruct (snd (enter_wait s)); [done|]. apply (inv_change AtLoop); [done|done|by right|done].
  - apply inv_set_pc. cbn. apply (inv_change AtWait); [done|done|by right|done].
  - apply (inv_on_cqe _ _ _ _ Hc) in Hi. destruct (on_cqe _ _ _) as [s1 b1]. by apply inv_set_pc.
  - apply inv_set_pc. cbn [pc set_pc]. apply (inv_change (AtCompletions batch)); [|done|by right|done].
    by apply inv_schedule_local.
  - apply inv_set_pc. by apply inv_get_remote.
  - apply inv_set_pc. cbn [pc set_pc]. destruct Hi. constructor; try done.
    cbn in *. by rewrite app_nil_r.
  - apply (inv_execute op pending es) in Hi. unfold alive. apply inv_set_pc. cbn [pc set_pc].
    destruct (snd _); [done|]. apply (inv_change (AtExecute pending)); [done|done|by right|done].
  - apply inv_set_pc. cbn [pc set_pc]. apply (inv_change (AtExecute [])); [done|done|by right|done].
Qed.

Lemma inv_kernel_step p s s' : kernel_step s s' -> inv p s -> inv p s'.
Proof.
  destruct 1 as [s i d r fl Hi _]. intros []. constructor; try done.
  cbn [m_poll_sqe_submitted set_ring]. rewrite <- inv_polls0. unfold polls. cbn [m_ring set_ring sq inflight cq].
  rewrite map_app, count_polls_app, (count_polls_delete _ _ _ Hi). cbn [map cqe_data].
  rewrite count_polls_cons. change (count_polls []) with 0%nat. lia.
Qed.

Lemma inv_writer_step p s s' : writer_step s s' -> inv p s -> inv p s'.
Proof.
  destruct 1 as [s n Hn]. intros Hi. apply inv_enable in Hi as Hi'.
  pose proof (eventfd_write_pos s (inv_eventfd _ _ Hi)). destruct Hi'.
  constructor; try done. right. right. by left.
Qed.

Lemma inv_more_writers p s n : inv p s -> inv p (set_writers (writers s + n) s).
Proof.
  intros []. constructor; try done. cbn.
  destruct inv_wake0 as [?|[?|?]]; [by left|right; left; lia|right; by right].
Qed.

Lemma inv_other_step p s s' : other_step s s' -> inv p s -> inv p s'.
Proof.
  destruct 1 as [s op|s spurious|s Ht]; intros Hi.
  - destruct (schedule_remote_push op s) as [need s'] eqn:E.
    destruct (inv_push p op s need s' E Hi) as [H1 H2]. destruct need; cbn [Nat.b2n].
    + rewrite Nat.add_1_r. apply H1. by right.
    + apply inv_more_writers. by apply H2.
  - unfold request_stop. destruct (_ && _); apply inv_more_writers; [|done]. by destruct Hi.
  - by destruct Hi.
Qed.

Lemma pc_step s s' : writer_step s s' \/ kernel_step s s' \/ other_step s s' -> pc s' = pc s.
Proof.
  intros [H|[H|H]]; destruct H; try done. unfold request_stop. by destruct (_ && _).
Qed.

Lemma inv_step s s' : step s s' -> inv (pc s) s -> inv (pc s') s'.
Proof.
  intros [[H|[H|H]]|H] Hi.
  - by eapply inv_loop_step.
  - rewrite (pc_step s s') by auto. by eapply inv_writer_step.
  - rewrite (pc_step s s') by auto. by eapply inv_kernel_step.
  - rewrite (pc_step s s') by auto. by eapply inv_other_step.
Qed.

Lemma inv_reachable s : reachable s -> inv (pc s) s.
Proof.
  intros (o & t & Hs). remember (io_service_init o t) as s0 eqn:E0.
  assert (inv (pc s0) s0) as Hi by (subst; by constructor; auto).
  clear E0. induction Hs; eauto using inv_step.
Qed.

(** ** First in, first out *)

(** C6: in every reachable state, whatever the other threads, the kernel and the user's
    callbacks have done: the operations are executed in the order in which they entered the
    local queue, each as often as it entered, none lost and none twice; those scheduled by
    other threads enter it in the order in which they were scheduled, and those that have
    not are in the remote queue. *)
Theorem executed_in_order s : reachable s ->
  entered (hist s) = executed (hist s) ++ pending_of (pc s) ++ m_local_queue s /\
  scheduled (hist s) = drained (hist s) ++ m_remote_queue s /\
  drained (hist s) `sublist_of` entered (hist s).
Proof. intros Hs. by destruct (inv_reachable s Hs). Qed.

(** ** No lost wake-up *)

(** The loop consumes the completions. *)
Lemma cqes_steps s batch : pc s = AtCompletions batch ->
  exists s' batch', rtc loop_step s s' /\ pc s' = AtCompletions batch' /\ cq (m_ring s') = [] /\
    m_remote_queue s' = m_remote_queue s /\ hist s' = hist s.
Proof.
  remember (cq (m_ring s)) as cs eqn:E. revert s batch E.
  induction cs as [|c cs IH]; intros s batch E Hp; [by exists s, batch|].
  assert (loop_step s (let '(s, batch) := on_cqe c (pop_cqe cs s) batch in
    set_pc (AtCompletions batch) s)) as Hstep by by constructor.
  set (s1 := let '(s, batch) := on_cqe c (pop_cqe cs s) batch in set_pc (AtCompletions batch) s) in *.
  assert (exists b1, pc s1 = AtCompletions b1 /\ cq (m_ring s1) = cs /\
    m_remote_queue s1 = m_remote_queue s /\ hist s1 = hist s) as (b1 & Hp1 & Hc1 & Hr1 & Hh1).
  { unfold s1, on_cqe. destruct (cqe_data c); by eexists. }
  clearbody s1. destruct (IH s1 b1) as (s' & b' & Hs & Hp' & Hc' & Hr' & Hh'); [done..|].
  exists s', b'. split; [by eapply rtc_l|]. by rewrite Hr', Hh'.
Qed.

Lemma take_over s batch : pc s = AtCompletions batch ->
  exists s', rtc loop_step s s' /\ pc s' = AtPending /\ m_remote_queue s' = [] /\
    drained (hist s') = drained (hist s) ++ m_remote_queue s.
Proof.
  intros Hp. destruct (cqes_steps s batch Hp) as (s1 & b1 & Hs1 & Hp1 & Hc1 & Hr1 & Hh1).
  exists (set_pc AtPending (get_remote_queue_operation_bases (set_pc AtRemote (schedule_local b1 s1)))).
  split; [|split; [reflexivity|split; [reflexivity|]]].
  - etrans; [exact Hs1|]. eapply rtc_l; [by apply step_cqes_done|].
    by apply rtc_once, step_remote.
  - cbn. by rewrite Hh1, Hr1.
Qed.

Lemma inner_of_loop s s' : rtc loop_step s s' -> rtc inner_step s s'.
Proof. apply rtc_subrel. by left. Qed.

(** A poll that the kernel has and a counter that is positive wake the loop. *)
Lemma poll_wakes s i : pc s = AtWait -> inflight (m_ring s) !! i = Some EventfdData -> 0 < eventfd s ->
  exists s', rtc inner_step s s' /\ pc s' = AtCompletions [] /\
    m_remote_queue s' = m_remote_queue s /\ hist s' = hist s.
Proof.
  intros Hp Hi He. pose proof (step_complete s i EventfdData 1 0 Hi (fun _ => He)) as Hk.
  set (s1 := set_ring _ s) in Hk. exists (set_pc (AtCompletions []) s1). split; [|done].
  eapply rtc_l; [right; right; exact Hk|]. apply rtc_once. left. apply step_wake; [done|].
  cbn. by destruct (cq (m_ring s)).
Qed.

(** C5: no wake-up is lost. In every reachable state in which the loop waits and operations
    have been scheduled by other threads: the poll of the event descriptor is with the
    kernel, or complete; its counter is positive, or a thread is about to write to it; and,
    with nothing new asked for, the loop wakes up and takes over all of them. *)
Theorem no_lost_wakeup s : reachable s -> pc s = AtWait -> m_remote_queue s <> [] ->
  ((0 < writers s)%nat \/ 0 < eventfd s) /\
  polls (m_ring s) = 1%nat /\ sq (m_ring s) = [] /\
  exists s', rtc inner_step s s' /\ pc s' = AtPending /\ m_remote_queue s' = [] /\
    drained (hist s') = drained (hist s) ++ m_remote_queue s.
Proof.
  intros Hs Hp Hr. pose proof (inv_reachable s Hs) as Hinv. rewrite Hp in Hinv.
  pose proof Hinv as [_ _ _ Hpolls He Hw Hwait]. destruct (Hwait eq_refl) as [Hsq Hsub].
  rewrite Hsub in Hpolls. cbn [takes_remote] in Hw.
  assert ((0 < writers s)%nat \/ 0 < eventfd s) as Hwe by by destruct Hw as [?|[?|[?|?]]]; auto.
  split; [done|]. split; [done|]. split; [done|].
  assert (exists s1, rtc inner_step s s1 /\ pc s1 = AtCompletions [] /\
    m_remote_queue s1 = m_remote_queue s /\ hist s1 = hist s) as (s1 & Hs1 & Hp1 & Hr1 & Hh1).
  { destruct (cq (m_ring s)) as [|c cs] eqn:Hcq.
    2: { eexists. split; [apply rtc_once; left; apply step_wake; by rewrite ?Hcq|done]. }
    unfold polls in Hpolls. rewrite Hsq, Hcq in Hpolls. change (count_polls (map cqe_data [])) with 0%nat in Hpolls.
    change (count_polls []) with 0%nat in Hpolls. rewrite Nat.add_0_l, Nat.add_0_r in Hpolls.
    assert (EventfdData ∈ inflight (m_ring s)) as Hin by (apply count_polls_in; cbn in Hpolls; lia).
    apply list_elem_of_lookup in Hin as [i Hi]. destruct (decide (0 < eventfd s)) as [Hpos|Hpos].
    - by apply (poll_wakes s i).
    - destruct Hwe as [Hwr|]; [|done]. destruct (writers s) as [|n] eqn:En; [lia|].
      set (s0 := set_writers n (enable_remote_queue_eventfd s)).
      destruct (poll_wakes s0 i) as (s1 & Hs1 & ?); [done|done|by apply (eventfd_write_pos s)|].
      exists s1. split; [|done]. eapply rtc_l; [|exact Hs1]. right. left. by constructor. }
  destruct (take_over s1 [] Hp1) as (s' & Hs' & Hp' & Hr' & Hd'). exists s'.
  split; [etrans; [exact Hs1|by apply inner_of_loop]|]. by rewrite Hd', Hh1, Hr1.
Qed.

(** ** One round of the loop *)

(** A field the operations on the queues neither read nor change: they commute with a
    change [f] of it. *)
Class Frame (f : state -> state) := {
  frame_ring : forall s, m_ring (f s) = m_ring s;
  frame_local : forall s, m_local_queue (f s) = m_local_queue s;
  frame_remote : forall s, m_remote_queue (f s) = m_remote_queue s;
  frame_eventfd : forall s, eventfd (f s) = eventfd s;
  frame_poll : forall s, m_poll_sqe_submitted (f s) = m_poll_sqe_submitted s;
  frame_ops : forall s, ops (f s) = ops s;
  frame_hist : forall s, hist (f s) = hist s;
  frame_set_ring : forall r s, set_ring r (f s) = f (set_ring r s);
  frame_set_local : forall l s, set_local l (f s) = f (set_local l s);
  frame_set_remote : forall l s, set_remote l (f s) = f (set_remote l s);
  frame_set_eventfd : forall n s, set_eventfd n (f s) = f (set_eventfd n s);
  frame_set_poll : forall b s, set_poll b (f s) = f (set_poll b s);
  frame_set_ops : forall o s, set_ops o (f s) = f (set_ops o s);
  frame_set_hist : forall h s, set_hist h (f s) = f (set_hist h s);
}.

#[export] Instance frame_pc p : Frame (set_pc p).
Proof. by constructor. Qed.
#[export] Instance frame_stop b : Frame (set_stop b).
Proof. by constructor. Qed.

Create Rewrite HintDb frame.
#[export] Hint Rewrite @frame_ring @frame_local @frame_remote @frame_eventfd @frame_poll @frame_ops
  @frame_hist @frame_set_ring @frame_set_local @frame_set_remote @frame_set_eventfd @frame_set_poll
  @frame_set_ops @frame_set_hist using typeclasses eauto : frame.

Section frame.
Context (f : state -> state) `{!Frame f}.

Lemma on_cqe_frame c rest s batch : on_cqe c (pop_cqe rest (f s)) batch =
  (f (fst (on_cqe c (pop_cqe rest s) batch)), snd (on_cqe c (pop_cqe rest s) batch)).
Proof.
  unfold on_cqe, pop_cqe, disable_remote_queue_eventfd.
  destruct (cqe_data c); autorewrite with frame; done.
Qed.

Lemma get_sqe_frame d s : get_sqe d (f s) = f <$> get_sqe d s.
Proof. unfold get_sqe. autorewrite with frame. by destruct (_ <? _). Qed.

Lemma schedule_local_frame l s : schedule_local l (f s) = f (schedule_local l s).
Proof. unfold schedule_local. by autorewrite with frame. Qed.

Lemma schedule_remote_frame op s : schedule_remote op (f s) = f (schedule_remote op s).
Proof.
  unfold schedule_remote, schedule_remote_push, enable_remote_queue_eventfd. autorewrite with frame.
  destruct (bool_decide _); [|done]. by autorewrite with frame.
Qed.

Lemma get_remote_frame s :
  get_remote_queue_operation_bases (f s) = f (get_remote_queue_operation_bases s).
Proof.
  unfold get_remote_queue_operation_bases. autorewrite with frame. apply schedule_local_frame.
Qed.

Lemma apply_effect_frame e s : apply_effect e (f s) = f <$> apply_effect e s.
Proof.
  destruct e as [op|op|op|op]; cbn [apply_effect].
  - apply get_sqe_frame.
  - unfold try_submit_io_timeout. rewrite get_sqe_frame. destruct (get_sqe (OpData op) s) as [s1|]; [|done].
    cbn. apply get_sqe_frame.
  - by rewrite schedule_local_frame.
  - by rewrite schedule_remote_frame.
Qed.

Lemma apply_effects_frame es s :
  apply_effects es (f s) = (f (fst (apply_effects es s)), snd (apply_effects es s)).
Proof.
  revert s. induction es as [|e es IH]; intros s; [done|]. cbn [apply_effects].
  rewrite apply_effect_frame. destruct (apply_effect e s); [apply IH|done].
Qed.

Lemma execute_frame op es s :
  execute op es (f s) = (f (fst (execute op es s)), snd (execute op es s)).
Proof.
  unfold execute. autorewrite with frame. set (s1 := set_hist _ s).
  destruct (m_callback <$> ops s1 !! op) as [[[]|]|]; try apply apply_effects_frame.
  unfold try_submit_io. rewrite get_sqe_frame. destruct (get_sqe (OpData op) s1); [|done].
  cbn. by autorewrite with frame.
Qed.

Lemma enter_wait_frame s : enter_wait (f s) = (f (fst (enter_wait s)), snd (enter_wait s)).
Proof.
  unfold enter_wait, submit_eventfd_poll_sqe, try_submit_io. autorewrite with frame.
  destruct (m_poll_sqe_submitted s); [cbn; by autorewrite with frame|].
  rewrite get_sqe_frame. destruct (get_sqe EventfdData s) as [s1|]; [|done].
  cbn. by autorewrite with frame.
Qed.

End frame.

Lemma set_pc_twice p q s : set_pc p (set_pc q s) = set_pc p s.
Proof. done. Qed.

Lemma set_pc_same s : set_pc (pc s) s = s.
Proof. by destruct s. Qed.

Lemma process_cqes_steps s batch : pc s = AtCompletions batch ->
  let '(s', batch') := process_cqes (cq (m_ring s)) s batch in
  rtc loop_step s (set_pc (AtCompletions batch') s') /\ cq (m_ring s') = [].
Proof.
  remember (cq (m_ring s)) as cs eqn:E. revert s batch E.
  induction cs as [|c cs IH]; intros s batch E Hp; cbn [process_cqes].
  - by rewrite <- Hp, set_pc_same.
  - pose proof (step_cqe s batch c cs Hp (eq_sym E)) as Hstep.
    destruct (on_cqe c (pop_cqe cs s) batch) as [s1 b1] eqn:E1.
    assert (cq (m_ring s1) = cs) as Hc1.
    { unfold on_cqe in E1. destruct (cqe_data c); by injection E1 as <- <-. }
    specialize (IH (set_pc (AtCompletions b1) s1) b1 (eq_sym Hc1) eq_refl).
    assert (forall cs s b, process_cqes cs (set_pc (AtCompletions b1) s) b =
      (set_pc (AtCompletions b1) (fst (process_cqes cs s b)), snd (process_cqes cs s b))) as Hpc.
    { clear. induction cs as [|c cs IH]; intros s b; [done|]. cbn [process_cqes].
      rewrite (on_cqe_frame _). destruct (on_cqe c (pop_cqe cs s) b) as [s2 b2]. apply IH. }
    rewrite Hpc in IH. destruct (process_cqes cs s1 b1) as [s' b']. cbn [fst snd] in IH.
    destruct IH as [Hs Hc]. split; [|done]. by eapply rtc_l.
Qed.

Lemma execute_list_steps behave l s : rtc loop_step (set_pc (AtExecute l) s) (execute_list behave l s).
Proof.
  revert s. induction l as [|op l IH]; intros s; cbn [execute_list].
  - apply rtc_once. by apply (step_executed (set_pc (AtExecute []) s)).
  - pose proof (step_execute (set_pc (AtExecute (op :: l)) s) op l (behave op) eq_refl) as Hstep.
    rewrite (execute_frame _) in Hstep. unfold alive in Hstep. cbn [fst snd] in Hstep.
    destruct (execute op (behave op) s) as [s1 ok]. cbn [fst snd] in Hstep. rewrite set_pc_twice in Hstep.
    destruct ok; (eapply rtc_l; [exact Hstep|]); [apply IH|done].
Qed.

(** The operations of the entries of the completion queue. *)
Definition io_ops (cs : list completion) : list nat :=
  omap (fun c => match cqe_data c with OpData op => Some op | _ => None end) cs.

Lemma process_cqes_spec cs s batch :
  let '(s', batch') := process_cqes cs s batch in
  batch' = batch ++ io_ops cs /\ hist s' = hist s /\ m_remote_queue s' = m_remote_queue s /\
  m_local_queue s' = m_local_queue s /\ sq (m_ring s') = sq (m_ring s).
Proof.
  revert s batch. induction cs as [|c cs IH]; intros s batch; [by rewrite app_nil_r|].
  cbn [process_cqes]. destruct (on_cqe c (pop_cqe cs s) batch) as [s1 b1] eqn:E1.
  specialize (IH s1 b1). destruct (process_cqes cs s1 b1) as [s' b'].
  destruct IH as (-> & Hh & Hr & Hl & Hq). rewrite Hh, Hr, Hl, Hq. unfold on_cqe in E1.
  cbn [io_ops omap list_omap]. destruct (cqe_data c); injection E1 as <- <-; cbn; try done.
  by rewrite <- (assoc_L (++)).
Qed.

(** The entries of the submission queue a callback fills in. *)
Definition sqes (e : effect) : nat :=
  match e with SubmitIo _ => 1 | SubmitIoTimeout _ => 2 | _ => 0 end.
Definition cost (behave : nat -> list effect) (op : nat) : nat :=
  Nat.max 1 (sum_list (map sqes (behave op))).

Lemma get_sqe_room d s : Z.of_nat (length (sq (m_ring s))) < SQ_ENTRIES ->
  exists s', get_sqe d s = Some s' /\ length (sq (m_ring s')) = S (length (sq (m_ring s))) /\
    hist s' = hist s.
Proof.
  intros Hl. unfold get_sqe. rewrite (proj2 (Z.ltb_lt _ _) Hl). eexists. split; [done|].
  split; [|done]. cbn. rewrite length_app. simpl. lia.
Qed.

Lemma apply_effects_room es s :
  Z.of_nat (length (sq (m_ring s)) + sum_list (map sqes es)) <= SQ_ENTRIES ->
  exists s', apply_effects es s = (s', true) /\
    length (sq (m_ring s')) = (length (sq (m_ring s)) + sum_list (map sqes es))%nat /\
    executed (hist s') = executed (hist s).
Proof.
  revert s. induction es as [|e es IH]; intros s Hl; [exists s; cbn; auto with lia|].
  change (sum_list (map sqes (e :: es))) with (sqes e + sum_list (map sqes es))%nat in *.
  assert (exists s1, apply_effect e s = Some s1 /\
    length (sq (m_ring s1)) = (length (sq (m_ring s)) + sqes e)%nat /\
    executed (hist s1) = executed (hist s)) as (s1 & E1 & Hl1 & Hh1).
  { destruct e as [op|op|op|op]; cbn [apply_effect sqes] in *.
    - destruct (get_sqe_room (OpData op) s) as (s1 & E1 & Hl1 & Hh1); [lia|].
      exists s1. by rewrite Hl1, Hh1, Nat.add_1_r.
    - destruct (get_sqe_room (OpData op) s) as (s1 & E1 & Hl1 & Hh1); [lia|].
      destruct (get_sqe_room NullData s1) as (s2 & E2 & Hl2 & Hh2); [lia|].
      exists s2. unfold try_submit_io_timeout. rewrite E1. cbn. rewrite E2, Hl2, Hl1, Hh2, Hh1.
      split; [done|]. split; [lia|done].
    - eexists. split; [done|]. by rewrite Nat.add_0_r.
    - eexists. split; [done|]. rewrite Nat.add_0_r. unfold schedule_remote, schedule_remote_push.
      by destruct (bool_decide _). }
  cbn [apply_effects]. rewrite E1. destruct (IH s1) as (s' & E' & Hl' & Hh'); [lia|].
  exists s'. rewrite E', Hl', Hh', Hl1, Hh1. split; [done|]. split; [lia|done].
Qed.

Lemma execute_room behave op s :
  Z.of_nat (length (sq (m_ring s)) + cost behave op) <= SQ_ENTRIES ->
  exists s', execute op (behave op) s = (s', true) /\
    (length (sq (m_ring s')) <= length (sq (m_ring s)) + cost behave op)%nat /\
    executed (hist s') = executed (hist s) ++ [op].
Proof.
  unfold cost. intros Hl. unfold execute. set (s1 := set_hist _ s).
  change (ops s1) with (ops s). change (sq (m_ring s)) with (sq (m_ring s1)) in *.
  change (executed (hist s) ++ [op]) with (executed (hist s1)).
  destruct (m_callback <$> ops s !! op) as [[[]|]|].
  - unfold try_submit_io. destruct (get_sqe_room (OpData op) s1) as (s2 & -> & Hl2 & Hh2); [lia|].
    eexists. split; [done|]. cbn [m_ring set_ops hist]. rewrite Hl2, Hh2. split; [lia|done].
  - destruct (apply_effects_room (behave op) s1) as (s2 & -> & Hl2 & Hh2); [lia|].
    exists s2. rewrite Hl2, Hh2. split; [done|]. split; [lia|done].
  - destruct (apply_effects_room (behave op) s1) as (s2 & -> & Hl2 & Hh2); [lia|].
    exists s2. rewrite Hl2, Hh2. split; [done|]. split; [lia|done].
  - destruct (apply_effects_room (behave op) s1) as (s2 & -> & Hl2 & Hh2); [lia|].
    exists s2. rewrite Hl2, Hh2. split; [done|]. split; [lia|done].
Qed.

Lemma execute_list_room behave l s :
  Z.of_nat (length (sq (m_ring s)) + sum_list (map (cost behave) l)) <= SQ_ENTRIES ->
  pc (execute_list behave l s) = AtLoop /\
  executed (hist (execute_list behave l s)) = executed (hist s) ++ l.
Proof.
  revert s. induction l as [|op l IH]; intros s Hl; [by rewrite app_nil_r|].
  change (sum_list (map (cost behave) (op :: l))) with (cost behave op + sum_list (map (cost behave) l))%nat in Hl.
  cbn [execute_list]. destruct (execute_room behave op s) as (s1 & -> & Hl1 & Hh1); [lia|].
  destruct (IH s1) as [Hp He]; [lia|]. split; [done|]. by rewrite He, Hh1, <- (assoc_L (++)).
Qed.

(** One round of the loop. What the loop does after it has been woken up, as the code
    has it, is a run of the step relation. As long as the operations to be executed fill in
    no more entries than the submission queue has left, the thread survives and executes,
    in this order, what was in the local queue, the operations that have completed, and
    those of the remote queue; what their callbacks schedule is left for a later round. *)
Theorem loop_round behave s : pc s = AtCompletions [] ->
  let l := m_local_queue s ++ io_ops (cq (m_ring s)) ++ m_remote_queue s in
  rtc loop_step s (loop_body behave s) /\
  (Z.of_nat (length (sq (m_ring s)) + sum_list (map (cost behave) l)) <= SQ_ENTRIES ->
     pc (loop_body behave s) = AtLoop /\
     executed (hist (loop_body behave s)) = executed (hist s) ++ l).
Proof.
  intros Hp l. unfold loop_body, get_completion_queue_operation_bases, execute_pending_local.
  pose proof (process_cqes_steps s [] Hp) as Hs. pose proof (process_cqes_spec (cq (m_ring s)) s []) as Hspec.
  destruct (process_cqes (cq (m_ring s)) s []) as [s1 b1]. destruct Hs as [Hs Hc].
  destruct Hspec as (-> & Hh & Hr & Hl & Hq). cbn [app] in *.
  set (s2 := get_remote_queue_operation_bases (schedule_local (io_ops (cq (m_ring s))) s1)).
  assert (m_local_queue s2 = l) as El by (cbn; by rewrite Hl, Hr, <- (assoc_L (++))).
  split.
  - etrans; [exact Hs|]. eapply rtc_l; [by apply (step_cqes_done (set_pc (AtCompletions _) s1))|].
    eapply rtc_l; [by apply step_remote|]. eapply rtc_l; [by apply step_pending|].
    etrans; [|apply execute_list_steps]. done.
  - intros Hroom. rewrite El. destruct (execute_list_room behave l (set_local [] s2)) as [Hp' He'].
    + cbn. by rewrite Hq.
    + split; [done|]. rewrite He'. cbn. by rewrite Hh.
Qed.

(** ** Stopping *)

Lemma never_stopped s s' : step s s' -> token s = None /\ pc s <> Stopped ->
  token s' = None /\ pc s' <> Stopped.
Proof.
  assert (forall es s, token (fst (apply_effects es s)) = token s) as Heffs.
  { induction es as [|e es IH]; intros s0; [done|]. cbn [apply_effects].
    destruct (apply_effect e s0) as [s1|] eqn:E; [|done]. rewrite IH. clear IH.
    unfold apply_effect, try_submit_io, try_submit_io_timeout, get_sqe in E. destruct e.
    - destruct (_ <? _); [|done]. by injection E as <-.
    - destruct (_ <? _); [|done]. cbn in E. destruct (_ <? _); [|done]. by injection E as <-.
    - by injection E as <-.
    - injection E as <-. unfold schedule_remote, schedule_remote_push. by destruct (bool_decide _). }
  assert (forall op es s, token (fst (execute op es s)) = token s) as Hexec.
  { intros op es s0. unfold execute, try_submit_io, get_sqe. set (s1 := set_hist _ s0).
    change (token s0) with (token s1). destruct (m_callback <$> ops s1 !! op) as [[[]|]|]; try done.
    by destruct (_ <? _). }
  intros [H|H] [Ht Hp].
  - destruct H as [H|[H|H]].
    + destruct H as [s Hp' Ht'|s|s|s batch c rest|s|s|s|s op pending es|s]; try done; try congruence.
      * unfold alive, enter_wait, submit_eventfd_poll_sqe, try_submit_io, get_sqe.
        destruct (m_poll_sqe_submitted s); [done|]. by destruct (_ <? _).
      * unfold on_cqe. by destruct (cqe_data c).
      * unfold alive. cbn [token set_pc pc]. rewrite Hexec. by destruct (snd _).
    + by destruct H.
    + by destruct H.
  - destruct H; [done| |congruence]. unfold request_stop. by destruct (_ && _).
Qed.

(** [request_stop] stops nothing. [run()] does not return, whatever is requested; and
    the loop takes every step with the flag set as it does with the flag clear. *)
Theorem request_stop_ignored o s :
  rtc step (io_service_init o None) s ->
  pc s <> Stopped /\
  forall b s', loop_step s s' -> loop_step (set_stop b s) (set_stop b s').
Proof.
  intros Hs. split.
  - remember (io_service_init o None) as s0 eqn:E0.
    assert (token s0 = None /\ pc s0 <> Stopped) as H0 by by subst. clear E0.
    revert H0. induction Hs; [by intros []|]. intros H0. apply IHHs. by eapply never_stopped.
  - clear Hs. intros b s'. destruct 1 as [s Hp Ht|s Hp Ht|s Hp Hc|s batch c rest Hp Hc|s batch Hp Hc|s Hp|s Hp
      |s op pending es Hp|s Hp].
    + by apply step_stop.
    + replace (set_stop b (alive _ _ (enter_wait s))) with (alive AtWait (Crashed []) (enter_wait (set_stop b s)))
        by (by rewrite (enter_wait_frame _)). by apply step_enter.
    + by apply step_wake.
    + pose proof (step_cqe (set_stop b s) batch c rest Hp Hc) as H. rewrite (on_cqe_frame _) in H.
      by destruct (on_cqe c (pop_cqe rest s) batch).
    + by apply (step_cqes_done (set_stop b s)).
    + by apply (step_remote (set_stop b s)).
    + by apply (step_pending (set_stop b s)).
    + replace (set_stop b (alive _ _ (execute op es s)))
        with (alive (AtExecute pending) (Crashed pending) (execute op es (set_stop b s)))
        by (by rewrite (execute_frame _)). by apply step_execute.
    + by apply (step_executed (set_stop b s)).
Qed.

(** ** Scheduling before [run] *)

(** Only the operation [op] in the local queue, and nothing that could wake the loop. *)
Definition starved (op : nat) (s : state) : Prop :=
  m_local_queue s = [op] /\ executed (hist s) = [] /\ eventfd s = 0 /\ writers s = 0%nat /\
  Forall (eq EventfdData) (sq (m_ring s)) /\ Forall (eq EventfdData) (inflight (m_ring s)) /\
  cq (m_ring s) = [] /\ (pc s = AtLoop \/ pc s = AtWait \/ pc s = Stopped \/ pc s = Crashed []).

Lemma starved_step op s s' : inner_step s s' -> starved op s -> starved op s'.
Proof.
  intros H (Hl & He & Hfd & Hw & Hsq & Hin & Hcq & Hp).
  destruct H as [H|[H|H]].
  - destruct H as [s Hp' Ht|s Hp' Ht|s Hp' Hc|s batch c rest Hp' Hc|s batch Hp' Hc|s Hp'|s Hp'
      |s op' pending es Hp'|s Hp']; 
      try (rewrite Hp' in Hp; by destruct Hp as [?|[?|[?|?]]]).
    + by split_and!; auto.
    + unfold alive, enter_wait, submit_eventfd_poll_sqe, try_submit_io, get_sqe.
      destruct (m_poll_sqe_submitted s); [|destruct (_ <? _)]; split_and!; try done; cbn; auto.
      * by apply Forall_app.
      * apply Forall_app. split; [done|]. apply Forall_app. by auto.
  - destruct H as [s n Hn]. congruence.
  - destruct H as [s i d r fl Hi Hd]. assert (d = EventfdData) as -> by (by rewrite Forall_lookup in Hin; rewrite (Hin _ _ Hi)).
    specialize (Hd eq_refl). lia.
Qed.

(** An operation scheduled from the thread of the service before [run] - [schedule_impl]
    puts it into the local queue - is not executed: the loop waits for a completion first,
    and with nothing submitted and nothing scheduled by another thread none comes. *)
Theorem local_before_run_starves o t op s :
  rtc inner_step (schedule_impl true (Some op) (io_service_init o t)) s ->
  executed (hist s) = [] /\ m_local_queue s = [op].
Proof.
  remember (schedule_impl true (Some op) (io_service_init o t)) as s0 eqn:E0.
  assert (starved op s0) as H0 by (subst; repeat split; auto).
  clear E0. intros Hs. assert (starved op s) as (? & ? & _) by (induction Hs; eauto using starved_step).
  done.
Qed.

(** ** Timers *)

(** [schedule(duration)]: the first time the operation is executed it submits its timeout
    and changes its callback; when the timeout completes it is executed again, and the
    coroutine gets control. *)
Lemma schedule_timer op b es es' s r fl rest batch :
  ops s !! op = Some (mk_operation b (OnScheduleRemoteComplete true)) ->
  Z.of_nat (length (sq (m_ring s))) < SQ_ENTRIES ->
  exists s1, execute op es s = (s1, true) /\ sq (m_ring s1) = sq (m_ring s) ++ [OpData op] /\
    executed (hist s1) = executed (hist s) ++ [op] /\
    let '(s2, batch2) := on_cqe (mk_completion (OpData op) r fl) (pop_cqe rest s1) batch in
    batch2 = batch ++ [op] /\
    execute op es' s2 = apply_effects es'
      (set_hist (mk_history (entered (hist s2)) (executed (hist s2) ++ [op])
         (scheduled (hist s2)) (drained (hist s2))) s2).
Proof.
  intros Ho Hroom. unfold execute at 1. set (s0 := set_hist _ s).
  change (ops s0) with (ops s). rewrite Ho. cbn [fmap option_fmap option_map m_callback].
  unfold try_submit_io, get_sqe. change (m_ring s0) with (m_ring s). rewrite (proj2 (Z.ltb_lt _ _) Hroom).
  eexists. split; [reflexivity|]. split; [done|]. split; [done|].
  cbn [on_cqe cqe_data fst snd]. split; [done|]. unfold execute.
  cbn [ops set_ops set_hist pop_cqe set_ring]. change (ops s0) with (ops s).
  by rewrite !lookup_alter_eq, Ho.
Qed.

(** ** The witnesses *)

(** The loop waits; then another thread schedules the operation 7. *)
Definition waiting_state : state :=
  fst (enter_wait (io_service_init ∅ None)).
Definition woken_state : state :=
  let '(need, s) := schedule_remote_push 7 (set_pc AtWait waiting_state) in
  set_writers (writers s + Nat.b2n need)%nat s.

Lemma woken_reachable : reachable woken_state.
Proof.
  exists ∅, None. eapply rtc_l; [left; left; apply step_enter; [reflexivity|discriminate]|].
  apply rtc_once. right. apply (step_push _ 7).
Qed.

Lemma executed_in_order_witness :
  scheduled (hist woken_state) = [] ++ [7%nat] /\ reachable woken_state.
Proof.
  pose proof (executed_in_order woken_state woken_reachable) as (_ & H & _).
  split; [exact H|exact woken_reachable].
Defined.

Lemma no_lost_wakeup_witness :
  exists s', rtc inner_step woken_state s' /\ pc s' = AtPending /\ m_remote_queue s' = [] /\
    drained (hist s') = [7%nat].
Proof.
  destruct (no_lost_wakeup woken_state woken_reachable) as (_ & _ & _ & s' & H1 & H2 & H3 & H4);
    [reflexivity|discriminate|].
  exists s'. split; [exact H1|]. split; [exact H2|]. split; [exact H3|exact H4].
Defined.

(** Three operations: 1 in the local queue, 2 complete, 3 in the remote queue; each submits
    again. *)
Lemma loop_round_witness :
  let s := mk_state (mk_ring [] [] [mk_completion (OpData 2) 5 0; mk_completion EventfdData 1 0])
    [1%nat] false 1 true [3%nat] ∅ None 0 (AtCompletions [])
    (mk_history [1%nat] [] [3%nat] []) in
  let s' := loop_body (fun op => [SubmitIoTimeout op]) s in
  rtc loop_step s s' /\ pc s' = AtLoop /\ executed (hist s') = [1; 2; 3]%nat.
Proof.
  cbv zeta. set (s := mk_state _ _ _ _ _ _ _ _ _ _ _).
  destruct (loop_round (fun op => [SubmitIoTimeout op]) s) as [H1 H2]; [reflexivity|].
  split; [exact H1|]. apply H2. vm_compute. discriminate.
Defined.

Lemma request_stop_ignored_witness :
  let s := set_writers 1 (set_stop true (io_service_init ∅ None)) in
  pc s <> Stopped /\ loop_step (set_stop false s) (set_stop false (alive AtWait (Crashed []) (enter_wait s))).
Proof.
  cbv zeta. destruct (request_stop_ignored ∅ (set_writers 1 (set_stop true (io_service_init ∅ None)))) as [H1 H2].
  - apply rtc_once. right. exact (step_request_stop (io_service_init ∅ None) false).
  - split; [exact H1|]. apply H2. apply step_enter; [reflexivity|discriminate].
Defined.

Lemma local_before_run_starves_witness :
  let s := schedule_impl true (Some 4%nat) (io_service_init ∅ None) in
  let s' := alive AtWait (Crashed []) (enter_wait s) in
  executed (hist s') = [] /\ m_local_queue s' = [4%nat].
Proof.
  cbv zeta. apply (local_before_run_starves ∅ None 4). apply rtc_once. left.
  apply step_enter; [reflexivity|discriminate].
Defined.
