(* ===== verification/ThreadService.v ===== *)
(** * The service of a thread

    Models [thread_io_service] of [io_service.h] of [src/include/xynet]: the variable of each
    thread that says to which service the operations made on the thread belong. The
    constructor of a service, its destructor and [run] change it; an operation takes it when
    it is made ([detail/async_operation.h]) and submits to it when it is awaited. *)

From S2P Require Import Prelude.

(** ** The code *)

(** The variable, what the scope guards of the calls of [run] in progress will restore, the
    innermost first, and what the operations made so far have taken. *)
Record thread := mk_thread {
  thread_io_service : option nat; old_io_services : list (option nat); taken : list (option nat) }.

Definition thread_init : thread := mk_thread None [] [].

Definition set_service (s : option nat) (t : thread) : thread := mk_thread s (old_io_services t) (taken t).

(** [io_service()]: a second service on a thread is not entered. *)
Definition io_service (s : nat) (t : thread) : thread :=
  match thread_io_service t with None => set_service (Some s) t | Some _ => t end.

(** [~io_service()], of any service *)
Definition io_service_destroy (t : thread) : thread := set_service None t.

(** The beginning and the end of [run]. *)
Definition enter_run (s : nat) (t : thread) : thread :=
  mk_thread (Some s) (thread_io_service t :: old_io_services t) (taken t).
Definition leave_run (t : thread) : thread :=
  match old_io_services t with
  | old :: olds => mk_thread old olds (taken t)
  | [] => t
  end.

Definition get_thread_io_service (t : thread) : option nat := thread_io_service t.
Definition is_same_io_service_thread (s : nat) (t : thread) : bool := bool_decide (Some s = thread_io_service t).

(** [async_operation_base{get_thread_io_service()}] *)
Definition make_operation (t : thread) : thread :=
  mk_thread (thread_io_service t) (old_io_services t) (taken t ++ [get_thread_io_service t]).

(** ** What happens on a thread *)

Inductive event := Construct (s : nat) | Destroy (s : nat) | EnterRun (s : nat) | LeaveRun | MakeOperation.

Definition execute (e : event) (t : thread) : thread :=
  match e with
  | Construct s => io_service s t
  | Destroy _ => io_service_destroy t
  | EnterRun s => enter_run s t
  | LeaveRun => leave_run t
  | MakeOperation => make_operation t
  end.

Definition executes (es : list event) (t : thread) : thread := foldl (fun t e => execute e t) t es.

(** ** What it should be *)

(** The service that lives on the thread, the calls of [run] in progress, and the service
    that each operation should belong to: that of the innermost [run], or else the one that
    lives here. *)
Record intended := mk_intended { own : option nat; runs : list nat; belong : list (option nat) }.

Definition current (g : intended) : option nat := match runs g with s :: _ => Some s | [] => own g end.

(** The events, as long as at most one service lives on the thread, and it is constructed and
    destroyed outside of [run]. *)
Definition intend (e : event) (g : intended) : option intended :=
  match e, own g, runs g with
  | Construct s, None, [] => Some (mk_intended (Some s) [] (belong g))
  | Destroy s, Some s', [] => if decide (s = s') then Some (mk_intended None [] (belong g)) else None
  | EnterRun s, o, ss => Some (mk_intended o (s :: ss) (belong g))
  | LeaveRun, o, _ :: ss => Some (mk_intended o ss (belong g))
  | MakeOperation, o, ss => Some (mk_intended o ss (belong g ++ [current g]))
  | _, _, _ => None
  end.

Fixpoint intends (es : list event) (g : intended) : option intended :=
  match es with
  | [] => Some g
  | e :: es => g ← intend e g; intends es g
  end.

Definition intended_init : intended := mk_intended None [] [].

(** ** The code does so *)

(** The variable and what will be restored are the calls of [run] and, last, the service that
    lives here. *)
Record thread_ok (t : thread) (g : intended) : Prop := {
  ok_services : thread_io_service t :: old_io_services t = (Some <$> runs g) ++ [own g];
  ok_taken : taken t = belong g;
}.

Lemma ok_current t g : thread_ok t g -> thread_io_service t = current g.
Proof. intros [Hs _]. unfold current. destruct (runs g); by injection Hs. Qed.

Lemma execute_ok e t g g' : intend e g = Some g' -> thread_ok t g -> thread_ok (execute e t) g'.
Proof.
  intros He Hok. pose proof (ok_current t g Hok) as Hc. destruct Hok as [Hs Ht].
  destruct t as [v olds tk], g as [o ss bl]. unfold intend, current in *. cbn in *. subst v tk.
  destruct e as [s|s|s| |], o as [o|], ss as [|s' ss]; try done; cbn in *;
    try (destruct (decide (s = o)); [|done]); injection He as <-; injection Hs as ->; split; try done; by destruct ss.
Qed.

Lemma executes_ok es : forall t g g', intends es g = Some g' -> thread_ok t g -> thread_ok (executes es t) g'.
Proof.
  induction es as [|e es IH]; intros t g g'; cbn [intends executes foldl]; [by intros [= <-]|].
  intros He Hok. apply bind_Some in He as (g1 & H1 & H2). by eapply IH, execute_ok.
Qed.

Lemma executes_app es es' t : executes (es ++ es') t = executes es' (executes es t).
Proof. apply foldl_app. Qed.

(** C7: the service of a thread. As long as at most one service lives on a thread, constructed
    and destroyed while no [run] is in progress there: an operation belongs to the service
    whose [run] is the innermost in progress, whatever thread that service lives on, or else
    to the one that lives on the thread; [is_same_io_service_thread] says which it is; and
    [run] leaves the thread as it was. But the destructor of a second service takes the
    first one from the thread, though it lives: operations then belong to none, and so do
    those on a thread whose service was constructed during a [run] that has ended. *)
Theorem thread_service es g : intends es intended_init = Some g ->
  let t := executes es thread_init in
  thread_io_service t = current g /\ taken t = belong g /\
  (forall s, is_same_io_service_thread s t = true <-> current g = Some s) /\
  (forall s, leave_run (enter_run s t) = t) /\
  (forall a b, own g = Some a -> runs g = [] ->
     get_thread_io_service (executes [Construct b; Destroy b] t) = None) /\
  (forall a b, own g = None -> runs g = [] ->
     get_thread_io_service (executes [EnterRun a; Construct b; LeaveRun] t) = None).
Proof.
  intros He. cbv zeta. assert (thread_ok thread_init intended_init) as H0 by by split.
  pose proof (executes_ok es _ _ _ He H0) as Hok. set (t := executes es thread_init) in *.
  pose proof (ok_current t g Hok) as Hc. split_and!; [done|apply Hok| | |done|].
  - intros s. unfold is_same_io_service_thread. rewrite bool_decide_eq_true, Hc. split; congruence.
  - intros s. by destruct t.
  - intros a b Ho Hr. unfold current in Hc. rewrite Hr, Ho in Hc. cbn. by rewrite Hc.
Qed.

(** A service lives on the thread, whose loop makes an operation; then a second service comes
    and goes. *)
Lemma thread_service_witness :
  let es := [Construct 1; EnterRun 1; MakeOperation; LeaveRun; MakeOperation] in
  taken (executes es thread_init) = [Some 1; Some 1] /\
  get_thread_io_service (executes [Construct 2; Destroy 2] (executes es thread_init)) = None.
Proof.
  cbv zeta. destruct (thread_service [Construct 1; EnterRun 1; MakeOperation; LeaveRun; MakeOperation]
    (mk_intended (Some 1) [] [Some 1; Some 1]) eq_refl) as (_ & H1 & _ & _ & H2 & _).
  split; [exact H1|]. exact (H2 1 2 eq_refl eq_refl).
Defined.
