(* ===== verification/Delivery.v ===== *)
(** * Operations on the event loop

    Puts [AsyncOp] and [IoService] together: an operation of the library submitted to the
    event loop of [src/include/xynet/io_service.h], whose completions the loop delivers to
    the callback of [src/include/xynet/async_operation_base.h], while other operations, other
    threads and the kernel do what they like. What the operation sees is what [drive] gives
    it: the theorems about [drive] - of receiving, sending, accepting, closing - are theorems
    about operations on the loop. *)

From stdpp Require Import gmap relations.
From S2P Require Import Prelude Errors Buffer AsyncOp Transfer IoService.
Local Open Scope Z_scope.

Section delivery.
(** The operation by its address. *)
Context (id : nat).

(** ** Where the operation is *)

Definition count_data (l : list user_data) : nat := length (filter (fun d => d = OpData id) l).
Definition count_op (l : list nat) : nat := length (filter (fun o => o = id) l).

Definition batch_of (p : location) : list nat := match p with AtCompletions b => b | _ => [] end.

(** The queues of the service, and what it has taken out of them and is still to handle. *)
Definition queued (s : state) : list nat :=
  batch_of (pc s) ++ pending_of (pc s) ++ m_local_queue s ++ m_remote_queue s.

(** The submissions not completed, the completions not collected, how often the operation
    is queued, and its base. *)
Record profile := mk_profile {
  submissions : nat; uncollected : list completion; queueings : nat; value : option operation }.

Definition profile_of (s : state) : profile :=
  mk_profile (count_data (sq (m_ring s) ++ inflight (m_ring s)))
    (filter (fun c => cqe_data c = OpData id) (cq (m_ring s)))
    (count_op (queued s)) (ops s !! id).

(** ** What happens beside it *)

Definition effect_op (e : effect) : nat :=
  match e with SubmitIo op | SubmitIoTimeout op | ScheduleLocal op | ScheduleRemote op => op end.

(** Steps of the service that neither execute the operation nor submit, schedule or complete
    it. *)
Inductive background : state -> state -> Prop :=
| bg_loop s s' : loop_step s s' -> (forall op pending, pc s <> AtExecute (op :: pending)) -> background s s'
| bg_execute s op pending es : pc s = AtExecute (op :: pending) -> op <> id ->
    Forall (fun e => effect_op e <> id) es ->
    background s (alive (AtExecute pending) (Crashed pending) (execute op es s))
| bg_push s op : op <> id -> background s
    (let '(need, s) := schedule_remote_push op s in set_writers (writers s + Nat.b2n need)%nat s)
| bg_request_stop s spurious : background s
    (let '(need, s) := request_stop spurious s in set_writers (writers s + Nat.b2n need)%nat s)
| bg_token s : token s = Some false -> background s (set_token (Some true) s)
| bg_writer s s' : writer_step s s' -> background s s'
| bg_kernel s i d r fl : inflight (m_ring s) !! i = Some d -> (d = EventfdData -> 0 < eventfd s) ->
    d <> OpData id ->
    background s (set_ring (mk_ring (sq (m_ring s)) (delete i (inflight (m_ring s)))
                               (cq (m_ring s) ++ [mk_completion d r fl])) s).

Lemma background_step s s' : background s s' -> step s s'.
Proof.
  destruct 1 as [s s' H _|s op pending es Hp _ _|s op _|s spurious|s Ht|s s' H|s i d r fl Hi He _].
  - left. by left.
  - left. left. by apply step_execute.
  - right. apply step_push.
  - right. apply step_request_stop.
  - right. by apply step_token.
  - left. right. by left.
  - left. right. right. by apply step_complete.
Qed.

Lemma count_data_app l k : count_data (l ++ k) = (count_data l + count_data k)%nat.
Proof. unfold count_data. by rewrite list.filter_app, length_app. Qed.
Lemma count_op_app l k : count_op (l ++ k) = (count_op l + count_op k)%nat.
Proof. unfold count_op. by rewrite list.filter_app, length_app. Qed.
Lemma count_data_other d : d <> OpData id -> count_data [d] = 0%nat.
Proof. intros Hd. unfold count_data. by rewrite list.filter_cons, decide_False. Qed.
Lemma count_op_other o : o <> id -> count_op [o] = 0%nat.
Proof. intros Ho. unfold count_op. by rewrite list.filter_cons, decide_False. Qed.
Lemma count_data_self : count_data [OpData id] = 1%nat.
Proof. unfold count_data. by rewrite list.filter_cons, decide_True. Qed.
Lemma count_op_self : count_op [id] = 1%nat.
Proof. unfold count_op. by rewrite list.filter_cons, decide_True. Qed.

Lemma count_data_delete l i d : l !! i = Some d ->
  count_data l = (count_data [d] + count_data (delete i l))%nat.
Proof.
  intros Hi. rewrite (delete_take_drop l i), <- (take_drop_middle l i d Hi) at 1.
  rewrite !count_data_app. change (d :: drop (S i) l) with ([d] ++ drop (S i) l). rewrite count_data_app. lia.
Qed.

Lemma get_sqe_profile d s s' : get_sqe d s = Some s' ->
  profile_of s' = mk_profile (submissions (profile_of s) + count_data [d]) (uncollected (profile_of s))
    (queueings (profile_of s)) (value (profile_of s)).
Proof.
  unfold get_sqe. destruct (_ <? _); [|done]. intros [= <-]. unfold profile_of.
  cbn [m_ring set_ring sq inflight cq submissions uncollected queueings value]. f_equal.
  rewrite !count_data_app. lia.
Qed.

Lemma apply_effect_profile e s s' : effect_op e <> id -> apply_effect e s = Some s' ->
  profile_of s' = profile_of s /\ pc s' = pc s.
Proof.
  assert (forall d s s', d <> OpData id -> get_sqe d s = Some s' -> profile_of s' = profile_of s /\ pc s' = pc s) as Hg.
  { clear. intros d s s' Hd E. split.
    - rewrite (get_sqe_profile d s s' E), (count_data_other d Hd), Nat.add_0_r. done.
    - unfold get_sqe in E. destruct (_ <? _); [|done]. by injection E as <-. }
  intros He. destruct e as [op|op|op|op]; cbn [apply_effect effect_op] in *.
  - apply Hg. congruence.
  - unfold try_submit_io_timeout. intros E. apply bind_Some in E as (s1 & E1 & E2).
    apply Hg in E1 as [H1 H2]; [|congruence]. apply Hg in E2 as [-> ->]; [|done]. done.
  - intros [= <-]. split; [|done]. unfold profile_of, queued, schedule_local.
    cbn [m_ring set_hist set_local pc m_local_queue m_remote_queue ops]. f_equal.
    rewrite !count_op_app, (count_op_other op He). lia.
  - intros [= <-]. unfold schedule_remote, schedule_remote_push.
    assert (profile_of (set_remote (m_remote_queue s ++ [op]) s) = profile_of s) as Hp.
    { unfold profile_of, queued. cbn [m_ring set_remote pc m_local_queue m_remote_queue ops]. f_equal.
      rewrite !count_op_app, (count_op_other op He). lia. }
    by destruct (bool_decide _).
Qed.

Lemma apply_effects_profile es s : Forall (fun e => effect_op e <> id) es ->
  profile_of (fst (apply_effects es s)) = profile_of s /\ pc (fst (apply_effects es s)) = pc s.
Proof.
  intros Hes. revert s. induction Hes as [|e es He _ IH]; intros s; [done|]. cbn [apply_effects].
  destruct (apply_effect e s) as [s'|] eqn:E; [|done].
  apply apply_effect_profile in E as [<- <-]; [apply IH|done].
Qed.

(** Executing another operation. *)
Lemma execute_profile s op pending es : pc s = AtExecute (op :: pending) -> op <> id ->
  Forall (fun e => effect_op e <> id) es ->
  profile_of (alive (AtExecute pending) (Crashed pending) (execute op es s)) = profile_of s.
Proof.
  intros Hp Hop Hes. unfold execute. set (s1 := set_hist _ s).
  assert (forall s2 b, profile_of s2 = profile_of s -> pc s2 = pc s ->
    profile_of (alive (AtExecute pending) (Crashed pending) (s2, b)) = profile_of s) as Hfin.
  { intros s2 b Es Ep. rewrite <- Es. unfold alive, profile_of, queued. cbn [fst snd m_ring set_pc pc m_local_queue m_remote_queue ops].
    rewrite Ep, Hp. f_equal. rewrite !count_op_app. cbn [batch_of pending_of].
    change (op :: pending) with ([op] ++ pending). rewrite count_op_app, (count_op_other op Hop). by destruct b. }
  assert (profile_of (fst (apply_effects es s1)) = profile_of s /\ pc (fst (apply_effects es s1)) = pc s) as [E1 E2]
    by (by destruct (apply_effects_profile es s1 Hes) as [-> ->]).
  destruct (apply_effects es s1) as [s2 b2] eqn:Ea. cbn [fst] in *.
  destruct (m_callback <$> ops s1 !! op) as [[[]|]|]; try by apply Hfin.
  unfold try_submit_io. destruct (get_sqe (OpData op) s1) as [s3|] eqn:E; [|by apply Hfin].
  apply Hfin.
  - pose proof (get_sqe_profile (OpData op) s1 s3 E) as Eg. rewrite count_data_other, Nat.add_0_r in Eg by congruence.
    assert (profile_of s3 = profile_of s) as <- by (by rewrite Eg).
    unfold profile_of, queued. cbn [m_ring set_ops pc m_local_queue m_remote_queue ops]. f_equal.
    by rewrite lookup_alter_ne.
  - unfold get_sqe in E. destruct (_ <? _); [|done]. by injection E as <-.
Qed.

(** A completion of the operation is collected: its value is stored, and it is queued. *)
Definition collect (p p' : profile) : Prop :=
  exists c cs, uncollected p = c :: cs /\
    p' = mk_profile (submissions p) cs (S (queueings p))
           ((fun o => mk_operation (set_value (cqe_res c) (cqe_flags c) (op_base_of o)) (m_callback o)) <$> value p).

Lemma cqe_profile s batch c rest : pc s = AtCompletions batch -> cq (m_ring s) = c :: rest ->
  let s' := let '(s, batch) := on_cqe c (pop_cqe rest s) batch in set_pc (AtCompletions batch) s in
  profile_of s' = profile_of s \/ collect (profile_of s) (profile_of s').
Proof.
  intros Hp Hc. cbv zeta. unfold on_cqe.
  assert (cqe_data c <> OpData id -> filter (fun c => cqe_data c = OpData id) (cq (m_ring s)) =
    filter (fun c => cqe_data c = OpData id) rest) as Hother.
  { intros Hd. by rewrite Hc, list.filter_cons, decide_False. }
  unfold collect, profile_of, queued. rewrite Hp.
  destruct (cqe_data c) as [| |op] eqn:Hd;
    cbn [m_ring set_pc set_poll set_ops pop_cqe set_ring disable_remote_queue_eventfd set_eventfd sq inflight cq
      ops m_local_queue m_remote_queue pc batch_of pending_of submissions uncollected queueings value].
  - left. f_equal. by rewrite Hother.
  - left. f_equal. by rewrite Hother.
  - destruct (decide (op = id)) as [->|Hne].
    + right. exists c, (filter (fun c => cqe_data c = OpData id) rest).
      rewrite Hc, list.filter_cons, decide_True by done. split; [done|].
      rewrite !count_op_app, count_op_self, lookup_alter_eq. f_equal. lia.
    + left. rewrite Hother by congruence. rewrite !count_op_app, (count_op_other op Hne), lookup_alter_ne by done.
      f_equal. lia.
Qed.

(** The entry of the loop's wait hands what has been prepared to the kernel. *)
Lemma enter_wait_profile s : pc s = AtLoop ->
  profile_of (alive AtWait (Crashed []) (enter_wait s)) = profile_of s.
Proof.
  intros Hp. unfold enter_wait.
  assert (forall s1, profile_of s1 = profile_of s -> pc s1 = AtLoop ->
    profile_of (alive AtWait (Crashed []) (set_ring (mk_ring [] (inflight (m_ring s1) ++ sq (m_ring s1)) (cq (m_ring s1))) s1, true))
    = profile_of s) as Hsub.
  { intros s1 <- Hp1. unfold alive, profile_of, queued. rewrite Hp1. cbn [fst snd set_pc set_ring m_ring sq inflight cq pc ops m_local_queue m_remote_queue].
    rewrite !count_data_app. f_equal. cbn. lia. }
  destruct (m_poll_sqe_submitted s); [by apply Hsub|]. unfold submit_eventfd_poll_sqe, try_submit_io.
  destruct (get_sqe EventfdData s) as [s1|] eqn:E; cbn [fmap option_fmap option_map].
  - apply Hsub.
    + pose proof (get_sqe_profile _ _ _ E) as Eg. rewrite count_data_other, Nat.add_0_r in Eg by done.
      by destruct s1.
    + unfold get_sqe in E. destruct (_ <? _); [|done]. by injection E as <-.
  - unfold alive, profile_of, queued. cbn [fst snd set_pc m_ring pc ops m_local_queue m_remote_queue]. by rewrite Hp.
Qed.

(** Queues change places. *)
Local Ltac moved :=
  cbn [set_writers set_hist set_remote set_local set_pc schedule_local get_remote_queue_operation_bases m_ring
    m_local_queue m_remote_queue pc ops batch_of pending_of schedule_remote_push hist];
  f_equal; rewrite ?count_op_app; change (count_op []) with 0%nat; try lia.

(** What happens beside the operation leaves it where it is, or collects its completion. *)
Lemma background_profile s s' : background s s' ->
  profile_of s' = profile_of s \/ collect (profile_of s) (profile_of s').
Proof.
  destruct 1 as [s s' Hl Hne|s op pending es Hp Hop Hes|s op Hop|s spurious|s Ht|s s' Hw|s i d r fl Hi He Hd].
  - destruct Hl as [s Hp _|s Hp _|s Hp _|s batch c rest Hp Hc|s batch Hp Hc|s Hp|s Hp|s op pending es Hp|s Hp];
      try (left; unfold profile_of, queued; rewrite Hp; done).
    + left. by apply enter_wait_profile.
    + by apply (cqe_profile s batch c rest).
    + left. unfold profile_of, queued. rewrite Hp. moved.
    + left. unfold profile_of, queued. rewrite Hp. moved.
    + by destruct (Hne op pending).
  - left. by apply execute_profile.
  - left. unfold profile_of, queued. moved. rewrite (count_op_other op Hop). lia.
  - left. unfold request_stop. by destruct (_ && _).
  - by left.
  - left. by destruct Hw.
  - left. unfold profile_of, queued. cbn [m_ring set_ring sq inflight cq pc ops m_local_queue m_remote_queue].
    rewrite list.filter_app, !count_data_app, (count_data_delete _ i d Hi), (count_data_other d Hd).
    rewrite list.filter_cons, decide_False, list.filter_nil, app_nil_r by done. done.
Qed.

(** ** The operation on the loop *)

Context {T Sqe W : Type} `{Operation T Sqe W} (kernel : Sqe -> cqe -> W -> W).

(** Whether it is submitted with a timeout. *)
Context (timeout : bool).

Definition submit_effect : effect := if timeout then SubmitIoTimeout id else SubmitIo id.

(** The service, the operation and the world it refers to, the completions the kernel has
    posted for it, what its callback has seen, and whether it has resumed its coroutine. *)
Record system := mk_system {
  io : state; op : T; world : W; posted : list cqe; seen : list (Z * Z); resumed : bool }.

(** Its base is where the service stores values: [put_base] is what the callback finds,
    [get_base] what it leaves. The kernel carries out the submission when it completes it.
    A coroutine that is resumed does [es]. *)
Inductive system_step : system -> system -> Prop :=
| sys_background s s' o w ps vs r : background s s' ->
    system_step (mk_system s o w ps vs r) (mk_system s' o w ps vs r)
| sys_complete s o w ps vs r i c : inflight (m_ring s) !! i = Some (OpData id) ->
    system_step (mk_system s o w ps vs r)
      (mk_system (set_ring (mk_ring (sq (m_ring s)) (delete i (inflight (m_ring s)))
                    (cq (m_ring s) ++ [mk_completion (OpData id) (res c) (flags c)])) s)
         o (kernel (try_start o w) c w) (ps ++ [c]) vs r)
| sys_execute s o w ps vs r pending b cb es o' w' d : pc s = AtExecute (id :: pending) ->
    ops s !! id = Some (mk_operation b cb) -> Forall (fun e => effect_op e <> id) es ->
    on_completed (put_base b o) w = (o', w', d) ->
    system_step (mk_system s o w ps vs r)
      (mk_system
         (alive (AtExecute pending) (Crashed pending)
            (execute id (match d with SubmitAgain => [submit_effect] | ResumeAwaiting => es end)
               (set_ops (<[id := mk_operation (get_base o') cb]> (ops s)) s)))
         o' w' ps (vs ++ [(op_res b, op_flags b)]) (match d with ResumeAwaiting => true | SubmitAgain => false end)).

(** The operation and the world at the start. *)
Context (op0 : T) (w0 : W).

Definition values (ps : list cqe) : list (Z * Z) := (fun c => (res c, flags c)) <$> ps.

Definition at_rest (o : T) : option operation := Some (mk_operation (get_base o) OnCompleted).

(** Where it is: submitted; completed; collected and queued; resumed; or the submission queue
    was full when it was to be submitted again. *)
Inductive phase : system -> Prop :=
| submitted s o w ps : profile_of s = mk_profile 1 [] 0 (at_rest o) ->
    drive kernel ps op0 w0 = Waiting o w -> phase (mk_system s o w ps (values ps) false)
| completed s o w ps c :
    profile_of s = mk_profile 0 [mk_completion (OpData id) (res c) (flags c)] 0 (at_rest o) ->
    drive kernel ps op0 w0 = Waiting o w ->
    phase (mk_system s o (kernel (try_start o w) c w) (ps ++ [c]) (values ps) false)
| collected s o w ps c :
    profile_of s = mk_profile 0 [] 1 (Some (mk_operation (set_value (res c) (flags c) (get_base o)) OnCompleted)) ->
    drive kernel ps op0 w0 = Waiting o w ->
    phase (mk_system s o (kernel (try_start o w) c w) (ps ++ [c]) (values ps) false)
| finished s o w ps v : profile_of s = mk_profile 0 [] 0 v ->
    drive kernel ps op0 w0 = Resumed o w [] -> phase (mk_system s o w ps (values ps) true)
| dead s o w ps v l : profile_of s = mk_profile 0 [] 0 v -> pc s = Crashed l ->
    drive kernel ps op0 w0 = Waiting o w -> phase (mk_system s o w ps (values ps) false).

Lemma background_crashed s s' l : background s s' -> pc s = Crashed l -> pc s' = Crashed l.
Proof.
  destruct 1 as [s s' Hl _|s op' pending es Hp _ _|s op' _|s spurious|s _|s s' Hw|s i d r fl _ _ _]; intros Hc; try done.
  - destruct Hl; congruence.
  - congruence.
  - unfold request_stop. by destruct (_ && _).
  - by destruct Hw.
Qed.

Lemma phase_background s s' o w ps vs r : background s s' ->
  phase (mk_system s o w ps vs r) -> phase (mk_system s' o w ps vs r).
Proof.
  intros Hb Hp. pose proof (background_profile s s' Hb) as Hc.
  assert (forall n v, profile_of s = mk_profile n [] (queueings (profile_of s)) v -> profile_of s' = profile_of s) as Hsame.
  { intros n v E. destruct Hc as [|(c & cs & Eu & _)]; [done|]. by rewrite E in Eu. }
  inversion Hp as [s1 o1 w1 ps1 E Hd|s1 o1 w1 ps1 c E Hd|s1 o1 w1 ps1 c E Hd|s1 o1 w1 ps1 v E Hd|s1 o1 w1 ps1 v l E Hpc Hd];
    subst; try (assert (profile_of s' = profile_of s) as Es by (eapply Hsame; by rewrite E); rewrite <- Es in E).
  - by apply submitted.
  - destruct Hc as [Es|(c1 & cs & Eu & Ep)]; [rewrite <- Es in E; by apply completed|].
    rewrite E in Eu, Ep. cbn in Eu. injection Eu as <- <-. by apply collected.
  - by apply collected.
  - by eapply finished.
  - eapply dead; [exact E|by eapply background_crashed|done].
Qed.

(** The kernel completes what has been submitted to it. *)
Lemma phase_complete s o w ps vs r i c : inflight (m_ring s) !! i = Some (OpData id) ->
  phase (mk_system s o w ps vs r) ->
  phase (mk_system (set_ring (mk_ring (sq (m_ring s)) (delete i (inflight (m_ring s)))
                    (cq (m_ring s) ++ [mk_completion (OpData id) (res c) (flags c)])) s)
         o (kernel (try_start o w) c w) (ps ++ [c]) vs r).
Proof.
  intros Hi Hp. apply count_data_delete in Hi. rewrite count_data_self in Hi.
  assert (submissions (profile_of s) <> 0%nat) as Hn by (cbn; rewrite count_data_app; lia).
  inversion Hp as [s1 o1 w1 ps1 E Hd|s1 o1 w1 ps1 c1 E Hd|s1 o1 w1 ps1 c1 E Hd|s1 o1 w1 ps1 v E Hd|s1 o1 w1 ps1 v l E Hpc Hd];
    subst; try (by rewrite E in Hn).
  apply completed; [|done]. unfold profile_of in *. injection E as E1 E2 E3 E4.
  unfold queued in *. cbn [m_ring set_ring sq inflight cq pc ops m_local_queue m_remote_queue].
  rewrite list.filter_app, E2, E3, E4, !count_data_app. rewrite count_data_app in E1.
  rewrite list.filter_cons, decide_True, list.filter_nil by done. f_equal. lia.
Qed.

(** The loop takes the operation out of [pendingList]. *)
Lemma alive_profile s s' b pending n cs v : pc s = AtExecute (id :: pending) ->
  profile_of s' = mk_profile n cs 1 v -> pc s' = pc s ->
  profile_of (alive (AtExecute pending) (Crashed pending) (s', b)) = mk_profile n cs 0 v.
Proof.
  intros Hp E Ep. unfold profile_of, queued in *. injection E as E1 E2 E3 E4.
  unfold alive. cbn [fst snd m_ring set_pc pc m_local_queue m_remote_queue ops]. rewrite E1, E2, E4. f_equal.
  rewrite Ep, Hp in E3. cbn [batch_of pending_of] in E3. change (id :: pending) with ([id] ++ pending) in E3.
  rewrite !count_op_app, count_op_self in E3. destruct b; cbn [batch_of pending_of]; rewrite !count_op_app; cbn in *; lia.
Qed.

(** The callback's effects: those of the coroutine it resumes, or submitting again. *)
Lemma execute_self s pending b es d cs : pc s = AtExecute (id :: pending) ->
  ops s !! id = Some (mk_operation b OnCompleted) -> Forall (fun e => effect_op e <> id) es ->
  profile_of s = mk_profile 0 cs 1 (ops s !! id) ->
  let s' := alive (AtExecute pending) (Crashed pending)
    (execute id (match d with SubmitAgain => [submit_effect] | ResumeAwaiting => es end) s) in
  match d with
  | ResumeAwaiting => profile_of s' = mk_profile 0 cs 0 (ops s !! id)
  | SubmitAgain => profile_of s' = mk_profile 1 cs 0 (ops s !! id) \/
      profile_of s' = mk_profile 0 cs 0 (ops s !! id) /\ pc s' = Crashed pending
  end.
Proof.
  intros Hp Ho Hes E. cbv zeta. unfold execute. set (s1 := set_hist _ s).
  assert (m_callback <$> ops s1 !! id = Some OnCompleted) as -> by (cbn [s1 ops set_hist]; by rewrite Ho).
  assert (profile_of s1 = profile_of s) as E1 by done. assert (pc s1 = pc s) as Hp1 by done. clearbody s1.
  rewrite E in E1. destruct d.
  - destruct (apply_effects_profile es s1 Hes) as [H1 H2]. destruct (apply_effects es s1) as [s2 b2]. cbn [fst] in *.
    apply (alive_profile s); congruence.
  - assert (forall d s2, get_sqe d s1 = Some s2 -> pc s2 = pc s1) as Hpc.
    { intros d s2. unfold get_sqe. destruct (_ <? _); [|done]. by intros [= <-]. }
    assert (forall s2, get_sqe (OpData id) s1 = Some s2 -> profile_of s2 = mk_profile 1 cs 1 (ops s !! id)) as Hsub.
    { intros s2 E2. rewrite (get_sqe_profile _ _ _ E2), E1, count_data_self. done. }
    assert (profile_of (alive (AtExecute pending) (Crashed pending) (s1, false)) = mk_profile 0 cs 0 (ops s !! id)) as Hfail
      by (apply (alive_profile s); congruence).
    unfold submit_effect. destruct timeout; cbn [apply_effects apply_effect].
    + unfold try_submit_io_timeout. destruct (get_sqe (OpData id) s1) as [s2|] eqn:E2; [|by right].
      cbn [mbind option_bind]. destruct (get_sqe NullData s2) as [s3|] eqn:E3; [|by right].
      left. apply (alive_profile s); [done| |].
      * rewrite (get_sqe_profile _ _ _ E3), (Hsub s2 eq_refl), count_data_other by done. done.
      * rewrite <- Hp1, <- (Hpc _ _ E2). unfold get_sqe in E3. destruct (_ <? _); [|done]. by injection E3 as <-.
    + unfold try_submit_io. destruct (get_sqe (OpData id) s1) as [s2|] eqn:E2; [|by right].
      left. apply (alive_profile s); [done|by apply Hsub|]. by rewrite (Hpc _ _ E2).
Qed.

Lemma phase_execute s o w ps vs r pending b cb es o' w' d : pc s = AtExecute (id :: pending) ->
  ops s !! id = Some (mk_operation b cb) -> Forall (fun e => effect_op e <> id) es ->
  on_completed (put_base b o) w = (o', w', d) ->
  phase (mk_system s o w ps vs r) ->
  phase (mk_system
         (alive (AtExecute pending) (Crashed pending)
            (execute id (match d with SubmitAgain => [submit_effect] | ResumeAwaiting => es end)
               (set_ops (<[id := mk_operation (get_base o') cb]> (ops s)) s)))
         o' w' ps (vs ++ [(op_res b, op_flags b)]) (match d with ResumeAwaiting => true | SubmitAgain => false end)).
Proof.
  intros Hp Hb Hes Hcb Hph.
  assert (queueings (profile_of s) <> 0%nat) as Hn.
  { cbn [queueings profile_of]. unfold queued. rewrite Hp. cbn [batch_of pending_of]. change (id :: pending) with ([id] ++ pending).
    rewrite !count_op_app, count_op_self. lia. }
  inversion Hph as [s1 o1 w1 ps1 E Hd|s1 o1 w1 ps1 c1 E Hd|s1 o1 w1 ps1 c E Hd|s1 o1 w1 ps1 v E Hd|s1 o1 w1 ps1 v l E Hpc Hd];
    subst; try (by rewrite E in Hn).
  assert (ops s !! id = value (profile_of s)) as Hv by done. rewrite E in Hv. cbn in Hv. rewrite Hb in Hv. injection Hv as -> ->.
  set (s0 := set_ops _ s). assert (ops s0 !! id = at_rest o') as Hs0 by (unfold s0; cbn; by rewrite lookup_insert_eq).
  assert (profile_of s0 = mk_profile 0 [] 1 (ops s0 !! id)) as E0.
  { unfold profile_of, queued in *. cbn [s0 set_ops m_ring pc m_local_queue m_remote_queue ops]. injection E as -> -> -> _. done. }
  pose proof (execute_self s0 pending _ es d [] Hp Hs0 Hes E0) as Hx. cbv zeta in Hx.
  assert (drive kernel (ps1 ++ [c]) op0 w0 = match d with ResumeAwaiting => Resumed o' w' [] | SubmitAgain => Waiting o' w' end) as Hdr.
  { rewrite drive_app, Hd. cbn [drive]. unfold complete. rewrite Hcb. by destruct d. }
  change (values ps1 ++ [(op_res (set_value (res c) (flags c) (get_base o)), op_flags (set_value (res c) (flags c) (get_base o)))])
    with (values ps1 ++ values [c]).
  assert (values ps1 ++ values [c] = values (ps1 ++ [c])) as -> by (unfold values; by rewrite fmap_app).
  rewrite Hs0 in Hx. destruct d.
  - by eapply finished.
  - destruct Hx as [Hx|[Hx Hpc]]; [by apply submitted|by eapply dead].
Qed.

Lemma phase_step x y : system_step x y -> phase x -> phase y.
Proof. destruct 1; eauto using phase_background, phase_complete, phase_execute. Qed.

Lemma phase_rtc x y : rtc system_step x y -> phase x -> phase y.
Proof. induction 1; eauto using phase_step. Qed.

(** The submission, by a coroutine that awaits the operation. *)
Lemma phase_start s s' : profile_of s = mk_profile 0 [] 0 (at_rest op0) ->
  apply_effect submit_effect s = Some s' -> phase (mk_system s' op0 w0 [] [] false).
Proof.
  intros E Hs. apply (submitted s' op0 w0 []); [|done].
  unfold submit_effect in Hs. destruct timeout; cbn [apply_effect] in Hs.
  - unfold try_submit_io_timeout in Hs. apply bind_Some in Hs as (s1 & E1 & E2).
    rewrite (get_sqe_profile _ _ _ E2), (get_sqe_profile _ _ _ E1), E, count_data_self, count_data_other by done. done.
  - by rewrite (get_sqe_profile _ _ _ Hs), E, count_data_self.
Qed.

(** C8: the loop delivers. Once an operation has been submitted, whatever the loop, the
    other operations, other threads and the kernel do: its callback has seen, in order, the
    values of the completions the kernel posted for it but at most one, each once; the
    operation is where [drive] says it is after these, and resumes its coroutine when [drive]
    does. Until then it is in exactly one place - submitted, completed, or queued - unless
    the submission queue was full, and the loop has crashed on the null entry; and when its coroutine has been resumed, neither the ring
    nor any queue refers to it any more. *)
Theorem operation_delivery s s' x : profile_of s = mk_profile 0 [] 0 (at_rest op0) ->
  apply_effect submit_effect s = Some s' -> rtc system_step (mk_system s' op0 w0 [] [] false) x ->
  exists ps outstanding w, posted x = ps ++ outstanding /\ (length outstanding <= 1)%nat /\
    seen x = values ps /\
    drive kernel ps op0 w0 = (if resumed x then Resumed (op x) w [] else Waiting (op x) w) /\
    world x = foldl (fun w c => kernel (try_start (op x) w) c w) w outstanding /\
    let p := profile_of (io x) in
    let places := (submissions p + length (uncollected p) + queueings p)%nat in
    if resumed x then places = 0%nat /\ outstanding = []
    else places = 1%nat \/ (exists l, pc (io x) = Crashed l).
Proof.
  intros E Hs Hx. apply phase_rtc in Hx; [|by eapply phase_start].
  destruct Hx as [s1 o w ps E1 Hd|s1 o w ps c E1 Hd|s1 o w ps c E1 Hd|s1 o w ps v E1 Hd|s1 o w ps v l E1 Hpc Hd].
  - exists ps, [], w. cbn [posted seen resumed op world io]. rewrite app_nil_r, E1. split_and!; auto.
  - exists ps, [c], w. cbn [posted seen resumed op world io]. rewrite E1. split_and!; auto.
  - exists ps, [c], w. cbn [posted seen resumed op world io]. rewrite E1. split_and!; auto.
  - exists ps, [], w. cbn [posted seen resumed op world io]. rewrite app_nil_r, E1. split_and!; auto.
  - exists ps, [], w. cbn [posted seen resumed op world io]. rewrite app_nil_r, E1. split_and!; eauto.
Qed.

End delivery.

(** A [recv] of five bytes on the loop: two arrive, and it has been submitted again. *)
Lemma operation_delivery_witness :
  let op0 := mk_recv (some := false) (make_transfer (make_base true (Some no_error)) 5 (buffer_sequence_base [(100, 2); (200, 3)])) in
  let s0 := io_service_init {[4%nat := mk_operation (get_base op0) OnCompleted]} None in
  let n0 := mk_net ∅ [] in
  let c := mk_cqe 2 0 [7; 8] in
  exists s1 x w, apply_effect (submit_effect 4 false) s0 = Some s1 /\
    rtc (system_step 4 kernel false) (mk_system s1 op0 n0 [] [] false) x /\
    seen x = [(2, 0)] /\ resumed x = false /\ sq (m_ring (io x)) = [OpData 4] /\
    drive kernel [c] op0 n0 = Waiting (op x) w.
Proof.
  cbv zeta. set (op0 := mk_recv _). set (s0 := io_service_init _ _). set (c := mk_cqe 2 0 [7; 8]).
  assert (exists s1, apply_effect (submit_effect 4 false) s0 = Some s1) as [s1 E1] by (eexists; reflexivity).
  assert (exists x, rtc (system_step 4 kernel false) (mk_system s1 op0 (mk_net ∅ []) [] [] false) x /\
    seen x = [(2, 0)] /\ resumed x = false /\ sq (m_ring (io x)) = [OpData 4] /\ posted x = [c]) as (x & Hx & Hsn & Hr & Hq & Hp).
  { injection E1 as <-.
    set (r0 := set_pc AtLoop (set_ring (mk_ring [OpData 4] [] []) s0)).
    set (r1 := alive AtWait (Crashed []) (enter_wait r0)).
    set (r2 := set_ring (mk_ring (sq (m_ring r1)) (delete 0%nat (inflight (m_ring r1)))
      (cq (m_ring r1) ++ [mk_completion (OpData 4) 2 0])) r1).
    set (r3 := set_pc (AtCompletions []) r2).
    set (r4 := let '(s, batch) := on_cqe (mk_completion (OpData 4) 2 0) (pop_cqe [] r3) [] in set_pc (AtCompletions batch) s).
    set (r5 := set_pc AtRemote (schedule_local [4%nat] r4)).
    set (r6 := set_pc AtPending (get_remote_queue_operation_bases r5)).
    set (r7 := set_pc (AtExecute (m_local_queue r6)) (set_local [] r6)).
    set (n1 := kernel (try_start op0 (mk_net ∅ [])) c (mk_net ∅ [])).
    set (b1 := set_value 2 0 (get_base op0)).
    destruct (on_completed (put_base b1 op0) n1) as [[o' w'] d] eqn:Eo.
    assert (d = SubmitAgain) as -> by (vm_compute in Eo; congruence).
    eexists. split.
    - eapply rtc_l; [apply sys_background, bg_loop; [apply (step_enter r0); [vm_compute; reflexivity|vm_compute; discriminate]|vm_compute; discriminate]|].
      change (alive AtWait (Crashed []) (enter_wait r0)) with r1.
      eapply rtc_l; [apply (sys_complete 4 kernel false r1 _ _ _ _ _ 0 c); vm_compute; reflexivity|].
      eapply rtc_l; [apply sys_background, bg_loop; [apply (step_wake r2); [vm_compute; reflexivity|vm_compute; discriminate]|vm_compute; discriminate]|].
      eapply rtc_l; [apply sys_background, bg_loop; [apply (step_cqe r3 [] (mk_completion (OpData 4) 2 0) []); vm_compute; reflexivity|vm_compute; discriminate]|].
      eapply rtc_l; [apply sys_background, bg_loop; [apply (step_cqes_done r4 [4%nat]); vm_compute; reflexivity|vm_compute; discriminate]|].
      eapply rtc_l; [apply sys_background, bg_loop; [apply (step_remote r5); vm_compute; reflexivity|vm_compute; discriminate]|].
      eapply rtc_l; [apply sys_background, bg_loop; [apply (step_pending r6); vm_compute; reflexivity|vm_compute; discriminate]|].
      apply rtc_once. apply (sys_execute 4 kernel false r7 op0 n1 [c] [] false [] b1 OnCompleted [] o' w' SubmitAgain);
        [vm_compute; reflexivity|vm_compute; reflexivity|constructor|exact Eo].
    - split_and!; vm_compute; reflexivity. }
  destruct (operation_delivery 4 kernel false op0 (mk_net ∅ []) s0 s1 x) as (ps & out & w & H1 & _ & H2 & H3 & _);
    [reflexivity|exact E1|exact Hx|].
  exists s1, x, w. split; [exact E1|]. split; [exact Hx|]. split; [exact Hsn|]. split; [exact Hr|]. split; [exact Hq|].
  rewrite Hr in H3. rewrite Hsn in H2. rewrite Hp in H1.
  destruct ps as [|c1 [|c2 ps]]; [discriminate H2| |discriminate H2].
  injection H1 as <- _. exact H3.
Defined.
