(* ===== verification/Config.v ===== *)
(** * The configuration

    Models [coroutine/config.h] of [src/include/xynet]: the macros it defines, as functions of
    the macros that the compiler predefines, and what the other headers of [coroutine] select
    by them. A macro that is not defined is [None]; in a condition of the preprocessor it
    counts as zero. *)

From S2P Require Import Prelude.
Local Open Scope Z_scope.

(** The predefined macros: [_MSC_VER] with [_MSC_FULL_VER]; [__clang__] and [__GNUC__] with
    their versions - major, minor, patch level; [_WIN32]; [_WIN32_WINNT]; [__linux__]; the
    processor as [_M_IX86], [_M_X64], [__i386__], [__x86_64__]. *)
Record predefined := mk_predefined {
  _MSC_VER : option Z; __clang__ : option (Z * Z * Z); __GNUC__ : option (Z * Z * Z);
  _WIN32 : bool; _WIN32_WINNT : option Z; __linux__ : bool;
  _M_IX86 : bool; _M_X64 : bool; __i386__ : bool; __x86_64__ : bool }.

Definition nonzero (z : Z) : bool := negb (z =? 0).
Definition defined {A} (m : option A) : bool := bool_decide (is_Some m).

(** [#if c # define X 1 #endif], and the default that follows when [X] is not defined. *)
Definition define_if (c : bool) (x : Z) : option Z := if c then Some x else None.
Definition default_to (d : Z) (m : option Z) : Z := from_option id d m.

(** ** The compiler *)

Definition version (v : Z * Z * Z) : Z := let '(major, minor, patch) := v in major * 10000 + minor * 100 + patch.

Section config.
Context (p : predefined).

Definition COMPILER_MSVC : Z := from_option id 0 (_MSC_VER p).
Definition COMPILER_CLANG : Z := from_option version 0 (__clang__ p).
Definition COMPILER_GCC : Z := from_option version 0 (__GNUC__ p).

Definition clang_major : Z := from_option (fun v => v.1.1) 0 (__clang__ p).

Definition SUPPORTS_SYMMETRIC_TRANSFER : Z :=
  default_to 1 (if nonzero COMPILER_CLANG then define_if (7 <=? clang_major) 1 else None).

(** What is put before declarations: of MSVC, the attribute of GCC, or nothing. *)
Inductive specifier := Declspec | Attribute | Inline | Nothing.

Definition ASSUME : specifier := if nonzero COMPILER_MSVC then Declspec else Nothing.

Definition NOINLINE : specifier :=
  if nonzero COMPILER_MSVC then Declspec
  else if nonzero COMPILER_CLANG || nonzero COMPILER_GCC then Attribute
  else Nothing.

Definition FORCE_INLINE : specifier :=
  if nonzero COMPILER_MSVC then Declspec
  else if nonzero COMPILER_CLANG then Attribute
  else Inline.

(** ** The operating system *)

Definition OS_WINNT : Z :=
  if defined (_WIN32_WINNT p) || _WIN32 p then from_option id 0xA00 (_WIN32_WINNT p) else 0.

Definition OS_LINUX : Z := if __linux__ p then 1 else 0.

(** ** The processor *)

Definition CPU_X86 : Z :=
  default_to 0
    (if nonzero COMPILER_MSVC then define_if (_M_IX86 p) 1
     else if nonzero COMPILER_GCC || nonzero COMPILER_CLANG then define_if (__i386__ p) 1
     else None).

Definition CPU_X64 : Z :=
  default_to 0
    (if nonzero COMPILER_MSVC then define_if (_M_X64 p) 1
     else if nonzero COMPILER_GCC || nonzero COMPILER_CLANG then define_if (__x86_64__ p) 1
     else None).

Definition CPU_32BIT : Z := if nonzero CPU_X86 then 1 else 0.
Definition CPU_64BIT : Z := if nonzero CPU_X64 then 1 else 0.

(** The constant of the library [hardware_destructive_interference_size] is an argument. *)
Definition CPU_CACHE_LINE (hardware_destructive_interference_size : Z) : Z :=
  if nonzero COMPILER_MSVC then hardware_destructive_interference_size else 64.

(** ** What is selected *)

(** [task.h]: the handle-returning [await_suspend] or the flag of [TaskFallback]. *)
Inductive transfer := Symmetric | Flag.
Definition task_transfer : transfer := if nonzero SUPPORTS_SYMMETRIC_TRANSFER then Symmetric else Flag.

(** [when_all_task.h], [sync_wait_task.h], [sync_wait.h]: the workarounds for MSVC. *)
Definition msvc_workaround : bool := nonzero COMPILER_MSVC.

End config.

(** ** What the configuration is *)

(** Whatever the compiler, tasks transfer symmetrically: the default that is for compilers
    which do not support it is the same as the value of those that do. *)
Lemma symmetric_always p : SUPPORTS_SYMMETRIC_TRANSFER p = 1 /\ task_transfer p = Symmetric.
Proof.
  unfold task_transfer. assert (SUPPORTS_SYMMETRIC_TRANSFER p = 1) as ->; [|done].
  unfold SUPPORTS_SYMMETRIC_TRANSFER, define_if. by destruct (nonzero (COMPILER_CLANG p)), (7 <=? clang_major p).
Qed.

(** The macros of the processor are truth values; 64 bits mean x86-64 and 32 bits x86, and
    never both where the compiler says one processor. *)
Lemma cpu_values p : (CPU_X86 p = 0 \/ CPU_X86 p = 1) /\ (CPU_X64 p = 0 \/ CPU_X64 p = 1) /\
  CPU_32BIT p = CPU_X86 p /\ CPU_64BIT p = CPU_X64 p /\
  (_M_IX86 p && _M_X64 p = false -> __i386__ p && __x86_64__ p = false -> CPU_X86 p * CPU_X64 p = 0).
Proof.
  unfold CPU_32BIT, CPU_64BIT, CPU_X86, CPU_X64, default_to, define_if.
  destruct (nonzero (COMPILER_MSVC p)), (nonzero (COMPILER_GCC p) || nonzero (COMPILER_CLANG p)),
    (_M_IX86 p), (_M_X64 p), (__i386__ p), (__x86_64__ p); cbv; intuition congruence.
Qed.

(** GCC 10 on x86-64 Linux, for which the library is built. *)
Definition gcc_linux : predefined :=
  mk_predefined None None (Some (10, 1, 0)) false None true false false false true.

Example gcc_linux_config :
  (COMPILER_MSVC gcc_linux, COMPILER_CLANG gcc_linux, COMPILER_GCC gcc_linux) = (0, 0, 100100) /\
  task_transfer gcc_linux = Symmetric /\ msvc_workaround gcc_linux = false /\
  (ASSUME gcc_linux, NOINLINE gcc_linux, FORCE_INLINE gcc_linux) = (Nothing, Attribute, Inline) /\
  (OS_WINNT gcc_linux, OS_LINUX gcc_linux) = (0, 1) /\
  (CPU_X86 gcc_linux, CPU_X64 gcc_linux, CPU_32BIT gcc_linux, CPU_64BIT gcc_linux) = (0, 1, 0, 1) /\
  CPU_CACHE_LINE gcc_linux 128 = 64.
Proof. vm_compute. auto 10. Qed.

(** A 64-bit processor of another family: [CPU_64BIT] is zero. *)
Example aarch64_config : CPU_64BIT (mk_predefined None None (Some (10, 1, 0)) false None true false false false false) = 0.
Proof. reflexivity. Qed.

(** Clang predefines [__GNUC__] too, and takes both for true. *)
Example clang_config :
  let p := mk_predefined None (Some (6, 0, 0)) (Some (4, 2, 1)) false None true false false false true in
  (COMPILER_CLANG p, COMPILER_GCC p, FORCE_INLINE p, SUPPORTS_SYMMETRIC_TRANSFER p) = (60000, 40201, Attribute, 1).
Proof. reflexivity. Qed.
