(* ===== verification/Memory.v ===== *)
(** * Atomic objects and memory orders

    What [std::atomic] of the language's library gives to the code of [src/include/xynet]
    that names a memory order: a location keeps the messages that were written to it, in its
    modification order; a thread has a view, which is what happens before the point it has
    reached; a message carries the view that it releases. A read-modify-write reads the
    newest message and continues its release sequence; a load may read any message that is
    not older than one the thread knows of; a failing compare-exchange is a load. One location
    and plain data are enough for the classes here, each of which has one atomic member: for
    one location, program order, modification order and reads-from have no cycle, so that
    executions are interleavings of these operations. Stores are put at the end of the
    modification order. *)

From stdpp Require Import gmap.
From S2P Require Import Prelude.

(** [std::memory_order]; the others are not used. *)
Inductive order := Relaxed | Acquire | Release | AcqRel.

Definition acquires (o : order) : bool := match o with Acquire | AcqRel => true | _ => false end.
Definition releases (o : order) : bool := match o with Release | AcqRel => true | _ => false end.

(** ** Views *)

(** [facts]: the writes of plain data that happen before, each given a number; [seen]: the
    newest message of the location that is known. *)
Record view := mk_view { facts : gset nat; seen : nat }.

#[export] Instance view_join : Join view := fun v w => mk_view (facts v ∪ facts w) (seen v `max` seen w).
#[export] Instance view_bottom : Bottom view := mk_view ∅ 0.
#[export] Instance view_le : SqSubsetEq view := fun v w => facts v ⊆ facts w /\ (seen v <= seen w)%nat.

#[export] Instance view_le_preorder : PreOrder (⊑@{view}).
Proof.
  split; [intros v; split; [done|lia]|].
  intros u v w [? ?] [? ?]. split; [by etrans|lia].
Qed.

Lemma join_ub_l (v w : view) : v ⊑ v ⊔ w.
Proof. split; cbn; [set_solver|lia]. Qed.

Lemma join_ub_r (v w : view) : w ⊑ v ⊔ w.
Proof. split; cbn; [set_solver|lia]. Qed.

Lemma join_lub (u v w : view) : u ⊑ w -> v ⊑ w -> u ⊔ v ⊑ w.
Proof. intros [? ?] [? ?]. split; cbn; [set_solver|lia]. Qed.

Lemma bottom_le (v : view) : ⊥ ⊑ v.
Proof. split; cbn; [set_solver|lia]. Qed.

(** A larger view has the facts of the smaller one. *)
#[export] Instance facts_mono : Proper ((⊑) ==> (⊆)) facts.
Proof. by intros v w [? _]. Qed.

Create HintDb views.
#[export] Hint Resolve join_ub_l join_ub_r join_lub bottom_le : views.

(** ** Locations *)

Record message (V : Type) := mk_message { value : V; released : view }.
Arguments mk_message {V}.
Arguments value {V}.
Arguments released {V}.

(** Oldest first, in modification order; there is always one, the initial value. *)
Record location (V : Type) := mk_location { older : list (message V); newest : message V }.
Arguments mk_location {V}.
Arguments older {V}.
Arguments newest {V}.

Definition messages {V} (l : location V) : list (message V) := older l ++ [newest l].

(** The constructor initialises the object; what happens before it is not counted. *)
Definition location_init {V} (x : V) : location V := mk_location [] (mk_message x ⊥).

Definition write {V} (m : message V) (l : location V) : location V := mk_location (messages l) m.

(** The index of the newest message. *)
Definition newest_index {V} (l : location V) : nat := length (older l).

Definition look (i : nat) (v : view) : view := mk_view (facts v) (seen v `max` i).

(** Reading the message [m], at the index [i]. *)
Definition observe {V} (o : order) (i : nat) (m : message V) (v : view) : view :=
  if acquires o then look i v ⊔ released m else look i v.

(** What a write releases. *)
Definition publish (o : order) (v : view) : view := if releases o then v else ⊥.

(** [exchange], [fetch_add], [fetch_sub], and a [compare_exchange_strong] that succeeds: the
    value read, the location and the view of the thread. *)
Definition rmw {V} (o : order) (f : V -> V) (l : location V) (v : view) : V * location V * view :=
  let m := newest l in
  let v' := observe o (S (newest_index l)) m v in
  (value m, write (mk_message (f (value m)) (released m ⊔ publish o v')) l, v').

(** [load], which may read the message at [i]. *)
Definition load {V} (o : order) (i : nat) (l : location V) (v : view) : option (V * view) :=
  if decide (seen v <= i)%nat then (fun m => (value m, observe o i m v)) <$> messages l !! i else None.

Definition store {V} (o : order) (x : V) (l : location V) (v : view) : location V * view :=
  let v' := look (S (newest_index l)) v in (write (mk_message x (publish o v')) l, v').

(** [compare_exchange_strong]: [None] is success, [Some x] that [x] was read, which is not
    the value expected. *)
Inductive compare_exchange {V} (success failure : order) (expected desired : V) (l : location V) (v : view) :
  option V -> location V -> view -> Prop :=
| exchanged l' v' : value (newest l) = expected -> rmw success (fun _ => desired) l v = (expected, l', v') ->
    compare_exchange success failure expected desired l v None l' v'
| not_exchanged i x v' : load failure i l v = Some (x, v') -> x <> expected ->
    compare_exchange success failure expected desired l v (Some x) l v'.

(** ** Laws *)

Section laws.
Context {V : Type}.
Implicit Types (l : location V) (m : message V) (v : view).

Lemma look_le i v : v ⊑ look i v.
Proof. split; cbn; [done|lia]. Qed.

Lemma observe_le o i m v : v ⊑ observe o i m v.
Proof.
  unfold observe. destruct (acquires o); [|apply look_le].
  etrans; [apply look_le|auto with views].
Qed.

Lemma observe_acquires o i m v : acquires o = true -> released m ⊑ observe o i m v.
Proof. unfold observe. intros ->. auto with views. Qed.

Lemma observe_seen o i m v : (i <= seen (observe o i m v))%nat.
Proof. unfold observe. destruct (acquires o); cbn; lia. Qed.

(** Only what is acquired is added. *)
Lemma observe_facts o i m v : acquires o = false -> facts (observe o i m v) = facts v.
Proof. unfold observe. by intros ->. Qed.

(** What a message releases is no newer than the message. *)
Definition sound l : Prop := forall i m, messages l !! i = Some m -> (seen (released m) <= i)%nat.

Lemma observe_sound o i m v : (seen (released m) <= i)%nat -> (seen v <= i)%nat -> seen (observe o i m v) = i.
Proof. unfold observe. intros ??. destruct (acquires o); cbn; lia. Qed.

Lemma messages_write m l : messages (write m l) = messages l ++ [m].
Proof. done. Qed.

Lemma messages_newest l : messages l !! newest_index l = Some (newest l).
Proof. apply list_lookup_middle. done. Qed.

Lemma messages_lookup i m l : messages l !! i = Some m -> (i <= newest_index l)%nat.
Proof. intros Hi%lookup_lt_Some. unfold messages in Hi. rewrite length_app in Hi. cbn in Hi. unfold newest_index. lia. Qed.

Lemma newest_index_write m l : newest_index (write m l) = S (newest_index l).
Proof. unfold newest_index, write, messages. cbn. rewrite length_app. cbn. lia. Qed.

Lemma sound_init x : sound (location_init x).
Proof. intros [|i] m [= <-]. cbn. lia. Qed.

Lemma sound_write m l : sound l -> (seen (released m) <= S (newest_index l))%nat -> sound (write m l).
Proof.
  intros Hs Hm i m'. rewrite messages_write. intros [Hi|[Hl Hi]]%lookup_app_Some; [by eapply Hs|].
  apply list_lookup_singleton_Some in Hi as [Hi ->].
  unfold messages in *. rewrite length_app in *. cbn in *. unfold newest_index in *. lia.
Qed.

(** A read-modify-write. *)
Lemma rmw_spec o f l v x l' v' : rmw o f l v = (x, l', v') ->
  x = value (newest l) /\ value (newest l') = f x /\ messages l' = messages l ++ [newest l'] /\
  newest_index l' = S (newest_index l) /\ v ⊑ v' /\
  released (newest l) ⊑ released (newest l') /\
  (acquires o = true -> released (newest l) ⊑ v') /\
  (releases o = true -> v' ⊑ released (newest l')) /\
  (newest_index l' <= seen v')%nat.
Proof.
  unfold rmw. intros [= <- <- <-]. cbn [newest write value released].
  split; [done|split; [done|split; [done|split; [apply newest_index_write|]]]].
  split; [apply observe_le|]. split; [auto with views|].
  split; [apply observe_acquires|]. split.
  - unfold publish. intros ->. auto with views.
  - rewrite newest_index_write. apply observe_seen.
Qed.

Lemma rmw_sound o f l v x l' v' : rmw o f l v = (x, l', v') -> sound l -> (seen v <= newest_index l)%nat ->
  sound l' /\ seen v' = newest_index l'.
Proof.
  unfold rmw. intros [= <- <- <-] Hs Hv. pose proof (Hs _ _ (messages_newest l)) as Hn.
  assert (seen (observe o (S (newest_index l)) (newest l) v) = S (newest_index l)) as E
    by (apply observe_sound; lia).
  split; [|by rewrite newest_index_write]. apply sound_write; [done|].
  unfold publish. cbn. destruct (releases o); cbn; lia.
Qed.

Lemma load_spec o i l v x v' : load o i l v = Some (x, v') ->
  exists m, messages l !! i = Some m /\ value m = x /\ (seen v <= i <= newest_index l)%nat /\ v ⊑ v' /\
    (acquires o = true -> released m ⊑ v').
Proof.
  unfold load. case_decide as Hv; [|done]. destruct (messages l !! i) as [m|] eqn:Hi; [|done].
  intros [= <- <-]. exists m. pose proof (messages_lookup i m l Hi).
  repeat split; try done; try lia; try apply observe_le; by apply observe_acquires.
Qed.

End laws.
