(* ===== verification/Event.v ===== *)
(** * The auto-reset event

    Models [coroutine/single_consumer_async_auto_reset_event.h] of [src/include/xynet]: any
    number of threads set the event, one coroutine at a time awaits it. The atomic operations
    of [set] and [await_suspend] interleave in any order; together they implement an event
    that a wait consumes. *)

From stdpp Require Import relations list.
From S2P Require Import Prelude.

(** ** The event *)

(** [m_state]: null, [this], or the address of the handle in the awaiter, of which the model
    keeps the handle. *)
Inductive m_state := NotSet | IsSet | Waiting (h : nat).

#[export] Instance m_state_eq_dec : EqDecision m_state.
Proof. solve_decision. Defined.

Definition event_init (initiallySet : bool) : m_state := if initiallySet then IsSet else NotSet.

(** The first [exchange] of [set], with the handle to resume, if there is one; the second
    one, which is also that of [await_suspend]. *)
Definition set_exchange (s : m_state) : m_state * option nat :=
  (IsSet, match s with Waiting h => Some h | _ => None end).
Definition reset_exchange (s : m_state) : m_state := NotSet.

(** [compare_exchange_strong] of [await_suspend]: the old value, when that is not null. *)
Definition suspend_exchange (h : nat) (s : m_state) : m_state * option m_state :=
  match s with NotSet => (Waiting h, None) | _ => (s, Some s) end.

(** ** The system *)

(** The coroutine: runs; has called [await_suspend]; has found the event set; is suspended.
    [Broken]: an assertion has failed, or a handle was resumed that is not suspended. *)
Inductive consumer := Running | Suspending (h : nat) | Resetting | Suspended (h : nat) | Broken.

(** A call of [set] that has taken a handle: before its second [exchange], and before
    [resume]. *)
Inductive setter := Taken (h : nat) | Resuming (h : nat).

(** What is observed of it: a signal, a wait begins, takes the signal, is over. *)
Inductive event := ESet | EWait | ETake | EReturn.

Record system := mk_system { ev : m_state; cons_ : consumer; setters : list setter; log : list event }.

Definition start (initiallySet : bool) : system := mk_system (event_init initiallySet) Running [] [].

(** [resume]: the coroutine goes on, if it is suspended there. *)
Definition resume (h : nat) (c : consumer) : consumer :=
  match c with Suspended h' => if h =? h' then Running else Broken | _ => Broken end.

(** A call of [set], which is over at once when nothing waits, and of [co_await]. *)
Inductive call : system -> system -> Prop :=
| call_set e c ss l e' taken : set_exchange e = (e', taken) ->
    call (mk_system e c ss l)
      (mk_system e' c (match taken with Some h => Taken h :: ss | None => ss end) (l ++ [ESet]))
| call_await h e ss l : call (mk_system e Running ss l) (mk_system e (Suspending h) ss (l ++ [EWait])).

(** The steps that a call goes on with. *)
Inductive internal : system -> system -> Prop :=
| set_reset h e c ss1 ss2 l :
    internal (mk_system e c (ss1 ++ Taken h :: ss2) l)
      (mk_system (reset_exchange e) c (ss1 ++ Resuming h :: ss2) (l ++ [ETake]))
| set_resume h e c ss1 ss2 l :
    internal (mk_system e c (ss1 ++ Resuming h :: ss2) l)
      (mk_system e (resume h c) (ss1 ++ ss2) (l ++ [EReturn]))
| await_exchange h e ss l e' old : suspend_exchange h e = (e', old) ->
    internal (mk_system e (Suspending h) ss l)
      (mk_system e' (match old with None => Suspended h | Some IsSet => Resetting | Some _ => Broken end) ss l)
| await_reset e ss l :
    internal (mk_system e Resetting ss l)
      (mk_system (reset_exchange e) Running ss (l ++ [ETake; EReturn])).

Definition step (s s' : system) : Prop := call s s' \/ internal s s'.

(** ** What it implements *)

(** An event that is signalled or not, and a coroutine that does not wait, waits, or has
    been granted the signal. *)
Inductive phase := Idle | Blocked | Granted.
Record spec := mk_spec { signalled : bool; phase_ : phase }.

Definition spec_step (a : spec) (e : event) : option spec :=
  match e, a with
  | ESet, mk_spec _ p => Some (mk_spec true p)
  | EWait, mk_spec b Idle => Some (mk_spec b Blocked)
  | ETake, mk_spec true Blocked => Some (mk_spec false Granted)
  | EReturn, mk_spec b Granted => Some (mk_spec b Idle)
  | _, _ => None
  end.

Definition spec_run (a : spec) (es : list event) : option spec :=
  foldl (fun a e => a ← a; spec_step a e) (Some a) es.

Definition abstract (s : system) : spec :=
  mk_spec (bool_decide (ev s = IsSet))
    (match cons_ s, setters s with
     | Running, _ => Idle
     | Suspended _, Resuming _ :: _ => Granted
     | _, _ => Blocked
     end).

(** The steps left of the calls in progress. *)
Definition work (s : system) : nat :=
  match cons_ s with Suspending _ => 2 | Resetting => 1 | _ => 0 end +
  sum_list_with (fun t => match t with Taken _ => 2 | Resuming _ => 1 end) (setters s).

Inductive event_inv (s : system) : Prop :=
| inv_free : cons_ s = Running \/ (exists h, cons_ s = Suspending h) -> setters s = [] ->
    ev s = NotSet \/ ev s = IsSet -> event_inv s
| inv_resetting : cons_ s = Resetting -> setters s = [] -> ev s = IsSet -> event_inv s
| inv_waiting h : cons_ s = Suspended h -> setters s = [] -> ev s = Waiting h -> event_inv s
| inv_taken h : cons_ s = Suspended h -> setters s = [Taken h] -> ev s = IsSet -> event_inv s
| inv_resuming h : cons_ s = Suspended h -> setters s = [Resuming h] ->
    ev s = NotSet \/ ev s = IsSet -> event_inv s.

(** ** The proof *)

Lemma spec_run_app a es1 es2 : spec_run a (es1 ++ es2) = a' ← spec_run a es1; spec_run a' es2.
Proof.
  unfold spec_run. rewrite foldl_app. destruct (foldl _ (Some a) es1) as [a'|]; [done|].
  simpl. induction es2 as [|e es2 IH]; [done|apply IH].
Qed.

Lemma singleton_split {A} (x y : A) l1 l2 : [x] = l1 ++ y :: l2 -> l1 = [] /\ l2 = [] /\ x = y.
Proof. destruct l1 as [|z [|??]]; intros [= ]; [by subst|done..]. Qed.

(** What each step does to the abstract event. *)
Definition refines (s s' : system) : Prop :=
  event_inv s' /\ exists es, log s' = log s ++ es /\ spec_run (abstract s) es = Some (abstract s').

Local Ltac split_setters :=
  match goal with
  | H : ?l1 ++ _ :: ?l2 = [] |- _ => destruct l1; discriminate
  | H : ?l1 ++ _ :: ?l2 = [_] |- _ =>
      symmetry in H; apply singleton_split in H as (-> & -> & E); inversion E; subst; clear E
  end.

Lemma call_refines s s' : call s s' -> event_inv s -> refines s s'.
Proof.
  destruct 1 as [e c ss l e' taken [= <- <-]|h e ss l]; intros Hi.
  - split; [|exists [ESet]; split; [done|]]; destruct Hi as [Hc Hs He|Hc Hs He|h Hc Hs He|h Hc Hs He|h Hc Hs He];
      cbn in *; subst.
    + destruct He as [-> | ->]; eapply inv_free; cbn; auto.
    + apply inv_resetting; done.
    + eapply inv_taken; done.
    + eapply inv_taken; done.
    + destruct He as [-> | ->]; eapply inv_resuming; cbn; auto.
    + by destruct Hc as [-> | [h ->]], He as [-> | ->].
    + done.
    + done.
    + done.
    + by destruct He as [-> | ->].
  - destruct Hi as [Hc Hs He|Hc Hs He|h' Hc Hs He|h' Hc Hs He|h' Hc Hs He]; try discriminate. cbn in *.
    split; [apply inv_free; cbn; eauto|]. exists [EWait]. split; [done|]. by destruct He as [-> | ->].
Qed.

Lemma internal_refines s s' : internal s s' -> event_inv s -> refines s s'.
Proof.
  destruct 1 as [h e c ss1 ss2 l|h e c ss1 ss2 l|h e ss l e' old Ho|e ss l];
    intros [Hc Hs He|Hc Hs He|h' Hc Hs He|h' Hc Hs He|h' Hc Hs He];
    cbn in Hc, Hs, He; try split_setters; try discriminate; subst.
  - split; [eapply inv_resuming; cbn; eauto|]. by exists [ETake].
  - unfold resume. rewrite Nat.eqb_refl. split; [apply inv_free; cbn; auto|].
    exists [EReturn]. split; [done|]. by destruct He as [-> | ->].
  - destruct Hc as [Hc|[h' Hc]]; [discriminate|]. injection Hc as <-. destruct He as [-> | ->]; injection Ho as <- <-.
    + split; [by eapply inv_waiting|]. exists []. by rewrite app_nil_r.
    + split; [by apply inv_resetting|]. exists []. by rewrite app_nil_r.
  - destruct Hc as [Hc|[h' Hc]]; discriminate.
  - split; [apply inv_free; cbn; auto|]. by exists [ETake; EReturn].
Qed.

Lemma event_inv_start b : event_inv (start b).
Proof. apply inv_free; cbn; auto. destruct b; auto. Qed.

Lemma refines_rtc s s' : rtc step s s' -> event_inv s -> refines s s'.
Proof.
  induction 1 as [s|s s1 s' Hs _ IH]; intros Hi.
  - split; [done|]. exists []. by rewrite app_nil_r.
  - assert (refines s s1) as (Hi1 & es1 & El1 & Er1).
    { destruct Hs; [by apply call_refines|by apply internal_refines]. }
    destruct (IH Hi1) as (Hi' & es & El & Er). split; [done|]. exists (es1 ++ es). split.
    + by rewrite El, El1, app_assoc.
    + by rewrite spec_run_app, Er1.
Qed.

Lemma internal_work s s' : internal s s' -> (work s' < work s)%nat.
Proof.
  destruct 1 as [h e c ss1 ss2 l|h e c ss1 ss2 l|h e ss l e' old Ho|e ss l]; unfold work; cbn.
  - rewrite !sum_list_with_app. cbn. lia.
  - rewrite !sum_list_with_app. cbn. unfold resume. destruct c; try destruct (_ =? _)%nat; lia.
  - destruct old as [[]|]; lia.
  - lia.
Qed.

(** When no call is in progress, the coroutine runs, or waits and the event is not set. *)
Lemma quiescent s : event_inv s -> (forall s', ~ internal s s') ->
  cons_ s = Running \/ (signalled (abstract s) = false /\ phase_ (abstract s) = Blocked).
Proof.
  destruct s as [e c ss l].
  intros [Hc Hs He|Hc Hs He|h Hc Hs He|h Hc Hs He|h Hc Hs He] Hn; cbn in *; subst.
  - destruct Hc as [Hc|[h Hc]]; [by left|]. subst. destruct (suspend_exchange h e) eqn:E.
    exfalso. eapply Hn. by apply await_exchange.
  - exfalso. eapply Hn. apply await_reset.
  - by right.
  - exfalso. eapply Hn. apply (set_reset h IsSet (Suspended h) [] []).
  - exfalso. eapply Hn. apply (set_resume h e (Suspended h) [] []).
Qed.

(** C19: the auto-reset event. In every interleaving of the calls of [set], of any number of
    threads, with the waits of one coroutine: no assertion fails and no handle is resumed
    that is not suspended; what is observed is what an event does that each [set] signals
    and each wait consumes; each call is over after a bounded number of steps; and when no
    call is in progress the coroutine runs, or the event is not set: no signal is lost. *)
Theorem auto_reset_event b s : rtc step (start b) s ->
  cons_ s <> Broken /\ spec_run (mk_spec b Idle) (log s) = Some (abstract s) /\
  (forall s', internal s s' -> (work s' < work s)%nat) /\
  ((forall s', ~ internal s s') ->
   cons_ s = Running \/ (signalled (abstract s) = false /\ phase_ (abstract s) = Blocked)).
Proof.
  intros Hs. destruct (refines_rtc _ _ Hs (event_inv_start b)) as (Hi & es & El & Er).
  split; [|split; [|split]].
  - destruct Hi as [[Hc|[h Hc]]|Hc|h Hc|h Hc|h Hc]; by rewrite Hc.
  - cbn in El. subst es. rewrite <- Er. by destruct b.
  - intros s'. apply internal_work.
  - by apply quiescent.
Qed.

(** The coroutine waits; two threads set the event, the second before the first resumes. *)
Lemma auto_reset_event_witness :
  let s := mk_system IsSet (Suspended 5) [Resuming 5] [EWait; ESet; ETake; ESet] in
  rtc step (start false) s /\ spec_run (mk_spec false Idle) (log s) = Some (mk_spec true Granted).
Proof.
  cbv zeta. set (s := mk_system _ _ _ _).
  assert (H : rtc step (start false) s).
  { eapply rtc_l; [left; apply (call_await 5)|]. eapply rtc_l; [right; apply await_exchange; reflexivity|].
    eapply rtc_l; [left; apply call_set; reflexivity|].
    eapply rtc_l; [right; apply (set_reset 5 _ _ [] [])|].
    apply rtc_once. left. exact (call_set NotSet (Suspended 5) [Resuming 5] [EWait; ESet; ETake] IsSet None eq_refl). }
  split; [exact H|]. apply (auto_reset_event false s H).
Defined.
