(* ===== verification/EventOrders.v ===== *)
(** * The memory orders of the auto-reset event

    [coroutine/single_consumer_async_auto_reset_event.h] of [src/include/xynet], with its
    atomic member as a location of [Memory] and the orders the code names. Each call of [set]
    has a view, the coroutine has the view of the thread it runs in, and the handle is plain
    data that [set] reads through the pointer it has exchanged. *)

From stdpp Require Import relations gmap.
From S2P Require Import Prelude Memory Event.

(** ** The orders of the code *)

Definition set_exchange_order : order := Release.
Definition set_reset_order : order := Acquire.
Definition suspend_success_order : order := Release.
Definition suspend_failure_order : order := Relaxed.
Definition suspend_reset_order : order := Acquire.

(** ** The system *)

(** [cview]: the view of the coroutine, that is of the thread it runs in or ran in last;
    [calls_]: the calls of [set] that have taken a handle; [signals]: what those that have
    called [set] had written, and [granted] what they had when the signal was taken last;
    [handle_write]: the write of the handle in the last awaiter; [reads]: the reads of a
    handle in [set], as the write that is read and the view at that point. *)
Record msystem := mk_msystem {
  state_ : location m_state; coroutine : consumer; cview : view; calls_ : list (setter * view);
  observed : list event; signals : gset nat; granted : gset nat; handle_write : nat;
  reads : list (nat * view) }.

Definition erase (s : msystem) : system :=
  mk_system (value (newest (state_ s))) (coroutine s) (calls_ s).*1 (observed s).

(** A view that a thread may have. *)
Definition valid (l : location m_state) (v : view) : Prop := (seen v <= newest_index l)%nat.

Section orders.

(** The order of the first exchange of [set]. *)
Context (o : order).

(** [set] is called with any view, which has the write [f]; [await_suspend] with what the
    coroutine knows, which has the write [w] of the handle. *)
Inductive mstep : msystem -> msystem -> Prop :=
| m_set f v l c cv ss es sg gr hw rd old l' v' : f ∈ facts v -> valid l v ->
    rmw o (fun _ => IsSet) l v = (old, l', v') ->
    mstep (mk_msystem l c cv ss es sg gr hw rd)
      (mk_msystem l' c cv (match old with Waiting h => (Taken h, v') :: ss | _ => ss end) (es ++ [ESet])
         ({[f]} ∪ sg) gr hw (match old with Waiting _ => rd ++ [(hw, v')] | _ => rd end))
| m_set_reset h v l c cv ss1 ss2 es sg gr hw rd old l' v' :
    rmw set_reset_order reset_exchange l v = (old, l', v') ->
    mstep (mk_msystem l c cv (ss1 ++ (Taken h, v) :: ss2) es sg gr hw rd)
      (mk_msystem l' c cv (ss1 ++ (Resuming h, v') :: ss2) (es ++ [ETake]) sg sg hw rd)
| m_set_resume h v l c cv ss1 ss2 es sg gr hw rd :
    mstep (mk_msystem l c cv (ss1 ++ (Resuming h, v) :: ss2) es sg gr hw rd)
      (mk_msystem l (resume h c) v (ss1 ++ ss2) (es ++ [EReturn]) sg gr hw rd)
| m_await h w v l cv ss es sg gr hw rd : cv ⊑ v -> w ∈ facts v -> valid l v ->
    mstep (mk_msystem l Running cv ss es sg gr hw rd)
      (mk_msystem l (Suspending h) v ss (es ++ [EWait]) sg gr w rd)
| m_exchange h l cv ss es sg gr hw rd old l' v' :
    compare_exchange suspend_success_order suspend_failure_order NotSet (Waiting h) l cv old l' v' ->
    mstep (mk_msystem l (Suspending h) cv ss es sg gr hw rd)
      (mk_msystem l' (match old with None => Suspended h | Some IsSet => Resetting | Some _ => Broken end)
         v' ss es sg gr hw rd)
| m_reset l cv ss es sg gr hw rd old l' v' :
    rmw suspend_reset_order reset_exchange l cv = (old, l', v') ->
    mstep (mk_msystem l Resetting cv ss es sg gr hw rd)
      (mk_msystem l' Running v' ss (es ++ [ETake; EReturn]) sg sg hw rd).

Definition mstart (b : bool) : msystem :=
  mk_msystem (location_init (event_init b)) Running ⊥ [] [] ∅ ∅ 0 [].

(** ** The invariant *)

(** A load from here on does not find an event set that is not. *)
Definition fresh (l : location m_state) (v : view) : Prop :=
  forall i m, (seen v <= i)%nat -> messages l !! i = Some m ->
  value m = NotSet \/ (value m = IsSet /\ value (newest l) = IsSet).

(** What holds of a view that the coroutine goes on with. *)
Definition good (s : msystem) (v : view) : Prop := granted s ⊆ facts v /\ fresh (state_ s) v.

Record order_inv (s : msystem) : Prop := {
  o_event : event_inv (erase s);
  o_sound : sound (state_ s);
  o_cview : valid (state_ s) (cview s);
  o_calls t v : (t, v) ∈ calls_ s -> valid (state_ s) v;
  (** Every message releases the signals so far, and the awaiter's writes while it waits. *)
  o_signals : signals s ⊆ facts (released (newest (state_ s)));
  o_waiting h : coroutine s = Suspended h ->
    {[handle_write s]} ∪ facts (cview s) ⊆ facts (released (newest (state_ s)));
  o_running : (forall h, coroutine s <> Suspended h) -> granted s ⊆ facts (cview s);
  o_fresh : coroutine s = Running \/ (exists h, coroutine s = Suspending h) -> fresh (state_ s) (cview s);
  o_resuming h v : (Resuming h, v) ∈ calls_ s ->
    good s v /\ {[handle_write s]} ∪ facts (cview s) ⊆ facts v;
  o_handle : forall h, coroutine s = Suspending h -> handle_write s ∈ facts (cview s);
}.
(** ** The proof *)

Lemma fresh_set l l' v : fresh l v -> messages l' = messages l ++ [newest l'] -> value (newest l') = IsSet -> fresh l' v.
Proof.
  intros Hf Hm Hv i m Hi. rewrite Hm. intros [H|[_ H]]%lookup_app_Some.
  - destruct (Hf i m Hi H) as [->|[-> _]]; auto.
  - apply list_lookup_singleton_Some in H as [_ <-]. auto.
Qed.

Lemma fresh_reset l v : (newest_index l <= seen v)%nat -> value (newest l) = NotSet -> fresh l v.
Proof.
  intros Hv Hn i m Hi Hm. pose proof (messages_lookup i m l Hm). assert (i = newest_index l) as -> by lia.
  rewrite messages_newest in Hm. injection Hm as <-. auto.
Qed.

Lemma fresh_mono l v v' : v ⊑ v' -> fresh l v -> fresh l v'.
Proof. intros [_ Hs] Hf i m Hi. apply Hf. lia. Qed.

Lemma valid_write l l' v : newest_index l' = S (newest_index l) -> valid l v -> valid l' v.
Proof. unfold valid. lia. Qed.

(** The calls of [set] in progress, in the shapes that [Event] shows. *)
Lemma taken_shape s ss1 h v ss2 : event_inv (erase s) -> calls_ s = ss1 ++ (Taken h, v) :: ss2 ->
  ss1 = [] /\ ss2 = [] /\ coroutine s = Suspended h.
Proof.
  intros [Hc Hs He|Hc Hs He|k Hc Hs He|k Hc Hs He|k Hc Hs He] E; cbn in *; rewrite E, fmap_app in Hs; cbn in Hs;
    try (by destruct ss1); symmetry in Hs; apply singleton_split in Hs as (H1 & H2 & H3); try done.
  apply fmap_nil_inv in H1, H2. injection H3 as ->. auto.
Qed.

Lemma resuming_shape s ss1 h v ss2 : event_inv (erase s) -> calls_ s = ss1 ++ (Resuming h, v) :: ss2 ->
  ss1 = [] /\ ss2 = [] /\ coroutine s = Suspended h.
Proof.
  intros [Hc Hs He|Hc Hs He|k Hc Hs He|k Hc Hs He|k Hc Hs He] E; cbn in *; rewrite E, fmap_app in Hs; cbn in Hs;
    try (by destruct ss1); symmetry in Hs; apply singleton_split in Hs as (H1 & H2 & H3); try done.
  apply fmap_nil_inv in H1, H2. injection H3 as ->. auto.
Qed.

(** Nothing is in progress while the coroutine is not suspended. *)
Lemma no_calls s : event_inv (erase s) -> (forall h, coroutine s <> Suspended h) -> calls_ s = [].
Proof.
  intros [Hc Hs He|Hc Hs He|k Hc Hs He|k Hc Hs He|k Hc Hs He] Hn; cbn in *;
    try (by apply fmap_nil_inv in Hs); by destruct (Hn k).
Qed.

(** A failing exchange has read that the event is set, and it is. *)
Lemma exchange_value s h old l' v' : order_inv s -> coroutine s = Suspending h ->
  compare_exchange suspend_success_order suspend_failure_order NotSet (Waiting h) (state_ s) (cview s) old l' v' ->
  suspend_exchange h (value (newest (state_ s))) = (value (newest l'), old).
Proof.
  intros Hi Hc. destruct 1 as [l' v' He Hr|i x v' Hl Hne].
  - apply rmw_spec in Hr as (_ & -> & _). by rewrite He.
  - apply load_spec in Hl as (m & Hm & <- & Hs & _).
    destruct (o_fresh _ Hi (or_intror (ex_intro _ h Hc)) i m) as [H|[-> ->]]; [lia|done..].
Qed.

(** The steps with views are steps of [Event]. *)
Lemma event_step_erase s s' : mstep s s' -> order_inv s -> step (erase s) (erase s').
Proof.
  intros Hs Hi. destruct Hs as [f v l c cv ss es sg gr hw rd old l' v' Hf Hv Er|h v l c cv ss1 ss2 es sg gr hw rd old l' v' Er|
      h v l c cv ss1 ss2 es sg gr hw rd|h w v l cv ss es sg gr hw rd Hcv Hw Hv|
      h l cv ss es sg gr hw rd old l' v' Hx|l cv ss es sg gr hw rd old l' v' Er]; unfold erase; cbn.
  - apply rmw_spec in Er as (-> & -> & _). left.
    pose proof (call_set (value (newest l)) c ss.*1 es _ _ eq_refl) as Hs. cbn in Hs.
    by destruct (value (newest l)).
  - apply rmw_spec in Er as (-> & -> & _). right. rewrite !fmap_app. apply set_reset.
  - right. rewrite !fmap_app. apply set_resume.
  - left. apply call_await.
  - right. apply await_exchange. exact (exchange_value _ h old l' v' Hi eq_refl Hx).
  - apply rmw_spec in Er as (-> & -> & _). right. apply await_reset.
Qed.

Lemma mstep_event_inv s s' : mstep s s' -> order_inv s -> event_inv (erase s').
Proof.
  intros Hs Hi. destruct (event_step_erase _ _ Hs Hi); [by eapply call_refines, o_event|by eapply internal_refines, o_event].
Qed.

(** Each operation keeps the invariant. The new state satisfies [Event]'s. *)
Lemma set_inv f v l c cv ss es sg gr hw rd old l' v' ss' rd' es' :
  order_inv (mk_msystem l c cv ss es sg gr hw rd) -> releases o = true -> f ∈ facts v -> valid l v ->
  rmw o (fun _ => IsSet) l v = (old, l', v') ->
  ss' = match old with Waiting h => (Taken h, v') :: ss | _ => ss end ->
  event_inv (erase (mk_msystem l' c cv ss' es' ({[f]} ∪ sg) gr hw rd')) ->
  order_inv (mk_msystem l' c cv ss' es' ({[f]} ∪ sg) gr hw rd').
Proof.
  intros [He Hso Hcv Hca Hsi Hw Hr Hf Hre Hh] Ho Hfv Hv Er -> He'. cbn in *.
  destruct (rmw_sound _ _ _ _ _ _ _ Er Hso Hv) as [Hso' Hv'].
  apply rmw_spec in Er as (_ & Ev & Em & Ei & Hvv & Hrel & _ & Hpub & _). specialize (Hpub Ho).
  split; cbn; try done.
  - by apply (valid_write l).
  - assert (forall t u, (t, u) ∈ ss -> valid l' u) by (intros t u Hu; apply (valid_write l); eauto).
    intros t u. destruct old; [eauto..|]. intros [[= -> ->]|Hu]%elem_of_cons; [|eauto]. unfold valid. lia.
  - apply union_least; [|by rewrite Hsi, Hrel]. by apply singleton_subseteq_l, Hpub, Hvv.
  - intros h Hc. by rewrite Hw, Hrel.
  - intros Hc. eapply fresh_set; eauto.
  - intros h u Hu. assert ((Resuming h, u) ∈ ss) as Hu'.
    { destruct old; [done..|]. by apply elem_of_cons in Hu as [[=]|Hu]. }
    destruct (Hre h u Hu') as [[? ?] ?]. split; [|done]. split; [done|]. cbn in *. by eapply fresh_set.
Qed.

Lemma reset_inv h v l c cv ss1 ss2 es sg gr hw rd old l' v' es' :
  order_inv (mk_msystem l c cv (ss1 ++ (Taken h, v) :: ss2) es sg gr hw rd) ->
  rmw set_reset_order reset_exchange l v = (old, l', v') ->
  event_inv (erase (mk_msystem l' c cv (ss1 ++ (Resuming h, v') :: ss2) es' sg sg hw rd)) ->
  order_inv (mk_msystem l' c cv (ss1 ++ (Resuming h, v') :: ss2) es' sg sg hw rd).
Proof.
  intros Hi Er He'. destruct (taken_shape _ ss1 h v ss2 (o_event _ Hi) eq_refl) as (-> & -> & Hc).
  destruct Hi as [He Hso Hcv Hca Hsi Hw Hr Hf Hre Hh]. cbn in *. subst c.
  assert (valid l v) as Hv by (eapply Hca, list_elem_of_here).
  destruct (rmw_sound _ _ _ _ _ _ _ Er Hso Hv) as [Hso' Hv'].
  apply rmw_spec in Er as (_ & Ev & Em & Ei & Hvv & Hrel & Hacq & _ & _). specialize (Hacq eq_refl).
  split; cbn; try done.
  - by apply (valid_write l).
  - intros t u [= -> ->]%list_elem_of_singleton. unfold valid. lia.
  - by rewrite Hsi, Hrel.
  - intros k Hk. by rewrite (Hw k Hk), Hrel.
  - intros Hk. by destruct (Hk h).
  - intros [Hk|[k Hk]]; done.
  - intros k u [= -> ->]%list_elem_of_singleton. split; [split|]; cbn.
    + by rewrite Hsi, Hacq.
    + apply fresh_reset; [lia|done].
    + by rewrite (Hw h eq_refl), Hacq.
Qed.

Lemma set_resume_inv h v l c cv ss1 ss2 es sg gr hw rd es' :
  order_inv (mk_msystem l c cv (ss1 ++ (Resuming h, v) :: ss2) es sg gr hw rd) ->
  event_inv (erase (mk_msystem l (resume h c) v (ss1 ++ ss2) es' sg gr hw rd)) ->
  order_inv (mk_msystem l (resume h c) v (ss1 ++ ss2) es' sg gr hw rd).
Proof.
  intros Hi He'. destruct (resuming_shape _ ss1 h v ss2 (o_event _ Hi) eq_refl) as (-> & -> & Hc).
  destruct Hi as [He Hso Hcv Hca Hsi Hw Hr Hf Hre Hh]. cbn in *. subst c. unfold resume in *.
  rewrite Nat.eqb_refl in *. destruct (Hre h v) as [[Hg Hfr] Hx]; [apply list_elem_of_here|].
  split; cbn; try done.
  - eapply Hca, list_elem_of_here.
  - by intros t u ?%elem_of_nil.
  - by intros k u ?%elem_of_nil.
Qed.

Lemma await_inv h w v l cv ss es sg gr hw rd es' :
  order_inv (mk_msystem l Running cv ss es sg gr hw rd) -> cv ⊑ v -> w ∈ facts v -> valid l v ->
  event_inv (erase (mk_msystem l (Suspending h) v ss es' sg gr w rd)) ->
  order_inv (mk_msystem l (Suspending h) v ss es' sg gr w rd).
Proof.
  intros Hi Hcv Hw Hv He'. pose proof (no_calls _ (o_event _ Hi)) as Hn. cbn in Hn. rewrite Hn in * by done.
  destruct Hi as [_ Hso _ _ Hsi _ Hr Hf _ _]. cbn in *. split; cbn; try done.
  - by intros t u ?%elem_of_nil.
  - intros _. by rewrite Hr, Hcv.
  - intros _. eapply fresh_mono; eauto.
  - by intros k u ?%elem_of_nil.
Qed.

Lemma exchange_inv h l cv ss es sg gr hw rd old l' v' c' :
  order_inv (mk_msystem l (Suspending h) cv ss es sg gr hw rd) ->
  compare_exchange suspend_success_order suspend_failure_order NotSet (Waiting h) l cv old l' v' ->
  c' = match old with None => Suspended h | Some IsSet => Resetting | Some _ => Broken end ->
  event_inv (erase (mk_msystem l' c' v' ss es sg gr hw rd)) ->
  order_inv (mk_msystem l' c' v' ss es sg gr hw rd).
Proof.
  intros Hi Hx Hc He'. pose proof (no_calls _ (o_event _ Hi)) as Hn. cbn in Hn. rewrite Hn in * by done.
  destruct Hi as [_ Hso Hcv _ Hsi _ Hr Hf _ Hh]. cbn in *. specialize (Hh h eq_refl).
  destruct Hx as [l' v' Ev Er|i x v' Hl Hne].
  - destruct (rmw_sound _ _ _ _ _ _ _ Er Hso Hcv) as [Hso' Hv'].
    apply rmw_spec in Er as (_ & _ & Em & Ei & Hvv & Hrel & _ & Hpub & _). specialize (Hpub eq_refl). subst c'.
    split; cbn; try done.
    + unfold valid. lia.
    + by intros t u ?%elem_of_nil.
    + by rewrite Hsi, Hrel.
    + intros k _. apply union_least; [|by rewrite Hpub]. by apply singleton_subseteq_l, Hpub, Hvv.
    + intros Hk. by destruct (Hk h).
    + intros [?|[??]]; done.
    + by intros k u ?%elem_of_nil.
  - pose proof Hl as (m & Hm & <- & Hs & Hvv & _)%load_spec.
    destruct (Hf (or_intror (ex_intro _ h eq_refl)) i m) as [Hx|[Hx _]]; [lia|done|done|].
    rewrite Hx in Hc. subst c'. split; cbn; try done.
    + unfold load in Hl. case_decide; [|done]. rewrite Hm in Hl. injection Hl as <-. unfold valid. cbn. lia.
    + by intros t u ?%elem_of_nil.
    + intros _. rewrite Hr by done. by rewrite Hvv.
    + intros [?|[??]]; done.
    + by intros k u ?%elem_of_nil.
Qed.

Lemma await_reset_inv l cv ss es sg gr hw rd old l' v' es' :
  order_inv (mk_msystem l Resetting cv ss es sg gr hw rd) ->
  rmw suspend_reset_order reset_exchange l cv = (old, l', v') ->
  event_inv (erase (mk_msystem l' Running v' ss es' sg sg hw rd)) ->
  order_inv (mk_msystem l' Running v' ss es' sg sg hw rd).
Proof.
  intros Hi Er He'. pose proof (no_calls _ (o_event _ Hi)) as Hn. cbn in Hn. rewrite Hn in * by done.
  destruct Hi as [_ Hso Hcv _ Hsi _ _ _ _ _]. cbn in *.
  destruct (rmw_sound _ _ _ _ _ _ _ Er Hso Hcv) as [Hso' Hv'].
  apply rmw_spec in Er as (_ & Ev & Em & Ei & Hvv & Hrel & Hacq & _ & _). specialize (Hacq eq_refl).
  split; cbn; try done.
  - unfold valid. lia.
  - by intros t u ?%elem_of_nil.
  - by rewrite Hsi, Hrel.
  - intros _. by rewrite Hsi, Hacq.
  - intros _. apply fresh_reset; [lia|done].
  - by intros k u ?%elem_of_nil.
Qed.

Lemma event_order_inv s s' : releases o = true -> mstep s s' -> order_inv s -> order_inv s'.
Proof.
  intros Ho Hs Hi. pose proof (mstep_event_inv _ _ Hs Hi) as He. destruct Hs.
  - by eapply set_inv.
  - by eapply reset_inv.
  - by eapply set_resume_inv.
  - by eapply await_inv.
  - by eapply exchange_inv.
  - by eapply await_reset_inv.
Qed.

Lemma event_order_inv_start b : order_inv (mstart b).
Proof.
  split; cbn; try done.
  - apply event_inv_start.
  - apply sound_init.
  - apply le_n.
  - by intros t v ?%elem_of_nil.
  - intros _ [|i] m _ Hm; [|done]. injection Hm as <-. destruct b; auto.
  - by intros h v ?%elem_of_nil.
Qed.

Lemma order_inv_rtc s s' : releases o = true -> rtc mstep s s' -> order_inv s ->
  order_inv s' /\ rtc step (erase s) (erase s').
Proof.
  intros Ho. induction 1 as [s|s s1 s' Hs _ IH]; intros Hi; [by split|].
  destruct (IH (event_order_inv _ _ Ho Hs Hi)) as [Hi' Hr]. split; [done|].
  eapply rtc_l; [by apply event_step_erase|done].
Qed.

(** The coroutine does not forget. *)
Lemma mstep_cview s s' : mstep s s' -> order_inv s -> facts (cview s) ⊆ facts (cview s').
Proof.
  destruct 1 as [| |h v l c cv ss1 ss2 es sg gr hw rd|h w v l cv ss es sg gr hw rd Hcv Hw Hv|
    h l cv ss es sg gr hw rd old l' v' Hx|l cv ss es sg gr hw rd old l' v' Er]; intros Hi; cbn; try done.
  - destruct (o_resuming _ Hi h v) as [_ Hx]; [cbn; set_solver|]. cbn in Hx. set_solver.
  - by rewrite Hcv.
  - destruct Hx as [l' v' _ (_ & _ & _ & _ & Hvv & _)%rmw_spec|i x v' (_ & _ & _ & _ & Hvv & _)%load_spec _]; apply Hvv.
  - apply rmw_spec in Er as (_ & _ & _ & _ & Hvv & _). apply Hvv.
Qed.

Definition reads_visible (s : msystem) : Prop := forall w v, (w, v) ∈ reads s -> w ∈ facts v.

(** An acquiring exchange would see the handle that it has read. *)
Lemma mstep_reads s s' : acquires o = true -> mstep s s' -> order_inv s -> reads_visible s -> reads_visible s'.
Proof.
  intros Ho Hs Hi Hr. destruct Hs as [f v l c cv ss es sg gr hw rd old l' v' Hf Hv Er| | | | |]; try exact Hr.
  apply rmw_spec in Er as (-> & _ & _ & _ & _ & _ & Hacq & _). specialize (Hacq Ho).
  destruct (value (newest l)) as [| |h] eqn:Ev; try exact Hr.
  intros w u. cbn. intros [Hu|[= -> ->]%list_elem_of_singleton]%elem_of_app; [by apply Hr|].
  pose proof (o_event _ Hi) as [Hc Hx He|Hc Hx He|k Hc Hx He|k Hc Hx He|k Hc Hx He]; cbn in *; try congruence;
    try (destruct He; congruence).
  apply Hacq. pose proof (o_waiting _ Hi k Hc) as Hk. cbn in Hk. set_solver.
Qed.

Lemma reads_rtc s s' : releases o = true -> acquires o = true -> rtc mstep s s' -> order_inv s ->
  reads_visible s -> reads_visible s'.
Proof. intros Hr Ha. induction 1 as [|s s1 s' Hs _ IH]; eauto using event_order_inv, mstep_reads. Qed.

End orders.

(** The coroutine waits, and is found waiting by a [set]. *)
Lemma unsynchronised_read : exists s, rtc (mstep set_exchange_order) (mstart false) s /\ ~ reads_visible s.
Proof.
  eexists. split.
  - eapply rtc_l; [apply (m_await _ 5 1 (mk_view {[1]} 0)); [apply bottom_le|cbn; set_solver|apply le_n]|].
    eapply rtc_l; [apply m_exchange; by eapply exchanged|].
    apply rtc_once. apply (m_set _ 2 (mk_view {[2]} 0)); [cbn; set_solver|apply Nat.le_0_l|reflexivity].
  - intros Hr. specialize (Hr 1 _ (list_elem_of_here _ [])). cbn in Hr. by apply elem_of_singleton in Hr.
Qed.

(** C20: the memory orders of the auto-reset event, in every execution with views: the event
    does nothing that it does not do when its operations are sequentially consistent; in
    particular a [compare_exchange] that fails, which is relaxed and may read an old value,
    only fails when the event is set. Whenever the coroutine runs it sees what every [set] had
    written that came before the signal was taken; the thread that resumes it sees that, what
    the coroutine itself has written, and its handle. But the handle is read before: [set]
    reads it after an exchange that only releases, and there are executions in which nothing
    orders that read after the write. With [memory_order_acq_rel] there are none. *)
Theorem event_visibility b s : rtc (mstep set_exchange_order) (mstart b) s ->
  (rtc step (start b) (erase s) /\
   (coroutine s = Running -> granted s ⊆ facts (cview s)) /\
   (forall h v, (Resuming h, v) ∈ calls_ s -> {[handle_write s]} ∪ facts (cview s) ∪ granted s ⊆ facts v) /\
   (forall s', mstep set_exchange_order s s' -> facts (cview s) ⊆ facts (cview s'))) /\
  (exists s', rtc (mstep set_exchange_order) (mstart false) s' /\ ~ reads_visible s') /\
  (forall s', rtc (mstep AcqRel) (mstart b) s' -> reads_visible s').
Proof.
  intros Hs. destruct (order_inv_rtc set_exchange_order _ _ eq_refl Hs (event_order_inv_start b)) as [Hi Hr].
  split; [split; [exact Hr|split; [|split]]|split; [apply unsynchronised_read|]].
  - intros Hc. apply (o_running _ Hi). by rewrite Hc.
  - intros h v Hv. destruct (o_resuming _ Hi h v Hv) as [[Hg _] Hx]. by apply union_least.
  - intros s' H. by eapply mstep_cview.
  - intros s' H. apply (reads_rtc AcqRel _ _ eq_refl eq_refl H (event_order_inv_start b)). by intros w v ?%elem_of_nil.
Qed.

(** The event is set before the coroutine waits. *)
Lemma event_visibility_witness :
  let '(_, l1, v1) := rmw set_exchange_order (fun _ => IsSet) (location_init NotSet) (mk_view {[7]} 0) in
  let s := mk_msystem l1 Running ⊥ [] [ESet] ({[7]} ∪ ∅) ∅ 0 [] in
  rtc (mstep set_exchange_order) (mstart false) s /\ rtc step (start false) (erase s).
Proof.
  destruct (rmw set_exchange_order _ _ _) as [[x l1] v1] eqn:E. cbv zeta.
  assert (H : rtc (mstep set_exchange_order) (mstart false) (mk_msystem l1 Running ⊥ [] [ESet] ({[7]} ∪ ∅) ∅ 0 [])).
  { assert (x = NotSet) as -> by (by injection E). apply rtc_once.
    apply (m_set set_exchange_order 7 (mk_view {[7]} 0) (location_init NotSet) Running ⊥ [] [] ∅ ∅ 0 [] NotSet l1 v1);
      [cbn; set_solver|apply le_n|exact E]. }
  split; [exact H|]. apply (event_visibility false _ H).
Defined.
