(* ===== verification/EchoRevised.v ===== *)
(** * An echo server with a queue

    Models [src/example/simple/echo_revised.cpp]: a reader that puts what it receives into a
    [forward_list], and a writer that sends what is in it, woken by the auto-reset event.
    Both run on the thread of the event loop. The reader adds at the front, and the writer
    sends and then removes the front: the list is a stack, and what is removed need not be
    what was sent. *)

From stdpp Require Import relations.
From S2P Require Import Prelude Event.
Local Open Scope Z_scope.

Abbreviation message := (list Z).

Definition ECHO_BUFFER_SIZE : Z := 65536.

(** The writer: awaits the event; sends a message; has ended. [WStuck]: an assertion of the
    event has failed, or the front of an empty list was used. *)
Inductive writer_state := WAwait | WSend (m : message) | WEnded | WStuck.

#[export] Instance writer_state_eq_dec : EqDecision writer_state.
Proof. solve_decision. Defined.

(** [echo_client], what its two coroutines are doing, and what has been received and sent. *)
Record echo_client := mk_client {
  m_fd : Z;
  m_write_msgs : list message;
  m_event : m_state;
  e_writer : writer_state;
  e_reading : bool;
  e_received : list message;
  e_sent : list message;
}.

(** [m_socket.valid()] *)
Definition valid (s : echo_client) : bool := 0 <=? m_fd s.

Definition writer_handle : nat := 0.

Definition set_writer (w : writer_state) (e : m_state) (s : echo_client) : echo_client :=
  mk_client (m_fd s) (m_write_msgs s) e w (e_reading s) (e_received s) (e_sent s).
Definition set_reading (b : bool) (s : echo_client) : echo_client :=
  mk_client (m_fd s) (m_write_msgs s) (m_event s) (e_writer s) b (e_received s) (e_sent s).

(** [writer]: the loop, to where it suspends or ends. Two turns are enough: after a wait
    that finds the event set, it is not set. *)
Fixpoint run_writer (fuel : nat) (s : echo_client) : echo_client :=
  match fuel with
  | O => set_writer WStuck (m_event s) s
  | S fuel =>
      if valid s then
        match m_write_msgs s with
        | m :: _ => set_writer (WSend m) (m_event s) s
        | [] =>
            match suspend_exchange writer_handle (m_event s) with
            | (e, None) => set_writer WAwait e s
            | (e, Some IsSet) => run_writer fuel (set_writer (e_writer s) (reset_exchange e) s)
            | (e, Some _) => set_writer WStuck e s
            end
        end
      else set_writer WEnded (m_event s) s
  end.

(** A turn of [reader]: [emplace_front], and [set] resumes the writer if it waits. *)
Definition reader_turn (buf : message) (s : echo_client) : echo_client :=
  let s := mk_client (m_fd s) (buf :: m_write_msgs s) (m_event s) (e_writer s) (e_reading s)
             (e_received s ++ [buf]) (e_sent s) in
  let '(e, taken) := set_exchange (m_event s) in
  match taken with
  | Some _ => run_writer 2 (set_writer (e_writer s) (reset_exchange e) s)
  | None => set_writer (e_writer s) e s
  end.

(** [send] has ended with success: [pop_front], and the loop goes on. *)
Definition writer_sent (m : message) (s : echo_client) : echo_client :=
  match m_write_msgs s with
  | [] => set_writer WStuck (m_event s) s
  | _ :: rest =>
      run_writer 2 (mk_client (m_fd s) rest (m_event s) (e_writer s) (e_reading s) (e_received s) (e_sent s ++ [m]))
  end.

(** [stop], in either coroutine: [shutdown] and [close], which leave the number of the
    descriptor in the socket (Lifecycle.v) and do not set the event. *)
Definition stop (s : echo_client) : echo_client := s.

(** [start]: [when_all] of the reader, which receives, and the writer. *)
Definition start (fd : Z) : echo_client :=
  run_writer 2 (mk_client fd [] (event_init false) WEnded true [] []).

Definition received_ok (buf : message) : Prop := 0 < Z.of_nat (length buf) <= ECHO_BUFFER_SIZE.

Inductive step : echo_client -> echo_client -> Prop :=
| step_read buf s : e_reading s = true -> received_ok buf -> step s (reader_turn buf s)
| step_read_failed s : e_reading s = true -> step s (set_reading false (stop s))
| step_sent m s : e_writer s = WSend m -> step s (writer_sent m s)
| step_send_failed m s : e_writer s = WSend m -> step s (let s := stop s in set_writer WEnded (m_event s) s).

(** The same when nothing is received while the writer sends. *)
Definition lockstep (s s' : echo_client) : Prop :=
  step s s' /\ (forall m, e_writer s = WSend m -> e_received s' = e_received s).

(** ** The invariant *)

Record client_inv (s : echo_client) : Prop := {
  client_valid : valid s = true;
  client_event : m_event s = Waiting writer_handle <-> e_writer s = WAwait;
  client_handle h : m_event s = Waiting h -> h = writer_handle;
  client_send m : e_writer s = WSend m -> m ∈ m_write_msgs s;
  client_await : e_writer s = WAwait -> m_write_msgs s = [];
  client_stuck : e_writer s <> WStuck;
  client_queue m : m ∈ m_write_msgs s -> m ∈ e_received s;
  client_sent m : m ∈ e_sent s -> m ∈ e_received s;
  client_count : length (e_received s) = (length (e_sent s) + length (m_write_msgs s))%nat;
}.

(** Where the loop of the writer goes on from. *)
Record writer_ready (s : echo_client) : Prop := {
  ready_valid : valid s = true;
  ready_event : m_event s = NotSet \/ m_event s = IsSet;
  ready_queue m : m ∈ m_write_msgs s -> m ∈ e_received s;
  ready_sent m : m ∈ e_sent s -> m ∈ e_received s;
  ready_count : length (e_received s) = (length (e_sent s) + length (m_write_msgs s))%nat;
}.

(** It sends the front, or waits when there is none; nothing else changes. *)
Lemma run_writer_spec s : valid s = true -> (m_event s = NotSet \/ m_event s = IsSet) ->
  run_writer 2 s =
  match m_write_msgs s with
  | m :: _ => set_writer (WSend m) (m_event s) s
  | [] => set_writer WAwait (Waiting writer_handle) s
  end.
Proof.
  intros Hv He. destruct s as [fd q e w rd rc sn]. unfold valid in Hv. cbn in Hv, He. unfold run_writer, valid.
  cbn [m_fd m_write_msgs m_event]. rewrite Hv. destruct q as [|m q]; [|done].
  destruct He as [-> | ->]; cbn; by rewrite ?Hv.
Qed.

Lemma run_writer_ready s : writer_ready s -> client_inv (run_writer 2 s).
Proof.
  intros [Hv He Hq Hs Hc]. rewrite run_writer_spec by done. destruct (m_write_msgs s) as [|m q] eqn:E.
  - split; cbn; rewrite ?E in *; auto; try done. by intros h [= <-].
  - split; cbn; rewrite ?E in *; auto; try done.
    + split; [|done]. destruct He as [-> | ->]; done.
    + intros h Hh. destruct He; congruence.
    + intros m' [= <-]. by left.
Qed.

Lemma start_inv fd : 0 <= fd -> client_inv (start fd).
Proof.
  intros Hfd. apply run_writer_ready. split; cbn; auto; try (intros m Hm; by apply elem_of_nil in Hm).
  unfold valid. cbn. by destruct (Z.leb_spec 0 fd); [|lia].
Qed.

Lemma ready_reader buf s : client_inv s ->
  writer_ready (mk_client (m_fd s) (buf :: m_write_msgs s) NotSet (e_writer s) (e_reading s)
             (e_received s ++ [buf]) (e_sent s)).
Proof.
  intros Hi. split; cbn.
  - apply (client_valid s Hi).
  - by left.
  - intros m [->|Hm]%elem_of_cons; set_solver by eauto using client_queue.
  - intros m Hm. apply elem_of_app. left. by apply (client_sent s Hi).
  - rewrite length_app, (client_count s Hi). simpl. lia.
Qed.

Lemma reader_turn_inv buf s : client_inv s -> client_inv (reader_turn buf s).
Proof.
  intros Hi. pose proof (ready_reader buf s Hi) as Hr. unfold reader_turn. cbn [m_event].
  destruct (m_event s) as [| |h] eqn:E; cbn [set_exchange].
  3: { by apply run_writer_ready. }
  all: destruct Hr as [Hv _ Hq Hs Hc], Hi as [Hv' He Hh Hs' Ha Hk _ _ _]; split; cbn in *; auto; try done.
  all: try (split; [done|]; intros Hw; rewrite E in He; by apply He in Hw).
  all: try (intros m Hm; right; auto; by apply Hs').
  all: intros Hw; rewrite E in He; by apply He in Hw.
Qed.

Lemma writer_sent_inv m s : e_writer s = WSend m -> client_inv s -> client_inv (writer_sent m s).
Proof.
  intros Hw Hi. unfold writer_sent. pose proof (client_send s Hi m Hw) as Hm.
  destruct (m_write_msgs s) as [|x rest] eqn:E; [by apply elem_of_nil in Hm|].
  apply run_writer_ready. destruct Hi as [Hv He Hh Hs Ha Hk Hq Hsn Hc]. rewrite E in *. split; cbn.
  - exact Hv.
  - destruct (m_event s) as [| |h] eqn:Ee; [by left|by right|].
    rewrite (Hh h eq_refl) in He. destruct He as [He _]. by rewrite He in Hw.
  - intros m' Hm'. apply Hq. by right.
  - intros m' [Hm'|Hm']%elem_of_app; [by apply Hsn|]. apply list_elem_of_singleton in Hm' as ->. by apply Hq.
  - rewrite length_app, Hc. simpl. lia.
Qed.

Lemma client_step_inv s s' : step s s' -> client_inv s -> client_inv s'.
Proof.
  destruct 1 as [buf s _ _|s _|m s Hw|m s Hw]; intros Hi.
  - by apply reader_turn_inv.
  - destruct Hi. by split.
  - by apply writer_sent_inv.
  - destruct Hi as [Hv He Hh Hs Ha Hk Hq Hsn Hc]. split; cbn; auto; try done.
    split; [|done]. unfold stop. intros Hev. apply He in Hev. congruence.
Qed.

Lemma rtc_inv fd s : 0 <= fd -> rtc step (start fd) s -> client_inv s.
Proof. intros Hfd Hs. pose proof (start_inv fd Hfd) as H0. revert H0. induction Hs; eauto using client_step_inv. Qed.

(** In lockstep there is never more than the message that is sent, and the order is kept. *)
Definition in_order (s : echo_client) : Prop :=
  e_received s = e_sent s ++ m_write_msgs s /\ (length (m_write_msgs s) <= 1)%nat /\
  forall m, m_write_msgs s = [m] -> e_writer s = WSend m.

Definition ordered (s : echo_client) : Prop :=
  client_inv s /\ e_sent s `prefix_of` e_received s /\ (e_writer s = WEnded \/ in_order s).

Lemma in_order_ordered s : client_inv s -> in_order s -> ordered s.
Proof. intros Hi Ho. split; [done|]. split; [|by right]. exists (m_write_msgs s). apply Ho. Qed.

(** What is received while the writer does not wait is only queued. *)
Lemma reader_turn_busy buf s : client_inv s -> e_writer s <> WAwait ->
  reader_turn buf s = mk_client (m_fd s) (buf :: m_write_msgs s) IsSet (e_writer s) (e_reading s)
    (e_received s ++ [buf]) (e_sent s).
Proof.
  intros Hi Hw. unfold reader_turn. cbn [m_event]. destruct (m_event s) as [| |h] eqn:E; [done..|].
  rewrite (client_handle s Hi h E) in E. by apply (client_event s Hi) in E.
Qed.

(** What is received while it waits is sent. *)
Lemma reader_turn_waiting buf s : client_inv s -> e_writer s = WAwait ->
  reader_turn buf s = mk_client (m_fd s) [buf] NotSet (WSend buf) (e_reading s) (e_received s ++ [buf]) (e_sent s).
Proof.
  intros Hi Hw. unfold reader_turn. cbn [m_event].
  rewrite (proj2 (client_event s Hi) Hw). cbn [set_exchange].
  rewrite run_writer_spec by (first [apply (client_valid s Hi)|by left]).
  cbn. by rewrite (client_await s Hi Hw).
Qed.

(** The event while the writer does not wait. *)
Lemma client_event_free s : client_inv s -> e_writer s <> WAwait -> m_event s = NotSet \/ m_event s = IsSet.
Proof.
  intros Hi Hw. destruct (m_event s) as [| |h] eqn:E; [by left|by right|].
  rewrite (client_handle s Hi h E) in E. by apply (client_event s Hi) in E.
Qed.

(** The end of a [send]. *)
Lemma writer_sent_spec m x rest s : client_inv s -> e_writer s = WSend m -> m_write_msgs s = x :: rest ->
  let s1 := mk_client (m_fd s) rest (m_event s) (e_writer s) (e_reading s) (e_received s) (e_sent s ++ [m]) in
  writer_sent m s = match rest with
                    | y :: _ => set_writer (WSend y) (m_event s) s1
                    | [] => set_writer WAwait (Waiting writer_handle) s1
                    end.
Proof.
  intros Hi Hw Eq. unfold writer_sent. rewrite Eq, run_writer_spec; [done|apply (client_valid s Hi)|].
  apply (client_event_free s Hi). by rewrite Hw.
Qed.

Lemma lockstep_ordered s s' : lockstep s s' -> ordered s -> ordered s'.
Proof.
  intros [Hs Hl] (Hi & Hp & Ho). assert (client_inv s') as Hi' by by apply (client_step_inv s).
  destruct Hs as [buf s Hr Hb|s Hr|m s Hw|m s Hw].
  - destruct (decide (e_writer s = WAwait)) as [Hw|Hw].
    + apply in_order_ordered; [done|]. rewrite (reader_turn_waiting buf s Hi Hw).
      destruct Ho as [Ho|(Ho & _)]; [congruence|]. split; cbn; [|split; [lia|by intros m [= <-]]].
      by rewrite Ho, (client_await s Hi Hw), app_nil_r.
    + split; [done|]. rewrite (reader_turn_busy buf s Hi Hw) in *. cbn in *. split; [by apply prefix_app_r|].
      destruct (e_writer s) as [|m| |] eqn:Ew; [done| |by left|by destruct (client_stuck s Hi)].
      specialize (Hl m eq_refl). apply (f_equal length) in Hl. rewrite length_app in Hl. simpl in Hl. lia.
  - split; [done|]. split; [done|]. exact Ho.
  - destruct Ho as [Ho|(Ho & Hn & Hq)]; [congruence|]. pose proof (client_send s Hi m Hw) as Hm.
    apply in_order_ordered; [done|].
    destruct (m_write_msgs s) as [|x [|y q]] eqn:Eq; [by apply elem_of_nil in Hm| |simpl in Hn; lia].
    specialize (Hq x eq_refl). rewrite Hw in Hq. injection Hq as ->.
    rewrite (writer_sent_spec x x [] s Hi Hw Eq). split; cbn; [|split; [lia|done]]. by rewrite app_nil_r.
  - split; [done|]. split; [done|]. by left.
Qed.

Lemma rtc_ordered fd s : 0 <= fd -> rtc lockstep (start fd) s -> ordered s.
Proof.
  intros Hfd Hs. assert (ordered (start fd)) as H0.
  { apply in_order_ordered; [by apply start_inv|].
    unfold start. rewrite run_writer_spec; [|unfold valid; cbn; by destruct (Z.leb_spec 0 fd); [|lia]|by left].
    by split; [|split; [cbn; lia|]]. }
  revert H0. induction Hs; eauto using lockstep_ordered.
Qed.

(** C38: the echo server with a queue. Whatever is received and sent, in any order: no
    assertion fails, the front of an empty list is never used, and only what has been
    received is sent. When nothing is received during a [send], what has been sent is, in
    order, the beginning of what has been received, all of it when the writer waits.
    But a message received during a [send] is lost when it is the last one before the
    [send] ends: it is removed in place of the one sent, and the list is as it was before -
    with the message that was being sent, which is sent a second time. And when the reader
    ends while the writer waits, nothing wakes the writer: the session never ends. *)
Theorem echo_revised_correct fd s : 0 <= fd -> rtc step (start fd) s ->
  e_writer s <> WStuck /\ (forall m, m ∈ e_sent s -> m ∈ e_received s) /\
  (rtc lockstep (start fd) s ->
     e_sent s `prefix_of` e_received s /\ (e_writer s = WAwait -> e_sent s = e_received s)) /\
  (forall m buf, e_writer s = WSend m -> e_reading s = true -> received_ok buf ->
     exists s1 s2, step s s1 /\ step s1 s2 /\
       e_received s2 = e_received s ++ [buf] /\ e_sent s2 = e_sent s ++ [m] /\
       m_write_msgs s2 = m_write_msgs s /\ e_writer s2 = WSend (hd [] (m_write_msgs s))) /\
  (e_writer s = WAwait -> e_reading s = true ->
     exists s', step s s' /\ e_writer s' = WAwait /\ forall s'', ~ step s' s'').
Proof.
  intros Hfd Hs. pose proof (rtc_inv fd s Hfd Hs) as Hi. split; [apply (client_stuck s Hi)|].
  split; [apply (client_sent s Hi)|]. split; [|split].
  - intros Hl. destruct (rtc_ordered fd s Hfd Hl) as (_ & Hp & Ho). split; [done|]. intros Hw.
    destruct Ho as [Ho|(Ho & _)]; [congruence|]. by rewrite Ho, (client_await s Hi Hw), app_nil_r.
  - intros m buf Hw Hr Hb. set (s1 := reader_turn buf s). exists s1, (writer_sent m s1).
    assert (Hs1 : step s s1) by by apply step_read. pose proof (client_step_inv _ _ Hs1 Hi) as Hi1.
    assert (E : s1 = mk_client (m_fd s) (buf :: m_write_msgs s) IsSet (e_writer s) (e_reading s)
      (e_received s ++ [buf]) (e_sent s)) by (apply reader_turn_busy; [done|by rewrite Hw]).
    assert (Hw1 : e_writer s1 = WSend m) by by rewrite E.
    split; [done|]. split; [by apply step_sent|].
    rewrite (writer_sent_spec m buf (m_write_msgs s) s1 Hi1 Hw1) by by rewrite E.
    pose proof (client_send s Hi m Hw) as Hm. rewrite E.
    destruct (m_write_msgs s) as [|x rest]; [by apply elem_of_nil in Hm|done].
  - intros Hw Hr. exists (set_reading false (stop s)). split; [by apply step_read_failed|]. split; [done|].
    intros s'' H. inversion H; cbn in *; unfold stop in *; congruence.
Qed.

(** The client sends "a", and "b" while "a" is being echoed: it gets "a" twice. *)
Lemma echo_revised_correct_witness :
  exists s1 s2 s3, rtc step (start 4) s1 /\ e_writer s1 = WSend [97] /\ step s1 s2 /\ step s2 s3 /\
    e_received s3 = [[97]; [98]] /\ e_sent s3 = [[97]] /\ e_writer s3 = WSend [97] /\ m_write_msgs s3 = [[97]].
Proof.
  set (s1 := mk_client 4 [[97]] NotSet (WSend [97]) true [[97]] []).
  assert (H : rtc step (start 4) s1) by (apply rtc_once; apply (step_read [97]); [reflexivity|split; [reflexivity|discriminate]]).
  destruct (echo_revised_correct 4 s1 ltac:(discriminate) H) as (_ & _ & _ & H1 & _).
  destruct (H1 [97] [98] eq_refl eq_refl) as (s2 & s3 & H2 & H3 & Er & Es & Eq & Ew); [split; [reflexivity|discriminate]|].
  exists s1, s2, s3. split; [exact H|]. split; [reflexivity|]. split; [exact H2|]. split; [exact H3|].
  split; [exact Er|]. split; [exact Es|]. split; [exact Ew|exact Eq].
Defined.
