(* ===== verification/Promise.v ===== *)
(** * Promises

    Models the promise types of [coroutine/task.h], [coroutine/detail/when_all_task.h] and
    [coroutine/detail/sync_wait_task.h] of [src/include/xynet], by which a coroutine leaves
    its result: the templates, their specialisations for [void], and for references. They
    implement one interface, against which the coroutine types are proved; the interface
    also holds of a choice between two of them, since a program awaits tasks of several
    types. *)

From S2P Require Import Prelude.

(** ** The interface *)

(** What [result()] does: it gives a value, rethrows an exception, or has no meaning: an
    assertion that fails, a pointer that is null or was never set. *)
Inductive fetched (V E : Type) := Got (v : V) | Rethrown (e : E) | Undefined.
Arguments Got {V E}.
Arguments Rethrown {V E}.
Arguments Undefined {V E}.

(** The value that stands for [void]. *)
Class Void (V : Type) := void : V.
#[export] Hint Mode Void ! : typeclass_instances.
#[export] Instance unit_void : Void unit := tt.

(** The template argument: a type of values, [void], a reference; [returned k v] is what is
    left of the value [v] that a coroutine of the type [k] returns. *)
Inductive value_kind := ValueType.
Inductive void_kind := VoidType.
Inductive ref_kind := RefType.

Class Returned (K V : Type) := returned : K -> V -> V.
#[export] Hint Mode Returned ! - : typeclass_instances.
#[export] Instance value_returned {V} : Returned value_kind V := fun _ v => v.
#[export] Instance void_returned `{Void V} : Returned void_kind V := fun _ _ => void.
#[export] Instance ref_returned {V} : Returned ref_kind V := fun _ v => v.

Class Promise (K P V E : Type) := {
  promise_init : K -> P;
  return_value : V -> P -> P;
  unhandled_exception : E -> P -> P;
  result : P -> fetched V E;
}.
#[export] Hint Mode Promise - ! - - : typeclass_instances.

(** The end of a coroutine's body. *)
Definition finish_promise {K P V E} `{Promise K P V E} (d : V + E) (p : P) : P :=
  match d with inl v => return_value v p | inr e => unhandled_exception e p end.

(** What a coroutine of the type [k] that ends with [d] promises. *)
Definition outcome {K V E} `{Returned K V} (k : K) (d : V + E) : fetched V E :=
  match d with inl v => Got (returned k v) | inr e => Rethrown e end.

Class PromiseLaws (K P V E : Type) `{Returned K V, Promise K P V E} := {
  result_value k v : result (return_value v (promise_init k : P)) = Got (returned k v);
  result_exception k e : result (unhandled_exception e (promise_init k : P)) = Rethrown e;
}.

Lemma result_finish {K P V E} `{PromiseLaws K P V E} k d :
  result (finish_promise d (promise_init k : P)) = outcome k d.
Proof. destruct d; [apply result_value|apply result_exception]. Qed.

(** ** [task_promise] *)

Section task_promise.
Context {V E : Type}.

(** [m_resultType] with the union of [m_value] and [m_exception]. *)
Inductive result_type := result_empty | result_of_value (m_value : V) | result_of_exception (m_exception : E).
Record task_promise := mk_task_promise { m_result_type : result_type }.

Definition task_return_value (v : V) (p : task_promise) : task_promise := mk_task_promise (result_of_value v).
Definition task_unhandled_exception (e : E) (p : task_promise) : task_promise :=
  mk_task_promise (result_of_exception e).
Definition task_result (p : task_promise) : fetched V E :=
  match m_result_type p with
  | result_of_exception e => Rethrown e
  | result_of_value v => Got v
  | result_empty => Undefined
  end.

#[export] Instance task_promise_interface : Promise value_kind task_promise V E := {|
  promise_init _ := mk_task_promise result_empty;
  return_value := task_return_value;
  unhandled_exception := task_unhandled_exception;
  result := task_result;
|}.
#[export] Instance task_promise_laws : PromiseLaws value_kind task_promise V E.
Proof. by constructor. Qed.

(** ** [task_promise<void>] *)

Context `{!Void V}.

Record task_promise_void := mk_task_promise_void { task_void_exception : option E }.

Definition task_return_void (p : task_promise_void) : task_promise_void := p.
Definition task_void_unhandled_exception (e : E) (p : task_promise_void) : task_promise_void :=
  mk_task_promise_void (Some e).
Definition task_void_result (p : task_promise_void) : fetched V E :=
  match task_void_exception p with Some e => Rethrown e | None => Got void end.

#[export] Instance task_promise_void_interface : Promise void_kind task_promise_void V E := {|
  promise_init _ := mk_task_promise_void None;
  return_value _ := task_return_void;
  unhandled_exception := task_void_unhandled_exception;
  result := task_void_result;
|}.
#[export] Instance task_promise_void_laws : PromiseLaws void_kind task_promise_void V E.
Proof. by constructor. Qed.

(** ** [task_promise<T&>]: a reference is the address of what it refers to. *)

Record task_promise_ref := mk_task_promise_ref { task_ref_value : option V; task_ref_exception : option E }.

Definition task_ref_return_value (value : V) (p : task_promise_ref) : task_promise_ref :=
  mk_task_promise_ref (Some value) (task_ref_exception p).
Definition task_ref_unhandled_exception (e : E) (p : task_promise_ref) : task_promise_ref :=
  mk_task_promise_ref (task_ref_value p) (Some e).
Definition task_ref_result (p : task_promise_ref) : fetched V E :=
  match task_ref_exception p with
  | Some e => Rethrown e
  | None => match task_ref_value p with Some value => Got value | None => Undefined end
  end.

#[export] Instance task_promise_ref_interface : Promise ref_kind task_promise_ref V E := {|
  promise_init _ := mk_task_promise_ref None None;
  return_value := task_ref_return_value;
  unhandled_exception := task_ref_unhandled_exception;
  result := task_ref_result;
|}.
#[export] Instance task_promise_ref_laws : PromiseLaws ref_kind task_promise_ref V E.
Proof. by constructor. Qed.

End task_promise.
Arguments result_type : clear implicits.
Arguments task_promise : clear implicits.
Arguments task_promise_void : clear implicits.
Arguments task_promise_ref : clear implicits.

(** ** [when_all_task_promise] *)

Section when_all_task_promise.
Context {V E : Type}.

(** [m_result] points to the value in the frame of the coroutine, which is suspended in
    [co_yield]; it is set there and not before. The counter is with the task. *)
Record when_all_task_promise := mk_when_all_promise {
  when_all_result_pointer : option V; when_all_exception : option E }.

Definition when_all_yield_value (v : V) (p : when_all_task_promise) : when_all_task_promise :=
  mk_when_all_promise (Some v) (when_all_exception p).
Definition when_all_unhandled_exception (e : E) (p : when_all_task_promise) : when_all_task_promise :=
  mk_when_all_promise (when_all_result_pointer p) (Some e).
(** [rethrow_if_exception], and the two overloads of [result]. *)
Definition when_all_promise_result (p : when_all_task_promise) : fetched V E :=
  match when_all_exception p with
  | Some e => Rethrown e
  | None => match when_all_result_pointer p with Some v => Got v | None => Undefined end
  end.

#[export] Instance when_all_promise_interface : Promise value_kind when_all_task_promise V E := {|
  promise_init _ := mk_when_all_promise None None;
  return_value := when_all_yield_value;
  unhandled_exception := when_all_unhandled_exception;
  result := when_all_promise_result;
|}.
#[export] Instance when_all_promise_laws : PromiseLaws value_kind when_all_task_promise V E.
Proof. by constructor. Qed.

(** [when_all_task_promise<void>] *)
Context `{!Void V}.

Record when_all_task_promise_void := mk_when_all_promise_void { when_all_void_exception : option E }.

Definition when_all_return_void (p : when_all_task_promise_void) : when_all_task_promise_void := p.
Definition when_all_void_unhandled_exception (e : E) (p : when_all_task_promise_void) : when_all_task_promise_void :=
  mk_when_all_promise_void (Some e).
Definition when_all_void_result (p : when_all_task_promise_void) : fetched V E :=
  match when_all_void_exception p with Some e => Rethrown e | None => Got void end.

#[export] Instance when_all_promise_void_interface : Promise void_kind when_all_task_promise_void V E := {|
  promise_init _ := mk_when_all_promise_void None;
  return_value _ := when_all_return_void;
  unhandled_exception := when_all_void_unhandled_exception;
  result := when_all_void_result;
|}.
#[export] Instance when_all_promise_void_laws : PromiseLaws void_kind when_all_task_promise_void V E.
Proof. by constructor. Qed.

End when_all_task_promise.
Arguments when_all_task_promise : clear implicits.
Arguments when_all_task_promise_void : clear implicits.

(** ** [sync_wait_task_promise] *)

Section sync_wait_task_promise.
Context {V E : Type}.

(** The event is with the task. *)
Record sync_wait_task_promise := mk_sync_promise { sync_result_pointer : option V; sync_exception : option E }.

Definition sync_yield_value (v : V) (p : sync_wait_task_promise) : sync_wait_task_promise :=
  mk_sync_promise (Some v) (sync_exception p).
Definition sync_unhandled_exception (e : E) (p : sync_wait_task_promise) : sync_wait_task_promise :=
  mk_sync_promise (sync_result_pointer p) (Some e).
Definition sync_promise_result (p : sync_wait_task_promise) : fetched V E :=
  match sync_exception p with
  | Some e => Rethrown e
  | None => match sync_result_pointer p with Some v => Got v | None => Undefined end
  end.

#[export] Instance sync_promise_interface : Promise value_kind sync_wait_task_promise V E := {|
  promise_init _ := mk_sync_promise None None;
  return_value := sync_yield_value;
  unhandled_exception := sync_unhandled_exception;
  result := sync_promise_result;
|}.
#[export] Instance sync_promise_laws : PromiseLaws value_kind sync_wait_task_promise V E.
Proof. by constructor. Qed.

(** [sync_wait_task_promise<void>] *)
Context `{!Void V}.

Record sync_wait_task_promise_void := mk_sync_promise_void { sync_void_exception : option E }.

Definition sync_return_void (p : sync_wait_task_promise_void) : sync_wait_task_promise_void := p.
Definition sync_void_unhandled_exception (e : E) (p : sync_wait_task_promise_void) : sync_wait_task_promise_void :=
  mk_sync_promise_void (Some e).
Definition sync_void_result (p : sync_wait_task_promise_void) : fetched V E :=
  match sync_void_exception p with Some e => Rethrown e | None => Got void end.

#[export] Instance sync_promise_void_interface : Promise void_kind sync_wait_task_promise_void V E := {|
  promise_init _ := mk_sync_promise_void None;
  return_value _ := sync_return_void;
  unhandled_exception := sync_void_unhandled_exception;
  result := sync_void_result;
|}.
#[export] Instance sync_promise_void_laws : PromiseLaws void_kind sync_wait_task_promise_void V E.
Proof. by constructor. Qed.

End sync_wait_task_promise.
Arguments sync_wait_task_promise : clear implicits.
Arguments sync_wait_task_promise_void : clear implicits.

(** ** Several types at once *)

Section sum.
Context {K1 P1 K2 P2 V E : Type} `{PromiseLaws K1 P1 V E, PromiseLaws K2 P2 V E}.

#[export] Instance sum_returned : Returned (K1 + K2) V :=
  fun k v => match k with inl k => returned k v | inr k => returned k v end.

#[export] Instance sum_promise : Promise (K1 + K2) (P1 + P2) V E := {|
  promise_init k := match k with inl k => inl (promise_init k) | inr k => inr (promise_init k) end;
  return_value v p := match p with inl p => inl (return_value v p) | inr p => inr (return_value v p) end;
  unhandled_exception e p :=
    match p with inl p => inl (unhandled_exception e p) | inr p => inr (unhandled_exception e p) end;
  result p := match p with inl p => result p | inr p => result p end;
|}.
#[export] Instance sum_promise_laws : PromiseLaws (K1 + K2) (P1 + P2) V E.
Proof. constructor; intros [k|k] ?; cbn; first [apply result_value|apply result_exception]. Qed.

End sum.
