(* ===== verification/SyncWait.v ===== *)
(** * Waiting from outside

    Models [coroutine/detail/lightweight_manual_reset_event.h],
    [coroutine/detail/sync_wait_task.h] and [coroutine/sync_wait.h] of [src/include/xynet]:
    an event on a futex, the threads that set it and wait for it interleaving, and
    [sync_wait], by which a thread runs an awaitable and blocks until it has ended. Of the
    futex the model has what its manual says: [FUTEX_WAIT] sleeps if the word holds the
    value given and fails with [EAGAIN] if not, may fail otherwise and may wake without a
    cause; [FUTEX_WAKE] wakes those that sleep. *)

From stdpp Require Import relations list.
From S2P Require Import Prelude Promise.
Local Open Scope Z_scope.

(** ** The event *)

(** The word [m_value]. *)
Definition event_init (initiallySet : bool) : Z := if initiallySet then 1 else 0.

(** A thread in [wait]: before its load, before the system call with the value it has
    loaded, asleep, over; in [set]: before the store, before the wake-up, over; in [reset]. *)
Inductive thread :=
| WLoad | WFutex (oldValue : Z) | WSleep | WDone
| SStore | SWake | SDone
| RStore | RDone.

#[export] Instance thread_eq_dec : EqDecision thread.
Proof. solve_decision. Defined.

(** The condition of the loop in [wait]. *)
Definition wait_loaded (oldValue : Z) : thread := if oldValue =? 0 then WFutex oldValue else WDone.

(** The system call: asleep, or [EAGAIN], at which [wait] returns. *)
Definition futex_wait (m_value oldValue : Z) : thread := if m_value =? oldValue then WSleep else WDone.

(** [FUTEX_WAKE] of [INT_MAX] threads. *)
Definition futex_wake (ts : list thread) : list thread :=
  (fun t => match t with WSleep => WLoad | _ => t end) <$> ts.

(** The state: the word and the threads. *)
Definition state : Type := Z * list thread.

(** A step of thread [i]. *)
Inductive tstep (i : nat) : state -> state -> Prop :=
| wait_load v ts : ts !! i = Some WLoad -> tstep i (v, ts) (v, <[i := wait_loaded v]> ts)
| wait_futex v ts old : ts !! i = Some (WFutex old) -> tstep i (v, ts) (v, <[i := futex_wait v old]> ts)
| wait_error v ts old : ts !! i = Some (WFutex old) -> tstep i (v, ts) (v, <[i := WLoad]> ts)
| wait_spurious v ts : ts !! i = Some WSleep -> tstep i (v, ts) (v, <[i := WLoad]> ts)
| set_store v ts : ts !! i = Some SStore -> tstep i (v, ts) (1, <[i := SWake]> ts)
| set_wake v ts : ts !! i = Some SWake -> tstep i (v, ts) (v, futex_wake (<[i := SDone]> ts))
| reset_store v ts : ts !! i = Some RStore -> tstep i (v, ts) (0, <[i := RDone]> ts).

Definition step (s s' : state) : Prop := exists i, tstep i s s'.

(** A thread at the beginning of a call. *)
Definition initial (t : thread) : Prop := t = WLoad \/ t = SStore \/ t = RStore.

(** [set] has stored. *)
Definition stored (t : thread) : Prop := t = SWake \/ t = SDone.

Definition finished (t : thread) : Prop := t = WDone \/ t = SDone \/ t = RDone.

(** The steps left, when the word is one. *)
Definition thread_work (t : thread) : nat :=
  match t with
  | WFutex _ | WSleep | SStore => 2
  | WLoad | SWake | RStore => 1
  | WDone | SDone | RDone => 0
  end.
Definition work (ts : list thread) : nat := sum_list_with thread_work ts.

(** *** Invariants *)

Record event_inv (v0 : Z) (s : state) : Prop := {
  inv_value : s.1 = 0 \/ s.1 = 1;
  inv_old i old : s.2 !! i = Some (WFutex old) -> old = 0;
  inv_set : s.1 = 1 \/ WDone ∈ s.2 -> v0 = 1 \/ exists t, t ∈ s.2 /\ stored t;
  inv_sleep : s.1 = 1 -> WSleep ∈ s.2 -> SWake ∈ s.2;
}.

(** The thread [i] goes on to [t'] and the others stay. *)
Lemma elem_of_insert_cases {A} (l : list A) i x y : y ∈ <[i := x]> l -> y = x \/ y ∈ l.
Proof.
  intros (j & Hj)%list_elem_of_lookup. destruct (decide (i = j)) as [<-|Hne].
  - destruct (decide (i < length l)%nat).
    + rewrite list_lookup_insert_eq in Hj by done. left. congruence.
    + rewrite list_insert_ge in Hj by lia. right. apply list_elem_of_lookup. eauto.
  - rewrite list_lookup_insert_ne in Hj by done. right. apply list_elem_of_lookup. eauto.
Qed.

Lemma elem_of_insert_other {A} (l : list A) i x y z : l !! i = Some x -> x <> y -> y ∈ l -> y ∈ <[i := z]> l.
Proof.
  intros Hi Hne (j & Hj)%list_elem_of_lookup. apply list_elem_of_lookup. exists j.
  rewrite list_lookup_insert_ne; [done|]. intros ->. congruence.
Qed.

Lemma elem_of_insert_eq {A} (l : list A) i x z : l !! i = Some x -> z ∈ <[i := z]> l.
Proof.
  intros Hi. apply list_elem_of_lookup. exists i. apply list_lookup_insert_eq. by eapply lookup_lt_Some.
Qed.

Lemma elem_of_wake t ts : t ∈ futex_wake ts <-> exists u, t = match u with WSleep => WLoad | _ => u end /\ u ∈ ts.
Proof. apply list_elem_of_fmap. Qed.

Lemma work_insert ts i t t' : ts !! i = Some t ->
  (work (<[i := t']> ts) + thread_work t = work ts + thread_work t')%nat.
Proof.
  unfold work. revert i. induction ts as [|x ts IH]; intros [|i]; try done.
  - intros [= ->]. cbn. lia.
  - intros Hi. specialize (IH i Hi). change (<[S i := t']> (x :: ts)) with (x :: <[i := t']> ts).
    revert IH. generalize (<[i := t']> ts). intros l IH. cbn. lia.
Qed.

Lemma work_wake ts : (work (futex_wake ts) <= work ts)%nat.
Proof. induction ts as [|t ts IH]; [done|]. unfold work, futex_wake in *. cbn [fmap list_fmap sum_list_with]. destruct t; cbn [thread_work]; lia. Qed.

Lemma insert_stored (ts : list thread) (i : nat) t t' : ts !! i = Some t -> ~ stored t ->
  (exists u, u ∈ ts /\ stored u) -> exists u, u ∈ <[i := t']> ts /\ stored u.
Proof.
  intros Hi Hn (u & Hu & Hs). exists u. split; [|done]. apply (elem_of_insert_other _ _ t); [done| |done].
  by intros ->.
Qed.

Lemma step_stored s s' : step s s' -> (exists u, u ∈ s.2 /\ stored u) -> exists u, u ∈ s'.2 /\ stored u.
Proof.
  intros [i Hs]. destruct Hs as [v ts Hi|v ts old Hi|v ts old Hi|v ts Hi|v ts Hi|v ts Hi|v ts Hi]; cbn [fst snd];
    try (apply (insert_stored _ _ _ _ Hi); intros [|]; done).
  intros _. exists SDone. split; [|by right]. apply elem_of_wake. exists SDone. split; [done|].
  by eapply elem_of_insert_eq.
Qed.

(** What a load and a system call lead to. *)
Lemma wait_loaded_done v : v = 0 \/ v = 1 -> WDone = wait_loaded v -> v = 1.
Proof. intros [-> | ->]; done. Qed.
Lemma futex_wait_done v old : v = 0 \/ v = 1 -> old = 0 -> WDone = futex_wait v old -> v = 1.
Proof. intros [-> | ->] ->; done. Qed.

Lemma insert_cases (t t' : thread) (ts : list thread) (i : nat) : t ∈ <[i := t']> ts -> t <> t' -> t ∈ ts.
Proof. intros [->|H]%elem_of_insert_cases; done. Qed.

(** A [WDone] after the step. *)
Lemma step_done v0 s s' : step s s' -> event_inv v0 s -> s'.1 = 1 \/ WDone ∈ s'.2 ->
  (s.1 = 1 \/ WDone ∈ s.2) \/ exists u, u ∈ s'.2 /\ stored u.
Proof.
  intros [i Hs] [Hv Hold _ _].
  destruct Hs as [v ts Hi|v ts old Hi|v ts old Hi|v ts Hi|v ts Hi|v ts Hi|v ts Hi]; cbn [fst snd] in *;
    (intros [H1|H1]; [try (left; left; exact H1)|]).
  - apply elem_of_insert_cases in H1 as [H1|H1]; [|tauto]. apply wait_loaded_done in H1; tauto.
  - apply elem_of_insert_cases in H1 as [H1|H1]; [|tauto]. apply futex_wait_done in H1; eauto.
  - apply insert_cases in H1; [tauto|done].
  - apply insert_cases in H1; [tauto|done].
  - right. exists SWake. split; [by eapply elem_of_insert_eq|by left].
  - right. exists SWake. split; [by eapply elem_of_insert_eq|by left].
  - apply elem_of_wake in H1 as (u & Hu & H1). destruct u; try done.
    apply insert_cases in H1; [tauto|done].
  - done.
  - apply insert_cases in H1; [tauto|done].
Qed.

Lemma step_event_inv v0 s s' : step s s' -> event_inv v0 s -> event_inv v0 s'.
Proof.
  intros Hs Hi. pose proof (step_stored s s' Hs) as Hst. pose proof (step_done v0 s s' Hs Hi) as Hd.
  destruct Hi as [Hv Hold Hset Hsl].
  assert (s'.1 = 1 \/ WDone ∈ s'.2 -> v0 = 1 \/ exists t, t ∈ s'.2 /\ stored t) as Hset'.
  { intros H. destruct (Hd H) as [H1|H1]; [|by right]. destruct (Hset H1); auto. }
  destruct Hs as [i Hs].
  split; [| |exact Hset'|]; clear Hset' Hset Hst Hd;
    destruct Hs as [v ts Hi|v ts old Hi|v ts old Hi|v ts Hi|v ts Hi|v ts Hi|v ts Hi]; cbn [fst snd] in *; auto.
  - intros j o Hj. apply list_elem_of_lookup_2, elem_of_insert_cases in Hj as [Hj|(k & Hj)%list_elem_of_lookup]; eauto.
    unfold wait_loaded in Hj. destruct (Z.eqb_spec v 0); [congruence|done].
  - intros j o Hj. apply list_elem_of_lookup_2, elem_of_insert_cases in Hj as [Hj|(k & Hj)%list_elem_of_lookup]; eauto.
    unfold futex_wait in Hj. by destruct (v =? old).
  - intros j o Hj. apply list_elem_of_lookup_2, elem_of_insert_cases in Hj as [Hj|(k & Hj)%list_elem_of_lookup]; eauto. done.
  - intros j o Hj. apply list_elem_of_lookup_2, elem_of_insert_cases in Hj as [Hj|(k & Hj)%list_elem_of_lookup]; eauto. done.
  - intros j o Hj. apply list_elem_of_lookup_2, elem_of_insert_cases in Hj as [Hj|(k & Hj)%list_elem_of_lookup]; eauto. done.
  - intros j o Hj. apply list_elem_of_lookup_2, elem_of_wake in Hj as (u & Hu & Hj). destruct u; try done.
    injection Hu as ->. apply insert_cases in Hj as (k & Hj)%list_elem_of_lookup; eauto.
  - intros j o Hj. apply list_elem_of_lookup_2, elem_of_insert_cases in Hj as [Hj|(k & Hj)%list_elem_of_lookup]; eauto. done.
  - intros H1 H2. apply insert_cases in H2; [|by subst]. apply (elem_of_insert_other _ _ WLoad); auto.
  - intros H1 H2. assert (futex_wait v old = WDone) as E.
    { rewrite (Hold i old Hi), H1. done. }
    rewrite E in *. apply insert_cases in H2; [|done]. apply (elem_of_insert_other _ _ (WFutex old)); auto.
  - intros H1 H2. apply insert_cases in H2; [|done]. apply (elem_of_insert_other _ _ (WFutex old)); auto.
  - intros H1 H2. apply insert_cases in H2; [|done]. apply (elem_of_insert_other _ _ WSleep); auto.
  - intros _ _. by eapply elem_of_insert_eq.
  - intros _ (u & Hu & _)%elem_of_wake. by destruct u.
  - done.
Qed.

Lemma step_event_inv_rtc v0 s s' : rtc step s s' -> event_inv v0 s -> event_inv v0 s'.
Proof. induction 1; eauto using step_event_inv. Qed.

Lemma manual_inv_start b ts : Forall initial ts -> event_inv (event_init b) (event_init b, ts).
Proof.
  intros Hf. rewrite list.Forall_forall in Hf. split; cbn.
  - destruct b; auto.
  - intros i old Hi. apply list_elem_of_lookup_2, Hf in Hi as [|[|]]; done.
  - intros [H|H]; [by left|]. apply Hf in H as [|[|]]; done.
  - intros _ H. apply Hf in H as [|[|]]; done.
Qed.

(** *** The end of the calls *)

(** Once the word is one and nothing resets it, every step brings the threads nearer to the
    end of their calls. *)
Lemma step_work v0 s s' : step s s' -> event_inv v0 s -> s.1 = 1 -> RStore ∉ s.2 ->
  (work s'.2 < work s.2)%nat /\ s'.1 = 1 /\ RStore ∉ s'.2.
Proof.
  intros [i Hs]. destruct Hs as [v ts Hi|v ts old Hi|v ts old Hi|v ts Hi|v ts Hi|v ts Hi|v ts Hi]; cbn [fst snd];
    intros Hinv E Hr; try subst v.
  - pose proof (work_insert ts i _ WDone Hi) as Hw. change (wait_loaded 1) with WDone. cbn [thread_work] in Hw. split_and!; [lia|done|].
    by intros ?%insert_cases.
  - pose proof (work_insert ts i _ WDone Hi) as Hw. cbn [thread_work] in Hw.
    rewrite (inv_old _ _ Hinv i old Hi). change (futex_wait 1 0) with WDone. split_and!; [lia|done|]. by intros ?%insert_cases.
  - pose proof (work_insert ts i _ WLoad Hi) as Hw. cbn [thread_work] in Hw. split_and!; [lia|done|]. by intros ?%insert_cases.
  - pose proof (work_insert ts i _ WLoad Hi) as Hw. cbn [thread_work] in Hw. split_and!; [lia|done|]. by intros ?%insert_cases.
  - pose proof (work_insert ts i _ SWake Hi) as Hw. cbn [thread_work] in Hw. split_and!; [lia|done|]. by intros ?%insert_cases.
  - pose proof (work_insert ts i _ SDone Hi) as Hw. cbn [thread_work] in Hw. pose proof (work_wake (<[i := SDone]> ts)) as Hw'.
    split_and!; [lia|done|]. intros (u & Hu & Hin)%elem_of_wake. destruct u; try done. by apply insert_cases in Hin.
  - exfalso. apply Hr. apply list_elem_of_lookup. eauto.
Qed.

(** A thread that is not asleep or done can go on. *)
Lemma thread_enabled s i t : s.2 !! i = Some t -> t <> WSleep -> ~ finished t -> exists s', tstep i s s'.
Proof.
  destruct s as [v ts]. cbn. intros Hi Hs Hf.
  destruct t; try done; try (by destruct Hf; unfold finished; auto); eexists;
    [by apply wait_load|by eapply wait_futex|by apply set_store|by apply set_wake|by apply reset_store].
Qed.

#[local] Instance finished_dec t : Decision (finished t).
Proof. unfold finished. apply _. Defined.

Lemma event_progress v0 s : event_inv v0 s -> s.1 = 1 ->
  Forall finished s.2 \/ exists i s', tstep i s s' /\ s.2 !! i <> Some WSleep.
Proof.
  intros Hinv E. destruct (decide (Forall finished s.2)) as [Hf|Hf]; [by left|right].
  apply not_Forall_Exists, list.Exists_exists in Hf; [|intros t; apply finished_dec].
  destruct Hf as (t & (i & Hi)%list_elem_of_lookup & Hf).
  destruct (decide (t = WSleep)) as [->|Hne].
  - pose proof (inv_sleep _ _ Hinv E (list_elem_of_lookup_2 _ _ _ Hi)) as (j & Hj)%list_elem_of_lookup.
    destruct (thread_enabled s j SWake Hj) as [s' Hs']; [done|intros [|[|]]; done|].
    exists j, s'. rewrite Hj. done.
  - destruct (thread_enabled s i t Hi Hne Hf) as [s' Hs']. exists i, s'. split; [done|]. rewrite Hi. congruence.
Qed.

(** C30: the manual-reset event, for any threads that set it, reset it and wait for it, in
    every interleaving: [wait] only returns after a [set] has stored, if the event was not
    set from the start; a thread only sleeps on a set event if a [set] is about to wake it:
    no wake-up is lost; and once the event is set, and nothing resets it, every step brings
    the calls nearer to their ends and, without spurious wake-ups, there is one until all
    have ended: all the waits return. *)
Theorem manual_reset_event b ts s : Forall initial ts -> rtc step (event_init b, ts) s ->
  (WDone ∈ s.2 -> b = true \/ exists t, t ∈ s.2 /\ stored t) /\
  (s.1 = 1 -> WSleep ∈ s.2 -> SWake ∈ s.2) /\
  (s.1 = 1 -> RStore ∉ s.2 ->
   (forall s', step s s' -> (work s'.2 < work s.2)%nat /\ s'.1 = 1 /\ RStore ∉ s'.2) /\
   (Forall finished s.2 \/ exists i s', tstep i s s' /\ s.2 !! i <> Some WSleep)).
Proof.
  intros Hf Hs. pose proof (step_event_inv_rtc _ _ _ Hs (manual_inv_start b ts Hf)) as Hi. split; [|split].
  - intros Hd. destruct (inv_set _ _ Hi (or_intror Hd)); [|by right]. left. by destruct b.
  - apply Hi.
  - intros E Hr. split; [|by eapply event_progress]. intros s' Hs'. by eapply step_work.
Qed.

(** One thread waits and sleeps before the other sets the event. *)
Lemma manual_reset_event_witness :
  rtc step (event_init false, [WLoad; SStore]) (1, [WSleep; SWake]) /\
  (1 = 1 -> WSleep ∈ [WSleep; SWake] -> SWake ∈ [WSleep; SWake]).
Proof.
  assert (H : rtc step (event_init false, [WLoad; SStore]) (1, [WSleep; SWake])).
  { eapply rtc_l; [exists 0%nat; by apply wait_load|]. eapply rtc_l; [exists 0%nat; by apply wait_futex|].
    apply rtc_once. exists 1%nat. by apply (set_store 1 0 [WSleep; SStore]). }
  split; [exact H|].
  apply (manual_reset_event false [WLoad; SStore] (1, [WSleep; SWake])); [|exact H].
  constructor; [by left|]. constructor; [by right; left|constructor].
Defined.

(** ** [sync_wait] *)

Section sync_wait.
Context {K P R E : Type} `{ret : !Returned K R, prom : !Promise K P R E, laws : !PromiseLaws K P R E}.

(** The body of [make_sync_wait_task] goes on with what the awaitable gives: it yields the
    value, or, without one, comes to its end. *)
Definition make_sync_wait_task (d : R + E) (p : P) : P :=
  match d with inl r => return_value r p | inr e => unhandled_exception e p end.

(** The task: suspended at its start, running, and in [set] at its end; [sync_wait]: before
    [start], in [wait], returned. *)
Inductive stage := Created | Started | Ended.
Inductive caller := Begin | InWait | Returned (r : fetched R E).

Record system := mk_system {
  m_value : Z; waiter : thread; setter : thread; task_ : stage; caller_ : caller;
  promise : P }.

Definition init (k : K) : system := mk_system (event_init false) WLoad SStore Created Begin (promise_init k).

(** The type of the awaitable, and how it ends, whenever it does. *)
Context (k : K) (d : R + E).

Inductive sync_step : system -> system -> Prop :=
| sync_start v t u p :
    sync_step (mk_system v t u Created Begin p) (mk_system v t u Started InWait p)
| sync_end v t u c p :
    sync_step (mk_system v t u Started c p) (mk_system v t u Ended c (make_sync_wait_task d p))
| sync_wait_ v t u g p v' t' u' : tstep 0 (v, [t; u]) (v', [t'; u']) ->
    sync_step (mk_system v t u g InWait p) (mk_system v' t' u' g InWait p)
| sync_set v t u c p v' t' u' : tstep 1 (v, [t; u]) (v', [t'; u']) ->
    sync_step (mk_system v t u Ended c p) (mk_system v' t' u' Ended c p)
| sync_return v u g p :
    sync_step (mk_system v WDone u g InWait p) (mk_system v WDone u g (Returned (result p)) p).

Definition threads (s : system) : state := (m_value s, [waiter s; setter s]).

Definition waits (t : thread) : Prop :=
  match t with WLoad | WFutex _ | WSleep | WDone => True | _ => False end.
Definition sets (t : thread) : Prop := match t with SStore | SWake | SDone => True | _ => False end.

Record sync_inv (s : system) : Prop := {
  sync_event : rtc step (event_init false, [WLoad; SStore]) (threads s);
  sync_kinds : waits (waiter s) /\ sets (setter s);
  sync_value : m_value s = if decide (setter s = SStore) then 0 else 1;
  sync_begin : caller_ s = Begin <-> task_ s = Created;
  sync_early : task_ s <> Ended -> setter s = SStore;
  sync_promise : promise s = match task_ s with Ended => make_sync_wait_task d (promise_init k) | _ => promise_init k end;
  sync_returned r : caller_ s = Returned r -> task_ s = Ended /\ r = outcome k d;
}.

(** The steps left. *)
Definition sync_work (s : system) : nat :=
  (match task_ s with Created => 2 | Started => 1 | Ended => 0 end +
   match caller_ s with Returned _ => 0 | _ => 1 end + work (threads s).2)%nat.

(** A step of the thread that waits, and of the one that sets. *)
Lemma tstep_waits v t u v' t' u' : waits t -> tstep 0 (v, [t; u]) (v', [t'; u']) ->
  v' = v /\ u' = u /\ waits t'.
Proof.
  intros Hw Hs. inversion Hs as [? ? Hi|? ? ? Hi|? ? ? Hi|? ? Hi|? ? Hi|? ? Hi|? ? Hi];
    cbn in Hi; injection Hi as ->; subst; try done; split_and!; try done.
  - unfold wait_loaded. by destruct (v' =? 0).
  - unfold futex_wait. by destruct (v' =? old).
Qed.

Lemma tstep_sets v t u v' t' u' : sets u -> waits t -> tstep 1 (v, [t; u]) (v', [t'; u']) ->
  waits t' /\ (u = SStore /\ u' = SWake /\ v' = 1 \/ u = SWake /\ u' = SDone /\ v' = v).
Proof.
  intros Hu Hw Hs. inversion Hs as [? ? Hi|? ? ? Hi|? ? ? Hi|? ? Hi|? ? Hi|? ? Hi|? ? Hi];
    cbn in Hi; injection Hi as ->; subst; try done; split; auto. by destruct t.
Qed.

Lemma pair_inv s : rtc step (event_init false, [WLoad; SStore]) s -> event_inv 0 s.
Proof.
  intros Hs. apply (step_event_inv_rtc _ _ _ Hs). apply (manual_inv_start false).
  constructor; [by left|]. constructor; [by right; left|constructor].
Qed.

Lemma pair_done v t u : rtc step (event_init false, [WLoad; SStore]) (v, [t; u]) -> WDone ∈ [t; u] ->
  stored t \/ stored u.
Proof.
  intros Hs Hd. destruct (inv_set _ _ (pair_inv _ Hs) (or_intror Hd)) as [|(x & Hx & Hst)]; [done|].
  apply elem_of_cons in Hx as [->|Hx]; [by left|]. apply list_elem_of_singleton in Hx as ->. by right.
Qed.

Lemma sync_inv_init : sync_inv (init k).
Proof. by split. Qed.

Lemma sync_step_inv s s' : sync_step s s' -> sync_inv s -> sync_inv s'.
Proof.
  destruct 1 as [v t u p|v t u c p|v t u g p v' t' u' Hs|v t u c p v' t' u' Hs|v u g p];
    intros [He [Hw Hu] Hv Hb Hy Hp Hr]; cbn in *.
  - split; cbn; auto; try done.
  - split; cbn; auto; try done.
    + split; [|done]. intros ->. by destruct Hb as [Hb _]; specialize (Hb eq_refl).
    + by rewrite Hp.
    + intros r Hc. by destruct (Hr r Hc).
  - destruct (tstep_waits _ _ _ _ _ _ Hw Hs) as (-> & -> & Hw').
    split; cbn; auto. eapply rtc_r; [exact He|]. by exists 0%nat.
  - destruct (tstep_sets _ _ _ _ _ _ Hu Hw Hs) as [Hw' Huv].
    split; cbn; auto; try done.
    + eapply rtc_r; [exact He|]. by exists 1%nat.
    + by destruct Huv as [(-> & -> & ->)|(-> & -> & ->)].
    + by destruct Huv as [(-> & -> & ->)|(-> & -> & ->)].
  - split; cbn; auto; try done.
    + split; [done|]. intros ->. by destruct Hb as [_ Hb]; specialize (Hb eq_refl).
    + intros r [= <-].
      destruct (pair_done _ _ _ He (list_elem_of_here _ _)) as [Hst|Hst]; [by destruct Hst|].
      assert (g = Ended) as ->.
      { destruct g; [| |done]; exfalso; rewrite (Hy ltac:(done)) in Hst; by destruct Hst. }
      split; [done|]. rewrite Hp. exact (result_finish k d).
Qed.

(** The steps of the two threads. *)
Lemma pair_load v u : tstep 0 (v, [WLoad; u]) (v, [wait_loaded v; u]).
Proof. exact (wait_load 0 v [WLoad; u] eq_refl). Qed.
Lemma pair_futex v o u : tstep 0 (v, [WFutex o; u]) (v, [futex_wait v o; u]).
Proof. exact (wait_futex 0 v [WFutex o; u] o eq_refl). Qed.
Lemma pair_store v t : tstep 1 (v, [t; SStore]) (1, [t; SWake]).
Proof. exact (set_store 1 v [t; SStore] eq_refl). Qed.
Lemma pair_wake v : tstep 1 (v, [WSleep; SWake]) (v, [WLoad; SDone]).
Proof. exact (set_wake 1 v [WSleep; SWake] eq_refl). Qed.

Lemma sync_inv_rtc s s' : rtc sync_step s s' -> sync_inv s -> sync_inv s'.
Proof. induction 1; eauto using sync_step_inv. Qed.

(** A wake-up without a cause. *)
Definition spurious (s s' : system) : Prop := waiter s = WSleep /\ waiter s' = WLoad /\ setter s' = setter s.

Lemma sync_progress s : sync_inv s ->
  (exists r, caller_ s = Returned r) \/ exists s', sync_step s s' /\ ~ spurious s s'.
Proof.
  destruct s as [v t u g c p]. intros [He [Hw Hu] Hv Hb Hy _ _]. cbn in *.
  destruct c as [| |r]; [right|right|left; eauto].
  - rewrite (proj1 Hb eq_refl). eexists. split; [apply sync_start|]. intros (H1 & H2 & _). cbn in *. congruence.
  - destruct t as [|o| | | | | | |]; try done.
    + eexists. split; [apply sync_wait_, pair_load|]. by intros [? _].
    + eexists. split; [apply sync_wait_, pair_futex|]. by intros [? _].
    + destruct g.
      * destruct Hb as [_ Hb]. specialize (Hb eq_refl). done.
      * eexists. split; [apply sync_end|]. by intros (_ & ? & _).
      * destruct u as [| | | | | | | |]; try done.
        -- eexists. split; [apply sync_set, pair_store|]. by intros (_ & ? & _).
        -- eexists. split; [apply sync_set, pair_wake|]. by intros (_ & _ & ?).
        -- exfalso. pose proof (inv_sleep _ _ (pair_inv _ He) Hv (list_elem_of_here _ _)) as Hk.
           apply elem_of_cons in Hk as [?|Hk]; [done|]. by apply list_elem_of_singleton in Hk.
    + eexists. split; [apply sync_return|]. by intros [? _].
Qed.

Lemma sync_work_step s s' : sync_step s s' -> sync_inv s -> m_value s = 1 -> (sync_work s' < sync_work s)%nat.
Proof.
  intros Hs Hi Hone. pose proof (pair_inv _ (sync_event _ Hi)) as Hinv. pose proof (sync_kinds _ Hi) as [Hw Hu].
  assert (RStore ∉ [waiter s; setter s]) as Hr.
  { intros [Hx|Hx%list_elem_of_singleton]%elem_of_cons; by rewrite <- Hx in *. }
  unfold sync_work, threads.
  destruct Hs as [v t u p|v t u c p|v t u g p v' t' u' Hs|v t u c p v' t' u' Hs|v u g p]; cbn [snd] in *;
    cbn [m_value waiter setter task_ caller_] in *; try lia.
  - destruct (step_work 0 _ _ (ex_intro _ 0%nat Hs) Hinv Hone Hr) as [Hlt _]. cbn [snd] in Hlt. lia.
  - destruct (step_work 0 _ _ (ex_intro _ 1%nat Hs) Hinv Hone Hr) as [Hlt _]. cbn [snd] in Hlt. lia.
Qed.

(** C18: [sync_wait], of an awaitable of any type. In every interleaving of the thread that
    waits with the one on which the awaitable ends: [sync_wait] only returns when the
    awaitable has ended, with its value, or rethrowing its exception; it never reads a result
    that is not there; it is never stuck, even without spurious wake-ups; and once the event
    is set, every step brings it nearer to its return. *)
Theorem sync_wait_correct s : rtc sync_step (init k) s ->
  (forall r, caller_ s = Returned r -> task_ s = Ended /\ r = outcome k d) /\
  ((exists r, caller_ s = Returned r) \/ exists s', sync_step s s' /\ ~ spurious s s') /\
  (m_value s = 1 -> forall s', sync_step s s' -> (sync_work s' < sync_work s)%nat).
Proof.
  intros Hs. pose proof (sync_inv_rtc _ _ Hs sync_inv_init) as Hi. split; [|split].
  - apply Hi.
  - by apply sync_progress.
  - intros Hone s' Hs'. by apply sync_work_step.
Qed.

End sync_wait.

(** The awaitable, without a value, throws while the caller is about to sleep. *)
Lemma sync_wait_correct_witness :
  let s := mk_system (R := unit) 1 WDone SWake Ended (Returned (Rethrown 7%nat)) (mk_sync_promise_void (Some 7%nat)) in
  rtc (sync_step (inr 7%nat)) (init VoidType) s /\ Rethrown 7%nat = outcome (V := unit) VoidType (inr 7%nat).
Proof.
  cbv zeta. set (s := mk_system _ _ _ _ _ _).
  assert (Hr : rtc (sync_step (inr 7%nat)) (init VoidType) s).
  { eapply rtc_l; [apply sync_start|]. eapply rtc_l; [apply sync_wait_, pair_load|].
    eapply rtc_l; [apply sync_end|]. eapply rtc_l; [apply sync_set, pair_store|].
    eapply rtc_l; [apply sync_wait_, pair_futex|]. apply rtc_once.
    exact (sync_return (R := unit) (inr 7%nat) 1 SWake Ended (mk_sync_promise_void (Some 7%nat))). }
  split; [exact Hr|]. apply (sync_wait_correct VoidType (inr 7%nat) s Hr). reflexivity.
Defined.
