(* ===== verification/WaitOrders.v ===== *)
(** * The memory orders of the manual-reset event

    [coroutine/detail/lightweight_manual_reset_event.h] of [src/include/xynet], with its word
    as a location of [Memory] and the orders the code names. The kernel compares the newest
    value of the word; it is no operation of the language, and gives the thread no view. *)

From stdpp Require Import relations gmap.
From S2P Require Import Prelude Memory SyncWait.
Local Open Scope Z_scope.

(** ** The orders of the code *)

Definition set_order : order := Release.
Definition reset_order : order := Relaxed.
Definition wait_order : order := Acquire.

(** ** The system *)

(** A thread of [SyncWait]; of a [wait] that is over, what it returned after; of a [set], the
    write [f] that the thread has made before. *)
Inductive vthread :=
| VLoad | VFutex (oldValue : Z) | VSleep | VLoaded | VAgain
| VStore (f : nat) | VWake | VSet
| VReset | VResetDone.

Definition erase_thread (t : vthread) : thread :=
  match t with
  | VLoad => WLoad | VFutex old => WFutex old | VSleep => WSleep | VLoaded | VAgain => WDone
  | VStore _ => SStore | VWake => SWake | VSet => SDone
  | VReset => RStore | VResetDone => RDone
  end.

(** The condition of the loop, and the system call, as in [SyncWait]. *)
Definition vwait_loaded (oldValue : Z) : vthread := if oldValue =? 0 then VFutex oldValue else VLoaded.
Definition vfutex_wait (m_value oldValue : Z) : vthread := if m_value =? oldValue then VSleep else VAgain.
Definition vfutex_wake (ts : list (vthread * view)) : list (vthread * view) :=
  (fun t => match t with (VSleep, v) => (VLoad, v) | _ => t end) <$> ts.

(** The word, the threads, and the writes of the calls of [set] that have stored. *)
Record vstate := mk_vstate { word : location Z; threads : list (vthread * view); stored_writes : gset nat }.

(** A load reads any message that the thread's view allows, of any age. *)
Inductive vstep : vstate -> vstate -> Prop :=
| v_load i k v l ts fs old v' : ts !! i = Some (VLoad, v) -> load wait_order k l v = Some (old, v') ->
    vstep (mk_vstate l ts fs) (mk_vstate l (<[i := (vwait_loaded old, v')]> ts) fs)
| v_futex i v l ts fs old : ts !! i = Some (VFutex old, v) ->
    vstep (mk_vstate l ts fs) (mk_vstate l (<[i := (vfutex_wait (value (newest l)) old, v)]> ts) fs)
| v_error i v l ts fs old : ts !! i = Some (VFutex old, v) ->
    vstep (mk_vstate l ts fs) (mk_vstate l (<[i := (VLoad, v)]> ts) fs)
| v_spurious i v l ts fs : ts !! i = Some (VSleep, v) ->
    vstep (mk_vstate l ts fs) (mk_vstate l (<[i := (VLoad, v)]> ts) fs)
| v_store i f v l ts fs l' v' : ts !! i = Some (VStore f, v) -> f ∈ facts v -> store set_order 1 l v = (l', v') ->
    vstep (mk_vstate l ts fs) (mk_vstate l' (<[i := (VWake, v')]> ts) ({[f]} ∪ fs))
| v_wake i v l ts fs : ts !! i = Some (VWake, v) ->
    vstep (mk_vstate l ts fs) (mk_vstate l (vfutex_wake (<[i := (VSet, v)]> ts)) fs)
| v_reset i v l ts fs l' v' : ts !! i = Some (VReset, v) -> store reset_order 0 l v = (l', v') ->
    vstep (mk_vstate l ts fs) (mk_vstate l' (<[i := (VResetDone, v')]> ts) fs).

Definition vstart (b : bool) (ts : list (vthread * view)) : vstate :=
  mk_vstate (location_init (event_init b)) ts ∅.

Definition vinitial (t : vthread * view) : Prop := initial (erase_thread t.1).

(** ** The invariant *)

(** What a thread knows that has seen the event set, set by [set] or from the beginning. *)
Definition saw_set (b : bool) (fs : gset nat) (v : view) : Prop := b = true \/ exists f, f ∈ fs /\ f ∈ facts v.

Record wait_inv (b : bool) (s : vstate) : Prop := {
  w_messages k m : messages (word s) !! k = Some m ->
    value m = 0 \/ (value m = 1 /\ saw_set b (stored_writes s) (released m));
  w_futex i old v : threads s !! i = Some (VFutex old, v) -> old = 0;
  w_loaded i v : threads s !! i = Some (VLoaded, v) -> saw_set b (stored_writes s) v;
  w_again i v : threads s !! i = Some (VAgain, v) -> b = true \/ stored_writes s <> ∅;
}.

Lemma saw_set_mono b fs fs' v v' : fs ⊆ fs' -> v ⊑ v' -> saw_set b fs v -> saw_set b fs' v'.
Proof. intros Hf [Hv _] [->|(f & H1 & H2)]; [by left|]. right. exists f. set_solver. Qed.

(** The threads after a step: the one that made it, and the others. *)
Lemma lookup_step {A} (ts : list A) i j x y : <[i := x]> ts !! j = Some y -> y = x \/ ts !! j = Some y.
Proof. intros [(-> & -> & _)|[_ H]]%list_lookup_insert_Some; auto. Qed.

Lemma wait_inv_threads b l ts fs i x : wait_inv b (mk_vstate l ts fs) ->
  (forall old v, x = (VFutex old, v) -> old = 0) ->
  (forall v, x = (VLoaded, v) -> saw_set b fs v) ->
  (forall v, x = (VAgain, v) -> b = true \/ fs <> ∅) ->
  wait_inv b (mk_vstate l (<[i := x]> ts) fs).
Proof.
  intros [Hm Hf Hl Ha] H1 H2 H3. cbn in *. split; cbn; [exact Hm|..].
  - intros j old v [E|E]%lookup_step; eauto.
  - intros j v [E|E]%lookup_step; eauto.
  - intros j v [E|E]%lookup_step; eauto.
Qed.

(** A store of a message that is zero, or carries the writes of a [set]. *)
Lemma wait_inv_store b l ts fs fs' m : wait_inv b (mk_vstate l ts fs) -> fs ⊆ fs' ->
  value m = 0 \/ (value m = 1 /\ saw_set b fs' (released m)) -> wait_inv b (mk_vstate (write m l) ts fs').
Proof.
  intros [Hm Hf Hl Ha] Hs Hn. cbn [word threads stored_writes] in *. split; cbn [word threads stored_writes].
  - intros k m'. rewrite messages_write. intros [Hk|[_ Hk]]%lookup_app_Some.
    + destruct (Hm k m' Hk) as [?|[? ?]]; [by left|]. right. split; [done|]. by eapply saw_set_mono.
    + by apply list_lookup_singleton_Some in Hk as [_ <-].
  - exact Hf.
  - intros i v Hi. eapply saw_set_mono; [exact Hs|reflexivity|by eapply Hl].
  - intros i v Hi. destruct (Ha i v Hi); [by left|]. right. set_solver.
Qed.

Lemma lookup_wake ts i t v : vfutex_wake ts !! i = Some (t, v) -> t <> VLoad -> ts !! i = Some (t, v).
Proof. intros ([u w] & E & H)%list_lookup_fmap_Some Hne. destruct u; injection E as -> ->; done. Qed.

Lemma vstep_inv b s s' : vstep s s' -> wait_inv b s -> wait_inv b s'.
Proof.
  destruct 1 as [i k v l ts fs old v' Hi Hl|i v l ts fs old Hi|i v l ts fs old Hi|i v l ts fs Hi|
      i f v l ts fs l' v' Hi Hf Hs|i v l ts fs Hi|i v l ts fs l' v' Hi Hs]; intros Hinv.
  - apply load_spec in Hl as (m & Hm & <- & _ & _ & Hacq). specialize (Hacq eq_refl).
    pose proof (w_messages _ _ Hinv k m Hm) as Hv. unfold vwait_loaded.
    apply wait_inv_threads; [done|..]; destruct Hv as [Ev|[Ev Hsaw]]; rewrite Ev; cbn; try done.
    + by intros old v0 [= <- _].
    + intros v0 [= <-]. by eapply saw_set_mono.
  - pose proof (w_futex _ _ Hinv i old v Hi) as ->. unfold vfutex_wait.
    pose proof (w_messages _ _ Hinv _ _ (messages_newest l)) as [Ev|[Ev Hsaw]]; cbn in Ev; rewrite Ev; cbn;
      apply wait_inv_threads; try done.
    intros _ _. destruct Hsaw as [->|(f & Hf & _)]; [by left|]. right. cbn in Hf. set_solver.
  - by apply wait_inv_threads.
  - by apply wait_inv_threads.
  - injection Hs as <- <-. apply wait_inv_threads; [|done..].
    eapply wait_inv_store; [done|set_solver|]. right. split; [done|]. right. exists f. cbn. set_solver.
  - destruct (wait_inv_threads b l ts fs i (VSet, v) Hinv) as [Hm Hfu Hlo Ha]; [done..|]. cbn in *. split; cbn; [done|..].
    + intros j old u Hj. apply (Hfu j old u). by apply lookup_wake.
    + intros j u Hj. apply (Hlo j u). by apply lookup_wake.
    + intros j u Hj. apply (Ha j u). by apply lookup_wake.
  - injection Hs as <- <-. apply wait_inv_threads; [|done..]. eapply wait_inv_store; [done|done|by left].
Qed.

Lemma vstep_inv_rtc b s s' : rtc vstep s s' -> wait_inv b s -> wait_inv b s'.
Proof. induction 1; eauto using vstep_inv. Qed.

Lemma wait_inv_start b ts : Forall vinitial ts -> wait_inv b (vstart b ts).
Proof.
  intros Hts. assert (forall i t v, ts !! i = Some (t, v) -> initial (erase_thread t)) as Hi.
  { intros i t v Hi. by apply (list.Forall_lookup_1 _ _ _ _ Hts Hi). }
  split; cbn.
  - intros [|k] m Hk; [|done]. injection Hk as <-. destruct b; cbn; [right|by left]. split; [done|by left].
  - intros i old v H. destruct (Hi i _ v H) as [|[|]]; done.
  - intros i v H. destruct (Hi i _ v H) as [|[|]]; done.
  - intros i v H. destruct (Hi i _ v H) as [|[|]]; done.
Qed.

(** The load reads zero, [set] stores, the system call fails. *)
Lemma unsynchronised_wait :
  exists s', rtc vstep (vstart false [(VLoad, ⊥); (VStore 1, mk_view {[1%nat]} 0)]) s' /\
   stored_writes s' = {[1%nat]} /\ exists v, threads s' !! 0%nat = Some (VAgain, v) /\ facts v = ∅.
Proof.
  eexists. split.
  - eapply rtc_l; [eapply (v_load 0 0); reflexivity|].
    eapply rtc_l; [eapply (v_store 1); [reflexivity|cbn; set_solver|reflexivity]|].
    apply rtc_once. eapply (v_futex 0). reflexivity.
  - split; [cbn; set_solver|]. eexists. split; reflexivity.
Qed.

(** C31: the memory orders of the manual-reset event. In every execution, with loads of any
    age, a [wait] only returns when the event was set in the beginning or some [set] has
    stored; one that returns after its load sees what was written before such a [set]: of a
    single one, as in [sync_wait], everything. One that returns because the system call says
    [EAGAIN] has not acquired anything: it can return with nothing of what was written before
    the [set] that it has waited for. *)
Theorem wait_visibility b ts s : Forall vinitial ts -> rtc vstep (vstart b ts) s ->
  (forall i v, threads s !! i = Some (VLoaded, v) -> saw_set b (stored_writes s) v) /\
  (forall i v, threads s !! i = Some (VAgain, v) -> b = true \/ stored_writes s <> ∅) /\
  (forall i v f, b = false -> stored_writes s = {[f]} -> threads s !! i = Some (VLoaded, v) -> f ∈ facts v) /\
  (exists s', rtc vstep (vstart false [(VLoad, ⊥); (VStore 1, mk_view {[1%nat]} 0)]) s' /\
   stored_writes s' = {[1%nat]} /\ exists v, threads s' !! 0%nat = Some (VAgain, v) /\ facts v = ∅).
Proof.
  intros Hts Hs. pose proof (vstep_inv_rtc _ _ _ Hs (wait_inv_start b ts Hts)) as Hi.
  split; [apply (w_loaded _ _ Hi)|split; [apply (w_again _ _ Hi)|split]].
  - intros i v f -> Hf Hv. destruct (w_loaded _ _ Hi i v Hv) as [?|(g & Hg & Hgv)]; [done|].
    rewrite Hf in Hg. by apply elem_of_singleton in Hg as ->.
  - apply unsynchronised_wait.
Qed.

(** A thread waits, finds the event set by another one and returns. *)
Lemma wait_visibility_witness :
  let ts := [(VLoad, ⊥); (VStore 1, mk_view {[1%nat]} 0)] in
  Forall vinitial ts /\ exists s v, rtc vstep (vstart false ts) s /\
    threads s !! 0%nat = Some (VLoaded, v) /\ saw_set false (stored_writes s) v.
Proof.
  assert (Hts : Forall vinitial [(VLoad, ⊥); (VStore 1, mk_view {[1%nat]} 0)]).
  { constructor; [by left|constructor; [by right; left|constructor]]. }
  split; [exact Hts|].
  assert (H : exists s v, rtc vstep (vstart false [(VLoad, ⊥); (VStore 1, mk_view {[1%nat]} 0)]) s /\
    threads s !! 0%nat = Some (VLoaded, v)).
  { eexists. eexists. split.
    - eapply rtc_l; [eapply (v_store 1); [reflexivity|cbn; set_solver|reflexivity]|].
      apply rtc_once. eapply (v_load 0 1); reflexivity.
    - reflexivity. }
  destruct H as (s & v & H & Hv). exists s, v. split; [exact H|]. split; [exact Hv|].
  exact (proj1 (wait_visibility false _ _ Hts H) 0%nat v Hv).
Defined.
