(* ===== verification/Fmap.v ===== *)
(** * Mapping over an awaitable

    Models [coroutine/fmap.h] of [src/include/xynet], by which [when_all] applies its
    collection of results to [when_all_ready], and the expression [co_await] itself. *)

From Stdlib Require Import Setoid Morphisms.
From S2P Require Import Prelude.

Section fmap.
Context {E : Type}.

(** ** Awaiters *)

(** What [await_suspend] says: stay suspended, go on, or transfer to another coroutine. *)
Inductive suspension := Suspend | GoOn | Transfer (h : nat).

(** An awaiter with its state; [await_resume] gives a value or throws. *)
Record awaiter (S R : Type) := mk_awaiter {
  await_ready : S -> S * bool;
  await_suspend : nat -> S -> S * suspension;
  await_resume : S -> S * (R + E);
}.
Arguments mk_awaiter {S R}.
Arguments await_ready {S R}.
Arguments await_suspend {S R}.
Arguments await_resume {S R}.

(** [co_await] in the coroutine [h]: asks whether it is ready, suspends, and resumes; [env] is
    what happens to the state while the coroutine is suspended, for what it suspended with. *)
Definition co_await {S R} (env : suspension -> S -> S) (h : nat) (w : awaiter S R) (s : S) : S * (R + E) :=
  let '(s, ready) := await_ready w s in
  if ready then await_resume w s
  else
    let '(s, how) := await_suspend w h s in
    match how with GoOn => await_resume w s | how => await_resume w (env how s) end.

(** ** [fmap] *)

(** The function may throw. *)
Definition invoke {A B} (func : A -> B + E) (r : A + E) : B + E :=
  match r with inl a => func a | inr e => inr e end.

(** [fmap_awaiter] *)
Definition fmap_awaiter {S A B} (m_func : A -> B + E) (m_awaiter : awaiter S A) : awaiter S B :=
  mk_awaiter (await_ready m_awaiter) (await_suspend m_awaiter)
    (fun s => let '(s, r) := await_resume m_awaiter s in (s, invoke m_func r)).

(** [fmap_awaitable] keeps the function and the awaitable; [operator co_await] makes the
    awaiter from the one of the awaitable. *)
Record fmap_awaitable (S A B : Type) := mk_fmap { m_func : A -> B + E; m_awaitable : awaiter S A }.
Arguments mk_fmap {S A B}.
Arguments m_func {S A B}.
Arguments m_awaitable {S A B}.

Definition operator_co_await {S A B} (a : fmap_awaitable S A B) : awaiter S B :=
  fmap_awaiter (m_func a) (m_awaitable a).

Definition fmap {S A B} (func : A -> B + E) (awaitable : awaiter S A) : fmap_awaitable S A B :=
  mk_fmap func awaitable.

(** [fmap_transform], and [value | fmap(func)]. *)
Definition fmap_transform (A B : Type) : Type := A -> B + E.
Definition operator_pipe {S A B} (value : awaiter S A) (transform : fmap_transform A B) : fmap_awaitable S A B :=
  fmap transform value.

(** ** Laws *)

(** Awaiters that behave in the same way. *)
Definition same {S R} (w w' : awaiter S R) : Prop :=
  (forall s, await_ready w s = await_ready w' s) /\
  (forall h s, await_suspend w h s = await_suspend w' h s) /\
  (forall s, await_resume w s = await_resume w' s).

#[export] Instance same_equivalence {S R} : Equivalence (@same S R).
Proof.
  split.
  - by intros w.
  - intros w w' (H1 & H2 & H3). by split_and!.
  - intros w1 w2 w3 (H1 & H2 & H3) (H4 & H5 & H6). split_and!; intros; etrans; eauto.
Qed.

#[export] Instance fmap_awaiter_proper {S A B} (f : A -> B + E) : Proper (same ==> same) (@fmap_awaiter S A B f).
Proof. intros w w' (H1 & H2 & H3). split_and!; cbn; auto. intros s. by rewrite H3. Qed.

#[export] Instance co_await_proper {S R} (env : suspension -> S -> S) (h : nat) :
  Proper (same ==> eq ==> eq) (@co_await S R env h).
Proof.
  intros w w' (H1 & H2 & H3) s s' <-. unfold co_await. rewrite H1. destruct (await_ready w' s) as [s1 []]; [apply H3|].
  rewrite H2. destruct (await_suspend w' h s1) as [s2 []]; apply H3.
Qed.

Lemma fmap_inl {S A} (w : awaiter S A) : same (operator_co_await (fmap inl w)) w.
Proof. split_and!; cbn; auto. intros s. by destruct (await_resume w s) as [? []]. Qed.

Lemma fmap_compose {S A B C} (f : A -> B + E) (g : B -> C + E) (w : awaiter S A) :
  same (operator_co_await (fmap g (operator_co_await (fmap f w))))
    (operator_co_await (fmap (fun a => invoke g (f a)) w)).
Proof. split_and!; cbn; auto. intros s. by destruct (await_resume w s) as [? []]. Qed.

(** Awaiting it suspends as the awaitable does, and applies the function, once, to what that
    gives; an exception passes by. *)
Lemma co_await_fmap {S A B} env h (f : A -> B + E) (w : awaiter S A) s :
  co_await env h (operator_co_await (fmap f w)) s =
  let '(s, r) := co_await env h w s in (s, invoke f r).
Proof.
  unfold co_await. cbn. destruct (await_ready w s) as [s1 []]; [done|].
  by destruct (await_suspend w h s1) as [s2 []].
Qed.

Lemma pipe_pipe {S A B C} env h (f : A -> B + E) (g : B -> C + E) (w : awaiter S A) s :
  co_await env h (operator_co_await (operator_pipe (operator_co_await (operator_pipe w f)) g)) s =
  let '(s, r) := co_await env h w s in (s, invoke g (invoke f r)).
Proof.
  unfold operator_pipe. rewrite fmap_compose, co_await_fmap. by destruct (co_await env h w s) as [? []].
Qed.

End fmap.
Arguments mk_awaiter {E S R}.
Arguments await_ready {E S R}.
Arguments await_suspend {E S R}.
Arguments await_resume {E S R}.
