(* ===== verification/Latch.v ===== *)
(** * Counting latches

    Models [coroutine/detail/when_all_counter.h] and [coroutine/async_scope.h] of
    [src/include/xynet]. Both count what is running, plus one for the coroutine that waits,
    in an atomic counter, and whoever takes the count to zero makes the waiting coroutine go
    on. [Latch] is the interface they share; that the coroutine goes on once, and when
    everything has finished, is proved against the interface. *)

From stdpp Require Import relations.
From S2P Require Import Prelude.
Local Open Scope Z_scope.

(** A [std::coroutine_handle<>] is a number; [None] is null. *)
Abbreviation handle := (option nat).

(** [fetch_sub(1)] and [fetch_add(1)] on a [std::size_t]: the old value and the new one. *)
Definition fetch_sub (z : Z) : Z * Z := (z, wrap 64 (z - 1)).
Definition fetch_add (z : Z) : Z * Z := (z, wrap 64 (z + 1)).

(** ** The interface *)

(** The atomic operations. [arrive] is that of something that has finished; it gives the
    handle that it resumes, if it is the last. [register_] stores the handle of the waiting
    coroutine and [leave] takes the count of the latter away: true is to suspend. [add]
    counts something more; a latch may not have it. *)
Class Latch (L : Type) := {
  count : L -> Z;
  continuation : L -> handle;
  arrive : L -> L * option handle;
  register_ : nat -> L -> L;
  leave : L -> L * bool;
  add : L -> option L;
}.

Class LatchLaws (L : Type) `{Latch L} := {
  arrive_law : forall l, exists l', arrive l = (l', if count l =? 1 then Some (continuation l) else None) /\
    count l' = wrap 64 (count l - 1) /\ continuation l' = continuation l;
  register_law : forall h l, count (register_ h l) = count l /\ continuation (register_ h l) = Some h;
  leave_law : forall l, exists l', leave l = (l', 1 <? count l) /\
    count l' = wrap 64 (count l - 1) /\ continuation l' = continuation l;
  add_law : forall l l', add l = Some l' ->
    count l <> 0 /\ count l' = wrap 64 (count l + 1) /\ continuation l' = continuation l;
}.

(** ** The implementations *)

(** [when_all_counter] *)
Record when_all_counter := mk_counter { m_count : Z; m_awaitingCoroutine : handle }.

Definition when_all_counter_init (n : Z) : when_all_counter := mk_counter (wrap 64 (n + 1)) None.

Definition is_ready (c : when_all_counter) : bool := bool_decide (is_Some (m_awaitingCoroutine c)).

(** [try_await], in its two steps. *)
Definition set_awaiting (h : nat) (c : when_all_counter) : when_all_counter := mk_counter (m_count c) (Some h).
Definition try_await_leave (c : when_all_counter) : when_all_counter * bool :=
  let '(old, new) := fetch_sub (m_count c) in (mk_counter new (m_awaitingCoroutine c), 1 <? old).
Definition try_await (h : nat) (c : when_all_counter) : when_all_counter * bool :=
  try_await_leave (set_awaiting h c).

Definition notify_awaitable_completed (c : when_all_counter) : when_all_counter * option handle :=
  let '(old, new) := fetch_sub (m_count c) in
  (mk_counter new (m_awaitingCoroutine c), if old =? 1 then Some (m_awaitingCoroutine c) else None).

#[export] Instance when_all_latch : Latch when_all_counter := {|
  count := m_count;
  continuation := m_awaitingCoroutine;
  arrive := notify_awaitable_completed;
  register_ := set_awaiting;
  leave := try_await_leave;
  add _ := None;
|}.

#[export] Instance when_all_laws : LatchLaws when_all_counter.
Proof.
  constructor; [by eexists|done|by eexists|done].
Qed.

(** [async_scope] *)
Record async_scope := mk_scope { s_count : Z; m_continuation : handle }.

Definition async_scope_init : async_scope := mk_scope 1 None.

(** [on_work_started]: [None] when its assertion fails. *)
Definition on_work_started (s : async_scope) : option async_scope :=
  if s_count s =? 0 then None else Some (mk_scope (snd (fetch_add (s_count s))) (m_continuation s)).

Definition on_work_finished (s : async_scope) : async_scope * option handle :=
  let '(old, new) := fetch_sub (s_count s) in
  (mk_scope new (m_continuation s), if old =? 1 then Some (m_continuation s) else None).

(** The awaiter of [join]: [await_ready] and the two steps of [await_suspend]. *)
Definition join_await_ready (s : async_scope) : bool := s_count s =? 0.
Definition set_continuation (h : nat) (s : async_scope) : async_scope := mk_scope (s_count s) (Some h).
Definition join_leave (s : async_scope) : async_scope * bool :=
  let '(old, new) := fetch_sub (s_count s) in (mk_scope new (m_continuation s), 1 <? old).
Definition join_await_suspend (h : nat) (s : async_scope) : async_scope * bool :=
  join_leave (set_continuation h s).

(** The destructor's assertion. *)
Definition scope_destroy_ok (s : async_scope) : bool := bool_decide (is_Some (m_continuation s)).

#[export] Instance scope_latch : Latch async_scope := {|
  count := s_count;
  continuation := m_continuation;
  arrive := on_work_finished;
  register_ := set_continuation;
  leave := join_leave;
  add := on_work_started;
|}.

#[export] Instance scope_laws : LatchLaws async_scope.
Proof.
  constructor; [by eexists|done|by eexists|].
  intros l l'. cbn. unfold on_work_started. destruct (Z.eqb_spec (s_count l) 0); [done|].
  by intros [= <-].
Qed.

(** ** The system *)

(** The waiting coroutine: has not called yet; has stored its handle; is suspended; has gone
    on. *)
Inductive waiter := NotYet | Registered | Suspended | GoneOn.

#[export] Instance waiter_eq_dec : EqDecision waiter.
Proof. solve_decision. Defined.

(** [running] is the number of those that have been counted and are still to arrive;
    [resumed] the handles that have been resumed, or went on without suspending, in order. *)
Record system (L : Type) := mk_system {
  latch : L; running : nat; wait : waiter; resumed : list handle }.
Arguments mk_system {L}.
Arguments latch {L}.
Arguments running {L}.
Arguments wait {L}.
Arguments resumed {L}.

Section system.
Context {L : Type} `{LatchLaws L}.

(** The waiting coroutine's handle. *)
Context (h : nat).

Definition wake (w : waiter) : waiter := match w with Suspended => GoneOn | w => w end.

(** [add] is called by something that is running, or while the coroutine has not left. *)
Inductive step : system L -> system L -> Prop :=
| step_arrive l n w rs l' r : arrive l = (l', r) ->
    step (mk_system l (S n) w rs)
      (mk_system l' n (match r with Some _ => wake w | None => w end)
         (match r with Some c => rs ++ [c] | None => rs end))
| step_register l n rs : step (mk_system l n NotYet rs) (mk_system (register_ h l) n Registered rs)
| step_leave l n rs l' suspend : leave l = (l', suspend) ->
    step (mk_system l n Registered rs)
      (if suspend then mk_system l' n Suspended rs else mk_system l' n GoneOn (rs ++ [Some h]))
| step_add l n w rs l' : add l = Some l' -> (n <> 0%nat \/ w = NotYet) -> count l < 2 ^ 64 - 1 ->
    step (mk_system l n w rs) (mk_system l' (S n) w rs).

Definition waiting (w : waiter) : Z := match w with NotYet | Registered => 1 | _ => 0 end.

Record latch_inv (s : system L) : Prop := {
  inv_count : count (latch s) = Z.of_nat (running s) + waiting (wait s);
  inv_bound : count (latch s) < 2 ^ 64;
  inv_handle : wait s <> NotYet -> continuation (latch s) = Some h;
  inv_suspended : wait s = Suspended -> (0 < running s)%nat;
  inv_gone_on : wait s = GoneOn -> running s = 0%nat;
  inv_resumed : resumed s = if decide (wait s = GoneOn) then [Some h] else [];
}.

Lemma step_latch_inv s s' : step s s' -> latch_inv s -> latch_inv s'.
Proof.
  destruct 1 as [l n w rs l' r E|l n rs|l n rs l' suspend E|l n w rs l' E Hn Hb];
    intros [Hc Hbd Hh Hs Hg Hr]; cbn [latch running wait resumed] in *.
  - destruct (arrive_law l) as (l2 & E2 & Hc2 & Hh2). rewrite E2 in E. injection E as <- <-.
    rewrite wrap_small in Hc2 by (destruct w; simpl in *; lia).
    destruct (Z.eqb_spec (count l) 1) as [E1|E1].
    + destruct w; cbn [waiting wake] in *; try lia.
      * rewrite Hh by done. split; cbn; try done; try lia; try (intros _; lia);
          [intros _; rewrite Hh2; auto|by rewrite Hr].
      * pose proof (Hg eq_refl). lia.
    + split; cbn; try done; try lia.
      * intros Hw. rewrite Hh2. auto.
      * intros ->. cbn [waiting] in *. lia.
      * intros ->. pose proof (Hg eq_refl). lia.
  - destruct (register_law h l) as [E1 E2]. split; cbn; try done; try lia. by rewrite E1, Hc.
  - destruct (leave_law l) as (l2 & E2 & Hc2 & Hh2). rewrite E2 in E. injection E as <- <-.
    cbn [waiting] in *. rewrite wrap_small in Hc2 by lia.
    destruct (Z.ltb_spec 1 (count l)); split; cbn; try done; try lia;
      (rewrite Hh2; auto) || (by rewrite Hr).
  - apply add_law in E as (Hne & Hc2 & Hh2). rewrite wrap_small in Hc2 by (destruct w; simpl in *; lia).
    split; cbn; try done; try lia.
    + intros Hw. rewrite Hh2. auto.
    + intros ->. pose proof (Hg eq_refl). destruct Hn as [?|?]; [lia|done].
Qed.

Definition latch_start (n : nat) (l : L) : system L := mk_system l n NotYet [].

Lemma latch_inv_start n l : count l = Z.of_nat n + 1 -> count l < 2 ^ 64 -> latch_inv (latch_start n l).
Proof. intros Hc Hb. split; cbn; try done; lia. Qed.

Lemma latch_inv_rtc s s' : rtc step s s' -> latch_inv s -> latch_inv s'.
Proof. induction 1; eauto using step_latch_inv. Qed.

(** C14: in every interleaving of those that arrive with the coroutine that waits, for every
    latch: the coroutine goes on at most once, and never before everything counted has
    finished; no null handle is resumed; when everything has finished and the coroutine has
    left, it has gone on; and the assertion of [add] holds whenever something is running
    or the coroutine has not left. *)
Theorem latch_exactly_once n l s : count l = Z.of_nat n + 1 -> count l < 2 ^ 64 ->
  rtc step (latch_start n l) s ->
  (resumed s = [] \/ (resumed s = [Some h] /\ running s = 0%nat)) /\
  (running s = 0%nat -> wait s = Suspended \/ wait s = GoneOn -> resumed s = [Some h]) /\
  (running s <> 0%nat \/ wait s = NotYet -> count (latch s) <> 0).
Proof.
  intros Hc Hb Hs. destruct (latch_inv_rtc _ _ Hs (latch_inv_start n l Hc Hb)) as [Hc' Hb' Hh' Hs' Hg' Hr'].
  rewrite Hr'. split; [|split].
  - case_decide as Hw; [right|by left]. auto.
  - intros Hn [Hw|Hw]; [pose proof (Hs' Hw); lia|]. by rewrite decide_True.
  - intros [Hn|Hw]; rewrite Hc'; [|rewrite Hw; cbn; lia]. destruct (wait s); cbn; lia.
Qed.

End system.

(** Two tasks; the first finishes before the coroutine has stored its handle. *)
Lemma latch_exactly_once_witness :
  let s := mk_system (mk_counter 0 (Some 9%nat)) 0 GoneOn [Some 9%nat] in
  rtc (step 9) (latch_start 2 (when_all_counter_init 2)) s /\
  (resumed s = [] \/ (resumed s = [Some 9%nat] /\ running s = 0%nat)).
Proof.
  cbv zeta.
  assert (H : rtc (step 9) (latch_start 2 (when_all_counter_init 2))
    (mk_system (mk_counter 0 (Some 9%nat)) 0 GoneOn [Some 9%nat])).
  { eapply rtc_l; [apply step_arrive; reflexivity|]. eapply rtc_l; [apply step_register|].
    eapply rtc_l; [apply step_leave; reflexivity|].
    apply rtc_once. apply (step_arrive 9 (mk_counter 1 (Some 9%nat)) 0 Suspended []
      (mk_counter 0 (Some 9%nat)) (Some (Some 9%nat))). reflexivity. }
  split; [exact H|]. apply (latch_exactly_once 9 2 (when_all_counter_init 2)); [reflexivity..|exact H].
Defined.
