(* ===== verification/LatchOrders.v ===== *)
(** * The memory orders of the latches

    The counters of [coroutine/detail/when_all_counter.h] and [coroutine/async_scope.h] of
    [src/include/xynet] as atomic objects of [Memory], with the orders the code names. The
    system has the steps of [Latch], but each thread has a view, and the handle is plain
    data. Proved for every latch with the orders it needs: the system does what [Latch] says,
    and who goes on sees what all that has arrived has written. *)

From stdpp Require Import relations gmap.
From S2P Require Import Prelude Memory Latch.
Local Open Scope Z_scope.

(** ** The interface *)

(** A latch is its atomic count and its handle. The orders of the operations; [add_order] is
    that of a latch that has [add]. *)
Class AtomicLatch (L : Type) := {
  of_atomic : Z -> handle -> L;
  arrive_order : order;
  leave_order : order;
  add_order : order;
}.

Class AtomicLatchLaws (L : Type) `{Latch L, AtomicLatch L} := {
  of_count : forall c k, count (of_atomic c k) = c;
  of_continuation : forall c k, continuation (of_atomic c k) = k;
  of_eta : forall l, of_atomic (count l) (continuation l) = l;
  (** A latch has [add] or not; its assertion is that the count is not zero. *)
  add_defined : forall l l', is_Some (add l) -> count l' <> 0 -> is_Some (add l');
  arrive_acquires : acquires arrive_order = true;
  arrive_releases : releases arrive_order = true;
  leave_acquires : acquires leave_order = true;
  leave_releases : releases leave_order = true;
}.

(** [when_all_counter] *)
Definition try_await_order : order := AcqRel.
Definition notify_awaitable_completed_order : order := AcqRel.

#[export] Instance when_all_atomic : AtomicLatch when_all_counter := {|
  of_atomic := mk_counter;
  arrive_order := notify_awaitable_completed_order;
  leave_order := try_await_order;
  add_order := Relaxed;
|}.

#[export] Instance when_all_atomic_laws : AtomicLatchLaws when_all_counter.
Proof. constructor; try done. by intros []. Qed.

(** [async_scope]: the loads are the assertion of [on_work_started] and [await_ready] of
    [join]. *)
Definition on_work_finished_order : order := AcqRel.
Definition join_await_suspend_order : order := AcqRel.
Definition on_work_started_order : order := Relaxed.
Definition assert_order : order := Relaxed.
Definition join_await_ready_order : order := Acquire.

#[export] Instance scope_atomic : AtomicLatch async_scope := {|
  of_atomic := mk_scope;
  arrive_order := on_work_finished_order;
  leave_order := join_await_suspend_order;
  add_order := on_work_started_order;
|}.

#[export] Instance scope_atomic_laws : AtomicLatchLaws async_scope.
Proof.
  constructor; try done; [by intros []|].
  intros l l' _ Hc. cbn in *. unfold on_work_started. apply Z.eqb_neq in Hc. by rewrite Hc.
Qed.

(** The loads, of any message that coherence allows: [None] is one that it does not allow. *)
Definition on_work_started_assert (i : nat) (c : location Z) (v : view) : option bool :=
  (fun x => negb (x.1 =? 0)) <$> load assert_order i c v.
Definition join_await_ready_load (i : nat) (c : location Z) (v : view) : option bool :=
  (fun x => x.1 =? 0) <$> load join_await_ready_order i c v.

(** ** The system *)

(** [count_]: the atomic; [handle_]: the plain member; [went_on]: the handles that went on
    with the views of the threads they went on in; [arrived]: what those that have arrived
    had written. *)
Record msystem := mk_msystem {
  count_ : location Z; handle_ : handle; running_ : nat; wait_ : waiter;
  went_on : list (handle * view); arrived : gset nat }.

Section orders.
Context {L : Type} `{HL : LatchLaws L} `{HA : AtomicLatch L} `{HAL : !AtomicLatchLaws L}.

(** The waiting coroutine's handle, and the number of the write that stores it. *)
Context (h : nat) (hf : nat).

Definition erase (s : msystem) : system L :=
  mk_system (of_atomic (value (newest (count_ s))) (handle_ s)) (running_ s) (wait_ s) (went_on s).*1.

(** The thread of an operation has any view that has its own writes: [f] is what it has
    written before it arrives. *)
Inductive mstep : msystem -> msystem -> Prop :=
| m_arrive f v c k n w rs ar old c' v' : f ∈ facts v ->
    rmw (arrive_order (L := L)) (fun z => snd (fetch_sub z)) c v = (old, c', v') ->
    mstep (mk_msystem c k (S n) w rs ar)
      (mk_msystem c' k n (if old =? 1 then wake w else w)
         (if old =? 1 then rs ++ [(k, v')] else rs) ({[f]} ∪ ar))
| m_register c k n rs ar :
    mstep (mk_msystem c k n NotYet rs ar) (mk_msystem c (Some h) n Registered rs ar)
| m_leave v c k n rs ar old c' v' : hf ∈ facts v ->
    rmw (leave_order (L := L)) (fun z => snd (fetch_sub z)) c v = (old, c', v') ->
    mstep (mk_msystem c k n Registered rs ar)
      (if 1 <? old then mk_msystem c' k n Suspended rs ar
       else mk_msystem c' k n GoneOn (rs ++ [(Some h, v')]) ar)
| m_add v c k n w rs ar old c' v' : is_Some (add (of_atomic (L := L) 1 k)) -> (n <> 0%nat \/ w = NotYet) ->
    value (newest c) < 2 ^ 64 - 1 ->
    rmw (add_order (L := L)) (fun z => snd (fetch_add z)) c v = (old, c', v') ->
    mstep (mk_msystem c k n w rs ar) (mk_msystem c' k (S n) w rs ar).

Definition mstart (n : nat) (z : Z) (k : handle) : msystem :=
  mk_msystem (location_init z) k n NotYet [] ∅.

(** ** The invariant *)

Record order_inv (s : msystem) : Prop := {
  o_latch : latch_inv h (erase s);
  (** The newest message releases what has arrived and, once the coroutine has left, the
      write of its handle. *)
  o_released : arrived s ⊆ facts (released (newest (count_ s)));
  o_handle : wait_ s = Suspended \/ wait_ s = GoneOn -> hf ∈ facts (released (newest (count_ s)));
  o_went_on x v : (x, v) ∈ went_on s -> {[hf]} ∪ arrived s ⊆ facts v;
  o_older i m : messages (count_ s) !! i = Some m -> i <> newest_index (count_ s) -> value m <> 0;
}.

(** The count is not zero while anything may arrive, leave or add. *)
Lemma erase_count s : order_inv s -> value (newest (count_ s)) = Z.of_nat (running_ s) + waiting (wait_ s).
Proof. intros [Hl _ _ _ _]. destruct Hl as [Hc _ _ _ _ _]. cbn in Hc. by rewrite of_count in Hc. Qed.

Lemma older_write (c c' : location Z) i m :
  messages c' = messages c ++ [newest c'] -> newest_index c' = S (newest_index c) -> value (newest c) <> 0 ->
  (forall i m, messages c !! i = Some m -> i <> newest_index c -> value m <> 0) ->
  messages c' !! i = Some m -> i <> newest_index c' -> value m <> 0.
Proof.
  intros Hm Hi Hv Ho. rewrite Hm. intros [H1|[H1 H2]]%lookup_app_Some Hne.
  - destruct (decide (i = newest_index c)) as [->|]; [|by eapply Ho]. rewrite messages_newest in H1. congruence.
  - apply list_lookup_singleton_Some in H2 as [H2 _]. unfold messages in H1, H2. rewrite length_app in H1, H2.
    cbn in H1, H2. unfold newest_index in *. lia.
Qed.

(** What [Latch]'s operations are on the atomic. *)
Lemma arrive_erase z k : exists r, arrive (of_atomic z k) = (of_atomic (snd (fetch_sub z)) k, r) /\
  r = if z =? 1 then Some k else None.
Proof.
  destruct (arrive_law (of_atomic z k)) as (l' & E & Hc & Hk). rewrite of_count, of_continuation in *.
  rewrite E, <- (of_eta l'), Hc, Hk. eauto.
Qed.

Lemma leave_erase z k : leave (of_atomic z k) = (of_atomic (snd (fetch_sub z)) k, 1 <? z).
Proof.
  destruct (leave_law (of_atomic z k)) as (l' & E & Hc & Hk). rewrite of_count, of_continuation in *.
  by rewrite E, <- (of_eta l'), Hc, Hk.
Qed.

Lemma register_erase z k : register_ h (of_atomic z k) = of_atomic z (Some h).
Proof.
  destruct (register_law h (of_atomic z k)) as [Hc Hk]. rewrite of_count in Hc.
  by rewrite <- (of_eta (register_ h _)), Hc, Hk.
Qed.

Lemma add_erase z k : is_Some (add (of_atomic 1 k)) -> z <> 0 ->
  add (of_atomic z k) = Some (of_atomic (snd (fetch_add z)) k).
Proof.
  intros Ha Hz. destruct (add_defined (of_atomic 1 k) (of_atomic z k) Ha) as [l' E]; [by rewrite of_count|].
  destruct (add_law _ _ E) as (_ & Hc & Hk). rewrite of_count, of_continuation in *.
  by rewrite E, <- (of_eta l'), Hc, Hk.
Qed.

(** A step with memory orders is a step of [Latch]. *)
Lemma mstep_erase s s' : mstep s s' -> order_inv s -> step h (erase s) (erase s').
Proof.
  destruct 1 as [f v c k n w rs ar old c' v' Hf Er|c k n rs ar|v c k n rs ar old c' v' Hf Er|
      v c k n w rs ar old c' v' Ha Hn Hb Er]; intros Hi; unfold erase; cbn.
  - apply rmw_spec in Er as (-> & -> & _). destruct (arrive_erase (value (newest c)) k) as (r & E & Hr).
    apply (step_arrive h _ n w rs.*1) in E. rewrite Hr in E. destruct (value (newest c) =? 1); [|exact E].
    by rewrite fmap_app.
  - rewrite <- (register_erase _ k). apply step_register.
  - apply rmw_spec in Er as (-> & Ev & _).
    pose proof (step_leave h _ n rs.*1 _ _ (leave_erase (value (newest c)) k)) as Hs.
    destruct (1 <? value (newest c)); cbn; rewrite Ev; [exact Hs|]. by rewrite fmap_app.
  - apply rmw_spec in Er as (-> & -> & _). apply step_add; [|done|by rewrite of_count].
    apply add_erase; [done|]. apply erase_count in Hi. cbn in Hi. rewrite Hi.
    destruct Hn as [Hn| ->]; [destruct w|]; cbn; lia.
Qed.

Lemma latch_inv_step s s' : mstep s s' -> order_inv s -> latch_inv h (erase s').
Proof. intros Hs Hi. eapply step_latch_inv; [by apply mstep_erase|apply Hi]. Qed.

Lemma mstep_order_inv s s' : mstep s s' -> order_inv s -> order_inv s'.
Proof.
  intros Hs Hi. pose proof (latch_inv_step _ _ Hs Hi) as Hl. pose proof (erase_count _ Hi) as Hc.
  destruct Hi as [[_ _ _ _ Hgo Hres] Hr Hh Hw Ho].
  destruct Hs as [f v c k n w rs ar old c' v' Hf Er|c k n rs ar|v c k n rs ar old c' v' Hf Er|
      v c k n w rs ar old c' v' Ha Hn Hb Er]; cbn in *.
  - apply rmw_spec in Er as (Eo & Ev & Em & Ei & Hv & Hrel & Hacq & Hpub & _).
    specialize (Hacq arrive_acquires). specialize (Hpub arrive_releases).
    assert (w <> GoneOn) as Hne by (intros ->; by specialize (Hgo eq_refl)).
    assert (rs = []) as ->.
    { rewrite decide_False in Hres by done. by apply fmap_nil_inv in Hres. }
    assert (arrived_facts : {[f]} ∪ ar ⊆ facts v').
    { apply union_least; [by apply singleton_subseteq_l, Hv|by rewrite Hr, Hacq]. }
    split; cbn; [done|by rewrite arrived_facts, Hpub| | |].
    + intros Hw'. apply Hrel, Hh. destruct (_ =? _), w; naive_solver.
    + intros x v0. subst old. destruct (Z.eqb_spec (value (newest c)) 1) as [E1|]; [|by intros ?%elem_of_nil].
      intros [= -> ->]%list_elem_of_singleton. apply union_least; [|done].
      apply singleton_subseteq_l. apply Hacq, Hh. destruct w; cbn in *; try lia; [by left|done].
    + intros i m. eapply older_write; try done. destruct w; cbn in *; lia.
  - split; cbn; try done. intros [|]; done.
  - apply rmw_spec in Er as (Eo & Ev & Em & Ei & Hv & Hrel & Hacq & Hpub & _).
    specialize (Hacq leave_acquires). specialize (Hpub leave_releases).
    apply fmap_nil_inv in Hres as ->. assert (hf ∈ facts v') by (by apply Hv).
    assert (forall i m, messages c' !! i = Some m -> i <> newest_index c' -> value m <> 0) as Ho'.
    { intros i m. eapply older_write; try done. cbn in *. lia. }
    destruct (1 <? old); (split; cbn; [done|by rewrite Hr, Hrel| | |exact Ho']).
    + intros _. by apply Hpub.
    + by intros x v0 ?%elem_of_nil.
    + intros _. by apply Hpub.
    + intros x v0 [= -> ->]%list_elem_of_singleton. apply union_least; [by apply singleton_subseteq_l|by rewrite Hr, Hacq].
  - apply rmw_spec in Er as (Eo & Ev & Em & Ei & Hv & Hrel & _).
    split; cbn; [done|by rewrite Hr, Hrel| |done|].
    + intros Hw'. apply Hrel. by apply Hh.
    + intros i m. eapply older_write; try done. rewrite Hc. destruct Hn as [?| ->]; [destruct w|]; cbn; lia.
Qed.

Lemma order_inv_start n z k : z = Z.of_nat n + 1 -> z < 2 ^ 64 -> order_inv (mstart n z k).
Proof.
  intros Hz Hb. split; cbn; try done.
  - apply (latch_inv_start h n (of_atomic z k)); by rewrite of_count.
  - by intros [|].
  - by intros x v ?%elem_of_nil.
  - intros [|i] m Hi; [done|]. by destruct i.
Qed.

Lemma order_rtc s s' : rtc mstep s s' -> order_inv s -> order_inv s' /\ rtc (step h) (erase s) (erase s').
Proof.
  induction 1 as [s|s s1 s' Hs _ IH]; intros Hi; [by split|].
  destruct (IH (mstep_order_inv _ _ Hs Hi)) as [Hi' Hr]. split; [done|].
  eapply rtc_l; [by apply mstep_erase|done].
Qed.

(** No load reads zero, however old the message. *)
Lemma load_nonzero s o i v x v' : order_inv s -> running_ s <> 0%nat \/ wait_ s = NotYet ->
  load o i (count_ s) v = Some (x, v') -> x <> 0.
Proof.
  intros Hi Hn (m & Hm & <- & _)%load_spec.
  destruct (decide (i = newest_index (count_ s))) as [->|Hne]; [|by eapply o_older].
  rewrite messages_newest in Hm. injection Hm as <-. rewrite erase_count by done.
  destruct Hn as [?| ->]; [destruct (wait_ s)|]; cbn; lia.
Qed.

(** C15: the memory orders of a latch, which [when_all_counter] and [async_scope] have: with
    the views of the threads, in every execution, the latch does nothing that it does not do
    when its operations are sequentially consistent; whoever resumes the coroutine, or goes
    on as the coroutine without suspending, sees the handle that was stored and everything
    written by what has been counted and has finished, which is everything; and while
    anything runs or the coroutine has not left, no load can read zero, however old the value
    it reads: the assertion of [on_work_started] holds and [join] is not ready. *)
Theorem latch_visibility n z k s : z = Z.of_nat n + 1 -> z < 2 ^ 64 -> rtc mstep (mstart n z k) s ->
  rtc (step h) (latch_start n (of_atomic z k)) (erase s) /\
  (forall x v, (x, v) ∈ went_on s -> x = Some h /\ running_ s = 0%nat /\ {[hf]} ∪ arrived s ⊆ facts v) /\
  (running_ s <> 0%nat \/ wait_ s = NotYet -> forall i v,
   on_work_started_assert i (count_ s) v <> Some false /\
   join_await_ready_load i (count_ s) v <> Some true).
Proof.
  intros Hz Hb Hs. destruct (order_rtc _ _ Hs (order_inv_start n z k Hz Hb)) as [Hi Hr].
  split; [exact Hr|]. split.
  - intros x v Hx. pose proof (o_went_on _ Hi _ _ Hx) as Hv. apply (list_elem_of_fmap_2 fst) in Hx.
    destruct (o_latch _ Hi) as [_ _ _ _ Hgo Hres]. cbn in *. rewrite Hres in Hx.
    case_decide as Hw; [|by apply elem_of_nil in Hx]. apply list_elem_of_singleton in Hx. auto.
  - intros Hn i v. unfold on_work_started_assert, join_await_ready_load.
    split; (destruct (load _ i _ v) as [[x v']|] eqn:Hx; [|done]; apply (load_nonzero s) in Hx; [|done..];
      apply Z.eqb_neq in Hx; cbn; by rewrite Hx).
Qed.

End orders.

(** The coroutine has left before the only task arrives; the task sees the handle. *)
Lemma latch_visibility_witness :
  let c2 := snd (fst (rmw AcqRel (fun z => snd (fetch_sub z)) (location_init 2) (mk_view {[0%nat]} 0))) in
  let '(_, c3, v3) := rmw AcqRel (fun z => snd (fetch_sub z)) c2 (mk_view {[1%nat]} 0) in
  let s := mk_msystem c3 (Some 9%nat) 0 GoneOn [(Some 9%nat, v3)] ({[1%nat]} ∪ ∅) in
  rtc (mstep (L := when_all_counter) 9 0) (mstart 1 2 None) s /\ {[0%nat]} ∪ arrived s ⊆ facts v3.
Proof.
  cbv zeta. destruct (rmw AcqRel (fun z => snd (fetch_sub z)) (location_init 2) (mk_view {[0%nat]} 0)) as [[x2 c2] v2] eqn:E2.
  cbn [fst snd]. destruct (rmw AcqRel _ c2 _) as [[x3 c3] v3] eqn:E3.
  pose proof (rmw_spec _ _ _ _ _ _ _ E2) as (X2 & C2 & _). pose proof (rmw_spec _ _ _ _ _ _ _ E3) as (X3 & _).
  rewrite C2, X2 in X3. cbn in X2, X3. subst x2 x3.
  assert (H : rtc (mstep (L := when_all_counter) 9 0) (mstart 1 2 None)
    (mk_msystem c3 (Some 9%nat) 0 GoneOn [(Some 9%nat, v3)] ({[1%nat]} ∪ ∅))).
  { eapply rtc_l; [apply m_register|]. eapply rtc_l; [eapply m_leave; [|exact E2]; set_solver|].
    apply rtc_once. cbn.
    exact (m_arrive (L := when_all_counter) 9 0 1 _ c2 (Some 9%nat) 0 Suspended [] ∅ 1 c3 v3 (proj2 (elem_of_singleton 1%nat 1%nat) eq_refl) E3). }
  split; [exact H|]. apply (latch_visibility 9 0 1 2 None _ eq_refl eq_refl H) with (x := Some 9%nat) (v := v3). by left.
Defined.
