(* ===== verification/WhenAll.v ===== *)
(** * Waiting for several tasks

    Models [coroutine/detail/when_all_task.h], [coroutine/detail/when_all_ready_awaitable.h],
    [coroutine/when_all_ready.h] and [coroutine/when_all.h] of [src/include/xynet]: the tasks
    are started one after the other by the coroutine that waits, finish on any thread in any
    order, and report to a [when_all_counter]; the waiting coroutine then collects their
    results, in the function that [when_all] maps over [when_all_ready]. The refinement of
    [Latch.system] gives that it goes on once, at the right time. The promises are any that
    implement their interface. *)

From stdpp Require Import relations.
From S2P Require Import Prelude Promise Latch Fmap.

Section when_all.
Context {K P R E : Type} `{ret : !Returned K R, prom : !Promise K P R E, laws : !PromiseLaws K P R E}.

(** ** Tasks *)

(** The coroutine is suspended at its start, runs, or is suspended at its end. *)
Inductive stage := Created | Started | Finished.

Record when_all_task := mk_task { t_stage : stage; t_promise : P }.

(** The coroutine [make_when_all_task] of a type: its body awaits the awaitable, or what a
    [reference_wrapper] refers to, and yields the value, if there is one. *)
Definition make_when_all_task (k : K) : when_all_task := mk_task Created (promise_init k).

(** The body ends with a value or an exception: [co_yield], the end of the function, or what
    was thrown; [final_suspend] notifies the counter. *)
Definition finish (d : R + E) (c : when_all_counter) (t : when_all_task)
  : when_all_task * (when_all_counter * option handle) :=
  (mk_task Finished (finish_promise d (t_promise t)), notify_awaitable_completed c).

(** [start]: resumes a coroutine that is suspended at its start. *)
Definition start (t : when_all_task) : when_all_task := mk_task Started (t_promise t).

(** [result] and [non_void_result], which differ in what stands for [void]. *)
Definition non_void_result (t : when_all_task) : fetched R E := result (t_promise t).

(** ** The awaitable *)

(** The template for containers; the specialisation for tuples has the same members. *)
Record when_all_ready_awaitable := mk_awaitable { m_counter : when_all_counter; m_tasks : list when_all_task }.

Definition awaitable_init (tasks : list when_all_task) : when_all_ready_awaitable :=
  mk_awaitable (when_all_counter_init (Z.of_nat (length tasks))) tasks.

(** [when_all_ready] of awaitables of the types [ks], and the move constructor, which makes
    a new counter. *)
Definition when_all_ready (ks : list K) : when_all_ready_awaitable := awaitable_init (make_when_all_task <$> ks).
Definition awaitable_move (a : when_all_ready_awaitable) : when_all_ready_awaitable := awaitable_init (m_tasks a).

Definition await_ready (a : when_all_ready_awaitable) : bool := is_ready (m_counter a).

(** The loop of [try_await]. *)
Definition start_tasks (ts : list when_all_task) : list when_all_task := start <$> ts.

(** [try_await], when nothing ends meanwhile; [step] below has the other interleavings. *)
Definition try_await (h : nat) (a : when_all_ready_awaitable) : when_all_ready_awaitable * bool :=
  let ts := start_tasks (m_tasks a) in
  let '(c, suspend) := Latch.try_await h (m_counter a) in (mk_awaitable c ts, suspend).

(** Both forms of [operator co_await]. *)
Definition operator_co_await : awaiter (E := fetched R E) when_all_ready_awaitable (list when_all_task) :=
  mk_awaiter (fun a => (a, await_ready a))
    (fun h a => let '(a, suspend) := try_await h a in (a, if suspend then Suspend else GoOn))
    (fun a => (a, inl (m_tasks a))).

(** The specialisation for tuples: [start_tasks] takes the tasks by their indices. *)
Definition tuple_init (tasks : list when_all_task) : when_all_ready_awaitable :=
  mk_awaitable (when_all_counter_init (Z.of_nat (length tasks))) tasks.
Definition when_all_ready_tuple (ks : list K) : when_all_ready_awaitable := tuple_init (make_when_all_task <$> ks).
Definition start_tasks_tuple (indices : list nat) (ts : list when_all_task) : list when_all_task :=
  foldl (fun ts i => alter start i ts) ts indices.
Definition try_await_tuple (h : nat) (a : when_all_ready_awaitable) : when_all_ready_awaitable * bool :=
  let ts := start_tasks_tuple (seq 0 (length (m_tasks a))) (m_tasks a) in
  let '(c, suspend) := Latch.try_await h (m_counter a) in (mk_awaitable c ts, suspend).
Definition operator_co_await_tuple : awaiter (E := fetched R E) when_all_ready_awaitable (list when_all_task) :=
  mk_awaiter (fun a => (a, await_ready a))
    (fun h a => let '(a, suspend) := try_await_tuple h a in (a, if suspend then Suspend else GoOn))
    (fun a => (a, inl (m_tasks a))).

(** The specialisation for the empty tuple. *)
Definition empty_awaiter : awaiter (E := fetched R E) unit (list when_all_task) :=
  mk_awaiter (fun u => (u, true)) (fun _ u => (u, Suspend)) (fun u => (u, inl [])).

(** ** Collecting the results *)

(** The function for a vector: the loop over the tasks, which stops at the first exception. *)
Fixpoint collect (ts : list when_all_task) (results : list R) : list R + fetched R E :=
  match ts with
  | [] => inl results
  | t :: ts =>
      match result (t_promise t) with
      | Got r => collect ts (results ++ [r])
      | bad => inr bad
      end
  end.

(** The same for a vector of tasks without values. *)
Fixpoint collect_void (ts : list when_all_task) : unit + fetched R E :=
  match ts with
  | [] => inl tt
  | t :: ts => match result (t_promise t) with Got _ => collect_void ts | bad => inr bad end
  end.

(** The function for a tuple: the arguments of [make_tuple] are evaluated in some order, and
    the first exception in that order ends it. *)
Fixpoint first_thrown (order : list nat) (ts : list when_all_task) : option (fetched R E) :=
  match order with
  | [] => None
  | i :: order =>
      match non_void_result <$> ts !! i with
      | Some (Got _) | None => first_thrown order ts
      | bad => bad
      end
  end.

Definition make_tuple (order : list nat) (ts : list when_all_task) : list R + fetched R E :=
  match first_thrown order ts with
  | Some bad => inr bad
  | None => inl (omap (fun t => match non_void_result t with Got r => Some r | _ => None end) ts)
  end.

(** [when_all]: [fmap] of the function over [when_all_ready]. *)
Definition when_all {B} (func : list when_all_task -> B + fetched R E)
  : fmap_awaitable (E := fetched R E) when_all_ready_awaitable (list when_all_task) B :=
  fmap func operator_co_await.

(** What [co_await] of it gives. *)
Definition when_all_result {B} (func : list when_all_task -> B + fetched R E) (a : when_all_ready_awaitable)
  : B + fetched R E := snd (Fmap.await_resume (Fmap.operator_co_await (when_all func)) a).

Lemma when_all_result_func {B} (func : list when_all_task -> B + fetched R E) a :
  when_all_result func a = func (m_tasks a).
Proof. done. Qed.

(** ** Tuples and containers *)

Lemma alter_app_middle (pre ts : list when_all_task) t :
  alter start (length pre) (pre ++ t :: ts) = pre ++ start t :: ts.
Proof.
  induction pre as [|x pre IH]; [done|]. cbn [length app].
  change (x :: alter start (length pre) (pre ++ t :: ts) = x :: pre ++ start t :: ts). by rewrite IH.
Qed.

Lemma start_tasks_tuple_from pre ts :
  start_tasks_tuple (seq (length pre) (length ts)) (pre ++ ts) = pre ++ start_tasks ts.
Proof.
  revert pre. induction ts as [|t ts IH]; intros pre; [done|]. cbn [length seq start_tasks_tuple foldl].
  rewrite alter_app_middle. specialize (IH (pre ++ [start t])). rewrite <- !app_assoc, length_app in IH.
  cbn [length app] in IH. rewrite Nat.add_1_r in IH. exact IH.
Qed.

Lemma try_await_tuple_same h a : try_await_tuple h a = try_await h a.
Proof.
  destruct a as [c ts]. unfold try_await_tuple, try_await. cbn [m_tasks m_counter].
  by rewrite (start_tasks_tuple_from [] ts : start_tasks_tuple (seq 0 (length ts)) ts = start_tasks ts).
Qed.

(** The awaitable of a tuple behaves as that of a container of the same tasks. *)
Lemma operator_co_await_same : same operator_co_await_tuple operator_co_await.
Proof.
  split_and!; [done| |done]. intros h a. unfold operator_co_await_tuple, operator_co_await.
  cbn [Fmap.await_suspend]. by rewrite try_await_tuple_same.
Qed.

(** ** Running it *)

(** [next] is the index of the task that [try_await] starts next. *)
Record state := mk_state {
  awaitable : when_all_ready_awaitable; next : nat; waiter_ : waiter; resumptions : list handle }.

Definition state_init (ks : list K) : state := mk_state (when_all_ready ks) 0 NotYet [].

(** The handle of the waiting coroutine, the types of the tasks and how they end. *)
Context (h : nat) (ends : list (K * (R + E))).

Inductive step : state -> state -> Prop :=
| step_start c ts i t rs : ts !! i = Some t ->
    step (mk_state (mk_awaitable c ts) i NotYet rs)
      (mk_state (mk_awaitable c (<[i := start t]> ts)) (S i) NotYet rs)
| step_finish c ts i j t k d w rs t' c' r : ts !! j = Some t -> t_stage t = Started -> ends !! j = Some (k, d) ->
    finish d c t = (t', (c', r)) ->
    step (mk_state (mk_awaitable c ts) i w rs)
      (mk_state (mk_awaitable c' (<[j := t']> ts)) i
         (match r with Some _ => wake w | None => w end)
         (match r with Some x => rs ++ [x] | None => rs end))
| step_register c ts rs :
    step (mk_state (mk_awaitable c ts) (length ts) NotYet rs)
      (mk_state (mk_awaitable (set_awaiting h c) ts) (length ts) Registered rs)
| step_leave c ts i rs c' suspend : try_await_leave c = (c', suspend) ->
    step (mk_state (mk_awaitable c ts) i Registered rs)
      (if suspend then mk_state (mk_awaitable c' ts) i Suspended rs
       else mk_state (mk_awaitable c' ts) i GoneOn (rs ++ [Some h])).

(** ** Refinement of the latch *)

Definition unfinished (t : when_all_task) : bool :=
  match t_stage t with Finished => false | _ => true end.

Definition count_unfinished (ts : list when_all_task) : nat := length (filter (fun t => unfinished t = true) ts).

Definition abstract (s : state) : system when_all_counter :=
  mk_system (m_counter (awaitable s)) (count_unfinished (m_tasks (awaitable s))) (waiter_ s) (resumptions s).

Lemma count_unfinished_cons t ts :
  count_unfinished (t :: ts) = (Nat.b2n (unfinished t) + count_unfinished ts)%nat.
Proof. unfold count_unfinished. rewrite list.filter_cons. by destruct (unfinished t); case_decide. Qed.

Lemma count_unfinished_insert ts i t t' : ts !! i = Some t ->
  (count_unfinished (<[i := t']> ts) + Nat.b2n (unfinished t) =
   count_unfinished ts + Nat.b2n (unfinished t'))%nat.
Proof.
  revert i. induction ts as [|x ts IH]; intros [|i]; try done.
  - intros [= ->]. change (<[0%nat := t']> (t :: ts)) with (t' :: ts). rewrite !count_unfinished_cons. lia.
  - change ((x :: ts) !! S i) with (ts !! i). intros Hi.
    change (<[S i := t']> (x :: ts)) with (x :: <[i := t']> ts). rewrite !count_unfinished_cons.
    specialize (IH i Hi). lia.
Qed.

(** Each step is one of the latch, or starts a task that is not started. *)
Lemma step_abstract s s' : step s s' ->
  (forall t, m_tasks (awaitable s) !! next s = Some t -> waiter_ s = NotYet -> t_stage t = Created) ->
  rtc (Latch.step h) (abstract s) (abstract s').
Proof.
  destruct 1 as [c ts i t rs Hi|c ts i j t kd d w rs t' c' r Hj Hst _ Ef|c ts rs|c ts i rs c' suspend Ef];
    intros Hnew; unfold abstract; cbn [awaitable m_counter m_tasks waiter_ resumptions next] in *.
  - pose proof (count_unfinished_insert ts i t (start t) Hi) as Hu.
    unfold unfinished in Hu. rewrite (Hnew t Hi eq_refl) in Hu. cbn in Hu.
    replace (count_unfinished (<[i:=start t]> ts)) with (count_unfinished ts) by lia. done.
  - injection Ef as <- Ec Er. 
    pose proof (count_unfinished_insert ts j t (mk_task Finished (finish_promise d (t_promise t))) Hj) as Hu.
    unfold unfinished in Hu. rewrite Hst in Hu. cbn [t_stage Nat.b2n] in Hu. rewrite Nat.add_1_r, Nat.add_0_r in Hu.
    rewrite <- Hu. apply rtc_once. apply step_arrive. cbn. unfold notify_awaitable_completed. cbn. by rewrite Ec, Er.
  - apply rtc_once. exact (Latch.step_register h c (count_unfinished ts) rs).
  - apply rtc_once. pose proof (Latch.step_leave h c (count_unfinished ts) rs c' suspend Ef) as Hs.
    by destruct suspend.
Qed.

(** ** The invariant *)

(** How far a task is: the tasks before [next] have been started, and those that have
    finished hold the ending given. *)
Definition task_ok (i j : nat) (t : when_all_task) : Prop :=
  exists k d, ends !! j = Some (k, d) /\
  match t_stage t with
  | Created => (i <= j)%nat /\ t_promise t = promise_init k
  | Started => (j < i)%nat /\ t_promise t = promise_init k
  | Finished => (j < i)%nat /\ t_promise t = finish_promise d (promise_init k)
  end.

Definition tasks_ok (s : state) : Prop :=
  (forall j t, m_tasks (awaitable s) !! j = Some t -> task_ok (next s) j t) /\
  length (m_tasks (awaitable s)) = length ends /\
  (waiter_ s <> NotYet -> next s = length (m_tasks (awaitable s))).

Lemma step_tasks_ok s s' : step s s' -> tasks_ok s -> tasks_ok s'.
Proof.
  destruct 1 as [c ts i t rs Hi|c ts i j t kd d w rs t' c' r Hj Hst Hd Ef|c ts rs|c ts i rs c' suspend Ef];
    intros (Hok & Hlen & Hw); unfold tasks_ok in *; cbn [awaitable m_tasks next waiter_] in *.
  - rewrite length_insert. split; [|done]. intros k u. destruct (decide (i = k)) as [<-|Hne].
    + rewrite list_lookup_insert_eq by by eapply lookup_lt_Some. intros [= <-].
      destruct (Hok i t Hi) as (k & d & Hd & Ht). exists k, d. split; [done|]. cbn [start t_stage t_promise].
      destruct (t_stage t); destruct Ht; split; auto; lia.
    + rewrite list_lookup_insert_ne by done. intros Hk. destruct (Hok k u Hk) as (k' & d & Hd & Ht).
      exists k', d. split; [done|]. destruct (t_stage u); destruct Ht; split; auto; lia.
  - rewrite length_insert. injection Ef as <- _ _. split; [|split; [done|]].
    + intros k u. destruct (decide (j = k)) as [<-|Hne].
      * rewrite list_lookup_insert_eq by by eapply lookup_lt_Some. intros [= <-].
        destruct (Hok j t Hj) as (k & d' & Hd' & Ht). rewrite Hst in Ht. destruct Ht as [Hlt Ht].
        exists k, d'. split; [done|]. cbn [t_stage t_promise]. rewrite Ht. split; [done|].
        by injection (eq_trans (eq_sym Hd) Hd') as <- <-.
      * rewrite list_lookup_insert_ne by done. apply Hok.
    + intros Hn. apply Hw. destruct r; [|done]. by destruct w.
  - done.
  - destruct suspend; cbn; split; auto.
Qed.

Lemma step_created s t : tasks_ok s -> m_tasks (awaitable s) !! next s = Some t -> t_stage t = Created.
Proof.
  intros (Hok & _) Ht. destruct (Hok _ _ Ht) as (k & d & _ & Hs). destruct (t_stage t); [done|lia|lia].
Qed.

Lemma rtc_abstract s s' : rtc step s s' -> tasks_ok s ->
  tasks_ok s' /\ rtc (Latch.step h) (abstract s) (abstract s').
Proof.
  induction 1 as [|s s1 s' Hs _ IH]; intros Hok; [done|].
  destruct (IH (step_tasks_ok _ _ Hs Hok)) as [Hok' Hs']. split; [done|].
  etrans; [|exact Hs']. apply step_abstract; [done|]. intros t Ht _. by apply (step_created s).
Qed.

Lemma count_created ks : count_unfinished (make_when_all_task <$> ks) = length ks.
Proof. induction ks as [|k ks IH]; [done|]. rewrite fmap_cons, count_unfinished_cons, IH. done. Qed.

Lemma length_start : length (make_when_all_task <$> ends.*1) = length ends.
Proof. by rewrite !length_fmap. Qed.

Lemma tasks_init_ok : tasks_ok (state_init ends.*1).
Proof.
  split; [|split; [apply length_start|done]]. intros j t Hj. change ((make_when_all_task <$> ends.*1) !! j = Some t) in Hj.
  apply list_lookup_fmap_Some in Hj as (k & -> & Hk). apply list_lookup_fmap_Some in Hk as ([k' d] & -> & Hd).
  exists k', d. split; [done|]. split; [apply Nat.le_0_l|done].
Qed.

(** The coroutine starts the tasks and leaves, if nothing ends meanwhile. *)
Lemma start_steps c ts : forall pre rs,
  rtc step (mk_state (mk_awaitable c (pre ++ ts)) (length pre) NotYet rs)
    (mk_state (mk_awaitable c (pre ++ start_tasks ts)) (length pre + length ts) NotYet rs).
Proof.
  induction ts as [|t ts IH]; intros pre rs; [by rewrite Nat.add_0_r|].
  eapply rtc_l; [apply (step_start c (pre ++ t :: ts) (length pre) t rs), list_lookup_middle; done|].
  rewrite insert_app_r_alt, Nat.sub_diag by done. cbn [list_insert insert]. specialize (IH (pre ++ [start t]) rs).
  rewrite <- !app_assoc, length_app in IH. cbn [length app] in *.
  replace (S (length pre)) with (length pre + 1)%nat by lia.
  replace (length pre + S (length ts))%nat with (length pre + 1 + length ts)%nat by lia. exact IH.
Qed.

Lemma try_await_steps a a' suspend : try_await h a = (a', suspend) ->
  rtc step (mk_state a 0 NotYet [])
    (mk_state a' (length (m_tasks a)) (if suspend then Suspended else GoneOn) (if suspend then [] else [Some h])).
Proof.
  destruct a as [c ts]. unfold try_await. cbn [m_tasks m_counter]. destruct (Latch.try_await h c) as [c' b] eqn:Et.
  intros [= <- <-]. unfold Latch.try_await in Et.
  etrans; [exact (start_steps c ts [] [])|]. cbn [app length Nat.add].
  assert (length ts = length (start_tasks ts)) as -> by (unfold start_tasks; by rewrite length_fmap).
  eapply rtc_l; [apply step_register|]. apply rtc_once.
  pose proof (step_leave (set_awaiting h c) (start_tasks ts) (length (start_tasks ts)) [] c' b Et) as Hs.
  by destruct b.
Qed.

(** ** The result *)

(** The values in order, or the first exception in order. *)
Fixpoint gather (ds : list (K * (R + E))) : list R + fetched R E :=
  match ds with
  | [] => inl []
  | (k, d) :: ds =>
      match outcome k d with
      | Got r => match gather ds with inl rs => inl (r :: rs) | bad => bad end
      | bad => inr bad
      end
  end.

(** The tasks have ended so. *)
Definition ended (ts : list when_all_task) (ds : list (K * (R + E))) : Prop :=
  Forall2 (fun t kd => result (t_promise t) = outcome (fst kd) (snd kd)) ts ds.

Lemma collect_ended ts ds : ended ts ds -> forall acc,
  collect ts acc = match gather ds with inl rs => inl (acc ++ rs) | bad => bad end.
Proof.
  induction 1 as [|t [k d] ts ds Ht _ IH]; intros acc; cbn [collect gather].
  - by rewrite app_nil_r.
  - rewrite Ht. cbn [fst snd]. destruct (outcome k d); [|done..].
    rewrite IH. destruct (gather ds); [|done]. by rewrite <- app_assoc.
Qed.

Lemma collect_void_ended ts ds : ended ts ds ->
  collect_void ts = match gather ds with inl _ => inl tt | inr bad => inr bad end.
Proof.
  induction 1 as [|t [k d] ts ds Ht _ IH]; cbn [collect_void gather]; [done|].
  rewrite Ht. cbn [fst snd]. destruct (outcome k d); [|done..]. rewrite IH. by destruct (gather ds).
Qed.

Lemma first_thrown_some order ts bad : first_thrown order ts = Some bad ->
  exists i t, ts !! i = Some t /\ non_void_result t = bad /\ forall r, bad <> Got r.
Proof.
  induction order as [|i order IH]; cbn; [done|]. destruct (ts !! i) as [t|] eqn:Ei; cbn; [|exact IH].
  destruct (non_void_result t) eqn:Et; [exact IH|..]; intros [= <-]; exists i, t; done.
Qed.

Lemma first_thrown_none order ts i t : first_thrown order ts = None -> i ∈ order -> ts !! i = Some t ->
  exists r, non_void_result t = Got r.
Proof.
  induction order as [|j order IH]; cbn [first_thrown]; intros Hn Hi Ht; [by apply elem_of_nil in Hi|].
  apply elem_of_cons in Hi as [<-|Hi].
  - rewrite Ht in Hn. cbn in Hn. destruct (non_void_result t) as [r| |]; [by exists r|done..].
  - destruct (non_void_result <$> ts !! j) as [[]|]; try done; auto.
Qed.

Lemma gather_values ts ds : ended ts ds -> (forall i t, ts !! i = Some t -> exists r, non_void_result t = Got r) ->
  gather ds = inl (omap (fun t => match non_void_result t with Got r => Some r | _ => None end) ts).
Proof.
  unfold non_void_result. induction 1 as [|t [k d] ts ds Ht _ IH]; intros Hg; [done|]. cbn [gather omap list_omap].
  destruct (Hg 0%nat t eq_refl) as [r Hr]. rewrite Hr. rewrite Ht in Hr. cbn in Hr. rewrite Hr.
  rewrite IH; [done|]. intros i t' Hi. by apply (Hg (S i)).
Qed.

(** A tuple gives its values, or an exception of one of the tasks. *)
Lemma make_tuple_ended order ts ds : ended ts ds -> order ≡ₚ seq 0 (length ds) ->
  match make_tuple order ts with
  | inl rs => gather ds = inl rs
  | inr bad => exists j k e, ds !! j = Some (k, inr e) /\ bad = Rethrown e
  end.
Proof.
  intros He Ho. unfold make_tuple. destruct (first_thrown order ts) as [bad|] eqn:Ef.
  - apply first_thrown_some in Ef as (i & t & Ht & Hb & Hg).
    destruct (Forall2_lookup_l _ _ _ _ _ He Ht) as ([k d] & Hd & Hk). unfold non_void_result in Hb. rewrite Hk in Hb.
    destruct d as [r|e]; cbn in Hb; [by destruct (Hg _ (eq_sym Hb))|]. by exists i, k, e.
  - apply gather_values; [done|]. intros i t Ht. eapply first_thrown_none; [exact Ef| |exact Ht].
    rewrite Ho. apply elem_of_seq. split; [lia|]. apply lookup_lt_Some in Ht. pose proof (Forall2_length He). lia.
Qed.

Lemma none_unfinished ts t j : count_unfinished ts = 0%nat -> ts !! j = Some t -> t_stage t = Finished.
Proof.
  revert j. induction ts as [|x ts IH]; intros j; [done|]. rewrite count_unfinished_cons.
  intros Hc. destruct j as [|j]; cbn.
  - intros [= ->]. unfold unfinished in Hc. destruct (t_stage t); simpl in Hc; [lia|lia|done].
  - apply IH. lia.
Qed.

Lemma all_ended s : tasks_ok s -> count_unfinished (m_tasks (awaitable s)) = 0%nat ->
  ended (m_tasks (awaitable s)) ends.
Proof.
  intros (Hok & Hlen & _) Hc. apply Forall2_same_length_lookup_2; [done|]. intros j t [k d] Ht Hd.
  destruct (Hok j t Ht) as (k' & d' & Hd' & Hs). rewrite (none_unfinished _ _ _ Hc Ht) in Hs.
  destruct Hs as (_ & ->). injection (eq_trans (eq_sym Hd) Hd') as <- <-. apply result_finish.
Qed.

(** Every reachable state has the invariant of the tasks and that of the latch. *)
Lemma when_all_inv s : (Z.of_nat (length ends) + 1 < 2 ^ 64)%Z -> rtc step (state_init ends.*1) s ->
  tasks_ok s /\ latch_inv h (abstract s).
Proof.
  intros Hb Hs. destruct (rtc_abstract _ _ Hs tasks_init_ok) as [Hok Habs]. split; [done|].
  assert (abstract (state_init ends.*1) =
    latch_start (length ends) (when_all_counter_init (Z.of_nat (length ends)))) as Einit.
  { unfold abstract, latch_start. cbn [awaitable m_counter m_tasks state_init when_all_ready awaitable_init waiter_ resumptions].
    by rewrite count_created, length_start, length_fmap. }
  rewrite Einit in Habs. apply (latch_inv_rtc h _ _ Habs), latch_inv_start; cbn; rewrite wrap_small; lia.
Qed.

(** C13: [when_all]. For tasks of any types, however they are interleaved with each other and
    with the waiting coroutine: it goes on at most once, and only when every task has
    finished; when every task has finished and the coroutine has left, it has gone on. The
    result for a vector is then the values in the order of the tasks, or the first exception
    in that order, whatever the order they finished in; for a tuple it is the values, or the
    exception of one of the tasks, whatever the order in which the arguments of [make_tuple]
    are evaluated. *)
Theorem when_all_correct s :
  (Z.of_nat (length ends) + 1 < 2 ^ 64)%Z -> rtc step (state_init ends.*1) s ->
  (resumptions s = [] \/
   (resumptions s = [Some h] /\ (forall j t, m_tasks (awaitable s) !! j = Some t -> t_stage t = Finished) /\
    when_all_result (fun ts => collect ts []) (awaitable s) = gather ends /\
    when_all_result collect_void (awaitable s) = match gather ends with inl _ => inl tt | inr bad => inr bad end /\
    (forall order, order ≡ₚ seq 0 (length ends) ->
      match when_all_result (make_tuple order) (awaitable s) with
      | inl rs => gather ends = inl rs
      | inr bad => exists j k e, ends !! j = Some (k, inr e) /\ bad = Rethrown e
      end))) /\
  ((forall j t, m_tasks (awaitable s) !! j = Some t -> t_stage t = Finished) ->
   waiter_ s = Suspended \/ waiter_ s = GoneOn -> resumptions s = [Some h]).
Proof.
  intros Hb Hs. destruct (when_all_inv s Hb Hs) as [Hok [Hc _ _ Hsus Hgone Hres]].
  cbn [abstract running wait resumed] in *. rewrite Hres. split.
  - case_decide as Hw; [right|by left]. pose proof (Hgone Hw) as Hn. pose proof (all_ended s Hok Hn) as He.
    split; [done|]. split; [intros j t; by apply none_unfinished|]. rewrite !when_all_result_func.
    split; [rewrite (collect_ended _ _ He); by destruct (gather ends)|]. split; [by apply collect_void_ended|].
    intros order Ho. rewrite when_all_result_func. by apply make_tuple_ended.
  - intros Hall Hw. rewrite decide_True; [done|]. destruct Hw as [Hw|]; [|done].
    pose proof (Hsus Hw) as Hn. unfold count_unfinished in Hn.
    destruct (filter _ _) as [|t ts'] eqn:Efl; [simpl in Hn; lia|].
    assert (t ∈ filter (fun t => unfinished t = true) (m_tasks (awaitable s))) as Hin by (rewrite Efl; by left).
    apply list_elem_of_filter in Hin as [Hu Hin]. apply list_elem_of_lookup in Hin as [j Hj].
    specialize (Hall j t Hj). unfold unfinished in Hu. by rewrite Hall in Hu.
Qed.

End when_all.

(** Waiting for nothing: an empty tuple is ready, and an empty vector goes on at once; both
    give no tasks. *)
Lemma when_all_ready_empty {K P R E} `{Promise K P R E} env1 env2 h u :
  snd (co_await env1 h (empty_awaiter (P := P) (R := R) (E := E)) u) = inl [] /\
  snd (co_await env2 h (operator_co_await (P := P) (R := R) (E := E)) (when_all_ready [])) = inl [].
Proof. by split. Qed.

(** A task with a value and one without; the second finishes while the first is running, with
    an exception. *)
Lemma when_all_correct_witness :
  let ends : list ((value_kind + void_kind) * (unit + nat)) := [(inl ValueType, inl tt); (inr VoidType, inr 6%nat)] in
  exists s, rtc (step (P := when_all_task_promise unit nat + when_all_task_promise_void nat) 9 ends) (state_init ends.*1) s /\
    resumptions s = [Some 9%nat] /\
    when_all_result (fun ts => collect ts []) (awaitable s) = inr (Rethrown 6%nat).
Proof.
  cbv zeta. set (ends := [(inl ValueType, inl tt); (inr VoidType, inr 6%nat)]).
  set (s := mk_state (mk_awaitable (mk_counter 0 (Some 9%nat))
    [mk_task Finished (inl (mk_when_all_promise (E := nat) (Some tt) None));
     mk_task Finished (inr (mk_when_all_promise_void (Some 6%nat)))])
    2 GoneOn [Some 9%nat]).
  assert (Hr : rtc (step 9 ends) (state_init ends.*1) s).
  { eapply rtc_l; [apply (step_start 9 ends _ _ 0); reflexivity|].
    eapply rtc_l; [apply (step_start 9 ends _ _ 1); reflexivity|].
    eapply rtc_l; [eapply (step_finish 9 ends _ _ _ 1); reflexivity|].
    eapply rtc_l; [apply (step_register 9 ends)|].
    eapply rtc_l; [eapply (step_leave 9 ends); reflexivity|].
    eapply rtc_l; [eapply (step_finish 9 ends _ _ _ 0); reflexivity|]. reflexivity. }
  exists s. split; [exact Hr|].
  destruct (when_all_correct 9 ends s) as [[H1|(H1 & _ & H2 & _)] _]; [reflexivity|exact Hr|discriminate H1|].
  split; [exact H1|exact H2].
Defined.
