(* ===== verification/Pingpong.v ===== *)
(** * Ping-pong

    Models [src/example/pingpong]: the sessions of the client, which send a buffer and
    receive it again until they are asked to stop, and the server, which echoes. Both are
    programs over a connection (Stream.v), whose buffers they can fill; the server's loop is
    that of [echo] with another buffer (Simple.v). The client counts bytes in a [double]. *)

From stdpp Require Import relations.
From S2P Require Import Prelude Promise Latch Fmap WhenAll Stream Simple.

(** ** Integers in a [double] *)

(** The nearest integer of 53 significant bits, the even one of two. *)
Definition double_round (z : Z) : Z :=
  let e := Z.max 0 (Z.log2 z - 52) in
  let q := (z / 2 ^ e)%Z in
  let r := (2 * (z mod 2 ^ e))%Z in
  let up := (2 ^ e <? r)%Z || ((2 ^ e =? r)%Z && Z.odd q) in
  ((if up then q + 1 else q) * 2 ^ e)%Z.

(** The sum of two that hold integers, and of one and a [std::size_t]. *)
Definition double_plus (a b : Z) : Z := double_round (a + b).
Definition double_add (a n : Z) : Z := double_plus a (double_round n).

Lemma double_round_exact z : (0 <= z <= 2 ^ 53)%Z -> double_round z = z.
Proof.
  intros Hz. destruct (decide (z = 2 ^ 53)%Z) as [->|Hne]; [reflexivity|].
  assert (Z.log2 z <= 52)%Z as Hl.
  { destruct (decide (z = 0%Z)) as [->|]; [done|]. assert (Z.log2 z < 53)%Z; [apply Z.log2_lt_pow2|]; lia. }
  unfold double_round. rewrite Z.max_l by lia. change (2 ^ 0)%Z with 1%Z. rewrite Z.mod_1_r, Z.div_1_r, Z.mul_1_r. done.
Qed.

Lemma double_add_exact a n : (0 <= a)%Z -> (0 <= n)%Z -> (a + n <= 2 ^ 53)%Z -> double_add a n = (a + n)%Z.
Proof. intros Ha Hn Hs. unfold double_add, double_plus. rewrite (double_round_exact n), double_round_exact; lia. Qed.

(** Beyond they are not counted exactly: a byte more makes no difference to [2 ^ 53]. *)
Example double_add_lost : double_add (2 ^ 53) 1 = (2 ^ 53)%Z.
Proof. reflexivity. Qed.

(** ** The programs *)

(** [pingpong_server]; [size] is [PINGPONG_BUFFER_SIZE]. *)
Definition pingpong_server (size fuel : nat) : proc ending := echo_loop size fuel.

(** The loop of [session], which finds [rounds] times that no stop has been requested; its
    result is [total_bytes_read], a [double]. *)
Fixpoint session_loop (message_len rounds : nat) (buffer : list Z) (total_bytes_read : Z) : proc Z :=
  match rounds with
  | O => closing total_bytes_read
  | S rounds =>
      Send buffer
        (Recv message_len
           (fun d => session_loop message_len rounds d (double_add total_bytes_read (Z.of_nat message_len)))
           (closing total_bytes_read))
        (closing total_bytes_read)
  end.

(** [session], connected. *)
Definition session (message_len rounds : nat) : proc Z :=
  session_loop message_len rounds (replicate message_len 0%Z) 0.

(** What [run] makes of the results of its sessions. *)
Definition accumulate (res : list Z) : Z := fold_left double_plus res 0%Z.

Lemma accumulate_exact res : Forall (fun z => 0 <= z)%Z res -> (foldr Z.add 0 res <= 2 ^ 53)%Z ->
  accumulate res = foldr Z.add 0%Z res.
Proof.
  intros Hp. assert (forall a, (0 <= a)%Z -> (a + foldr Z.add 0 res <= 2 ^ 53)%Z ->
    fold_left double_plus res a = (a + foldr Z.add 0 res)%Z) as H.
  { induction Hp as [|z res Hz Hp IH]; intros a Ha Hs; cbn [fold_left foldr] in *; [lia|].
    assert (0 <= foldr Z.add 0 res)%Z by (clear IH Hs; induction Hp; cbn [foldr]; lia).
    unfold double_plus at 2. rewrite double_round_exact, IH by lia. lia. }
  intros Hs. unfold accumulate. by rewrite H by lia.
Qed.

(** ** Waiting for each other *)

(** Both wait, in [send], for the other to receive. *)
Definition deadlocked (s : system Z ending) : Prop :=
  full (to_server s) /\ full (to_client s) /\ ended (to_server s) = false /\ ended (to_client s) = false /\
  exists d k h d' k' h', d <> [] /\ d' <> [] /\ client s = Send d k h /\ server s = Send d' k' h'.

(** Where there is no room nothing can be sent. *)
Lemma send_blocked {A} d (k h : proc A) i o y : full o -> ended o = false -> d <> [] -> ~ proc_step (Send d k h, i, o) y.
Proof.
  unfold full. intros Hf He Hd Hs. apply Hd, length_zero_iff_nil.
  inversion Hs as [| | | | |? ? ? ? ? _ Hr|? m ? ? ? ? _ Hm Hr| | |]; subst; [unfold room in Hr; lia..|congruence].
Qed.

Lemma deadlocked_stuck s s' : deadlocked s -> ~ step s s'.
Proof.
  intros (Hf & Hf' & He & He' & d & k & h & d' & k' & h' & Hd & Hd' & Ec & Es) Hs.
  destruct Hs as [p p' q i o i' o' Hs|p q q' i o i' o' Hs]; cbn [client server to_server to_client] in *; subst;
    by eapply send_blocked in Hs.
Qed.

(** The client receives what is there. *)
Lemma recv_progress n k h i o : (0 < n)%nat -> in_flight i <> [] -> exists y, proc_step (A := Z) (Recv n k h, i, o) y.
Proof.
  intros Hn Hi. assert (0 < length (in_flight i))%nat by (destruct (in_flight i); [done|simpl; lia]).
  destruct (decide (n <= length (in_flight i))%nat); eexists.
  - apply do_recv. lia.
  - apply (do_recv_portion n (length (in_flight i))); lia.
Qed.

Section pingpong.
Context (L size rounds fuel cs cc : nat).
Context (HL : (0 < L)%nat) (Hsize : (0 < size)%nat) (Hcs : (0 < cs)%nat) (Hcc : (0 < cc)%nat).
Context (Hfuel : (rounds * L < fuel)%nat) (Hdouble : (Z.of_nat (rounds * L) <= 2 ^ 53)%Z).

(** ** The invariant *)

(** The bytes of [r] rounds that have been received, and what is reported of them. *)
Definition bytes_after (r : nat) : nat := ((rounds - r) * L)%nat.
Definition total_after (r : nat) : Z := Z.of_nat (bytes_after r).

(** A message can be sent before any of it is received: the buffers of the kernel and that of
    the server hold it. *)
Definition holds_message : Prop := (L <= cs + cc + size)%nat.

(** What the client has sent and received, when [r] rounds are left behind the one it is in:
    it sends what is left of a message; it receives what is left of one; it ends. *)
Inductive session_state : proc Z -> stream -> stream -> Prop :=
| session_sends r d h h' i o : (S r <= rounds)%nat -> (0 < length d <= L)%nat ->
    consumed i = bytes_after (S r) -> (length (written o) + length d)%nat = bytes_after r -> ended o = false ->
    rounds = S r \/ holds_message ->
    session_state (Send d (Recv L (fun b => session_loop L r b (double_add (total_after (S r)) (Z.of_nat L))) h) h') i o
| session_receives r n k h i o : (S r <= rounds)%nat -> (0 < n <= L)%nat ->
    (consumed i + n)%nat = bytes_after r -> length (written o) = bytes_after r -> ended o = false -> holds_message ->
    (forall d, length d = n -> exists buffer, length buffer = L /\ k d = session_loop L r buffer (total_after r)) ->
    session_state (Recv n k h) i o
| session_closes i o : consumed i = bytes_after 0 -> length (written o) = bytes_after 0 -> ended o = false ->
    rounds = 0%nat \/ holds_message -> session_state (closing (total_after 0)) i o
| session_waits h i o : consumed i = bytes_after 0 -> length (written o) = bytes_after 0 -> ended o = true ->
    rounds = 0%nat \/ holds_message -> session_state (Close (Done (total_after 0)) h) i o
| session_ends i o : length (written o) = bytes_after 0 -> ended o = true -> ended i = true ->
    rounds = 0%nat \/ holds_message -> session_state (Done (total_after 0)) i o.

(** The operations behind the loops that are left. *)
Definition client_weight (p : proc Z) : nat :=
  match p with Send _ _ _ | Recv _ _ _ | Shutdown _ _ => 2 | Close _ _ => 1 | _ => 0 end.
Definition server_weight (q : proc ending) : nat :=
  match q with Send _ _ _ | RecvSome _ _ _ => 3 | Shutdown _ _ => 2 | Close _ _ => 1 | _ => 0 end.

(** The bytes the server has read and not sent. *)
Definition server_data (q : proc ending) : nat := match q with Send d _ _ => length d | _ => 0 end.

(** A bound of the steps that are left: each byte is sent, received, sent and received once
    more. [o] is the stream to the server, [i] that to the client. *)
Definition weight (p : proc Z) (q : proc ending) (o i : stream) : nat :=
  4 * (bytes_after 0 - length (written o)) + 3 * length (in_flight o) + 2 * server_data q +
  length (in_flight i) + client_weight p + server_weight q.

Definition server_closed (q : proc ending) (o : stream) : Prop :=
  match q with Close _ _ | Done _ => ended o = true | _ => True end.

Record pingpong_inv (s : system Z ending) : Prop := {
  p_streams : streams_ok s;
  p_capacity : capacity (to_server s) = cs /\ capacity (to_client s) = cc;
  p_server : echo_state size fuel true (server s) (to_server s) (to_client s);
  p_closed : server_closed (server s) (to_client s);
  p_client : session_state (client s) (to_client s) (to_server s);
}.

Lemma bytes_after_S r : (S r <= rounds)%nat -> bytes_after r = (bytes_after (S r) + L)%nat.
Proof. intros Hr. unfold bytes_after. replace (rounds - r)%nat with (S (rounds - S r)) by lia. lia. Qed.

Lemma bytes_after_le r : (bytes_after r <= bytes_after 0)%nat /\ (bytes_after 0 = rounds * L)%nat.
Proof. unfold bytes_after. split; [apply Nat.mul_le_mono_r; lia|]. by rewrite Nat.sub_0_r. Qed.

Lemma total_after_S r : (S r <= rounds)%nat -> double_add (total_after (S r)) (Z.of_nat L) = total_after r.
Proof.
  intros Hr. pose proof (bytes_after_le r) as [Hle E0]. pose proof (bytes_after_S r Hr) as E.
  unfold total_after. rewrite double_add_exact by lia. lia.
Qed.

(** The session begins a round, or ends. *)
Lemma session_state_loop r buffer i o : (r <= rounds)%nat -> length buffer = L ->
  consumed i = bytes_after r -> length (written o) = bytes_after r -> ended o = false ->
  rounds = r \/ holds_message ->
  session_state (session_loop L r buffer (total_after r)) i o.
Proof.
  intros Hr Hb Hi Ho He Hh. destruct r as [|r]; [by apply session_closes|].
  apply session_sends; try done; [lia|]. rewrite (bytes_after_S r) by done. lia.
Qed.

(** The bytes the client may have sent are not more than the fuel. *)
Lemma session_written p i o : session_state p i o -> (length (written o) <= bytes_after 0)%nat.
Proof.
  destruct 1 as [r d h h' i o Hr Hd Hc E|r n k h i o Hr Hn Hc E|i o Hc E|h i o Hc E|i o E];
    try pose proof (bytes_after_le r); lia.
Qed.

(** A server that has ended its stream has seen the end of the client's. *)
Lemma echo_ended q i o : echo_state size fuel true q i o -> ended o = true -> ended i = true.
Proof. intros [f i' o' _ He _|f d i' o' _ He _ _|q' i' o' _ _ Hc] H; [congruence|congruence|by apply Hc]. Qed.

(** Every byte sent is in one of the streams, at the server, or has been received. *)
Lemma echo_bytes q i o : echo_state size fuel true q i o -> ended i = false -> stream_ok i -> stream_ok o ->
  (length (written i) = length (in_flight i) + server_data q + length (in_flight o) + consumed o)%nat /\
  (server_data q <= size)%nat.
Proof.
  intros Hq He [Hi _] [Ho _]. rewrite !length_in_flight.
  assert (forall d, written o ++ d = read i -> (length (written o) + length d = consumed i)%nat) as Hl.
  { intros d E. apply (f_equal length) in E. unfold read in E. rewrite length_app, length_take in E. lia. }
  destruct Hq as [f i o E _ _|f d i o E _ _ Hd|q i o _ _ Hc]; [| |destruct (Hc eq_refl); congruence].
  - rewrite <- (app_nil_r (written o)) in E. apply Hl in E. simpl in E. destruct f; simpl; lia.
  - apply Hl in E. simpl. lia.
Qed.

(** It sends nothing that it has not received. *)
Lemma echo_written q i o : echo_state size fuel true q i o -> stream_ok i -> (length (written o) <= length (written i))%nat.
Proof.
  intros Hq _. assert (written o `prefix_of` read i) as Hp by (destruct Hq as [f i o ->|f d i o <-|]; [done|by eexists|done]).
  apply prefix_length. etrans; [exact Hp|apply read_prefix].
Qed.

(** The server's fuel is not used up. *)
Lemma echo_not_out_of_fuel p q i o : session_state p o i -> stream_ok i ->
  echo_state size fuel true q i o -> q <> Done OutOfFuel.
Proof.
  intros Hp [Hi _] Hq E. apply session_written in Hp. pose proof (bytes_after_le 0).
  destruct Hq as [f i o _ _ Hf|f d i o _ _ _|q i o Hq _ _]; [|done|by destruct Hq as [->|[->| ->]]].
  destruct f as [|f]; [lia|done].
Qed.

Lemma client_weight_loop r buffer t : client_weight (session_loop L r buffer t) = 2%nat.
Proof. by destruct r. Qed.

(** An operation of the client. *)
Lemma session_step p i o p' i' o' q : session_state p i o -> stream_ok i -> stream_ok o ->
  capacity o = cs -> capacity i = cc -> echo_state size fuel true q o i -> proc_step (p, i, o) (p', i', o') ->
  session_state p' i' o' /\
  (4 * (bytes_after 0 - length (written o')) + 3 * length (in_flight o') + length (in_flight i') + client_weight p' <
   4 * (bytes_after 0 - length (written o)) + 3 * length (in_flight o) + length (in_flight i) + client_weight p)%nat.
Proof.
  intros Hp Hi Ho Hcap Hcap' Hq Hs.
  destruct Hp as [r d h h' i o Hr Hd Hc Hw He Hh|r n k h i o Hr Hn Hc Hw He Hh Hk|i o Hc Hw He Hh|h i o Hc Hw He Hh|i o Hw He Hei Hh];
    inversion Hs as [? ? ? ? ? Hm|? m ? ? ? ? Hm Hm'|? ? ? ? ? Hm| | |? ? ? ? ? Hd' Hroom|? m ? ? ? ? Hd' Hm Hroom|? ? ? ? ? Hd'|? ? ? ?|? ? ? ? Hd']; subst;
    try (pose proof (bytes_after_le r) as [Hle _]); try congruence.
  - pose proof (bytes_after_S r Hr) as HS. rewrite in_flight_write, length_app by done. cbn [written write]. rewrite length_app. split.
    + apply (session_receives r); try done; cbn [consumed written write]; rewrite ?length_app; try lia.
      * destruct (echo_bytes _ _ _ Hq He Ho Hi) as [Hb Hsd]. destruct Hi as [_ Hi]. unfold room in *. unfold holds_message. lia.
      * intros b Hb. exists b. split; [done|]. by rewrite total_after_S.
    + cbn [client_weight]. lia.
  - rewrite in_flight_write, !length_app, length_take by done. cbn [written write]. rewrite length_app, length_take. split.
    + apply session_sends; try done; cbn [consumed written write]; rewrite ?length_app, ?length_take, ?length_drop; lia.
    + cbn [client_weight]. lia.
  - destruct (Hk (take n (in_flight i))) as (b & Hb & ->); [rewrite length_take; lia|].
    rewrite in_flight_consume, length_drop, client_weight_loop. cbn [client_weight]. split; [|lia].
    apply session_state_loop; try done; try (by right); cbn [consumed consume]; lia.
  - rewrite in_flight_consume, length_drop. cbn [client_weight]. split; [|lia].
    apply (session_receives r); try done; cbn [consumed consume]; try lia.
    intros d Hd. apply Hk. rewrite length_app, length_take. lia.
  - destruct Hm as [Hm|[Hm _]]; [lia|]. apply (echo_ended _ _ _ Hq) in Hm. congruence.
  - split; [by apply session_waits|]. cbn [client_weight closing]. unfold in_flight. cbn. lia.
  - split; [by apply session_ends|]. rewrite in_flight_consume, length_drop. cbn [client_weight]. lia.
Qed.

(** An operation of the server. *)
Lemma server_step_weight q i o q' i' o' : echo_state size fuel true q i o -> server_closed q o -> stream_ok o ->
  q' <> Done OutOfFuel -> proc_step (q, i, o) (q', i', o') ->
  server_closed q' o' /\
  (3 * length (in_flight i') + 2 * server_data q' + length (in_flight o') + server_weight q' <
   3 * length (in_flight i) + 2 * server_data q + length (in_flight o) + server_weight q)%nat.
Proof.
  intros Hq Hcl Ho Hf Hs. destruct Hq as [f i o E He Hfu|f d i o E He Hfu Hd|q i o Hq Hp Hc].
  - destruct f as [|f]; inversion Hs as [| | |n m k h ? ? Hn Hm|n k h ? ? Hn| | | | |]; subst; (split; [done|]);
      cbn [server_weight server_data echo_loop closing].
    + rewrite in_flight_consume, length_drop, length_take. lia.
    + lia.
  - inversion Hs as [| | | | |? ? ? ? ? Hd' Hroom|? m ? ? ? ? Hd' Hm Hroom|? ? ? ? ? Hd'| |]; subst; [| |congruence].
    + rewrite in_flight_write, length_app by done. destruct f as [|f]; [done|]. split; [done|]. simpl. lia.
    + rewrite in_flight_write, length_app, length_take by done. split; [done|].
      cbn [server_weight server_data]. rewrite length_drop. lia.
  - destruct Hq as [->|[->| ->]]; inversion Hs; subst; (split; [done|]);
      rewrite ?in_flight_consume, ?length_drop; unfold closing, in_flight; cbn; lia.
Qed.

(** What the client does is not noticed by the server but by its streams, and vice versa. *)
Lemma session_server p i o i' o' : session_state p i o -> writes i i' -> reads o o' -> session_state p i' o'.
Proof.
  intros Hp (_ & Hc & Hend & _) (Hw & He & _).
  destruct Hp; [apply session_sends|eapply session_receives|apply session_closes|apply session_waits|apply session_ends];
    rewrite ?Hc, ?Hw, ?He; try done. by apply Hend.
Qed.

Lemma pingpong_step s s' : pingpong_inv s -> step s s' -> pingpong_inv s' /\
  (weight (client s') (server s') (to_server s') (to_client s') < weight (client s) (server s) (to_server s) (to_client s))%nat.
Proof.
  intros [Hok [Hcs' Hcc'] Hq Hcl Hp] Hs. assert (Hok' := faulty_streams _ _ (step_faulty _ _ Hs) Hok).
  pose proof Hok as [Ho Hi]. unfold weight.
  destruct Hs as [p p' q i o i' o' Hs|p q q' i o i' o' Hs]; cbn [client server to_server to_client] in *.
  - destruct (session_step p i o p' i' o' q) as [Hp' Hlt]; try done. split; [|lia].
    destruct (operates_streams p p' i o i' o') as (Hr & Hw & _ & _); [by left|done|done|].
    split; cbn [client server to_server to_client]; try done.
    + destruct Hr as (_ & _ & _ & ->), Hw as (_ & _ & _ & ->). done.
    + by eapply echo_state_client.
    + destruct Hr as (_ & Hr & _). destruct q; cbn in *; congruence.
  - assert (Hq' : echo_state size fuel true q' i' o') by by eapply echo_state_step.
    destruct (operates_streams q q' i o i' o') as (Hr & Hw & _ & _); [by left|done|done|].
    pose proof (session_server _ _ _ _ _ Hp Hw Hr) as Hp'.
    destruct (server_step_weight q i o q' i' o' Hq Hcl) as [Hcl' Hlt]; [done| |done|].
    { eapply echo_not_out_of_fuel; [exact Hp'|apply Hok'|done]. }
    pose proof Hr as (Ew & _). rewrite Ew. split; [|lia].
    split; cbn [client server to_server to_client]; try done.
    destruct Hr as (_ & _ & _ & ->), Hw as (_ & _ & _ & ->). done.
Qed.

(** ** Progress *)

(** The server can go on when something is on its way to it and there is room behind it. *)
Lemma server_progress p q o i : session_state p i o -> stream_ok o -> echo_state size fuel true q o i ->
  (exists y, proc_step (q, o, i) y) \/ q = Done Ended \/ (in_flight o = [] /\ ended o = false /\ server_data q = 0%nat) \/
  (full i /\ ended i = false /\ exists d k h, d <> [] /\ q = Send d k h).
Proof.
  intros Hp Ho Hq. pose proof (echo_not_out_of_fuel _ _ _ _ Hp Ho Hq) as Hf.
  destruct Hq as [f o i E He Hfu|f d o i E He Hfu Hd|q o i Hq Hpre Hc].
  - destruct f as [|f]; [done|]. destruct (decide (length (in_flight o) = 0)%nat) as [El|El].
    + apply length_zero_iff_nil in El. destruct (ended o) eqn:Eo; [|by right; right; left].
      left. eexists. apply do_recv_some_eof. auto.
    + left. eexists. apply (do_recv_some size 1); lia.
  - destruct (decide (capacity i <= length (in_flight i))%nat) as [Hfull|Hfull].
    + do 3 right. split; [done|]. split; [done|]. eexists d, _, _. split; [|done]. intros ->. simpl in Hd. lia.
    + left. by apply send_progress; [|lia].
  - destruct (Hc eq_refl) as [Hend _]. destruct Hq as [->|[->| ->]]; [| |by right; left].
    + left. eexists. apply do_shutdown.
    + left. eexists. by apply do_close.
Qed.

(** It can go on, unless both have ended, or wait for each other. *)
Lemma pingpong_progress s : pingpong_inv s ->
  (exists s', step s s') \/
  (client s = Done (total_after 0) /\ server s = Done Ended /\ length (written (to_server s)) = bytes_after 0 /\
   written (to_client s) = written (to_server s) /\ (rounds = 0%nat \/ holds_message)) \/
  (deadlocked s /\ (cs + cc + 1 < L)%nat).
Proof.
  intros [[Ho Hi] [Hcs' Hcc'] Hq Hcl Hp]. destruct s as [p q o i]. cbn [client server to_server to_client] in *.
  assert (Hcl' : (exists y, proc_step (p, i, o) y) -> exists s', step (mk_system p q o i) s').
  { intros [[[p' i'] o'] Hy]. eexists. by apply step_client. }
  destruct (server_progress p q o i Hp Ho Hq) as [[[[q' o'] i'] Hy]|[->|[(Hfl & Hen & Hsd)|(Hfull & Hen & d' & k' & h' & Hd' & ->)]]].
  - left. eexists. by apply step_server.
  - assert (ended o = true /\ written i = written o) as [He Hw].
    { inversion Hq as [f| |q' i' o' _ _ Hc]; subst; [by destruct f|by apply Hc]. }
    destruct Hp as [r d h h' i o _ _ _ _ E|r n k h i o _ _ _ _ E|i o _ _ E|h i o Hc E E' Hh|i o E E' _ Hh]; try congruence.
    + left. apply Hcl'. eexists. by apply do_close.
    + right. by left.
  - destruct (echo_bytes _ _ _ Hq Hen Ho Hi) as [Hb _]. rewrite Hfl, Hsd in Hb. cbn [length] in Hb.
    destruct Hp as [r d h h' i o Hr Hd Hc E E'|r n k h i o Hr Hn Hc E E' Hh Hk|i o Hc E E'|h i o Hc E E'|i o E E']; try congruence.
    + left. apply Hcl'. apply send_progress; [|lia]. unfold full. rewrite Hfl. simpl. lia.
    + left. apply Hcl'. apply recv_progress; [lia|]. intros Hi0. rewrite Hi0 in Hb. simpl in Hb. lia.
    + left. apply Hcl'. eexists. apply do_shutdown.
  - pose proof (echo_written _ _ _ Hq Ho) as Hw. unfold full in Hfull. rewrite Hcc' in Hfull.
    assert (length (written i) = consumed i + length (in_flight i))%nat as Hi'.
    { destruct Hi as [Hi _]. rewrite length_in_flight. lia. }
    destruct Hp as [r d h h0 i o Hr Hd Hc E E'|r n k h i o Hr Hn Hc E E' Hh Hk|i o Hc E E'|h i o Hc E E'|i o E E' Ei]; try congruence; try lia.
    + destruct (decide (capacity o <= length (in_flight o))%nat) as [Hf|Hf].
      * right. right. split; [unfold deadlocked, full; cbn [to_server to_client client server]; split; [done|]; split; [lia|];
          split; [done|]; split; [done|]; eexists d, _, _, d', _, _; split; [intros ->; simpl in Hd; lia|done]|].
        destruct (echo_bytes _ _ _ Hq E' Ho Hi) as [Hb _]. pose proof (bytes_after_S r Hr). cbn [server_data] in Hb.
        assert (0 < length d')%nat by (destruct d'; [done|simpl; lia]). lia.
      * left. apply Hcl'. apply send_progress; [done|lia].
    + left. apply Hcl'. apply recv_progress; [lia|]. intros Hi0. rewrite Hi0 in Hfull. simpl in Hfull. lia.
Qed.

Lemma pingpong_start : pingpong_inv (connect cs cc (session L rounds) (pingpong_server size fuel)).
Proof.
  split; [apply connect_ok|done|apply echo_init| |]; cbn [connect client server to_server to_client].
  - unfold pingpong_server. destruct fuel; [lia|done].
  - pose proof (session_state_loop rounds (replicate L 0%Z) (stream_init cc) (stream_init cs)) as H.
    assert (bytes_after rounds = 0%nat) as E by (unfold bytes_after; by rewrite Nat.sub_diag).
    unfold total_after in H. rewrite E in H. apply H; try done; [apply length_replicate|by left].
Qed.

Lemma pingpong_runs k s s' : nsteps step k s s' -> pingpong_inv s -> pingpong_inv s' /\
  (k + weight (client s') (server s') (to_server s') (to_client s') <= weight (client s) (server s) (to_server s) (to_client s))%nat.
Proof.
  induction 1 as [s|k s s1 s' H1 _ IH]; intros Hinv; [split; [done|lia]|].
  destruct (pingpong_step s s1 Hinv H1) as [Hinv1 Hlt]. destruct (IH Hinv1) as [Hinv' Hle]. split; [done|lia].
Qed.

Lemma weight_start : weight (session L rounds) (pingpong_server size fuel) (stream_init cs) (stream_init cc) =
  (4 * (rounds * L) + 5)%nat.
Proof.
  pose proof (bytes_after_le 0) as [_ E]. unfold weight, session, pingpong_server. rewrite client_weight_loop, E.
  destruct fuel; [lia|]. simpl. lia.
Qed.

End pingpong.

(** ** The run of a client *)

(** [run]: [when_all] of the sessions in a vector, which end with the numbers of bytes they
    have read; what is printed is their sum. *)
Definition run_sessions (bytes : list Z) : list (value_kind * (Z + unit)) := (fun b => (ValueType, inl b)) <$> bytes.

Definition run (bytes : list Z) : WhenAll.state (P := when_all_task_promise Z unit) :=
  state_init (R := Z) (E := unit) (fst <$> run_sessions bytes).

Definition total_bytes_read (s : WhenAll.state (P := when_all_task_promise Z unit)) : Z + fetched Z unit :=
  match when_all_result (fun ts => collect ts []) (awaitable s) with
  | inl res => inl (accumulate res)
  | inr bad => inr bad
  end.

Lemma gather_sessions bytes : gather (run_sessions bytes) = inl bytes.
Proof.
  induction bytes as [|b bytes IH]; [done|]. unfold run_sessions in *. rewrite fmap_cons. cbn [gather outcome].
  by rewrite IH.
Qed.

(** However the sessions are interleaved: when [run] goes on it is with the sum of what they
    have read. *)
Lemma run_total h bytes s : (Z.of_nat (length bytes) + 1 < 2 ^ 64)%Z ->
  rtc (WhenAll.step h (run_sessions bytes)) (run bytes) s ->
  resumptions s = [] \/ total_bytes_read s = inl (accumulate bytes).
Proof.
  intros Hb Hs. assert (length (run_sessions bytes) = length bytes) as Hl by apply length_fmap.
  destruct (when_all_inv h (run_sessions bytes) s) as [Hok [_ _ _ _ Hgone Hres]]; [lia|exact Hs|].
  cbn [abstract resumed wait running] in *. rewrite Hres. case_decide as Hw; [right|by left].
  unfold total_bytes_read. rewrite when_all_result_func.
  rewrite (collect_ended _ _ (all_ended _ s Hok (Hgone Hw)) []), gather_sessions. done.
Qed.

(** C23: ping-pong. A session of any number of rounds, as many bytes as a [double] counts,
    with buffers of any positive sizes in client, server and kernel: however client, server
    and portions of the transfer interleave, a run has a bounded number of steps, and can go
    on until one of two ends. Either both have ended, everything the client has sent has been
    echoed, and the number of bytes it reports is that of its rounds times the length of its
    message; or both wait in [send] for the other to receive, and will wait for good. Which
    one depends on the length of the message: one that the buffers of the kernel hold, but
    for a byte, never deadlocks; one that the buffers of kernel and server do not hold always
    does, in the first round. *)
Theorem pingpong_correct L size rounds fuel cs cc k s :
  (0 < L)%nat -> (0 < size)%nat -> (0 < cs)%nat -> (0 < cc)%nat -> (rounds * L < fuel)%nat ->
  (Z.of_nat (rounds * L) <= 2 ^ 53)%Z ->
  nsteps step k (connect cs cc (session L rounds) (pingpong_server size fuel)) s ->
  (k <= 4 * (rounds * L) + 5)%nat /\
  ((exists s', step s s') \/
   (client s = Done (Z.of_nat (rounds * L)) /\ server s = Done Ended /\
    length (written (to_server s)) = (rounds * L)%nat /\ written (to_client s) = written (to_server s) /\
    (rounds = 0 \/ L <= cs + cc + size)%nat) \/
   (deadlocked s /\ (forall s', ~ step s s') /\ (cs + cc + 1 < L)%nat)).
Proof.
  intros HL Hsize Hcs Hcc Hfuel Hd Hs.
  assert (pingpong_inv L size rounds fuel cs cc (connect cs cc (session L rounds) (pingpong_server size fuel))) as H0
    by by apply pingpong_start.
  eapply pingpong_runs in H0 as [Hinv Hk]; [|done..].
  cbn [connect client server to_server to_client] in Hk. rewrite weight_start in Hk by done. split; [lia|].
  assert (bytes_after L rounds 0 = rounds * L)%nat as E by (unfold bytes_after; by rewrite Nat.sub_0_r).
  eapply pingpong_progress in Hinv as [H|[(H1 & H2 & H3 & H4 & H5)|[H1 H2]]]; try done.
  - by left.
  - right. left. unfold total_after in H1. rewrite E in H1, H3. done.
  - right. right. split; [done|]. split; [|done]. intros s'. by apply deadlocked_stuck.
Qed.

(** One round of two bytes, which the server receives one by one; and one of four bytes, where
    all buffers hold one. *)
Lemma pingpong_correct_witness :
  let s := mk_system (Done 2%Z) (Done Ended) (mk_stream 1 [0; 0]%Z 2 true) (mk_stream 1 [0; 0]%Z 2 true) in
  (nsteps step 13 (connect 1 1 (session 2 1) (pingpong_server 8 3)) s /\ (13 <= 4 * (1 * 2) + 5)%nat) /\
  exists s', nsteps step 6 (connect 1 1 (session 4 1) (pingpong_server 1 5)) s' /\ deadlocked s' /\ forall s2, ~ step s' s2.
Proof.
  cbv zeta. set (s := mk_system _ _ _ _). split.
  - assert (H : nsteps step 13 (connect 1 1 (session 2 1) (pingpong_server 8 3)) s).
    { eapply nsteps_l; [apply step_client; apply (do_send_portion _ 1); [reflexivity|simpl; lia|unfold room; simpl; lia]|].
      eapply nsteps_l; [apply step_server; apply (do_recv_some 8 1); cbn; lia|].
      eapply nsteps_l; [apply step_server; apply do_send; [reflexivity|unfold room; simpl; lia]|].
      eapply nsteps_l; [apply step_client; apply do_send; [reflexivity|unfold room; simpl; lia]|].
      eapply nsteps_l; [apply step_client; apply (do_recv_portion 2 1); simpl; lia|].
      eapply nsteps_l; [apply step_server; apply (do_recv_some 8 1); cbn; lia|].
      eapply nsteps_l; [apply step_server; apply do_send; [reflexivity|unfold room; simpl; lia]|].
      eapply nsteps_l; [apply step_client; apply (do_recv 1); simpl; lia|].
      eapply nsteps_l; [apply step_client; apply do_shutdown|].
      eapply nsteps_l; [apply step_server; apply do_recv_some_eof; right; split; reflexivity|].
      eapply nsteps_l; [apply step_server; apply do_shutdown|].
      eapply nsteps_l; [apply step_server; apply do_close; reflexivity|].
      eapply nsteps_l; [apply step_client; apply do_close; reflexivity|]. apply nsteps_O. }
    split; [exact H|]. destruct (pingpong_correct 2 8 1 3 1 1 13 s) as [H1 _]; [lia|lia|lia|lia|lia|discriminate|exact H|exact H1].
  - eexists. split.
    { eapply nsteps_l; [apply step_client; apply (do_send_portion _ 1); [reflexivity|simpl; lia|unfold room; simpl; lia]|].
      eapply nsteps_l; [apply step_server; apply (do_recv_some 1 1); cbn; lia|].
      eapply nsteps_l; [apply step_server; apply do_send; [reflexivity|unfold room; simpl; lia]|].
      eapply nsteps_l; [apply step_client; apply (do_send_portion _ 1); [reflexivity|simpl; lia|unfold room; simpl; lia]|].
      eapply nsteps_l; [apply step_server; apply (do_recv_some 1 1); cbn; lia|].
      eapply nsteps_l; [apply step_client; apply (do_send_portion _ 1); [reflexivity|simpl; lia|unfold room; simpl; lia]|]. apply nsteps_O. }
    set (s' := mk_system _ _ _ _). assert (deadlocked s') as Hd.
    { unfold deadlocked, full. simpl. split_and!; try done; try lia. by eexists [0%Z], _, _, [0%Z], _, _. }
    split; [exact Hd|]. intros s2. exact (deadlocked_stuck s' s2 Hd).
Defined.
