(* ===== verification/PingpongRun.v ===== *)
(** * The run of the ping-pong client

    Models [run], [timer] and the control flow of [session] of
    [src/example/pingpong/pingpong_client.cpp]: all sessions are awaited by [when_all], the
    timer is spawned in an [async_scope] of [Latch], and both share a stop source. Everything
    runs on the thread of one service, which resumes one coroutine at a time, with the result
    of the operation it has awaited. What a session does over its connection is in
    [Pingpong]. *)

From S2P Require Import Prelude Latch Pingpong.
Local Open Scope Z_scope.

(** ** A session *)

(** What a session awaits; [total_bytes_read]. *)
Inductive phase := PConnect | PSend | PRecv | PClose | PEnded.

#[export] Instance phase_eq_dec : EqDecision phase.
Proof. solve_decision. Defined.






(** ** The run *)















(** ** The invariant *)











(** ** The sessions *)














