(* ===== verification/Task.v ===== *)
(** * Tasks

    Models [coroutine/task.h] and [coroutine/broken_promise.h] of [src/include/xynet], in the
    configuration of [coroutine/config.h]: symmetric transfer. Coroutines hand control to
    each other: awaiting a task stores the awaiting coroutine's handle in the promise and
    transfers to the task, whose end transfers back. The machine below does this; it
    implements the semantics one expects: a task is a computation that runs when it is first
    awaited, and only once. The promises are any that implement their interface. *)

From stdpp Require Import gmap relations.
From S2P Require Import Prelude Promise.

Section task.
Context {K P V E : Type} `{!Void V} `{ret : !Returned K V, prom : !Promise K P V E, laws : !PromiseLaws K P V E} (broken_promise : E).

(** ** Coroutine bodies *)

(** [co_await] of a task, an lvalue or an rvalue, or of its [when_ready()]. *)
Inductive awaitable := CoAwait | WhenReady.

(** The body of a coroutine: [co_return] or an exception that leaves it; [co_await] of a task
    - a handle, null after a move - with what follows for the value or the exception it
    gives; the question [is_ready()]; the awaiting of an event from outside; the call of a
    coroutine that returns a task of the type [kd]; and the end of a task's lifetime. *)
Inductive body :=
| Finish (r : V + E)
| Await (how : awaitable) (t : option nat) (k : V + E -> body)
| IsReady (t : option nat) (k : bool -> body)
| Io (k : V -> body)
| Call (kd : K) (b : body) (k : nat -> body)
| Drop (t : nat) (k : body).

(** [make_task] of a task. *)
Definition make_task (t : option nat) : body := Await CoAwait t Finish.

(** ** The machine *)

(** A coroutine frame: its type, the rest of the body, whether it has been started, whether
    it is at its final suspension point; the promise with [m_continuation] of its base. *)
Record frame := mk_frame {
  f_kind : K; f_body : body; f_started : bool; f_done : bool; m_continuation : option nat; f_promise : P }.

Definition frame_init (kd : K) (b : body) : frame := mk_frame kd b false false None (promise_init kd).

Definition set_continuation (c : nat) (f : frame) : frame :=
  mk_frame (f_kind f) (f_body f) (f_started f) (f_done f) (Some c) (f_promise f).

(** [result()] of the promise; [None] is undefined behaviour. *)
Definition promise_result (f : frame) : option (V + E) :=
  match result (f_promise f) with Got v => Some (inl v) | Rethrown e => Some (inr e) | Undefined => None end.

(** [awaitable_base::await_ready], which is [task::is_ready] too, and the [await_resume] of
    the awaitables; [None] is undefined behaviour: a destroyed frame, or no result. *)
Definition await_ready (frames : gmap nat frame) (t : option nat) : option bool :=
  match t with None => Some true | Some t => f_done <$> frames !! t end.
Definition await_resume (how : awaitable) (frames : gmap nat frame) (t : option nat) : option (V + E) :=
  match how with
  | WhenReady => Some (inl void)
  | CoAwait =>
      match t with
      | None => Some (inr broken_promise)
      | Some t => f ← frames !! t; promise_result f
      end
  end.

(** Which coroutine has control, or waits for the outside; or the one whose end had nobody to
    go back to. *)
Inductive control := Running (id : nat) | Parked (id : nat) | Ended (id : nat).

Record machine := mk_machine { frames : gmap nat frame; ctrl : control; inputs : list V }.

Definition set_body (b : body) (f : frame) : frame :=
  mk_frame (f_kind f) b true (f_done f) (m_continuation f) (f_promise f).

(** [await_suspend]: sets the continuation and transfers to the task, which must be suspended
    at its start. *)
Definition await_suspend (t awaiting : nat) (m : gmap nat frame) : option (gmap nat frame * control) :=
  f ← m !! t;
  if f_started f then None
  else Some (<[t := set_body (f_body f) (set_continuation awaiting f)]> m, Running t).

(** The end of a body: the promise gets the result, and [final_awaitable] transfers to the
    continuation. *)
Definition finish_frame (r : V + E) (f : frame) : frame :=
  mk_frame (f_kind f) (Finish r) true true (m_continuation f) (finish_promise r (f_promise f)).
Definition final_suspend (id : nat) (r : V + E) (f : frame) (m : gmap nat frame) : gmap nat frame * control :=
  (<[id := finish_frame r f]> m, match m_continuation f with Some c => Running c | None => Ended id end).

(** One step; [None] when there is none, or undefined behaviour. *)
Definition machine_step (s : machine) : option machine :=
  let m := frames s in
  match ctrl s with
  | Ended _ => None
  | Parked id =>
      f ← m !! id;
      match f_body f, inputs s with
      | Io k, v :: ins => Some (mk_machine (<[id := set_body (k v) f]> m) (Running id) ins)
      | _, _ => None
      end
  | Running id =>
      f ← m !! id;
      match f_body f with
      | Finish r => let '(m, c) := final_suspend id r f m in Some (mk_machine m c (inputs s))
      | Await how t k =>
          match await_ready m t, t with
          | Some true, _ =>
              r ← await_resume how m t; Some (mk_machine (<[id := set_body (k r) f]> m) (Running id) (inputs s))
          | Some false, Some t =>
              '(m, c) ← await_suspend t id m; Some (mk_machine m c (inputs s))
          | _, _ => None
          end
      | IsReady t k =>
          b ← await_ready m t; Some (mk_machine (<[id := set_body (k b) f]> m) (Running id) (inputs s))
      | Io k => Some (mk_machine m (Parked id) (inputs s))
      | Call kd b k =>
          let t := fresh (dom m) in
          Some (mk_machine (<[t := frame_init kd b]> (<[id := set_body (k t) f]> m)) (Running id) (inputs s))
      | Drop t k =>
          g ← m !! t;
          if f_started g && negb (f_done g) then None
          else Some (mk_machine (delete t (<[id := set_body k f]> m)) (Running id) (inputs s))
      end
  end.

Definition steps (s s' : machine) : Prop := rtc (fun s s' => machine_step s = Some s') s s'.

(** ** The semantics *)

(** A task is a computation that has not begun, is being evaluated, or has a result. *)
Inductive cell := Fresh (kd : K) (b : body) | Busy | Ready (r : V + E).

(** What a task of the type [kd] keeps of a result, and what awaiting it gives. *)
Definition kept (kd : K) (r : V + E) : V + E := match r with inl v => inl (returned kd v) | inr e => inr e end.
Definition given (how : awaitable) (r : V + E) : V + E := match how with CoAwait => r | WhenReady => inl void end.

(** The evaluation of a body, with fuel: the result, the tasks and the inputs left. *)
Fixpoint eval (fuel : nat) (b : body) (h : gmap nat cell) (ins : list V)
  : option ((V + E) * gmap nat cell * list V) :=
  match fuel with
  | O => None
  | S fuel =>
      match b with
      | Finish r => Some (r, h, ins)
      | Await how None k => eval fuel (k (given how (inr broken_promise))) h ins
      | Await how (Some t) k =>
          match h !! t with
          | Some (Ready r) => eval fuel (k (given how r)) h ins
          | Some (Fresh kd b) =>
              '(r, h, ins) ← eval fuel b (<[t := Busy]> h) ins;
              eval fuel (k (given how (kept kd r))) (<[t := Ready (kept kd r)]> h) ins
          | _ => None
          end
      | IsReady None k => eval fuel (k true) h ins
      | IsReady (Some t) k =>
          c ← h !! t; eval fuel (k (match c with Ready _ => true | _ => false end)) h ins
      | Io k => match ins with v :: ins => eval fuel (k v) h ins | [] => None end
      | Call kd b k => let t := fresh (dom h) in eval fuel (k t) (<[t := Fresh kd b]> h) ins
      | Drop t k =>
          match h !! t with
          | Some Busy | None => None
          | _ => eval fuel k (delete t h) ins
          end
      end
  end.

(** ** The machine implements the semantics *)

Definition abs_frame (f : frame) : cell :=
  if f_done f then match promise_result f with Some r => Ready r | None => Busy end
  else if f_started f then Busy else Fresh (f_kind f) (f_body f).

Definition abs (m : gmap nat frame) : gmap nat cell := abs_frame <$> m.

(** A coroutine that has been started and is not at its end. *)
Definition busy (f : frame) : Prop := f_started f = true /\ f_done f = false.

(** A promise has a result exactly when the coroutine is at its end. *)
Definition frame_ok (f : frame) : Prop :=
  if f_done f then is_Some (promise_result f) else f_promise f = promise_init (f_kind f).
Definition frames_ok (m : gmap nat frame) : Prop := map_Forall (fun _ f => frame_ok f) m.

Lemma frame_ok_init kd b : frame_ok (frame_init kd b).
Proof. done. Qed.

Lemma frame_ok_set_body b f : frame_ok f -> frame_ok (set_body b f).
Proof. done. Qed.

Lemma frames_ok_insert m id f : frames_ok m -> frame_ok f -> frames_ok (<[id := f]> m).
Proof. intros Hm Hf. by apply map_Forall_insert_2. Qed.

Lemma frames_ok_continue m id f b : frames_ok m -> m !! id = Some f -> frames_ok (<[id := set_body b f]> m).
Proof. intros Hm Hf. apply frames_ok_insert; [done|]. exact (Hm id f Hf). Qed.

Lemma frames_ok_delete m id : frames_ok m -> frames_ok (delete id m).
Proof. apply map_Forall_delete. Qed.

(** The frames of the coroutines that wait for [id] are as they were. *)
Definition untouched (id : nat) (m m' : gmap nat frame) : Prop :=
  forall j f, j <> id -> m !! j = Some f -> busy f -> m' !! j = Some f.

Lemma untouched_trans id m1 m2 m3 : untouched id m1 m2 -> untouched id m2 m3 -> untouched id m1 m3.
Proof. intros H1 H2 j f Hj Hf Hb. apply H2; auto. Qed.

Lemma untouched_insert id m f : untouched id m (<[id := f]> m).
Proof. intros j g Hj Hg _. by rewrite lookup_insert_ne. Qed.

Lemma abs_lookup m t : abs m !! t = abs_frame <$> m !! t.
Proof. apply lookup_fmap. Qed.

Lemma abs_insert m t f : abs (<[t := f]> m) = <[t := abs_frame f]> (abs m).
Proof. apply fmap_insert. Qed.

(** Continuing a busy coroutine does not change the abstraction. *)
Lemma abs_continue m id f b : m !! id = Some f -> busy f -> abs (<[id := set_body b f]> m) = abs m.
Proof.
  intros Hf [Hs Hd]. rewrite abs_insert. apply insert_id. rewrite abs_lookup, Hf. cbn.
  unfold abs_frame. cbn. by rewrite Hs, Hd.
Qed.

Lemma busy_set_body b f : busy f -> busy (set_body b f).
Proof. by intros [_ ?]. Qed.

(** What the cell says of the frame. *)
Lemma abs_fresh f kd b : abs_frame f = Fresh kd b ->
  f_done f = false /\ f_started f = false /\ f_kind f = kd /\ f_body f = b.
Proof.
  unfold abs_frame. destruct (f_done f); [by destruct (promise_result f)|]. destruct (f_started f); [done|].
  by intros [= <- <-].
Qed.

Lemma abs_ready f r : abs_frame f = Ready r -> f_done f = true /\ promise_result f = Some r.
Proof.
  unfold abs_frame. destruct (f_done f); [|by destruct (f_started f)].
  destruct (promise_result f) as [r'|]; [|done]. by intros [= <-].
Qed.

(** [is_ready()] is whether there is a result. *)
Lemma abs_is_ready f : frame_ok f -> (match abs_frame f with Ready _ => true | _ => false end) = f_done f.
Proof.
  unfold frame_ok, abs_frame. destruct (f_done f); [by intros [r ->]|]. by destruct (f_started f).
Qed.

Lemma finish_frame_result r f : frame_ok f -> f_done f = false ->
  promise_result (finish_frame r f) = Some (kept (f_kind f) r).
Proof.
  unfold frame_ok, promise_result. intros Hf Hd. rewrite Hd in Hf. cbn [finish_frame f_promise].
  rewrite Hf, result_finish. by destruct r.
Qed.

Lemma finish_frame_ok r f : frame_ok f -> f_done f = false -> frame_ok (finish_frame r f).
Proof. intros Hf Hd. unfold frame_ok. cbn [finish_frame f_done]. rewrite (finish_frame_result r f Hf Hd). by eexists. Qed.

(** The state before the final suspension: the frame of [id] has its result to give. *)
Definition reaches (s : machine) (id : nat) (f : frame) (r : V + E) (h : gmap nat cell) (ins : list V) : Prop :=
  exists m', steps s (mk_machine m' (Running id) ins) /\
    m' !! id = Some (set_body (Finish r) f) /\
    abs m' = h /\ untouched id (frames s) m' /\ frames_ok m'.

(** A step of [id] in front. *)
Lemma reaches_step s id f b m' ins' r h ins :
  machine_step s = Some (mk_machine m' (Running id) ins') -> untouched id (frames s) m' ->
  reaches (mk_machine m' (Running id) ins') id (set_body b f) r h ins -> reaches s id f r h ins.
Proof.
  intros Hs Hu (m2 & H2 & Hf & Ha & Hu2 & Hok). exists m2. split_and!; try done.
  - by eapply rtc_l.
  - by eapply untouched_trans.
Qed.

(** The awaited task has a result: [id] goes on with it. *)
Lemma await_ready_step m id f how t g r k ins : m !! id = Some f -> f_body f = Await how (Some t) k ->
  m !! t = Some g -> f_done g = true -> promise_result g = Some r ->
  machine_step (mk_machine m (Running id) ins) =
    Some (mk_machine (<[id := set_body (k (given how r)) f]> m) (Running id) ins).
Proof.
  intros Hf Hb Hg Hd Hr. unfold machine_step. cbn [frames ctrl inputs]. rewrite Hf. cbn. rewrite Hb.
  cbn. rewrite Hg. cbn. rewrite Hd. destruct how; cbn; [|done]. rewrite Hg. cbn. by rewrite Hr.
Qed.

(** The awaited task has not begun: it gets control. *)
Lemma await_suspend_step m id f how t g k ins : m !! id = Some f -> f_body f = Await how (Some t) k ->
  m !! t = Some g -> f_started g = false -> f_done g = false ->
  machine_step (mk_machine m (Running id) ins) =
    Some (mk_machine (<[t := set_body (f_body g) (set_continuation id g)]> m) (Running t) ins).
Proof.
  intros Hf Hb Hg Hst Hd. unfold machine_step. cbn [frames ctrl inputs]. rewrite Hf. cbn. rewrite Hb.
  cbn. rewrite Hg. cbn. rewrite Hd. cbn. unfold await_suspend. rewrite Hg. cbn. by rewrite Hst.
Qed.

(** The end of a task with a continuation. *)
Lemma final_step m t r f c ins : m !! t = Some f -> f_body f = Finish r -> m_continuation f = Some c ->
  machine_step (mk_machine m (Running t) ins) = Some (mk_machine (<[t := finish_frame r f]> m) (Running c) ins).
Proof.
  intros Hf Hb Hc. unfold machine_step. cbn [frames ctrl inputs]. rewrite Hf. cbn. rewrite Hb.
  unfold final_suspend. by rewrite Hc.
Qed.

(** With some fuel, the machine does what the evaluation does. *)
Definition implemented (fuel : nat) : Prop := forall b h ins r h' ins' m id f,
  eval fuel b h ins = Some (r, h', ins') -> abs m = h -> frames_ok m -> m !! id = Some f -> busy f -> f_body f = b ->
  reaches (mk_machine m (Running id) ins) id f r h' ins'.

(** The body goes on with [b] after a step that changed nothing else. *)
Lemma continue_reaches fuel id f b m ins r h' ins' : implemented fuel -> frames_ok m -> m !! id = Some f -> busy f ->
  eval fuel b (abs m) ins = Some (r, h', ins') ->
  reaches (mk_machine (<[id := set_body b f]> m) (Running id) ins) id (set_body b f) r h' ins'.
Proof.
  intros IH Hok Hf Hb Hev.
  eapply IH; [exact Hev|by apply abs_continue|by apply frames_ok_continue|by rewrite lookup_insert_eq|by apply busy_set_body|done].
Qed.

(** The same with the step before it. *)
Lemma step_continue fuel id f b m ins r h' ins' : implemented fuel -> frames_ok m -> m !! id = Some f -> busy f ->
  machine_step (mk_machine m (Running id) ins) = Some (mk_machine (<[id := set_body b f]> m) (Running id) ins) ->
  eval fuel b (abs m) ins = Some (r, h', ins') ->
  reaches (mk_machine m (Running id) ins) id f r h' ins'.
Proof.
  intros IH Hok Hf Hb Hs Hev. eapply (reaches_step _ id f b); [exact Hs|apply untouched_insert|].
  by eapply continue_reaches.
Qed.

(** Awaiting a task that has not begun. *)
Lemma await_fresh_reaches fuel m id f how t g k ins r h' ins' r1 h1 ins1 : implemented fuel -> frames_ok m ->
  m !! id = Some f -> busy f -> f_body f = Await how (Some t) k ->
  m !! t = Some g -> f_started g = false -> f_done g = false ->
  eval fuel (f_body g) (<[t:=Busy]> (abs m)) ins = Some (r1, h1, ins1) ->
  eval fuel (k (given how (kept (f_kind g) r1))) (<[t:=Ready (kept (f_kind g) r1)]> h1) ins1 = Some (r, h', ins') ->
  reaches (mk_machine m (Running id) ins) id f r h' ins'.
Proof.
  intros IH Hok Hf Hb Eb Hg Hgs Hgd E1 Hev.
  pose proof (await_suspend_step m id f how t g k ins Hf Eb Hg Hgs Hgd) as Hstep.
  set (g1 := set_body (f_body g) (set_continuation id g)) in *.
  assert (frame_ok g1) as Hg1 by exact (Hok t g Hg).
  assert (id <> t) as Hne by (intros ->; rewrite Hf in Hg; injection Hg as ->; destruct Hb; congruence).
  destruct (IH (f_body g) (<[t:=Busy]> (abs m)) ins r1 h1 ins1 (<[t:=g1]> m) t g1) as (m1 & Hs1 & Hf1 & Ha1 & Hu1 & Hok1);
    [done|rewrite abs_insert; unfold abs_frame; cbn; by rewrite Hgd|by apply frames_ok_insert|by rewrite lookup_insert_eq|by split|done|].
  cbn [frames] in Hu1. pose proof (final_step m1 t r1 _ id ins1 Hf1 eq_refl eq_refl) as Hstep2.
  set (g2 := finish_frame r1 (set_body (Finish r1) g1)) in *.
  assert (promise_result g2 = Some (kept (f_kind g) r1)) as Hr2 by (by apply (finish_frame_result r1 (set_body (Finish r1) g1))).
  assert (m1 !! id = Some f) as Hf1' by (apply Hu1; [done|by rewrite lookup_insert_ne|done]).
  assert (<[t:=g2]> m1 !! id = Some f) as Hf2 by by rewrite lookup_insert_ne.
  assert (abs (<[t:=g2]> m1) = <[t:=Ready (kept (f_kind g) r1)]> h1) as Ha2.
  { rewrite abs_insert, Ha1. unfold abs_frame at 1. by rewrite Hr2. }
  assert (frames_ok (<[t:=g2]> m1)) as Hok2 by (apply frames_ok_insert; [done|by apply finish_frame_ok]).
  pose proof (await_ready_step (<[t:=g2]> m1) id f how t g2 _ k ins1 Hf2 Eb (lookup_insert_eq _ _ _) eq_refl Hr2) as Hstep3.
  rewrite <- Ha2 in Hev.
  destruct (step_continue fuel id f _ _ ins1 r h' ins' IH Hok2 Hf2 Hb Hstep3 Hev) as (m3 & Hs3 & Hf3 & Ha3 & Hu3 & Hok3).
  exists m3. split_and!; [|done|done| |done].
  - eapply rtc_l; [exact Hstep|]. etrans; [exact Hs1|]. eapply rtc_l; [exact Hstep2|exact Hs3].
  - intros j fj Hj Hmj Hbj. cbn [frames] in *.
    assert (j <> t) as Hjt by (intros ->; rewrite Hg in Hmj; injection Hmj as ->; destruct Hbj; congruence).
    apply Hu3; [done| |done]. rewrite lookup_insert_ne by done.
    apply Hu1; [done|by rewrite lookup_insert_ne|done].
Qed.

(** Waiting for the outside. *)
Lemma io_reaches fuel m id f k v ins r h' ins' : implemented fuel -> frames_ok m -> m !! id = Some f -> busy f ->
  f_body f = Io k -> eval fuel (k v) (abs m) ins = Some (r, h', ins') ->
  reaches (mk_machine m (Running id) (v :: ins)) id f r h' ins'.
Proof.
  intros IH Hok Hf Hb Eb Hev.
  destruct (continue_reaches fuel id f (k v) m ins r h' ins' IH Hok Hf Hb Hev) as (m3 & Hs3 & Hf3 & Ha3 & Hu3 & Hok3).
  exists m3. split_and!; [|done|done| |done].
  - eapply (rtc_l _ _ (mk_machine m (Parked id) (v :: ins))).
    { unfold machine_step. cbn [frames ctrl inputs]. rewrite Hf. cbn. by rewrite Eb. }
    eapply rtc_l; [|exact Hs3]. unfold machine_step. cbn [frames ctrl inputs]. rewrite Hf. cbn. by rewrite Eb.
  - eapply untouched_trans; [apply untouched_insert|exact Hu3].
Qed.

(** Calling a coroutine: a frame that was not there before. *)
Lemma call_reaches fuel m id f kd b k ins r h' ins' : implemented fuel -> frames_ok m -> m !! id = Some f -> busy f ->
  f_body f = Call kd b k ->
  (let t := fresh (dom (abs m)) in eval fuel (k t) (<[t := Fresh kd b]> (abs m)) ins) = Some (r, h', ins') ->
  reaches (mk_machine m (Running id) ins) id f r h' ins'.
Proof.
  intros IH Hok Hf Hb Eb Hev. cbv zeta in Hev.
  assert (fresh (dom (abs m)) = fresh (dom m)) as Hfr by (unfold abs; by rewrite dom_fmap_L).
  rewrite Hfr in Hev. set (t := fresh (dom m)) in *.
  assert (m !! t = None) as Ht by (apply not_elem_of_dom, is_fresh).
  assert (id <> t) as Hne by congruence.
  eapply (reaches_step _ id f (k t)).
  - unfold machine_step. cbn [frames ctrl inputs]. rewrite Hf. cbn. rewrite Eb. reflexivity.
  - intros j fj Hj Hmj _. cbn [frames] in *. fold t.
    assert (t <> j) by (intros ->; rewrite Ht in Hmj; done). by rewrite !lookup_insert_ne.
  - eapply IH; [exact Hev| | | |by apply busy_set_body|done].
    + by rewrite abs_insert, abs_continue.
    + apply frames_ok_insert; [by apply frames_ok_continue|done].
    + rewrite lookup_insert_ne by done. by rewrite lookup_insert_eq.
Qed.

(** The end of a task's lifetime, while it is not running. *)
Lemma drop_reaches fuel m id f t g k ins r h' ins' : implemented fuel -> frames_ok m -> m !! id = Some f -> busy f ->
  f_body f = Drop t k -> m !! t = Some g -> abs_frame g <> Busy ->
  eval fuel k (delete t (abs m)) ins = Some (r, h', ins') ->
  reaches (mk_machine m (Running id) ins) id f r h' ins'.
Proof.
  intros IH Hok Hf Hb Eb Hg Hgb Hev.
  assert (id <> t) as Hne.
  { intros ->. rewrite Hf in Hg. injection Hg as <-. destruct Hb as [H1 H2]. unfold abs_frame in Hgb.
    by rewrite H1, H2 in Hgb. }
  assert (f_started g && negb (f_done g) = false) as Hnb.
  { unfold abs_frame in Hgb. by destruct (f_done g), (f_started g). }
  eapply (reaches_step _ id f k).
  - unfold machine_step. cbn [frames ctrl inputs]. rewrite Hf. cbn. rewrite Eb, Hg. cbn. rewrite Hnb. reflexivity.
  - intros j fj Hj Hmj Hbj. cbn [frames] in *. rewrite lookup_delete_ne.
    + by rewrite lookup_insert_ne.
    + intros <-. rewrite Hg in Hmj. injection Hmj as <-. destruct Hbj as [H1 H2]. by rewrite H1, H2 in Hnb.
  - eapply IH; [exact Hev| | | |by apply busy_set_body|done].
    + unfold abs. rewrite fmap_delete. fold (abs (<[id:=set_body k f]> m)). by rewrite abs_continue.
    + by apply frames_ok_delete, frames_ok_continue.
    + rewrite lookup_delete_ne by done. by rewrite lookup_insert_eq.
Qed.

Lemma eval_reaches fuel : implemented fuel.
Proof.
  induction fuel as [|fuel IH]; intros b h ins r h' ins' m id f Hev Ha Hok Hf Hb Eb; [done|].
  subst h. cbn [eval] in Hev. destruct b as [r0|how [t|] k|[t|] k|k|kd b k|t k].
  - injection Hev as <- <- <-. exists m. destruct Hb as [Hs Hd]. destruct f as [fk fb fs fd fc fp]. cbn in *; subst.
    split_and!; [constructor|done|done| |done]. by intros ? ? _ ? _.
  - rewrite abs_lookup in Hev. destruct (m !! t) as [g|] eqn:Hg; [|done]. cbn in Hev.
    destruct (abs_frame g) as [kd b'| |r1] eqn:Eg; [|done|].
    + apply abs_fresh in Eg as (Hgd & Hgs & <- & <-). apply bind_Some in Hev as ([[r1 h1] ins1] & E1 & E2).
      by eapply (await_fresh_reaches fuel).
    + apply abs_ready in Eg as [Hgd Hgr]. eapply (step_continue fuel); [done..| |exact Hev].
      by eapply await_ready_step.
  - eapply (step_continue fuel); [done..| |exact Hev].
    unfold machine_step. cbn [frames ctrl inputs]. rewrite Hf. cbn. rewrite Eb. by destruct how.
  - rewrite abs_lookup in Hev. destruct (m !! t) as [g|] eqn:Hg; [|done]. cbn in Hev.
    rewrite (abs_is_ready g (Hok t g Hg)) in Hev. eapply (step_continue fuel); [done..| |exact Hev].
    unfold machine_step. cbn [frames ctrl inputs]. rewrite Hf. cbn. rewrite Eb. cbn. by rewrite Hg.
  - eapply (step_continue fuel); [done..| |exact Hev].
    unfold machine_step. cbn [frames ctrl inputs]. rewrite Hf. cbn. by rewrite Eb.
  - destruct ins as [|v ins]; [done|]. by eapply io_reaches.
  - by eapply call_reaches.
  - rewrite abs_lookup in Hev. destruct (m !! t) as [g|] eqn:Hg; [|done]. cbn in Hev.
    eapply (drop_reaches fuel); [done..| |]; destruct (abs_frame g); done.
Qed.

(** [make_task] of a task is that task. *)
Lemma make_task_eval fuel t h kd b ins r h' ins' : h !! t = Some (Fresh kd b) ->
  eval (S fuel) b (<[t := Busy]> h) ins = Some (r, h', ins') ->
  eval (S (S fuel)) (make_task (Some t)) h ins = Some (kept kd r, <[t := Ready (kept kd r)]> h', ins').
Proof. intros Ht Hb. cbn [eval make_task]. rewrite Ht. cbn [eval] in Hb. rewrite Hb. done. Qed.

(** C16: tasks of any types. Whenever the evaluation of a coroutine's body gives a result -
    where a task is a computation that begins when it is first awaited, runs once, is resumed
    by what it waits for, and whose value or exception every await gives, while
    [when_ready()] gives neither - the machine, in which the coroutines hand control to each
    other by their handles, ends with that coroutine at its end, the same result in its
    promise, the other tasks as in the evaluation, and the same inputs used. A task that is
    never awaited never begins, [is_ready()] is whether it has ended, and awaiting a task
    without a coroutine throws [broken_promise]. *)
Theorem task_correct fuel kd b r h' ins ins' root :
  eval fuel b {[root := Busy]} ins = Some (r, h', ins') ->
  exists m', steps (mk_machine {[root := set_body b (frame_init kd b)]} (Running root) ins)
      (mk_machine m' (Ended root) ins') /\
    (f ← m' !! root; promise_result f) = Some (kept kd r) /\
    abs m' = <[root := Ready (kept kd r)]> h'.
Proof.
  intros Hev. set (f := set_body b (frame_init kd b)).
  destruct (eval_reaches fuel b {[root := Busy]} ins r h' ins' {[root := f]} root f Hev)
    as (m1 & Hs & Hf & Ha & _ & Hok).
  - unfold abs. by rewrite map_fmap_singleton.
  - by apply map_Forall_singleton.
  - by rewrite lookup_singleton_eq.
  - done.
  - done.
  - set (g := finish_frame r (set_body (Finish r) f)).
    assert (promise_result g = Some (kept kd r)) as Hr by (by apply (finish_frame_result r (set_body (Finish r) f))).
    exists (<[root := g]> m1). split_and!.
    + unfold steps; etrans; [exact Hs|]. apply rtc_once. unfold machine_step. cbn [frames ctrl inputs]. by rewrite Hf.
    + rewrite lookup_insert_eq. exact Hr.
    + rewrite abs_insert, Ha. unfold abs_frame. by rewrite Hr.
Qed.

End task.

(** A coroutine that calls three tasks - one that waits for an input and returns it, one
    without a value that throws, and one that is never awaited - and awaits the first twice. *)
Definition sample_body : body (K := value_kind + void_kind) (V := option nat) (E := nat) :=
  Call (inl ValueType) (Io (fun v => Finish (inl (S <$> v)))) (fun t =>
    Call (inr VoidType) (Finish (inr 100)) (fun u =>
      Call (inl ValueType) (Finish (inl None)) (fun _ =>
        Await CoAwait (Some t) (fun r1 =>
          Await WhenReady (Some u) (fun _ =>
            Await CoAwait (Some u) (fun r2 =>
              Await CoAwait (Some t) (fun r3 =>
                Finish (match r1, r2, r3 with inl (Some a), inr e, inl (Some b) => inl (Some (a + e + b)) | _, _, _ => inr 0 end)))))))).

#[local] Instance sample_void : Void (option nat) := None.

Lemma task_correct_witness :
  exists m', steps (P := task_promise (option nat) nat + task_promise_void nat) 100
      (mk_machine {[0 := set_body sample_body (frame_init (inl ValueType) sample_body)]} (Running 0) [Some 7])
      (mk_machine m' (Ended 0) []) /\
    (f ← m' !! 0; promise_result f) = Some (inl (Some 116)).
Proof.
  destruct (task_correct (P := task_promise (option nat) nat + task_promise_void nat) 100 20 (inl ValueType) sample_body
    (inl (Some 116)) (default ∅ ((fun x => snd (fst x)) <$>
      eval 100 20 sample_body {[0 := Busy]} [Some 7]))
    [Some 7] [] 0) as (m' & H1 & H2 & _); [vm_compute; reflexivity|].
  exists m'. split; [exact H1|exact H2].
Defined.
