(* ===== verification/TaskFallback.v ===== *)
(** * Tasks without symmetric transfer

    The branches of [coroutine/task.h] of [src/include/xynet] for a compiler without symmetric
    transfer, which [Config] shows are not compiled: the awaiting coroutine starts the task
    and registers its handle afterwards, while the task may end in another thread, and an
    atomic flag of [Memory] decides which of the two comes second. *)

From stdpp Require Import relations gmap.
From S2P Require Import Prelude Memory.

(** ** The operations *)

(** [task_promise_base]: [m_state], and [m_continuation], which is plain data. *)
Record task_promise_base := mk_base { m_state : location bool; m_continuation : option nat }.

Definition task_promise_base_init : task_promise_base := mk_base (location_init false) None.

Definition exchange_order : order := AcqRel.

(** [try_set_continuation], in its two steps; true is to suspend. *)
Definition set_handle (h : nat) (p : task_promise_base) : task_promise_base := mk_base (m_state p) (Some h).
Definition try_set_continuation (p : task_promise_base) (v : view) : task_promise_base * bool * view :=
  let '(old, s, v') := rmw exchange_order (fun _ => true) (m_state p) v in
  (mk_base s (m_continuation p), negb old, v').

(** [final_awaitable::await_suspend]: the handle it resumes, if any. *)
Definition final_await_suspend (p : task_promise_base) (v : view) : task_promise_base * option (option nat) * view :=
  let '(old, s, v') := rmw exchange_order (fun _ => true) (m_state p) v in
  (mk_base s (m_continuation p), if old then Some (m_continuation p) else None, v').

(** ** The system *)

(** The awaiting coroutine in [await_suspend]: has to resume the task; the task has been
    resumed, and has suspended or ended in this call; the handle is stored; is suspended. *)
Inductive awaiter := Resume | Resumed | Stored | Suspended | GoneOn.

(** The task: not started; runs, or waits for something; is at its end; is suspended there. *)
Inductive task_state := NotStarted | Runs | AtEnd.

(** [went_on]: the handles that went on, with the view of the thread. *)
Record system := mk_system {
  promise : task_promise_base; await_ : awaiter; task_ : task_state; went_on : list (option nat * view) }.

(** [h]: the awaiting coroutine; [hw] and [rw]: the numbers of the writes of its handle and
    of the task's result. Threads have any view that has their own writes. *)
Inductive step (h hw rw : nat) : system -> system -> Prop :=
| s_resume p rs : step h hw rw (mk_system p Resume NotStarted rs) (mk_system p Resumed Runs rs)
| s_store p t rs : step h hw rw (mk_system p Resumed t rs) (mk_system (set_handle h p) Stored t rs)
| s_try p t rs v p' suspend v' : hw ∈ facts v -> try_set_continuation p v = (p', suspend, v') ->
    step h hw rw (mk_system p Stored t rs)
      (if suspend then mk_system p' Suspended t rs else mk_system p' GoneOn t (rs ++ [(Some h, v')]))
| s_final p a rs v p' r v' : rw ∈ facts v -> final_await_suspend p v = (p', r, v') ->
    step h hw rw (mk_system p a Runs rs)
      (mk_system p' (match r with Some _ => match a with Suspended => GoneOn | a => a end | None => a end) AtEnd
         (match r with Some c => rs ++ [(c, v')] | None => rs end)).

Definition start : system := mk_system task_promise_base_init Resume NotStarted [].

(** ** The proof *)

(** When the flag is set: one of them has been there. *)
Definition flag (a : awaiter) (t : task_state) : bool :=
  match a, t with _, AtEnd | Suspended, _ | GoneOn, _ => true | _, _ => false end.

(** The combinations that occur. *)
Definition possible (a : awaiter) (t : task_state) : bool :=
  match a, t with
  | Resume, NotStarted | Resumed, Runs | Resumed, AtEnd | Stored, Runs | Stored, AtEnd
  | Suspended, Runs | GoneOn, AtEnd => true
  | _, _ => false
  end.

Record fallback_inv (h hw rw : nat) (s : system) : Prop := {
  f_possible : possible (await_ s) (task_ s) = true;
  f_flag : value (newest (m_state (promise s))) = flag (await_ s) (task_ s);
  (** The newest message releases the writes of those that have been there. *)
  f_task : task_ s = AtEnd -> rw ∈ facts (released (newest (m_state (promise s))));
  f_awaiter : await_ s = Suspended -> hw ∈ facts (released (newest (m_state (promise s))));
  f_handle : match await_ s with Resume | Resumed => True | _ => m_continuation (promise s) = Some h end;
  f_went_on : match await_ s with
              | GoneOn => exists v, went_on s = [(Some h, v)] /\ hw ∈ facts v /\ rw ∈ facts v
              | _ => went_on s = []
              end;
}.

(** What the exchange does: it releases what it knows and acquires what is released. *)
Lemma exchange_spec (l : location bool) v old l' v' : rmw exchange_order (fun _ => true) l v = (old, l', v') ->
  old = value (newest l) /\ value (newest l') = true /\ facts v ⊆ facts v' /\
  facts (released (newest l)) ⊆ facts v' /\ facts v' ⊆ facts (released (newest l')).
Proof.
  intros (-> & Ev & _ & _ & [Hvv _] & _ & Hacq & Hpub & _)%rmw_spec.
  destruct (Hacq eq_refl) as [Ha _]. by destruct (Hpub eq_refl) as [Hp _].
Qed.

Lemma step_fallback_inv h hw rw s s' : step h hw rw s s' -> fallback_inv h hw rw s -> fallback_inv h hw rw s'.
Proof.
  destruct 1 as [p rs|p t rs|p t rs v p' suspend v' Hv E|p a rs v p' r v' Hv E];
    intros [Hp Hfl Ht Ha Hh Hw]; cbn [promise await_ task_ went_on] in *.
  - by split.
  - by destruct t; split.
  - unfold try_set_continuation in E. destruct (rmw _ _ _ _) as [[old s1] v1] eqn:Er. injection E as <- <- <-.
    apply exchange_spec in Er as (-> & Ev & Hvv & Hacq & Hpub). subst rs. rewrite Hfl.
    destruct t; try done; cbn [flag negb]; split; cbn; auto; intros; try done.
    eexists. split; [done|]. split; [by apply Hvv|]. apply Hacq. by apply Ht.
  - unfold final_await_suspend in E. destruct (rmw _ _ _ _) as [[old s1] v1] eqn:Er. injection E as <- <- <-.
    apply exchange_spec in Er as (-> & Ev & Hvv & Hacq & Hpub). rewrite Hfl.
    destruct a; try done; cbn [flag]; split; cbn; auto; intros; try done.
    subst rs. rewrite Hh. eexists. split; [done|]. split; [|by apply Hvv]. apply Hacq. by apply Ha.
Qed.

Lemma fallback_inv_rtc h hw rw s s' : rtc (step h hw rw) s s' -> fallback_inv h hw rw s -> fallback_inv h hw rw s'.
Proof. induction 1; eauto using step_fallback_inv. Qed.

Lemma surjective_pairing3 {A B C} (x : A * B * C) : x = (x.1.1, x.1.2, x.2).
Proof. by destruct x as [[??]?]. Qed.

(** Awaiting a task without symmetric transfer, in every interleaving of the awaiting
    coroutine with the end of the task and with any views: the coroutine goes on at most once,
    with its own handle and never a null one, only when the task has ended, and seeing the
    result and the handle; and when both have got through their exchanges, it has gone on. *)
Theorem task_fallback h hw rw s : rtc (step h hw rw) start s ->
  (went_on s = [] \/ exists v, went_on s = [(Some h, v)] /\ task_ s = AtEnd /\ {[hw; rw]} ⊆ facts v) /\
  (task_ s = AtEnd -> await_ s = Suspended \/ await_ s = GoneOn -> went_on s <> []) /\
  (went_on s = [] -> exists s', step h hw rw s s').
Proof.
  intros Hs. assert (Hi : fallback_inv h hw rw s).
  { eapply fallback_inv_rtc; [exact Hs|]. by split. }
  destruct Hi as [Hp Hfl Ht Ha Hh Hw]. destruct s as [p a t rs]. cbn [promise await_ task_ went_on] in *.
  split; [|split].
  - destruct a; try (by left). destruct Hw as (v & -> & H1 & H2). right. exists v. destruct t; try done.
    split; [done|split; [done|]]. by apply union_subseteq; rewrite !singleton_subseteq_l.
  - intros -> [-> | ->]; [done|]. by destruct Hw as (v & -> & _).
  - intros ->. destruct a, t; try done.
    + eexists. apply s_resume.
    + eexists. apply s_store.
    + eexists. apply s_store.
    + eexists. eapply (s_try _ _ _ _ _ _ (mk_view {[hw]} 0)); [exact (proj2 (elem_of_singleton _ _) eq_refl)|apply surjective_pairing3].
    + eexists. eapply (s_try _ _ _ _ _ _ (mk_view {[hw]} 0)); [exact (proj2 (elem_of_singleton _ _) eq_refl)|apply surjective_pairing3].
    + eexists. eapply (s_final _ _ _ _ _ _ (mk_view {[rw]} 0)); [exact (proj2 (elem_of_singleton _ _) eq_refl)|apply surjective_pairing3].
    + by destruct Hw as (v & ? & _).
Qed.

(** The task ends before the handle is stored. *)
Lemma task_fallback_witness : exists s, rtc (step 5 0 1) start s /\ await_ s = GoneOn /\ went_on s <> [].
Proof.
  assert (H : exists s, rtc (step 5 0 1) start s /\ task_ s = AtEnd /\ await_ s = GoneOn).
  { eexists. split.
    - eapply rtc_l; [apply s_resume|].
      eapply rtc_l; [exact (s_final 5 0 1 task_promise_base_init Resumed [] (mk_view {[1]} 0) _ _ _ (proj2 (elem_of_singleton 1 1) eq_refl) eq_refl)|].
      eapply rtc_l; [apply s_store|].
      apply rtc_once. exact (s_try 5 0 1 _ AtEnd [] (mk_view {[0]} 0) _ _ _ (proj2 (elem_of_singleton 0 0) eq_refl) eq_refl).
    - split; reflexivity. }
  destruct H as (s & H & Ht & Ha). exists s. split; [exact H|]. split; [exact Ha|].
  apply (proj1 (proj2 (task_fallback 5 0 1 _ H))); [exact Ht|by right].
Defined.
