(* ===== verification/Frames.v ===== *)
(** * The ownership of coroutine frames

    Models the constructors, assignments and destructors of [task] ([coroutine/task.h]),
    [when_all_task] ([detail/when_all_task.h]) and [sync_wait_task]
    ([detail/sync_wait_task.h]) of [src/include/xynet]: objects that own a coroutine frame by
    its handle. Frames hold such objects themselves, as parameters and variables, which are
    destroyed with them. *)

From stdpp Require Import gmap relations.
From S2P Require Import Prelude.

(** ** The three classes *)

(** What they have in common: the handle, null or that of a frame; the move constructor,
    which gives the new object and what is left of the old one; its promise to the programs
    that use it; and the construction from a handle, as by [get_return_object]. *)
Class HandleOwner (T : Type) := {
  m_coroutine : T -> option nat;
  move_from : T -> T * T;
}.
Class HandleOwnerLaws (T : Type) `{HandleOwner T} := {
  move_new_law t : m_coroutine (fst (move_from t)) = m_coroutine t;
  move_old_law t : m_coroutine (snd (move_from t)) = None;
}.
Class FromHandle (T : Type) `{HandleOwner T} := {
  from_handle : nat -> T;
  from_handle_law f : m_coroutine (from_handle f) = Some f;
}.

Record task := mk_task { task_coroutine : option nat }.

(** [task()] *)
Definition task_null : task := mk_task None.

(** [task(task&& t)]: copies the handle, then [t.m_coroutine = nullptr]. *)
Definition task_move (t : task) : task * task := (mk_task (task_coroutine t), mk_task None).

#[export] Instance task_owner : HandleOwner task := {|
  m_coroutine := task_coroutine;
  move_from := task_move;
|}.
#[export] Instance task_owner_laws : HandleOwnerLaws task.
Proof. by constructor. Qed.
#[export] Instance task_from_handle : FromHandle task := {| from_handle f := mk_task (Some f); from_handle_law _ := eq_refl |}.

(** [std::exchange(object, new_value)] *)
Definition exchange {A} (object new_value : A) : A * A := (object, new_value).

Record when_all_task := mk_when_all_task { when_all_coroutine : option nat }.
Definition when_all_task_move (t : when_all_task) : when_all_task * when_all_task :=
  let '(old, rest) := exchange (when_all_coroutine t) None in (mk_when_all_task old, mk_when_all_task rest).

#[export] Instance when_all_task_owner : HandleOwner when_all_task := {|
  m_coroutine := when_all_coroutine;
  move_from := when_all_task_move;
|}.
#[export] Instance when_all_task_owner_laws : HandleOwnerLaws when_all_task.
Proof. by constructor. Qed.
#[export] Instance when_all_task_from_handle : FromHandle when_all_task := {| from_handle f := mk_when_all_task (Some f); from_handle_law _ := eq_refl |}.

Record sync_wait_task := mk_sync_wait_task { sync_wait_coroutine : option nat }.
Definition sync_wait_task_move (t : sync_wait_task) : sync_wait_task * sync_wait_task :=
  let '(old, rest) := exchange (sync_wait_coroutine t) None in (mk_sync_wait_task old, mk_sync_wait_task rest).

#[export] Instance sync_wait_task_owner : HandleOwner sync_wait_task := {|
  m_coroutine := sync_wait_coroutine;
  move_from := sync_wait_task_move;
|}.
#[export] Instance sync_wait_task_owner_laws : HandleOwnerLaws sync_wait_task.
Proof. by constructor. Qed.
#[export] Instance sync_wait_task_from_handle : FromHandle sync_wait_task := {| from_handle f := mk_sync_wait_task (Some f); from_handle_law _ := eq_refl |}.

(** An object of one of them; it is an owner as they are. *)
Inductive object := Task (t : task) | WhenAllTask (t : when_all_task) | SyncWaitTask (t : sync_wait_task).

#[export] Instance object_owner : HandleOwner object := {|
  m_coroutine o :=
    match o with Task t => m_coroutine t | WhenAllTask t => m_coroutine t | SyncWaitTask t => m_coroutine t end;
  move_from o :=
    match o with
    | Task t => let '(a, b) := move_from t in (Task a, Task b)
    | WhenAllTask t => let '(a, b) := move_from t in (WhenAllTask a, WhenAllTask b)
    | SyncWaitTask t => let '(a, b) := move_from t in (SyncWaitTask a, SyncWaitTask b)
    end;
|}.
#[export] Instance object_owner_laws : HandleOwnerLaws object.
Proof. constructor; try done; by intros []. Qed.

(** ** Frames *)

(** The frames that are alive, with the objects in them. *)
Abbreviation frames := (gmap nat (list object)).

Definition handles (os : list object) : list nat := omap m_coroutine os.

(** [m_coroutine.destroy()] of each of the handles, which destroys the objects in the frames,
    which destroy theirs, depth first; what is alive afterwards. [None]: a frame that is not
    alive would be destroyed. [fuel] bounds the number of frames. *)
Fixpoint destroy (fuel : nat) (pending : list nat) (h : frames) : option frames :=
  match pending with
  | [] => Some h
  | f :: pending =>
      match fuel with
      | O => None
      | S fuel => os ← h !! f; destroy fuel (handles os ++ pending) (delete f h)
      end
  end.

Definition destroy_handle (c : option nat) (h : frames) : option frames :=
  destroy (size h) (option_list c) h.

(** The destructors: [if (m_coroutine) m_coroutine.destroy();]. *)
Definition destructor (o : object) (h : frames) : option frames := destroy_handle (m_coroutine o) h.

(** ** Programs *)

(** The objects outside frames, the frames alive and those created so far. *)
Record program := mk_program { objs : list object; alive : frames; created : list nat }.

(** Where an object is: outside, or in a frame. *)
Inductive place := Outside (i : nat) | Inside (f j : nat).

#[export] Instance place_eq_dec : EqDecision place.
Proof. solve_decision. Defined.

Definition get (l : place) (p : program) : option object :=
  match l with
  | Outside i => objs p !! i
  | Inside f j => os ← alive p !! f; os !! j
  end.

Definition put (l : place) (o : object) (p : program) : program :=
  match l with
  | Outside i => mk_program (<[i := o]> (objs p)) (alive p) (created p)
  | Inside f j => mk_program (objs p) (alter (fun os => <[j := o]> os) f (alive p)) (created p)
  end.

(** A new object outside. *)
Definition push (o : object) (p : program) : program := mk_program (objs p ++ [o]) (alive p) (created p).
Definition set_alive (h : frames) (p : program) : program := mk_program (objs p) h (created p).

(** [task& operator=(task&& other)]: the handle of [other] is read after the old frame has
    been destroyed; [None] when an object is gone by then. *)
Definition move_assign (l other : place) (p : program) : option program :=
  if decide (other = l) then Some p
  else
    o ← get l p;
    h ← destructor o (alive p);
    let p := set_alive h p in
    t ← get other p;
    _ ← get l p;
    Some (put other (snd (move_from t)) (put l (fst (move_from t)) p)).

(** What the call of a coroutine with the frame [f] returns: an object of one of the classes. *)
Inductive returned (f : nat) : object -> Prop :=
| returned_task : returned f (Task (from_handle f))
| returned_when_all : returned f (WhenAllTask (from_handle f))
| returned_sync_wait : returned f (SyncWaitTask (from_handle f)).

Definition null (o : object) : Prop := m_coroutine o = None.

(** What programs do: call a coroutine of one of the classes, whose frame has room for
    objects of any of them, all null so far; construct an object from another, outside or in
    a frame; assign one [task] to another; end the life of an object outside. An object is
    not moved or assigned into a frame that its own frame owns, directly or not: such frames
    would own each other. *)
Inductive step : program -> program -> Prop :=
| step_call os h cr f o slots : f ∉ cr -> returned f o -> Forall null slots ->
    step (mk_program os h cr) (mk_program (os ++ [o]) (<[f := slots]> h) (f :: cr))
| step_null p : step p (push (Task task_null) p)
| step_move l o p : get l p = Some o -> step p (push (fst (move_from o)) (put l (snd (move_from o)) p))
| step_move_in i f j o x h' p : objs p !! i = Some o ->
    get (Inside f j) p = Some x -> m_coroutine x = None ->
    destructor o (alive p) = Some h' -> is_Some (h' !! f) ->
    step p (put (Inside f j) (fst (move_from o)) (put (Outside i) (snd (move_from o)) p))
| step_assign l other s t p p' : get l p = Some (Task s) -> get other p = Some (Task t) ->
    move_assign l other p = Some p' ->
    (forall f j o h', l = Inside f j -> get other p = Some o -> destructor o (alive p) = Some h' ->
       is_Some (h' !! f)) ->
    step p p'
| step_destroy os1 o os2 h cr h' : destructor o h = Some h' ->
    step (mk_program (os1 ++ o :: os2) h cr) (mk_program (os1 ++ os2) h' cr).

Definition program_init : program := mk_program [] ∅ [].

(** ** Owners *)

Definition frame_handles (h : frames) : list nat := flat_map (fun x => handles x.2) (map_to_list h).
Definition frame_ids (h : frames) : list nat := (map_to_list h).*1.

(** The handles of all objects. *)
Definition owned (p : program) : list nat := handles (objs p) ++ frame_handles (alive p).

(** A frame holds a handle of another one. *)
Definition edge (h : frames) (f g : nat) : Prop := exists os, h !! f = Some os /\ g ∈ handles os.

(** [r] decreases from a frame to those it owns. *)
Definition ranked (r : nat -> nat) (h : frames) : Prop := forall f g, edge h f g -> (r g < r f)%nat.

Record frames_inv (p : program) : Prop := {
  frames_owned : owned p ≡ₚ frame_ids (alive p);
  frames_ranked : exists r, ranked r (alive p);
  frames_created f : is_Some (alive p !! f) -> f ∈ created p;
}.

Lemma handles_app l k : handles (l ++ k) = handles l ++ handles k.
Proof. apply omap_app. Qed.

Lemma handles_cons o l : handles (o :: l) = option_list (m_coroutine o) ++ handles l.
Proof. unfold handles. cbn [omap list_omap]. by destruct (m_coroutine o). Qed.

Lemma handles_null slots : Forall null slots -> handles slots = [].
Proof. induction 1 as [|o slots Ho _ IH]; [done|]. by rewrite handles_cons, Ho, IH. Qed.

Lemma returned_handle f o : returned f o -> m_coroutine o = Some f.
Proof. by destruct 1. Qed.

Lemma frame_ids_elem h f : f ∈ frame_ids h <-> is_Some (h !! f).
Proof.
  unfold frame_ids. rewrite list_elem_of_fmap. split.
  - intros ([f' os] & -> & Hf). apply elem_of_map_to_list in Hf. by exists os.
  - intros [os Hf]. exists (f, os). split; [done|]. by apply elem_of_map_to_list.
Qed.

Lemma frame_handles_Permutation h l : map_to_list h ≡ₚ l -> frame_handles h ≡ₚ flat_map (fun x => handles x.2) l.
Proof. intros E. unfold frame_handles. by apply Permutation_flat_map. Qed.

Lemma frame_insert h f os : h !! f = None ->
  frame_handles (<[f := os]> h) ≡ₚ handles os ++ frame_handles h /\ frame_ids (<[f := os]> h) ≡ₚ f :: frame_ids h.
Proof.
  intros Hf. pose proof (map_to_list_insert h f os Hf) as E. split.
  - by rewrite (frame_handles_Permutation _ _ E).
  - unfold frame_ids. by rewrite E.
Qed.

Lemma frame_delete h f os : h !! f = Some os ->
  frame_handles h ≡ₚ handles os ++ frame_handles (delete f h) /\ frame_ids h ≡ₚ f :: frame_ids (delete f h).
Proof.
  intros Hf. rewrite <- (insert_delete_id h f os Hf) at 1 3. apply frame_insert, lookup_delete_eq.
Qed.

(** Another list of objects in a frame. *)
Lemma frame_update h f os os' : h !! f = Some os ->
  frame_handles (<[f := os']> h) ≡ₚ handles os' ++ frame_handles (delete f h) /\
  frame_ids (<[f := os']> h) ≡ₚ frame_ids h.
Proof.
  intros Hf. rewrite <- insert_delete_eq. destruct (frame_insert (delete f h) f os') as [H1 H2]; [apply lookup_delete_eq|].
  split; [done|]. by rewrite H2, (proj2 (frame_delete h f os Hf)).
Qed.

(** ** Destroying *)

(** Frames that are owned once are destroyed once. *)
Lemma destroy_spec fuel pending rest h : (size h <= fuel)%nat ->
  pending ++ rest ++ frame_handles h ≡ₚ frame_ids h ->
  exists h', destroy fuel pending h = Some h' /\ rest ++ frame_handles h' ≡ₚ frame_ids h'.
Proof.
  revert pending h. induction fuel as [|fuel IH]; intros [|f pending] h Hsize E; try (by exists h).
  - assert (f ∈ frame_ids h) as Hf by (rewrite <- E; by left).
    apply frame_ids_elem in Hf as [os Hf]. rewrite (map_size_empty_inv h) in Hf by lia. by rewrite lookup_empty in Hf.
  - assert (f ∈ frame_ids h) as Hf by (rewrite <- E; by left).
    apply frame_ids_elem in Hf as [os Hf]. cbn [destroy]. rewrite Hf. cbn [mbind option_bind].
    destruct (frame_delete h f os Hf) as [E1 E2]. apply IH.
    + rewrite map_size_delete_Some by by exists os. lia.
    + rewrite E1, E2 in E. cbn [app] in E. apply Permutation_cons_inv in E. rewrite <- E. solve_Permutation.
Qed.

(** It leaves frames as they are. *)
Lemma destroy_sub fuel pending h h' : destroy fuel pending h = Some h' -> h' ⊆ h.
Proof.
  revert pending h. induction fuel as [|fuel IH]; intros [|f pending] h; cbn [destroy]; try done; try (by intros [= ->]).
  intros (os & _ & E)%bind_Some. etrans; [by eapply IH|]. apply delete_subseteq.
Qed.

(** What is destroyed is destroyed with what it owns. *)
Lemma destroy_closed fuel pending h h' : destroy fuel pending h = Some h' ->
  (forall f, f ∈ pending -> h' !! f = None) /\
  (forall f g, edge h f g -> h' !! f = None -> h' !! g = None).
Proof.
  revert pending h. induction fuel as [|fuel IH]; intros [|f pending] h; cbn [destroy]; try done.
  1, 2: intros [= ->]; split; [intros f Hf; by apply elem_of_nil in Hf|intros f g (os & Hf & _) E; congruence].
  intros (os & Hf & E)%bind_Some. pose proof (destroy_sub _ _ _ _ E) as Hsub. destruct (IH _ _ E) as [H1 H2].
  split.
  - intros x [->|Hx]%elem_of_cons; [|apply H1, elem_of_app; by right].
    destruct (h' !! f) as [os'|] eqn:Ef; [|done]. apply (lookup_weaken _ _ _ _ Ef) in Hsub. by rewrite lookup_delete_eq in Hsub.
  - intros x y (os' & Hx & Hy) E'. destruct (decide (x = f)) as [->|Hne].
    + apply H1, elem_of_app. left. congruence.
    + apply (H2 x); [|done]. exists os'. by rewrite lookup_delete_ne.
Qed.

(** A frame of a higher rank is not touched, whatever it holds. *)
Lemma destroy_insert r x os fuel pending h : ranked r (delete x h) ->
  (forall f, f ∈ pending -> (r f < r x)%nat) ->
  destroy fuel pending (<[x := os]> h) = (insert x os) <$> destroy fuel pending h.
Proof.
  revert pending h. induction fuel as [|fuel IH]; intros [|f pending] h Hr Hp; cbn [destroy]; try done.
  assert (f <> x) as Hne by (intros ->; specialize (Hp x ltac:(by left)); lia).
  rewrite lookup_insert_ne by done. destruct (h !! f) as [os'|] eqn:Hf; [|done]. cbn [mbind option_bind].
  rewrite delete_insert_ne by done. apply IH.
  - intros y z (l & Hy & Hz). apply Hr. exists l. split; [|done].
    rewrite delete_delete in Hy. by apply lookup_delete_Some in Hy as [_ Hy].
  - intros y [Hy|Hy]%elem_of_app; [|apply Hp; by right].
    assert (r y < r f)%nat by (apply Hr; exists os'; by rewrite lookup_delete_ne).
    specialize (Hp f ltac:(by left)). lia.
Qed.

(** ** Ranks *)

Lemma ranked_sub r h h' : (forall f g, edge h' f g -> edge h f g) -> ranked r h -> ranked r h'.
Proof. intros Hsub Hr f g Hfg. by apply Hr, Hsub. Qed.

Lemma edge_sub h h' f g : h' ⊆ h -> edge h' f g -> edge h f g.
Proof. intros Hsub (os & Hf & Hg). exists os. split; [by eapply lookup_weaken|done]. Qed.

(** A frame [f] that is not destroyed with [g] may own it. *)
Lemma ranked_add h h' h1 fuel f g : (exists r, ranked r h) -> destroy fuel [g] h = Some h1 -> is_Some (h1 !! f) ->
  (forall x y, edge h' x y -> edge h x y \/ (x = f /\ y = g)) -> exists r, ranked r h'.
Proof.
  intros [r Hr] Hd Hf Hedge. destruct (destroy_closed _ _ _ _ Hd) as [H1 H2].
  exists (fun x => if decide (is_Some (h1 !! x)) then (r x + S (r g))%nat else r x).
  intros x y [Hxy|[-> ->]]%Hedge; cbv beta.
  - specialize (Hr x y Hxy). destruct (decide (is_Some (h1 !! x))) as [Hx|Hx]; [destruct (decide _); lia|].
    apply eq_None_not_Some in Hx. rewrite (H2 x y Hxy Hx). rewrite decide_False by (by intros [? ?]). lia.
  - rewrite (H1 g) by by left. rewrite decide_False by (by intros [? ?]). rewrite decide_True by done. lia.
Qed.

(** ** Places *)

Lemma handles_insert l i o v : l !! i = Some o ->
  handles l ≡ₚ option_list (m_coroutine o) ++ handles (delete i l) /\
  handles (<[i := v]> l) ≡ₚ option_list (m_coroutine v) ++ handles (delete i l).
Proof.
  intros Hi. rewrite <- !handles_cons. split.
  - apply omap_Permutation. by apply delete_Permutation.
  - apply omap_Permutation. rewrite <- (delete_insert_same l i v). apply delete_Permutation.
    apply list_lookup_insert_eq. by eapply lookup_lt_Some.
Qed.

Lemma alter_Some {V} (g : V -> V) f x (h : gmap nat V) : h !! f = Some x -> alter g f h = <[f := g x]> h.
Proof.
  intros Hf. apply map_eq. intros k. destruct (decide (f = k)) as [<-|Hne].
  - by rewrite lookup_alter_eq, lookup_insert_eq, Hf.
  - by rewrite lookup_alter_ne, lookup_insert_ne.
Qed.

(** Changing one object changes what that object owns. *)
Lemma put_owned l o p : get l p = Some o -> exists rest, owned p ≡ₚ option_list (m_coroutine o) ++ rest /\
  forall v, owned (put l v p) ≡ₚ option_list (m_coroutine v) ++ rest /\
    frame_ids (alive (put l v p)) ≡ₚ frame_ids (alive p).
Proof.
  unfold owned. destruct l as [i|f j]; cbn [get put objs alive].
  - intros Hi. exists (handles (delete i (objs p)) ++ frame_handles (alive p)).
    split; [|intros v; split; [|done]]; destruct (handles_insert _ _ _ o Hi) as [E _].
    + by rewrite E, <- (assoc_L (++)).
    + destruct (handles_insert _ _ _ v Hi) as [_ Ev]. by rewrite Ev, <- (assoc_L (++)).
  - intros (os & Hf & Hj)%bind_Some.
    exists (handles (objs p) ++ handles (delete j os) ++ frame_handles (delete f (alive p))).
    split; [|intros v; split]; destruct (handles_insert _ _ _ o Hj) as [E _].
    + rewrite (proj1 (frame_delete _ _ _ Hf)), E. solve_Permutation.
    + rewrite (alter_Some _ _ _ _ Hf). destruct (handles_insert _ _ _ v Hj) as [_ Ev].
      rewrite (proj1 (frame_update _ _ _ _ Hf)), Ev. solve_Permutation.
    + rewrite (alter_Some _ _ _ _ Hf). apply (frame_update _ _ _ _ Hf).
Qed.

Lemma get_put_ne l l' v p : l <> l' -> get l' (put l v p) = get l' p.
Proof.
  destruct l as [i|f j], l' as [i'|f' j']; intros Hne; cbn [get put objs alive]; try done.
  - apply list_lookup_insert_ne. congruence.
  - destruct (decide (f = f')) as [<-|Hf].
    + destruct (alive p !! f) as [os|] eqn:E; [|by rewrite lookup_alter_eq, E].
      rewrite (alter_Some _ _ _ _ E), lookup_insert_eq. cbn [mbind option_bind].
      apply list_lookup_insert_ne. congruence.
    + by rewrite lookup_alter_ne.
Qed.

Lemma get_put_eq l o v p : get l p = Some o -> get l (put l v p) = Some v.
Proof.
  destruct l as [i|f j]; cbn [get put objs alive].
  - intros Hi. apply list_lookup_insert_eq. by eapply lookup_lt_Some.
  - intros (os & Hf & Hj)%bind_Some. rewrite (alter_Some _ _ _ _ Hf), lookup_insert_eq. cbn [mbind option_bind].
    apply list_lookup_insert_eq. by eapply lookup_lt_Some.
Qed.

(** The edges of a frame that an object is put into. *)
Lemma put_edges l o v p x y : get l p = Some o -> edge (alive (put l v p)) x y ->
  edge (alive p) x y \/ (exists j, l = Inside x j /\ m_coroutine v = Some y).
Proof.
  destruct l as [i|f j]; cbn [get put alive]; [by left|]. intros (os & Hf & Hj)%bind_Some.
  rewrite (alter_Some _ _ _ _ Hf). intros (os' & Hx & Hy). destruct (decide (f = x)) as [<-|Hne].
  - rewrite lookup_insert_eq in Hx. injection Hx as <-.
    rewrite (proj2 (handles_insert _ _ _ v Hj)) in Hy. apply elem_of_app in Hy as [Hy|Hy].
    + right. exists j. split; [done|]. destruct (m_coroutine v); [|by apply elem_of_nil in Hy].
      by apply list_elem_of_singleton in Hy as ->.
    + left. exists os. split; [done|]. rewrite (proj1 (handles_insert _ _ _ v Hj)). apply elem_of_app. by right.
  - left. rewrite lookup_insert_ne in Hx by done. by exists os'.
Qed.

Lemma put_created l v p : created (put l v p) = created p.
Proof. by destruct l. Qed.

(** Moving the handle of one object to another, which has none. *)
Lemma move_owned l other n t p : l <> other -> get l p = Some n -> m_coroutine n = None -> get other p = Some t ->
  let p' := put other (snd (move_from t)) (put l (fst (move_from t)) p) in
  owned p' ≡ₚ owned p /\ frame_ids (alive p') ≡ₚ frame_ids (alive p) /\
  forall x y, edge (alive p') x y -> edge (alive p) x y \/ (exists j, l = Inside x j /\ m_coroutine t = Some y).
Proof.
  intros Hne Hl Hn Hot p'. destruct (put_owned l n p Hl) as (rest & E & Ev).
  destruct (Ev (fst (move_from t))) as [E1 E2]. set (p1 := put l _ p) in *.
  assert (get other p1 = Some t) as Hot1 by (unfold p1; by rewrite get_put_ne).
  destruct (put_owned other t p1 Hot1) as (rest' & E' & Ev'). destruct (Ev' (snd (move_from t))) as [E3 E4].
  rewrite Hn in E. rewrite move_new_law in E1. rewrite move_old_law in E3. cbn [option_list app] in *.
  split; [|split].
  - rewrite E1 in E'. apply Permutation_app_inv_l in E'. unfold p'. by rewrite E3, E, E'.
  - unfold p'. by rewrite E4, E2.
  - intros x y Hxy. apply (put_edges other t _ p1 x y Hot1) in Hxy as [Hxy|(j & _ & Hc)].
    + apply (put_edges l n _ p x y Hl) in Hxy. by rewrite move_new_law in Hxy.
    + by rewrite move_old_law in Hc.
Qed.

(** ** Steps *)

(** Destroying what an object owns, at any place: the same as when it had been taken from
    the object. *)
Lemma destructor_at l o p : frames_inv p -> get l p = Some o ->
  exists h2 q0, destructor o (alive p) = Some h2 /\ frames_inv q0 /\ created q0 = created p /\
    get l q0 = Some (Task task_null) /\ (forall v, put l v (set_alive h2 p) = put l v q0) /\
    (forall other, other <> l -> get other (set_alive h2 p) = get other q0) /\
    is_Some (get l (set_alive h2 p)) /\ alive q0 ⊆ alive (put l (Task task_null) p) /\
    (forall x y, edge (alive q0) x y -> edge (alive p) x y).
Proof.
  intros [Ho [r Hr] Hc] Hl. destruct (put_owned l o p Hl) as (rest & E & Ev).
  destruct (Ev (Task task_null)) as [E1 E2].
  pose proof (get_put_eq l o (Task task_null) p Hl) as Hg. set (p0 := put l (Task task_null) p) in *. change (owned p0 ≡ₚ rest) in E1.
  assert (He : forall x y, edge (alive p0) x y -> edge (alive p) x y).
  { intros x y Hxy. apply (put_edges l o _ p x y Hl) in Hxy as [Hxy|(j & _ & Hxy)]; [done|discriminate]. }
  assert (Hsize : size (alive p0) = size (alive p)).
  { pose proof (Permutation_length E2) as Hlen. unfold frame_ids in Hlen. by rewrite !length_fmap, !length_map_to_list in Hlen. }
  destruct (destroy_spec (size (alive p)) (option_list (m_coroutine o)) (handles (objs p0)) (alive p0)) as (h0 & Hd & Hh0).
  { by rewrite Hsize. } { rewrite E2, <- Ho, E, <- E1. done. }
  pose proof (destroy_sub _ _ _ _ Hd) as Hsub.
  assert (Hinv : frames_inv (set_alive h0 p0)).
  { split; [done|exists r; intros x y Hxy; apply Hr, He; by eapply edge_sub|].
    intros f [os Hf]. change (f ∈ created p0). unfold p0. rewrite put_created. apply Hc. apply frame_ids_elem. rewrite <- E2. apply frame_ids_elem.
    exists os. by eapply lookup_weaken. }
  destruct l as [i|f j].
  - exists h0, (set_alive h0 p0). split; [exact Hd|]. split; [done|]. split; [done|].
    split; [exact Hg|]. split; [intros v; unfold p0; cbn; by rewrite list_insert_insert_eq|].
    split; [|split; [by exists o|split; [done|intros x y Hxy; apply He; by eapply edge_sub]]].
    intros [i'|f j] Hne; [|done]. cbn. rewrite list_lookup_insert_ne; [done|congruence].
  - cbn [get] in Hl. apply bind_Some in Hl as (os & Hf & Hj).
    assert (Ea : alive p0 = <[f := <[j := Task task_null]> os]> (alive p)).
    { unfold p0. cbn. by rewrite (alter_Some _ _ _ _ Hf). }
    assert (Ep : alive p = <[f := os]> (alive p0)) by by rewrite Ea, insert_insert_eq, insert_id.
    assert (Hrank : ranked r (delete f (alive p0))).
    { intros x y Hxy. apply Hr, He. eapply edge_sub; [|exact Hxy]. apply delete_subseteq. }
    assert (Hpend : forall g, g ∈ option_list (m_coroutine o) -> (r g < r f)%nat).
    { intros g Hin. apply Hr. exists os. split; [done|]. rewrite (proj1 (handles_insert _ _ _ o Hj)).
      apply elem_of_app. by left. }
    assert (Hf0 : h0 !! f = Some (<[j := Task task_null]> os)).
    { pose proof (destroy_insert r f (<[j := Task task_null]> os) (size (alive p)) _ (alive p0) Hrank Hpend) as Hi.
      rewrite (insert_id (alive p0)), Hd in Hi by (rewrite Ea; apply lookup_insert_eq). injection Hi as ->.
      apply lookup_insert_eq. }
    exists (<[f := os]> h0), (set_alive h0 p0). split; [|split; [done|split; [done|]]].
    { unfold destructor, destroy_handle. rewrite Ep at 2. rewrite (destroy_insert r f) by done. by rewrite Hd. }
    split; [cbn; rewrite Hf0; cbn; apply list_lookup_insert_eq; by eapply lookup_lt_Some|].
    split; [|split; [|split; [|split]]].
    + intros v. unfold p0. cbn. f_equal. rewrite (alter_Some _ f os) by apply lookup_insert_eq.
      rewrite (alter_Some _ f _ _ Hf0). by rewrite insert_insert_eq, list_insert_insert_eq.
    + intros [i|f' j'] Hne; [done|]. cbn. destruct (decide (f = f')) as [<-|Hff].
      * rewrite lookup_insert_eq, Hf0. cbn. rewrite list_lookup_insert_ne; [done|congruence].
      * by rewrite lookup_insert_ne.
    + cbn. rewrite lookup_insert_eq. by exists o.
    + done.
    + intros x y Hxy. apply He. by eapply edge_sub.
Qed.

(** The invariant after a move into a place that owns nothing. *)
Lemma move_inv l other n t p : frames_inv p -> l <> other -> get l p = Some n -> m_coroutine n = None ->
  get other p = Some t ->
  (exists r, ranked r (alive (put other (snd (move_from t)) (put l (fst (move_from t)) p)))) ->
  frames_inv (put other (snd (move_from t)) (put l (fst (move_from t)) p)).
Proof.
  intros [Ho Hr Hc] Hne Hl Hn Hot Hr'. destruct (move_owned l other n t p Hne Hl Hn Hot) as (E1 & E2 & _).
  split; [by rewrite E1, E2|done|]. intros f Hf. rewrite !put_created. apply Hc.
  apply frame_ids_elem. rewrite <- E2. by apply frame_ids_elem.
Qed.

Lemma call_inv os h cr f o slots : f ∉ cr -> returned f o -> Forall null slots -> frames_inv (mk_program os h cr) ->
  frames_inv (mk_program (os ++ [o]) (<[f := slots]> h) (f :: cr)).
Proof.
  intros Hf Hret Hnull [Ho [r Hr] Hc]. cbn in Ho, Hc. apply returned_handle in Hret. apply handles_null in Hnull.
  assert (h !! f = None) as Hn by (destruct (h !! f) as [os'|] eqn:E; [|done]; destruct Hf; apply Hc; by exists os').
  destruct (frame_insert h f slots Hn) as [E1 E2]. split; unfold owned; cbn [objs alive created].
  - rewrite handles_app, handles_cons, E1, E2, Hnull, Hret, <- Ho. unfold owned. cbn. solve_Permutation.
  - exists r. intros x y (l & Hx & Hy). apply Hr. destruct (decide (f = x)) as [<-|Hne].
    + rewrite lookup_insert_eq in Hx. injection Hx as <-. rewrite Hnull in Hy. by apply elem_of_nil in Hy.
    + rewrite lookup_insert_ne in Hx by done. by exists l.
  - intros g Hg. destruct (decide (f = g)) as [<-|Hne]; [by left|]. rewrite lookup_insert_ne in Hg by done.
    right. by apply Hc.
Qed.

Lemma push_inv o l p : frames_inv p -> get l p = Some o ->
  frames_inv (push (fst (move_from o)) (put l (snd (move_from o)) p)).
Proof.
  intros [Ho [r Hr] Hc] Hl. destruct (put_owned l o p Hl) as (rest & E & Ev).
  destruct (Ev (snd (move_from o))) as [E1 E2]. rewrite move_old_law in E1.
  unfold owned in *. split; unfold owned, push; cbn [objs alive created].
  - rewrite E2, <- Ho, E, handles_app, handles_cons, move_new_law, <- (app_nil_l rest), <- E1.
    unfold handles at 2. cbn [omap list_omap]. rewrite app_nil_r. solve_Permutation.
  - exists r. intros a b Hab. apply Hr. apply (put_edges l o _ p a b Hl) in Hab as [Hab|(j & _ & Hx)]; [done|].
    by rewrite move_old_law in Hx.
  - intros f Hf. rewrite put_created. apply Hc. apply frame_ids_elem. rewrite <- E2. by apply frame_ids_elem.
Qed.

(** An object that is still there was there. *)
Lemma get_set_alive l h p o : h ⊆ alive p -> get l (set_alive h p) = Some o -> get l p = Some o.
Proof.
  intros Hsub. destruct l as [i|f j]; cbn [get set_alive objs alive]; [done|].
  intros (os & Hf & Hj)%bind_Some. by rewrite (lookup_weaken _ _ _ _ Hf Hsub).
Qed.

(** Assigning. *)
Lemma move_assign_inv l other p p' : frames_inv p -> move_assign l other p = Some p' ->
  (forall f j o h', l = Inside f j -> get other p = Some o -> destructor o (alive p) = Some h' ->
     is_Some (h' !! f)) ->
  frames_inv p'.
Proof.
  unfold move_assign. intros Hinv. destruct (decide (other = l)) as [->|Hne]; [by intros [= <-]|].
  intros (o & Hl & Hm)%bind_Some Hguard.
  destruct (destructor_at l o p Hinv Hl) as (h2 & q0 & Hd & Hq0 & _ & Hlq & Hput & Hget & _ & Hsub & Hedge).
  rewrite Hd in Hm. cbn [mbind option_bind] in Hm. apply bind_Some in Hm as (t & Hot & Hm).
  apply bind_Some in Hm as (_ & _ & [= <-]). rewrite Hput.
  assert (get other p = Some t) as Hotp by (eapply get_set_alive; [by eapply destroy_sub|done]).
  rewrite Hget in Hot by done.
  apply (move_inv l other (Task task_null)); try done.
  destruct (move_owned l other (Task task_null) t q0) as (_ & _ & He); [done..|].
  destruct (m_coroutine t) as [g|] eqn:Et; [destruct l as [i|f j]|].
  1, 3: destruct (frames_ranked q0 Hq0) as [r Hr]; exists r; intros x y Hxy; apply He in Hxy as [Hxy|(k & Ek & Ey)];
    [by apply Hr|congruence].
  destruct (destructor_at other t p Hinv Hotp) as (h1 & _ & Hd1 & _).
  specialize (Hguard f j t h1 eq_refl Hotp Hd1). unfold destructor, destroy_handle in Hd1. rewrite Et in Hd1.
  apply (ranked_add (alive p) _ h1 (size (alive p)) f g); [apply (frames_ranked p Hinv)|done|done|].
  intros x y Hxy. apply He in Hxy as [Hxy|(k & [= -> _] & [= ->])]; [left; by apply Hedge|by right].
Qed.

Lemma frames_step_inv p p' : step p p' -> frames_inv p -> frames_inv p'.
Proof.
  destruct 1 as [os h cr f o slots Hf Ho Hn|p|l o p Hl|i f j o x h' p Hi Hx Hn Hd Hf|l other s t p p' _ _ Hm Hg|os1 o os2 h cr h' Hd]; intros Hinv.
  - by apply call_inv.
  - destruct Hinv as [Ho Hr Hc]. split; try done. unfold owned, push in *. cbn [objs alive].
    by rewrite handles_app, app_nil_r.
  - by apply push_inv.
  - change (put (Inside f j) (fst (move_from o)) (put (Outside i) (snd (move_from o)) p))
      with (put (Outside i) (snd (move_from o)) (put (Inside f j) (fst (move_from o)) p)).
    apply (move_inv _ _ x); try done.
    destruct (move_owned (Inside f j) (Outside i) x o p) as (_ & _ & He); [done..|].
    destruct (m_coroutine o) as [g|] eqn:Eo.
    + unfold destructor, destroy_handle in Hd. rewrite Eo in Hd.
      apply (ranked_add (alive p) _ h' (size (alive p)) f g); [apply (frames_ranked p Hinv)|done|done|].
      intros a b Hab. apply He in Hab as [Hab|(k & [= -> _] & [= ->])]; auto.
    + destruct (frames_ranked p Hinv) as [r Hr]. exists r. intros a b Hab.
      apply He in Hab as [Hab|(k & _ & Hk)]; [by apply Hr|done].
  - by eapply move_assign_inv.
  - destruct Hinv as [Ho [r Hr] Hc]. unfold owned in Ho. cbn in *. rewrite handles_app, handles_cons in Ho.
    destruct (destroy_spec (size h) (option_list (m_coroutine o)) (handles (os1 ++ os2)) h) as (h2 & Hd2 & E2); [done| |].
    { rewrite <- Ho, handles_app. solve_Permutation. }
    unfold destructor, destroy_handle in Hd. rewrite Hd in Hd2. injection Hd2 as <-.
    pose proof (destroy_sub _ _ _ _ Hd) as Hsub. split; cbn.
    + exact E2.
    + exists r. intros a b Hab. apply Hr. by eapply edge_sub.
    + intros f [os Hf]. apply Hc. exists os. by eapply lookup_weaken.
Qed.

Lemma frames_inv_rtc p : rtc step program_init p -> frames_inv p.
Proof.
  assert (frames_inv program_init) as H0.
  { split; [done| |intros f [os [=]]].
    exists id. by intros f g (os & [=] & _). }
  intros Hs. revert H0. induction Hs; eauto using frames_step_inv.
Qed.

(** A frame that is alive is owned, in the end, by an object outside. *)
Lemma no_leak p : frames_inv p -> handles (objs p) = [] -> alive p = ∅.
Proof.
  intros [Ho [r Hr] _] Hn. unfold owned in Ho. rewrite Hn in Ho. cbn [app] in Ho.
  assert (forall f, f ∈ frame_ids (alive p) -> exists g, g ∈ frame_ids (alive p) /\ (r f < r g)%nat) as Hup.
  { intros f Hf. rewrite <- Ho in Hf. unfold frame_handles in Hf.
    apply list_elem_of_In, in_flat_map in Hf as ([g os] & Hg & Hf). cbn in Hf.
    apply list_elem_of_In, elem_of_map_to_list in Hg. apply list_elem_of_In in Hf. exists g. split.
    - apply frame_ids_elem. by exists os.
    - apply Hr. by exists os. }
  apply map_eq. intros f. rewrite lookup_empty. destruct (alive p !! f) as [os|] eqn:E; [exfalso|done].
  set (M := S (max_list (map r (frame_ids (alive p))))).
  assert (forall g, g ∈ frame_ids (alive p) -> (r g < M)%nat) as HM.
  { intros g Hg. unfold M. apply Nat.lt_succ_r. apply max_list_elem_of_le.
    apply list_elem_of_In, in_map, list_elem_of_In. done. }
  assert (f ∈ frame_ids (alive p)) as Hf by (apply frame_ids_elem; by exists os). clear os E.
  remember (M - r f)%nat as k eqn:Ek. revert f Hf Ek. induction k as [k IH] using lt_wf_ind. intros f Hf ->.
  destruct (Hup f Hf) as (g & Hg & Hlt). specialize (HM g Hg). apply (IH (M - r g)%nat ltac:(lia) g Hg eq_refl).
Qed.

(** C17: the ownership of coroutine frames by [task], [when_all_task] and [sync_wait_task].
    In every program that calls coroutines of the three kinds, moves and assigns the objects,
    in and out of frames - but none into a frame that its own frame owns, which would make
    frames that own each other - and ends their lives: each frame that is alive is owned by
    exactly one object, and no object refers to a frame that is not; destroying what an
    object owns, with all that its frames own in turn, never meets a frame that is not alive;
    and when no object outside frames owns one any more, every frame has been destroyed. The
    move assignment of a [task] to another is defined except in one case: when the task
    assigned from is in one of the frames that the assignment destroys first. *)
Theorem frames_correct p : rtc step program_init p ->
  owned p ≡ₚ frame_ids (alive p) /\ NoDup (owned p) /\
  (forall l o, get l p = Some o -> is_Some (destructor o (alive p))) /\
  (handles (objs p) = [] -> alive p = ∅) /\
  (forall l other s t, l <> other -> get l p = Some (Task s) -> get other p = Some (Task t) ->
     exists h', destructor (Task s) (alive p) = Some h' /\
       (move_assign l other p = None <-> exists f j, other = Inside f j /\ h' !! f = None)).
Proof.
  intros Hs. pose proof (frames_inv_rtc p Hs) as Hinv. pose proof (frames_owned p Hinv) as Ho.
  split; [done|]. split; [rewrite Ho; apply NoDup_fst_map_to_list|].
  split; [intros l o Hl; destruct (destructor_at l o p Hinv Hl) as (h2 & _ & -> & _); by eexists|].
  split; [by apply no_leak|]. intros l other s t Hne Hl Hot.
  destruct (destructor_at l (Task s) p Hinv Hl) as (h2 & q0 & Hd & _ & _ & _ & _ & _ & [o' Hl'] & _).
  exists h2. split; [done|]. unfold move_assign. rewrite decide_False, Hl by done. cbn [mbind option_bind].
  rewrite Hd. cbn [mbind option_bind]. rewrite Hl'. destruct other as [i|f j]; cbn [get set_alive objs alive] in *.
  - rewrite Hot. cbn. split; [done|]. by intros (f & j & E & _).
  - destruct (h2 !! f) as [os|] eqn:E; cbn [mbind option_bind].
    + apply destroy_sub in Hd as Hsub. rewrite (lookup_weaken _ _ _ _ E Hsub) in Hot. cbn in Hot.
      rewrite Hot. cbn. split; [done|]. intros (f' & j' & [= <- <-] & E'). congruence.
    + split; [|done]. intros _. by exists f, j.
Qed.

(** A coroutine 1 that holds the task of another, 2, and a [when_all_task] of a third, 3:
    assigning the inner task to the outer one destroys the inner one first. *)
Lemma frames_correct_witness :
  let p := mk_program [Task (mk_task (Some 1)); Task task_null; WhenAllTask (mk_when_all_task None)]
    {[1 := [Task (mk_task (Some 2)); WhenAllTask (mk_when_all_task (Some 3))]; 2 := []; 3 := []]} [3; 2; 1] in
  rtc step program_init p /\ owned p = [1; 2; 3] /\ NoDup (owned p) /\ move_assign (Outside 0) (Inside 1 0) p = None.
Proof.
  cbv zeta. set (p := mk_program _ _ _). set (t1 := Task (mk_task (Some 1))). set (t2 := Task (mk_task (Some 2))).
  set (t3 := WhenAllTask (mk_when_all_task (Some 3))). set (z := Task task_null).
  assert (H : rtc step program_init p).
  { eapply rtc_l; [apply (step_call [] ∅ [] 1 t1 [z; z]); [set_solver|apply returned_task|by repeat constructor]|].
    eapply rtc_l; [apply (step_call [t1] _ [1] 2 t2 []); [set_solver|apply returned_task|constructor]|].
    eapply rtc_l.
    { pose proof (step_move_in 1 1 0 t2 z {[1 := [z; z]]}
        (mk_program [t1; t2] (<[2 := []]> {[1 := [z; z]]}) [2; 1])) as Hm.
      apply Hm; try reflexivity. by eexists. }
    change (rtc step (mk_program [t1; z] {[1 := [t2; z]; 2 := []]} [2; 1]) p).
    eapply rtc_l; [apply (step_call [t1; z] {[1 := [t2; z]; 2 := []]} [2; 1] 3 t3 []); [set_solver|apply returned_when_all|constructor]|].
    apply rtc_once. change (step (mk_program [t1; z; t3] (<[3 := []]> {[1 := [t2; z]; 2 := []]}) [3; 2; 1]) p).
    pose proof (step_move_in 2 1 1 t3 z {[1 := [t2; z]; 2 := []]}
      (mk_program [t1; z; t3] (<[3 := []]> {[1 := [t2; z]; 2 := []]}) [3; 2; 1])) as Hm.
    apply Hm; try reflexivity. by eexists. }
  split; [exact H|]. split; [reflexivity|]. destruct (frames_correct p H) as (_ & Hnd & _ & _ & H1).
  split; [exact Hnd|].
  destruct (H1 (Outside 0) (Inside 1 0) (mk_task (Some 1)) (mk_task (Some 2))) as (h' & Hd & Ha);
    [discriminate|reflexivity|reflexivity|].
  apply Ha. exists 1, 0. split; [reflexivity|]. vm_compute in Hd. injection Hd as <-. reflexivity.
Defined.
