(* ===== verification/ScopeExit.v ===== *)
(** * Functions called at the end of a scope

    Models [coroutine/on_scope_exit.h] and [detail/scope_guard.h] of [src/include/xynet], and
    the coroutine of [async_scope::spawn], which uses the former: objects that call a function
    when they are destroyed, always or only when the scope is left by an exception, or only
    when it is not. *)

From S2P Require Import Prelude.
Local Open Scope Z_scope.

Section scope.
Context {F : Type}.

(** ** The objects *)

(** [scoped_lambda]; a destructor gives the functions it calls. *)
Record scoped_lambda := mk_scoped { m_func : F; m_cancelled : bool }.

Definition on_scope_exit (f : F) : scoped_lambda := mk_scoped f false.
Definition cancel (s : scoped_lambda) : scoped_lambda := mk_scoped (m_func s) true.
(** The move constructor: the new object and what is left of the other. *)
Definition scoped_move (other : scoped_lambda) : scoped_lambda * scoped_lambda :=
  (mk_scoped (m_func other) (m_cancelled other), cancel other).
Definition call_now (s : scoped_lambda) : scoped_lambda * list F := (mk_scoped (m_func s) true, [m_func s]).
Definition scoped_destroy (s : scoped_lambda) : list F := if m_cancelled s then [] else [m_func s].

(** [conditional_scoped_lambda<FUNC, CALL_ON_FAILURE>]; [uncaught] is what
    [std::uncaught_exceptions()] gives. *)
Record conditional_scoped_lambda := mk_conditional {
  c_func : F; m_uncaughtExceptionCount : Z; c_cancelled : bool }.

Definition conditional_init (uncaught : Z) (f : F) : conditional_scoped_lambda := mk_conditional f uncaught false.
Definition conditional_cancel (s : conditional_scoped_lambda) : conditional_scoped_lambda :=
  mk_conditional (c_func s) (m_uncaughtExceptionCount s) true.
Definition conditional_move (other : conditional_scoped_lambda)
  : conditional_scoped_lambda * conditional_scoped_lambda :=
  (mk_conditional (c_func other) (m_uncaughtExceptionCount other) (c_cancelled other), conditional_cancel other).
Definition is_unwinding_due_to_exception (uncaught : Z) (s : conditional_scoped_lambda) : bool :=
  m_uncaughtExceptionCount s <? uncaught.
Definition conditional_destroy (CALL_ON_FAILURE : bool) (uncaught : Z) (s : conditional_scoped_lambda) : list F :=
  if negb (c_cancelled s) && Bool.eqb (is_unwinding_due_to_exception uncaught s) CALL_ON_FAILURE
  then [c_func s] else [].

(** [scope_guard] *)
Definition scope_guard_destroy (m_func : F) : list F := [m_func].

End scope.
Arguments scoped_lambda : clear implicits.
Arguments conditional_scoped_lambda : clear implicits.

(** ** Programs *)

(** A program does something, throws, catches, and has objects in its scopes, which may have
    been moved from where they were made. *)
Inductive guard := OnExit | OnFailure | OnSuccess | Guard.

Inductive prog :=
| Do (n : nat)
| Throw
| Seq (p q : prog)
| Try (p handler : prog)
| Scope (g : guard) (moves : nat) (f p : prog).

Inductive ending := Normal | Threw | Terminated.

(** The objects that there are after some moves, the newest first. *)
Fixpoint moved {A} (move : A -> A * A) (n : nat) (a : A) : list A :=
  match n with O => [a] | S n => let '(b, a) := move a in moved move n b ++ [a] end.

(** The calls of the destructors, for an object made when [before] exceptions were uncaught
    and destroyed when [now] are. *)
Definition destroy (g : guard) (moves : nat) (before now : Z) : list unit :=
  match g with
  | OnExit => concat (scoped_destroy <$> moved scoped_move moves (on_scope_exit tt))
  | OnFailure => concat (conditional_destroy true now <$> moved conditional_move moves (conditional_init before tt))
  | OnSuccess => concat (conditional_destroy false now <$> moved conditional_move moves (conditional_init before tt))
  | Guard => scope_guard_destroy tt
  end.

(** Whether an exception may leave the destructor; another ends the program. *)
Definition may_throw (g : guard) : bool := match g with OnSuccess => true | _ => false end.

(** A scope that was left by [e] and whose destructors ended with [d]. *)
Definition leave (g : guard) (e d : ending) : ending :=
  match d with
  | Normal => e
  | Threw => if may_throw g then match e with Normal => Threw | _ => Terminated end else Terminated
  | Terminated => Terminated
  end.

(** What is done, in order, and how it ends; [u] exceptions are uncaught. *)
Fixpoint exec (p : prog) (u : Z) : list nat * ending :=
  match p with
  | Do n => ([n], Normal)
  | Throw => ([], Threw)
  | Seq p q =>
      let '(l, e) := exec p u in
      match e with Normal => let '(l', e') := exec q u in (l ++ l', e') | e => (l, e) end
  | Try p handler =>
      let '(l, e) := exec p u in
      match e with Threw => let '(l', e') := exec handler u in (l ++ l', e') | e => (l, e) end
  | Scope g moves f p =>
      let '(l, e) := exec p u in
      match e with
      | Terminated => (l, e)
      | _ =>
          let now := match e with Threw => u + 1 | _ => u end in
          foldl (fun r _ => let '(l, e) := r in let '(l', d) := exec f now in (l ++ l', leave g e d))
            (l, e) (destroy g moves u now)
      end
  end.

(** ** What the documentation says *)

Definition called (g : guard) (e : ending) : bool :=
  match g, e with OnExit, _ | Guard, _ | OnFailure, Threw | OnSuccess, Normal => true | _, _ => false end.

Fixpoint run (p : prog) : list nat * ending :=
  match p with
  | Do n => ([n], Normal)
  | Throw => ([], Threw)
  | Seq p q =>
      let '(l, e) := run p in
      match e with Normal => let '(l', e') := run q in (l ++ l', e') | e => (l, e) end
  | Try p handler =>
      let '(l, e) := run p in
      match e with Threw => let '(l', e') := run handler in (l ++ l', e') | e => (l, e) end
  | Scope g moves f p =>
      let '(l, e) := run p in
      match e with
      | Terminated => (l, e)
      | _ => if called g e then let '(l', d) := run f in (l ++ l', leave g e d) else (l, e)
      end
  end.

(** The coroutine of [async_scope::spawn], after [on_work_started]: [finish] is
    [on_work_finished], and an exception ends the program. *)
Definition oneway_task (finish : nat) (awaitable : prog) (u : Z) : list nat * ending :=
  let '(l, e) := exec (Scope OnExit 0 (Do finish) awaitable) u in
  (l, match e with Threw => Terminated | e => e end).

(** ** The proof *)

(** Whatever the moves, the calls are those of one object. *)
Lemma scoped_moves {F} n (f : F) : concat (scoped_destroy <$> moved scoped_move n (on_scope_exit f)) = [f].
Proof.
  unfold on_scope_exit. induction n as [|n IH]; [done|]. cbn. rewrite fmap_app, concat_app, IH. done.
Qed.

Lemma conditional_moves {F} b u now n (f : F) :
  concat (conditional_destroy b now <$> moved conditional_move n (conditional_init u f)) =
  if Bool.eqb (u <? now) b then [f] else [].
Proof.
  unfold conditional_init. induction n as [|n IH].
  - cbn. unfold conditional_destroy. cbn. unfold is_unwinding_due_to_exception. cbn. by destruct (Bool.eqb _ _).
  - cbn. rewrite fmap_app, concat_app, IH. cbn. by rewrite app_nil_r.
Qed.

Lemma destroy_called g moves u e : e <> Terminated ->
  destroy g moves u (match e with Threw => u + 1 | _ => u end) = if called g e then [tt] else [].
Proof.
  intros He. destruct g; cbn [destroy].
  - rewrite scoped_moves. by destruct e.
  - rewrite conditional_moves. destruct e; [| |done]; [by rewrite Z.ltb_irrefl|].
    by destruct (Z.ltb_spec u (u + 1)); [|lia].
  - rewrite conditional_moves. destruct e; [| |done]; [by rewrite Z.ltb_irrefl|].
    by destruct (Z.ltb_spec u (u + 1)); [|lia].
  - by destruct e.
Qed.

(** The functions are called when the documentation says: always, or exactly when an
    exception leaves the scope, or exactly when none does, once, however often the object
    has been moved - also in code that itself runs while another exception unwinds the
    stack, which is why the number of uncaught exceptions is compared and not tested. And
    the coroutine of [spawn] calls [on_work_finished] once, after the awaitable, whether it
    throws or not. *)
Theorem scope_exit p u : exec p u = run p /\
  (forall finish, oneway_task finish p u =
     let '(l, e) := run p in
     match e with Normal => (l ++ [finish], Normal) | Threw => (l ++ [finish], Terminated) | Terminated => (l, e) end).
Proof.
  assert (forall p u, exec p u = run p) as Hall.
  { clear p u. intros p. induction p as [n| |p IHp q IHq|p IHp q IHq|g moves f IHf p IHp]; intros u; cbn [exec run].
    - done.
    - done.
    - rewrite IHp. destruct (run p) as [l []]; [by rewrite IHq|done..].
    - rewrite IHp. destruct (run p) as [l []]; [done|by rewrite IHq|done].
    - rewrite IHp. destruct (run p) as [l e]. destruct e; [| |done];
        [pose proof (destroy_called g moves u Normal)|pose proof (destroy_called g moves u Threw)];
        [rewrite H by done; destruct (called g _); cbn [foldl]; [by rewrite IHf|done]..]. }
  split; [apply Hall|]. intros finish. unfold oneway_task. rewrite Hall. cbn [run].
  destruct (run p) as [l []]; done.
Qed.
