(* ===== verification/Server.v ===== *)
(** * Accepting connections

    Models [src/example/include/common/server.h], with which every server of the examples
    is made: the coroutine [acceptor], which sets up a socket, spawns a client for every
    connection it accepts and joins them when something fails, and [start_server], which
    runs it next to the event loop. What a client does with its socket is a parameter. *)

From stdpp Require Import relations gmap.
From S2P Require Import Prelude IoService Promise WhenAll Errors Address Descriptor AsyncOp Lifecycle Latch.
Local Open Scope Z_scope.

Section server.
Context {W : Type} `{OsLaws W}.

(** The kernel's part in accepting, as in [Lifecycle]. *)
Context (accepted : Z -> W -> W) (peer_of : cqe -> sockaddr_in).

(** The handle of the coroutine. *)
Context (h : nat).

(** ** The coroutine *)

(** Suspended in [accept], suspended in [join] with the exception caught, or ended by that
    exception; or an assertion of the scope has failed. *)
Inductive place := Accepting | Joining (ex : error_code) | Ended (ex : error_code) | Asserted.

(** The sockets of the program are the listening socket and those of the clients that are
    running; [given] are the descriptors handed to clients so far, [stops] the calls of
    [request_stop]. *)
Record acceptor := mk_acceptor {
  prog : program W; scope : async_scope; at_ : place; given : list Z; stops : nat }.

Definition clients (a : acceptor) : list socket := tail (objs (prog a)).

(** One statement after another, when none throws. *)
Definition and_then {S} (f g : S -> thrown unit * S) (s : S) : thrown unit * S :=
  match f s with (Returned _, s) => g s | failed => failed end.

(** The head of the [try] block. *)
Definition acceptor_setup (port : Z) : socket * W -> thrown unit * (socket * W) :=
  and_then init_throw (and_then reuse_address_throw
    (and_then (bind_throw (socket_address_port port)) (listen_throw SOMAXCONN))).

(** Behind [join]: the service is asked to stop, the exception thrown again; the listening
    socket and the scope are destroyed. *)
Definition acceptor_end (e : error_code) (a : acceptor) : acceptor :=
  let p := prog a in
  mk_acceptor (mk_program (<[0%nat := socket_default]> (objs p)) (socket_destroy (sock 0 p) (env p)) (obtained p))
    (scope a) (if scope_destroy_ok (scope a) then Ended e else Asserted) (given a) (S (stops a)).

(** The [catch] block, and [co_await scope.join()]. *)
Definition acceptor_catch (e : error_code) (a : acceptor) : acceptor :=
  if join_await_ready (scope a) then acceptor_end e a
  else
    let '(sc, suspend) := join_leave (set_continuation h (scope a)) in
    if suspend then mk_acceptor (prog a) sc (Joining e) (given a) (stops a)
    else acceptor_end e (mk_acceptor (prog a) sc (at_ a) (given a) (stops a)).

(** The coroutine until it is suspended first. *)
Definition acceptor_start (port : Z) (w : W) : acceptor :=
  let '(r, (s, w)) := acceptor_setup port (socket_default, w) in
  let a := mk_acceptor (mk_program [s] w (fd_of s)) async_scope_init Accepting [] 0 in
  match r with Returned _ => a | Thrown e => acceptor_catch e a end.

(** A turn of the loop, when [accept] completes: the peer socket is moved to the client,
    which is spawned, and destroyed. *)
Definition acceptor_accept (c : cqe) (a : acceptor) : acceptor :=
  let i := length (objs (prog a)) in
  let p := mk_program (objs (prog a) ++ [socket_default]) (env (prog a)) (obtained (prog a)) in
  let '(pol, op) := accept true false None 0 i in
  match drive (accept_kernel accepted peer_of) [c] op (p, sockaddr_zero) with
  | Waiting _ _ => a
  | Resumed op w _ =>
      match accept_get_result pol op w with
      | (Returned _, p) =>
          let '(client, peer_socket) := socket_move (sock i p) in
          let p := mk_program (<[i := client]> (objs p)) (socket_destroy peer_socket (env p)) (obtained p) in
          match on_work_started (scope a) with
          | Some sc => mk_acceptor p sc Accepting (given a ++ [m_fd client]) (stops a)
          | None => mk_acceptor p (scope a) Asserted (given a) (stops a)
          end
      | (Thrown e, p) =>
          let p := mk_program (take i (objs p)) (socket_destroy (sock i p) (env p)) (obtained p) in
          acceptor_catch e (mk_acceptor p (scope a) (at_ a) (given a) (stops a))
      end
  end.

(** The [i]-th client ends: [on_work_finished], which the last one resumes the acceptor
    with; then its coroutine is destroyed, and the socket with it. (A client that throws
    terminates the program.) *)
Definition client_end (i : nat) (s : socket) (a : acceptor) : acceptor :=
  let '(sc, resumed) := on_work_finished (scope a) in
  let a := mk_acceptor (prog a) sc (at_ a) (given a) (stops a) in
  let a := match resumed, at_ a with Some _, Joining e => acceptor_end e a | _, _ => a end in
  let p := prog a in
  mk_acceptor (mk_program (delete (S i) (objs p)) (socket_destroy s (env p)) (obtained p))
    (scope a) (at_ a) (given a) (stops a).

(** What a client does to its socket, with the faults of [Descriptor]; it obtains no
    descriptor. *)
Context (acts : socket * W -> list fault -> socket * W -> Prop).

(** A step, with the faults of the client; the clients are fewer than a [std::size_t] can
    count. *)
Inductive acceptor_step : acceptor -> list fault -> acceptor -> Prop :=
| step_accept a c : at_ a = Accepting -> Z.of_nat (length (objs (prog a))) < 2 ^ 64 - 1 ->
    acceptor_step a [] (acceptor_accept c a)
| step_client a i s fs s' w' : objs (prog a) !! S i = Some s -> acts (s, env (prog a)) fs (s', w') ->
    acceptor_step a fs (mk_acceptor (mk_program (<[S i := s']> (objs (prog a))) w' (obtained (prog a)))
      (scope a) (at_ a) (given a) (stops a))
| step_client_end a i s : objs (prog a) !! S i = Some s -> acceptor_step a [] (client_end i s a).

(** Any number of steps, with their faults. *)
Inductive acceptor_run (a : acceptor) : list fault -> acceptor -> Prop :=
| acceptor_run_start : acceptor_run a [] a
| acceptor_run_step fs a1 fs' a2 : acceptor_run a fs a1 -> acceptor_step a1 fs' a2 -> acceptor_run a (fs ++ fs') a2.

(** What the clients of the examples do: the transfer of data closes nothing; [shutdown];
    and a turn of the asynchronous [close], which on the end of the stream closes the
    descriptor and leaves it in the socket. *)
Inductive client_acts : socket * W -> list fault -> socket * W -> Prop :=
| act_transfer s w w' : closes w' = closes w -> client_acts (s, w) [] (s, w')
| act_shutdown s w how e s' w' : shutdown how (s, w) = (e, (s', w')) -> client_acts (s, w) [] (s', w')
| act_close s w b op p d : initial_check (mk_close b 0) (mk_program [s] w []) = true ->
    close_update_result (mk_close b 0) (mk_program [s] w []) = (op, p, d) ->
    client_acts (s, w) (if negb (is_error (op_error b)) && (op_res b =? 0) then Again <$> fd_of s else [])
      (sock 0 p, env p).

(** ** The invariant *)

Context (accepted_law : forall fd w, closes (accepted fd w) = closes w).
Context (acts_law : forall s w fs s' w', acts (s, w) fs (s', w') ->
  closed w' ++ fd_of s' ++ lost fs ≡ₚ closed w ++ fd_of s ++ again fs).

Definition wait_of (p : place) : waiter :=
  match p with Accepting => NotYet | Joining _ => Suspended | _ => GoneOn end.

Definition resumed_of (p : place) : list handle := match p with Ended _ => [Some h] | _ => [] end.

(** What holds with [n] clients counted, the listening socket having got the descriptors
    [l], after the faults [fs]. *)
Record acceptor_inv (fs : list fault) (l : list Z) (n : nat) (a : acceptor) : Prop := {
  a_accounts : accounts fs (prog a);
  a_objs : objs (prog a) <> [];
  a_latch : latch_inv h (mk_system (scope a) n (wait_of (at_ a)) (resumed_of (at_ a)));
  a_given : obtained (prog a) = rev (given a) ++ l;
  a_stops : stops a = length (resumed_of (at_ a));
  a_place : at_ a <> Asserted;
  a_ended : forall e, at_ a = Ended e -> objs (prog a) !! 0%nat = Some socket_default;
}.

Lemma acceptor_end_inv e fs l n a : accounts fs (prog a) -> objs (prog a) <> [] ->
  latch_inv h (mk_system (scope a) n GoneOn [Some h]) -> obtained (prog a) = rev (given a) ++ l ->
  stops a = 0%nat -> acceptor_inv fs l n (acceptor_end e a).
Proof.
  intros Hb Ho Hl Hg Hs. destruct a as [[[|s os] w o] sc pl g st]; [done|].
  cbn [prog objs env obtained scope given stops] in *.
  unfold acceptor_end, scope_destroy_ok. cbn [prog objs env obtained scope given stops].
  pose proof (inv_handle h _ Hl ltac:(done)) as Hc. cbn in Hc. rewrite Hc.
  rewrite bool_decide_eq_true_2 by done. split; cbn [prog objs env obtained scope at_ given stops]; try done.
  - apply (accounts_keep fs (s :: os) w _ o 0 s socket_default []); [done..|].
    rewrite socket_destroy_closed. change (fd_of socket_default) with (@nil Z). by rewrite app_nil_r.
  - by rewrite Hs.
Qed.

Lemma acceptor_catch_inv e fs l n a : acceptor_inv fs l n a -> at_ a = Accepting ->
  acceptor_inv fs l n (acceptor_catch e a).
Proof.
  intros [Hb Ho Hl Hg Hs _ _] Ha. rewrite Ha in Hl, Hs. unfold acceptor_catch, join_await_ready.
  pose proof (inv_count h _ Hl) as Hc. cbn in Hc. destruct (Z.eqb_spec (s_count (scope a)) 0); [lia|].
  destruct (join_leave _) as [sc suspend] eqn:E.
  assert (rtc (Latch.step h) (mk_system (scope a) n NotYet [])
    (if suspend then mk_system sc n Suspended [] else mk_system sc n GoneOn [Some h])) as Hr.
  { eapply rtc_l; [apply step_register|]. apply rtc_once. exact (step_leave h _ n [] sc suspend E). }
  apply latch_inv_rtc with (h := h) in Hr; [|exact Hl].
  destruct suspend; [by split|]. by apply acceptor_end_inv.
Qed.

(** A turn of the loop in closed form. *)
Lemma acceptor_accept_eq c a :
  acceptor_accept c a =
  if res c <? 0 then acceptor_catch (assign (- res c)) a
  else
    let client := mk_socket (res c) (set_peer_address (peer_of c) address_init) in
    let p := mk_program (objs (prog a) ++ [client]) (accepted (res c) (env (prog a))) (res c :: obtained (prog a)) in
    match on_work_started (scope a) with
    | Some sc => mk_acceptor p sc Accepting (given a ++ [res c]) (stops a)
    | None => mk_acceptor p (scope a) Asserted (given a) (stops a)
    end.
Proof.
  destruct a as [[os w o] sc pl g st]. unfold acceptor_accept. cbn [prog objs env obtained scope at_ given stops].
  set (p := mk_program (os ++ [socket_default]) w o).
  pose proof (accept_effect accepted peer_of (mk_policy false false) true no_error 0 (length os) p
    socket_default sockaddr_zero (PREP_ACCEPT 0 0 0) c) as E. cbn [objs p] in E.
  rewrite lookup_app_r, Nat.sub_diag in E by done. specialize (E eq_refl).
  unfold accept. cbn [drive]. unfold complete.
  change (mk_policy false (bool_decide (is_Some None))) with (mk_policy false false).
  change (make_base true None) with (make_base true (Some no_error)).
  cbn [on_completed accept_operation get_base put_base accept_base m_listen_socket m_peer_socket].
  unfold accept_kernel in *.
  cbv zeta in E. rewrite E. clear E. destruct (Z.ltb_spec (res c) 0) as [Hr|Hr].
  - unfold report. rewrite assign_neg_error by done. subst p. unfold sock. cbn [negb andb error_code_type objs env obtained].
    by rewrite take_app_length, lookup_app_r, Nat.sub_diag.
  - subst p. cbn [is_error no_error e_value Z.eqb negb]. unfold put_sock, sock. cbn [objs env obtained].
    rewrite list_lookup_insert_eq by (rewrite length_app; simpl; lia).
    cbn [default socket_move from_option id m_fd addresses socket_destroy valid snd fst Z.leb Z.compare].
    rewrite list_insert_insert_eq. replace (length os) with (length os + 0)%nat by lia. by rewrite insert_app_r.
Qed.

Lemma tail_length {A} (l : list A) : l <> [] -> length l = S (length (tail l)).
Proof. by destruct l. Qed.

Lemma acceptor_catch_clients e a : objs (prog a) <> [] -> clients (acceptor_catch e a) = clients a.
Proof.
  unfold acceptor_catch, acceptor_end, clients. intros Ho. destruct (join_await_ready _).
  - cbn. by destruct (objs (prog a)).
  - destruct (join_leave _) as [sc []]; [done|]. cbn. by destruct (objs (prog a)).
Qed.

Lemma step_accept_inv fs l a c : at_ a = Accepting -> Z.of_nat (length (objs (prog a))) < 2 ^ 64 - 1 ->
  acceptor_inv fs l (length (clients a)) a -> acceptor_inv fs l (length (clients (acceptor_accept c a))) (acceptor_accept c a).
Proof.
  intros Ha Hbd Hinv. rewrite acceptor_accept_eq. destruct (Z.ltb_spec (res c) 0) as [Hr|Hr].
  { rewrite acceptor_catch_clients by apply Hinv. by apply acceptor_catch_inv. }
  destruct Hinv as [Hb Ho Hl Hg Hs _ _]. rewrite Ha in Hl, Hs. rewrite tail_length in Hbd by done.
  change (tail (objs (prog a))) with (clients a) in Hbd.
  pose proof (inv_count h _ Hl) as Hc. cbn in Hc. destruct (on_work_started (scope a)) as [sc|] eqn:E.
  - assert (length (tail (objs (prog a) ++ [mk_socket (res c) (set_peer_address (peer_of c) address_init)])) =
      S (length (clients a))) as Hlen.
    { unfold clients. destruct (objs (prog a)); [done|]. cbn. rewrite length_app. simpl. lia. }
    unfold clients at 1. cbv zeta. cbn [prog objs]. rewrite Hlen.
    split; cbn [prog objs env obtained scope at_ given stops]; try done.
    + unfold accounts in *. cbn [obtained env objs app].
      rewrite owned_app, owned_single, fd_of_valid by done. unfold closed in *. rewrite accepted_law, Hb. cbn [m_fd].
      solve_Permutation.
    + by destruct (objs (prog a)).
    + eapply step_latch_inv; [|exact Hl]. apply step_add; [exact E|by right|cbn; lia].
    + by rewrite Hg, rev_app_distr.
  - unfold on_work_started in E. destruct (Z.eqb_spec (s_count (scope a)) 0); [lia|done].
Qed.

Lemma step_client_inv fs fs' l n a i s s' w' : objs (prog a) !! S i = Some s ->
  acts (s, env (prog a)) fs' (s', w') -> acceptor_inv fs l n a ->
  acceptor_inv (fs ++ fs') l n (mk_acceptor (mk_program (<[S i := s']> (objs (prog a))) w' (obtained (prog a)))
      (scope a) (at_ a) (given a) (stops a)).
Proof.
  intros Hi Hact [Hb Ho Hl Hg Hs Hp He]. split; cbn [prog objs env obtained scope at_ given stops]; try done.
  - apply (accounts_insert fs fs' _ (env (prog a)) w' _ (S i) s s' []); [done|by destruct a as [[] ? ? ? ?]|].
    apply acts_law in Hact. rewrite Hact. solve_Permutation.
  - by destruct (objs (prog a)).
  - intros e Hpe. specialize (He e Hpe). by destruct (objs (prog a)).
Qed.

Lemma acceptor_destroy_inv fs l n a i s : objs (prog a) !! S i = Some s -> acceptor_inv fs l n a ->
  acceptor_inv fs l n (mk_acceptor (mk_program (delete (S i) (objs (prog a))) (socket_destroy s (env (prog a)))
    (obtained (prog a))) (scope a) (at_ a) (given a) (stops a)).
Proof.
  intros Hi [Hb Ho Hl Hg Hs Hp He]. split; cbn [prog objs env obtained scope at_ given stops]; try done.
  - rewrite <- (app_nil_r fs). eapply step_accounts; [|exact Hb]. destruct (prog a) as [os w o]. by apply step_destroy.
  - by destruct (objs (prog a)).
  - intros e Hpe. specialize (He e Hpe). by destruct (objs (prog a)).
Qed.

Lemma client_end_inv fs l a i s : objs (prog a) !! S i = Some s -> acceptor_inv fs l (length (clients a)) a ->
  acceptor_inv fs l (length (clients (client_end i s a))) (client_end i s a).
Proof.
  intros Hi Hinv. unfold client_end.
  assert (exists n, length (clients a) = S n /\ length (delete i (clients a)) = n) as (n & Hn & Hd).
  { unfold clients. destruct (objs (prog a)) as [|x os]; [done|]. cbn in *.
    apply lookup_lt_Some in Hi as Hlt. rewrite length_delete by eauto. exists (length os - 1)%nat. lia. }
  rewrite Hn in Hinv. destruct (on_work_finished (scope a)) as [sc r] eqn:E.
  destruct Hinv as [Hb Ho Hl Hg Hs Hp He].
  pose proof (step_latch_inv h _ _ (step_arrive h _ n _ _ sc r E) Hl) as Hl'.
  set (a1 := mk_acceptor (prog a) sc (at_ a) (given a) (stops a)).
  set (a2 := match r, at_ a1 with Some _, Joining e => acceptor_end e a1 | _, _ => a1 end).
  assert (acceptor_inv fs l n a2 /\ clients a2 = clients a /\ objs (prog a2) !! S i = Some s) as (Hinv & Ec & Hi2).
  { unfold a2. change (at_ a1) with (at_ a). destruct r as [c|].
    - pose proof (inv_count h _ Hl) as Hc. unfold on_work_finished, fetch_sub in E. cbn in Hc.
      destruct (Z.eqb_spec (s_count (scope a)) 1); [|done]. destruct (at_ a) as [|e0|e0|] eqn:Ea; cbn in Hc; try lia.
      + split; [|split].
        * apply acceptor_end_inv; try done. injection E as E1 E2.
          pose proof (inv_handle h _ Hl ltac:(done)) as Hh. cbn in Hh. rewrite Hh in E2.
          cbn [wait_of resumed_of wake app] in Hl'. by rewrite <- E2 in Hl'.
        * unfold clients, acceptor_end. cbn. by destruct (objs (prog a)).
        * cbn. by destruct (objs (prog a)).
      + pose proof (inv_gone_on h _ Hl eq_refl) as Hg'. done.
      + done.
    - split; [by split|done]. }
  clearbody a2. cbn [prog]. unfold clients at 1. cbn [prog objs].
  assert (tail (A:=socket) (delete (S i) (objs (prog a2))) = delete i (clients a2)) as ->
    by (unfold clients; by destruct (objs (prog a2))).
  rewrite Ec, Hd. by apply acceptor_destroy_inv.
Qed.

Lemma acceptor_step_inv fs fs' l a a' : acceptor_step a fs' a' ->
  acceptor_inv fs l (length (clients a)) a -> acceptor_inv (fs ++ fs') l (length (clients a')) a'.
Proof.
  destruct 1 as [a c Ha Hbd|a i s fs' s' w' Hi Hact|a i s Hi]; intros Hinv.
  - rewrite app_nil_r. by apply step_accept_inv.
  - replace (length _) with (length (clients a)).
    + by eapply step_client_inv.
    + unfold clients. cbn [prog objs]. destruct (objs (prog a)) as [|x os]; [done|]. symmetry. exact (length_insert os i s').
  - rewrite app_nil_r. by apply client_end_inv.
Qed.

(** The clients of the examples give account of their descriptors. *)
Lemma client_acts_law s w fs s' w' : client_acts (s, w) fs (s', w') ->
  closed w' ++ fd_of s' ++ lost fs ≡ₚ closed w ++ fd_of s ++ again fs.
Proof.
  inversion 1 as [s0 w0 w0' E|s0 w0 how e s0' w0' E|s0 w0 b op p d Hv E]; subst.
  - by rewrite (closed_eq _ _ E).
  - apply sync_frames in E as [-> Hs]; [by rewrite (fd_of_eq s s')|apply shutdown_frame|eauto].
  - revert E. unfold close_update_result. cbn [close_base close_socket].
    destruct (is_error (op_error b)); [by intros [= _ <- _]|]. cbn [negb andb].
    destruct (op_res b =? 0); [|by intros [= _ <- _]].
    destruct (sys_close _ _) as [[ret errno] w1] eqn:Ec. intros [= _ <- _]. change (sock 0 _) with s in *.
    cbn [env]. apply closed_close in Ec. cbn [env] in Ec. destruct (again_Again (fd_of s)) as [-> ->].
    rewrite Ec. change (if 0 <=? m_fd s then [m_fd s] else []) with (fd_of s). solve_Permutation.
Qed.

(** ** The set-up *)

Definition keeps (f : socket * W -> thrown unit * (socket * W)) : Prop :=
  forall s w r s' w', f (s, w) = (r, (s', w')) -> closed w' = closed w.

Lemma keeps_and_then f g : keeps f -> keeps g -> keeps (and_then f g).
Proof.
  intros Hf Hg s w r s' w'. unfold and_then. destruct (f (s, w)) as [[[]|e] [s1 w1]] eqn:E; apply Hf in E.
  - intros E2%Hg. congruence.
  - by intros [= _ _ <-].
Qed.

Lemma keeps_throwing call (on_success : Z -> socket * W -> socket * W) f :
  (forall s, frames (call s)) -> (forall ret s w, exists s', on_success ret (s, w) = (s', w) /\ m_fd s' = m_fd s) ->
  (forall s w, f (s, w) = sync_operation (on_os (call s)) on_success (s, w)) -> keeps (throwing f).
Proof.
  intros Hc Hs Hf s w r s' w'. unfold throwing. rewrite Hf.
  destruct (sync_operation _ _ _) as [e [s1 w1]] eqn:E. apply sync_frames in E as [E _]; [|done..].
  destruct (is_error e); by intros [= _ _ <-].
Qed.

Lemma acceptor_setup_closed port w r s w' :
  acceptor_setup port (socket_default, w) = (r, (s, w')) -> closed w' = closed w.
Proof.
  assert (keeps (and_then reuse_address_throw (and_then (bind_throw (socket_address_port port)) (listen_throw SOMAXCONN)))) as Hk.
  { apply keeps_and_then; [|apply keeps_and_then].
    - apply (keeps_throwing (fun s => sys_setsockopt (m_fd s) SOL_SOCKET SO_REUSEADDR [1; 0; 0; 0]) (fun _ sw => sw));
        [intros; apply setsockopt_frame|eauto|done].
    - eapply (keeps_throwing (fun s => sys_bind (m_fd s) (socket_address_port port)));
        [intros; apply bind_frame| |done]. intros. eexists. split; [reflexivity|done].
    - apply (keeps_throwing (fun s => sys_listen (m_fd s) SOMAXCONN) (fun _ sw => sw));
        [intros; apply listen_frame|eauto|done]. }
  unfold acceptor_setup, and_then at 1, init_throw, throwing.
  destruct (init (socket_default, w)) as [e [s1 w1]] eqn:E.
  assert (closed w1 = closed w) as Hc.
  { destruct (is_error e) eqn:He.
    - apply init_failure in E as [_ E]; [|done]. by rewrite app_nil_r in E.
    - assert (e = no_error) as ->.
      { revert E He. unfold init, sync_operation, on_os. cbn [m_fd socket_default Z.eqb Pos.eqb negb].
        destruct (sys_socket w) as [[ret errno] w2] eqn:E2. destruct (0 <=? ret) eqn:Er; [by intros [= <- _ _]|].
        intros [= <- _ _]. apply socket_law in E2 as [_ [E2|E2]]; [lia|].
        unfold is_error, assign. cbn [e_value]. destruct (Z.eqb_spec errno 0); [lia|done]. }
      apply init_success in E as [_ E]. by rewrite app_nil_r in E. }
  rewrite <- Hc. destruct (is_error e); [by intros [= _ _ <-]|]. intros E2%Hk. done.
Qed.

Lemma acceptor_start_inv port w : closed w = [] ->
  exists l, (length l <= 1)%nat /\ acceptor_inv [] l (length (clients (acceptor_start port w))) (acceptor_start port w).
Proof.
  intros Hw. unfold acceptor_start. destruct (acceptor_setup port (socket_default, w)) as [r [s w']] eqn:E.
  apply acceptor_setup_closed in E. rewrite Hw in E. exists (fd_of s).
  split; [unfold fd_of; by destruct (valid s); simpl; lia|].
  set (a := mk_acceptor _ _ _ _ _). assert (acceptor_inv [] (fd_of s) 0 a) as Ha.
  { split; [|done|by apply latch_inv_start|done..].
    apply balanced_accounts. unfold balanced. cbn [a prog obtained env objs]. by rewrite E, owned_single. }
  destruct r as [|e]; [done|]. rewrite acceptor_catch_clients by done. by apply acceptor_catch_inv.
Qed.

Lemma acceptor_run_inv fs l a a' : acceptor_run a fs a' ->
  acceptor_inv [] l (length (clients a)) a -> acceptor_inv fs l (length (clients a')) a'.
Proof. induction 1; eauto using acceptor_step_inv. Qed.

(** Where [catch] gets to. *)
Lemma acceptor_catch_at e fs l a : acceptor_inv fs l (length (clients a)) a -> at_ a = Accepting ->
  at_ (acceptor_catch e a) = if bool_decide (clients a = []) then Ended e else Joining e.
Proof.
  intros Hinv Ha. pose proof (inv_count h _ (a_latch _ _ _ _ Hinv)) as Hc. rewrite Ha in Hc. cbn in Hc.
  unfold acceptor_catch, join_await_ready, join_leave, fetch_sub. cbn [set_continuation s_count].
  destruct (Z.eqb_spec (s_count (scope a)) 0); [lia|].
  destruct (clients a); cbn [length] in Hc.
  - by destruct (Z.ltb_spec 1 (s_count (scope a))); [lia|].
  - by destruct (Z.ltb_spec 1 (s_count (scope a))); [|lia].
Qed.

(** The last client to end resumes the acceptor. *)
Lemma client_end_last fs l a e s : acceptor_inv fs l (length (clients a)) a -> at_ a = Joining e -> clients a = [s] ->
  at_ (client_end 0 s a) = Ended e.
Proof.
  intros Hinv Ha Hs. pose proof (a_latch _ _ _ _ Hinv) as Hl. rewrite Hs, Ha in Hl.
  pose proof (inv_count h _ Hl) as Hc. pose proof (inv_handle h _ Hl ltac:(done)) as Hh. cbn in Hc, Hh.
  unfold client_end, on_work_finished, fetch_sub. destruct (Z.eqb_spec (s_count (scope a)) 1); [|lia].
  rewrite Ha. cbn [at_]. unfold acceptor_end, scope_destroy_ok. cbn [scope m_continuation at_]. by rewrite Hh.
Qed.

(** C21: [acceptor]. In every state it reaches, whatever its clients do that give account of
    their descriptors, as those of the examples do ([client_acts_law]): each descriptor
    obtained is owned by one socket or has been closed once, but that one is closed again for
    each asynchronous [close] by a client of its socket; each but that of the listening
    socket has been handed to one client, in order; no assertion fails. It ends only by the
    exception that its set-up or an [accept] threw, when no client is left, having asked the
    service to stop once and with every descriptor closed; until then it waits for a client
    that runs, the last of which ends it. *)
Theorem acceptor_correct port w fs a : closed w = [] -> acceptor_run (acceptor_start port w) fs a ->
  obtained (prog a) ++ again fs ≡ₚ closed (env (prog a)) ++ owned (objs (prog a)) ++ lost fs /\
  (exists l, (length l <= 1)%nat /\ obtained (prog a) = rev (given a) ++ l) /\
  match at_ a with
  | Accepting => stops a = 0%nat /\ forall c,
      if res c <? 0
      then at_ (acceptor_accept c a) = (if bool_decide (clients a = []) then Ended else Joining) (assign (- res c))
      else given (acceptor_accept c a) = given a ++ [res c] /\ at_ (acceptor_accept c a) = Accepting
  | Joining e => stops a = 0%nat /\ clients a <> [] /\ forall s, clients a = [s] -> at_ (client_end 0 s a) = Ended e
  | Ended _ => stops a = 1%nat /\ clients a = [] /\ obtained (prog a) ++ again fs ≡ₚ closed (env (prog a)) ++ lost fs
  | Asserted => False
  end.
Proof.
  intros Hw Hs. destruct (acceptor_start_inv port w Hw) as (l & Hlen & Hinv).
  apply (acceptor_run_inv fs l) in Hs; [|exact Hinv]. clear Hinv. rename Hs into Hinv.
  pose proof Hinv as [Hb Ho Hl Hg Hst Hp He]. split; [exact Hb|]. split; [by exists l|].
  destruct (at_ a) as [|e|e|] eqn:Ha; [| | |done]; cbn [resumed_of length] in Hst.
  - split; [done|]. intros c. rewrite acceptor_accept_eq. destruct (Z.ltb_spec (res c) 0).
    + rewrite (acceptor_catch_at _ fs l) by done. by case_bool_decide.
    + pose proof (inv_count h _ Hl) as Hc. cbn in Hc. unfold on_work_started.
      by destruct (Z.eqb_spec (s_count (scope a)) 0); [lia|].
  - split; [done|]. split.
    + pose proof (inv_suspended h _ Hl eq_refl) as Hn. cbn in Hn. by destruct (clients a); [simpl in Hn; lia|].
    + intros s. by apply (client_end_last fs l).
  - split; [done|]. pose proof (inv_gone_on h _ Hl eq_refl) as Hn. cbn in Hn. apply nil_length_inv in Hn.
    split; [done|]. specialize (He e eq_refl). unfold clients in Hn. unfold accounts in Hb.
    destruct (objs (prog a)) as [|s os]; [done|]. cbn in He, Hn. injection He as ->. by rewrite Hn in Hb.
Qed.

End server.

(** A connection is accepted and its descriptor, 5, handed to a client, which awaits [close];
    then [accept] fails, and the client ends: its socket closes the descriptor again. *)
Lemma acceptor_correct_witness :
  exists a, acceptor_run table_accepted no_address 7 client_acts (acceptor_start 7 2007 (mk_table ∅ [] false)) [Again 5] a /\
    at_ a = Ended (assign 24) /\ given a = [5] /\ stops a = 1%nat /\
    closed (env (prog a)) = [5; 0; 5] /\ obtained (prog a) ++ [5] ≡ₚ closed (env (prog a)).
Proof.
  set (a0 := acceptor_start 7 2007 (mk_table ∅ [] false)).
  set (a1 := acceptor_accept table_accepted no_address 7 (mk_cqe 5 0 []) a0).
  set (client := mk_socket 5 (set_peer_address sockaddr_zero address_init)).
  set (w2 := snd (sys_close 5 (env (prog a1)))).
  set (a2 := mk_acceptor (mk_program (<[1%nat := client]> (objs (prog a1))) w2 (obtained (prog a1)))
    (scope a1) (at_ a1) (given a1) (stops a1)).
  set (a3 := acceptor_accept table_accepted no_address 7 (mk_cqe (-24) 0 []) a2).
  set (a4 := client_end 0 client a3).
  assert (Hs : acceptor_run table_accepted no_address 7 client_acts a0 [Again 5] a4).
  { apply (acceptor_run_step _ _ _ _ a0 [Again 5] a3 []); [|apply (step_client_end _ _ _ _ a3 0); reflexivity].
    apply (acceptor_run_step _ _ _ _ a0 [Again 5] a2 []); [|apply (step_accept _ _ _ _ a2 (mk_cqe (-24) 0 [])); reflexivity].
    apply (acceptor_run_step _ _ _ _ a0 [] a1 [Again 5]).
    - apply (acceptor_run_step _ _ _ _ a0 [] a0 []); [apply acceptor_run_start|].
      apply (step_accept _ _ _ _ a0 (mk_cqe 5 0 [])); reflexivity.
    - apply (step_client _ _ _ _ a1 0 client [Again 5]); [reflexivity|].
      set (b := set_value 0 0 (make_base true (Some no_error))).
      apply (act_close client (env (prog a1)) b (mk_close b 0) (mk_program [client] w2 []) ResumeAwaiting); reflexivity. }
  exists a4. split; [exact Hs|].
  destruct (acceptor_correct table_accepted no_address 7 client_acts table_accepted_law client_acts_law) with
    (port := 2007) (w := mk_table ∅ [] false) (fs := [Again 5]) (a := a4) as (_ & _ & H).
  - reflexivity.
  - exact Hs.
  - destruct H as (H1 & _ & H2). split; [reflexivity|]. split; [reflexivity|]. split; [exact H1|].
    split; [reflexivity|]. rewrite (app_nil_r (closed _)) in H2. exact H2.
Defined.

(** ** [start_server] *)

(** Tasks without values. *)
Abbreviation tasks_state := (WhenAll.state (P := when_all_task_promise_void error_code)).

Section start_server.
Context {W : Type} `{OsLaws W}.
Context (accepted : Z -> W -> W) (peer_of : cqe -> sockaddr_in) (h : nat).
Context (acts : socket * W -> list fault -> socket * W -> Prop).

(** The handle of the coroutine, and how its two tasks, [acceptor] and [start_service], end
    if they do. *)
Context (hs : nat) (ends : list (void_kind * (unit + error_code))).

(** The tasks of [when_all], the acceptor and the service with its loop; the service is
    that of the acceptor, whose operations are the kernel's in [acceptor_step]. *)

Record server := mk_server {
  tasks : tasks_state; acc : acceptor (W := W); service : IoService.state }.

Definition stage_of (j : nat) (ws : tasks_state) : option stage :=
  t_stage <$> m_tasks (awaitable ws) !! j.

(** The acceptor ends by its exception, [start_service] when [run] has returned. *)
Definition body_ends (j : nat) (a : acceptor (W := W)) (io : IoService.state) (d : unit + error_code) : Prop :=
  match j with
  | 0%nat => exists e, at_ a = Ended e /\ d = inr e
  | 1%nat => pc io = Stopped /\ d = inl tt
  | _ => False
  end.

Inductive server_step : server -> server -> Prop :=
| step_when_all ws ws' a io : WhenAll.step hs ends ws ws' ->
    (forall j, stage_of j ws <> Some Finished -> stage_of j ws' = Some Finished ->
       exists k d, ends !! j = Some (k, d) /\ body_ends j a io d) ->
    server_step (mk_server ws a io) (mk_server ws' a io)
| step_acceptor ws a fs a' io : stage_of 0 ws = Some Started -> acceptor_step accepted peer_of h acts a fs a' ->
    server_step (mk_server ws a io) (mk_server ws a' io)
| step_service ws a io io' : stage_of 1 ws = Some Started -> IoService.step io io' ->
    server_step (mk_server ws a io) (mk_server ws a io').

Definition start_server (port : Z) (w : W) (io : IoService.state) : server :=
  mk_server (state_init (R := unit) ends.*1) (acceptor_start h port w) io.

Record never_ends (s : server) : Prop := {
  ne_tasks : rtc (WhenAll.step hs ends) (state_init (R := unit) ends.*1) (tasks s);
  ne_service : token (service s) = None /\ pc (service s) <> Stopped;
  ne_stage : stage_of 1 (tasks s) <> Some Finished;
}.

Lemma server_step_never s s' : server_step s s' -> never_ends s -> never_ends s'.
Proof.
  destruct 1 as [ws ws' a io Hs Hf|ws a fs a' io Hst Hs|ws a io io' Hst Hs]; intros [Ht Hi Hn];
    cbn [tasks service] in *; split; cbn [tasks service]; try done.
  - by eapply rtc_r.
  - intros H1. destruct (Hf 1%nat Hn H1) as (k & d & _ & Hp & _). by destruct Hi.
  - by eapply never_stopped.
Qed.

(** C22: a server never ends. However its tasks, the acceptor, its clients, the event loop,
    other threads and the kernel interleave, the coroutine that waits for both tasks is
    never resumed: [run] does not return, so even when the acceptor has ended, by an
    exception that its set-up threw and after asking the service to stop, the exception is
    not reported and the program hangs. *)
Theorem start_server_never_ends port w ops s : length ends = 2%nat ->
  rtc server_step (start_server port w (io_service_init ops None)) s ->
  resumptions (tasks s) = [] /\ pc (service s) <> Stopped.
Proof.
  intros Hlen Hs.
  assert (never_ends s) as [Ht [_ Hp] Hn].
  { assert (never_ends (start_server port w (io_service_init ops None))) as Hi.
    { split; [done|done|]. unfold stage_of. cbn. rewrite !list_lookup_fmap. by destruct (ends !! 1%nat). }
    revert Hi. induction Hs; eauto using server_step_never. }
  split; [|done]. destruct (when_all_inv hs ends _ ltac:(lia) Ht) as [Hok Hl].
  pose proof (inv_resumed hs _ Hl) as Hr. cbn in Hr. rewrite Hr. case_decide as Hw; [|done].
  destruct Hn. pose proof (inv_gone_on hs _ Hl Hw) as Hc. cbn in Hc.
  destruct Hok as (_ & Hl2 & _). rewrite Hlen in Hl2. unfold stage_of.
  destruct (m_tasks (awaitable (tasks s)) !! 1%nat) as [t|] eqn:Et.
  - cbn. f_equal. by eapply none_unfinished.
  - apply lookup_ge_None in Et. lia.
Qed.

End start_server.

(** The port is in use: the set-up throws, the acceptor has ended before the loop starts,
    and the server waits for good. *)
Lemma start_server_never_ends_witness :
  let ends : list (void_kind * (unit + error_code)) := [(VoidType, inr (assign 24)); (VoidType, inl tt)] in
  exists s, rtc (server_step table_accepted no_address 7 client_acts 9 ends)
      (start_server 7 ends 2007 (mk_table ∅ [] true) (io_service_init ∅ None)) s /\
    at_ (acc s) = Ended (assign 24) /\ stops (acc s) = 1%nat /\
    waiter_ (tasks s) = Suspended /\ resumptions (tasks s) = [].
Proof.
  cbv zeta. set (ends := [(VoidType, inr (assign 24)); (VoidType, inl tt)] : list (void_kind * (unit + error_code))).
  set (a := acceptor_start 7 2007 (mk_table ∅ [] true)). set (io := io_service_init ∅ None).
  set (step := server_step table_accepted no_address 7 client_acts 9 ends).
  set (finished := mk_task Finished (mk_when_all_promise_void (Some (assign 24)))).
  set (st n c ts w := mk_state (mk_awaitable (mk_counter n c) ts) 2 w [] : tasks_state).
  assert (Hs : rtc step (start_server 7 ends 2007 (mk_table ∅ [] true) io)
    (mk_server (st 1 (Some 9%nat) [finished; WhenAll.start (make_when_all_task (R := unit) VoidType)] Suspended) a io)).
  { eapply rtc_l; [eapply step_when_all; [apply (WhenAll.step_start 9 ends _ _ 0); reflexivity|]|].
    { intros [|[|j]]; cbn; congruence. }
    eapply rtc_l; [eapply step_when_all; [apply (WhenAll.step_start 9 ends _ _ 1); reflexivity|]|].
    { intros [|[|j]]; cbn; congruence. }
    eapply rtc_l; [eapply step_when_all; [eapply (WhenAll.step_finish 9 ends _ _ _ 0); reflexivity|]|].
    { intros [|[|j]]; cbn; intros H1 H2; [|congruence..]. exists VoidType, (inr (assign 24)).
      split; [reflexivity|]. exists (assign 24). split; reflexivity. }
    eapply rtc_l; [eapply step_when_all; [apply (WhenAll.step_register 9 ends)|]|].
    { intros [|[|j]]; cbn; congruence. }
    apply rtc_once. apply (step_when_all _ _ _ _ _ _
      (st 2 (Some 9%nat) [finished; WhenAll.start (make_when_all_task (R := unit) VoidType)] Registered)).
    - exact (WhenAll.step_leave 9 ends (mk_counter 2 (Some 9%nat)) [finished; WhenAll.start (make_when_all_task (R := unit) VoidType)] 2 []
        (mk_counter 1 (Some 9%nat)) true eq_refl).
    - intros [|[|j]]; cbn; congruence. }
  eexists. split; [exact Hs|]. split; [reflexivity|]. split; [reflexivity|]. split; [reflexivity|].
  exact (proj1 (start_server_never_ends table_accepted no_address 7 client_acts 9 ends 2007 (mk_table ∅ [] true) ∅ _ eq_refl Hs)).
Defined.
