(* ===== verification/Chat.v ===== *)
(** * A chat server

    Models [src/example/chat/chat_server.cpp]: a session reads lines from its
    socket through a stream buffer, the room delivers them to the sessions in it, and each
    session has a writer that sends what has been delivered, woken by the auto-reset event.
    All of it runs on the thread of the event loop. *)

From Stdlib Require Import String.
From stdpp Require Import gmap relations.
From S2P Require Import Prelude Base64 Address StreamBuffer Event.
Local Open Scope Z_scope.

Abbreviation message := (list Z).

(** ** Reading lines *)

Definition newline : Z := 10.

(** [make_message_head]: [blank] is a [std::size_t]; [append] throws beyond the maximal size
    of a string. *)
Definition make_message_head (peer : sockaddr_in) : option message :=
  let ip_port := str (to_str peer) in
  let blank := wrap 64 (21 - Z.of_nat (List.length ip_port)) in
  if blank <=? 21 then Some (str "|" ++ ip_port ++ replicate (Z.to_nat blank) 32 ++ str "|:") else None.

Section reader.
Context {allocator : Allocator} {allocator_law : AllocatorLaw}.
Context (m_message_head : message).

(** [message_parser]: what it delivers to the room, and the number of bytes parsed. *)
Definition message_parser (s : list Z) : option message * Z :=
  match index_of (Z.eqb newline) s with
  | None => (None, 0)
  | Some pos => (Some (m_message_head ++ take (S pos) s), Z.of_nat pos + 1)
  end.

(** The inner loop of [reader]; at most one turn for each byte and one more. *)
Fixpoint parse_messages (fuel : nat) (sbuf : stream_buffer) : option (list message * stream_buffer) :=
  match fuel with
  | O => None
  | S fuel =>
      let '(delivered, num_parsed) := message_parser (data sbuf) in
      if num_parsed =? 0 then Some ([], sbuf)
      else '(ms, sbuf) ← parse_messages fuel (consume num_parsed sbuf); Some (option_list delivered ++ ms, sbuf)
  end.

(** A turn of the outer loop, for what [recv_some] reads. *)
Definition reader_step (received : list Z) (sbuf : stream_buffer) : option (list message * stream_buffer) :=
  let '(sbuf, (pos, len)) := prepare 1024 sbuf in
  let sbuf := commit (Z.of_nat (List.length received)) (write_area pos received sbuf) in
  parse_messages (S (List.length (data sbuf))) sbuf.

Fixpoint reader (received : list (list Z)) (sbuf : stream_buffer) : option (list message * stream_buffer) :=
  match received with
  | [] => Some ([], sbuf)
  | c :: cs =>
      '(ms, sbuf) ← reader_step c sbuf; '(ms', sbuf) ← reader cs sbuf; Some (ms ++ ms', sbuf)
  end.

(** *** The lines of a text *)

(** The lines, with their ends, and what follows the last one; [acc] is the beginning of the
    line. *)
Fixpoint lines (acc s : list Z) : list (list Z) * list Z :=
  match s with
  | [] => ([], acc)
  | c :: s =>
      if c =? newline then let '(ls, rest) := lines [] s in ((acc ++ [c]) :: ls, rest)
      else lines (acc ++ [c]) s
  end.

Lemma lines_app acc a b :
  lines acc (a ++ b) = let '(ls, rest) := lines acc a in let '(ls', rest') := lines rest b in (ls ++ ls', rest').
Proof.
  revert acc. induction a as [|c a IH]; intros acc; cbn [app lines].
  - by destruct (lines acc b).
  - destruct (c =? newline); rewrite IH; [|done].
    destruct (lines [] a) as [ls rest]. by destruct (lines rest b).
Qed.

Lemma lines_no_newline acc s : Forall (fun c => (newline =? c) = false) s -> lines acc s = ([], acc ++ s).
Proof.
  intros Hs. revert acc. induction Hs as [|c s Hc _ IH]; intros acc; cbn [lines]; [by rewrite app_nil_r|].
  rewrite Z.eqb_sym, Hc, IH, <- app_assoc. done.
Qed.

Lemma lines_rest acc s ls rest : lines acc s = (ls, rest) ->
  Forall (fun c => (newline =? c) = false) acc -> Forall (fun c => (newline =? c) = false) rest.
Proof.
  revert acc ls. induction s as [|c s IH]; intros acc ls; cbn [lines]; [by intros [= <- <-]|].
  destruct (c =? newline) eqn:E.
  - destruct (lines [] s) as [ls' rest'] eqn:El. intros [= <- <-] _. by eapply IH.
  - intros Hl Ha. eapply IH; [exact Hl|]. apply Forall_app. split; [done|]. constructor; [by rewrite Z.eqb_sym|done].
Qed.

(** The parser is one step of [lines]. *)
Lemma message_parser_lines s :
  match message_parser s with
  | (None, n) => n = 0 /\ lines [] s = ([], s)
  | (Some m, n) => n <> 0 /\ 0 <= n <= Z.of_nat (List.length s) /\
      exists l, m = m_message_head ++ l /\
        lines [] s = let '(ls, rest) := lines [] (drop (Z.to_nat n) s) in (l :: ls, rest)
  end.
Proof.
  unfold message_parser. destruct (index_of (Z.eqb newline) s) as [pos|] eqn:E.
  - apply index_of_Some in E as (xs & x & ys & -> & <- & Hx & Hxs). apply Z.eqb_eq in Hx as <-.
    split; [lia|]. rewrite length_app. cbn [List.length]. split; [lia|]. exists (xs ++ [newline]). split.
    + f_equal. change (newline :: ys) with ([newline] ++ ys). rewrite app_assoc. apply take_app_length'.
      rewrite length_app. simpl. lia.
    + replace (drop (Z.to_nat (Z.of_nat (List.length xs) + 1)) (xs ++ newline :: ys)) with ys.
      2: { change (newline :: ys) with ([newline] ++ ys). rewrite app_assoc. symmetry. apply drop_app_length'.
           rewrite length_app. simpl. lia. }
      rewrite lines_app, lines_no_newline by done. cbn [app lines]. rewrite Z.eqb_refl.
      by destruct (lines [] ys).
  - split; [done|]. apply index_of_None in E. by apply lines_no_newline.
Qed.

Lemma parse_messages_lines fuel sbuf : (List.length (data sbuf) < fuel)%nat -> stream_ok sbuf -> size sbuf < 2 ^ 31 ->
  exists sbuf', parse_messages fuel sbuf = Some (app m_message_head <$> (lines [] (data sbuf)).1, sbuf') /\
    stream_ok sbuf' /\ data sbuf' = (lines [] (data sbuf)).2.
Proof.
  revert sbuf. induction fuel as [|fuel IH]; intros sbuf Hf Hok Hs; [lia|]. cbn [parse_messages].
  pose proof (message_parser_lines (data sbuf)) as Hp. destruct (message_parser (data sbuf)) as [[m|] n].
  - destruct Hp as (Hn & Hr & l & -> & El). destruct (Z.eqb_spec n 0) as [|_]; [done|].
    destruct (consume_spec n sbuf Hok ltac:(rewrite data_length in Hr by done; lia) Hs) as [Hok1 Hd1].
    destruct (IH (consume n sbuf)) as (sbuf' & E & Hok' & Hd').
    { rewrite Hd1, length_drop. lia. } { done. }
    { rewrite <- data_length, Hd1, length_drop by done. rewrite <- data_length in Hs by done. lia. }
    exists sbuf'. rewrite E, El. rewrite Hd1 in *. destruct (lines [] (drop (Z.to_nat n) (data sbuf))) as [ls rest].
    by split.
  - destruct Hp as [-> El]. exists sbuf. rewrite Z.eqb_refl, El. done.
Qed.

Lemma reader_step_lines c sbuf : stream_ok sbuf -> Z.of_nat (List.length c) <= 1024 ->
  size sbuf + Z.of_nat (List.length c) < 2 ^ 31 ->
  exists sbuf', reader_step c sbuf = Some (app m_message_head <$> (lines [] (data sbuf ++ c)).1, sbuf') /\
    stream_ok sbuf' /\ data sbuf' = (lines [] (data sbuf ++ c)).2.
Proof.
  intros Hok Hc Hs. unfold reader_step. pose proof (prepare_spec 1024 sbuf Hok ltac:(lia) ltac:(lia)) as Hp.
  destruct (prepare 1024 sbuf) as [b1 [pos len]]. destruct Hp as (Hok1 & Hd1 & -> & -> & Hr).
  destruct (write_commit_spec c b1) as [Hok2 Hd2]; [done|lia|lia|].
  rewrite <- Hd1. rewrite <- Hd2.
  apply parse_messages_lines; [lia|done|]. rewrite <- data_length, Hd2, length_app, Hd1 by done.
  rewrite <- data_length in Hs by done. lia.
Qed.

Lemma lines_length acc s : (List.length (lines acc s).2 <= List.length acc + List.length s)%nat.
Proof.
  revert acc. induction s as [|c s IH]; intros acc; cbn [lines]; [simpl; lia|].
  destruct (c =? newline).
  - specialize (IH []). destruct (lines [] s). simpl in *. lia.
  - specialize (IH (acc ++ [c])). rewrite length_app in IH. simpl in *. lia.
Qed.

Lemma lines_continue rest s : Forall (fun c => (newline =? c) = false) rest -> lines [] (rest ++ s) = lines rest s.
Proof. intros Hr. rewrite lines_app, lines_no_newline by done. cbn [app]. by destruct (lines rest s). Qed.

Lemma reader_lines cs : forall sbuf, stream_ok sbuf -> Forall (fun c => (newline =? c) = false) (data sbuf) ->
  Forall (fun c => Z.of_nat (List.length c) <= 1024) cs ->
  size sbuf + Z.of_nat (List.length (concat cs)) < 2 ^ 31 ->
  exists sbuf', reader cs sbuf = Some (app m_message_head <$> (lines [] (data sbuf ++ concat cs)).1, sbuf') /\
    data sbuf' = (lines [] (data sbuf ++ concat cs)).2.
Proof.
  induction cs as [|c cs IH]; intros sbuf Hok Hn Hc Hs.
  - exists sbuf. cbn [reader concat]. rewrite app_nil_r, lines_no_newline by done. done.
  - apply Forall_cons_1 in Hc as [Hc Hcs]. cbn [concat] in Hs. rewrite length_app in Hs.
    destruct (reader_step_lines c sbuf Hok Hc ltac:(lia)) as (b1 & E1 & Hok1 & Hd1).
    cbn [reader concat]. rewrite E1. cbn [mbind option_bind].
    pose proof (lines_length [] (data sbuf ++ c)) as Hl. rewrite length_app in Hl. cbn [List.length] in Hl.
    rewrite app_assoc, (lines_app [] (data sbuf ++ c)).
    destruct (lines [] (data sbuf ++ c)) as [ls rest] eqn:El. cbn [fst snd] in *.
    pose proof (lines_rest [] _ ls rest El ltac:(constructor)) as Hrest.
    destruct (IH b1) as (b2 & E2 & Hd2); [done|by rewrite Hd1|done| |].
    { rewrite <- (data_length sbuf Hok) in Hs. rewrite <- (data_length b1 Hok1), Hd1. lia. }
    exists b2. rewrite E2. cbn [mbind option_bind]. rewrite Hd1, lines_continue in * by done.
    destruct (lines rest (concat cs)) as [ls' rest']. cbn [fst snd] in *. by rewrite fmap_app.
Qed.

End reader.

(** Every address gives a head. *)
Lemma make_message_head_some peer : is_u16 (sin_port peer) ->
  exists head, make_message_head peer = Some head /\ List.length head = 24%nat.
Proof.
  intros Hp. destruct (to_str_text peer Hp) as [_ Hl].
  assert (forall s, List.length (str s) = String.length s) as Hstr.
  { intros s. unfold str. rewrite length_map. induction s; simpl; congruence. }
  unfold make_message_head. rewrite Hstr. rewrite wrap_small by lia.
  destruct (Z.leb_spec (21 - Z.of_nat (String.length (to_str peer))) 21); [|lia].
  eexists. split; [reflexivity|]. rewrite !length_app, !Hstr, length_replicate. cbn [String.length]. lia.
Qed.

(** The reader of a session. However the bytes of a text are cut into pieces of at most
    1024, the messages it delivers to the room are exactly the lines of the text, in order,
    each behind the head of the session, and what the buffer holds in the end is what
    follows the last line. The head exists for every address, and has 24 characters. *)
Theorem chat_reader {allocator : Allocator} {allocator_law : AllocatorLaw} peer cs : is_u16 (sin_port peer) ->
  Forall (fun c => Z.of_nat (List.length c) <= 1024) cs -> Z.of_nat (List.length (concat cs)) < 2 ^ 31 ->
  exists head sbuf, make_message_head peer = Some head /\ List.length head = 24%nat /\
    reader head cs stream_buffer_init = Some (app head <$> (lines [] (concat cs)).1, sbuf) /\
    data sbuf = (lines [] (concat cs)).2.
Proof.
  intros Hp Hc Hs. destruct (make_message_head_some peer Hp) as (head & Hh & Hl).
  destruct (reader_lines head cs stream_buffer_init) as (sbuf & E & Hd); [apply stream_buffer_init_ok|constructor|done|exact Hs|].
  by exists head, sbuf.
Qed.

(** Two lines and the beginning of a third, in three pieces. *)
Lemma chat_reader_witness :
  exists head sbuf, make_message_head (mk_sockaddr AF_INET 0 0) = Some head /\
    reader (allocator := two_places) head [[104; 105]; [10; 97; 10; 98]; [99]] (stream_buffer_init (allocator := two_places)) =
      Some ([head ++ [104; 105; 10]; head ++ [97; 10]], sbuf) /\ data sbuf = [98; 99].
Proof.
  destruct (chat_reader (allocator_law := two_places_law) (mk_sockaddr AF_INET 0 0) [[104; 105]; [10; 97; 10; 98]; [99]]) as (head & sbuf & H1 & _ & H2 & H3).
  - split; [done|reflexivity].
  - repeat constructor; discriminate.
  - reflexivity.
  - exists head, sbuf. split; [exact H1|]. split; [exact H2|exact H3].
Defined.

(** ** The room *)

Record chat_room := mk_room { m_participants : gset nat; m_recent_messages : list message }.

Definition chat_room_init : chat_room := mk_room ∅ [].

(** The calls of [deliver] on sessions, in order: the session and the message. *)
Abbreviation deliveries := (list (nat * message)).

Section room.
(** The address of a session's peer. *)
Context (get_address : nat -> sockaddr_in).

Definition server_says (p : nat) (what : string) : message :=
  str "|        SERVER       |:" ++ str (to_str (get_address p)) ++ str what ++ [newline].

Definition to_all (m : message) (r : chat_room) : deliveries := (fun q => (q, m)) <$> elements (m_participants r).

Definition welcome (p : nat) (r : chat_room) : deliveries := to_all (server_says p " has joined the chat") r.
Definition farewell (p : nat) (r : chat_room) : deliveries := to_all (server_says p " has left the chat") r.
Definition deliver_recent_messages (p : nat) (r : chat_room) : deliveries := (fun m => (p, m)) <$> m_recent_messages r.

Definition join (p : nat) (r : chat_room) : chat_room * deliveries :=
  let r := mk_room ({[p]} ∪ m_participants r) (m_recent_messages r) in
  (r, welcome p r ++ deliver_recent_messages p r).
Definition leave (p : nat) (r : chat_room) : chat_room * deliveries :=
  let r := mk_room (m_participants r ∖ {[p]}) (m_recent_messages r) in (r, farewell p r).

(** [while(m_recent_messages.size() > 10) m_recent_messages.pop_front();] *)
Fixpoint trim (l : list message) : list message :=
  match l with [] => [] | _ :: l' => if (10 <? List.length l)%nat then trim l' else l end.

Definition deliver (m : message) (r : chat_room) : chat_room * deliveries :=
  let r := mk_room (m_participants r) (trim (m_recent_messages r ++ [m])) in (r, to_all m r).

Inductive room_op := Join (p : nat) | Leave (p : nat) | Deliver (m : message).

Definition room_step (o : room_op) (r : chat_room) : chat_room * deliveries :=
  match o with Join p => join p r | Leave p => leave p r | Deliver m => deliver m r end.

Fixpoint room_run (os : list room_op) (r : chat_room) : chat_room * deliveries :=
  match os with
  | [] => (r, [])
  | o :: os => let '(r, ds) := room_step o r in let '(r, ds') := room_run os r in (r, ds ++ ds')
  end.

(** What a session receives. *)
Definition received (p : nat) (ds : deliveries) : list message := snd <$> filter (fun d => d.1 = p) ds.

(** *** What a session should receive *)

Definition broadcast (o : room_op) : message :=
  match o with
  | Join p => server_says p " has joined the chat"
  | Leave p => server_says p " has left the chat"
  | Deliver m => m
  end.
Definition delivered_messages (os : list room_op) : list message :=
  omap (fun o => match o with Deliver m => Some m | _ => None end) os.
Definition last_10 (l : list message) : list message := drop (List.length l - 10) l.

(** The operations are not about the session. *)
Definition not_about (p : nat) (o : room_op) : Prop := o <> Join p /\ o <> Leave p.

Lemma received_app p ds ds' : received p (ds ++ ds') = received p ds ++ received p ds'.
Proof. unfold received. by rewrite list.filter_app, fmap_app. Qed.

Lemma received_to_all p m r : received p (to_all m r) = if decide (p ∈ m_participants r) then [m] else [].
Proof.
  unfold received, to_all. pose proof (NoDup_elements (m_participants r)) as Hnd.
  rewrite <- (decide_ext (p ∈ elements (m_participants r)) (p ∈ m_participants r)) by apply elem_of_elements.
  induction Hnd as [|q l Hq _ IH]; [done|]. rewrite fmap_cons, list.filter_cons. cbn [fst].
  destruct (decide (q = p)) as [->|Hne].
  - rewrite decide_True by by left. cbn [fmap list_fmap snd]. rewrite IH. by rewrite decide_False.
  - rewrite IH. destruct (decide (p ∈ l)) as [H|H]; [by rewrite decide_True by by right|].
    rewrite decide_False; [done|]. intros [->|]%elem_of_cons; done.
Qed.

Lemma received_own p l : received p ((fun m => (p, m)) <$> l) = l.
Proof.
  unfold received. induction l as [|m l IH]; [done|]. rewrite fmap_cons, list.filter_cons, decide_True by done.
  by rewrite fmap_cons, IH.
Qed.

Lemma received_other p q l : p <> q -> received p ((fun m => (q, m)) <$> l) = [].
Proof.
  intros Hne. unfold received. induction l as [|m l IH]; [done|]. rewrite fmap_cons, list.filter_cons, decide_False by auto.
  exact IH.
Qed.

Lemma trim_last l : trim l = last_10 l.
Proof.
  unfold last_10. induction l as [|m l IH]; [done|]. cbn [trim].
  destruct (Nat.ltb_spec 10 (List.length (m :: l))).
  - rewrite IH. cbn [List.length] in *. replace (S (List.length l) - 10)%nat with (S (List.length l - 10)) by lia. done.
  - replace (List.length (m :: l) - 10)%nat with 0%nat by lia. done.
Qed.

Lemma last_10_app l m : last_10 (last_10 l ++ [m]) = last_10 (l ++ [m]).
Proof.
  unfold last_10. rewrite !length_app, length_drop. cbn [List.length].
  rewrite <- (drop_app_le l [m] (List.length l - 10)) by lia. rewrite drop_drop. f_equal. lia.
Qed.

(** What a step is for a session that it is not about. *)
Lemma room_step_other p o r : not_about p o ->
  let '(r', ds) := room_step o r in
  (p ∈ m_participants r' <-> p ∈ m_participants r) /\
  received p ds = if decide (p ∈ m_participants r) then [broadcast o] else [].
Proof.
  intros [H1 H2]. destruct o as [q|q|m]; cbn [room_step join leave deliver broadcast].
  - assert (p <> q) as Hne by congruence. split; [cbn [m_participants]; rewrite elem_of_union, elem_of_singleton; tauto|].
    unfold deliver_recent_messages. rewrite received_app, received_other, app_nil_r by done. unfold welcome. rewrite received_to_all. cbn [m_participants].
    apply decide_ext. rewrite elem_of_union, elem_of_singleton. tauto.
  - assert (p <> q) as Hne by congruence. split; [cbn [m_participants]; rewrite elem_of_difference, elem_of_singleton; tauto|].
    unfold farewell. rewrite received_to_all. cbn [m_participants]. apply decide_ext.
    rewrite elem_of_difference, elem_of_singleton. tauto.
  - split; [done|]. by rewrite received_to_all.
Qed.

Lemma room_run_other p os : Forall (not_about p) os -> forall r,
  let '(r', ds) := room_run os r in
  (p ∈ m_participants r' <-> p ∈ m_participants r) /\
  received p ds = if decide (p ∈ m_participants r) then broadcast <$> os else [].
Proof.
  induction 1 as [|o os Ho _ IH]; intros r; cbn [room_run].
  - split; [done|]. by destruct (decide (p ∈ m_participants r)).
  - pose proof (room_step_other p o r Ho) as Hs. destruct (room_step o r) as [r1 ds1]. destruct Hs as [Hp1 E1].
    specialize (IH r1). destruct (room_run os r1) as [r2 ds2]. destruct IH as [Hp2 E2].
    split; [by rewrite Hp2|]. rewrite received_app, E1, E2.
    rewrite (decide_ext (p ∈ m_participants r1) (p ∈ m_participants r)) by exact Hp1.
    by destruct (decide (p ∈ m_participants r)).
Qed.

Lemma room_run_recent os : forall r l, m_recent_messages r = last_10 l ->
  m_recent_messages (room_run os r).1 = last_10 (l ++ delivered_messages os).
Proof.
  induction os as [|o os IH]; intros r l Hr; cbn [room_run].
  - by rewrite app_nil_r.
  - pose proof (IH (room_step o r).1) as IH'. destruct (room_step o r) as [r1 ds1] eqn:E.
    destruct (room_run os r1) as [r2 ds2] eqn:E2. cbn [fst] in *. rewrite E2 in IH'. cbn [fst] in IH'.
    destruct o as [q|q|m]; injection E as <- _; cbn [m_recent_messages] in IH'; [by apply IH'|by apply IH'|].
    rewrite (IH' (l ++ [m])); [by rewrite <- app_assoc|]. by rewrite trim_last, Hr, last_10_app.
Qed.

Lemma room_run_app os1 os2 r :
  room_run (os1 ++ os2) r =
  let '(r1, ds1) := room_run os1 r in let '(r2, ds2) := room_run os2 r1 in (r2, ds1 ++ ds2).
Proof.
  revert r. induction os1 as [|o os1 IH]; intros r; cbn [app room_run].
  - by destruct (room_run os2 r).
  - destruct (room_step o r) as [r1 ds1]. rewrite IH. destruct (room_run os1 r1) as [r2 ds2].
    destruct (room_run os2 r2) as [r3 ds3]. by rewrite app_assoc.
Qed.

(** The room. A session that is not in it receives nothing. One that joins receives, in
    this order and nothing else: that it has joined, the last ten messages delivered before,
    and until it leaves every message, and every joining and leaving of others. *)
Theorem chat_room_deliveries p os1 os2 :
  Forall (not_about p) os2 -> p ∉ m_participants (room_run os1 chat_room_init).1 ->
  received p (room_run (os1 ++ os2) chat_room_init).2 = received p (room_run os1 chat_room_init).2 /\
  received p (room_run (os1 ++ Join p :: os2) chat_room_init).2 =
    received p (room_run os1 chat_room_init).2 ++ server_says p " has joined the chat" ::
      last_10 (delivered_messages os1) ++ (broadcast <$> os2).
Proof.
  intros Hos Hp. pose proof (room_run_recent os1 chat_room_init [] eq_refl) as Hrec.
  rewrite !room_run_app. destruct (room_run os1 chat_room_init) as [r ds] eqn:E. cbn [fst snd] in *. split.
  - pose proof (room_run_other p os2 Hos r) as H. destruct (room_run os2 r) as [r2 ds2]. cbn [snd].
    destruct H as [_ H]. rewrite decide_False in H by done. by rewrite received_app, H, app_nil_r.
  - cbn [room_run room_step join]. set (r1 := mk_room _ _).
    pose proof (room_run_other p os2 Hos r1) as H. destruct (room_run os2 r1) as [r2 ds2]. cbn [snd].
    destruct H as [_ H]. rewrite decide_True in H by (cbn [m_participants]; set_solver).
    unfold welcome, deliver_recent_messages. rewrite !received_app, H, received_to_all, received_own.
    rewrite decide_True by (cbn [m_participants]; set_solver). cbn [r1 m_recent_messages]. by rewrite Hrec.
Qed.

End room.

(** Session 1 joins after a message of session 2, and sees it leave. *)
Lemma chat_room_deliveries_witness :
  let address (p : nat) := mk_sockaddr AF_INET (Z.of_nat p) 0 in
  received 1%nat (room_run address ([Join 2; Deliver [7]] ++ Join 1 :: [Deliver [8]; Leave 2]) chat_room_init).2 =
    [server_says address 1 " has joined the chat"; [7]; [8]; server_says address 2 " has left the chat"].
Proof.
  cbv zeta. set (address := fun p : nat => _).
  destruct (chat_room_deliveries address 1 [Join 2; Deliver [7]] [Deliver [8]; Leave 2]) as [_ H].
  - repeat constructor; congruence.
  - cbn. set_solver.
  - exact H.
Defined.

(** ** A session *)

(** The writer: not started; awaits the event; sends a message; has ended. [WStuck]: the
    assertion of the event has failed. *)
Inductive writer_state := WCreated | WAwait | WSend (m : message) | WEnded | WStuck.

(** [w_sent] are the messages sent, [w_delivered] those that [deliver] was called with. The
    reader of a started session receives or has ended. *)
Record chat_session := mk_session {
  m_write_msgs : list message;
  m_event : m_state;
  m_writer : writer_state;
  m_reading : bool;
  m_stop_requested : bool;
  m_in_room : bool;
  w_sent : list message;
  w_delivered : list message;
}.

Definition session_init : chat_session := mk_session [] (event_init false) WCreated false false true [] [].

(** The handle of the writer. *)
Definition writer_handle : nat := 0.

Definition set_writer (w : writer_state) (e : m_state) (s : chat_session) : chat_session :=
  mk_session (m_write_msgs s) e w (m_reading s) (m_stop_requested s) (m_in_room s) (w_sent s) (w_delivered s).
Definition set_reading (b : bool) (s : chat_session) : chat_session :=
  mk_session (m_write_msgs s) (m_event s) (m_writer s) b (m_stop_requested s) (m_in_room s) (w_sent s) (w_delivered s).

(** [writer]: the loop, to where it suspends or ends. Two turns are enough: after a wait
    that finds the event set, it is not set. *)
Fixpoint run_writer (fuel : nat) (s : chat_session) : chat_session :=
  match fuel with
  | O => set_writer WStuck (m_event s) s
  | S fuel =>
      if m_stop_requested s then set_writer WEnded (m_event s) s
      else
        match m_write_msgs s with
        | m :: _ => set_writer (WSend m) (m_event s) s
        | [] =>
            match suspend_exchange writer_handle (m_event s) with
            | (e, None) => set_writer WAwait e s
            | (e, Some IsSet) => run_writer fuel (set_writer (m_writer s) (reset_exchange e) s)
            | (e, Some _) => set_writer WStuck e s
            end
        end
  end.

(** [deliver]: the message is queued, and [set] resumes the writer if it waits. *)
Definition session_deliver (m : message) (s : chat_session) : chat_session :=
  let s := mk_session (m_write_msgs s ++ [m]) (m_event s) (m_writer s) (m_reading s) (m_stop_requested s)
             (m_in_room s) (w_sent s) (w_delivered s ++ [m]) in
  let '(e, taken) := set_exchange (m_event s) in
  match taken with
  | Some _ => run_writer 2 (set_writer (m_writer s) (reset_exchange e) s)
  | None => set_writer (m_writer s) e s
  end.

(** [stop]: the first call leaves the room, and closes the socket. *)
Definition session_stop (s : chat_session) : chat_session :=
  if m_stop_requested s then s
  else mk_session (m_write_msgs s) (m_event s) (m_writer s) (m_reading s) true false (w_sent s) (w_delivered s).

(** [send] has ended with success: [m_write_msgs.pop_front()], and the loop goes on. *)
Definition sent_ok (m : message) (s : chat_session) : chat_session :=
  run_writer 2 (mk_session (tail (m_write_msgs s)) (m_event s) (m_writer s) (m_reading s) (m_stop_requested s)
    (m_in_room s) (w_sent s ++ [m]) (w_delivered s)).

(** [start]: [when_all] of the reader, which receives, and the writer. *)
Definition session_start (s : chat_session) : chat_session := run_writer 2 (set_reading true s).

(** What happens to a session. A message of its own reader comes back from the room if the
    session is in it. *)
Inductive session_step : chat_session -> chat_session -> Prop :=
| step_deliver m s : m_in_room s = true -> session_step s (session_deliver m s)
| step_start s : m_writer s = WCreated -> session_step s (session_start s)
| step_sent m s : m_writer s = WSend m -> session_step s (sent_ok m s)
| step_send_failed m s : m_writer s = WSend m ->
    session_step s (let s := session_stop s in set_writer WEnded (m_event s) s)
| step_read ms s : m_reading s = true ->
    session_step s
      (let s := if m_in_room s then foldl (fun s m => session_deliver m s) s ms else s in
       set_reading (negb (m_stop_requested s)) s)
| step_read_failed s : m_reading s = true -> session_step s (set_reading false (session_stop s)).

(** What the writer waits for is what has been delivered. *)
Record session_inv (s : chat_session) : Prop := {
  session_order : w_delivered s = w_sent s ++ m_write_msgs s;
  session_event : m_event s = Waiting writer_handle <-> m_writer s = WAwait;
  session_handle h : m_event s = Waiting h -> h = writer_handle;
  session_send m : m_writer s = WSend m -> head (m_write_msgs s) = Some m;
  session_await : m_writer s = WAwait -> m_write_msgs s = [];
  session_stuck : m_writer s <> WStuck;
  session_left : m_in_room s = negb (m_stop_requested s);
}.

(** The loop of the writer, from where it goes on. *)
Lemma run_writer_inv s : w_delivered s = w_sent s ++ m_write_msgs s -> (m_event s = NotSet \/ m_event s = IsSet) ->
  m_in_room s = negb (m_stop_requested s) ->
  session_inv (run_writer 2 s) /\ m_stop_requested (run_writer 2 s) = m_stop_requested s /\
  m_in_room (run_writer 2 s) = m_in_room s /\ m_reading (run_writer 2 s) = m_reading s.
Proof.
  intros Ho He Hl. destruct s as [q e w rd st ro sn dl]. cbn in He, Ho, Hl. cbn [run_writer m_stop_requested m_write_msgs m_event].
  destruct st.
  - split; [|done]. split; cbn; auto; try done; destruct He as [-> | ->]; done.
  - destruct q as [|m q].
    + destruct He as [-> | ->]; cbn; (split; [|done]); split; cbn; auto; try done; by intros h [= <-].
    + split; [|done]. split; cbn; auto; try done; try (destruct He as [-> | ->]; done). by intros m' [= <-].
Qed.

(** A message is queued for a writer that does not wait. *)
Lemma queued_inv m q e w rd st ro sn dl : session_inv (mk_session q e w rd st ro sn dl) -> e = NotSet \/ e = IsSet ->
  session_inv (mk_session (q ++ [m]) IsSet w rd st ro sn (dl ++ [m])).
Proof.
  intros [Ho He Hh Hs Ha Hk Hl] Hes. cbn in *.
  assert (w <> WAwait) as Hw by (intros ->; rewrite (proj2 He eq_refl) in Hes; destruct Hes; done).
  split; cbn; try done.
  - by rewrite Ho, <- app_assoc.
  - intros m' Hm. specialize (Hs m' Hm). by destruct q.
Qed.

Lemma session_deliver_inv m s : session_inv s ->
  session_inv (session_deliver m s) /\ m_stop_requested (session_deliver m s) = m_stop_requested s /\
  m_in_room (session_deliver m s) = m_in_room s.
Proof.
  intros Hi. destruct s as [q e w rd st ro sn dl]. unfold session_deliver.
  cbn [m_event set_exchange m_write_msgs m_writer m_reading m_stop_requested m_in_room w_sent w_delivered].
  destruct e as [| |h]; cbn [set_exchange].
  1, 2: split; [|done]; eapply queued_inv; [exact Hi|auto].
  destruct (run_writer_inv (set_writer w NotSet (mk_session (q ++ [m]) IsSet w rd st ro sn (dl ++ [m]))))
    as (H1 & H2 & H3 & _); cbn; auto.
  - pose proof (session_order _ Hi) as Ho. cbn in Ho. by rewrite Ho, <- app_assoc.
  - apply (session_left _ Hi).
Qed.

Lemma deliver_all_inv ms s : session_inv s ->
  let s' := foldl (fun s m => session_deliver m s) s ms in
  session_inv s' /\ m_stop_requested s' = m_stop_requested s /\ m_in_room s' = m_in_room s.
Proof.
  revert s. induction ms as [|m ms IH]; intros s Hi; [done|]. cbn [foldl].
  destruct (session_deliver_inv m s Hi) as (H1 & H2 & H3). destruct (IH _ H1) as (H4 & H5 & H6).
  split; [done|]. by rewrite H5, H6.
Qed.

Lemma set_reading_inv b s : session_inv s -> session_inv (set_reading b s).
Proof. intros [Ho He Hh Hs Ha Hk Hl]. by split. Qed.

Lemma session_stop_inv s : session_inv s -> session_inv (session_stop s).
Proof.
  intros Hi. unfold session_stop. destruct (m_stop_requested s) eqn:E; [done|].
  destruct Hi as [Ho He Hh Hs Ha Hk Hl]. by split.
Qed.

(** The event while the writer does not wait. *)
Lemma event_free s : session_inv s -> m_writer s <> WAwait -> m_event s = NotSet \/ m_event s = IsSet.
Proof.
  intros Hi Hw. destruct (m_event s) as [| |h] eqn:E; [by left|by right|].
  pose proof (session_handle s Hi h E) as ->. by apply (session_event s Hi) in E.
Qed.

Lemma session_step_inv s s' : session_step s s' -> session_inv s -> session_inv s'.
Proof.
  destruct 1 as [m s Hr|s Hw|m s Hw|m s Hw|ms s Hr|s Hr]; intros Hi.
  - by apply session_deliver_inv.
  - apply run_writer_inv; [apply Hi|apply (event_free s Hi); congruence|apply Hi].
  - apply run_writer_inv; [|apply (event_free s Hi); congruence|apply Hi].
    cbn. pose proof (session_send s Hi m Hw) as Hh. rewrite (session_order s Hi), <- app_assoc.
    destruct (m_write_msgs s); [done|]. by injection Hh as ->.
  - pose proof (session_stop_inv s Hi) as [Ho He Hh Hs Ha Hk Hl].
    assert (m_event (session_stop s) = m_event s) as E by (unfold session_stop; by destruct (m_stop_requested s)).
    cbv zeta. split; cbn; auto; try done. rewrite E.
    split; [|done]. intros Hev. destruct (event_free s Hi) as [H|H]; congruence.
  - cbv zeta. apply set_reading_inv. destruct (m_in_room s); [by apply deliver_all_inv|done].
  - by apply set_reading_inv, session_stop_inv.
Qed.

Lemma session_inv_rtc s : rtc session_step session_init s -> session_inv s.
Proof.
  assert (session_inv session_init) as H0 by by split.
  intros Hs. revert H0. induction Hs; eauto using session_step_inv.
Qed.

(** A session. Whatever is delivered, received and sent, in any order: the writer sends
    the messages delivered to it, in order, each once; the assertion of the event holds; it
    never waits while there is something to send; and when it sends, it sends the first
    message of the queue. But when the reader ends while the writer waits - the client has
    gone, and nothing was to be sent - nothing wakes the writer any more: the session, which
    waits for both, never ends. *)
Theorem chat_session_correct s : rtc session_step session_init s ->
  w_delivered s = w_sent s ++ m_write_msgs s /\ m_writer s <> WStuck /\
  (m_writer s = WAwait -> m_write_msgs s = []) /\
  (forall m, m_writer s = WSend m -> head (m_write_msgs s) = Some m) /\
  (m_writer s = WAwait -> m_stop_requested s = false -> m_reading s = true ->
   let s' := set_reading false (session_stop s) in
   session_step s s' /\ m_writer s' = WAwait /\ forall s'', ~ session_step s' s'').
Proof.
  intros Hs. pose proof (session_inv_rtc s Hs) as Hi. split_and!; [apply Hi..|].
  intros Hw Hst Hrd. cbv zeta. split; [by apply step_read_failed|].
  unfold session_stop. rewrite Hst. split; [exact Hw|].
  intros s'' H. inversion H; cbn in *; congruence.
Qed.

(** A session that has sent its welcome and waits. *)
Lemma chat_session_correct_witness :
  let s := mk_session [] (Waiting writer_handle) WAwait true false true [[104; 105]] [[104; 105]] in
  rtc session_step session_init s /\
  forall s'', ~ session_step (set_reading false (session_stop s)) s''.
Proof.
  cbv zeta. set (s := mk_session _ _ _ _ _ _ _ _).
  assert (H : rtc session_step session_init s).
  { eapply rtc_l; [by apply (step_deliver [104; 105])|]. eapply rtc_l; [by apply step_start|].
    apply rtc_once. exact (step_sent [104; 105]
      (mk_session [[104; 105]] IsSet (WSend [104; 105]) true false true [] [[104; 105]]) eq_refl). }
  split; [exact H|]. apply (chat_session_correct s H); reflexivity.
Defined.
