(* ===== verification/ChatServer.v ===== *)
(** * A chat with many sessions

    The room and the sessions of [Chat] put together, as in [src/example/chat/chat_server.cpp]
    and [src/example/websocket/websocket_chat.cpp]: the room keeps pointers to the sessions,
    a session calls the room when it starts, reads and stops, and the room calls [deliver] of
    every session in it, which may resume their writers at once. What a reader makes of what
    it receives is any list of messages here; [chat_reader] and [ws_chat_client] say which. *)

From Stdlib Require Import String.
From stdpp Require Import gmap relations.
From S2P Require Import Prelude Address Event Chat.
Local Open Scope Z_scope.

Section chat_server.
Context (get_address : nat -> sockaddr_in).

(** ** The server *)

(** The room, the sessions that are alive, by their addresses, and the calls of the room so
    far. *)
Record chat_server := mk_server { room : chat_room; sessions : gmap nat chat_session; history : list room_op }.

Definition server_init : chat_server := mk_server chat_room_init ∅ [].

Definition update (p : nat) (f : chat_session -> chat_session) (s : chat_server) : chat_server :=
  mk_server (room s) (alter f p (sessions s)) (history s).

(** [participant->deliver(message)], one after the other. *)
Definition deliver_all (ds : deliveries) (ss : gmap nat chat_session) : gmap nat chat_session :=
  foldl (fun ss d => alter (session_deliver (snd d)) (fst d) ss) ss ds.

(** [join], [leave] and [deliver] of the room. *)
Definition call (o : room_op) (s : chat_server) : chat_server :=
  let '(r, ds) := room_step get_address o (room s) in
  mk_server r (deliver_all ds (sessions s)) (history s ++ [o]).

(** [start] of a new session. *)
Definition start (p : nat) (s : chat_server) : chat_server :=
  let s := mk_server (room s) (<[p := session_init]> (sessions s)) (history s) in
  update p session_start (call (Join p) s).

(** [stop]: only the first call leaves the room. *)
Definition stop (p : nat) (c : chat_session) (s : chat_server) : chat_server :=
  let s' := update p session_stop s in
  if m_stop_requested c then s' else call (Leave p) s'.

(** The messages of a turn of the reader. *)
Definition deliver_messages (ms : list message) (s : chat_server) : chat_server :=
  foldl (fun s m => call (Deliver m) s) s ms.

Definition end_reading (c : chat_session) : chat_session := set_reading (negb (m_stop_requested c)) c.
Definition end_writing (c : chat_session) : chat_session := set_writer WEnded (m_event c) c.

(** A session starts; its [send] ends, with success or not; its reader has received
    something, or fails; its coroutines have both ended, and it is destroyed. *)
Inductive server_step : chat_server -> chat_server -> Prop :=
| server_start p s : sessions s !! p = None -> Forall (not_about p) (history s) -> server_step s (start p s)
| server_sent p c m s : sessions s !! p = Some c -> m_writer c = WSend m -> server_step s (update p (sent_ok m) s)
| server_send_failed p c m s : sessions s !! p = Some c -> m_writer c = WSend m ->
    server_step s (update p end_writing (stop p c s))
| server_read p c ms s : sessions s !! p = Some c -> m_reading c = true ->
    server_step s (update p end_reading (deliver_messages ms s))
| server_read_failed p c s : sessions s !! p = Some c -> m_reading c = true ->
    server_step s (update p (set_reading false) (stop p c s))
| server_end p c s : sessions s !! p = Some c -> m_writer c = WEnded -> m_reading c = false ->
    server_step s (mk_server (room s) (delete p (sessions s)) (history s)).

(** ** What a session sees of a call *)

Lemma deliver_all_lookup ds : forall ss p,
  deliver_all ds ss !! p = (fun c => foldl (fun c m => session_deliver m c) c (received p ds)) <$> ss !! p.
Proof.
  induction ds as [|[q m] ds IH]; intros ss p; cbn [deliver_all foldl].
  - by destruct (ss !! p).
  - change (deliver_all ds (alter (session_deliver m) q ss) !! p =
      (fun c => foldl (fun c m => session_deliver m c) c (received p ((q, m) :: ds))) <$> ss !! p).
    rewrite IH. unfold received. rewrite list.filter_cons. cbn [fst]. destruct (decide (q = p)) as [->|Hne].
    + rewrite lookup_alter_eq. by destruct (ss !! p).
    + by rewrite lookup_alter_ne.
Qed.

(** The fields that a delivery leaves alone, and the one it changes. *)
Definition same_ends (c c' : chat_session) : Prop :=
  m_reading c' = m_reading c /\ m_stop_requested c' = m_stop_requested c /\ m_in_room c' = m_in_room c.

Lemma run_writer_fields fuel : forall c,
  same_ends c (run_writer fuel c) /\ w_delivered (run_writer fuel c) = w_delivered c /\
  (m_writer (run_writer fuel c) = WEnded -> m_stop_requested c = true).
Proof.
  induction fuel as [|fuel IH]; intros c; [done|]. cbn [run_writer].
  destruct (m_stop_requested c) eqn:Es; [done|]. destruct (m_write_msgs c); [|done].
  destruct (suspend_exchange writer_handle (m_event c)) as [e [[| |h]|]]; try done.
  destruct (IH (set_writer (m_writer c) (reset_exchange e) c)) as (H1 & H2 & H3). split_and!; [exact H1|exact H2|].
  intros Hw. specialize (H3 Hw). cbn in H3. congruence.
Qed.

Lemma session_deliver_fields m c :
  same_ends c (session_deliver m c) /\ w_delivered (session_deliver m c) = w_delivered c ++ [m] /\
  (m_writer (session_deliver m c) = WEnded -> m_writer c = WEnded \/ m_stop_requested c = true).
Proof.
  destruct c as [q e w rd st ro sn dl]. unfold session_deliver.
  cbn [m_event set_exchange m_write_msgs m_writer m_reading m_stop_requested m_in_room w_sent w_delivered].
  destruct e as [| |h]; cbn [set_exchange]; [split_and!; cbn; try done; auto..|].
  destruct (run_writer_fields 2 (set_writer w (reset_exchange IsSet)
    (mk_session (q ++ [m]) (Waiting h) w rd st ro sn (dl ++ [m])))) as (H1 & H2 & H3).
  split_and!; [exact H1|exact H2|]. intros Hw. right. exact (H3 Hw).
Qed.

Lemma deliveries_fields ms : forall c, let c' := foldl (fun c m => session_deliver m c) c ms in
  same_ends c c' /\ w_delivered c' = w_delivered c ++ ms /\
  (m_writer c' = WEnded -> m_writer c = WEnded \/ m_stop_requested c = true).
Proof.
  induction ms as [|m ms IH]; intros c; cbn [foldl]; [rewrite app_nil_r; split_and!; auto; by split_and!|].
  destruct (session_deliver_fields m c) as ((R1 & S1 & I1) & D1 & W1).
  destruct (IH (session_deliver m c)) as ((R2 & S2 & I2) & D2 & W2). split_and!; [by split_and!; congruence|..].
  - by rewrite D2, D1, <- app_assoc.
  - intros Hw. destruct (W2 Hw) as [|Hs]; [auto|right; congruence].
Qed.

(** A call that is not about a session. *)
Lemma call_other o p s c : not_about p o -> sessions s !! p = Some c ->
  let seen := if decide (p ∈ m_participants (room s)) then [broadcast get_address o] else [] in
  sessions (call o s) !! p = Some (foldl (fun c m => session_deliver m c) c seen) /\
  (p ∈ m_participants (room (call o s)) <-> p ∈ m_participants (room s)).
Proof.
  intros Ho Hc. cbv zeta. pose proof (room_step_other get_address p o (room s) Ho) as Hs. unfold call.
  destruct (room_step get_address o (room s)) as [r ds]. destruct Hs as [Hp Hr]. cbn [sessions room].
  by rewrite deliver_all_lookup, Hc, Hr.
Qed.

Lemma call_history o s : history (call o s) = history s ++ [o].
Proof. unfold call. by destruct (room_step get_address o (room s)). Qed.

Lemma call_room o s : room (call o s) = fst (room_step get_address o (room s)).
Proof. unfold call. by destruct (room_step get_address o (room s)). Qed.

Lemma call_none o s p : sessions s !! p = None -> sessions (call o s) !! p = None.
Proof.
  intros Hn. unfold call. destruct (room_step get_address o (room s)). cbn. by rewrite deliver_all_lookup, Hn.
Qed.

(** ** The invariant *)

(** A session whose coroutines end has stopped. *)
Definition ends_ok (c : chat_session) : Prop :=
  (m_writer c = WEnded -> m_stop_requested c = true) /\ (m_reading c = false -> m_stop_requested c = true).

(** What has been delivered to a session, given the calls of the room: those since it
    joined, until it left. *)
Record member (r : chat_room) (hist : list room_op) (p : nat) (c : chat_session) : Prop := {
  member_inv : session_inv c;
  member_ends : ends_ok c;
  member_room : p ∈ m_participants r <-> m_in_room c = true;
  member_history : exists os1 os2 rest, hist = os1 ++ Join p :: os2 ++ rest /\ Forall (not_about p) os2 /\
    (if m_in_room c then rest = [] else head rest = Some (Leave p)) /\
    w_delivered c = server_says get_address p " has joined the chat" ::
      last_10 (delivered_messages os1) ++ (broadcast get_address <$> os2);
}.

Record server_inv (s : chat_server) : Prop := {
  inv_room : room s = fst (room_run get_address (history s) chat_room_init);
  inv_alive p : p ∈ m_participants (room s) -> is_Some (sessions s !! p);
  inv_member p c : sessions s !! p = Some c -> member (room s) (history s) p c;
}.

Lemma deliveries_inv ms c : session_inv c -> session_inv (foldl (fun c m => session_deliver m c) c ms).
Proof. intros Hi. by apply (deliver_all_inv ms c Hi). Qed.

Lemma room_run_snoc os o r :
  fst (room_run get_address (os ++ [o]) r) = fst (room_step get_address o (fst (room_run get_address os r))).
Proof.
  rewrite room_run_app. destruct (room_run get_address os r) as [r1 ds1]. cbn [room_run fst].
  by destruct (room_step get_address o r1).
Qed.

Lemma call_inv_room o s : room s = fst (room_run get_address (history s) chat_room_init) ->
  room (call o s) = fst (room_run get_address (history (call o s)) chat_room_init).
Proof. intros Hr. by rewrite call_history, call_room, room_run_snoc, <- Hr. Qed.

(** Another session's calls keep a member a member. *)
Lemma member_call o s p c : not_about p o -> sessions s !! p = Some c -> member (room s) (history s) p c ->
  exists c', sessions (call o s) !! p = Some c' /\ member (room (call o s)) (history (call o s)) p c'.
Proof.
  intros Ho Hc [Hi [Hw Hr] Hm (os1 & os2 & rest & Hh & Hos & Hrest & Hd)].
  destruct (call_other o p s c Ho Hc) as [Hc' Hp]. eexists. split; [exact Hc'|].
  set (seen := if decide _ then _ else _) in *. destruct (deliveries_fields seen c) as ((R & S & I) & D & W).
  split; [by apply deliveries_inv|split; rewrite ?R, ?S; [|done]|by rewrite Hp, I|].
  { intros He. destruct (W He) as [H|H]; auto. }
  rewrite call_history, I, D, Hh, Hd. destruct (m_in_room c) eqn:Er.
  - subst rest. exists os1, (os2 ++ [o]), []. unfold seen. rewrite decide_True by (by apply Hm). split_and!; [|by apply Forall_app_2, Forall_singleton|done|].
    + rewrite !app_nil_r, <- app_assoc. done.
    + rewrite fmap_app. cbn [app]. by rewrite <- app_assoc.
  - exists os1, os2, (rest ++ [o]). unfold seen. rewrite decide_False by (intros H; by apply Hm in H). split_and!; [|done| |by rewrite app_nil_r].
    + rewrite <- !app_assoc. cbn [app]. by rewrite <- app_assoc.
    + by destruct rest.
Qed.

(** A change of a session that the room does not see. *)
Lemma update_inv p f s c : server_inv s -> sessions s !! p = Some c -> session_inv (f c) -> ends_ok (f c) ->
  w_delivered (f c) = w_delivered c -> m_in_room (f c) = m_in_room c -> server_inv (update p f s).
Proof.
  intros [Hr Ha Hm] Hc Hi He Hd Hin. split; cbn [update room history sessions]; [done|..].
  - intros q Hq. destruct (decide (p = q)) as [<-|Hne].
    + rewrite lookup_alter_eq, Hc. by eexists.
    + rewrite lookup_alter_ne by done. by apply Ha.
  - intros q c'. destruct (decide (p = q)) as [<-|Hne].
    + rewrite lookup_alter_eq, Hc. cbn. intros [= <-]. destruct (Hm p c Hc) as [_ _ Hmr Hmh].
      split; [done|done|by rewrite Hin|by rewrite Hin, Hd].
    + rewrite lookup_alter_ne by done. apply Hm.
Qed.

Lemma deliver_message_inv m s : server_inv s -> server_inv (call (Deliver m) s).
Proof.
  intros [Hr Ha Hm]. split; [by apply call_inv_room|..].
  - intros p Hp. rewrite call_room in Hp. cbn in Hp. destruct (Ha p Hp) as [c Hc].
    destruct (member_call (Deliver m) s p c) as (c' & Hc' & _); [by split|done|by apply Hm|by exists c'].
  - intros p c Hc. destruct (sessions s !! p) as [c0|] eqn:E.
    + destruct (member_call (Deliver m) s p c0) as (c' & Hc' & Hm'); [by split|done|by apply Hm|congruence].
    + by rewrite call_none in Hc.
Qed.

Lemma deliver_messages_inv ms : forall s, server_inv s -> server_inv (deliver_messages ms s).
Proof. induction ms as [|m ms IH]; intros s Hs; [done|]. apply IH, deliver_message_inv, Hs. Qed.

(** A session leaves. *)
Lemma leave_inv p s c : server_inv s -> sessions s !! p = Some c -> m_stop_requested c = false ->
  server_inv (call (Leave p) (update p session_stop s)) /\
  sessions (call (Leave p) (update p session_stop s)) !! p = Some (session_stop c).
Proof.
  intros [Hr Ha Hm] Hc Hst. set (s1 := update p session_stop s). destruct (Hm p c Hc) as [Hi He Hmr Hmh].
  assert (m_in_room c = true) as Hin by (by rewrite (session_left c Hi), Hst).
  assert (forall q, p <> q -> sessions s1 !! q = sessions s !! q) as Hq by (intros; by apply lookup_alter_ne).
  assert (forall q, p <> q -> not_about q (Leave p)) as Hna by (intros q ?; split; congruence).
  assert (sessions (call (Leave p) s1) !! p = Some (session_stop c)) as Hp.
  { unfold call. cbn [room_step leave s1 update room sessions]. rewrite deliver_all_lookup, lookup_alter_eq, Hc.
    unfold farewell. rewrite received_to_all, decide_False by (cbn; set_solver). done. }
  split; [|exact Hp]. split; [by apply call_inv_room|..].
  - intros q Hqr. rewrite call_room in Hqr. cbn in Hqr. apply elem_of_difference in Hqr as [Hqr Hne].
    assert (p <> q) as Hpq by set_solver. destruct (Ha q Hqr) as [d Hd].
    destruct (member_call (Leave p) s1 q d) as (d' & Hd' & _); [by apply Hna|by rewrite Hq|by apply Hm|by exists d'].
  - intros q d Hd. destruct (decide (p = q)) as [<-|Hpq].
    + rewrite Hp in Hd. injection Hd as <-. split.
      * by apply session_stop_inv.
      * unfold ends_ok, session_stop. by rewrite Hst.
      * rewrite call_room. unfold session_stop. rewrite Hst. cbn. set_solver.
      * destruct Hmh as (os1 & os2 & rest & Hh & Hos & Hrest & Hdl). rewrite Hin in Hrest. subst rest.
        exists os1, os2, [Leave p]. rewrite call_history. cbn [s1 update history]. rewrite Hh.
        unfold session_stop. rewrite Hst. cbn. rewrite app_nil_r, <- app_assoc. done.
    + destruct (sessions s !! q) as [d0|] eqn:E.
      * destruct (member_call (Leave p) s1 q d0) as (d' & Hd' & Hm'); [by apply Hna|by rewrite Hq|by apply Hm|congruence].
      * rewrite call_none in Hd; [done|by rewrite Hq].
Qed.

Lemma stop_inv p s c : server_inv s -> sessions s !! p = Some c ->
  server_inv (stop p c s) /\ sessions (stop p c s) !! p = Some (session_stop c) /\ m_stop_requested (session_stop c) = true.
Proof.
  intros Hs Hc. unfold stop. destruct (m_stop_requested c) eqn:E.
  - assert (session_stop c = c) as Ec by (unfold session_stop; by rewrite E).
    destruct (inv_member s Hs p c Hc) as [Hi He _ _]. rewrite Ec. split; [|split; [|done]].
    + apply (update_inv p session_stop s c Hs Hc); by rewrite Ec.
    + cbn [update sessions]. rewrite lookup_alter_eq, Hc. cbn. by rewrite Ec.
  - destruct (leave_inv p s c Hs Hc E) as [H1 H2]. split_and!; [done|done|]. unfold session_stop. by rewrite E.
Qed.

(** What has been delivered to a session before its writer starts. *)
Lemma deliveries_created ms : forall c, session_inv c -> m_writer c = WCreated ->
  m_writer (foldl (fun c m => session_deliver m c) c ms) = WCreated.
Proof.
  induction ms as [|m ms IH]; intros c Hi Hw; [done|]. cbn [foldl]. apply IH; [by apply session_deliver_inv|].
  destruct (event_free c Hi) as [E|E]; [congruence|..]; destruct c as [q e w rd st ro sn dl]; cbn in *; by subst.
Qed.

Lemma session_start_inv c : session_inv c -> m_writer c = WCreated -> m_stop_requested c = false ->
  session_inv (session_start c) /\ ends_ok (session_start c) /\ w_delivered (session_start c) = w_delivered c /\
  m_in_room (session_start c) = m_in_room c.
Proof.
  intros Hi Hw Hst. pose proof (session_step_inv _ _ (step_start c Hw) Hi) as Hi'.
  destruct (run_writer_fields 2 (set_reading true c)) as ((R & S & I) & D & W).
  split_and!; [done|..|exact D|exact I]. unfold ends_ok, session_start. rewrite R, S. cbn.
  split; [exact W|done].
Qed.

Lemma recent_messages s : server_inv s -> m_recent_messages (room s) = last_10 (delivered_messages (history s)).
Proof. intros Hs. rewrite (inv_room s Hs). apply (room_run_recent get_address (history s) chat_room_init []). done. Qed.

(** The new session, when it has joined. *)
Lemma join_member p s : server_inv s -> sessions s !! p = None -> Forall (not_about p) (history s) ->
  let s1 := mk_server (room s) (<[p := session_init]> (sessions s)) (history s) in
  exists c, sessions (call (Join p) s1) !! p = Some c /\ m_writer c = WCreated /\ m_stop_requested c = false /\
    member (room (call (Join p) s1)) (history (call (Join p) s1)) p (session_start c).
Proof.
  intros Hs Hn Hfresh. cbv zeta. assert (session_inv session_init) as H0 by by split.
  set (ms := server_says get_address p " has joined the chat" :: m_recent_messages (room s)).
  assert (received p (snd (room_step get_address (Join p) (room s))) = ms) as Hr.
  { cbn [room_step join snd]. unfold welcome, deliver_recent_messages.
    rewrite received_app, received_own, received_to_all, decide_True by (cbn; set_solver). done. }
  set (c := foldl (fun c m => session_deliver m c) session_init ms).
  destruct (deliveries_fields ms session_init) as ((R & S & I) & D & _). fold c in R, S, I, D.
  pose proof (deliveries_created ms session_init H0 eq_refl) as Hw. fold c in Hw.
  destruct (session_start_inv c (deliveries_inv ms _ H0) Hw S) as (Hi & He & Hd & Hin).
  exists c. split_and!; [|done|done|].
  - unfold call. destruct (room_step get_address (Join p) (room s)) as [r ds] eqn:E. cbn [room sessions]. rewrite E.
    cbn [sessions]. rewrite deliver_all_lookup, lookup_insert_eq. cbn in Hr. subst ms c. by rewrite <- Hr.
  - split; [done|done| |].
    + rewrite Hin, I, call_room. cbn. set_solver.
    + exists (history s), [], []. rewrite call_history, Hin, I, Hd, D. cbn [history]. split_and!; try done.
      unfold ms. by rewrite (recent_messages s Hs), app_nil_r.
Qed.

Lemma server_start_inv p s : server_inv s -> sessions s !! p = None -> Forall (not_about p) (history s) -> server_inv (start p s).
Proof.
  intros Hs Hn Hfresh. destruct (join_member p s Hs Hn Hfresh) as (c & Hc & _ & _ & Hmc). destruct Hs as [Hr Ha Hm].
  unfold start. set (s1 := mk_server _ _ _) in *. set (s2 := call (Join p) s1) in *.
  assert (forall q, p <> q -> sessions s1 !! q = sessions s !! q) as Hq by (intros; by apply lookup_insert_ne).
  assert (forall q, p <> q -> not_about q (Join p)) as Hna by (intros q ?; split; congruence).
  split; cbn [update room history sessions]; [by apply call_inv_room|..].
  - intros q Hqr. destruct (decide (p = q)) as [<-|Hpq]; [rewrite lookup_alter_eq, Hc; by eexists|].
    rewrite lookup_alter_ne by done. unfold s2 in Hqr. rewrite call_room in Hqr. cbn in Hqr.
    destruct (Ha q) as [d Hd]; [set_solver|].
    destruct (member_call (Join p) s1 q d) as (d' & Hd' & _); [by apply Hna|by rewrite Hq|by apply Hm|by exists d'].
  - intros q d. destruct (decide (p = q)) as [<-|Hpq].
    + rewrite lookup_alter_eq, Hc. by intros [= <-].
    + rewrite lookup_alter_ne by done. intros Hd. destruct (sessions s !! q) as [d0|] eqn:E.
      * destruct (member_call (Join p) s1 q d0) as (d' & Hd' & Hm'); [by apply Hna|by rewrite Hq|by apply Hm|].
        unfold s2 in *. congruence.
      * unfold s2 in Hd. rewrite call_none in Hd; [done|by rewrite Hq].
Qed.

Lemma end_writing_inv m c : session_inv c -> m_writer c = WSend m -> session_inv (end_writing c).
Proof.
  intros Hi Hw. assert (m_event c = NotSet \/ m_event c = IsSet) as He by (apply (event_free c Hi); congruence).
  destruct Hi as [Ho Hev Hh Hs Ha Hk Hl]. split; cbn; auto; try done. split; [|done]. intros E. destruct He; congruence.
Qed.

Lemma server_step_inv s s' : server_step s s' -> server_inv s -> server_inv s'.
Proof.
  destruct 1 as [p s Hn Hf|p c m s Hc Hw|p c m s Hc Hw|p c ms s Hc Hrd|p c s Hc Hrd|p c s Hc Hw Hrd]; intros Hs.
  - by apply server_start_inv.
  - destruct (inv_member s Hs p c Hc) as [Hi [He1 He2] _ _].
    destruct (run_writer_fields 2 (mk_session (tail (m_write_msgs c)) (m_event c) (m_writer c) (m_reading c)
      (m_stop_requested c) (m_in_room c) (w_sent c ++ [m]) (w_delivered c))) as ((R & S & I) & D & W).
    apply (update_inv p (sent_ok m) s c Hs Hc); [eapply session_step_inv; [by apply step_sent|done]| |exact D|exact I].
    unfold ends_ok, sent_ok. rewrite R, S. cbn. split; [exact W|exact He2].
  - destruct (stop_inv p s c Hs Hc) as (Hs' & Hc' & Hst). destruct (inv_member _ Hs' p _ Hc') as [Hi [He1 He2] _ _].
    apply (update_inv p end_writing _ _ Hs' Hc'); [|by split|done|done].
    apply (end_writing_inv m); [done|]. unfold session_stop. by destruct (m_stop_requested c).
  - pose proof (deliver_messages_inv ms s Hs) as Hs'.
    destruct (sessions (deliver_messages ms s) !! p) as [c'|] eqn:Hc'.
    + destruct (inv_member _ Hs' p _ Hc') as [Hi [He1 He2] _ _].
      apply (update_inv p end_reading _ _ Hs' Hc'); [by apply set_reading_inv| |done|done].
      split; [exact He1|]. cbn. by destruct (m_stop_requested c').
    + destruct Hs' as [Hr Ha Hm]. split; cbn [update room history sessions]; [done|..].
      * intros q Hq. destruct (decide (p = q)) as [<-|Hne]; [destruct (Ha p Hq); congruence|].
        rewrite lookup_alter_ne by done. by apply Ha.
      * intros q d. destruct (decide (p = q)) as [<-|Hne]; [by rewrite lookup_alter_eq, Hc'|].
        rewrite lookup_alter_ne by done. apply Hm.
  - destruct (stop_inv p s c Hs Hc) as (Hs' & Hc' & Hst). destruct (inv_member _ Hs' p _ Hc') as [Hi [He1 He2] _ _].
    apply (update_inv p (set_reading false) _ _ Hs' Hc'); [by apply set_reading_inv| |done|done].
    split; [exact He1|done].
  - destruct (inv_member s Hs p c Hc) as [Hi [He1 He2] Hmr _]. destruct Hs as [Hr Ha Hm].
    split; cbn [room history sessions]; [done|..].
    + intros q Hq. rewrite lookup_delete_ne; [by apply Ha|]. intros <-. apply Hmr in Hq.
      rewrite (session_left c Hi), (He1 Hw) in Hq. done.
    + intros q d Hd. apply lookup_delete_Some in Hd as [_ Hd]. by apply Hm.
Qed.

Lemma server_inv_rtc s : rtc server_step server_init s -> server_inv s.
Proof.
  assert (server_inv server_init) as H0.
  { split; [done|intros p Hp; cbn in Hp; set_solver|intros p c Hc; by apply (lookup_empty_Some (M := gmap nat) p c) in Hc]. }
  intros Hs. revert H0. induction Hs; eauto using server_step_inv.
Qed.

(** C36: the chat. Sessions start, receive, send, fail and end, in any order; each call of
    the room delivers to every session in it, whose writers may go on at once. The room
    never holds a session that has been destroyed. What has been delivered to a session, and
    so what its writer has sent and what is still in its queue, is in this order, whatever
    the other sessions do: that it has joined, the last ten messages before, and every
    message, every joining and every leaving of another session since, until it left; when
    its writer waits, all of it has been sent. *)
Theorem chat_server_correct s : rtc server_step server_init s ->
  (forall p, p ∈ m_participants (room s) -> is_Some (sessions s !! p)) /\
  (forall p c, sessions s !! p = Some c ->
     m_writer c <> WStuck /\
     exists os1 os2 rest, history s = os1 ++ Join p :: os2 ++ rest /\ Forall (not_about p) os2 /\
       (if m_in_room c then rest = [] else head rest = Some (Leave p)) /\
       let due := server_says get_address p " has joined the chat" ::
         last_10 (delivered_messages os1) ++ (broadcast get_address <$> os2) in
       w_sent c ++ m_write_msgs c = due /\ (m_writer c = WAwait -> w_sent c = due)).
Proof.
  intros Hs. apply server_inv_rtc in Hs as [_ Ha Hm]. split; [exact Ha|]. intros p c Hc.
  destruct (Hm p c Hc) as [Hi _ _ (os1 & os2 & rest & Hh & Hos & Hrest & Hd)].
  split; [apply (session_stuck c Hi)|]. exists os1, os2, rest. split_and!; try done.
  cbv zeta. rewrite <- Hd. split; [by rewrite (session_order c Hi)|].
  intros Hw. by rewrite (session_order c Hi), (session_await c Hi Hw), app_nil_r.
Qed.

End chat_server.

(** Session 1 starts and is sent its welcome; then session 2 starts and says something. *)
Lemma chat_server_correct_witness :
  let address (p : nat) := mk_sockaddr AF_INET (Z.of_nat p) 0 in
  exists s c, rtc (server_step address) server_init s /\ sessions s !! 1%nat = Some c /\ m_writer c <> WStuck /\
    w_sent c ++ m_write_msgs c =
      [server_says address 1 " has joined the chat"; server_says address 2 " has joined the chat"; [104; 105]].
Proof.
  cbv zeta. set (address := fun p : nat => _).
  set (s1 := start address 1 server_init).
  set (s2 := update 1 (sent_ok (server_says address 1 " has joined the chat")) s1).
  set (s3 := start address 2 s2).
  set (s4 := update 2 end_reading (deliver_messages address [[104; 105]] s3)).
  assert (H : rtc (server_step address) server_init s4).
  { eapply rtc_l; [apply (server_start address 1 server_init); [done|constructor]|].
    eapply rtc_l; [eapply (server_sent address 1); vm_compute; reflexivity|].
    eapply rtc_l; [apply (server_start address 2 s2); [vm_compute; reflexivity|repeat constructor; congruence]|].
    apply rtc_once. eapply (server_read address 2 _ [[104; 105]] s3); vm_compute; reflexivity. }
  destruct (sessions s4 !! 1%nat) as [c|] eqn:Hc; [|vm_compute in Hc; discriminate Hc].
  exists s4, c. split; [exact H|]. split; [exact Hc|].
  split; [exact (proj1 (proj2 (chat_server_correct address s4 H) 1%nat c Hc))|].
  vm_compute in Hc. injection Hc as <-. vm_compute. reflexivity.
Defined.
