(* ===== verification/WsChat.v ===== *)
(** * A WebSocket chat

    Models [src/example/websocket/websocket_chat.cpp]: what it does differently from the chat
    of [Chat], whose room and sessions it repeats. A client is greeted by the handshake of
    [WsServer]; the reader of its session receives frames and not lines, and what the writer
    sends is framed. *)

From Stdlib Require Import String.
From S2P Require Import Prelude WsFrame WsMask Pico PicoLoops PicoStable PicoGrammar PicoHeaders PicoRequest HttpParser Base64 WsHandshake Address WsServer Chat.
Local Open Scope Z_scope.

(** The connection of a client, the room, the calls of [deliver] it has made, and whether
    [m_stop_source] has been asked to stop. *)
Record world := mk_world { w_net : net; w_room : chat_room; w_deliveries : deliveries; w_stopped : bool }.

Definition set_net (n : net) (w : world) : world := mk_world n (w_room w) (w_deliveries w) (w_stopped w).

Section ws_chat.
Context (SHA1 : list Z -> list Z) (get_address : nat -> sockaddr_in).

(** ** The classes that are those of [Chat]

    [chat_room], [deliver] of [chat_session] and [make_message_head] are in this file, word
    for word, what they are in [chat_server.cpp]; the definitions of [Chat] are theirs. *)

Definition ws_chat_room : Type := chat_room.
Definition ws_deliver_recent_messages : nat -> ws_chat_room -> deliveries := deliver_recent_messages.
Definition ws_welcome : nat -> ws_chat_room -> deliveries := welcome get_address.
Definition ws_farewell : nat -> ws_chat_room -> deliveries := farewell get_address.
Definition ws_deliver : message -> ws_chat_room -> ws_chat_room * deliveries := deliver.

Definition ws_join (p : nat) (r : ws_chat_room) : ws_chat_room * deliveries :=
  let r := mk_room ({[p]} ∪ m_participants r) (m_recent_messages r) in
  (r, ws_welcome p r ++ ws_deliver_recent_messages p r).

Definition ws_leave (p : nat) (r : ws_chat_room) : ws_chat_room * deliveries :=
  let r := mk_room (m_participants r ∖ {[p]}) (m_recent_messages r) in (r, ws_farewell p r).

Definition ws_session_deliver : message -> chat_session -> chat_session := session_deliver.
Definition ws_make_message_head : sockaddr_in -> option message := make_message_head.

Definition ws_room_step (o : room_op) (r : ws_chat_room) : ws_chat_room * deliveries :=
  match o with Join p => ws_join p r | Leave p => ws_leave p r | Deliver m => ws_deliver m r end.

Lemma ws_room_step_eq o r : ws_room_step o r = room_step get_address o r.
Proof. by destruct o. Qed.

(** ** The session *)

Context (p : nat).

Definition room_call (o : room_op) (w : world) : world :=
  let '(r, ds) := ws_room_step o (w_room w) in
  mk_world (w_net w) r (w_deliveries w ++ ds) (w_stopped w).

(** [stop] *)
Definition ws_stop (w : world) : world :=
  if w_stopped w then w
  else let w := room_call (Leave p) w in mk_world (w_net w) (w_room w) (w_deliveries w) true.

(** [reader]; what it receives is delivered behind the head of the session. *)
Fixpoint ws_reader (m_message_head : message) (fuel : nat) (buf : list Z) (w : world) : outcome unit * world :=
  match fuel with
  | O => (Ub, w)
  | S fuel =>
      if w_stopped w then (Ret tt, w)
      else
        match websocket_recv_data buf (w_net w) with
        | (Ret (buf, data), n) =>
            ws_reader m_message_head fuel buf (room_call (Deliver (m_message_head ++ data)) (set_net n w))
        | (Err _, n) => (Ret tt, ws_stop (set_net n w))
        | (Ub, n) => (Ub, set_net n w)
        end
  end.

(** The client that [main] gives to [start_server], with the reader of its session. *)
Definition ws_client (fuel : nat) (w : world) : outcome unit * world :=
  match websocket_handshake SHA1 (w_net w) with
  | (Ret _, n) =>
      match ws_make_message_head (get_address p) with
      | Some head =>
          ws_reader head fuel (replicate (Z.to_nat MAX_WEBSOCKET_FRAME_SIZE) 0) (room_call (Join p) (set_net n w))
      | None => (Ret tt, set_net n w)
      end
  | (Err _, n) => (Ret tt, set_net n w)
  | (Ub, n) => (Ub, set_net n w)
  end.

(** What the [writer] does with the first message of its queue. *)
Definition ws_send (message : message) : io unit :=
  let header := frame_header_make (flags_or WS_FINAL_FRAME WS_OP_TEXT) (Z.of_nat (List.length message)) in
  send (frame_header_view header ++ message).

(** What the room is asked for. *)
Definition ws_ops (head : message) (fs : list frame) : list room_op :=
  (Deliver ∘ app head ∘ f_data <$> fs) ++ [Leave p].

Lemma room_run_cons o os r :
  room_run get_address (o :: os) r =
  ((room_run get_address os (room_step get_address o r).1).1,
   (room_step get_address o r).2 ++ (room_run get_address os (room_step get_address o r).1).2).
Proof.
  cbn [room_run]. destruct (room_step get_address o r) as [r1 ds1]. cbn [fst snd].
  by destruct (room_run get_address os r1).
Qed.

Lemma room_call_eq o w : room_call o w = mk_world (w_net w) (room_step get_address o (w_room w)).1
  (w_deliveries w ++ (room_step get_address o (w_room w)).2) (w_stopped w).
Proof. unfold room_call. rewrite ws_room_step_eq. by destruct (room_step get_address o (w_room w)). Qed.

Lemma ws_reader_frames head fs : Forall frame_ok fs -> forall fuel buf out r ds, (List.length fs < fuel)%nat ->
  Z.of_nat (List.length buf) = MAX_WEBSOCKET_FRAME_SIZE ->
  ws_reader head fuel buf (mk_world (mk_net (client_frame <$> fs) out) r ds false) =
    (Ret tt, mk_world (mk_net [] out) (room_run get_address (ws_ops head fs) r).1
       (ds ++ (room_run get_address (ws_ops head fs) r).2) true).
Proof.
  induction 1 as [|f fs Hf _ IH]; intros [|fuel] buf out r ds Hfuel Hb; try (simpl in Hfuel; lia).
  - cbn [ws_reader w_stopped w_net]. unfold websocket_recv_data. rewrite recv_data_end.
    unfold ws_stop. cbn [set_net w_stopped]. rewrite room_call_eq. unfold ws_ops. cbn [fmap list_fmap app].
    rewrite room_run_cons. cbn [w_net w_room w_deliveries room_run fst snd]. by rewrite app_nil_r.
  - cbn [ws_reader w_stopped w_net].
    destruct (recv_data_whole (Z.to_nat MAX_HTTP_REQUEST_SIZE) f (client_frame <$> fs) out buf Hf Hb) as (buf' & Hb' & E).
    rewrite fmap_cons. unfold websocket_recv_data. rewrite E, room_call_eq.
    cbn [set_net w_net w_room w_deliveries w_stopped]. rewrite IH by (done || simpl in Hfuel; lia).
    unfold ws_ops. rewrite fmap_cons. cbn [app]. rewrite room_run_cons. cbn [fst snd compose]. by rewrite app_assoc.
Qed.

Context (SHA1_length : forall l, List.length (SHA1 l) = 20%nat) (SHA1_bytes : forall l, Forall is_byte (SHA1 l)).

(** C37: a client of the WebSocket chat. It sends a request the handler accepts and then
    frames that the server takes - final, masked, without the bit of a control frame, of at
    most 1000 bytes - the request and each frame received as a piece of its own, without
    which [split_request] and [split_frame_closed] say what happens. It is answered the
    handshake, joins the room, its data is delivered to the room, each frame behind the head
    of the session and in order, and at the end of the stream it leaves the room: what the
    sessions receive is what the room's operations - of which [chat_room_deliveries] is -
    make of this. And each message a session's writer sends is one text frame that, read by
    the frame parser, is the message. *)
Theorem ws_chat_client req fs fuel r : accepted req -> Forall frame_ok fs -> (List.length fs < fuel)%nat ->
  is_u16 (sin_port (get_address p)) ->
  exists head, make_message_head (get_address p) = Some head /\
    let ops := Join p :: (Deliver ∘ app head ∘ f_data <$> fs) ++ [Leave p] in
    ws_client fuel (mk_world (mk_net (request_bytes req :: (client_frame <$> fs)) []) r [] false) =
      (Ret tt, mk_world
        (mk_net [] [switching_protocols SHA1 (last_key (fields (rq_lines req)) default_key)])
        (room_run get_address ops r).1 (room_run get_address ops r).2 true) /\
    forall message n, Z.of_nat (List.length message) < 2 ^ 64 ->
      exists bytes, ws_send message n = (Ret tt, mk_net (chunks n) (sent n ++ [bytes])) /\
        let '(st, pos) := parse bytes parser_init in
        parser_result st = (TEXT_FRAME, 0, Z.of_nat (List.length message)) /\ drop (Z.to_nat pos) bytes = message.
Proof.
  intros Hreq Hfs Hfuel Hport. destruct (make_message_head_some _ Hport) as (head & Hh & _).
  exists head. split; [done|]. cbv zeta. split.
  - unfold ws_client, ws_make_message_head. cbn [w_net].
    rewrite (handshake_net SHA1 SHA1_length SHA1_bytes req (client_frame <$> fs) [] Hreq), Hh, room_call_eq.
    cbn [set_net w_net w_room w_deliveries w_stopped app].
    rewrite (ws_reader_frames head fs Hfs fuel _ _ _ _ Hfuel (length_buffer MAX_WEBSOCKET_FRAME_SIZE ltac:(done))).
    by rewrite room_run_cons.
  - intros m n Hm. exists (server_frame m). split; [|by apply server_frame_parsed].
    unfold ws_send. rewrite (proj1 (frame_header_make_view _ (Z.of_nat (List.length m)) ltac:(lia))). reflexivity.
Qed.

End ws_chat.

(** Client 1 says "hi" in a room with session 2. *)
Lemma ws_chat_client_witness :
  let address (q : nat) := mk_sockaddr AF_INET (Z.of_nat q) 0 in
  let room := (room_step address (Join 2) chat_room_init).1 in
  exists head w, make_message_head (address 1%nat) = Some head /\
    ws_client toy_digest address 1 2
      (mk_world (mk_net [request_bytes client_request; client_frame (text_frame 7 [104; 105])] []) room [] false) = (Ret tt, w) /\
    received 2 (w_deliveries w) =
      [server_says address 1 " has joined the chat"; head ++ [104; 105]; server_says address 1 " has left the chat"].
Proof.
  cbv zeta. set (address := fun q : nat => _).
  assert (forall l, List.length (toy_digest l) = 20%nat) as Hl by reflexivity.
  assert (forall l, Forall is_byte (toy_digest l)) as Hb.
  { intros l. apply List.Forall_map, Forall_forall. intros i _. apply Z.mod_pos_bound. reflexivity. }
  destruct (ws_chat_client toy_digest address 1 Hl Hb client_request [text_frame 7 [104; 105]] 2
    (room_step address (Join 2) chat_room_init).1 client_request_accepted) as (head & Hh & H & _).
  - repeat (constructor; [split; first [reflexivity | done | unfold flags_ok; simpl; lia
      | repeat constructor; unfold is_byte; lia]|]). constructor.
  - simpl. lia.
  - split; [done|reflexivity].
  - exists head. eexists. split; [exact Hh|]. split; [exact H|]. reflexivity.
Defined.
