(* ===== verification/Ttcp.v ===== *)
(** * TTCP

    Models [src/example/ttcp]: a client that sends a number of payloads and waits for an
    acknowledgement of each, and its server, as two programs over two byte streams. [recv]
    fills its buffer or throws at the end of the stream, as [recv_all] shows; [send] is
    complete, as [send_all] shows, and does not wait for room: unlike those of [Pingpong],
    the two take turns, and what one sends the other receives next. *)

From stdpp Require Import relations.
From S2P Require Import Prelude Address.
Local Open Scope Z_scope.

(** ** Integers in memory *)

(** An [int32_t] in the memory of a little-endian machine, and read from it. *)
Definition int32_bytes (v : Z) : list Z := rev (be_bytes 4 (wrap 32 v)).
Definition bytes_int32 (l : list Z) : Z := to_int (be_value 0 (rev l)).

(** [htonl] and [ntohl] assigned to an [int32_t]. *)
Definition htonl_int (v : Z) : Z := to_int (host_to_network_32 (wrap 32 v)).

Definition is_int32 (v : Z) : Prop := - 2 ^ 31 <= v < 2 ^ 31.

Lemma wrap_to_int u : 0 <= u < 2 ^ 32 -> wrap 32 (to_int u) = u.
Proof.
  intros Hu. unfold wrap, to_int. rewrite Zminus_mod, Zmod_mod, <- Zminus_mod.
  replace (u + 2 ^ 31 - 2 ^ 31) with u by lia. by apply Z.mod_small.
Qed.

Lemma to_int_wrap v : is_int32 v -> to_int (wrap 32 v) = v.
Proof.
  unfold is_int32. intros Hv. unfold wrap, to_int. rewrite Zplus_mod_idemp_l, Z.mod_small by lia. lia.
Qed.

Lemma to_int_range z : is_int32 (to_int z).
Proof. unfold is_int32, to_int. pose proof (Z.mod_pos_bound (z + 2 ^ 31) (2 ^ 32) ltac:(lia)). lia. Qed.

Lemma int32_roundtrip v : is_int32 v -> bytes_int32 (int32_bytes v) = v.
Proof.
  intros Hv. unfold bytes_int32, int32_bytes. rewrite rev_involutive, be_value_bytes.
  change (8 * Z.of_nat 4) with 32. rewrite Z.add_0_l. unfold wrap. rewrite Zmod_mod. by apply to_int_wrap.
Qed.

Lemma length_int32_bytes v : length (int32_bytes v) = 4%nat.
Proof. unfold int32_bytes. by rewrite length_rev, length_be_bytes. Qed.

(** Four bytes, the other way round. *)
Lemma htonl_bytes a b c d : is_byte a -> is_byte b -> is_byte c -> is_byte d ->
  host_to_network_32 ((a * 256 + b) * 65536 + (c * 256 + d)) = (d * 256 + c) * 65536 + (b * 256 + a).
Proof.
  unfold is_byte. intros Ha Hb Hc Hd. unfold host_to_network_32.
  change 65535 with (Z.ones 16). rewrite land_ones_mod by lia. rewrite Z.shiftr_div_pow2 by lia.
  change (2 ^ 16) with 65536. rewrite Z.add_comm at 1. rewrite Z_mod_plus_full, Z.mod_small by lia.
  rewrite Z.div_add_l, (Z.div_small (c * 256 + d)), Z.add_0_r by lia. rewrite !swap16_bytes by (unfold is_byte; lia).
  rewrite Z.shiftl_mul_pow2 by lia. apply (lor_shift_add 16); lia.
Qed.

Lemma htonl_involutive u : is_u32 u -> host_to_network_32 (host_to_network_32 u) = u /\ is_u32 (host_to_network_32 u).
Proof.
  unfold is_u32. intros Hu.
  assert (exists a b c d, is_byte a /\ is_byte b /\ is_byte c /\ is_byte d /\ u = (a * 256 + b) * 65536 + (c * 256 + d))
    as (a & b & c & d & Ha & Hb & Hc & Hd & ->).
  { exists (u / 65536 / 256), (u / 65536 mod 256), (u mod 65536 / 256), (u mod 65536 mod 256). unfold is_byte.
    pose proof (Z.div_mod u 65536 ltac:(lia)). pose proof (Z.div_mod (u / 65536) 256 ltac:(lia)).
    pose proof (Z.div_mod (u mod 65536) 256 ltac:(lia)). pose proof (Z.mod_pos_bound u 65536 ltac:(lia)).
    pose proof (Z.mod_pos_bound (u / 65536) 256 ltac:(lia)). pose proof (Z.mod_pos_bound (u mod 65536) 256 ltac:(lia)).
    lia. }
  rewrite !htonl_bytes by done. unfold is_byte in *. lia.
Qed.

Lemma htonl_int_twice v : is_int32 v -> htonl_int (htonl_int v) = v.
Proof.
  intros Hv. unfold htonl_int. pose proof (wrap_range 32 v ltac:(lia)) as Hr.
  destruct (htonl_involutive (wrap 32 v) Hr) as [E Hr']. rewrite wrap_to_int by exact Hr'. rewrite E. by apply to_int_wrap.
Qed.

(** ** Programs *)

(** How a program ends: with success; having found a wrong length or number; by an
    exception; or its behaviour is undefined. *)
Inductive ending := Finished | CheckFailed | Threw | Undefined.

Inductive proc :=
| Recv (n : nat) (k : list Z -> proc)
| Send (data : list Z) (k : proc)
| Done (e : ending).

(** [ttcp_message], and [ttcp_payload_t] with its data. *)
Record ttcp_message := mk_message { number : Z; msg_length : Z }.

Definition message_bytes (m : ttcp_message) : list Z := int32_bytes (number m) ++ int32_bytes (msg_length m).
Definition bytes_message (l : list Z) : ttcp_message :=
  mk_message (bytes_int32 (take 4 l)) (bytes_int32 (drop 4 l)).

(** The loop that fills the payload: [n] bytes, of memory that holds [data]; [None] when it
    writes behind it. *)
Definition fill (n : Z) (data : list Z) : option (list Z) :=
  if Z.of_nat (length data) <? n then None
  else Some (map (fun i => nth (i mod 10) [49; 50; 51; 52; 53; 54; 55; 56; 57; 48] 0) (seq 0 (Z.to_nat n))
             ++ drop (Z.to_nat n) data).

Fixpoint client_loop (n : nat) (payload : list Z) (len : Z) : proc :=
  match n with
  | O => Done Finished
  | S n =>
      Send payload (Recv 4 (fun b =>
        let ack := bytes_int32 b in
        let ack := htonl_int ack in
        if negb (ack =? len) then Done CheckFailed else client_loop n payload len))
  end.

(** [ttcp_client], connected; [heap] is what the allocated memory holds. *)
Definition ttcp_client (heap : nat -> list Z) (message : ttcp_message) : proc :=
  let message := mk_message (number message) (htonl_int (msg_length message)) in
  let message := mk_message (htonl_int (number message)) (msg_length message) in
  Send (message_bytes message)
    (let ttcp_payload_bytes := wrap 64 (4 + host_to_network_32 (wrap 32 (msg_length message))) in
     let length := htonl_int (msg_length message) in
     match fill (msg_length message) (heap (Z.to_nat (ttcp_payload_bytes - 4))) with
     | None => Done Undefined
     | Some data =>
         client_loop (Z.to_nat (host_to_network_32 (wrap 32 (number message))))
           (int32_bytes length ++ data) (msg_length message)
     end).

Fixpoint server_loop (n : nat) (len : Z) : proc :=
  match n with
  | O => Done Finished
  | S n =>
      Recv 4 (fun b =>
        let ttcp_payload_len := bytes_int32 b in
        if negb (ttcp_payload_len =? len) then Done CheckFailed
        else Recv (Z.to_nat len) (fun _ => Send (int32_bytes ttcp_payload_len) (server_loop n len)))
  end.

(** [ttcp_server]; a vector of negative size throws. *)
Definition ttcp_server : proc :=
  Recv 8 (fun b =>
    let message := bytes_message b in
    let message := mk_message (number message) (htonl_int (msg_length message)) in
    let message := mk_message (htonl_int (number message)) (msg_length message) in
    if negb (0 <? number message) then Done CheckFailed
    else if msg_length message <? 0 then Done Threw
    else server_loop (Z.to_nat (number message)) (msg_length message)).

(** ** Two programs *)

(** A program, the stream it reads and the stream it writes. *)
Inductive proc_step : proc * list Z * list Z -> proc * list Z * list Z -> Prop :=
| do_recv n k i o : n <> 0%nat -> (n <= length i)%nat -> proc_step (Recv n k, i, o) (k (take n i), drop n i, o)
| do_send d k i o : proc_step (Send d k, i, o) (k, i, o ++ d).

(** [recv] throws at the end of a stream, and when there is nothing to receive. *)
Definition at_eof (p q : proc) (i : list Z) : Prop :=
  match p with
  | Recv n _ => n = 0%nat \/ ((length i < n)%nat /\ exists e, q = Done e)
  | _ => False
  end.

Record system := mk_system { client : proc; server : proc; to_server : list Z; to_client : list Z }.

Inductive step : system -> system -> Prop :=
| step_client p p' q i o i' o' : proc_step (p, i, o) (p', i', o') -> step (mk_system p q o i) (mk_system p' q o' i')
| step_server p q q' i o i' o' : proc_step (q, i, o) (q', i', o') -> step (mk_system p q i o) (mk_system p q' i' o')
| step_client_eof p q i o : at_eof p q i -> step (mk_system p q o i) (mk_system (Done Threw) q o i)
| step_server_eof p q i o : at_eof q p i -> step (mk_system p q i o) (mk_system p (Done Threw) i o).

(** A program does the same when more is there to read and something else was written. *)
Lemma proc_step_frame p i o p' i' o' : proc_step (p, i, o) (p', i', o') ->
  exists d, o' = o ++ d /\ (forall x y, proc_step (p, i ++ x, y) (p', i' ++ x, y ++ d)) /\
    forall y, proc_step (p, i, y) (p', i', y ++ d).
Proof.
  intros Hs. assert (exists d, o' = o ++ d /\ forall x y, proc_step (p, i ++ x, y) (p', i' ++ x, y ++ d)) as (d & E & Hd).
  { inversion Hs as [n k i0 o0 Hn Hl|d k i0 o0]; subst.
    - exists []. rewrite app_nil_r. split; [done|]. intros x y. rewrite app_nil_r.
      rewrite <- drop_app_le, <- (take_app_le _ x) by done. constructor; [done|]. rewrite length_app. lia.
    - exists d. split; [done|]. intros x y. constructor. }
  exists d. split_and!; [done..|]. intros y. specialize (Hd [] y). by rewrite !app_nil_r in Hd.
Qed.

Lemma proc_step_det x y z : proc_step x y -> proc_step x z -> y = z.
Proof. destruct 1; by inversion 1. Qed.

Lemma proc_step_eof p q i o y : at_eof p q i -> ~ proc_step (p, i, o) y.
Proof. intros He Hs. inversion Hs; subst; cbn in He; [lia|done]. Qed.

(** The other program cannot step at the end of the stream, unless nothing was asked for. *)
Lemma at_eof_other p q i j o q' j' o' d : at_eof p q i -> proc_step (q, j, o) (q', j', o') -> at_eof p q' (i ++ d).
Proof. destruct p as [n k| |]; cbn; try done. intros [->|[_ [e ->]]]; [auto|inversion 1]. Qed.

Lemma at_eof_both p q i j : at_eof p q i -> at_eof q p j -> at_eof p (Done Threw) i /\ at_eof q (Done Threw) j.
Proof. destruct p, q; cbn; try done; intros [->|[? [e He]]] [->|[? [e' He']]]; auto; congruence. Qed.

(** What the two do does not depend on who comes first. *)
Lemma step_diamond s a b : step s a -> step s b -> a = b \/ exists c, step a c /\ step b c.
Proof.
  destruct 1 as [p p' q i o i' o' Hp|p q q' i o i' o' Hq|p q i o He|p q i o He];
    inversion 1 as [p1 p1' q1 i1 o1 i1' o1' Hp1|p1 q1 q1' i1 o1 i1' o1' Hq1|p1 q1 i1 o1 He1|p1 q1 i1 o1 He1]; subst.
  - left. pose proof (proc_step_det _ _ _ Hp Hp1) as E. by injection E as -> -> ->.
  - right. destruct (proc_step_frame _ _ _ _ _ _ Hp) as (d & -> & Hp' & Hp2).
    destruct (proc_step_frame _ _ _ _ _ _ Hq1) as (d' & -> & Hq' & Hq2).
    eexists. split; [apply step_server, Hq'|apply step_client, Hp'].
  - by destruct (proc_step_eof _ _ _ _ _ He1 Hp).
  - right. destruct (proc_step_frame _ _ _ _ _ _ Hp) as (d & -> & Hp' & Hp2).
    eexists. split; [apply step_server_eof; by eapply at_eof_other|].
    apply step_client, Hp2.
  - right. destruct (proc_step_frame _ _ _ _ _ _ Hq) as (d & -> & Hq' & Hq2).
    destruct (proc_step_frame _ _ _ _ _ _ Hp1) as (d' & -> & Hp' & Hp2).
    eexists. split; [apply step_client, Hp'|apply step_server, Hq'].
  - left. pose proof (proc_step_det _ _ _ Hq Hq1) as E. by injection E as -> -> ->.
  - right. destruct (proc_step_frame _ _ _ _ _ _ Hq) as (d & -> & Hq' & Hq2).
    eexists. split; [apply step_client_eof; by eapply at_eof_other|].
    apply step_server, Hq2.
  - by destruct (proc_step_eof _ _ _ _ _ He1 Hq).
  - by destruct (proc_step_eof _ _ _ _ _ He Hp1).
  - right. destruct (proc_step_frame _ _ _ _ _ _ Hq1) as (d & -> & Hq' & Hq2).
    eexists. split; [apply step_server, Hq2|].
    apply step_client_eof. by eapply at_eof_other.
  - by left.
  - right. destruct (at_eof_both _ _ _ _ He He1) as [H1 H2]. eexists.
    split; [by apply step_server_eof|by apply step_client_eof].
  - right. destruct (proc_step_frame _ _ _ _ _ _ Hp1) as (d & -> & Hp' & Hp2).
    eexists. split; [apply step_client, Hp2|].
    apply step_server_eof. by eapply at_eof_other.
  - by destruct (proc_step_eof _ _ _ _ _ He Hq1).
  - right. destruct (at_eof_both _ _ _ _ He He1) as [H1 H2]. eexists.
    split; [by apply step_client_eof|by apply step_server_eof].
  - by left.
Qed.

(** Hence all runs are as long as one that ends, and end where it ends. *)
Lemma runs_step n s f a : nsteps step n s f -> (forall t, ~ step f t) -> step s a ->
  exists k, n = S k /\ nsteps step k a f.
Proof.
  intros Hn Hf. revert a. induction Hn as [s|n s b f Hb Hn IH]; intros a Ha; [by destruct (Hf a)|].
  exists n. split; [done|]. destruct (step_diamond s a b Ha Hb) as [->|(c & Hac & Hbc)]; [done|].
  destruct (IH Hf c Hbc) as (k & -> & Hk). by econstructor.
Qed.

Lemma runs_converge n s f : nsteps step n s f -> (forall t, ~ step f t) -> forall m t, nsteps step m s t ->
  exists k, n = (m + k)%nat /\ nsteps step k t f.
Proof.
  intros Hn Hf m t Hm. revert n Hn. induction Hm as [s|m s a t Ha _ IH]; intros n Hn; [by exists n|].
  destruct (runs_step n s f a Hn Hf Ha) as (k & -> & Hk). destruct (IH k Hk) as (j & -> & Hj). by exists j.
Qed.

(** ** A run *)

Lemma fill_length n data : n <= Z.of_nat (length data) ->
  exists data', fill n data = Some data' /\ length data' = length data.
Proof.
  intros Hn. unfold fill. destruct (Z.ltb_spec (Z.of_nat (length data)) n); [lia|]. eexists. split; [done|].
  rewrite length_app, length_map, length_seq, length_drop. lia.
Qed.

(** One payload and its acknowledgement. *)
Lemma round n L data : is_int32 L -> 0 < L -> length data = Z.to_nat L ->
  nsteps step 5 (mk_system (client_loop (S n) (int32_bytes L ++ data) (htonl_int L)) (server_loop (S n) L) [] [])
    (mk_system (client_loop n (int32_bytes L ++ data) (htonl_int L)) (server_loop n L) [] []).
Proof.
  intros HL Hpos Hdata. cbn [client_loop server_loop]. set (payload := int32_bytes L ++ data).
  assert (take 4 payload = int32_bytes L /\ drop 4 payload = data) as [Ht Hd]
    by (split; [apply take_app_length'|apply drop_app_length']; by rewrite length_int32_bytes).
  eapply nsteps_l; [apply step_client, do_send|]. rewrite app_nil_l.
  eapply nsteps_l; [apply step_server, (do_recv 4); [done|unfold payload; rewrite length_app, length_int32_bytes; lia]|].
  rewrite Ht, Hd, int32_roundtrip, Z.eqb_refl by done. cbn [negb].
  eapply nsteps_l; [apply step_server, do_recv; [lia|by rewrite Hdata]|].
  rewrite drop_ge by lia. eapply nsteps_l; [apply step_server, do_send|]. rewrite app_nil_l.
  eapply nsteps_l; [apply step_client, (do_recv 4); [done|by rewrite length_int32_bytes]|].
  rewrite take_ge, drop_ge by by rewrite length_int32_bytes. rewrite int32_roundtrip, Z.eqb_refl by done.
  apply nsteps_O.
Qed.

Lemma rounds n L data : is_int32 L -> 0 < L -> length data = Z.to_nat L ->
  nsteps step (n * 5) (mk_system (client_loop n (int32_bytes L ++ data) (htonl_int L)) (server_loop n L) [] [])
    (mk_system (Done Finished) (Done Finished) [] []).
Proof.
  intros HL Hpos Hdata. induction n as [|n IH]; [apply nsteps_O|].
  eapply nsteps_trans; [by apply (round n L data)|exact IH].
Qed.

Lemma message_roundtrip m : is_int32 (number m) -> is_int32 (msg_length m) -> bytes_message (message_bytes m) = m.
Proof.
  intros H1 H2. unfold bytes_message, message_bytes. rewrite take_app_length', drop_app_length' by by rewrite length_int32_bytes.
  rewrite !int32_roundtrip by done. by destruct m.
Qed.

Lemma ttcp_run heap N L : 0 < N < 2 ^ 31 -> 0 < L < 2 ^ 31 -> htonl_int L <= L -> (forall n, length (heap n) = n) ->
  nsteps step (2 + Z.to_nat N * 5) (mk_system (ttcp_client heap (mk_message N L)) ttcp_server [] [])
    (mk_system (Done Finished) (Done Finished) [] []).
Proof.
  intros HN HL Hov Hheap. assert (is_int32 N /\ is_int32 L) as [HN' HL'] by (unfold is_int32; lia).
  assert (forall v, 0 < v < 2 ^ 31 -> host_to_network_32 (wrap 32 (htonl_int v)) = v) as Hntoh.
  { intros v Hv. unfold htonl_int. rewrite (wrap_small 32 v) by lia.
    destruct (htonl_involutive v) as [E Hr]; [unfold is_u32; lia|]. by rewrite wrap_to_int. }
  unfold ttcp_client, ttcp_server. cbn [msg_length number]. rewrite !Hntoh by done.
  rewrite (htonl_int_twice L) by done. rewrite (wrap_small 64) by lia. replace (4 + L - 4) with L by lia.
  destruct (fill_length (htonl_int L) (heap (Z.to_nat L))) as (data & -> & Hdata); [rewrite Hheap; lia|].
  rewrite Hheap in Hdata. set (m := mk_message (htonl_int N) (htonl_int L)).
  eapply nsteps_l; [apply step_client, do_send|]. rewrite app_nil_l.
  assert (length (message_bytes m) = 8%nat) as Hm by (unfold message_bytes; by rewrite length_app, !length_int32_bytes).
  eapply nsteps_l; [apply step_server, (do_recv 8); [done|by rewrite Hm]|].
  rewrite take_ge, drop_ge by by rewrite Hm.
  rewrite message_roundtrip by apply to_int_range. cbn [m number msg_length].
  rewrite !htonl_int_twice by done. destruct (Z.ltb_spec 0 N); [|lia]. destruct (Z.ltb_spec L 0); [lia|]. cbn [negb].
  apply rounds; [done|lia|done].
Qed.

(** C32: TTCP. For a positive number of payloads of a positive length, when an [int] counts
    the bytes of a payload with its length, and the length with its bytes reversed is not
    above the length - it counts the bytes that the client writes to the payload: however
    the two programs interleave, each run can go on, for as many steps as are missing to
    twice and five times the number, and only to both having finished, every payload
    acknowledged and nothing left in the streams. When it is above, as for each length below
    128, the client writes behind the memory it has allocated. *)
Theorem ttcp_correct heap N L : 0 < N < 2 ^ 31 -> 0 < L < 2 ^ 31 -> (forall n, length (heap n) = n) ->
  let start := mk_system (ttcp_client heap (mk_message N L)) ttcp_server [] [] in
  (L + 4 < 2 ^ 31 -> htonl_int L <= L -> forall m t, nsteps step m start t ->
     exists k, (2 + Z.to_nat N * 5 = m + k)%nat /\
       nsteps step k t (mk_system (Done Finished) (Done Finished) [] [])) /\
  (L < htonl_int L -> exists t, step start t /\ client t = Done Undefined) /\
  (L < 128 -> L < htonl_int L).
Proof.
  intros HN HL Hheap start. split; [|split].
  - intros _ Hov m t Hm. apply (runs_converge _ start); [by apply ttcp_run| |done].
    intros t' Hs. inversion Hs as [? ? ? ? ? ? ? Hp|? ? ? ? ? ? ? Hp|? ? ? ? He|? ? ? ? He]; subst; [inversion Hp..|done|done].
  - intros Hov. eexists. split; [apply step_client, do_send|]. cbn [client msg_length number].
    assert (host_to_network_32 (wrap 32 (htonl_int L)) = L) as ->.
    { unfold htonl_int. rewrite (wrap_small 32 L) by lia.
      destruct (htonl_involutive L) as [E Hr]; [unfold is_u32; lia|]. by rewrite wrap_to_int. }
    rewrite (wrap_small 64) by lia. replace (4 + L - 4) with L by lia. unfold fill. rewrite Hheap.
    destruct (Z.ltb_spec (Z.of_nat (Z.to_nat L)) (htonl_int L)); [done|lia].
  - intros Hlt. unfold htonl_int. rewrite wrap_small by lia.
    pose proof (htonl_bytes 0 0 0 L) as E. unfold is_byte in E. replace ((0 * 256 + 0) * 65536 + (0 * 256 + L)) with L in E by lia.
    rewrite E, to_int_small by lia. lia.
Qed.

(** Two payloads of 65536 bytes are transferred; for one of 8 the client is undefined. *)
Lemma ttcp_correct_witness :
  let start N L := mk_system (ttcp_client (fun n => replicate n 0) (mk_message N L)) ttcp_server [] [] in
  nsteps step 12 (start 2 65536) (mk_system (Done Finished) (Done Finished) [] []) /\
  exists t, step (start 1 8) t /\ client t = Done Undefined.
Proof.
  cbv zeta. split.
  - destruct (ttcp_correct (fun n => replicate n 0) 2 65536) as [H _]; [split; reflexivity|split; reflexivity| |].
    + intros n. apply length_replicate.
    + assert (Hov : htonl_int 65536 <= 65536) by discriminate.
      destruct (H eq_refl Hov 0%nat _ (nsteps_O _ _)) as (k & Ek & Hk). change (2 + Z.to_nat 2 * 5)%nat with 12%nat in Ek. cbn [Nat.add] in Ek.
      rewrite Ek. exact Hk.
  - destruct (ttcp_correct (fun n => replicate n 0) 1 8) as (_ & H & H'); [split; reflexivity|split; reflexivity| |].
    + intros n. apply length_replicate.
    + apply H, H'. reflexivity.
Defined.
