(* ===== verification/UnitTests.v ===== *)
(** * The unit tests

    The cases of [src/test] that need no kernel, on the models: [websocket_frame_test.cpp],
    [socket_address_test.cpp], [coroutine_test.cpp] and a case of
    [socket_sync_operation_test.cpp], as functions that give what is checked. They evaluate
    to what the tests expect; the case with a million tasks is proved for any number. *)

From Stdlib Require Import String.
From stdpp Require Import gmap strings.
From S2P Require Import Prelude WsFrame Errors Address Descriptor Promise Task.
Local Open Scope Z_scope.

(** ** [websocket_frame_test.cpp] *)

Definition bytes_span (l : list Z) : list (list Z) := (fun b => [b]) <$> l.

(** The first case, behind its subcases: the three checks. *)
Definition frame_header_test (flags length : Z) : option (bool * bool * bool) :=
  let header := frame_header_view (frame_header_make flags length) in
  '(parser, ret) ← parse_span OtherElement (bytes_span header) parser_init;
  Some (ret =? Z.of_nat (List.length header), flags =? parser_flags parser, length =? parser_length parser).

Definition passed : option (bool * bool * bool) := Some (true, true, true).

(** The flags of the last subcase, and of the second test. *)
Definition test_flags : Z :=
  flags_or_assign (flags_or_assign (flags_or_assign WS_NONE WS_FIN) WS_HAS_MASK) WS_OP_PING.

Example frame_header_zero : frame_header_test WS_NONE 0 = passed.
Proof. vm_compute. reflexivity. Qed.
Example frame_header_7 : frame_header_test WS_NONE 120 = passed.
Proof. vm_compute. reflexivity. Qed.
Example frame_header_126 : frame_header_test WS_NONE 126 = passed.
Proof. vm_compute. reflexivity. Qed.
Example frame_header_16 : frame_header_test WS_NONE (0xffff - 1234) = passed.
Proof. vm_compute. reflexivity. Qed.
Example frame_header_64 : frame_header_test WS_NONE (0xffff + 1) = passed.
Proof. vm_compute. reflexivity. Qed.
Example frame_header_fin : frame_header_test (flags_or_assign WS_NONE WS_FIN) 120 = passed.
Proof. vm_compute. reflexivity. Qed.
Example frame_header_mask : frame_header_test (flags_or_assign WS_NONE WS_HAS_MASK) UINT32_MAX = passed.
Proof. vm_compute. reflexivity. Qed.
Example frame_header_flags : frame_header_test test_flags 120 = passed.
Proof. vm_compute. reflexivity. Qed.

(** The second case: the header in two parts, split behind [span1_length]. *)
Definition frame_header_split_test (flags length : Z) (span1_length : nat) : option (bool * bool * bool) :=
  let header := frame_header_view (frame_header_make flags length) in
  '(parser, ret1) ← parse_span OtherElement (bytes_span (take span1_length header)) parser_init;
  '(parser, _) ← parse_span OtherElement (bytes_span (drop span1_length header)) parser;
  Some (ret1 =? npos, flags =? parser_flags parser, length =? parser_length parser).

Example frame_header_splits :
  let header := frame_header_view (frame_header_make test_flags 120) in
  forallb (fun n => bool_decide (frame_header_split_test test_flags 120 n = passed)) (seq 0 (List.length header)) = true.
Proof. vm_compute. reflexivity. Qed.

(** ** [socket_address_test.cpp] *)

Local Open Scope string_scope.

(** What the cases print, with an [inet_pton] that reads dotted numbers. *)
Definition address_tests : list string :=
  let addr := socket_address_ip read_address "123.123.123.123" 80 in
  let '(move_addr, moved) := socket_address_move addr in
  [to_str socket_address_default; to_str (socket_address_port 25565);
   to_str (mk_sockaddr AF_INET (host_to_network_16 25565) (default 0%Z (read_address "127.0.0.1")));
   to_str (socket_address_ip read_address "127.0.0.1" 25565);
   to_str moved; to_str move_addr].

Example addresses_printed : address_tests =
  ["0.0.0.0:0"; "0.0.0.0:25565"; "127.0.0.1:25565"; "127.0.0.1:25565"; "0.0.0.0:0"; "123.123.123.123:80"].
Proof. vm_compute. reflexivity. Qed.

Local Close Scope string_scope.

(** ** [socket_sync_operation_test.cpp] *)

(** [init] twice: the descriptor before and after, and what has been closed. *)
Definition init_twice_test (open : gset Z) : Z * Z * list Z :=
  let '(_, sw) := init_throw (socket_default, mk_table open [] false) in
  let fd := m_fd sw.1 in
  let '(_, sw) := init_throw sw in
  (fd, m_fd sw.1, closed_fds sw.2).

Example init_twice : init_twice_test {[0; 1; 2]} = (3, 3, [3]).
Proof. vm_compute. reflexivity. Qed.

(** ** [coroutine_test.cpp] *)

Section coroutine_tests.

#[local] Instance z_void : Void Z := 0.

Abbreviation kind := (value_kind + void_kind)%type.
Abbreviation promise := (task_promise Z nat + task_promise_void nat)%type.
Abbreviation body := (Task.body (K := kind) (V := Z) (E := nat)).
Abbreviation machine := (Task.machine (K := kind) (P := promise) (V := Z) (E := nat)).

(** [broken_promise] as an exception. *)
Definition broken : nat := 7.

Fixpoint machine_run (fuel : nat) (s : machine) : machine :=
  match fuel with
  | O => s
  | S fuel => match machine_step broken s with Some s => machine_run fuel s | None => s end
  end.

Definition run_body (fuel : nat) (b : body) : machine :=
  machine_run fuel (mk_machine {[0%nat := set_body b (frame_init (inr VoidType) b)]} (Running 0) []).

(** The frames that have been started, but for the first. *)
Definition started (s : machine) : list bool := (fun f => f_started f.2) <$> map_to_list (delete 0%nat (frames s)).

(** The first case: a task is called; then it is awaited. *)
Definition lazy_test : body :=
  Call (inr VoidType) (Finish (inl 0)) (fun t => Await CoAwait (Some t) (fun _ => Finish (inl 0))).

Example task_not_started : started (run_body 1 lazy_test) = [false] /\ started (run_body 10 lazy_test) = [true].
Proof. split; vm_compute; reflexivity. Qed.

(** The second case: a default-constructed task is awaited. *)
Definition default_task_test : body :=
  Await CoAwait None (fun r => match r with inr e => if (e =? broken)%nat then Finish (inl 1) else Finish (inr e) | inl _ => Finish (inl 0) end).

Example default_task_throws : eval broken 3 default_task_test ∅ [] = Some (inl 1, ∅, []).
Proof. reflexivity. Qed.

(** The third case: [n] tasks that end when they are awaited, each a temporary; the sum,
    which the test leaves unused, is returned. *)
Fixpoint synchronous_completions (n : nat) (sum : Z) : body :=
  match n with
  | O => Finish (inl sum)
  | S n =>
      Call (inl ValueType) (Finish (inl 1)) (fun t =>
        Await CoAwait (Some t) (fun r =>
          match r with
          | inl v => Drop t (synchronous_completions n (sum + v))
          | inr e => Drop t (Finish (inr e))
          end))
  end.

(** Any number of tasks is awaited, one after the other, and none is left. *)
Theorem synchronous_completions_sum n sum h : forall fuel, (3 * n < fuel)%nat ->
  eval broken fuel (synchronous_completions n sum) h [] = Some (inl (sum + Z.of_nat n), h, []).
Proof.
  revert sum. induction n as [|n IH]; intros sum fuel Hf.
  - destruct fuel; [lia|]. cbn. by rewrite Z.add_0_r.
  - destruct fuel as [|[|[|[|fuel]]]]; try lia. cbn [synchronous_completions eval].
    assert (h !! fresh (dom h) = None) as Hn by apply not_elem_of_dom, is_fresh.
    rewrite lookup_insert_eq. cbn [eval mbind option_bind kept returned]. cbn.
    rewrite lookup_insert_eq, !delete_insert_eq, delete_id by done.
    etrans; [exact (IH (sum + 1) (S fuel) ltac:(lia))|]. by replace (sum + 1 + Z.of_nat n) with (sum + Z.of_nat (S n)) by lia.
Qed.

End coroutine_tests.
